(* ===== verification/_CoqProject ===== *)
-Q . S2P
Prelude.v
BTree.v
Core.v
Json.v
Dns.v
Net.v
Routing.v
Orchestration.v
Provider.v
ProviderService.v
GlpiPlan.v
GlpiBase.v
GlpiConfig.v
GlpiTransport.v
GlpiSession.v
GlpiMutation.v
GlpiPayload.v
GlpiSearch.v
GlpiAdapter.v
GlpiWire.v
GlpiServer.v
GlpiConverge.v
GlpiReference.v
AuthBase.v
AuthJwks.v
AuthClaims.v
AuthCache.v
AuthWalk.v
AuthTrust.v
AuthRefresh.v
AuthConcurrent.v
Http.v
Admission.v
Capacity.v
System.v
EndToEnd.v
Served.v
Failure.v
Observability.v
Configuration.v
Transport.v
Serve.v
Process.v
