(* ===== verification/Prelude.v ===== *)
(** * PermissionSync: a verification development

    PermissionSync receives a login event over HTTPS from a technical caller,
    authenticates the caller's bearer token, asks a Permission Provider for the
    desired permissions of the identity that logged in, and reconciles the
    selected target (GLPI) to them.  This library models that path and proves
    what makes it correct.

    ** The program and its parts

    One request goes through: inbound admission (bounded waiting, shutdown), the
    inbound handler (bearer, authentication, body, outcome), the authenticator
    (trusted key cache, one refresh per attempt, claims), the selected-target
    orchestration (routing, capacity permit, Provider, Adapter), the generic REST
    Provider, and the GLPI adapter (session, searches, plan, mutations,
    verification).  Composition builds these from the configuration.  Around this
    path the process reads and validates one configuration file, initializes
    observability, binds the listener, accepts connections, hands each request to
    the HTTP transport (deadline, admission, body), and on a signal shuts down in
    bounded phases.

    ** Method

    Pure functions of the source are functions here.  Asynchronous code is a
    state-passing function ([Eff]) over an arbitrary world [W], with the
    chronological trace of what it observed and did ([Tr], [event]).  The world
    answers clock reads, cancellation polls and every outbound call, and may
    change between two of them in any way, so every theorem holds whatever other
    requests, the clock and the remote servers do.  [emits] is the logic of these
    traces: what a computation appends, with its result; [sure] is a Hoare logic of
    states, for what a well-behaved environment guarantees, and [preserves] the part of
    it about assertions on the world that every operation keeps.  Ports of the source are
    type classes (the traits [PermissionProvider], [TargetAdapter],
    [SynchronizationCapacity]); clients are proved against the class and the
    implementations are instances.  Library code that is not part of the
    repository (JSON, URL, MIME, JOSE and TLS libraries, DNS messages, Tokio's
    semaphore) is a field of a class, with its laws as fields where a proof needs
    one ([DnsNames], [ProviderDeps], [GlpiDeps], [GlpiConfigDeps],
    [TransportDeps], [AuthDeps], [Semaphore], [ExportDeps], [YamlDeps],
    [HyperServer], [AcceptErrno]).  Durations and instants are
    nanoseconds in [Z] with Rust's checked arithmetic; [u64] values are [N] with
    their bound; claim dates are IEEE binary64 numbers.

    ** Files

    - [Prelude]: results, checked arithmetic, the effect type and its logic,
      bytes and strings.  [BTree]: ordered maps and sorting.  [Json]: JSON values.
    - [Core]: [permissionsync-core] (target grammar, carriers, ports).
    - [Routing]: [permissionsync-routing], [TargetRouter].
    - [Orchestration]: [permissionsync-orchestration], [synchronize].
    - [Dns], [Net]: the one-shot DNS resolution and the connection stages that
      [permissionsync-provider-generic-rest/src/client.rs] and
      [permissionsync-adapter-glpi/src/transport.rs] have in common.
    - [Provider]: [permissionsync-provider-generic-rest] ([lib.rs], [client.rs],
      [wire.rs], [error.rs]).  [ProviderService]: a resolution against a service that
      keeps the wire contract ([ServingProvider]).
    - [GlpiBase] (errors, requests, deadline window), [GlpiConfig]
      ([config.rs]), [GlpiTransport] ([transport.rs]), [GlpiSession]
      ([session.rs]), [GlpiMutation] ([mutation.rs]), [GlpiPayload]
      ([payload.rs]), [GlpiSearch] ([search.rs]), [GlpiPlan] ([plan.rs]) and
      [GlpiAdapter] ([adapter.rs]): [permissionsync-adapter-glpi].  [GlpiWire]: the HTTP
      request of each operation, and which rows a run deletes.
    - [GlpiServer]: what a GLPI that keeps its documented REST contract does to its
      tables ([CompliantGlpi]), and a program logic for the adapter's operations
      against it; [GlpiConverge]: reconciliation against it; [GlpiReference]: an
      executable GLPI that is an instance of the contract.
    - [AuthBase] ([config.rs], [context.rs], [types.rs], [error.rs]), [AuthJwks]
      ([jwks.rs]), [AuthClaims] ([claims.rs], [clock.rs]) and [AuthCache]
      ([authenticator.rs]): [permissionsync-auth].  [AuthTrust]: authentication
      against a trusted source that publishes its keys ([TrustedSource]);
      [AuthRefresh]: many requests refreshing the one cache of [authenticator.rs],
      as a transition system; [AuthConcurrent]: the code of [AuthCache] is one of the
      requests of that system ([SharedWorld]); [AuthWalk]: assertions on the world that
      an authentication keeps.
    - [Http]: [permissionsync-inbound-http], [handle].
    - [Admission] ([src/runtime/admission.rs], [lifecycle.rs]) and [Capacity]
      ([src/runtime/capacity.rs]).
    - [System]: [src/composition.rs], [src/configuration.rs], and the composed
      request path.  [EndToEnd]: that path in front of a compliant GLPI.  [Served]: that
      path when all three remote systems keep their contracts and time suffices.
    - [Failure] ([src/runtime/failure.rs]); [Observability]
      ([src/runtime/observability.rs], [otlp.rs]); [Configuration]
      ([src/runtime/configuration.rs]); [Transport]
      ([src/runtime/transport.rs]).
    - [Serve] and [Process]: [src/runtime/mod.rs] and [src/main.rs], the accept loop
      and the phases of shutdown, and startup, signals, warm-up and exit.

    ** What the theorems show

    - End to end ([System]): a request answered [Changed] or [Unchanged] is one
      chain of a successful authentication of the presented token, a capacity
      permit, a Provider answer for that caller and identity, a reconciliation to
      that answer, and the return of the permit; composition fails exactly on
      invalid or repeated targets.  In front of a compliant GLPI ([EndToEnd]) such an
      answer means that GLPI's tables hold exactly the state the Provider answered in
      that very chain.
      Conversely ([Served]) a login with a genuine token for a configured target is
      answered so, and enforced, when the trusted source, the Provider service and GLPI
      keep their contracts and nothing keeps the request waiting past its deadline.
    - Convergence ([GlpiConverge]): against a compliant GLPI a reconciliation whose
      desired state GLPI can express takes the owner's rows to exactly that state and
      leaves all others alone, or was interrupted by a cancellation or a deadline; a
      second one finds nothing to do.
    - GLPI: a successful reconciliation carried out the whole plan and verified a
      canonical final state; a failed one stopped at a well-defined prefix; the
      plan converges, is minimal and independent of input order; every request is
      that of its operation, and only rows the run was shown before are deleted
      ([GlpiWire]); pagination is complete and terminates; acknowledgements,
      pages and payloads are accepted exactly as specified; every request is
      inside its deadline window; one transport request is one exchange.
    - Authentication: accepted tokens are verified by a key of the very snapshot
      read last, with valid claims, fresh or within the stale grace after a failed
      retrieval; at most one refresh per attempt; failures leave the cache as it
      was; key sets, claims and scopes are decided exactly; documents are bounded.
      A genuine token is accepted, through a key rotation too, or the request was
      cancelled ([AuthTrust]).  However requests interleave ([AuthRefresh]) one holds
      the refresh guard, a successful refresh left a newer generation, nobody waits
      for a lost guard, and one generation is replaced once per freshness period; and
      every run of [authenticate] among requests that take such steps is itself a run of
      that system ([AuthConcurrent]), so these hold of the code.
    - Handler, orchestration and routing: call order, at-most-once, checks
      immediately before each call, the permit released on every path, exact
      bearer grammar, and the router's refinement of its configuration.
    - Provider: one attempt, exact response metadata, exact CNAME resolution; against
      a service that answers, the result is its answer ([ProviderService]).
    - Runtime: bounded admission, no admission after shutdown, no lost wakeup
      ([Admission], a transition system with reachability by rule induction);
      capacity permits are balanced.
    - Transport: one request is admitted, read, handled and answered in that order,
      with the bytes that were sent, one outcome and the admission given back;
      bodies are collected exactly within the limit and the deadline, with a bounded
      number of reallocations; a readiness probe never answers 200 at a wake-up that
      sees shutdown.
    - Serving: the accept loop fails exactly at the sixteenth failure in a row that
      shows an unusable listener, is paced under resource pressure, and stops at
      the request for shutdown; shutdown loses no connection and takes at most the
      grace period and one window; with a configuration that loads, requests that
      keep their deadline are never cancelled.
    - Process: configuration is well formed when it loads; nothing is initialized,
      bound or served before; the exporter is flushed on every exit after
      initialization, sends only to its configured origin, and with its own
      headers only.

    ** Bounds

    The pagination loop runs on a binary count of [2^64] iterations
    ([PAGE_FUEL]); every continuing page advances a [u64] start index, and
    [search_loop_breaks] proves that the count is never exhausted.  The CNAME
    loop has one iteration more than the answer has records; each continuing
    iteration adopts a new name, and the proof shows that the fixed point is
    reached.  The accept loop is given one pass more than twice the listener's
    answers; every pass that goes on uses an answer or removes a connection, and
    [accept_loop_decided] proves that the passes suffice.  A readiness probe is
    followed for any number of wake-ups.  All other recursion is structural.

    ** Assumptions about other systems

    [CompliantGlpi] is GLPI's documented REST behaviour, per request and per table,
    and that nobody else changes the tables between two requests of one run; it says
    nothing about reconciliations.  Searches may return hits that only contain the
    searched text, in any order, in pages, and ids fit [u64].  [GlpiReference] shows
    that the class has an instance, whose run the witnesses evaluate.  [TrustedSource]
    says that the source serves its documents, that others only ever replace the
    cache by the published keys, acquired since the attempt began, and that the
    attempt takes at most one freshness period; [Undisturbed] that the clock, the
    counters and the permit do not touch GLPI.  [ServingProvider] says that the name
    server, the connection stages and the service answer, the service with a response
    that carries a desired state for the identity.  [SharedWorld] says that the cache,
    the refresh mutex and the monotonic clock are shared, and that other requests only
    take steps of [AuthRefresh].  [Separate] says that GLPI's tables change through the
    adapter's requests only, and [unhurried] that clock readings stay before the
    deadline, nobody cancels, and locks and a permit are granted.  Each has an instance
    in the [Sample] of its file.

    ** Not modelled

    Socket, TLS and HTTP/1 I/O (Tokio, Hyper, native-tls, Hickory) beyond the
    order and the answers of its stages; in particular when Hyper's future for a
    connection resolves, and its header-read timeout, are a parameter
    ([HyperServer]).  Axum's routing of unsupported paths, the YAML parser, the
    Prometheus recorder and its rendering, the OpenTelemetry SDK, and tracing
    spans.  The accept loop's reactions take no time in [Serve]; only its waits do.

    What is left of the sources: tests, imports, accessors, the construction of library
    clients, and the texts of errors and log lines.  The helpers that the Provider's
    client and the GLPI transport both contain are modelled once, in [Dns] and [Net].
    No theorem is stated of the redacting [Debug] printers.  An access to the cache
    under its read or write guard is one step in [AuthRefresh] and [AuthConcurrent];
    only the refresh guard is held across steps. *)

From Stdlib Require Export Ascii.
From stdpp Require Export base tactics list option numbers strings pretty.
From stdpp Require Export sorting gmap.

(** ** Results and the [?] operator *)

(** Rust's [Result<A, E>]. *)
Inductive result (A E : Type) : Type :=
| Ok (a : A)
| Err (e : E).
Arguments Ok {A E} a.
Arguments Err {A E} e.

Definition is_ok {A E} (r : result A E) : bool :=
  match r with Ok _ => true | Err _ => false end.

(** [Option::ok_or]. *)
Definition ok_or {A E} (o : option A) (e : E) : result A E :=
  match o with Some a => Ok a | None => Err e end.

(** [Result::map_err]. *)
Definition map_err {A E F} (f : E -> F) (r : result A E) : result A F :=
  match r with Ok a => Ok a | Err e => Err (f e) end.

Definition rbind {A B E} (r : result A E) (k : A -> result B E) : result B E :=
  match r with Ok a => k a | Err e => Err e end.

Declare Scope rust_scope.
Delimit Scope rust_scope with rust.

Notation "'let?' x ':=' r 'in' k" := (rbind r (fun x => k))
  (at level 10, x pattern, r at level 100, k at level 200)
  : rust_scope.

Lemma rbind_ok_inv {A B E} (r : result A E) (k : A -> result B E) b :
  rbind r k = Ok b -> exists a, r = Ok a /\ k a = Ok b.
Proof. destruct r; simpl; naive_solver. Qed.

Lemma ok_or_ok_inv {A E} (o : option A) (e : E) a : ok_or o e = Ok a <-> o = Some a.
Proof. destruct o; simpl; naive_solver. Qed.

(** ** Machine integers, durations and instants

    [u64] and [usize] (64-bit targets) are [N] with the width written out where
    the source checks it.  [Duration] and [Instant] are whole nanoseconds in
    [Z]: a [Duration] holds [u64] seconds plus nanoseconds, an [Instant] holds
    [i64] seconds plus nanoseconds. *)
Definition U64_MAX : N := 18446744073709551615.
Definition NANOS_PER_SEC : Z := 1000000000.
Definition DURATION_MAX : Z := 18446744073709551615 * NANOS_PER_SEC + 999999999.
Definition INSTANT_MAX : Z := 9223372036854775807 * NANOS_PER_SEC + 999999999.

(** [u64::checked_add], [u64::checked_sub], [u64::saturating_add]. *)
Definition checked_add (a b : N) : option N :=
  if (a + b <=? U64_MAX)%N then Some (a + b)%N else None.
Definition checked_sub (a b : N) : option N :=
  if (b <=? a)%N then Some (a - b)%N else None.
Definition saturating_add (a b : N) : N := N.min (a + b) U64_MAX.

(** [Duration::checked_add], [Instant::checked_add] and
    [Instant::checked_duration_since]. *)
Definition duration_checked_add (a b : Z) : option Z :=
  if (a + b <=? DURATION_MAX)%Z then Some (a + b)%Z else None.
Definition instant_checked_add (i d : Z) : option Z :=
  if (i + d <=? INSTANT_MAX)%Z then Some (i + d)%Z else None.
Definition checked_duration_since (later earlier : Z) : option Z :=
  if (earlier <=? later)%Z then Some (later - earlier)%Z else None.

(** ** Effectful code

    Asynchronous code is a function on a world.  The world is arbitrary: it
    answers every clock read, every cancellation poll and every outbound call,
    and may change between two of them in any way (concurrent requests, a
    restarted server, a moving clock).  The model keeps, beside the world, the
    chronological trace of what the code observed and did. *)
Definition Eff (St A : Type) : Type := St -> A * St.

Definition eret {St A} (a : A) : Eff St A := fun s => (a, s).
Definition ebind {St A B} (m : Eff St A) (k : A -> Eff St B) : Eff St B :=
  fun s => let '(a, s') := m s in k a s'.

(** [.await?]: run, and return early on [Err]. *)
Definition etry {St A B E} (m : Eff St (result A E)) (k : A -> Eff St (result B E))
  : Eff St (result B E) :=
  ebind m (fun r => match r with Ok a => k a | Err e => eret (Err e) end).

(** A [loop] that either continues with a new state ([inl]) or breaks with a
    value ([inr]), cut off after [p] iterations.  The count is binary, so a bound
    of the size of the machine word costs nothing: the loop stops at the first
    break or error. *)
Fixpoint iterate {St S R E} (p : positive) (step : S -> Eff St (result (S + R) E)) (s : S)
  : Eff St (result (S + R) E) :=
  let again (m : Eff St (result (S + R) E)) (k : S -> Eff St (result (S + R) E)) :=
    etry m (fun o => match o with inl s' => k s' | inr r => eret (Ok (inr r)) end) in
  match p with
  | xH => step s
  | xO q => again (iterate q step s) (iterate q step)
  | xI q => again (step s) (fun s' => again (iterate q step s') (iterate q step))
  end.

(** [?] on a pure result inside effectful code. *)
Definition elift {St A E} (r : result A E) : Eff St (result A E) := eret r.

Notation "'let*' x ':=' m 'in' k" := (ebind m (fun x => k))
  (at level 10, x pattern, m at level 100, k at level 200)
  : rust_scope.
Notation "'let!' x ':=' m 'in' k" := (etry m (fun x => k))
  (at level 10, x pattern, m at level 100, k at level 200)
  : rust_scope.

Global Open Scope rust_scope.

(** [sure P m Q]: started in [P], [m] ends in [Q] of its result. *)
Section Sure.
Context {St : Type}.

Definition sure {A} (P : St -> Prop) (m : Eff St A) (Q : A -> St -> Prop) : Prop :=
  forall s, P s -> Q (m s).1 (m s).2.

Lemma sure_ret {A} (a : A) (P : St -> Prop) (Q : A -> St -> Prop) :
  (forall s, P s -> Q a s) -> sure P (eret a) Q.
Proof. intros H s. apply H. Qed.

Lemma sure_bind {A B} (m : Eff St A) (k : A -> Eff St B) P R Q :
  sure P m R -> (forall a, sure (R a) (k a) Q) -> sure P (ebind m k) Q.
Proof.
  intros Hm Hk s Hs. specialize (Hm s Hs). unfold ebind. destruct (m s) as [a s']. by apply Hk.
Qed.

Lemma sure_lift {A B E} (r : result A E) (k : A -> Eff St (result B E)) a P Q :
  r = Ok a -> sure P (k a) Q -> sure P (etry (elift r) k) Q.
Proof. intros -> Hk s. apply (Hk s). Qed.

Lemma sure_conseq {A} (m : Eff St A) (P P' : St -> Prop) (Q Q' : A -> St -> Prop) :
  sure P m Q -> (forall s, P' s -> P s) -> (forall a s, Q a s -> Q' a s) -> sure P' m Q'.
Proof. intros Hm HP HQ s Hs. apply HQ, Hm, HP, Hs. Qed.

Lemma sure_pre {A} (m : Eff St A) (P : St -> Prop) (φ : Prop) Q :
  (φ -> sure P m Q) -> sure (fun s => φ /\ P s) m Q.
Proof. intros H s [Hφ Hs]. by apply H. Qed.
End Sure.

(** What a trace records: clock reads, cancellation polls and component calls. *)
Inductive event (C : Type) : Type :=
| ENow (t : Z)
| ECancelled (b : bool)
| ECall (c : C).
Arguments ENow {C} t.
Arguments ECancelled {C} b.
Arguments ECall {C} c.

Record Tr (W C : Type) : Type := mkTr { world : W; trace : list (event C) }.
Arguments mkTr {W C} world trace.
Arguments world {W C} t.
Arguments trace {W C} t.

(** The process clock and the request's cancellation signal. *)
Class Clock (W : Type) : Type := {
  now : W -> Z * W;
  is_cancelled : W -> bool * W;
}.

Section Observe.
Context {W C : Type} `{!Clock W}.

Definition read_now : Eff (Tr W C) Z :=
  fun s => let '(t, w) := now (world s) in (t, mkTr w (trace s ++ [ENow t])).

Definition read_cancelled : Eff (Tr W C) bool :=
  fun s => let '(b, w) := is_cancelled (world s) in (b, mkTr w (trace s ++ [ECancelled b])).

(** One outbound call: the world answers, and the call is recorded with its
    answer. *)
Definition perform {A} (f : W -> A * W) (record : A -> C) : Eff (Tr W C) A :=
  fun s => let '(a, w) := f (world s) in (a, mkTr w (trace s ++ [ECall (record a)])).
End Observe.

(** ** Preservation

    A predicate of the world that every operation keeps is kept by every computation
    built from them; the tactic [preserve] follows the structure of the code. *)
Create HintDb preserves discriminated.
#[global] Hint Constants Opaque : preserves.

Section Preserves.
Context {W C : Type} (P : W -> Prop).

Definition preserves {A} (m : Eff (Tr W C) A) : Prop :=
  sure (fun s => P (world s)) m (fun _ s => P (world s)).

Lemma preserves_ret {A} (a : A) : preserves (eret a).
Proof. by apply sure_ret. Qed.

Lemma preserves_bind {A B} (m : Eff (Tr W C) A) (k : A -> Eff (Tr W C) B) :
  preserves m -> (forall a, preserves (k a)) -> preserves (ebind m k).
Proof. intros Hm Hk. eapply sure_bind; [exact Hm|]. intros a. apply Hk. Qed.

Lemma preserves_try {A B E} (m : Eff (Tr W C) (result A E)) (k : A -> Eff (Tr W C) (result B E)) :
  preserves m -> (forall a, preserves (k a)) -> preserves (etry m k).
Proof. intros Hm Hk. apply preserves_bind; [done|]. intros [a|e]; [apply Hk|apply preserves_ret]. Qed.

Lemma preserves_perform {A} (f : W -> A * W) (record : A -> C) :
  (forall w, P w -> P (f w).2) -> preserves (perform f record).
Proof. intros Hf s Hs. unfold perform. specialize (Hf _ Hs). by destruct (f (world s)). Qed.

Lemma preserves_now `{!Clock W} : (forall w, P w -> P (now w).2) -> preserves read_now.
Proof. intros Hf s Hs. unfold read_now. specialize (Hf _ Hs). by destruct (now (world s)). Qed.

Lemma preserves_cancelled `{!Clock W} : (forall w, P w -> P (is_cancelled w).2) -> preserves read_cancelled.
Proof. intros Hf s Hs. unfold read_cancelled. specialize (Hf _ Hs). by destruct (is_cancelled (world s)). Qed.
End Preserves.

Ltac preserve :=
  repeat lazymatch goal with
  | |- preserves _ (let _ := _ in _) => cbv zeta
  | |- preserves _ (etry _ _) => apply preserves_try; [|intros ?]
  | |- preserves _ (ebind _ _) => apply preserves_bind; [|intros ?]
  | |- preserves _ (elift _) => apply preserves_ret
  | |- preserves _ (eret _) => apply preserves_ret
  | |- preserves _ (match _ with _ => _ end) => case_match
  | |- preserves _ _ => solve [auto with preserves]
  end.

(** The component calls of a trace, in order. *)
Definition calls {C} (l : list (event C)) : list C :=
  omap (fun e => match e with ECall c => Some c | _ => None end) l.

Lemma calls_app {C} (l1 l2 : list (event C)) : calls (l1 ++ l2) = calls l1 ++ calls l2.
Proof. apply omap_app. Qed.

Lemma elem_of_calls {C} (l : list (event C)) c : c ∈ calls l <-> ECall c ∈ l.
Proof.
  unfold calls. rewrite list_elem_of_omap. split.
  - intros ([t|b|c'] & Hin & [= ->]). done.
  - intros Hin. exists (ECall c). done.
Qed.

(** *** A trace logic

    [emits m Q]: from every state, [m] only appends to the trace, and the
    appended events and the result satisfy [Q]. *)
Section Emits.
Context {W C : Type}.
Implicit Types l : list (event C).

Definition emits {A} (m : Eff (Tr W C) A) (Q : list (event C) -> A -> Prop) : Prop :=
  forall s, exists l, trace (m s).2 = trace s ++ l /\ Q l (m s).1.

Lemma emits_ret {A} (a : A) Q : Q [] a -> emits (eret a) Q.
Proof. intros HQ s. exists []. by rewrite app_nil_r. Qed.

Lemma emits_conseq {A} (m : Eff (Tr W C) A) Q Q' :
  emits m Q -> (forall l a, Q l a -> Q' l a) -> emits m Q'.
Proof. intros Hm HQ s. destruct (Hm s) as (l & ? & ?). eauto. Qed.

Lemma emits_bind {A B} (m : Eff (Tr W C) A) (k : A -> Eff (Tr W C) B) Q1 Q :
  emits m Q1 ->
  (forall l1 a, Q1 l1 a -> emits (k a) (fun l2 b => Q (l1 ++ l2) b)) ->
  emits (ebind m k) Q.
Proof.
  intros Hm Hk s. destruct (Hm s) as (l1 & Ht1 & HQ1). unfold ebind.
  destruct (m s) as [a s']. simpl in *.
  destruct (Hk _ _ HQ1 s') as (l2 & Ht2 & HQ2).
  exists (l1 ++ l2). by rewrite Ht2, Ht1, app_assoc.
Qed.

Lemma emits_try {A B E} (m : Eff (Tr W C) (result A E))
    (k : A -> Eff (Tr W C) (result B E)) Q1 Q :
  emits m Q1 ->
  (forall l1 a, Q1 l1 (Ok a) -> emits (k a) (fun l2 b => Q (l1 ++ l2) b)) ->
  (forall l1 e, Q1 l1 (Err e) -> Q l1 (Err e)) ->
  emits (etry m k) Q.
Proof.
  intros Hm Hok Herr. apply (emits_bind _ _ _ _ Hm). intros l1 [a|e] HQ1; [by apply Hok|].
  apply emits_ret. rewrite app_nil_r. by apply Herr.
Qed.

Lemma emits_run {A} (m : Eff (Tr W C) A) Q w :
  emits m Q -> Q (trace (m (mkTr w [])).2) (m (mkTr w [])).1.
Proof. intros Hm. destruct (Hm (mkTr w [])) as (l & -> & HQ). done. Qed.

Context `{!Clock W}.

Lemma emits_now Q : (forall t, Q [ENow t] t) -> emits read_now Q.
Proof. intros HQ s. unfold read_now. destruct (now _) as [t w]. exists [ENow t]. done. Qed.

Lemma emits_cancelled Q : (forall b, Q [ECancelled b] b) -> emits read_cancelled Q.
Proof.
  intros HQ s. unfold read_cancelled. destruct (is_cancelled _) as [b w].
  exists [ECancelled b]. done.
Qed.

Lemma emits_perform {A} (f : W -> A * W) (record : A -> C) Q :
  (forall a, Q [ECall (record a)] a) -> emits (perform f record) Q.
Proof. intros HQ s. unfold perform. destruct (f _) as [a w]. eexists. done. Qed.

(** [?] on a pure result. *)
Lemma emits_lift {A B E} (r : result A E) (k : A -> Eff (Tr W C) (result B E)) Q :
  (forall a, r = Ok a -> emits (k a) Q) -> (forall e, r = Err e -> Q [] (Err e)) ->
  emits (etry (elift r) k) Q.
Proof.
  intros Hok Herr. destruct r as [a|e]; [|by apply emits_ret, Herr].
  intros s. by apply (Hok a eq_refl).
Qed.

Lemma emits_performed {A} (f : W -> A * W) (record : A -> C) :
  emits (perform f record) (fun l a => l = [ECall (record a)]).
Proof. by apply emits_perform. Qed.
End Emits.

(** One-step exploration of a computation: [emits] goals are peeled bind by
    bind, every answer of the world becoming a universally quantified value. *)
Ltac emits_step :=
  match goal with
  | |- emits (etry (elift ?r) _) _ =>
      eapply (emits_try _ _ (fun l a => l = [] /\ a = r)); [by apply emits_ret| |]
  | |- emits (ebind _ _) _ => eapply emits_bind
  | |- emits (etry _ _) _ => eapply emits_try
  | |- emits (eret _) _ => apply emits_ret
  | |- emits (elift _) _ => apply emits_ret
  | |- emits read_now _ => apply emits_now
  | |- emits read_cancelled _ => apply emits_cancelled
  | |- emits (perform _ _) _ => apply emits_perform
  end.

(** ** Byte strings

    A Rust [String] or [&[u8]] is the sequence of its bytes. *)
Abbreviation bytes := (list ascii).

(** [str::as_bytes] and its inverse. *)
Fixpoint as_bytes (s : string) : bytes :=
  match s with EmptyString => [] | String c s' => c :: as_bytes s' end.
Fixpoint of_bytes (l : bytes) : string :=
  match l with [] => EmptyString | c :: l' => String c (of_bytes l') end.

Lemma of_as_bytes s : of_bytes (as_bytes s) = s.
Proof. induction s; simpl; congruence. Qed.
Lemma as_of_bytes l : as_bytes (of_bytes l) = l.
Proof. induction l; simpl; congruence. Qed.

#[global] Instance as_bytes_inj : Inj (=) (=) as_bytes.
Proof. intros s t E. by rewrite <- (of_as_bytes s), E, of_as_bytes. Qed.

Definition byte_len (s : string) : nat := length (as_bytes s).

Definition byte_between (lo hi : N) (c : ascii) : bool :=
  ((lo <=? N_of_ascii c) && (N_of_ascii c <=? hi))%N.

(** [u8::is_ascii_lowercase], [is_ascii_uppercase], [is_ascii_digit],
    [is_ascii_alphanumeric], [is_ascii_whitespace], [to_ascii_lowercase] and
    [eq_ignore_ascii_case]. *)
Definition is_ascii_lowercase : ascii -> bool := byte_between 97 122.
Definition is_ascii_uppercase : ascii -> bool := byte_between 65 90.
Definition is_ascii_digit : ascii -> bool := byte_between 48 57.
Definition is_ascii_alphanumeric (c : ascii) : bool :=
  is_ascii_lowercase c || is_ascii_uppercase c || is_ascii_digit c.
Definition is_ascii_whitespace (c : ascii) : bool :=
  bool_decide (N_of_ascii c ∈ [9; 10; 12; 13; 32]%N).
Definition to_ascii_lowercase (c : ascii) : ascii :=
  if is_ascii_uppercase c then ascii_of_N (N_of_ascii c + 32) else c.
Definition eq_ignore_ascii_case (a b : bytes) : bool :=
  bool_decide (to_ascii_lowercase <$> a = to_ascii_lowercase <$> b).

(** [str::parse::<u64>]: an optional leading [+], then at least one decimal
    digit, and the value must fit. *)
Fixpoint parse_digits (acc : N) (l : bytes) : option N :=
  match l with
  | [] => Some acc
  | c :: l' =>
      if is_ascii_digit c then
        let acc' := (10 * acc + (N_of_ascii c - 48))%N in
        if (acc' <=? U64_MAX)%N then parse_digits acc' l' else None
      else None
  end.
Definition parse_u64 (s : string) : option N :=
  match as_bytes s with
  | [] => None
  | "+"%char :: [] => None
  | "+"%char :: l => parse_digits 0 l
  | l => parse_digits 0 l
  end.

(** [str::contains] of any of several characters. *)
Definition contains_char (l : list ascii) (s : string) : bool :=
  existsb (fun c => bool_decide (c ∈ l)) (as_bytes s).

(** [str::split] at one character. *)
Fixpoint split_on (sep : ascii) (l : bytes) : list bytes :=
  match l with
  | [] => [[]]
  | c :: l' =>
      if bool_decide (c = sep) then [] :: split_on sep l'
      else match split_on sep l' with
           | [] => [[c]]
           | token :: rest => (c :: token) :: rest
           end
  end.

(** Pieces joined by single separators. *)
Definition join_with (sep : ascii) (tokens : list bytes) : bytes :=
  match tokens with
  | [] => []
  | t :: rest => t ++ mjoin ((fun u => sep :: u) <$> rest)
  end.

Lemma split_on_nonempty sep l : split_on sep l <> [].
Proof. destruct l as [|c l]; simpl; [done|]. case_bool_decide; [done|]. by destruct (split_on sep l). Qed.

Lemma join_split sep l : join_with sep (split_on sep l) = l.
Proof.
  induction l as [|c l IH]; simpl; [done|]. pose proof (split_on_nonempty sep l) as Hne.
  case_bool_decide as E.
  - subst. destruct (split_on sep l) as [|t rest]; [done|]. apply (f_equal (cons _)). exact IH.
  - destruct (split_on sep l) as [|t rest]; [done|]. apply (f_equal (cons _)). exact IH.
Qed.

Lemma split_on_absent sep t : sep ∉ t -> split_on sep t = [t].
Proof.
  induction t as [|c t IH]; intros Hn; simpl; [done|].
  rewrite bool_decide_false by set_solver. rewrite IH by set_solver. done.
Qed.

Lemma split_on_app sep t rest : sep ∉ t -> split_on sep (t ++ sep :: rest) = t :: split_on sep rest.
Proof.
  induction t as [|c t IH]; intros Hn; simpl; [by rewrite bool_decide_true|].
  rewrite bool_decide_false by set_solver. rewrite IH by set_solver. done.
Qed.

Lemma split_join sep tokens :
  tokens <> [] -> Forall (fun t => sep ∉ t) tokens -> split_on sep (join_with sep tokens) = tokens.
Proof.
  destruct tokens as [|t rest]; [done|]. intros _. revert t.
  induction rest as [|u rest IH]; intros t Hall; simpl.
  - rewrite app_nil_r. apply split_on_absent. by inversion Hall.
  - inversion Hall as [|? ? Ht Hrest]; subst. rewrite split_on_app by done. f_equal. by apply IH.
Qed.

Lemma split_on_pieces sep l : Forall (fun t => sep ∉ t) (split_on sep l).
Proof.
  induction l as [|c l IH]; simpl; [repeat constructor; set_solver|].
  case_bool_decide as E; [constructor; [set_solver|done]|].
  destruct (split_on sep l) as [|t rest]; [repeat constructor; set_solver|].
  inversion IH; subst. constructor; [set_solver|done].
Qed.

(** [str::split_once] and [str::rsplit_once] on one ASCII character. *)
Fixpoint split_once_bytes (sep : ascii) (l : bytes) : option (bytes * bytes) :=
  match l with
  | [] => None
  | c :: l' =>
      if bool_decide (c = sep) then Some ([], l')
      else (fun p => (c :: p.1, p.2)) <$> split_once_bytes sep l'
  end.
Definition split_once (sep : ascii) (s : string) : option (string * string) :=
  (fun p => (of_bytes p.1, of_bytes p.2)) <$> split_once_bytes sep (as_bytes s).
Definition rsplit_once (sep : ascii) (s : string) : option (string * string) :=
  (fun p => (of_bytes (rev p.2), of_bytes (rev p.1))) <$>
    split_once_bytes sep (rev (as_bytes s)).

(** [u64::to_string]. *)
Definition u64_to_string (n : N) : string := pretty n.

(** ** Shared list facts *)

Lemma forallb_Forall {A} (f : A -> bool) l : forallb f l = true <-> Forall (fun x => f x = true) l.
Proof. rewrite forallb_forall, List.Forall_forall. done. Qed.

Lemma omap_nil_Forall {A B} (f : A -> option B) l :
  omap f l = [] <-> Forall (fun x => f x = None) l.
Proof.
  induction l as [|x l IH]; csimpl; [by split; intros; constructor|].
  rewrite Forall_cons. destruct (f x); naive_solver.
Qed.

(** The elements a [filter] keeps. *)
Lemma filter_none {A} (f : A -> bool) l : List.filter f l = [] <-> Forall (fun y => f y = false) l.
Proof.
  induction l as [|y l IH]; simpl; [by split|]. rewrite Forall_cons.
  destruct (f y); [naive_solver|]. rewrite IH. naive_solver.
Qed.

Lemma filter_single {A} (f : A -> bool) l x :
  List.filter f l = [x] <->
  exists l1 l2, l = l1 ++ x :: l2 /\ f x = true /\
    Forall (fun y => f y = false) l1 /\ Forall (fun y => f y = false) l2.
Proof.
  split.
  - induction l as [|y l IH]; simpl; [done|]. destruct (f y) eqn:E.
    + intros [= -> H]. exists [], l. apply filter_none in H. naive_solver.
    + intros (l1 & l2 & -> & ? & ? & ?)%IH. exists (y :: l1), l2. naive_solver.
  - intros (l1 & l2 & -> & Hx & H1 & H2). induction H1 as [|y l1 Hy _ IH]; simpl.
    + rewrite Hx. by apply filter_none in H2 as ->.
    + by rewrite Hy.
Qed.

(** ** Guarded calls

    [guarded P l]: immediately before every call [c] of the trace the code
    polled cancellation (answer: no) and read the clock, and [P t c] relates the
    clock value to the call.  A call with [P t c] for every [t] is unguarded. *)
Definition guarded {C} (exempt : C -> Prop) (P : Z -> C -> Prop) (l : list (event C)) : Prop :=
  forall pre c post, l = pre ++ ECall c :: post ->
    exempt c \/ exists pre' t, pre = pre' ++ [ECancelled false; ENow t] /\ P t c.

Section Guarded.
Context {C : Type} (exempt : C -> Prop) (P : Z -> C -> Prop).
Implicit Types l : list (event C).

Lemma guarded_nil : guarded exempt P [].
Proof. intros pre c post H. by destruct pre. Qed.

Lemma guarded_app l1 l2 : guarded exempt P l1 -> guarded exempt P l2 -> guarded exempt P (l1 ++ l2).
Proof.
  intros H1 H2 pre c post Heq.
  apply app_eq_app in Heq as (k & [[-> Hk]|[-> Hk]]).
  - destruct k as [|e k]; simpl in Hk.
    + destruct (H2 [] c post (eq_sym Hk)) as [?|(p & t & Hp & _)]; [by left|].
      by destruct p.
    + injection Hk as <- ->. by destruct (H1 pre c k eq_refl) as [?|?]; [left|right].
  - destruct (H2 k c post Hk) as [?|(p & t & -> & ?)]; [by left|]. right.
    exists (l1 ++ p), t. by rewrite app_assoc.
Qed.

Lemma guarded_no_calls l : calls l = [] -> guarded exempt P l.
Proof.
  intros Hl pre c post ->. rewrite calls_app in Hl. by apply app_eq_nil in Hl as [_ ?].
Qed.

Lemma guarded_block t c : P t c -> guarded exempt P [ECancelled false; ENow t; ECall c].
Proof.
  intros HP [|e1 [|e2 [|e3 pre]]] c' post H; simplify_eq/=.
  - right. by exists [], t.
  - by destruct pre.
Qed.

Lemma guarded_exempt c : exempt c -> guarded exempt P [ECall c].
Proof. intros HP [|e1 pre] c' post H; simplify_eq/=; [by left|by destruct pre]. Qed.
End Guarded.

Create HintDb rust discriminated.
#[export] Hint Resolve guarded_nil guarded_app guarded_block guarded_exempt : rust.

(** Elements of a list with pairwise distinct images are determined by them. *)
Lemma NoDup_fmap_inj_elem {A B} (f : A -> B) (l : list A) x y :
  NoDup (f <$> l) -> x ∈ l -> y ∈ l -> f x = f y -> x = y.
Proof.
  induction l as [|z l IH]; [set_solver|]. csimpl.
  intros [Hnin Hnd]%NoDup_cons [->|Hx]%elem_of_cons [->|Hy]%elem_of_cons Heq; [done| | |auto].
  - destruct Hnin. rewrite Heq. by apply list_elem_of_fmap_2.
  - destruct Hnin. rewrite <- Heq. by apply list_elem_of_fmap_2.
Qed.

(** Proves a closed decidable proposition by evaluating its decision. *)
Ltac by_decide := apply (bool_decide_unpack _); vm_compute; exact I.

(** ** Decimal text of a [u64] *)

Lemma pretty_N_char_digit d : (d < 10)%N ->
  is_ascii_digit (pretty_N_char d) = true /\ (N_of_ascii (pretty_N_char d) - 48 = d)%N.
Proof.
  intros Hd.
  assert (d = 0 \/ d = 1 \/ d = 2 \/ d = 3 \/ d = 4 \/ d = 5 \/ d = 6 \/ d = 7 \/ d = 8 \/ d = 9)%N
    as Hcases by lia.
  by destruct_or! Hcases; subst d.
Qed.

Lemma parse_digits_pretty_go x s :
  (0 < x <= U64_MAX)%N ->
  parse_digits 0 (as_bytes (pretty_N_go x s)) = parse_digits x (as_bytes s).
Proof.
  revert s. induction (N.lt_wf_0 x) as [x _ IH]. intros s [Hpos Hmax].
  rewrite pretty_N_go_step by done.
  pose proof (N.mod_lt x 10 ltac:(lia)) as Hmod.
  destruct (pretty_N_char_digit (x mod 10) Hmod) as [Hdig Hval].
  pose proof (N.div_mod x 10 ltac:(lia)) as Hdm.
  assert (forall acc, (10 * acc + x mod 10 = x)%N ->
    parse_digits acc (as_bytes (String (pretty_N_char (x mod 10)) s)) = parse_digits x (as_bytes s))
    as Hstep.
  { intros acc Hacc. simpl. rewrite Hdig, Hval, Hacc.
    by destruct (N.leb_spec x U64_MAX); [|lia]. }
  destruct (decide (x / 10 = 0)%N) as [Hz|Hnz].
  - rewrite Hz, pretty_N_go_0. apply Hstep. lia.
  - rewrite IH; [apply Hstep; lia| |].
    + apply N.div_lt; lia.
    + split; [lia|]. apply N.le_trans with x; [|done]. apply N.Div0.div_le_upper_bound. lia.
Qed.

Lemma parse_digits_pretty n : (n <= U64_MAX)%N -> parse_digits 0 (as_bytes (pretty n)) = Some n.
Proof.
  intros Hn. unfold pretty, pretty_N. case_decide as Hz; [by subst|].
  by rewrite parse_digits_pretty_go by lia.
Qed.

Lemma parse_digits_all_digits acc l n :
  parse_digits acc l = Some n -> Forall (fun c => is_ascii_digit c = true) l.
Proof.
  revert acc. induction l as [|c l IH]; intros acc; simpl; [by constructor|].
  destruct (is_ascii_digit c) eqn:Hc; [|done]. case_match; [|done]. intros Hp.
  constructor; [done|by eapply IH].
Qed.

Lemma u64_to_string_digits n :
  (n <= U64_MAX)%N -> Forall (fun c => is_ascii_digit c = true) (as_bytes (u64_to_string n)).
Proof. intros Hn. by eapply parse_digits_all_digits, parse_digits_pretty. Qed.

(** [to_string] then [parse] is the identity on [u64]. *)
Lemma parse_u64_to_string n : (n <= U64_MAX)%N -> parse_u64 (u64_to_string n) = Some n.
Proof.
  intros Hn. unfold u64_to_string.
  pose proof (parse_digits_pretty n Hn) as Hp.
  assert (as_bytes (pretty n) <> []) as Hne.
  { unfold pretty, pretty_N. case_decide as Hz; [done|]. intros E.
    pose proof (parse_digits_pretty_go n "" ltac:(lia)) as H. rewrite E in H. simpl in H.
    injection H as H. lia. }
  unfold parse_u64. destruct (as_bytes (pretty n)) as [|c l]; [done|].
  destruct (decide (c = "+"%char)) as [->|Hc]; [done|].
  destruct c as [[] [] [] [] [] [] [] []]; try done.
Qed.

Lemma u64_to_string_inj n k :
  (n <= U64_MAX)%N -> (k <= U64_MAX)%N -> u64_to_string n = u64_to_string k -> n = k.
Proof.
  intros Hn Hk E. apply parse_u64_to_string in Hn, Hk. rewrite E in Hn. congruence.
Qed.
