(* ===== verification/BTree.v ===== *)
(** * Ordered maps and stable sorting

    The source groups data in [std::collections::BTreeMap] and sorts vectors
    with [sort_by_key] and [sort_unstable].  A [BTreeMap] is modelled by the
    association list its in-order iteration yields: strictly ascending keys.
    The list form is canonical, so two maps with the same lookups are equal. *)
From S2P Require Import Prelude.

(** ** Key orders ([Ord]) *)

Class OrdKey (K : Type) : Type := {
  key_compare : K -> K -> comparison;
  key_compare_eq : forall x y, key_compare x y = Eq <-> x = y;
  key_compare_antisym : forall x y, key_compare y x = CompOpp (key_compare x y);
  key_compare_trans : forall x y z,
    key_compare x y = Lt -> key_compare y z = Lt -> key_compare x z = Lt;
}.

Definition key_lt {K} `{OrdKey K} (x y : K) : Prop := key_compare x y = Lt.
Definition key_le {K} `{OrdKey K} (x y : K) : Prop := key_compare x y <> Gt.
Definition key_leb {K} `{OrdKey K} (x y : K) : bool :=
  match key_compare x y with Gt => false | _ => true end.

Section OrdKeyFacts.
Context {K : Type} `{OrdKey K}.
Implicit Types x y z : K.

Lemma key_compare_refl x : key_compare x x = Eq.
Proof. by apply key_compare_eq. Qed.

Lemma key_compare_gt x y : key_compare x y = Gt <-> key_compare y x = Lt.
Proof. rewrite (key_compare_antisym y x). by destruct (key_compare y x). Qed.

Lemma key_lt_irrefl x : ~ key_lt x x.
Proof. unfold key_lt. by rewrite key_compare_refl. Qed.

#[global] Instance key_lt_trans : Transitive key_lt.
Proof. intros x y z. apply key_compare_trans. Qed.

Lemma key_leb_le x y : key_leb x y = true <-> key_le x y.
Proof. unfold key_leb, key_le. destruct (key_compare x y); split; congruence. Qed.

Lemma key_le_lteq x y : key_le x y <-> key_lt x y \/ x = y.
Proof.
  unfold key_le, key_lt. rewrite <- key_compare_eq. destruct (key_compare x y); naive_solver.
Qed.

#[global] Instance key_le_trans : Transitive key_le.
Proof.
  intros x y z. rewrite !key_le_lteq. intros [Hxy| ->] [Hyz| ->]; auto.
  left. by transitivity y.
Qed.

Lemma key_leb_false x y : key_leb x y = false -> key_lt y x.
Proof.
  unfold key_leb, key_lt. destruct (key_compare x y) eqn:E; [done..|]. intros _.
  by apply key_compare_gt.
Qed.

Lemma key_le_antisym x y : key_le x y -> key_le y x -> x = y.
Proof.
  rewrite !key_le_lteq. intros [Hxy|]; [|done]. intros [Hyx|]; [|done].
  destruct (key_lt_irrefl x). by transitivity y.
Qed.
End OrdKeyFacts.

#[global] Program Instance N_ord : OrdKey N := {| key_compare := N.compare |}.
Next Obligation. intros; apply N.compare_eq_iff. Qed.
Next Obligation. intros; apply N.compare_antisym. Qed.
Next Obligation.
  intros x y z. rewrite !N.compare_lt_iff. apply N.lt_trans.
Qed.

(** Tuples compare lexicographically. *)
Definition pair_compare {A B} `{OrdKey A, OrdKey B} (p q : A * B) : comparison :=
  match key_compare p.1 q.1 with Eq => key_compare p.2 q.2 | c => c end.

#[global] Program Instance pair_ord {A B} `{OrdKey A, OrdKey B} : OrdKey (A * B) :=
  {| key_compare := pair_compare |}.
Next Obligation.
  intros A B ? ? [a b] [a' b']. unfold pair_compare. simpl.
  destruct (key_compare a a') eqn:E.
  - apply key_compare_eq in E. rewrite key_compare_eq. naive_solver.
  - split; [done|]. intros [= -> ->]. by rewrite key_compare_refl in E.
  - split; [done|]. intros [= -> ->]. by rewrite key_compare_refl in E.
Qed.
Next Obligation.
  intros A B ? ? [a b] [a' b']. unfold pair_compare. simpl.
  rewrite (key_compare_antisym a a'). destruct (key_compare a a'); simpl; try done.
  apply key_compare_antisym.
Qed.
Next Obligation.
  intros A B ? ? [a b] [a' b'] [a'' b'']. unfold pair_compare. simpl.
  destruct (key_compare a a') eqn:E1; [| |done];
    destruct (key_compare a' a'') eqn:E2; try done; intros Hb Hb'.
  - apply key_compare_eq in E1, E2. subst. rewrite key_compare_refl.
    by apply (key_compare_trans _ b').
  - apply key_compare_eq in E1. subst. by rewrite E2.
  - apply key_compare_eq in E2. subst. by rewrite E1.
  - by rewrite (key_compare_trans _ a' _ E1 E2).
Qed.

(** [String] compares bytewise, lexicographically. *)
Fixpoint string_compare (s t : string) : comparison :=
  match s, t with
  | EmptyString, EmptyString => Eq
  | EmptyString, String _ _ => Lt
  | String _ _, EmptyString => Gt
  | String a s', String b t' =>
      match N.compare (N_of_ascii a) (N_of_ascii b) with
      | Eq => string_compare s' t'
      | c => c
      end
  end.

Lemma N_of_ascii_inj a b : N_of_ascii a = N_of_ascii b -> a = b.
Proof. intros E. by rewrite <- (ascii_N_embedding a), E, ascii_N_embedding. Qed.

#[global] Program Instance string_ord : OrdKey string := {| key_compare := string_compare |}.
Next Obligation.
  induction x as [|a s IH]; intros [|b t]; simpl; try done.
  destruct (N.compare_spec (N_of_ascii a) (N_of_ascii b)) as [E|E|E].
  - apply N_of_ascii_inj in E. subst. rewrite IH. naive_solver.
  - split; [done|]. intros [= -> ->]. lia.
  - split; [done|]. intros [= -> ->]. lia.
Qed.
Next Obligation.
  induction x as [|a s IH]; intros [|b t]; simpl; try done.
  rewrite N.compare_antisym. destruct (N.compare _ _); simpl; auto.
Qed.
Next Obligation.
  induction x as [|a s IH]; intros [|b t] [|c u]; simpl; try done.
  destruct (N.compare_spec (N_of_ascii a) (N_of_ascii b)) as [E1|E1|E1]; [| |done];
    destruct (N.compare_spec (N_of_ascii b) (N_of_ascii c)) as [E2|E2|E2]; try done;
    intros H1 H2.
  - rewrite E1, E2, N.compare_refl. by apply (IH t).
  - rewrite E1. by apply N.compare_lt_iff in E2 as ->.
  - rewrite <- E2. by apply N.compare_lt_iff in E1 as ->.
  - assert (N_of_ascii a < N_of_ascii c)%N as E by lia. by apply N.compare_lt_iff in E as ->.
Qed.

(** ** [BTreeMap] *)

Section BTreeMap.
Context {K V : Type} `{OrdKey K}.
Implicit Types (k : K) (v : V) (m : list (K * V)).

Fixpoint bt_lookup k m : option V :=
  match m with
  | [] => None
  | (k', v') :: m' => match key_compare k k' with Eq => Some v' | _ => bt_lookup k m' end
  end.

(** [insert]: replaces the value of an existing key. *)
Fixpoint bt_insert k v m : list (K * V) :=
  match m with
  | [] => [(k, v)]
  | (k', v') :: m' =>
      match key_compare k k' with
      | Lt => (k, v) :: m
      | Eq => (k, v) :: m'
      | Gt => (k', v') :: bt_insert k v m'
      end
  end.

(** [remove]. *)
Fixpoint bt_remove k m : list (K * V) :=
  match m with
  | [] => []
  | (k', v') :: m' =>
      match key_compare k k' with Eq => m' | _ => (k', v') :: bt_remove k m' end
  end.

(** [*entry(k).or_insert(d) = f(...)]. *)
Definition bt_upsert k (d : V) (f : V -> V) m : list (K * V) :=
  bt_insert k (f (default d (bt_lookup k m))) m.

Definition bt_contains k m : bool := bool_decide (is_Some (bt_lookup k m)).

(** The representation invariant: strictly ascending keys. *)
Definition bt_wf m : Prop := StronglySorted key_lt (m.*1).

Lemma bt_wf_nil : bt_wf [].
Proof. constructor. Qed.

Lemma bt_wf_cons k v m : bt_wf ((k, v) :: m) <-> bt_wf m /\ Forall (fun p => key_lt k p.1) m.
Proof.
  unfold bt_wf. simpl. split.
  - intros Hs. inversion Hs; subst. by rewrite Forall_fmap in *.
  - intros [? ?]. constructor; [done|]. by rewrite Forall_fmap.
Qed.

Lemma bt_lookup_below k m : Forall (fun p => key_lt k p.1) m -> bt_lookup k m = None.
Proof.
  induction m as [|[k' v'] m IH]; [done|]. rewrite Forall_cons. simpl.
  intros [Hlt Hm]. unfold key_lt in Hlt. rewrite Hlt. auto.
Qed.

Lemma bt_lookup_insert_eq k v m : bt_lookup k (bt_insert k v m) = Some v.
Proof.
  induction m as [|[k' v'] m IH]; simpl; [by rewrite key_compare_refl|].
  destruct (key_compare k k') eqn:E; simpl; rewrite ?key_compare_refl; [done..|].
  by rewrite E.
Qed.

Lemma bt_lookup_insert_ne k k' v m :
  k <> k' -> bt_lookup k' (bt_insert k v m) = bt_lookup k' m.
Proof.
  intros Hne.
  assert (key_compare k' k <> Eq) as Hne' by (rewrite key_compare_eq; congruence).
  induction m as [|[k'' v''] m IH]; simpl; [by destruct (key_compare k' k)|].
  destruct (key_compare k k'') eqn:E; simpl.
  - apply key_compare_eq in E. subst. by destruct (key_compare k' k'').
  - by destruct (key_compare k' k).
  - by rewrite IH.
Qed.

Lemma bt_insert_elem k v m p : p ∈ bt_insert k v m -> p = (k, v) \/ p ∈ m.
Proof.
  induction m as [|[k' v'] m IH]; simpl; [set_solver|].
  destruct (key_compare k k'); set_solver.
Qed.

Lemma bt_insert_wf k v m : bt_wf m -> bt_wf (bt_insert k v m).
Proof.
  induction m as [|[k' v'] m IH]; simpl.
  { intros _. apply bt_wf_cons. split; [apply bt_wf_nil|constructor]. }
  intros Hwf. pose proof Hwf as Hwf0. apply bt_wf_cons in Hwf as [Hm Hall].
  destruct (key_compare k k') eqn:E.
  - apply key_compare_eq in E. subst. by apply bt_wf_cons.
  - apply bt_wf_cons. split; [done|]. constructor; [done|].
    eapply Forall_impl; [exact Hall|]. intros p ?. by transitivity k'.
  - apply bt_wf_cons. split; [auto|]. apply Forall_forall. intros p Hp.
    apply bt_insert_elem in Hp as [->|Hp]; [by apply key_compare_gt|].
    rewrite Forall_forall in Hall. auto.
Qed.

Lemma bt_upsert_wf k d f m : bt_wf m -> bt_wf (bt_upsert k d f m).
Proof. apply bt_insert_wf. Qed.

Lemma bt_remove_elem k m p : p ∈ bt_remove k m -> p ∈ m.
Proof.
  induction m as [|[k' v'] m IH]; simpl; [done|]. destruct (key_compare k k'); set_solver.
Qed.

Lemma bt_remove_wf k m : bt_wf m -> bt_wf (bt_remove k m).
Proof.
  induction m as [|[k' v'] m IH]; simpl; [done|]. rewrite bt_wf_cons. intros [Hm Hall].
  assert (bt_wf ((k', v') :: bt_remove k m)).
  { apply bt_wf_cons. split; [auto|]. apply Forall_forall. intros p Hp.
    apply bt_remove_elem in Hp. rewrite Forall_forall in Hall. auto. }
  by destruct (key_compare k k').
Qed.

Lemma bt_lookup_remove_eq k m : bt_wf m -> bt_lookup k (bt_remove k m) = None.
Proof.
  induction m as [|[k' v'] m IH]; simpl; [done|]. rewrite bt_wf_cons. intros [Hm Hall].
  destruct (key_compare k k') eqn:E; simpl.
  - apply key_compare_eq in E. subst. by apply bt_lookup_below.
  - rewrite E. auto.
  - rewrite E. auto.
Qed.

Lemma bt_lookup_remove_ne k k' m : k <> k' -> bt_lookup k' (bt_remove k m) = bt_lookup k' m.
Proof.
  intros Hne. induction m as [|[k'' v''] m IH]; simpl; [done|].
  destruct (key_compare k k'') eqn:E; simpl.
  - apply key_compare_eq in E. subst k''.
    destruct (key_compare k' k) eqn:E'; [|done..]. by apply key_compare_eq in E'.
  - by rewrite IH.
  - by rewrite IH.
Qed.

Lemma bt_elem_lookup k v m : bt_wf m -> ((k, v) ∈ m <-> bt_lookup k m = Some v).
Proof.
  induction m as [|[k' v'] m IH]; simpl; [set_solver|]. rewrite bt_wf_cons. intros [Hm Hall].
  rewrite elem_of_cons. destruct (key_compare k k') eqn:E.
  - apply key_compare_eq in E. subst k'. split; [|naive_solver].
    intros [[= ->]|Hin]; [done|]. rewrite Forall_forall in Hall.
    by destruct (key_lt_irrefl k (Hall _ Hin)).
  - rewrite <- IH by done. split; [|auto]. intros [[= -> ->]|]; [|done].
    by rewrite key_compare_refl in E.
  - rewrite <- IH by done. split; [|auto]. intros [[= -> ->]|]; [|done].
    by rewrite key_compare_refl in E.
Qed.

Lemma bt_wf_nodup m : bt_wf m -> NoDup m.*1.
Proof.
  unfold bt_wf. induction (m.*1) as [|k l IH]; [constructor|].
  intros Hs. inversion_clear Hs as [|? ? Hl Hall]. constructor; [|auto].
  intros Hin. rewrite Forall_forall in Hall. by destruct (key_lt_irrefl k (Hall _ Hin)).
Qed.

Lemma bt_lookup_head k v m : bt_lookup k ((k, v) :: m) = Some v.
Proof. simpl. by rewrite key_compare_refl. Qed.

(** Canonical representation: lookups determine a well-formed map. *)
Lemma bt_ext m1 m2 :
  bt_wf m1 -> bt_wf m2 -> (forall k, bt_lookup k m1 = bt_lookup k m2) -> m1 = m2.
Proof.
  revert m2. induction m1 as [|[k1 v1] m1 IH]; intros [|[k2 v2] m2] Hwf1 Hwf2 Hext; [done| | |].
  - specialize (Hext k2). by rewrite bt_lookup_head in Hext.
  - specialize (Hext k1). by rewrite bt_lookup_head in Hext.
  - pose proof (Hext k1) as H1. pose proof (Hext k2) as H2. rewrite bt_lookup_head in H1, H2.
    apply bt_wf_cons in Hwf1 as [Hm1 Ha1], Hwf2 as [Hm2 Ha2].
    assert (k1 = k2) as <-.
    { simpl in H1, H2. destruct (key_compare k1 k2) eqn:E.
      - by apply key_compare_eq.
      - rewrite bt_lookup_below in H1; [done|]. eapply Forall_impl; [exact Ha2|].
        intros p ?. by transitivity k2.
      - apply key_compare_gt in E. rewrite E in H2. rewrite bt_lookup_below in H2; [done|].
        eapply Forall_impl; [exact Ha1|]. intros p ?. by transitivity k1. }
    rewrite bt_lookup_head in H1. injection H1 as <-. f_equal. apply IH; [done..|].
    intros k. specialize (Hext k). simpl in Hext.
    destruct (key_compare k k1) eqn:E; [|done..].
    apply key_compare_eq in E. subst. by rewrite !bt_lookup_below.
Qed.
End BTreeMap.

(** ** [sort_by_key]

    Stable sorting: an element is placed before every later element whose key
    is not smaller. *)
Section SortByKey.
Context {A K : Type} `{OrdKey K} (key : A -> K).

Fixpoint insert_by_key (x : A) (l : list A) : list A :=
  match l with
  | [] => [x]
  | y :: l' => if key_leb (key x) (key y) then x :: l else y :: insert_by_key x l'
  end.

Definition sort_by_key (l : list A) : list A := foldr insert_by_key [] l.

Lemma insert_by_key_perm x l : insert_by_key x l ≡ₚ x :: l.
Proof.
  induction l as [|y l IH]; simpl; [done|]. destruct (key_leb _ _); [done|].
  rewrite IH. apply Permutation_swap.
Qed.

Lemma sort_by_key_perm l : sort_by_key l ≡ₚ l.
Proof. induction l as [|x l IH]; simpl; [done|]. by rewrite insert_by_key_perm, IH. Qed.

Definition by_key_le (x y : A) : Prop := key_le (key x) (key y).

Lemma insert_by_key_sorted x l :
  StronglySorted by_key_le l -> StronglySorted by_key_le (insert_by_key x l).
Proof.
  induction 1 as [|y l Hl IH Hall]; simpl; [by repeat constructor|].
  destruct (key_leb (key x) (key y)) eqn:E.
  - apply key_leb_le in E. constructor; [by constructor|]. constructor; [done|].
    eapply Forall_impl; [exact Hall|]. intros z Hz. unfold by_key_le in *. by transitivity (key y).
  - apply key_leb_false in E. constructor; [done|]. rewrite insert_by_key_perm.
    constructor; [|done]. apply key_le_lteq. by left.
Qed.

Lemma sort_by_key_sorted l : StronglySorted by_key_le (sort_by_key l).
Proof. induction l; simpl; [constructor|]. by apply insert_by_key_sorted. Qed.

(** Sorted lists with pairwise distinct keys are determined by their elements. *)
Lemma sorted_by_key_unique l1 l2 :
  StronglySorted by_key_le l1 -> StronglySorted by_key_le l2 ->
  NoDup (key <$> l1) -> l1 ≡ₚ l2 -> l1 = l2.
Proof.
  intros Hs1. revert l2. induction Hs1 as [|x l1 Hl1 IH Hall1]; intros l2 Hs2 Hnd Hp.
  { by apply Permutation_nil_l in Hp as ->. }
  inversion Hs2 as [|y l2' Hl2 Hall2]; subst.
  { by apply Permutation_nil_r in Hp. }
  assert (x = y) as ->.
  { assert (x ∈ y :: l2') as [->|Hx]%elem_of_cons by (rewrite <- Hp; set_solver); [done|].
    assert (y ∈ x :: l1) as [->|Hy]%elem_of_cons by (rewrite Hp; set_solver); [done|].
    rewrite Forall_forall in Hall1, Hall2.
    pose proof (key_le_antisym _ _ (Hall1 _ Hy) (Hall2 _ Hx)) as Hk.
    apply NoDup_cons in Hnd as [Hnin _]. destruct Hnin. rewrite Hk. by apply list_elem_of_fmap_2. }
  apply Permutation_cons_inv in Hp. apply NoDup_cons in Hnd as [_ Hnd].
  f_equal. by apply IH.
Qed.
Lemma sorted_by_key_strict l :
  StronglySorted by_key_le l -> NoDup (key <$> l) -> StronglySorted key_lt (key <$> l).
Proof.
  induction 1 as [|x l Hl IH Hall]; csimpl; [constructor|]. intros [Hnin Hnd]%NoDup_cons.
  constructor; [auto|]. apply Forall_forall. intros k (y & -> & Hy)%list_elem_of_fmap.
  rewrite Forall_forall in Hall. destruct (proj1 (key_le_lteq _ _) (Hall _ Hy)) as [?|E]; [done|].
  destruct Hnin. rewrite E. by apply list_elem_of_fmap_2.
Qed.
End SortByKey.

Lemma StronglySorted_mono {A} (R R' : A -> A -> Prop) l :
  (forall x y, R x y -> R' x y) -> StronglySorted R l -> StronglySorted R' l.
Proof.
  intros HR. induction 1; constructor; [done|]. eapply Forall_impl; eauto.
Qed.

#[global] Arguments key_compare : simpl never.
