(* ===== verification/Core.v ===== *)
(** * [permissionsync-core]: domain types and ports

    Models [crates/permissionsync-core/src]: the logical-target grammar, the
    identity, credential and desired-state carriers, the synchronization
    context, and the two asynchronous ports.  A port is a type class: an
    implementation answers a request from any world state. *)
From S2P Require Import Prelude.

(** ** Logical targets ([target.rs]) *)

Record LogicalTarget : Type := mkLogicalTarget { target_as_str : string }.
Inductive InvalidLogicalTarget : Type := invalid_logical_target.

#[global] Instance LogicalTarget_eq_dec : EqDecision LogicalTarget.
Proof. solve_decision. Defined.

Definition is_edge_character (value : ascii) : bool :=
  is_ascii_lowercase value || is_ascii_digit value.

Definition is_inner_character (value : ascii) : bool :=
  is_edge_character value ||
  (bool_decide (value = "."%char) || bool_decide (value = "_"%char) || bool_decide (value = "-"%char)).

(** [value[i]] for a predicate: the source indexes only in range. *)
Definition byte_at (b : bytes) (i : nat) (p : ascii -> bool) : bool :=
  match b !! i with Some c => p c | None => false end.

(** [<LogicalTarget as TryFrom<String>>::try_from]. *)
Definition logical_target_try_from (value : string) : result LogicalTarget InvalidLogicalTarget :=
  let b := as_bytes value in
  let len := length b in
  if (len =? 0) || (64 <? len) then Err invalid_logical_target
  else if negb (byte_at b 0 is_edge_character) || negb (byte_at b (len - 1) is_edge_character)
  then Err invalid_logical_target
  else if (2 <? len) && negb (forallb is_inner_character (take (len - 2) (drop 1 b)))
  then Err invalid_logical_target
  else Ok (mkLogicalTarget value).

(** The inbound v1 target grammar, [edge (inner{0,62} edge)?]. *)
Inductive target_grammar : bytes -> Prop :=
| grammar_single a :
    is_edge_character a = true -> target_grammar [a]
| grammar_many a mid z :
    is_edge_character a = true -> Forall (fun c => is_inner_character c = true) mid ->
    is_edge_character z = true -> (length mid <= 62)%nat ->
    target_grammar (a :: mid ++ [z]).

(** ** Identity, credential and desired state
    ([identity.rs], [technical_caller.rs], [desired_state.rs]) *)

Record IdentityContext : Type := mkIdentityContext {
  username : string;
  groups : list string;
}.

Record TechnicalCallerBearerToken : Type := mkBearerToken { bearer_as_str : string }.

Record EnvelopeVersion : Type := mkEnvelopeVersion { version_get : N }.

(** A stored raw JSON value. *)
Record OpaquePayload : Type := mkOpaquePayload { as_json : string }.
Inductive InvalidOpaquePayload : Type := invalid_opaque_payload.

(** [RawValue::from_string] belongs to [serde_json]: the parameter
    [raw_value_from_string] returns the stored text of one valid JSON value. *)
Definition opaque_payload_try_from (raw_value_from_string : string -> option string)
    (value : string) : result OpaquePayload InvalidOpaquePayload :=
  match raw_value_from_string value with
  | Some raw => Ok (mkOpaquePayload raw)
  | None => Err invalid_opaque_payload
  end.

Record DesiredStateEnvelope : Type := mkEnvelope {
  envelope_version : EnvelopeVersion;
  envelope_payload : OpaquePayload;
}.

(** ** Contexts, requests and outcomes ([ports.rs]) *)

(** The deadline of one synchronization.  Its cancellation signal is the
    world's [is_cancelled] poll. *)
Record SynchronizationContext : Type := mkContext { deadline : Z }.

Record PermissionProviderRequest : Type := mkProviderRequest {
  pr_identity : IdentityContext;
  pr_target : LogicalTarget;
  pr_technical_caller_bearer_token : TechnicalCallerBearerToken;
  pr_context : SynchronizationContext;
}.

Record TargetAdapterRequest : Type := mkAdapterRequest {
  ar_identity : IdentityContext;
  ar_desired_state : DesiredStateEnvelope;
  ar_context : SynchronizationContext;
}.

Inductive ReconciliationOutcome : Type := Changed | Unchanged.

#[global] Instance ReconciliationOutcome_eq_dec : EqDecision ReconciliationOutcome.
Proof. solve_decision. Defined.

(** Both port errors wrap an internal source of any type. *)
Record PermissionProviderError (E : Type) : Type := mkProviderError { pe_source : E }.
Record TargetAdapterError (E : Type) : Type := mkAdapterError { ae_source : E }.
Arguments mkProviderError {E} pe_source.
Arguments pe_source {E} p.
Arguments mkAdapterError {E} ae_source.
Arguments ae_source {E} t.

(** Outer [Debug] and [Display] texts of the port errors. *)
Definition provider_error_debug {E} (e : PermissionProviderError E) : string :=
  "PermissionProviderError".
Definition provider_error_display {E} (e : PermissionProviderError E) : string :=
  "permission provider resolution failed".
Definition adapter_error_debug {E} (e : TargetAdapterError E) : string := "TargetAdapterError".
Definition adapter_error_display {E} (e : TargetAdapterError E) : string :=
  "target adapter reconciliation failed".

(** The [PermissionProvider] and [TargetAdapter] ports over a world [W]. *)
Class PermissionProvider (W P E : Type) : Type :=
  provider_resolve : P -> PermissionProviderRequest -> W ->
    result DesiredStateEnvelope (PermissionProviderError E) * W.

Class TargetAdapter (W A E : Type) : Type :=
  adapter_reconcile : A -> TargetAdapterRequest -> W ->
    result ReconciliationOutcome (TargetAdapterError E) * W.

(** ** Properties *)

Lemma edge_is_inner c : is_edge_character c = true -> is_inner_character c = true.
Proof. unfold is_inner_character. by intros ->. Qed.

Lemma byte_at_last (b : bytes) z p : byte_at (b ++ [z]) (length (b ++ [z]) - 1) p = p z.
Proof.
  unfold byte_at. rewrite length_app. simpl.
  replace (length b + 1 - 1) with (length b) by lia.
  rewrite lookup_app_r, Nat.sub_diag by lia. done.
Qed.

Lemma target_grammar_accepted value :
  target_grammar (as_bytes value) -> logical_target_try_from value = Ok (mkLogicalTarget value).
Proof.
  unfold logical_target_try_from. remember (as_bytes value) as b eqn:Hb. clear Hb.
  intros [a Ha | a mid z Ha Hmid Hz Hlen].
  { unfold byte_at. simpl. by rewrite Ha. }
  pose proof (byte_at_last (a :: mid) z is_edge_character) as Hlast.
  rewrite app_comm_cons, Hlast, Hz. unfold byte_at. simpl. rewrite Ha, length_app. simpl.
  destruct (64 <? S (length mid + 1)) eqn:E; [apply Nat.ltb_lt in E; lia|]. simpl.
  destruct (2 <? S (length mid + 1)); simpl; [|done].
  rewrite drop_0. replace (length mid + 1 - 1) with (length mid) by lia.
  rewrite take_app_length. by apply forallb_Forall in Hmid as ->.
Qed.

Lemma target_accepted_grammar value t :
  logical_target_try_from value = Ok t ->
  t = mkLogicalTarget value /\ target_grammar (as_bytes value).
Proof.
  unfold logical_target_try_from. remember (as_bytes value) as b eqn:Hb. clear Hb.
  destruct (_ || _) eqn:E1; [done|]. apply orb_false_iff in E1 as [E1 E1'].
  apply Nat.eqb_neq in E1. apply Nat.ltb_ge in E1'.
  destruct (negb _ || negb _) eqn:E2; [done|].
  apply orb_false_iff in E2 as [E2 E2']. apply negb_false_iff in E2, E2'.
  destruct (_ && _) eqn:E3; [done|]. intros [= <-]. split; [done|].
  destruct b as [|a b]; [done|]. destruct b as [|z mid _] using rev_ind; [by constructor|].
  clear E1. simpl in E2.
  pose proof (byte_at_last (a :: mid) z is_edge_character) as Hlast. simpl in Hlast.
  simpl in E2'. rewrite Hlast in E2'.
  simpl in E1', E3. rewrite length_app in E1', E3. simpl in E1', E3.
  constructor; [done| |done|lia]. apply forallb_Forall.
  destruct mid as [|c mid]; [done|].
  apply andb_false_iff in E3 as [E3|E3]; [apply Nat.ltb_ge in E3; simpl in E3; lia|].
  apply negb_false_iff in E3. rewrite drop_0 in E3.
  replace (length (c :: mid) + 1 - 1) with (length (c :: mid)) in E3 by lia.
  by rewrite take_app_length in E3.
Qed.

(** [LogicalTarget::try_from] accepts exactly the ADR grammar and
    keeps the text unchanged; everything else is the one fixed error. *)
Lemma logical_target_grammar_exact (value : string) :
  (target_grammar (as_bytes value) /\
     logical_target_try_from value = Ok (mkLogicalTarget value)) \/
  (~ target_grammar (as_bytes value) /\
     logical_target_try_from value = Err invalid_logical_target).
Proof.
  destruct (logical_target_try_from value) as [t|[]] eqn:E.
  - apply target_accepted_grammar in E as [-> Hg]. by left.
  - right. split; [|done]. intros Hg. by rewrite (target_grammar_accepted _ Hg) in E.
Qed.
