(* ===== verification/Json.v ===== *)
(** * JSON values

    The part of [serde_json::Value] the source inspects.  [serde_json] itself
    (parsing, printing, derived decoding) is a parameter of the components that
    call it; this file only has the value type the source matches on and the
    accessors it uses.  Objects are association lists: a parsed [Value] has
    distinct keys, and a token stream keeps duplicates in document order. *)
From Stdlib Require Import SpecFloat.
From S2P Require Import Prelude.

(** [serde_json::Number]: a non-negative integer, a negative integer, or an
    IEEE binary64. *)
Inductive Number : Type :=
| PosInt (n : N)
| NegInt (z : Z)
| Float (f : spec_float).

#[warnings="-register-all"]
Inductive Value : Type :=
| VNull
| VBool (b : bool)
| VNumber (n : Number)
| VString (s : string)
| VArray (l : list Value)
| VObject (o : list (string * Value)).

Abbreviation Object := (list (string * Value)).

(** [Map::get]. *)
Fixpoint object_get (o : Object) (key : string) : option Value :=
  match o with
  | [] => None
  | (k, v) :: o' => if bool_decide (k = key) then Some v else object_get o' key
  end.

Definition object_contains_key (o : Object) (key : string) : bool :=
  bool_decide (is_Some (object_get o key)).

(** [Value::as_object], [as_array], [as_str], [is_string], [as_u64]. *)
Definition as_object (v : Value) : option Object :=
  match v with VObject o => Some o | _ => None end.
Definition as_array (v : Value) : option (list Value) :=
  match v with VArray l => Some l | _ => None end.
Definition as_str (v : Value) : option string :=
  match v with VString s => Some s | _ => None end.
Definition is_string (v : Value) : bool :=
  match v with VString _ => true | _ => false end.
Definition number_as_u64 (n : Number) : option N :=
  match n with PosInt k => Some k | _ => None end.
Definition as_u64 (v : Value) : option N :=
  match v with VNumber n => number_as_u64 n | _ => None end.

(** [Value::get] on a string index. *)
Definition value_get (v : Value) (key : string) : option Value :=
  match v with VObject o => object_get o key | _ => None end.

(** [object.get(key).and_then(Value::as_str)]. *)
Definition get_str (o : Object) (key : string) : option string := object_get o key ≫= as_str.
Definition get_u64 (o : Object) (key : string) : option N := object_get o key ≫= as_u64.
