(* ===== verification/Dns.v ===== *)
(** * One-shot DNS resolution

    Models the resolution code that the Provider client
    ([crates/permissionsync-provider-generic-rest/src/client.rs]) and the GLPI
    transport ([crates/permissionsync-adapter-glpi/src/transport.rs]) both have:
    the choice of the name server, one A and one AAAA query polled together, the
    in-response CNAME chain and the choice of one address.  Hickory's names,
    messages and exchanges are parameters. *)
From S2P Require Import Prelude.

(** ** Data *)

Inductive IpAddr : Type := V4 (address : N) | V6 (address : N).

#[global] Instance IpAddr_eq_dec : EqDecision IpAddr.
Proof. solve_decision. Defined.

Definition is_ipv4 (a : IpAddr) : bool := match a with V4 _ => true | V6 _ => false end.

(** [SocketAddr]. *)
Record SocketAddr : Type := mkSocketAddr { socket_ip : IpAddr; socket_port : N }.

#[global] Instance SocketAddr_eq_dec : EqDecision SocketAddr.
Proof. solve_decision. Defined.

Inductive RecordType : Type := TypeA | TypeAAAA.

(** Hickory's domain names, compared with its own equality (which ignores case). *)
Class DnsNames : Type := {
  Name : Type;
  name_eqb : Name -> Name -> bool;
  name_of_str : string -> option Name;
  name_set_fqdn : Name -> Name;
  name_eqb_refl : forall n, name_eqb n n = true;
  name_eqb_sym : forall n m, name_eqb n m = true -> name_eqb m n = true;
  name_eqb_trans : forall n m k, name_eqb n m = true -> name_eqb m k = true -> name_eqb n k = true;
}.

(** The data of a resource record: its own type determines the variant. *)
Inductive RData `{DnsNames} : Type :=
| RecA (address : N)
| RecAAAA (address : N)
| RecCNAME (canonical_name : Name)
| RecOther (record_type : N).

Record DnsRecord `{DnsNames} : Type := mkRecord { rec_name : Name; rec_data : RData }.

(** [ResponseCode::NoError] is code 0. *)
Record DnsResponse `{DnsNames} : Type := mkDnsResponse {
  response_code : N;
  truncation : bool;
  answers : list DnsRecord;
}.

Inductive NetError : Type := NetTimeout | NetOther.
Abbreviation DnsReply := (result DnsResponse NetError).

(** One entry of the platform's resolver configuration. *)
Record Connection : Type := mkConnection {
  protocol_udp : bool;
  connection_port : N;
  connection_bind_addr : option SocketAddr;
}.
Record NameServer : Type := mkNameServer { server_ip : IpAddr; connections : list Connection }.
Record UdpNameServer : Type := mkUdpNameServer { address : SocketAddr; bind_addr : option SocketAddr }.

(** ** The name server *)

(** The [filter_map] of [configured_udp_name_server]. *)
Definition udp_connection (ip : IpAddr) (connection : Connection) : option UdpNameServer :=
  if negb (protocol_udp connection)
     || (connection_port connection =? 0)%N
     || match connection_bind_addr connection with
        | Some b => negb (Bool.eqb (is_ipv4 (socket_ip b)) (is_ipv4 ip))
        | None => false
        end
  then None
  else Some (mkUdpNameServer (mkSocketAddr ip (connection_port connection))
               (connection_bind_addr connection)).

(** [configured_udp_name_server] on a configuration that was read. *)
Definition configured_udp_name_server (name_servers : list NameServer) : option UdpNameServer :=
  head (mjoin ((fun s => omap (udp_connection (server_ip s)) (connections s)) <$> name_servers)).

(** ** The answer *)

Section Answer.
Context `{Names : DnsNames}.

Definition known (accepted_names : list Name) (n : Name) : bool :=
  existsb (fun accepted => name_eqb accepted n) accepted_names.

(** One record of the inner [for] of [response_address]. *)
Definition follow_record (accepted_names : list Name) (r : DnsRecord) : list Name :=
  if negb (known accepted_names (rec_name r)) then accepted_names else
  match rec_data r with
  | RecCNAME canonical_name =>
      if negb (known accepted_names canonical_name) then accepted_names ++ [canonical_name]
      else accepted_names
  | _ => accepted_names
  end.

(** The [loop], cut off after [fuel] passes over the answers. *)
Fixpoint follow_chain (fuel : nat) (records : list DnsRecord) (accepted_names : list Name) : list Name :=
  match fuel with
  | 0 => accepted_names
  | S fuel =>
      let accepted_names' := fold_left follow_record records accepted_names in
      if (length accepted_names' =? length accepted_names)%nat then accepted_names'
      else follow_chain fuel records accepted_names'
  end.

(** The address a record supplies to a query. *)
Definition record_address (record_type : RecordType) (d : RData) : option IpAddr :=
  match record_type, d with
  | TypeA, RecA a => Some (V4 a)
  | TypeAAAA, RecAAAA a => Some (V6 a)
  | _, _ => None
  end.

Fixpoint find_map {A B} (f : A -> option B) (l : list A) : option B :=
  match l with
  | [] => None
  | x :: l' => match f x with Some y => Some y | None => find_map f l' end
  end.

(** The closure of the final [find_map]. *)
Definition record_answer (accepted_names : list Name) (record_type : RecordType) (r : DnsRecord)
  : option IpAddr :=
  if negb (known accepted_names (rec_name r)) then None else record_address record_type (rec_data r).

(** [response_address]. *)
Definition response_address (response : DnsResponse) (n : Name) (record_type : RecordType)
  : option IpAddr :=
  if negb (response_code response =? 0)%N || truncation response then None else
  let accepted_names := follow_chain (S (length (answers response))) (answers response) [n] in
  find_map (record_answer accepted_names record_type) (answers response).

(** ** The two queries *)

(** [resolve_record], once its exchange is over. *)
Record DnsQueryOutcome : Type := mkOutcome { outcome_address : option IpAddr; timed_out : bool }.

(** [is_hickory_timeout]. *)
Definition is_hickory_timeout (e : NetError) : bool :=
  match e with NetTimeout => true | NetOther => false end.

Definition resolve_record (n : Name) (record_type : RecordType) (reply : DnsReply) : DnsQueryOutcome :=
  match reply with
  | Ok response => mkOutcome (response_address response n record_type) false
  | Err error => mkOutcome None (is_hickory_timeout error)
  end.

(** What [poll_fn] keeps of one query: [None] while it is pending. *)
Abbreviation QueryState := (option DnsQueryOutcome).

(** Polls one query unless it is done. *)
Definition poll_query (n : Name) (record_type : RecordType) (done : QueryState)
    (poll : option DnsReply) : QueryState :=
  match done with
  | Some o => Some o
  | None => resolve_record n record_type <$> poll
  end.

Definition found (q : QueryState) : option IpAddr := q ≫= outcome_address.

(** How the two polled queries end. *)
Inductive Resolution : Type :=
| Resolved (ip : IpAddr)
| NoAddress (any_timed_out : bool)
| StillPending.

(** The [poll_fn] of [resolve_one_address] over the polls that happen before the
    operation is dropped: both queries are polled, then IPv4 is preferred. *)
Fixpoint poll_queries (n : Name) (ipv4 ipv6 : QueryState)
    (polls : list (option DnsReply * option DnsReply)) : Resolution :=
  match polls with
  | [] => StillPending
  | (p4, p6) :: rest =>
      let ipv4' := poll_query n TypeA ipv4 p4 in
      let ipv6' := poll_query n TypeAAAA ipv6 p6 in
      match found ipv4', found ipv6' with
      | Some a, _ | None, Some a => Resolved a
      | None, None =>
          match ipv4', ipv6' with
          | Some o4, Some o6 => NoAddress (timed_out o4 || timed_out o6)
          | _, _ => poll_queries n ipv4' ipv6' rest
          end
      end
  end.
End Answer.

(** ** The CNAME chain *)

Section Chain.
Context `{Names : DnsNames}.
Context (records : list DnsRecord) (start : Name).

(** The names that the answers make aliases of the queried one. *)
Inductive alias : Name -> Prop :=
| alias_self n : name_eqb start n = true -> alias n
| alias_cname r c n :
    alias (rec_name r) -> r ∈ records -> rec_data r = RecCNAME c -> name_eqb c n = true -> alias n.

Lemma alias_proper n m : alias n -> name_eqb n m = true -> alias m.
Proof.
  intros Hn Hm. destruct Hn as [n Hs|r c n Hr Hin Hd Hc].
  - apply alias_self. by eapply name_eqb_trans.
  - eapply alias_cname; [exact Hr|done|done|]. by eapply name_eqb_trans.
Qed.

Lemma known_elem names n : known names n = true <-> exists m, m ∈ names /\ name_eqb m n = true.
Proof.
  unfold known. rewrite existsb_exists. by setoid_rewrite list_elem_of_In.
Qed.

Definition cname_targets : list Name :=
  omap (fun r => match rec_data r with RecCNAME c => Some c | _ => None end) records.

(** What the loop keeps: aliases only, none added twice. *)
Definition chain_names (names : list Name) : Prop :=
  exists l, names = start :: l /\ NoDup l /\ (forall c, c ∈ l -> c ∈ cname_targets) /\
    (forall c, c ∈ names -> alias c).

Lemma chain_names_start : chain_names [start].
Proof.
  exists []. split_and!; [done|constructor|set_solver|].
  intros c ->%list_elem_of_singleton. apply alias_self, name_eqb_refl.
Qed.

Lemma chain_names_bound names : chain_names names -> length names <= S (length records).
Proof.
  intros (l & -> & Hnd & Hsub & _). simpl. apply le_n_S.
  transitivity (length cname_targets).
  - apply submseteq_length. by apply NoDup_submseteq.
  - unfold cname_targets. clear. induction records as [|r l' IH]; csimpl; [done|].
    destruct (rec_data r); simpl; lia.
Qed.

Lemma follow_record_chain names r :
  r ∈ records -> chain_names names -> chain_names (follow_record names r).
Proof.
  intros Hr HC. unfold follow_record.
  destruct (known names (rec_name r)) eqn:Hk; simpl; [|done].
  destruct (rec_data r) as [| |c|] eqn:Hd; try done.
  destruct (known names c) eqn:Hc; simpl; [done|].
  destruct HC as (l & -> & Hnd & Hsub & Hal). exists (l ++ [c]). split_and!; [done| | |].
  - apply NoDup_app. split_and!; [done| |apply NoDup_singleton].
    intros c' Hc' ->%list_elem_of_singleton.
    assert (known (start :: l) c = true); [|congruence].
    apply known_elem. exists c. split; [set_solver|apply name_eqb_refl].
  - intros c' [?| ->%list_elem_of_singleton]%elem_of_app; [auto|].
    apply list_elem_of_omap. exists r. by rewrite Hd.
  - intros c' [?| ->%list_elem_of_singleton]%(elem_of_app (start :: l)); [auto|].
    apply known_elem in Hk as (m & Hm & Heq). eapply alias_cname; [|done|done|apply name_eqb_refl].
    eapply alias_proper; [by apply Hal|done].
Qed.

Lemma fold_follow_chain rs names :
  (forall r, r ∈ rs -> r ∈ records) -> chain_names names ->
  chain_names (fold_left follow_record rs names).
Proof.
  revert names. induction rs as [|r rs IH]; intros names Hrs HC; simpl; [done|].
  apply IH; [set_solver|]. apply follow_record_chain; [set_solver|done].
Qed.

Lemma follow_record_extends names r : exists k, follow_record names r = names ++ k.
Proof.
  unfold follow_record. repeat case_match; eauto; exists []; by rewrite app_nil_r.
Qed.

Lemma fold_follow_extends rs names : exists k, fold_left follow_record rs names = names ++ k.
Proof.
  revert names. induction rs as [|r rs IH]; intros names; simpl; [exists []; by rewrite app_nil_r|].
  destruct (follow_record_extends names r) as [k ->]. destruct (IH (names ++ k)) as [k' ->].
  exists (k ++ k'). by rewrite app_assoc.
Qed.

(** A pass that adds nothing means that nothing is left to add. *)
Definition closed (names : list Name) : Prop :=
  forall r c, r ∈ records -> known names (rec_name r) = true -> rec_data r = RecCNAME c ->
    known names c = true.

Lemma fold_follow_fixed rs names :
  length (fold_left follow_record rs names) = length names ->
  fold_left follow_record rs names = names /\
  forall r, r ∈ rs -> follow_record names r = names.
Proof.
  revert names. induction rs as [|r rs IH]; intros names; simpl; [by split; [|set_solver]|].
  destruct (follow_record_extends names r) as [k Hk]. rewrite Hk.
  destruct (fold_follow_extends rs (names ++ k)) as [k' Hk']. intros Hlen.
  assert (k = []) as ->.
  { apply length_zero_iff_nil. rewrite Hk', !length_app in Hlen. lia. }
  rewrite app_nil_r in *. destruct (IH names Hlen) as [H1 H2]. split; [done|].
  intros r' [->|Hr']%elem_of_cons; [done|auto].
Qed.

Lemma fixed_closed names :
  (forall r, r ∈ records -> follow_record names r = names) -> closed names.
Proof.
  intros Hf r c Hr Hk Hd. specialize (Hf r Hr). unfold follow_record in Hf.
  rewrite Hk, Hd in Hf. simpl in Hf. destruct (known names c); [done|]. simpl in Hf.
  apply (f_equal length) in Hf. rewrite length_app in Hf. simpl in Hf. lia.
Qed.

(** The loop ends by itself within one pass per answer and one more. *)
Lemma follow_chain_closed fuel names :
  chain_names names -> S (S (length records)) <= fuel + length names ->
  chain_names (follow_chain fuel records names) /\ closed (follow_chain fuel records names).
Proof.
  revert names. induction fuel as [|fuel IH]; intros names HC Hf; simpl.
  { apply chain_names_bound in HC. lia. }
  pose proof (fold_follow_chain records names (fun _ H => H) HC) as HC'.
  destruct (Nat.eqb_spec (length (fold_left follow_record records names)) (length names)) as [E|E].
  - split; [done|]. destruct (fold_follow_fixed _ _ E) as [-> Hfix]. by apply fixed_closed.
  - apply IH; [done|]. destruct (fold_follow_extends records names) as [k Hk].
    rewrite Hk, length_app in *. lia.
Qed.

Lemma closed_known names n : chain_names names -> closed names -> known names n = true <-> alias n.
Proof.
  intros (l & -> & _ & _ & Hal) Hcl. split.
  - intros (m & Hm & Heq)%known_elem. by eapply alias_proper; [apply Hal|].
  - induction 1 as [n Hs|r c n Hr IH Hin Hd Hc].
    + apply known_elem. exists start. split; [set_solver|done].
    + pose proof (Hcl r c Hin IH Hd) as (m & Hm & Heq)%known_elem. apply known_elem.
      exists m. split; [done|]. by eapply name_eqb_trans.
Qed.

Lemma follow_chain_known n :
  known (follow_chain (S (length records)) records [start]) n = true <-> alias n.
Proof.
  destruct (follow_chain_closed (S (length records)) [start] chain_names_start) as [HC Hcl];
    [simpl; lia|]. by apply closed_known.
Qed.
End Chain.

Lemma find_map_some {A B} (f : A -> option B) (l : list A) b :
  find_map f l = Some b <->
  exists pre x post, l = pre ++ x :: post /\ f x = Some b /\ Forall (fun y => f y = None) pre.
Proof.
  induction l as [|a l IH]; simpl.
  - split; [done|]. intros (pre & x & post & H & _). by destruct pre.
  - destruct (f a) as [b'|] eqn:Ha.
    + split.
      * intros [= ->]. exists [], a, l. by repeat constructor.
      * intros (pre & x & post & H & Hx & Hp). destruct pre as [|y pre]; simplify_eq/=; [congruence|].
        apply Forall_cons in Hp as [? _]. congruence.
    + rewrite IH. split; intros (pre & x & post & H & Hx & Hp).
      * exists (a :: pre), x, post. subst. split; [done|]. split; [done|]. by constructor.
      * destruct pre as [|y pre]; simplify_eq/=. apply Forall_cons in Hp as [_ Hp]. eauto 10.
Qed.

Section Answers.
Context `{Names : DnsNames}.

(** The record answers the query: it belongs to an alias and has the asked type. *)
Definition usable (response : DnsResponse) (n : Name) (record_type : RecordType) (r : DnsRecord)
    (ip : IpAddr) : Prop :=
  alias (answers response) n (rec_name r) /\ record_address record_type (rec_data r) = Some ip.

(** A DNS answer supplies an address exactly when it is complete and
    without error, and then it is the address of the first record of the asked
    type whose owner is the queried name or reachable from it by the CNAME
    records of the same answer, in whatever order they are listed; the chase of
    the chain ends on every answer, cyclic ones included. *)
Lemma response_address_exact (response : DnsResponse) (n : Name) (record_type : RecordType)
    (ip : IpAddr) :
  response_address response n record_type = Some ip <->
  response_code response = 0%N /\ truncation response = false /\
  exists pre r post, answers response = pre ++ r :: post /\
    usable response n record_type r ip /\
    Forall (fun r' => forall ip', ~ usable response n record_type r' ip') pre.
Proof.
  unfold response_address.
  destruct (N.eqb_spec (response_code response) 0) as [Hc|Hc]; cbn [negb orb]; [|naive_solver].
  destruct (truncation response); [naive_solver|]. rewrite find_map_some.
  set (f := record_answer _ record_type).
  assert (forall r ip', f r = Some ip' <-> usable response n record_type r ip') as Hf.
  { intros r ip'. unfold f, record_answer, usable. rewrite <- follow_chain_known.
    destruct (known _ (rec_name r)); naive_solver. }
  assert (forall pre, Forall (fun r => f r = None) pre <->
    Forall (fun r => forall ip', ~ usable response n record_type r ip') pre) as Hp.
  { intros pre. apply Forall_proper; [|done]. intros r. split.
    - intros Hn ip' Hu%Hf. congruence.
    - intros Hn. destruct (f r) eqn:E; [|done]. by apply Hf in E as ?%Hn. }
  split.
  - intros (pre & r & post & E & Hr & Hn). split_and!; [done..|].
    exists pre, r, post. by rewrite <- Hf, <- Hp.
  - intros (_ & _ & pre & r & post & E & Hr & Hn). exists pre, r, post. by rewrite Hf, Hp.
Qed.
End Answers.
