(* ===== verification/Net.v ===== *)
(** * One single-attempt HTTPS exchange

    The connection stages that the Provider client
    ([crates/permissionsync-provider-generic-rest/src/client.rs]) and the GLPI
    transport ([crates/permissionsync-adapter-glpi/src/transport.rs]) share: one
    DNS resolution, one TCP connection, one TLS and one HTTP/1.1 handshake, one
    request, and the response body read frame by frame under a limit.  Tokio,
    Hickory, native-tls and Hyper answer through [NetWorld]; both crates wrap the
    whole exchange in [timeout_at] and drive the connection beside the response,
    so every wait may instead end the exchange. *)
From S2P Require Import Prelude Dns.

(** ** Data *)

Inductive Method : Type := GET | POST | DELETE.

(** A header value and whether it was marked sensitive. *)
Record HeaderValue : Type := mkHeader { header_text : string; header_sensitive : bool }.

(** The request as it is handed to Hyper. *)
Record OutboundRequest : Type := mkOutbound {
  out_method : Method;
  out_target : string;
  out_headers : list (string * HeaderValue);
  out_body : bytes;
}.

(** How a connection stage ends: done, failed, or dropped by the timeout. *)
Inductive Stage : Type := StageDone | StageFailed | StageElapsed.

(** One element of a response body; the last two are [drive_connection_and_response]
    seeing the connection end while the response is pending, and the timeout. *)
Inductive BodyFrame : Type :=
| BodyData (b : bytes)
| BodyOther
| BodyError
| BodyConnectionEnded
| BodyElapsed.

Record HttpResponse : Type := mkHttpResponse {
  answer_status : N;
  answer_headers : list (string * bytes);
  answer_frames : list BodyFrame;
}.

Inductive SendAnswer : Type :=
| SendFailed
| SendConnectionEnded
| SendElapsed
| SendResponse (r : HttpResponse).

Section World.
Context `{Names : DnsNames}.

Abbreviation Polls := (list (option DnsReply * option DnsReply)).

(** The environment of an exchange.  [dns_exchange server name timeout] starts
    one A and one AAAA query and answers what each poll of the pair sees until
    the operation ends. *)
Class NetWorld (W : Type) : Type := {
  net_clock :: Clock W;
  runtime_available : W -> bool;
  read_system_conf : W -> option (list NameServer) * W;
  dns_exchange : UdpNameServer -> Name -> Z -> W -> Polls * W;
  tcp_connect : SocketAddr -> W -> Stage * W;
  tls_connect : string -> W -> Stage * W;
  http_handshake : W -> Stage * W;
  send_request : OutboundRequest -> W -> SendAnswer * W;
}.

Inductive NetCall : Type :=
| DnsExchange (server : UdpNameServer) (n : Name) (timeout : Z) (polls : Polls)
| TcpConnect (a : SocketAddr) (answer : Stage)
| TlsConnect (domain : string) (answer : Stage)
| Handshake (answer : Stage)
| SendRequest (request : OutboundRequest) (answer : SendAnswer).
End World.

(** ** The exchange *)

Section Exchange.
Context `{Names : DnsNames} {W E : Type} `{!NetWorld W}.
Abbreviation M := (Eff (Tr W NetCall)).

(** The two failure categories both clients have. *)
Context (transport deadline_exceeded : E).

(** [classify_dns_no_address]. *)
Definition classify_dns_no_address (any_timed_out : bool) : E :=
  if any_timed_out then deadline_exceeded else transport.

(** The hostname case of [resolve_one_address]. *)
Definition resolve_hostname (n : Name) (server : UdpNameServer) (port : N) (effective_deadline : Z)
  : M (result SocketAddr E) :=
  let* t := read_now in
  match checked_duration_since effective_deadline t with
  | Some remaining =>
      if (remaining =? 0)%Z then eret (Err deadline_exceeded) else
      let* polls := perform (dns_exchange server n remaining) (DnsExchange server n remaining) in
      match poll_queries n None None polls with
      | Resolved ip => eret (Ok (mkSocketAddr ip port))
      | NoAddress any_timed_out => eret (Err (classify_dns_no_address any_timed_out))
      | StillPending => eret (Err deadline_exceeded)
      end
  | None => eret (Err deadline_exceeded)
  end.

Definition stage (s : Stage) : result unit E :=
  match s with
  | StageDone => Ok tt
  | StageFailed => Err transport
  | StageElapsed => Err deadline_exceeded
  end.

Definition connect_tcp (a : SocketAddr) : M (result unit E) :=
  let* answer := perform (tcp_connect a) (TcpConnect a) in eret (stage answer).
Definition connect_tls (domain : string) : M (result unit E) :=
  let* answer := perform (tls_connect domain) (TlsConnect domain) in eret (stage answer).
Definition handshake : M (result unit E) :=
  let* answer := perform http_handshake Handshake in eret (stage answer).

(** From the address to an established connection, [check] before every stage. *)
Definition connect (check : M (result unit E)) (resolve : M (result SocketAddr E)) (domain : string)
  : M (result unit E) :=
  let! _ := check in
  let! a := resolve in
  let! _ := check in
  let! _ := connect_tcp a in
  let! _ := check in
  let! _ := connect_tls domain in
  let! _ := check in
  handshake.

(** [sender.send_request], driven beside the connection. *)
Definition send (request : OutboundRequest) : M (result HttpResponse E) :=
  let* answer := perform (send_request request) (SendRequest request) in
  eret (match answer with
    | SendFailed | SendConnectionEnded => Err transport
    | SendElapsed => Err deadline_exceeded
    | SendResponse r => Ok r
    end).

(** [drive_connection_and_response]: at every wake-up the connection is polled until
    it is done, then the response; [None] is a future that is still pending after
    these wake-ups. *)
Fixpoint drive_connection_and_response {A} (connection_done : bool)
    (polls : list (bool * option (result A E))) : option (result A E) :=
  match polls with
  | [] => None
  | (connection_ready, response) :: rest =>
      let connection_done := connection_done || connection_ready in
      match response with
      | Some outcome => Some outcome
      | None =>
          if connection_done then Some (Err transport)
          else drive_connection_and_response connection_done rest
      end
  end.

(** [accumulate_within_limit]. *)
Definition accumulate_within_limit (too_large : E) (total chunk_len limit : N) : result N E :=
  let? next_total := ok_or (checked_add total chunk_len) too_large in
  if (limit <? next_total)%N then Err too_large else Ok next_total.

(** The frame loop of [read_body]. *)
Fixpoint read_frames (check : M (result unit E)) (body_error too_large : E) (limit : N)
    (l : list BodyFrame) (b : bytes) : M (result bytes E) :=
  match l with
  | [] => eret (Ok b)
  | BodyConnectionEnded :: _ => eret (Err transport)
  | BodyElapsed :: _ => eret (Err deadline_exceeded)
  | BodyError :: _ => let! _ := check in eret (Err body_error)
  | BodyOther :: rest => let! _ := check in read_frames check body_error too_large limit rest b
  | BodyData data :: rest =>
      let! _ := check in
      let! _ := elift (accumulate_within_limit too_large (N.of_nat (length b))
        (N.of_nat (length data)) limit) in
      read_frames check body_error too_large limit rest (b ++ data)
  end.

(** A response that is complete when the connection ends is never lost: the outcome is
    the response's own exactly when it is ready no later than the connection, and the
    transport failure exactly when the connection ended first. *)
Lemma drive_connection_exact {A} (polls : list (bool * option (result A E))) r :
  drive_connection_and_response false polls = Some r <->
  exists pre connection_ready response post,
    polls = pre ++ (connection_ready, response) :: post /\ Forall (eq (false, None)) pre /\
    (response = Some r \/ connection_ready = true /\ response = None /\ r = Err transport).
Proof.
  split.
  - induction polls as [|[c o] polls IH]; simpl; [done|]. destruct o as [o|].
    + intros [= <-]. exists [], c, (Some o), polls. eauto using Forall_nil.
    + destruct c; [intros [= <-]; exists [], true, None, polls; eauto 10 using Forall_nil|].
      intros (pre & c & o & post & -> & Hpre & Hr)%IH. exists ((false, None) :: pre), c, o, post.
      split; [done|]. split; [by constructor|done].
  - intros (pre & c & o & post & -> & Hpre & Hr). induction Hpre as [|? pre <- _ IH]; simpl; [|done].
    by destruct Hr as [->|(-> & -> & ->)].
Qed.
End Exchange.

(** ** Facts *)

(** Immediately before every call the clock was read, before the deadline. *)
Definition ticked {C} (d : Z) (l : list (event C)) : Prop :=
  exists pre t, l = pre ++ [ENow t] /\ (t < d)%Z.
Definition clocked {C} (d : Z) (l : list (event C)) : Prop :=
  forall pre c post, l = pre ++ ECall c :: post -> ticked d pre.

Lemma clocked_no_calls {C} d (l : list (event C)) : calls l = [] -> clocked d l.
Proof.
  intros Hl pre c post ->. rewrite calls_app in Hl. by apply app_eq_nil in Hl as [_ ?].
Qed.

Lemma clocked_app {C} d (l1 l2 : list (event C)) : clocked d l1 -> clocked d l2 -> clocked d (l1 ++ l2).
Proof.
  intros H1 H2 pre c post Heq.
  apply app_eq_app in Heq as (k & [[-> Hk]|[-> Hk]]).
  - destruct k as [|e k]; simpl in Hk.
    + destruct (H2 [] c post (eq_sym Hk)) as (p & t & Hp & _). by destruct p.
    + injection Hk as <- ->. by eapply H1.
  - destruct (H2 k c post Hk) as (p & t & -> & ?). exists (l1 ++ p), t. by rewrite app_assoc.
Qed.

Lemma clocked_call {C} d (l : list (event C)) c : calls l = [] -> ticked d l -> clocked d (l ++ [ECall c]).
Proof.
  intros Hl Ht pre c' post Heq. apply app_eq_app in Heq as (k & [[-> Hk]|[-> Hk]]).
  - destruct k as [|e k]; simpl in Hk; [by rewrite app_nil_r in Ht|].
    injection Hk as <- ->. rewrite calls_app in Hl. by apply app_eq_nil in Hl as [_ ?].
  - destruct k as [|e k]; simplify_eq/=; [by rewrite app_nil_r|]. by destruct k.
Qed.

(** A clocked trace whose calls and result satisfy [Q]. *)
Definition timed {C A} (d : Z) (Q : list C -> A -> Prop) (l : list (event C)) (r : A) : Prop :=
  clocked d l /\ Q (calls l) r.

Section ExchangeFacts.
Context `{Names : DnsNames} {W E : Type} `{!NetWorld W}.
Abbreviation M := (Eff (Tr W NetCall)).
Context (transport deadline_exceeded : E) (d : Z).

(** The address of a name comes from the one exchange of both queries. *)
Definition looked_up (n : Name) (server : UdpNameServer) (port : N) (cs : list NetCall)
    (r : result SocketAddr E) : Prop :=
  match r with
  | Ok a => exists timeout polls ip,
      cs = [DnsExchange server n timeout polls] /\ (0 < timeout)%Z /\
      poll_queries n None None polls = Resolved ip /\ a = mkSocketAddr ip port
  | Err _ => cs = [] \/ exists timeout polls, cs = [DnsExchange server n timeout polls]
  end.

Lemma resolve_hostname_emits n server port :
  emits (resolve_hostname (W := W) transport deadline_exceeded n server port d)
    (timed d (looked_up n server port)).
Proof.
  unfold resolve_hostname. eapply emits_bind; [by apply (emits_now (fun l t => l = [ENow t]))|].
  intros l1 t ->. unfold checked_duration_since.
  assert (forall e, timed d (looked_up n server port) ([ENow t] ++ []) (Err e)) as Herr.
  { intros e. split; [by apply clocked_no_calls|by left]. }
  destruct (Z.leb_spec t d) as [Hle|]; [|by apply emits_ret].
  destruct (Z.eqb_spec (d - t) 0) as [|Hz]; [by apply emits_ret|].
  eapply emits_bind; [apply emits_performed|]. intros l2 polls ->.
  assert (clocked d ([ENow t] ++ [ECall (DnsExchange server n (d - t) polls)])) as Hc.
  { apply clocked_call; [done|]. exists [], t. split; [done|lia]. }
  assert (0 < d - t)%Z by lia.
  destruct (poll_queries n None None polls) as [ip|b|] eqn:Hp; apply emits_ret; rewrite app_nil_r;
    (split; [done|]); simpl; eauto 10.
Qed.

Context (check : M (result unit E)).
Context (Hcheck : emits check (fun l r => calls l = [] /\ (r = Ok tt -> ticked d l))).

Lemma timed_check {B} (k : M (result B E)) (Q : list NetCall -> result B E -> Prop) :
  (forall e, Q [] (Err e)) -> emits k (timed d Q) -> emits (etry check (fun _ => k)) (timed d Q).
Proof.
  intros Herr Hk. eapply emits_try; [exact Hcheck| |].
  - intros l1 [] [Hl _]. eapply emits_conseq; [exact Hk|]. intros l2 r [Hc HQ].
    split; [apply clocked_app; [by apply clocked_no_calls|done]|]. by rewrite calls_app, Hl.
  - intros l1 e [Hl _]. split; [by apply clocked_no_calls|]. by rewrite Hl.
Qed.

Lemma timed_try {A B} (m : M (result A E)) (k : A -> M (result B E)) (Q1 : list NetCall -> result A E -> Prop)
    (Q : list NetCall -> result B E -> Prop) :
  emits m (timed d Q1) -> (forall cs e, Q1 cs (Err e) -> Q cs (Err e)) ->
  (forall cs a, Q1 cs (Ok a) -> emits (k a) (timed d (fun cs' r => Q (cs ++ cs') r))) ->
  emits (etry m k) (timed d Q).
Proof.
  intros Hm Herr Hk. eapply emits_try; [exact Hm| |].
  - intros l1 a [Hc1 HQ1]. eapply emits_conseq; [by apply (Hk _ _ HQ1)|].
    intros l2 r [Hc2 HQ2]. split; [by apply clocked_app|]. by rewrite calls_app.
  - intros l1 e [Hc1 HQ1]. split; auto.
Qed.

(** A check and the one call after it. *)
Lemma timed_check_call {A B} (m : M (result A E)) (k : A -> M (result B E))
    (G : NetCall -> result A E -> Prop) (Q : list NetCall -> result B E -> Prop) :
  emits m (fun l r => exists c, l = [ECall c] /\ G c r) ->
  (forall e, Q [] (Err e)) -> (forall c e, G c (Err e) -> Q [c] (Err e)) ->
  (forall c a, G c (Ok a) -> emits (k a) (timed d (fun cs r => Q (c :: cs) r))) ->
  emits (etry check (fun _ => etry m k)) (timed d Q).
Proof.
  intros Hm H0 Herr Hk. eapply emits_try; [exact Hcheck| |].
  2:{ intros l1 e [Hl _]. split; [by apply clocked_no_calls|]. by rewrite Hl. }
  intros l1 [] [Hl Ht]. specialize (Ht eq_refl). eapply emits_try; [exact Hm| |].
  - intros l2 a (c & -> & HG). eapply emits_conseq; [by apply (Hk _ _ HG)|].
    intros l3 r [Hc3 HQ3]. split.
    + rewrite app_assoc. apply clocked_app; [by apply clocked_call|done].
    + by rewrite calls_app, Hl.
  - intros l2 e (c & -> & HG). split; [by apply clocked_call|]. rewrite calls_app, Hl. by apply Herr.
Qed.

Lemma timed_check_last {A} (m : M (result A E)) (G : NetCall -> result A E -> Prop)
    (Q : list NetCall -> result A E -> Prop) :
  emits m (fun l r => exists c, l = [ECall c] /\ G c r) ->
  (forall e, Q [] (Err e)) -> (forall c r, G c r -> Q [c] r) ->
  emits (etry check (fun _ => m)) (timed d Q).
Proof.
  intros Hm H0 HG. eapply emits_try; [exact Hcheck| |].
  2:{ intros l1 e [Hl _]. split; [by apply clocked_no_calls|]. by rewrite Hl. }
  intros l1 [] [Hl Ht]. specialize (Ht eq_refl). eapply emits_conseq; [exact Hm|].
  intros l2 r (c & -> & Hc). split; [by apply clocked_call|]. rewrite calls_app, Hl. by apply HG.
Qed.

(** The stages before the request, stopped somewhere. *)
Inductive partial (domain : string) (a : SocketAddr) : list NetCall -> Prop :=
| partial_none : partial domain a []
| partial_tcp s : partial domain a [TcpConnect a s]
| partial_tls s : partial domain a [TcpConnect a StageDone; TlsConnect domain s]
| partial_handshake s :
    partial domain a [TcpConnect a StageDone; TlsConnect domain StageDone; Handshake s].

Definition established (domain : string) (a : SocketAddr) : list NetCall :=
  [TcpConnect a StageDone; TlsConnect domain StageDone; Handshake StageDone].

Context (D : list NetCall -> result SocketAddr E -> Prop).

Definition connected (domain : string) (cs : list NetCall) (r : result unit E) : Prop :=
  match r with
  | Ok _ => exists dns a, D dns (Ok a) /\ cs = dns ++ established domain a
  | Err _ => cs = [] \/ (exists e, D cs (Err e)) \/
      exists dns a k, D dns (Ok a) /\ partial domain a k /\ cs = dns ++ k
  end.

Lemma connect_tcp_emits a :
  emits (connect_tcp (W := W) transport deadline_exceeded a)
    (fun l r => exists c, l = [ECall c] /\ exists s, c = TcpConnect a s /\ (is_ok r = true -> s = StageDone)).
Proof.
  eapply emits_bind; [apply emits_performed|]. intros l s ->. apply emits_ret.
  eexists; split; [done|]. exists s. by destruct s.
Qed.

Lemma connect_tls_emits domain :
  emits (connect_tls (W := W) transport deadline_exceeded domain)
    (fun l r => exists c, l = [ECall c] /\ exists s, c = TlsConnect domain s /\ (is_ok r = true -> s = StageDone)).
Proof.
  eapply emits_bind; [apply emits_performed|]. intros l s ->. apply emits_ret.
  eexists; split; [done|]. exists s. by destruct s.
Qed.

Lemma handshake_emits :
  emits (handshake (W := W) transport deadline_exceeded)
    (fun l r => exists c, l = [ECall c] /\ exists s, c = Handshake s /\ (is_ok r = true -> s = StageDone)).
Proof.
  eapply emits_bind; [apply emits_performed|]. intros l s ->. apply emits_ret.
  eexists; split; [done|]. exists s. by destruct s.
Qed.

Lemma connect_emits (resolve : M (result SocketAddr E)) domain :
  emits resolve (timed d D) ->
  emits (connect transport deadline_exceeded check resolve domain) (timed d (connected domain)).
Proof.
  intros Hr. unfold connect. apply timed_check; [by left|].
  eapply timed_try; [exact Hr|intros cs e He; right; left; eauto|]. intros dns a Ha.
  assert (forall k (e : E), partial domain a k -> connected domain (dns ++ k) (Err e)) as Hpart.
  { intros k e Hk. right. right. eauto 10. }
  eapply timed_check_call; [apply connect_tcp_emits| | |].
  - intros e. apply Hpart, partial_none.
  - intros c e (s & -> & _). apply Hpart, partial_tcp.
  - intros c [] (s & -> & Hs). rewrite (Hs eq_refl). clear s Hs.
    eapply timed_check_call; [apply connect_tls_emits| | |].
    + intros e. apply Hpart, partial_tcp.
    + intros c e (s & -> & _). apply Hpart, partial_tls.
    + intros c [] (s & -> & Hs). rewrite (Hs eq_refl). clear s Hs.
      eapply timed_check_last; [apply handshake_emits| |].
      * intros e. apply Hpart, partial_tls.
      * intros c [[]|e] (s & -> & Hs); [|apply Hpart, partial_handshake].
        rewrite (Hs eq_refl). simpl. eauto.
Qed.

(** The whole exchange: [resp] was received, or the exchange stopped before. *)
Definition received (domain : string) (request : OutboundRequest) (resp : HttpResponse)
    (cs : list NetCall) : Prop :=
  exists dns a, D dns (Ok a) /\
    cs = dns ++ established domain a ++ [SendRequest request (SendResponse resp)].

Definition incomplete (domain : string) (request : OutboundRequest) (cs : list NetCall) : Prop :=
  cs = [] \/ (exists e, D cs (Err e)) \/
  exists dns a k, D dns (Ok a) /\ cs = dns ++ k /\
    (partial domain a k \/
     exists answer, (forall resp, answer <> SendResponse resp) /\
       k = established domain a ++ [SendRequest request answer]).

Definition exchanged {A} (domain : string) (request : OutboundRequest)
    (K : HttpResponse -> result A E -> Prop) (cs : list NetCall) (r : result A E) : Prop :=
  (exists resp, received domain request resp cs /\ K resp r) \/
  (is_ok r = false /\ incomplete domain request cs).

Lemma exchange_emits {A} (resolve : M (result SocketAddr E)) domain request
    (k : HttpResponse -> M (result A E)) (K : HttpResponse -> result A E -> Prop) :
  emits resolve (timed d D) ->
  (forall resp, emits (k resp) (fun l r => calls l = [] /\ K resp r)) ->
  emits (let! _ := connect transport deadline_exceeded check resolve domain in
         let! _ := check in
         let! response := send transport deadline_exceeded request in
         k response)
    (timed d (exchanged domain request K)).
Proof.
  intros Hr Hk. eapply timed_try; [by apply connect_emits| |].
  { intros cs e [->|[He|(dns & a & k' & HD & Hp & ->)]]; right; (split; [done|]);
      [by left|by right; left|]. right. right. eauto 10. }
  intros cs [] (dns & a & HD & ->).
  assert (forall e : E, exchanged (A := A) domain request K ((dns ++ established domain a) ++ []) (Err e)) as H0.
  { intros e. right. split; [done|]. right. right. exists dns, a, (established domain a).
    split; [done|]. split; [by rewrite app_nil_r|]. left. apply partial_handshake. }
  eapply (timed_check_call _ _ (fun c r => exists answer, c = SendRequest request answer /\
    match r with Ok resp => answer = SendResponse resp | Err _ => forall resp, answer <> SendResponse resp end)).
  - eapply emits_bind; [apply emits_performed|]. intros l answer ->. apply emits_ret.
    eexists; split; [done|]. exists answer. by destruct answer.
  - exact H0.
  - intros c e (answer & -> & Hne). right. split; [done|]. right. right.
    exists dns, a, (established domain a ++ [SendRequest request answer]).
    split; [done|]. split; [by rewrite app_assoc|]. right. eauto.
  - intros c resp (answer & -> & ->). eapply emits_conseq; [apply Hk|]. intros l r [Hl HK].
    split; [by apply clocked_no_calls|]. rewrite Hl. left. exists resp. split; [|done].
    exists dns, a. split; [done|]. by rewrite <- app_assoc.
Qed.

Definition body_data (f : BodyFrame) : bytes := match f with BodyData b => b | _ => [] end.

(** A body that was read is the data of all its frames, within the limit. *)
Lemma body_frames_emits body_error too_large limit l b :
  (N.of_nat (length b) <= limit)%N ->
  emits (read_frames transport deadline_exceeded check body_error too_large limit l b)
    (fun tr r => calls tr = [] /\ forall b', r = Ok b' ->
       b' = b ++ mjoin (body_data <$> l) /\ (N.of_nat (length b') <= limit)%N).
Proof.
  revert b. induction l as [|f l IH]; intros b Hb.
  { apply emits_ret. split; [done|]. intros b' [= <-]. simpl. by rewrite app_nil_r. }
  assert (forall Q (m : M (result bytes E)), emits m Q -> 
    (forall tr r, Q tr r -> calls tr = [] /\ forall b', r = Ok b' ->
       b' = b ++ mjoin (body_data <$> f :: l) /\ (N.of_nat (length b') <= limit)%N) ->
    emits (etry check (fun _ => m)) (fun tr r => calls tr = [] /\ forall b', r = Ok b' ->
       b' = b ++ mjoin (body_data <$> f :: l) /\ (N.of_nat (length b') <= limit)%N)) as Hch.
  { intros Q m Hm HQ. eapply emits_try; [exact Hcheck| |by intros l1 e [Hl _]].
    intros l1 [] [Hl _]. eapply emits_conseq; [exact Hm|]. intros l2 r [Hc Hr]%HQ.
    by rewrite calls_app, Hl. }
  destruct f as [data| | | |]; simpl.
  - eapply Hch; [|intros tr r H; exact H]. eapply emits_lift; [|by intros e _].
    intros n Hn. unfold accumulate_within_limit in Hn.
    destruct (checked_add _ _) as [m|] eqn:Hadd; [|done]. simpl in Hn.
    destruct (N.ltb_spec limit m) as [|Hle]; [done|]. unfold checked_add in Hadd.
    case_match; [|done]. simplify_eq.
    eapply emits_conseq; [apply IH; rewrite length_app; lia|]. intros tr r [Hc Hr]. split; [done|].
    intros b' Hb'. destruct (Hr b' Hb') as [E' Hlen]. split; [|done].
    by rewrite E', <- app_assoc.
  - eapply Hch; [by apply IH|]. done.
  - eapply Hch; [by apply (emits_ret _ (fun tr r => tr = [] /\ r = Err body_error))|].
    intros tr r [-> ->]. done.
  - by apply emits_ret.
  - by apply emits_ret.
Qed.
End ExchangeFacts.
