(* ===== verification/Routing.v ===== *)
(** * [permissionsync-routing]: logical targets to registered adapters

    Models [crates/permissionsync-routing/src/lib.rs].  The adapter type [A]
    stands for [Box<dyn TargetAdapter>]; routing never invokes it. *)
From S2P Require Import Prelude Core.

Record AdapterIdentifier : Type := mkAdapterIdentifier { adapter_identifier_str : string }.

#[global] Instance AdapterIdentifier_eq_dec : EqDecision AdapterIdentifier.
Proof. solve_decision. Defined.
#[global] Program Instance AdapterIdentifier_countable : Countable AdapterIdentifier :=
  inj_countable' adapter_identifier_str mkAdapterIdentifier _.
Next Obligation. by intros []. Qed.

Record TargetRoute : Type := mkTargetRoute {
  route_logical_target : LogicalTarget;
  route_adapter_identifier : AdapterIdentifier;
}.

Inductive TargetRouterBuildError : Type :=
| DuplicateLogicalTarget (target : LogicalTarget)
| DuplicateAdapterIdentifier (identifier : AdapterIdentifier).

Inductive TargetResolutionError : Type :=
| UnknownLogicalTarget
| UnavailableAdapter (identifier : AdapterIdentifier).

Definition build_error_display (e : TargetRouterBuildError) : string :=
  match e with
  | DuplicateLogicalTarget _ => "duplicate logical target route"
  | DuplicateAdapterIdentifier _ => "duplicate adapter registration"
  end.

Definition resolution_error_display (e : TargetResolutionError) : string :=
  match e with
  | UnknownLogicalTarget => "unknown logical target"
  | UnavailableAdapter _ => "configured adapter is unavailable"
  end.

Section Router.
Context {A : Type}.

Record AdapterRegistration : Type := mkAdapterRegistration {
  registration_identifier : AdapterIdentifier;
  registration_adapter : A;
}.

Record TargetRouter : Type := mkTargetRouter {
  routes : gmap string AdapterIdentifier;
  adapters : gmap AdapterIdentifier A;
}.

(** The first loop of [TargetRouter::new]. *)
Fixpoint insert_routes (target_routes : gmap string AdapterIdentifier) (l : list TargetRoute)
  : result (gmap string AdapterIdentifier) TargetRouterBuildError :=
  match l with
  | [] => Ok target_routes
  | route :: l' =>
      let key := target_as_str (route_logical_target route) in
      match target_routes !! key with
      | Some _ => Err (DuplicateLogicalTarget (route_logical_target route))
      | None => insert_routes (<[key := route_adapter_identifier route]> target_routes) l'
      end
  end.

(** The second loop of [TargetRouter::new]. *)
Fixpoint insert_registrations (m : gmap AdapterIdentifier A) (l : list AdapterRegistration)
  : result (gmap AdapterIdentifier A) TargetRouterBuildError :=
  match l with
  | [] => Ok m
  | registration :: l' =>
      let key := registration_identifier registration in
      match m !! key with
      | Some _ => Err (DuplicateAdapterIdentifier key)
      | None => insert_registrations (<[key := registration_adapter registration]> m) l'
      end
  end.

(** [TargetRouter::new]. *)
Definition router_new (rs : list TargetRoute) (regs : list AdapterRegistration)
  : result TargetRouter TargetRouterBuildError :=
  let? target_routes := insert_routes ∅ rs in
  let? adapters := insert_registrations ∅ regs in
  Ok (mkTargetRouter target_routes adapters).

(** [TargetRouter::resolve]. *)
Definition router_resolve (self : TargetRouter) (target : LogicalTarget)
  : result A TargetResolutionError :=
  let? identifier := ok_or (routes self !! target_as_str target) UnknownLogicalTarget in
  ok_or (adapters self !! identifier) (UnavailableAdapter identifier).

(** ** Abstract specification: the configured lists read directly *)

Definition route_targets (rs : list TargetRoute) : list LogicalTarget :=
  route_logical_target <$> rs.
Definition registration_identifiers (regs : list AdapterRegistration) : list AdapterIdentifier :=
  registration_identifier <$> regs.

Definition resolve_spec (rs : list TargetRoute) (regs : list AdapterRegistration)
    (target : LogicalTarget) : result A TargetResolutionError :=
  match list_find (fun r => route_logical_target r = target) rs with
  | None => Err UnknownLogicalTarget
  | Some (_, r) =>
      match list_find (fun g => registration_identifier g = route_adapter_identifier r) regs with
      | None => Err (UnavailableAdapter (route_adapter_identifier r))
      | Some (_, g) => Ok (registration_adapter g)
      end
  end.

(** ** Proofs *)

Lemma list_find_cons_eq {B} (P : B -> Prop) `{!forall x, Decision (P x)} x l :
  list_find P (x :: l) = (if decide (P x) then Some (0, x) else prod_map S id <$> list_find P l).
Proof. done. Qed.

Lemma insert_routes_ok m l m' :
  insert_routes m l = Ok m' ->
  NoDup (route_targets l) /\
  (forall t, t ∈ route_targets l -> m !! target_as_str t = None) /\
  (forall t, m' !! target_as_str t =
     match list_find (fun r => route_logical_target r = t) l with
     | Some (_, r) => Some (route_adapter_identifier r)
     | None => m !! target_as_str t
     end).
Proof.
  revert m. induction l as [|r l IH]; intros m; simpl.
  { intros [= ->]. split; [constructor|]. split; [set_solver|done]. }
  destruct (m !! _) eqn:Em; [done|]. intros (Hnd & Hfresh & Hl)%IH.
  assert (route_logical_target r ∉ route_targets l) as Hnin.
  { intros Hin. specialize (Hfresh _ Hin). by rewrite lookup_insert_eq in Hfresh. }
  split; [by constructor|]. split.
  - intros t [->|Hin]%elem_of_cons; [done|]. specialize (Hfresh _ Hin).
    rewrite lookup_insert in Hfresh. by case_decide.
  - intros t. rewrite Hl. case_decide as Ht; subst; simpl.
    + assert (list_find (fun r0 => route_logical_target r0 = route_logical_target r) l = None) as ->.
      { apply list_find_None, Forall_forall. intros r0 Hr0 E. apply Hnin.
        rewrite <- E. by apply list_elem_of_fmap_2. }
      by rewrite lookup_insert_eq.
    + destruct (list_find _ l) as [[i r0]|]; simpl; [done|].
      rewrite lookup_insert_ne; [done|]. intros E. apply Ht.
      destruct (route_logical_target r), t. by simpl in E; subst.
Qed.

Lemma insert_registrations_ok m l m' :
  insert_registrations m l = Ok m' ->
  NoDup (registration_identifiers l) /\
  (forall i, i ∈ registration_identifiers l -> m !! i = None) /\
  (forall i, m' !! i =
     match list_find (fun g => registration_identifier g = i) l with
     | Some (_, g) => Some (registration_adapter g)
     | None => m !! i
     end).
Proof.
  revert m. induction l as [|g l IH]; intros m; simpl.
  { intros [= ->]. split; [constructor|]. split; [set_solver|done]. }
  destruct (m !! _) eqn:Em; [done|]. intros (Hnd & Hfresh & Hl)%IH.
  assert (registration_identifier g ∉ registration_identifiers l) as Hnin.
  { intros Hin. specialize (Hfresh _ Hin). by rewrite lookup_insert_eq in Hfresh. }
  split; [by constructor|]. split.
  - intros i [->|Hin]%elem_of_cons; [done|]. specialize (Hfresh _ Hin).
    rewrite lookup_insert in Hfresh. by case_decide.
  - intros i. rewrite Hl. case_decide as Hi; subst; simpl.
    + assert (list_find (fun g0 => registration_identifier g0 = registration_identifier g) l = None) as ->.
      { apply list_find_None, Forall_forall. intros g0 Hg0 E. apply Hnin.
        rewrite <- E. by apply list_elem_of_fmap_2. }
      by rewrite lookup_insert_eq.
    + destruct (list_find _ l) as [[j g0]|]; simpl; [done|]. by rewrite lookup_insert_ne.
Qed.

(** The first repeated element of a list: everything before it is distinct. *)
Definition first_repeat {B} (x : B) (l : list B) : Prop :=
  exists l1 l2, l = l1 ++ x :: l2 /\ x ∈ l1 /\ NoDup l1.

Lemma first_repeat_not_nodup {B} (x : B) l : first_repeat x l -> ~ NoDup l.
Proof.
  intros (l1 & l2 & -> & Hin & _) (_ & Hd & _)%NoDup_app.
  apply (Hd _ Hin). set_solver.
Qed.

Lemma insert_routes_err m seen l e :
  (forall t, is_Some (m !! target_as_str t) <-> t ∈ seen) -> NoDup seen ->
  insert_routes m l = Err e ->
  exists t, e = DuplicateLogicalTarget t /\ first_repeat t (seen ++ route_targets l).
Proof.
  revert m seen. induction l as [|r l IH]; intros m seen Hm Hnd; simpl; [done|].
  destruct (m !! _) eqn:Em.
  - intros [= <-]. eexists. split; [done|]. exists seen, (route_targets l).
    split; [done|]. split; [|done]. apply Hm. by rewrite Em.
  - intros He. apply (IH _ (seen ++ [route_logical_target r])) in He.
    + by rewrite <- app_assoc in He.
    + intros t. rewrite elem_of_app, list_elem_of_singleton, <- Hm, lookup_insert.
      case_decide as E.
      * split; [|by eauto]. intros _. right. destruct t, (route_logical_target r).
        by simpl in E; subst.
      * split; [by left|]. intros [?| ->]; done.
    + apply NoDup_app. split; [done|]. split; [|apply NoDup_singleton].
      intros t Ht ->%list_elem_of_singleton. apply Hm in Ht. rewrite Em in Ht. by destruct Ht.
Qed.

Lemma insert_registrations_err m seen l e :
  (forall i, is_Some (m !! i) <-> i ∈ seen) -> NoDup seen ->
  insert_registrations m l = Err e ->
  exists i, e = DuplicateAdapterIdentifier i /\ first_repeat i (seen ++ registration_identifiers l).
Proof.
  revert m seen. induction l as [|g l IH]; intros m seen Hm Hnd; simpl; [done|].
  destruct (m !! _) eqn:Em.
  - intros [= <-]. eexists. split; [done|]. exists seen, (registration_identifiers l).
    split; [done|]. split; [|done]. apply Hm. by rewrite Em.
  - intros He. apply (IH _ (seen ++ [registration_identifier g])) in He.
    + by rewrite <- app_assoc in He.
    + intros i. rewrite elem_of_app, list_elem_of_singleton, <- Hm, lookup_insert.
      case_decide as E; [naive_solver|]. split; [by left|]. intros [?| ->]; done.
    + apply NoDup_app. split; [done|]. split; [|apply NoDup_singleton].
      intros i Hi ->%list_elem_of_singleton. apply Hm in Hi. rewrite Em in Hi. by destruct Hi.
Qed.

Lemma empty_lookup_seen {K B} `{Countable K} {X} (f : X -> K) :
  forall x : X, is_Some ((∅ : gmap K B) !! f x) <-> x ∈ ([] : list X).
Proof. intros x. rewrite lookup_empty, elem_of_nil. split; [by intros []|done]. Qed.

(** Construction succeeds exactly on duplicate-free
    definitions, and otherwise reports the first repeated target, or (when the
    targets are distinct) the first repeated adapter identifier. *)
Lemma router_new_exact (rs : list TargetRoute) (regs : list AdapterRegistration) :
  match router_new rs regs with
  | Ok _ => NoDup (route_targets rs) /\ NoDup (registration_identifiers regs)
  | Err (DuplicateLogicalTarget t) => first_repeat t (route_targets rs)
  | Err (DuplicateAdapterIdentifier i) =>
      NoDup (route_targets rs) /\ first_repeat i (registration_identifiers regs)
  end.
Proof.
  unfold router_new. destruct (insert_routes ∅ rs) as [m|e] eqn:E1; simpl.
  - apply insert_routes_ok in E1 as (Hnd & _ & _).
    destruct (insert_registrations ∅ regs) as [m'|e] eqn:E2; simpl.
    + apply insert_registrations_ok in E2 as (Hnd' & _ & _). done.
    + apply (insert_registrations_err ∅ []) in E2 as (i & -> & Hi); [done| |constructor].
      apply (empty_lookup_seen id).
  - apply (insert_routes_err ∅ []) in E1 as (t & -> & Ht); [done| |constructor].
    apply empty_lookup_seen.
Qed.

(** A constructed router resolves as the lists say. *)
Lemma router_new_resolves rs regs router target :
  router_new rs regs = Ok router -> router_resolve router target = resolve_spec rs regs target.
Proof.
  unfold router_new, router_resolve, resolve_spec.
  destruct (insert_routes ∅ rs) as [m|] eqn:E1; simpl; [|done].
  destruct (insert_registrations ∅ regs) as [m'|] eqn:E2; simpl; [|done].
  intros [= <-]. simpl. apply insert_routes_ok in E1 as (_ & _ & H1).
  apply insert_registrations_ok in E2 as (_ & _ & H2). rewrite H1.
  destruct (list_find _ rs) as [[i r]|]; simpl; [|done]. rewrite H2.
  by destruct (list_find _ regs) as [[j g]|].
Qed.

(** Construction succeeds exactly on duplicate-free definitions, and
    otherwise reports the first repeated target, or (when the targets are
    distinct) the first repeated adapter identifier; a constructed router resolves
    every target exactly as the configured route and registration lists say. *)
Lemma router_contract (rs : list TargetRoute) (regs : list AdapterRegistration) :
  match router_new rs regs with
  | Ok router => NoDup (route_targets rs) /\ NoDup (registration_identifiers regs) /\
      forall target, router_resolve router target = resolve_spec rs regs target
  | Err (DuplicateLogicalTarget t) => first_repeat t (route_targets rs)
  | Err (DuplicateAdapterIdentifier i) =>
      NoDup (route_targets rs) /\ first_repeat i (registration_identifiers regs)
  end.
Proof.
  pose proof (router_new_exact rs regs) as H. destruct (router_new rs regs) as [router|e] eqn:E; [|exact H].
  destruct H. split; [done|]. split; [done|]. intros target. by apply router_new_resolves.
Qed.
End Router.

Arguments AdapterRegistration : clear implicits.
Arguments TargetRouter : clear implicits.

(** A router with one good and one broken route. *)
Definition example_target (s : string) : LogicalTarget := mkLogicalTarget s.
Definition example_routes : list TargetRoute :=
  [mkTargetRoute (example_target "a") (mkAdapterIdentifier "glpi");
   mkTargetRoute (example_target "b") (mkAdapterIdentifier "missing")].
Definition example_registrations : list (AdapterRegistration nat) :=
  [mkAdapterRegistration (mkAdapterIdentifier "glpi") 7].

Example example_router :
  exists router, router_new example_routes example_registrations = Ok router /\
    router_resolve router (example_target "a") = Ok 7 /\
    router_resolve router (example_target "b") = Err (UnavailableAdapter (mkAdapterIdentifier "missing")) /\
    router_resolve router (example_target "c") = Err UnknownLogicalTarget.
Proof. eexists. split; [reflexivity|]. repeat split; reflexivity. Qed.
