(* ===== verification/Orchestration.v ===== *)
(** * [permissionsync-orchestration]: selected-target synchronization

    Models [crates/permissionsync-orchestration/src].  The world answers the
    capacity, Provider and Adapter ports; the trace records every port call and
    the release of the held permit. *)
From S2P Require Import Prelude Core Routing.

(** ** The bounded-capacity port ([capacity.rs]) *)

Inductive SynchronizationCapacityError : Type := capacity_error.

(** [acquire] answers a permit; dropping the permit is [release]. *)
Class SynchronizationCapacity (W Cap Permit : Type) : Type := {
  capacity_acquire : Cap -> SynchronizationContext -> W ->
    result Permit SynchronizationCapacityError * W;
  capacity_release : Cap -> Permit -> W -> W;
}.

(** ** Errors ([error.rs]) and requests ([request.rs]) *)

Inductive SelectedTargetSynchronizationError : Type :=
| SyncCancelled
| UnknownTarget
| TargetUnavailable
| CapacityUnavailable
| ProviderFailed
| AdapterFailed.

Definition sync_error_display (e : SelectedTargetSynchronizationError) : string :=
  match e with
  | SyncCancelled => "selected-target synchronization was cancelled or expired"
  | UnknownTarget => "selected target is unknown"
  | TargetUnavailable => "selected target is unavailable"
  | CapacityUnavailable => "synchronization capacity is unavailable"
  | ProviderFailed => "permission provider is unavailable or failed"
  | AdapterFailed => "target adapter reconciliation failed"
  end.

Record SelectedTargetSynchronizationRequest : Type := mkSyncRequest {
  sr_identity : IdentityContext;
  sr_target : LogicalTarget;
  sr_technical_caller_bearer_token : TechnicalCallerBearerToken;
  sr_context : SynchronizationContext;
}.

Section Synchronizer.
Context {W A P Cap Permit EP EA : Type}.
Context `{!Clock W, !PermissionProvider W P EP, !TargetAdapter W A EA,
          !SynchronizationCapacity W Cap Permit}.

(** One port interaction, as the trace records it. *)
Inductive SyncCall : Type :=
| Acquire (answer : result Permit SynchronizationCapacityError)
| Resolve (request : PermissionProviderRequest)
          (answer : result DesiredStateEnvelope (PermissionProviderError EP))
| Reconcile (adapter : A) (request : TargetAdapterRequest)
            (answer : result ReconciliationOutcome (TargetAdapterError EA))
| Release (permit : Permit).

Record SelectedTargetSynchronizer : Type := mkSynchronizer {
  router : TargetRouter A;
  provider : option P;
  capacity : Cap;
}.

Abbreviation M := (Eff (Tr W SyncCall)).

(** [is_cancelled_or_expired]. *)
Definition is_cancelled_or_expired (context : SynchronizationContext) : M bool :=
  let* c := read_cancelled in
  if c then eret true
  else let* t := read_now in eret (deadline context <=? t)%Z.

(** [copy_context]. *)
Definition copy_context (context : SynchronizationContext) : SynchronizationContext :=
  mkContext (deadline context).

Definition acquire_permit (cap : Cap) (context : SynchronizationContext)
  : M (result Permit SynchronizationCapacityError) :=
  perform (capacity_acquire cap context) Acquire.

Definition drop_permit (cap : Cap) (permit : Permit) : M unit :=
  perform (fun w => (tt, capacity_release cap permit w)) (fun _ => Release permit).

Definition call_provider (p : P) (request : PermissionProviderRequest)
  : M (result DesiredStateEnvelope (PermissionProviderError EP)) :=
  perform (provider_resolve p request) (Resolve request).

Definition call_adapter (a : A) (request : TargetAdapterRequest)
  : M (result ReconciliationOutcome (TargetAdapterError EA)) :=
  perform (adapter_reconcile a request) (Reconcile a request).

(** The stages that run while the permit is held. *)
Definition synchronize_with_permit (adapter : A) (prov : P)
    (request : SelectedTargetSynchronizationRequest)
  : M (result ReconciliationOutcome SelectedTargetSynchronizationError) :=
  let* expired := is_cancelled_or_expired (sr_context request) in
  if expired then eret (Err SyncCancelled) else
  let provider_request :=
    mkProviderRequest (sr_identity request) (sr_target request)
      (sr_technical_caller_bearer_token request) (copy_context (sr_context request)) in
  let* resolved := call_provider prov provider_request in
  match resolved with
  | Err _ => eret (Err ProviderFailed)
  | Ok desired_state =>
      let* expired := is_cancelled_or_expired (sr_context request) in
      if expired then eret (Err SyncCancelled) else
      let adapter_request :=
        mkAdapterRequest (sr_identity request) desired_state (copy_context (sr_context request)) in
      let* reconciled := call_adapter adapter adapter_request in
      match reconciled with
      | Err _ => eret (Err AdapterFailed)
      | Ok outcome =>
          let* expired := is_cancelled_or_expired (sr_context request) in
          if expired then eret (Err SyncCancelled) else eret (Ok outcome)
      end
  end.

(** [SelectedTargetSynchronizer::synchronize].  The permit is dropped when the
    block that holds it returns, on every path. *)
Definition synchronize (self : SelectedTargetSynchronizer)
    (request : SelectedTargetSynchronizationRequest)
  : M (result ReconciliationOutcome SelectedTargetSynchronizationError) :=
  let* expired := is_cancelled_or_expired (sr_context request) in
  if expired then eret (Err SyncCancelled) else
  match router_resolve (router self) (sr_target request) with
  | Err UnknownLogicalTarget => eret (Err UnknownTarget)
  | Err (UnavailableAdapter _) => eret (Err TargetUnavailable)
  | Ok adapter =>
      let* expired := is_cancelled_or_expired (sr_context request) in
      if expired then eret (Err SyncCancelled) else
      match provider self with
      | None => eret (Err ProviderFailed)
      | Some prov =>
          let* acquired := acquire_permit (capacity self) (sr_context request) in
          match acquired with
          | Err _ => eret (Err CapacityUnavailable)
          | Ok permit =>
              let* r := synchronize_with_permit adapter prov request in
              let* _ := drop_permit (capacity self) permit in
              eret r
          end
      end
  end.

(** ** Specification *)

(** The request each port must see. *)
Definition provider_request_for (request : SelectedTargetSynchronizationRequest) :=
  mkProviderRequest (sr_identity request) (sr_target request)
    (sr_technical_caller_bearer_token request) (sr_context request).
Definition adapter_request_for (request : SelectedTargetSynchronizationRequest)
    (desired_state : DesiredStateEnvelope) :=
  mkAdapterRequest (sr_identity request) desired_state (sr_context request).

(** What may happen while the permit is held: at most one Provider call, then at
    most one Adapter call with the very envelope the Provider returned. *)
Inductive held_run (request : SelectedTargetSynchronizationRequest) (adapter : A)
  : list SyncCall -> result ReconciliationOutcome SelectedTargetSynchronizationError -> Prop :=
| held_cancelled :
    held_run request adapter [] (Err SyncCancelled)
| held_provider_failed e :
    held_run request adapter [Resolve (provider_request_for request) (Err e)] (Err ProviderFailed)
| held_cancelled_after_provider env :
    held_run request adapter [Resolve (provider_request_for request) (Ok env)] (Err SyncCancelled)
| held_adapter_failed env e :
    held_run request adapter
      [Resolve (provider_request_for request) (Ok env);
       Reconcile adapter (adapter_request_for request env) (Err e)] (Err AdapterFailed)
| held_cancelled_after_adapter env o :
    held_run request adapter
      [Resolve (provider_request_for request) (Ok env);
       Reconcile adapter (adapter_request_for request env) (Ok o)] (Err SyncCancelled)
| held_done env o :
    held_run request adapter
      [Resolve (provider_request_for request) (Ok env);
       Reconcile adapter (adapter_request_for request env) (Ok o)] (Ok o).

(** Every complete run: which port calls were made, and the result. *)
Inductive sync_run (self : SelectedTargetSynchronizer) (request : SelectedTargetSynchronizationRequest)
  : list SyncCall -> result ReconciliationOutcome SelectedTargetSynchronizationError -> Prop :=
| run_cancelled_early :
    sync_run self request [] (Err SyncCancelled)
| run_unknown_target :
    router_resolve (router self) (sr_target request) = Err UnknownLogicalTarget ->
    sync_run self request [] (Err UnknownTarget)
| run_target_unavailable i :
    router_resolve (router self) (sr_target request) = Err (UnavailableAdapter i) ->
    sync_run self request [] (Err TargetUnavailable)
| run_no_provider a :
    router_resolve (router self) (sr_target request) = Ok a ->
    provider self = None ->
    sync_run self request [] (Err ProviderFailed)
| run_no_capacity a e :
    router_resolve (router self) (sr_target request) = Ok a ->
    sync_run self request [Acquire (Err e)] (Err CapacityUnavailable)
| run_held a permit l r :
    router_resolve (router self) (sr_target request) = Ok a ->
    held_run request a l r ->
    sync_run self request (Acquire (Ok permit) :: l ++ [Release permit]) r.

Definition is_release (c : SyncCall) : Prop :=
  match c with Release _ => True | _ => False end.

(** ** Proofs *)

(** The check emits a refusal, or exactly the pair a guarded call needs. *)
Lemma emits_is_cancelled_or_expired context :
  emits (is_cancelled_or_expired context)
    (fun l b => calls l = [] /\
       (b = false -> exists t, l = [ECancelled false; ENow t] /\ (t < deadline context)%Z)).
Proof.
  unfold is_cancelled_or_expired. emits_step; [apply (emits_cancelled (fun l b => l = [ECancelled b])); done|].
  intros l1 b ->. destruct b; [by apply emits_ret|].
  emits_step; [apply (emits_now (fun l t => l = [ENow t])); done|].
  intros l2 t ->. apply emits_ret. split; [done|]. intros Hb. exists t.
  rewrite app_nil_r. split; [done|]. by apply Z.leb_gt.
Qed.

Definition fresh_at (d : Z) (t : Z) (_ : SyncCall) : Prop := (t < d)%Z.

(** The postcondition carried through the run. *)
Definition run_post (d : Z) (shape : list SyncCall -> result ReconciliationOutcome
    SelectedTargetSynchronizationError -> Prop) (l : list (event SyncCall))
    (r : result ReconciliationOutcome SelectedTargetSynchronizationError) : Prop :=
  shape (calls l) r /\ guarded is_release (fresh_at d) l.

Lemma run_post_check d context shape (k : M (result ReconciliationOutcome _)) :
  d = deadline context ->
  shape [] (Err SyncCancelled) ->
  (forall t, (t < d)%Z ->
     emits k (fun l r => run_post d shape ([ECancelled false; ENow t] ++ l) r)) ->
  emits (ebind (is_cancelled_or_expired context) (fun b => if b then eret (Err SyncCancelled) else k))
    (run_post d shape).
Proof.
  intros -> Hshape Hk. eapply emits_bind; [apply emits_is_cancelled_or_expired|].
  intros l1 [] [Hcalls Hb]; simpl.
  - apply emits_ret. rewrite app_nil_r. split; [by rewrite Hcalls|].
    by apply guarded_no_calls.
  - destruct (Hb eq_refl) as (t & -> & Ht). by apply Hk.
Qed.

Lemma run_post_call d t c shape r :
  (t < d)%Z -> shape [c] r -> run_post d shape ([ECancelled false; ENow t] ++ [ECall c]) r.
Proof. intros Ht Hs. split; [done|]. by apply guarded_block. Qed.

(** After a guarded call, the rest of the run sees a shape with that call
    already consumed. *)
Lemma run_post_after_call d t c shape (m : M (result ReconciliationOutcome _)) :
  (t < d)%Z ->
  emits m (run_post d (fun cs => shape (c :: cs))) ->
  emits m (fun l r => run_post d shape ([ECancelled false; ENow t] ++ [ECall c] ++ l) r).
Proof.
  intros Ht Hm. eapply emits_conseq; [exact Hm|]. intros l r [Hs Hg]. split.
  - done.
  - apply (guarded_app _ _ [ECancelled false; ENow t; ECall c]); [|done]. by apply guarded_block.
Qed.

Lemma copy_context_id context : copy_context context = context.
Proof. by destruct context. Qed.

Lemma emits_synchronize_with_permit adapter prov request :
  emits (synchronize_with_permit adapter prov request)
    (run_post (deadline (sr_context request)) (held_run request adapter)).
Proof.
  unfold synchronize_with_permit. rewrite !copy_context_id.
  apply run_post_check; [done|constructor|]. intros t1 Ht1.
  unfold call_provider. eapply emits_bind;
    [by apply (emits_perform _ _ (fun l a => l = [ECall (Resolve (provider_request_for request) a)]))|].
  intros l1 [env|e] ->;
    [|apply emits_ret; rewrite app_nil_r; apply run_post_call; [done|constructor]].
  apply run_post_after_call; [done|].
  apply run_post_check; [done|constructor|]. intros t2 Ht2.
  unfold call_adapter. eapply emits_bind;
    [by apply (emits_perform _ _ (fun l a => l = [ECall (Reconcile adapter (adapter_request_for request env) a)]))|].
  intros l2 [o|e] ->;
    [|apply emits_ret; rewrite app_nil_r; apply run_post_call; [done|constructor]].
  apply run_post_after_call; [done|].
  apply run_post_check; [done|constructor|]. intros t3 Ht3.
  apply emits_ret. rewrite app_nil_r. split; [constructor|]. by apply guarded_no_calls.
Qed.

Lemma emits_synchronize self request :
  emits (synchronize self request)
    (run_post (deadline (sr_context request)) (sync_run self request)).
Proof.
  unfold synchronize. apply run_post_check; [done|constructor|]. intros t1 Ht1.
  assert (forall r, sync_run self request [] r ->
    emits (W := W) (eret r) (fun l r => run_post (deadline (sr_context request)) (sync_run self request)
      ([ECancelled false; ENow t1] ++ l) r)) as Hearly.
  { intros r Hr. apply emits_ret. rewrite app_nil_r. split; [done|]. by apply guarded_no_calls. }
  destruct (router_resolve _ _) as [adapter|[|i]] eqn:Er;
    [|by apply Hearly, run_unknown_target|by eapply Hearly, run_target_unavailable].
  eapply emits_conseq; [apply (run_post_check (deadline (sr_context request)) (sr_context request)
    (sync_run self request)); [done|constructor|]|].
  2:{ intros l r [Hs Hg]. split; [done|]. apply guarded_app; [by apply guarded_no_calls|done]. }
  intros t2 Ht2. destruct (provider self) as [prov|] eqn:Ep.
  2:{ apply emits_ret. rewrite app_nil_r. split; [by eapply run_no_provider|by apply guarded_no_calls]. }
  unfold acquire_permit. eapply emits_bind;
    [by apply (emits_perform _ _ (fun l a => l = [ECall (Acquire a)]))|].
  intros l1 [permit|e] ->;
    [|apply emits_ret; rewrite app_nil_r; apply run_post_call; [done|by eapply run_no_capacity]].
  apply run_post_after_call; [done|].
  eapply emits_bind; [apply emits_synchronize_with_permit|]. intros l2 r [Hs Hg].
  unfold drop_permit. eapply emits_bind;
    [by apply (emits_perform _ _ (fun l _ => l = [ECall (Release permit)]))|].
  intros l3 _ ->. apply emits_ret. rewrite app_nil_r. split.
  - rewrite calls_app. by eapply run_held.
  - apply guarded_app; [done|]. by apply guarded_exempt.
Qed.

(** C15: at-most-once, in order.  In every world one [synchronize] call
    performs exactly one of the documented call sequences and returns the
    matching category: nothing before routing and the Provider check succeed;
    then one acquisition; then at most one Provider call, at most one Adapter
    call with the Provider's envelope and the same identity, and exactly one
    release of the acquired permit, last.  No acquisition, Provider call or
    Adapter call starts unless the code has just observed the request neither
    cancelled nor past its deadline. *)
Theorem synchronize_runs (self : SelectedTargetSynchronizer)
    (request : SelectedTargetSynchronizationRequest) (w : W) :
  let run := synchronize self request (mkTr w []) in
  sync_run self request (calls (trace run.2)) run.1 /\
  guarded is_release (fresh_at (deadline (sr_context request))) (trace run.2).
Proof. apply (emits_run _ _ w (emits_synchronize self request)). Qed.
End Synchronizer.
