(* ===== verification/Provider.v ===== *)
(** * The generic REST Permission Provider

    Models [crates/permissionsync-provider-generic-rest/src]: configuration and
    endpoint validation ([lib.rs], [client.rs]), the wire contract ([wire.rs])
    and one bounded resolution attempt ([client.rs]) over the exchange of
    [Net]. *)
From S2P Require Import Prelude Core Dns Net.

(** [error.rs]. *)
Inductive ProviderFailure : Type :=
| RuntimeUnavailable
| Cancelled
| DeadlineExceeded
| InvalidAuthorization
| RequestConstruction
| RequestSerialization
| Transport
| UnexpectedStatus
| ResponseMetadata
| ResponseBody
| ResponseTooLarge
| ResponseEnvelope.

Definition provider_failure_debug (e : ProviderFailure) : string := "ProviderFailure".
Definition provider_failure_display (e : ProviderFailure) : string := "generic REST provider failure".

Inductive GenericRestPermissionProviderConfigError : Type := provider_config_error.

(** A parsed media type: type, subtype and parameters in order. *)
Record Mime : Type := mkMime {
  mime_type : string;
  mime_subtype : string;
  mime_params : list (string * string);
}.

(** Third-party code the Provider client calls.
    - [hyper::Uri]: parsing, the components, and replacing an empty path;
    - the standard library's IP address parser, whose text format is not used
      by any statement;
    - [native_tls]: the number of certificates of a PEM, and whether the
      connector builds;
    - [http]: which texts are header values, the text of a received header
      value, and whether a request with this target builds;
    - [mime]: parsing a media type, parameter names in lower case;
    - [serde_json]: printing the request body, parsing the response envelope to
      its version and the text of its payload, and validating one JSON text. *)
Class ProviderDeps : Type := {
  provider_names :: DnsNames;
  Uri : Type;
  uri_parse : string -> option Uri;
  uri_scheme : Uri -> option string;
  uri_host : Uri -> option string;
  uri_authority : Uri -> option string;
  uri_query : Uri -> option string;
  uri_path : Uri -> string;
  uri_port : Uri -> option N;
  uri_with_root_path : Uri -> option Uri;
  uri_root_same : forall u u', uri_with_root_path u = Some u' ->
    uri_host u' = uri_host u /\ uri_authority u' = uri_authority u /\
    uri_scheme u' = uri_scheme u /\ uri_port u' = uri_port u /\ uri_path u' = "/";
  ip_parse : string -> option IpAddr;
  stack_from_pem : bytes -> option nat;
  tls_build : list bytes -> bool;
  header_text_valid : string -> bool;
  header_to_str : bytes -> option string;
  request_target_valid : string -> bool;
  parse_mime : string -> option Mime;
  to_vec_request : string -> list string -> option bytes;
  envelope_from_slice : bytes -> option (N * string);
  raw_value_from_string : string -> option string;
}.

(** ** Endpoint and configuration *)

Definition RESPONSE_BODY_LIMIT_BYTES : N := 1048576.

(** [str::trim_start_matches] and [str::trim_end_matches] of one character. *)
Fixpoint trim_start_matches (c : ascii) (l : bytes) : bytes :=
  match l with
  | [] => []
  | x :: l' => if bool_decide (x = c) then trim_start_matches c l' else l
  end.
Definition trim_end_matches (c : ascii) (l : bytes) : bytes := reverse (trim_start_matches c (reverse l)).

Section Endpoint.
Context `{Deps : ProviderDeps}.

(** [parse_endpoint]. *)
Definition parse_endpoint (text : string) : result Uri GenericRestPermissionProviderConfigError :=
  if contains_char ["{"; "}"; "#"]%char text then Err provider_config_error else
  let? endpoint := ok_or (uri_parse text) provider_config_error in
  if negb (bool_decide (uri_scheme endpoint = Some "https"))
     || match uri_host endpoint with Some h => bool_decide (h = "") | None => true end
     || negb (bool_decide (is_Some (uri_authority endpoint)))
     || bool_decide (is_Some (uri_query endpoint))
     || match uri_authority endpoint with Some a => contains_char ["@"%char] a | None => false end
  then Err provider_config_error else
  if bool_decide (uri_path endpoint = "")
  then ok_or (uri_with_root_path endpoint) provider_config_error
  else Ok endpoint.

(** [bare_host]; a validated endpoint has a host. *)
Definition bare_host (endpoint : Uri) : string :=
  match uri_host endpoint with
  | Some h => of_bytes (trim_end_matches "]" (trim_start_matches "[" (as_bytes h)))
  | None => ""
  end.

Inductive EndpointHostKind : Type :=
| Literal (a : IpAddr)
| Hostname (n : Name) (name_server : UdpNameServer).
Record EndpointHost : Type := mkEndpointHost { host_port : N; host_kind : EndpointHostKind }.

(** [endpoint_dns_name]. *)
Definition endpoint_dns_name (host : string) : result Name GenericRestPermissionProviderConfigError :=
  let? n := ok_or (name_of_str host) provider_config_error in Ok (name_set_fqdn n).

(** [classify_endpoint_host], with the platform's resolver configuration when it
    can be read. *)
Definition classify_endpoint_host (system_conf : option (list NameServer)) (endpoint : Uri)
  : result EndpointHost GenericRestPermissionProviderConfigError :=
  let host := bare_host endpoint in
  let port := default 443%N (uri_port endpoint) in
  match ip_parse host with
  | Some a => Ok (mkEndpointHost port (Literal a))
  | None =>
      let? n := endpoint_dns_name host in
      let? servers := ok_or system_conf provider_config_error in
      let? name_server := ok_or (configured_udp_name_server servers) provider_config_error in
      Ok (mkEndpointHost port (Hostname n name_server))
  end.

(** [build_tls_connector]. *)
Fixpoint trust_anchors_ok (pems : list bytes) : bool :=
  match pems with
  | [] => true
  | pem :: rest =>
      match stack_from_pem pem with
      | None | Some 0 => false
      | Some _ => trust_anchors_ok rest
      end
  end.
Definition build_tls_connector (pems : list bytes) : result unit GenericRestPermissionProviderConfigError :=
  if trust_anchors_ok pems && tls_build pems then Ok tt else Err provider_config_error.

Record GenericRestPermissionProviderConfig : Type := mkProviderConfig {
  config_endpoint : string;
  config_operation_timeout : Z;
  config_trust_anchors : list bytes;
}.

(** [GenericRestPermissionProvider], without its TLS connector. *)
Record GenericRestPermissionProvider : Type := mkProvider {
  endpoint : Uri;
  endpoint_host : EndpointHost;
  operation_timeout : Z;
}.

(** [GenericRestPermissionProvider::new]. *)
Definition provider_new (system_conf : option (list NameServer))
    (config : GenericRestPermissionProviderConfig)
  : result GenericRestPermissionProvider GenericRestPermissionProviderConfigError :=
  if (config_operation_timeout config =? 0)%Z then Err provider_config_error else
  let? e := parse_endpoint (config_endpoint config) in
  let? h := classify_endpoint_host system_conf e in
  let? _ := build_tls_connector (config_trust_anchors config) in
  Ok (mkProvider e h (config_operation_timeout config)).

(** ** The wire contract *)

(** [serialize_request_body]. *)
Definition serialize_request_body (identity : IdentityContext) : result bytes ProviderFailure :=
  ok_or (to_vec_request (username identity) (groups identity)) RequestSerialization.

(** [validate_success_content_type]. *)
Definition validate_success_content_type (content_types : list string) : result unit ProviderFailure :=
  match content_types with
  | [content_type] =>
      let? media_type := ok_or (parse_mime content_type) ResponseMetadata in
      if negb (eq_ignore_ascii_case (as_bytes (mime_type media_type)) (as_bytes "application"))
         || negb (eq_ignore_ascii_case (as_bytes (mime_subtype media_type)) (as_bytes "json"))
      then Err ResponseMetadata else
      match snd <$> List.filter (fun p => bool_decide (p.1 = "charset")) (mime_params media_type) with
      | [] => Ok tt
      | [charset] =>
          if negb (eq_ignore_ascii_case (as_bytes charset) (as_bytes "utf-8"))
             && negb (eq_ignore_ascii_case (as_bytes charset) (as_bytes "utf8"))
          then Err ResponseMetadata else Ok tt
      | _ => Err ResponseMetadata
      end
  | _ => Err ResponseMetadata
  end.

(** [str::trim] on header text, which is ASCII. *)
Definition is_white_space (c : ascii) : bool := byte_between 9 13 c || byte_between 32 32 c.
Fixpoint trim_start (l : bytes) : bytes :=
  match l with
  | [] => []
  | c :: l' => if is_white_space c then trim_start l' else l
  end.
Definition trim (l : bytes) : bytes := reverse (trim_start (reverse (trim_start l))).

(** The inner [for] of [validate_success_content_encoding], with [found_coding]. *)
Fixpoint validate_codings (codings : list bytes) (found_coding : bool) : result unit ProviderFailure :=
  match codings with
  | [] => if negb found_coding then Err ResponseMetadata else Ok tt
  | piece :: rest =>
      let coding := trim piece in
      if bool_decide (coding = []) || negb (eq_ignore_ascii_case coding (as_bytes "identity"))
      then Err ResponseMetadata
      else validate_codings rest true
  end.

(** [validate_success_content_encoding]. *)
Fixpoint validate_success_content_encoding (content_encodings : list string)
  : result unit ProviderFailure :=
  match content_encodings with
  | [] => Ok tt
  | v :: rest =>
      let? _ := validate_codings (split_on "," (as_bytes v)) false in
      validate_success_content_encoding rest
  end.

(** [header_values]. *)
Fixpoint collect_str (values : list bytes) : result (list string) ProviderFailure :=
  match values with
  | [] => Ok []
  | v :: rest =>
      let? s := ok_or (header_to_str v) ResponseMetadata in
      let? l := collect_str rest in
      Ok (s :: l)
  end.
Definition header_values (headers : list (string * bytes)) (name : string)
  : result (list string) ProviderFailure :=
  collect_str (snd <$> List.filter (fun h => bool_decide (h.1 = name)) headers).

(** [parse_content_length]. *)
Definition parse_content_length (content_length : string) : result N ProviderFailure :=
  if bool_decide (content_length = "") || negb (forallb is_ascii_digit (as_bytes content_length))
  then Err ResponseMetadata
  else ok_or (parse_u64 content_length) ResponseMetadata.

(** [validate_success_headers]. *)
Definition validate_success_headers (headers : list (string * bytes)) (limit : N)
  : result (option N) ProviderFailure :=
  let? content_types := header_values headers "content-type" in
  let? _ := validate_success_content_type content_types in
  let? content_encodings := header_values headers "content-encoding" in
  let? _ := validate_success_content_encoding content_encodings in
  let? content_lengths := header_values headers "content-length" in
  let? declared_length :=
    match content_lengths with
    | [] => Ok None
    | [content_length] => let? n := parse_content_length content_length in Ok (Some n)
    | _ => Err ResponseMetadata
    end in
  if match declared_length with Some n => (limit <? n)%N | None => false end
  then Err ResponseTooLarge else Ok declared_length.

(** [parse_success_envelope]. *)
Definition parse_success_envelope (b : bytes) : result DesiredStateEnvelope ProviderFailure :=
  let? envelope := ok_or (envelope_from_slice b) ResponseEnvelope in
  let '(version, payload_text) := envelope in
  let? payload := map_err (fun _ => ResponseEnvelope)
    (opaque_payload_try_from raw_value_from_string payload_text) in
  Ok (mkEnvelope (mkEnvelopeVersion version) payload).

(** [authorization_header] and [build_request]; a validated endpoint has an
    authority. *)
Definition authorization_header (token : string) : result HeaderValue ProviderFailure :=
  let text := ("Bearer " ++ token)%string in
  if header_text_valid text then Ok (mkHeader text true) else Err InvalidAuthorization.

Definition plain (text : string) : HeaderValue := mkHeader text false.

Definition build_request (endpoint : Uri) (request_body : bytes) (authorization : HeaderValue)
  : result OutboundRequest ProviderFailure :=
  let authority := default "" (uri_authority endpoint) in
  if negb (header_text_valid authority) then Err RequestConstruction else
  if negb (request_target_valid (uri_path endpoint)) then Err RequestConstruction else
  Ok (mkOutbound POST (uri_path endpoint)
        [("host", plain authority); ("content-type", plain "application/json");
         ("accept", plain "application/json"); ("accept-encoding", plain "");
         ("authorization", authorization)]
        request_body).
End Endpoint.
Arguments endpoint {_} g.
Arguments endpoint_host {_} g.
Arguments operation_timeout {_} g.

(** ** One resolution attempt *)

Section Client.
Context `{Deps : ProviderDeps} {W : Type} `{!NetWorld W}.
Abbreviation M := (Eff (Tr W NetCall)).

(** [effective_deadline]. *)
Definition effective_deadline (context : SynchronizationContext) (timeout : Z)
  : M (result Z ProviderFailure) :=
  let* cancelled := read_cancelled in
  if cancelled then eret (Err Cancelled) else
  let* t := read_now in
  if (deadline context <=? t)%Z then eret (Err DeadlineExceeded) else
  let provider_deadline := default (deadline context) (instant_checked_add t timeout) in
  eret (Ok (Z.min (deadline context) provider_deadline)).

(** [check_context]. *)
Definition check_context (context : SynchronizationContext) (effective_deadline : Z)
  : M (result unit ProviderFailure) :=
  let* cancelled := read_cancelled in
  if cancelled then eret (Err Cancelled) else
  let* t := read_now in
  if (effective_deadline <=? t)%Z then eret (Err DeadlineExceeded) else eret (Ok tt).

(** [resolve_one_address]. *)
Definition resolve_one_address (h : EndpointHost) (effective_deadline : Z)
  : M (result SocketAddr ProviderFailure) :=
  match host_kind h with
  | Literal a => eret (Ok (mkSocketAddr a (host_port h)))
  | Hostname n name_server =>
      resolve_hostname Transport DeadlineExceeded n name_server (host_port h) effective_deadline
  end.

(** [read_body]. *)
Definition read_body (response : HttpResponse) (limit : N) (context : SynchronizationContext)
    (effective_deadline : Z) : M (result bytes ProviderFailure) :=
  let check := check_context context effective_deadline in
  let! b := read_frames Transport DeadlineExceeded check ResponseBody ResponseTooLarge limit
    (answer_frames response) [] in
  let! _ := check in
  eret (Ok b).

(** [send_and_read_response], after the response head arrived. *)
Definition read_response (context : SynchronizationContext) (effective_deadline : Z)
    (response : HttpResponse) : M (result DesiredStateEnvelope ProviderFailure) :=
  let check := check_context context effective_deadline in
  let! _ := check in
  if negb (answer_status response =? 200)%N then eret (Err UnexpectedStatus) else
  let! _ := elift (validate_success_headers (answer_headers response) RESPONSE_BODY_LIMIT_BYTES) in
  let! response_body := read_body response RESPONSE_BODY_LIMIT_BYTES context effective_deadline in
  let! _ := check in
  let! envelope := elift (parse_success_envelope response_body) in
  let! _ := check in
  eret (Ok envelope).

(** [resolve_within_deadline]. *)
Definition resolve_within_deadline (self : GenericRestPermissionProvider)
    (request : PermissionProviderRequest) (effective_deadline : Z)
  : M (result DesiredStateEnvelope ProviderFailure) :=
  let context := pr_context request in
  let check := check_context context effective_deadline in
  let! _ := check in
  let! request_body := elift (serialize_request_body (pr_identity request)) in
  let! authorization := elift (authorization_header (bearer_as_str (pr_technical_caller_bearer_token request))) in
  let! outbound_request := elift (build_request (endpoint self) request_body authorization) in
  let! _ := connect Transport DeadlineExceeded check
    (resolve_one_address (endpoint_host self) effective_deadline) (bare_host (endpoint self)) in
  let! _ := check in
  let! response := send Transport DeadlineExceeded outbound_request in
  read_response context effective_deadline response.

(** [client::resolve]. *)
Definition resolve (self : GenericRestPermissionProvider) (request : PermissionProviderRequest)
  : M (result DesiredStateEnvelope ProviderFailure) :=
  let! d := effective_deadline (pr_context request) (operation_timeout self) in
  let* runtime := (fun s => (runtime_available (world s), s)) in
  if negb runtime then eret (Err RuntimeUnavailable) else
  resolve_within_deadline self request d.
End Client.

(** ** Facts: response metadata *)

#[local] Arguments as_bytes _ : simpl never.

Section Metadata.
Context `{Deps : ProviderDeps}.

(** The texts of all fields of one name. *)
Definition fields (headers : list (string * bytes)) (name : string) (texts : list string) : Prop :=
  Forall2 (fun v s => header_to_str v = Some s)
    (snd <$> List.filter (fun h => bool_decide (h.1 = name)) headers) texts.

Definition same_ignoring_case (b : bytes) (text : string) : Prop :=
  eq_ignore_ascii_case b (as_bytes text) = true.

(** A JSON media type, with at most one charset, which is UTF-8. *)
Definition json_media_type (text : string) : Prop :=
  exists m, parse_mime text = Some m /\
    same_ignoring_case (as_bytes (mime_type m)) "application" /\
    same_ignoring_case (as_bytes (mime_subtype m)) "json" /\
    (Forall (fun p => p.1 <> "charset") (mime_params m) \/
     exists l1 charset l2, mime_params m = l1 ++ ("charset", charset) :: l2 /\
       Forall (fun p => p.1 <> "charset") (l1 ++ l2) /\
       (same_ignoring_case (as_bytes charset) "utf-8" \/ same_ignoring_case (as_bytes charset) "utf8")).

(** A comma-separated list of [identity] codings with white space around them. *)
Definition identity_codings (text : string) : Prop :=
  exists pieces, pieces <> [] /\ as_bytes text = join_with "," pieces /\
    Forall (fun piece => exists before coding after, piece = before ++ coding ++ after /\
      Forall (fun c => is_white_space c = true) before /\
      Forall (fun c => is_white_space c = true) after /\
      same_ignoring_case coding "identity") pieces.

Definition decimal (text : string) (n : N) : Prop :=
  text <> "" /\ Forall (fun c => is_ascii_digit c = true) (as_bytes text) /\ parse_u64 text = Some n.

Definition metadata_ok (headers : list (string * bytes)) (declared : option N) : Prop :=
  (exists text, fields headers "content-type" [text] /\ json_media_type text) /\
  (exists texts, fields headers "content-encoding" texts /\ Forall identity_codings texts) /\
  match declared with
  | None => fields headers "content-length" []
  | Some n => exists text, fields headers "content-length" [text] /\ decimal text n
  end.

Lemma header_values_ok headers name texts :
  header_values headers name = Ok texts <-> fields headers name texts.
Proof.
  unfold header_values, fields. generalize (snd <$> List.filter (fun h => bool_decide (h.1 = name)) headers).
  intros values. revert texts. induction values as [|v values IH]; intros texts; simpl.
  - split; [intros [= <-]; constructor|]. intros H. by inversion H.
  - destruct (header_to_str v) as [s|] eqn:Hv; simpl.
    + destruct (collect_str values) as [l|e] eqn:Hc; simpl.
      * split; [intros [= <-]; constructor; [done|by apply IH]|].
        intros H. inversion H as [|? s' ? l' Hs Hl]; subst. apply IH in Hl. congruence.
      * split; [done|]. intros H. inversion H as [|? s' ? l' Hs Hl]; subst. by apply IH in Hl.
    + split; [done|]. intros H. inversion H; subst. congruence.
Qed.

Lemma header_values_err headers name e : header_values headers name = Err e -> e = ResponseMetadata.
Proof.
  unfold header_values. generalize (snd <$> List.filter (fun h => bool_decide (h.1 = name)) headers).
  intros values. revert e. induction values as [|v values IH]; intros e; simpl; [done|].
  destruct (header_to_str v); simpl; [|by intros [= <-]].
  destruct (collect_str values); simpl; [done|]. intros [= <-]. by apply IH.
Qed.

Lemma charset_test (ps : list (string * string)) :
  Forall (fun p => bool_decide (p.1 = "charset") = false) ps <-> Forall (fun p => p.1 <> "charset") ps.
Proof. apply Forall_proper; [|done]. intros p. apply bool_decide_eq_false. Qed.

Lemma content_type_exact types :
  match validate_success_content_type types with
  | Ok _ => exists text, types = [text] /\ json_media_type text
  | Err e => e = ResponseMetadata /\ ~ exists text, types = [text] /\ json_media_type text
  end.
Proof.
  destruct types as [|text [|? ?]]; simpl; [naive_solver| |naive_solver].
  unfold json_media_type, same_ignoring_case.
  destruct (parse_mime text) as [m|] eqn:Hm; simpl; [|naive_solver].
  destruct (eq_ignore_ascii_case (as_bytes (mime_type m)) _) eqn:Ht; simpl;
    [|split; [done|]; intros (? & [= <-] & ? & ? & ? & _); congruence].
  destruct (eq_ignore_ascii_case (as_bytes (mime_subtype m)) _) eqn:Hs; simpl;
    [|split; [done|]; intros (? & [= <-] & ? & ? & ? & ? & _); congruence].
  destruct (List.filter _ (mime_params m)) as [|[n c] [|? ?]] eqn:Hf; csimpl.
  - apply filter_none, charset_test in Hf. exists text. split; [done|]. exists m. auto.
  - apply filter_single in Hf as (l1 & l2 & Hps & Hn%bool_decide_eq_true & H1 & H2). simpl in Hn. subst n.
    apply charset_test in H1, H2.
    assert (eq_ignore_ascii_case (as_bytes c) (as_bytes "utf-8") = true \/
      eq_ignore_ascii_case (as_bytes c) (as_bytes "utf8") = true ->
      exists text', [text] = [text'] /\ json_media_type text') as Hok.
    { intros Hc. exists text. split; [done|]. exists m. split_and!; [done..|]. right. exists l1, c, l2.
      rewrite Forall_app. auto. }
    destruct (eq_ignore_ascii_case (as_bytes c) (as_bytes "utf-8")) eqn:H8,
      (eq_ignore_ascii_case (as_bytes c) (as_bytes "utf8")) eqn:H8'; cbn [negb andb]; [apply Hok; by auto..|].
    clear Hok.
    split; [done|]. intros (? & [= <-] & m' & Hm' & _ & _ & Hcs). simplify_eq.
    assert (List.filter (fun p => bool_decide (p.1 = "charset")) (mime_params m) = [("charset", c)]) as Hf
      by (apply filter_single; exists l1, l2; split_and!; [done|done|by apply charset_test..]).
    destruct Hcs as [Hnone|(k1 & c' & k2 & Hps' & Hall & Hc')].
    + apply charset_test, filter_none in Hnone. congruence.
    + assert (List.filter (fun p => bool_decide (p.1 = "charset")) (mime_params m) = [("charset", c')]) as Hf'.
      { apply Forall_app in Hall as [? ?]. apply filter_single. exists k1, k2.
        split_and!; [done|done|by apply charset_test..]. }
      simplify_eq. naive_solver congruence.
  - split; [done|]. intros (? & [= <-] & m' & Hm' & _ & _ & Hcs). simplify_eq.
    destruct Hcs as [Hnone|(k1 & c' & k2 & Hps' & Hall & _)].
    + apply charset_test, filter_none in Hnone. congruence.
    + apply Forall_app in Hall as [? ?].
      assert (List.filter (fun p => bool_decide (p.1 = "charset")) (mime_params m) = [("charset", c')]) as Hf'
        by (apply filter_single; exists k1, k2; split_and!; [done|done|by apply charset_test..]).
      congruence.
Qed.
(** [identity] in any case. *)
Definition identity_byte (c : ascii) : Prop := to_ascii_lowercase c ∈ as_bytes "identity".

Lemma identity_bytes coding : same_ignoring_case coding "identity" -> Forall identity_byte coding.
Proof.
  unfold same_ignoring_case, eq_ignore_ascii_case. rewrite bool_decide_eq_true. intros H.
  apply Forall_forall. intros c Hc. unfold identity_byte.
  assert (to_ascii_lowercase <$> as_bytes "identity" = as_bytes "identity") as E by (vm_compute; reflexivity).
  rewrite <- E, <- H. by apply list_elem_of_fmap_2.
Qed.

Lemma identity_nonempty coding : same_ignoring_case coding "identity" -> coding <> [].
Proof. intros H ->. by vm_compute in H. Qed.

Lemma identity_byte_plain c : identity_byte c -> is_white_space c = false /\ c <> ","%char.
Proof.
  unfold identity_byte. intros H. apply list_elem_of_In in H.
  assert (forallb (fun b => negb (is_white_space b) && negb (bool_decide (b = ","%char))) (as_bytes "identity") = true)
    as Hall by (vm_compute; reflexivity).
  rewrite forallb_forall in Hall. specialize (Hall _ H). clear H.
  destruct c as [[] [] [] [] [] [] [] []]; vm_compute in Hall |- *; split; congruence.
Qed.

Lemma trim_start_spaces before l :
  Forall (fun c => is_white_space c = true) before -> trim_start (before ++ l) = trim_start l.
Proof. induction 1 as [|c before Hc _ IH]; simpl; [done|]. by rewrite Hc. Qed.

Lemma trim_start_plain c l : is_white_space c = false -> trim_start (c :: l) = c :: l.
Proof. simpl. by intros ->. Qed.

Lemma trim_start_split l :
  exists before, l = before ++ trim_start l /\ Forall (fun c => is_white_space c = true) before.
Proof.
  induction l as [|c l IH]; simpl; [exists []; by split|].
  destruct (is_white_space c) eqn:Hc; [|exists []; by split].
  destruct IH as (before & H & Hb). exists (c :: before). split; [simpl; by f_equal|by constructor].
Qed.

Lemma trim_split l :
  exists before after, l = before ++ trim l ++ after /\
    Forall (fun c => is_white_space c = true) before /\ Forall (fun c => is_white_space c = true) after.
Proof.
  destruct (trim_start_split l) as (before & Hl & Hb).
  destruct (trim_start_split (reverse (trim_start l))) as (k & Hk & Hkw).
  exists before, (reverse k). split_and!; [|done|by apply Forall_reverse].
  unfold trim. rewrite <- reverse_app, <- Hk, reverse_involutive. done.
Qed.

Lemma trim_identity before coding after :
  Forall (fun c => is_white_space c = true) before -> Forall (fun c => is_white_space c = true) after ->
  same_ignoring_case coding "identity" -> trim (before ++ coding ++ after) = coding.
Proof.
  intros Hb Ha Hc. pose proof (identity_nonempty _ Hc) as Hne. apply identity_bytes in Hc.
  unfold trim. rewrite trim_start_spaces by done.
  destruct coding as [|c coding]; [done|]. simpl.
  destruct (identity_byte_plain c) as [-> _]; [by inversion Hc|].
  rewrite app_comm_cons, reverse_app, trim_start_spaces by (by apply Forall_reverse).
  apply Forall_reverse in Hc. destruct (reverse (c :: coding)) as [|x l] eqn:Hr.
  { apply (f_equal reverse) in Hr. by rewrite reverse_involutive in Hr. }
  rewrite trim_start_plain, <- Hr, reverse_involutive; [done|].
  apply identity_byte_plain. by inversion Hc.
Qed.

Definition identity_piece (piece : bytes) : Prop := same_ignoring_case (trim piece) "identity".

Lemma identity_piece_exact piece :
  identity_piece piece <-> exists before coding after, piece = before ++ coding ++ after /\
    Forall (fun c => is_white_space c = true) before /\
    Forall (fun c => is_white_space c = true) after /\ same_ignoring_case coding "identity".
Proof.
  split.
  - intros H. destruct (trim_split piece) as (before & after & ? & ? & ?). eauto 10.
  - intros (before & coding & after & -> & Hb & Ha & Hc). unfold identity_piece.
    by rewrite trim_identity.
Qed.

Lemma identity_piece_no_comma piece : identity_piece piece -> ","%char ∉ piece.
Proof.
  intros (before & coding & after & -> & Hb & Ha & Hc%identity_bytes)%identity_piece_exact Hin.
  rewrite Forall_forall in Hb, Ha, Hc. apply elem_of_app in Hin as [Hin|[Hin|Hin]%elem_of_app].
  - by specialize (Hb _ Hin).
  - by destruct (identity_byte_plain _ (Hc _ Hin)).
  - by specialize (Ha _ Hin).
Qed.

Lemma identity_codings_split text :
  identity_codings text <-> Forall identity_piece (split_on "," (as_bytes text)).
Proof.
  unfold identity_codings. setoid_rewrite <- identity_piece_exact. split.
  - intros (pieces & Hne & -> & Hall). rewrite split_join; [done|done|].
    eapply Forall_impl; [exact Hall|]. apply identity_piece_no_comma.
  - intros Hall. exists (split_on "," (as_bytes text)). split_and!; [apply split_on_nonempty| |done].
    by rewrite join_split.
Qed.

Lemma validate_codings_exact pieces found :
  found = true \/ pieces <> [] ->
  match validate_codings pieces found with
  | Ok _ => Forall identity_piece pieces
  | Err e => e = ResponseMetadata /\ ~ Forall identity_piece pieces
  end.
Proof.
  revert found. induction pieces as [|piece pieces IH]; intros found Hf; simpl; [destruct Hf as [->|Hf]; [by constructor|done]|].
  pose proof (Forall_cons identity_piece piece pieces) as HF.
  assert (identity_piece piece <-> eq_ignore_ascii_case (trim piece) (as_bytes "identity") = true) as Hp by done.
  destruct (bool_decide (trim piece = [])) eqn:Hb; simpl.
  { apply bool_decide_eq_true in Hb. split; [done|]. intros [H _]%HF. unfold identity_piece in H.
    rewrite Hb in H. by vm_compute in H. }
  destruct (eq_ignore_ascii_case (trim piece) (as_bytes "identity")); simpl; [|naive_solver].
  specialize (IH true (or_introl eq_refl)). destruct (validate_codings pieces true); naive_solver.
Qed.

Lemma content_encoding_exact texts :
  match validate_success_content_encoding texts with
  | Ok _ => Forall identity_codings texts
  | Err e => e = ResponseMetadata /\ ~ Forall identity_codings texts
  end.
Proof.
  induction texts as [|text texts IH]; simpl; [constructor|].
  pose proof (Forall_cons identity_codings text texts) as HF. rewrite identity_codings_split in HF.
  pose proof (validate_codings_exact (split_on "," (as_bytes text)) false
    (or_intror (split_on_nonempty _ _))) as Hv.
  destruct (validate_codings _ false); simpl; [|naive_solver].
  destruct (validate_success_content_encoding texts); naive_solver.
Qed.

Lemma content_length_exact text :
  match parse_content_length text with
  | Ok n => decimal text n
  | Err e => e = ResponseMetadata /\ forall n, ~ decimal text n
  end.
Proof.
  unfold parse_content_length, decimal. case_bool_decide as Hne; simpl; [naive_solver|].
  destruct (forallb is_ascii_digit (as_bytes text)) eqn:Hd; simpl.
  - apply forallb_Forall in Hd. destruct (parse_u64 text); simpl; naive_solver.
  - split; [done|]. intros n (_ & Hall & _). apply forallb_Forall in Hall. congruence.
Qed.

Lemma fields_unique headers name l l' : fields headers name l -> fields headers name l' -> l = l'.
Proof. intros H%header_values_ok H'%header_values_ok. congruence. Qed.

(** A response head is accepted exactly when it has one
    [Content-Type] field that is a JSON media type with at most one charset,
    UTF-8, all its [Content-Encoding] fields are comma-separated lists of the
    identity coding, and it has at most one [Content-Length] field, a decimal
    within the limit, which is then the declared length.  A well-formed length
    above the limit is the only cause of [ResponseTooLarge]; every other head is
    [ResponseMetadata]. *)
Lemma success_headers_exact (headers : list (string * bytes)) (limit : N) :
  match validate_success_headers headers limit with
  | Ok declared => metadata_ok headers declared /\ (forall n, declared = Some n -> n <= limit)%N
  | Err ResponseTooLarge => exists n, metadata_ok headers (Some n) /\ (limit < n)%N
  | Err e => e = ResponseMetadata /\ forall declared, ~ metadata_ok headers declared
  end.
Proof.
  unfold validate_success_headers, metadata_ok.
  destruct (header_values headers "content-type") as [types|e] eqn:Hct; simpl.
  2:{ rewrite (header_values_err _ _ _ Hct). split; [done|].
      intros d ((text & Hf%header_values_ok & _) & _). congruence. }
  apply header_values_ok in Hct. pose proof (content_type_exact types) as Ht.
  destruct (validate_success_content_type types) as [[]|e]; simpl.
  2:{ destruct Ht as [-> Hn]. split; [done|]. intros d ((text & Hf & Hj) & _). apply Hn.
      exists text. split; [by eapply fields_unique|done]. }
  destruct Ht as (text & -> & Hj).
  destruct (header_values headers "content-encoding") as [encs|e] eqn:Hce; simpl.
  2:{ rewrite (header_values_err _ _ _ Hce). split; [done|].
      intros d (_ & (texts & Hf%header_values_ok & _) & _). congruence. }
  apply header_values_ok in Hce. pose proof (content_encoding_exact encs) as He.
  destruct (validate_success_content_encoding encs) as [[]|e]; simpl.
  2:{ destruct He as [-> Hn]. split; [done|]. intros d (_ & (texts & Hf & Hall) & _). apply Hn.
      by rewrite (fields_unique _ _ _ _ Hce Hf). }
  destruct (header_values headers "content-length") as [lens|e] eqn:Hcl; simpl.
  2:{ rewrite (header_values_err _ _ _ Hcl). split; [done|].
      intros [n|] (_ & _ & Hd); [destruct Hd as (t & Hf%header_values_ok & _)|apply header_values_ok in Hd];
        congruence. }
  apply header_values_ok in Hcl.
  assert (forall t n, fields headers "content-length" [t] -> decimal t n ->
    metadata_ok headers (Some n)) as Hsome.
  { intros t n Hf Hd. split_and!; eauto. }
  destruct lens as [|len [|? ?]]; simpl.
  - split; [split_and!; eauto|done].
  - pose proof (content_length_exact len) as Hl.
    destruct (parse_content_length len) as [n|e]; simpl.
    + destruct (N.ltb_spec limit n) as [Hlt|Hle].
      * exists n. split; [by eapply Hsome|done].
      * split; [by eapply Hsome|]. by intros n' [= <-].
    + destruct Hl as [-> Hn]. split; [done|]. intros [n|] (_ & _ & Hd).
      * destruct Hd as (t & Hf & Hd). assert ([len] = [t]) as [= <-] by (by eapply fields_unique). by eapply Hn.
      * by pose proof (fields_unique _ _ _ _ Hcl Hd).
  - split; [done|]. intros [n'|] (_ & _ & Hd).
    + destruct Hd as (t & Hf & _). by pose proof (fields_unique _ _ _ _ Hcl Hf).
    + by pose proof (fields_unique _ _ _ _ Hcl Hd).
Qed.
End Metadata.

(** ** Facts: one attempt *)

Section ClientFacts.
Context `{Deps : ProviderDeps} {W : Type} `{!NetWorld W}.
Abbreviation M := (Eff (Tr W NetCall)).

Lemma provider_check_emits context d :
  emits (check_context (W := W) context d) (fun l r => calls l = [] /\ (r = Ok tt -> ticked d l)).
Proof.
  unfold check_context. eapply emits_bind; [by apply (emits_cancelled (fun l b => l = [ECancelled b]))|].
  intros l1 [] ->; [by apply emits_ret|].
  eapply emits_bind; [by apply (emits_now (fun l t => l = [ENow t]))|]. intros l2 t ->.
  destruct (Z.leb_spec d t) as [|Hlt]; apply emits_ret; [done|]. split; [done|]. intros _.
  exists [ECancelled false], t. done.
Qed.

Lemma provider_deadline_emits context timeout :
  emits (effective_deadline (W := W) context timeout)
    (fun l r => calls l = [] /\ forall d, r = Ok d -> (d <= deadline context)%Z).
Proof.
  unfold effective_deadline. eapply emits_bind; [by apply (emits_cancelled (fun l b => l = [ECancelled b]))|].
  intros l1 [] ->; [by apply emits_ret|].
  eapply emits_bind; [by apply (emits_now (fun l t => l = [ENow t]))|]. intros l2 t ->.
  destruct (Z.leb_spec (deadline context) t) as [|Hlt]; apply emits_ret; [done|]. split; [done|].
  intros d [= <-]. lia.
Qed.

(** Where the address comes from: the endpoint itself, or one DNS exchange. *)
Definition addressed (h : EndpointHost) (cs : list NetCall) (r : result SocketAddr ProviderFailure) : Prop :=
  match host_kind h with
  | Literal a => cs = [] /\ r = Ok (mkSocketAddr a (host_port h))
  | Hostname n name_server => looked_up n name_server (host_port h) cs r
  end.

Lemma resolve_one_address_emits h d :
  emits (resolve_one_address (W := W) h d) (timed d (addressed h)).
Proof.
  unfold resolve_one_address, addressed. destruct (host_kind h) as [a|n name_server].
  - apply emits_ret. split; [by apply clocked_no_calls|done].
  - apply resolve_hostname_emits.
Qed.

(** What the envelope was read from. *)
Definition accepted_envelope (resp : HttpResponse) (r : result DesiredStateEnvelope ProviderFailure) : Prop :=
  forall envelope, r = Ok envelope ->
  answer_status resp = 200%N /\
  (exists declared, validate_success_headers (answer_headers resp) RESPONSE_BODY_LIMIT_BYTES = Ok declared) /\
  (N.of_nat (length (mjoin (body_data <$> answer_frames resp))) <= RESPONSE_BODY_LIMIT_BYTES)%N /\
  parse_success_envelope (mjoin (body_data <$> answer_frames resp)) = Ok envelope.

(** A computation without calls, with a property of its result. *)
Definition silent {A} (P : result A ProviderFailure -> Prop) (l : list (event NetCall))
    (r : result A ProviderFailure) : Prop := calls l = [] /\ P r.

Lemma silent_check {A} context d (k : M (result A ProviderFailure)) P :
  (forall e, P (Err e)) -> emits k (silent P) ->
  emits (etry (check_context context d) (fun _ => k)) (silent P).
Proof.
  intros He Hk. eapply emits_try; [apply provider_check_emits| |].
  - intros l1 [] [Hl _]. eapply emits_conseq; [exact Hk|]. intros l2 r [Hl2 Hr].
    split; [|done]. by rewrite calls_app, Hl.
  - intros l1 e [Hl _]. by split.
Qed.

Lemma read_body_emits response context d :
  emits (read_body (W := W) response RESPONSE_BODY_LIMIT_BYTES context d)
    (silent (fun r => forall b, r = Ok b -> b = mjoin (body_data <$> answer_frames response) /\
       (N.of_nat (length b) <= RESPONSE_BODY_LIMIT_BYTES)%N)).
Proof.
  unfold read_body. eapply emits_try.
  - apply (body_frames_emits _ _ d); [apply provider_check_emits|]. simpl. unfold RESPONSE_BODY_LIMIT_BYTES. lia.
  - intros l1 b [Hl Hb]. eapply emits_conseq.
    + apply (silent_check _ _ _ (fun r => forall b', r = Ok b' -> b' = b)); [done|].
      apply emits_ret. split; [done|]. by intros b' [= <-].
    + intros l2 r [Hl2 Hr]. split; [by rewrite calls_app, Hl|]. intros b' ->. rewrite (Hr b' eq_refl).
      by apply Hb.
  - intros l1 e [Hl _]. by split.
Qed.

Lemma read_response_emits context d response :
  emits (read_response (W := W) context d response)
    (fun l r => calls l = [] /\ accepted_envelope response r).
Proof.
  assert (forall e, accepted_envelope response (Err e)) as Herr by done.
  unfold read_response. apply silent_check; [done|].
  destruct (N.eqb_spec (answer_status response) 200) as [Hs|]; simpl; [|by apply emits_ret].
  apply emits_lift; [|by intros]. intros declared Hd.
  eapply emits_try; [apply read_body_emits| |by intros l1 e [Hl _]]. intros l1 b [Hl Hb].
  destruct (Hb b eq_refl) as [-> Hlen]. eapply emits_conseq with (Q := silent (accepted_envelope response)).
  2:{ intros l2 r [Hl2 Hr]. split; [by rewrite calls_app, Hl|done]. }
  apply silent_check; [done|]. apply emits_lift; [|by intros]. intros envelope He.
  apply silent_check; [done|]. apply emits_ret. split; [done|]. intros envelope' [= <-]. eauto.
Qed.

(** The request of an attempt: the identity as JSON, the exact bearer. *)
Definition provider_request (self : GenericRestPermissionProvider) (request : PermissionProviderRequest)
    (out : OutboundRequest) : Prop :=
  exists b, to_vec_request (username (pr_identity request)) (groups (pr_identity request)) = Some b /\
  out = mkOutbound POST (uri_path (endpoint self))
    [("host", plain (default "" (uri_authority (endpoint self))));
     ("content-type", plain "application/json"); ("accept", plain "application/json");
     ("accept-encoding", plain "");
     ("authorization", mkHeader ("Bearer " ++ bearer_as_str (pr_technical_caller_bearer_token request)) true)] b.

Definition attempt (self : GenericRestPermissionProvider) (request : PermissionProviderRequest)
    (cs : list NetCall) (r : result DesiredStateEnvelope ProviderFailure) : Prop :=
  (is_ok r = false /\ cs = []) \/
  exists out, provider_request self request out /\
    exchanged (addressed (endpoint_host self)) (bare_host (endpoint self)) out accepted_envelope cs r.

Lemma resolve_within_deadline_emits self request d :
  emits (resolve_within_deadline (W := W) self request d) (timed d (attempt self request)).
Proof.
  assert (forall e, attempt self request [] (Err e)) as Herr by (by left).
  unfold resolve_within_deadline. apply (timed_check d (check_context (pr_context request) d));
    [apply provider_check_emits|done|].
  apply emits_lift; [|by intros; split; [apply clocked_no_calls|]]. intros b Hb%ok_or_ok_inv.
  apply emits_lift; [|by intros; split; [apply clocked_no_calls|]]. intros authorization Ha.
  apply emits_lift; [|by intros; split; [apply clocked_no_calls|]]. intros out Ho.
  eapply emits_conseq; [apply (exchange_emits _ _ d _ (provider_check_emits _ _)
    (addressed (endpoint_host self)) _ _ _ _ accepted_envelope)|].
  - apply resolve_one_address_emits.
  - intros resp. apply read_response_emits.
  - intros l r [Hc Hx]. split; [done|]. right. exists out. split; [|done]. exists b. split; [done|].
    unfold authorization_header in Ha. case_match; [|done]. simplify_eq.
    unfold build_request in Ho. repeat case_match; simplify_eq. done.
Qed.

(** C36: one resolution is at most one attempt, for the exact caller and
    identity: no request before the address is known, every stage only after the
    clock was read before a deadline within the request's own, at most one DNS
    exchange, one connection, one TLS and one HTTP handshake and one request, in
    this order and never retried.  The one request posts the identity with the
    unchanged bearer.  An envelope is only returned from a 200 answer to it with
    valid metadata whose complete body, at most 1 MiB, is that envelope. *)
Theorem provider_resolve_once (self : GenericRestPermissionProvider)
    (request : PermissionProviderRequest) (w : W) :
  let '(r, s) := resolve self request (mkTr w []) in
  exists d, (d <= deadline (pr_context request))%Z /\ clocked d (trace s) /\
    attempt self request (calls (trace s)) r.
Proof.
  assert (emits (resolve (W := W) self request) (fun l r => exists d,
    (d <= deadline (pr_context request))%Z /\ timed d (attempt self request) l r)) as H.
  { unfold resolve. eapply emits_try; [apply provider_deadline_emits| |].
    - intros l1 d [Hl Hd]. specialize (Hd d eq_refl).
      assert (forall l2 r, timed d (attempt self request) l2 r ->
        exists d, (d <= deadline (pr_context request))%Z /\ timed d (attempt self request) (l1 ++ l2) r) as Hpre.
      { intros l2 r [Hc Ha]. exists d. split; [done|].
        split; [by apply clocked_app; [apply clocked_no_calls|]|]. by rewrite calls_app, Hl. }
      intros s. unfold ebind. simpl. destruct (runtime_available (world s)); simpl.
      + destruct (resolve_within_deadline_emits self request d s) as (l2 & Ht & HQ). eauto.
      + exists []. rewrite app_nil_r. split; [done|]. apply (Hpre []). by split; [apply clocked_no_calls|left].
    - intros l1 e [Hl _]. exists (deadline (pr_context request)). split; [done|].
      split; [by apply clocked_no_calls|]. left. by rewrite Hl. }
  pose proof (emits_run _ _ w H) as (d & Hd & Hc & Ha). destruct (resolve _ _ _) as [r s]. eauto.
Qed.

(** The Provider behind the [PermissionProvider] port: its failures are wrapped. *)
#[global] Instance generic_rest_provider :
    PermissionProvider W GenericRestPermissionProvider ProviderFailure :=
  fun self request w =>
    let '(r, s) := resolve self request (mkTr w []) in (map_err mkProviderError r, world s).

(** A constructed Provider has the host and authority its requests use, over
    HTTPS, without credentials in it, and a positive timeout. *)
Lemma provider_new_endpoint system_conf config self :
  (0 <= config_operation_timeout config)%Z -> provider_new system_conf config = Ok self ->
  (0 < operation_timeout self)%Z /\ uri_scheme (endpoint self) = Some "https" /\
  (exists h, uri_host (endpoint self) = Some h /\ h <> "") /\
  (exists a, uri_authority (endpoint self) = Some a /\ contains_char ["@"%char] a = false).
Proof.
  intros Hpos. unfold provider_new. destruct (Z.eqb_spec (config_operation_timeout config) 0); [done|].
  destruct (parse_endpoint _) as [u|] eqn:Hu; [|done]. simpl.
  destruct (classify_endpoint_host _ _) as [h|]; [|done]. simpl.
  destruct (build_tls_connector _); [|done]. simpl. intros [= <-]. simpl. split; [lia|].
  unfold parse_endpoint in Hu. case_match; [done|].
  destruct (uri_parse _) as [v|]; [|done]. simpl in Hu.
  destruct (bool_decide (uri_scheme v = Some "https")) eqn:Hs; [|done]. simpl in Hu.
  apply bool_decide_eq_true in Hs.
  destruct (uri_host v) as [hv|] eqn:Hh; [|done]. case_bool_decide as Hne; [done|]. simpl in Hu.
  destruct (uri_authority v) as [av|] eqn:Ha; [|by rewrite bool_decide_false in Hu by (by intros [])].
  rewrite bool_decide_true in Hu by eauto. simpl in Hu.
  destruct (bool_decide (is_Some (uri_query v))); [done|]. simpl in Hu.
  destruct (contains_char ["@"%char] av) eqn:Hat; [done|].
  assert (uri_scheme u = uri_scheme v /\ uri_host u = uri_host v /\ uri_authority u = uri_authority v)
    as (-> & -> & ->).
  { case_bool_decide; [|by simplify_eq]. apply ok_or_ok_inv, uri_root_same in Hu. naive_solver. }
  rewrite Hs, Hh, Ha. eauto 10.
Qed.
End ClientFacts.
