(* ===== verification/ProviderService.v ===== *)
(** * The generic REST Provider against a service that answers

    [Provider] shows what every answer satisfies.  Here is the converse: in front of a
    Permission Provider service that keeps the wire contract and a network that carries
    it ([ServingProvider]), a resolution returns the service's desired state, unless the
    caller gives up or time runs out ([late]). *)
From S2P Require Import Prelude Core Dns Net Provider.

(** ** The service *)

(** A complete response that carries [env]. *)
Definition carries_envelope `{Deps : ProviderDeps} (env : DesiredStateEnvelope) (r : HttpResponse) : Prop :=
  answer_status r = 200%N /\
  (exists declared, metadata_ok (answer_headers r) declared /\
     forall n, declared = Some n -> (n <= RESPONSE_BODY_LIMIT_BYTES)%N) /\
  Forall (fun f => f = BodyOther \/ exists b, f = BodyData b) (answer_frames r) /\
  let body := mjoin ((fun f => match f with BodyData b => b | _ => [] end) <$> answer_frames r) in
  (N.of_nat (length body) <= RESPONSE_BODY_LIMIT_BYTES)%N /\
  exists text, envelope_from_slice body = Some (version_get (envelope_version env), text) /\
    raw_value_from_string text = Some (as_json (envelope_payload env)).

(** The network reaches the service, which answers every request the client builds for
    an identity with that identity's desired state. *)
Class ServingProvider `{Deps : ProviderDeps} (self : GenericRestPermissionProvider) (W : Type) `{!NetWorld W}
  : Type := {
  desired_of : IdentityContext -> DesiredStateEnvelope;
  serving_runtime : forall w, runtime_available w = true;
  serving_body : forall identity, is_Some (to_vec_request (username identity) (groups identity));
  serving_authority : header_text_valid (default "" (uri_authority (endpoint self))) = true;
  serving_target : request_target_valid (uri_path (endpoint self)) = true;
  serving_name : forall n server d w, host_kind (endpoint_host self) = Hostname n server ->
    exists reply a p6 rest, (dns_exchange server n d w).1 = (Some (Ok reply), p6) :: rest /\
      response_address reply n TypeA = Some a;
  serving_tcp : forall a w, (tcp_connect a w).1 = StageDone;
  serving_tls : forall domain w, (tls_connect domain w).1 = StageDone;
  serving_handshake : forall w, (http_handshake w).1 = StageDone;
  serving_answer : forall identity body authorization out w,
    to_vec_request (username identity) (groups identity) = Some body ->
    build_request (endpoint self) body authorization = Ok out ->
    exists r, (send_request out w).1 = SendResponse r /\ carries_envelope (desired_of identity) r;
}.

(** The end of an operation's window that starts at [t]. *)
Definition window_end (limit timeout t : Z) : Z := Z.min limit (default limit (instant_checked_add t timeout)).

(** Why a resolution may still fail with [e]: its trace [l] shows that the caller gave up,
    or a clock reading past the end of its window, which starts at its first reading; and
    the world is one that answers so. *)
Definition late `{Deps : ProviderDeps} (W : Type) `{!Clock W} (limit timeout : Z) (e : ProviderFailure)
    (l : list (event NetCall)) : Prop :=
  match e with
  | Cancelled => ECancelled true ∈ l /\ exists w : W, (is_cancelled w).1 = true
  | DeadlineExceeded => exists t rest t', l = ECancelled false :: ENow t :: rest /\ ENow t' ∈ ENow t :: rest /\
      (window_end limit timeout t <= t')%Z /\ exists w w' : W, (now w).1 = t /\ (now w').1 = t'
  | _ => False
  end.

Section Metadata.
Context `{Deps : ProviderDeps}.

Lemma metadata_declared headers d d' : metadata_ok headers d -> metadata_ok headers d' -> d = d'.
Proof.
  intros (_ & _ & H) (_ & _ & H'). destruct d as [n|], d' as [n'|]; [| | |done].
  - destruct H as (t & Hf & _ & _ & Hn), H' as (t' & Hf' & _ & _ & Hn').
    pose proof (fields_unique _ _ _ _ Hf Hf') as [= ->]. congruence.
  - destruct H as (t & Hf & _). by pose proof (fields_unique _ _ _ _ Hf H').
  - destruct H' as (t & Hf & _). by pose proof (fields_unique _ _ _ _ Hf H).
Qed.

Lemma headers_validate headers declared limit : metadata_ok headers declared ->
  (forall n, declared = Some n -> (n <= limit)%N) -> validate_success_headers headers limit = Ok declared.
Proof.
  intros Hm Hn. pose proof (success_headers_exact headers limit) as H.
  destruct (validate_success_headers headers limit) as [d|e].
  - destruct H as [Hd _]. by rewrite (metadata_declared _ _ _ Hm Hd).
  - destruct e; try (destruct H as [_ H]; by apply H in Hm).
    destruct H as (n & Hd & Hlt). pose proof (metadata_declared _ _ _ Hm Hd) as ->.
    specialize (Hn n eq_refl). lia.
Qed.
End Metadata.

(** ** One resolution *)

Section Delivery.
Context `{Deps : ProviderDeps} {W : Type} `{!NetWorld W} (self : GenericRestPermissionProvider).
Context `{Service : !ServingProvider self W} (request : PermissionProviderRequest).
Abbreviation M := (Eff (Tr W NetCall)).
Abbreviation context := (pr_context request).
Abbreviation too_late := (late W (deadline context) (operation_timeout self)).

Section Window.
(** After the deadline [d] was computed, from the first clock reading. *)
Context (t0 d : Z) (Hd : d = window_end (deadline context) (operation_timeout self) t0).
Context (w0 : W) (Hw0 : (now w0).1 = t0).

Definition begun (l : list (event NetCall)) : Prop := exists rest, l = ECancelled false :: ENow t0 :: rest.

Lemma begun_app l l' : begun l -> begun (l ++ l').
Proof. intros (rest & ->). by exists (rest ++ l'). Qed.

(** Succeeds with [Q], or it is late. *)
Definition delivers {A} (m : M (result A ProviderFailure)) (Q : A -> Prop) : Prop :=
  forall s, begun (trace s) ->
  match m s with
  | (Ok a, s') => begun (trace s') /\ Q a
  | (Err e, s') => too_late e (trace s')
  end.

Lemma delivers_ret {A} (a : A) (Q : A -> Prop) : Q a -> delivers (eret (Ok a)) Q.
Proof. by intros HQ s Hs. Qed.

Lemma delivers_try {A B} (m : M (result A ProviderFailure)) (k : A -> M (result B ProviderFailure)) R Q :
  delivers m R -> (forall a, R a -> delivers (k a) Q) -> delivers (etry m k) Q.
Proof.
  intros Hm Hk s Hs. specialize (Hm s Hs). unfold etry, ebind. destruct (m s) as [[a|e] s']; [|done].
  destruct Hm as [Hs' Ha]. by apply (Hk a Ha).
Qed.

Lemma delivers_lift {A B} (r : result A ProviderFailure) (k : A -> M (result B ProviderFailure)) a Q :
  r = Ok a -> delivers (k a) Q -> delivers (etry (elift r) k) Q.
Proof. intros -> Hk s. apply (Hk s). Qed.

Lemma delivers_bind {A B} (f : W -> A * W) (record : A -> NetCall) (k : A -> M (result B ProviderFailure)) (φ : A -> Prop) Q :
  (forall w, φ (f w).1) -> (forall a, φ a -> delivers (k a) Q) -> delivers (ebind (perform f record) k) Q.
Proof.
  intros Hf Hk s Hs. unfold ebind, perform. specialize (Hf (world s)). destruct (f (world s)) as [a w].
  apply Hk; [done|]. by apply begun_app.
Qed.

(** A clock reading past the window. *)
Lemma past_window l t w : begun l -> (now w).1 = t -> (d <= t)%Z -> too_late DeadlineExceeded (l ++ [ENow t]).
Proof.
  intros (rest & ->) Hw Ht. exists t0, (rest ++ [ENow t]), t. rewrite <- Hd.
  split_and!; [done|set_solver|done|]. by exists w0, w.
Qed.

Lemma delivers_check : delivers (check_context context d) (fun _ => True).
Proof.
  intros s Hs. unfold check_context, ebind, read_cancelled, read_now.
  destruct (is_cancelled (world s)) as [[] w1] eqn:E1; simpl.
  { split; [set_solver|]. exists (world s). by rewrite E1. }
  apply (begun_app _ [ECancelled false]) in Hs. destruct (now w1) as [t w2] eqn:E2. simpl.
  destruct (Z.leb_spec d t); simpl; [|split; [by apply begun_app|done]].
  apply (past_window _ _ w1); [done|by rewrite E2|done].
Qed.

Lemma delivers_check_then {A} (k : unit -> M (result A ProviderFailure)) Q :
  delivers (k tt) Q -> delivers (etry (check_context context d) k) Q.
Proof. intros Hk. eapply delivers_try; [apply delivers_check|]. by intros []. Qed.

Lemma delivers_address : delivers (resolve_one_address (endpoint_host self) d) (fun _ => True).
Proof.
  unfold resolve_one_address. destruct (host_kind (endpoint_host self)) as [a|n server] eqn:Hh;
    [by apply delivers_ret|].
  intros s Hs. unfold resolve_hostname, ebind at 1, read_now. destruct (now (world s)) as [t w] eqn:E.
  assert (d <= t -> too_late DeadlineExceeded (trace s ++ [ENow t]))%Z as Hlate.
  { intros Ht. apply (past_window _ _ (world s)); [done|by rewrite E|done]. }
  unfold checked_duration_since. destruct (Z.leb_spec t d) as [Hle|Hlt]; [|apply Hlate; lia].
  destruct (Z.eqb_spec (d - t) 0); [apply Hlate; lia|].
  unfold ebind, perform. destruct (serving_name n server (d - t) w Hh) as (reply & a & p6 & rest & Hp & Ha).
  simpl. destruct (dns_exchange server n (d - t) w) as [polls w']. simpl in *. subst polls. simpl.
  rewrite Ha. simpl. split; [|done]. by do 2 apply begun_app.
Qed.

Lemma delivers_connect :
  delivers (connect Transport DeadlineExceeded (check_context context d)
    (resolve_one_address (endpoint_host self) d) (bare_host (endpoint self))) (fun _ => True).
Proof.
  unfold connect, connect_tcp, connect_tls, handshake. apply delivers_check_then.
  eapply delivers_try; [apply delivers_address|]. intros a _. apply delivers_check_then.
  apply (delivers_try _ _ (fun _ => True)); [eapply (delivers_bind _ _ _ (eq StageDone)); [intros; by rewrite serving_tcp|]|].
  { intros ? <-. by apply delivers_ret. }
  intros [] _. apply delivers_check_then.
  apply (delivers_try _ _ (fun _ => True)); [eapply (delivers_bind _ _ _ (eq StageDone)); [intros; by rewrite serving_tls|]|].
  { intros ? <-. by apply delivers_ret. }
  intros [] _. apply delivers_check_then.
  eapply (delivers_bind _ _ _ (eq StageDone)); [intros; by rewrite serving_handshake|].
  intros ? <-. by apply delivers_ret.
Qed.

Lemma delivers_frames l b :
  Forall (fun f => f = BodyOther \/ exists b, f = BodyData b) l ->
  let body := b ++ mjoin ((fun f => match f with BodyData b => b | _ => [] end) <$> l) in
  (N.of_nat (length body) <= RESPONSE_BODY_LIMIT_BYTES)%N ->
  delivers (read_frames Transport DeadlineExceeded (check_context context d) ResponseBody ResponseTooLarge
    RESPONSE_BODY_LIMIT_BYTES l b) (fun body' => body' = body).
Proof.
  intros Hl. revert b. induction Hl as [|f l Hf Hl IH]; intros b body Hsize; subst body; simpl.
  { apply delivers_ret. by rewrite app_nil_r. }
  destruct Hf as [->|(data & ->)]; apply delivers_check_then; csimpl in *; [by apply IH|].
  rewrite app_assoc in *. unfold accumulate_within_limit, checked_add.
  rewrite !length_app in Hsize. unfold RESPONSE_BODY_LIMIT_BYTES, U64_MAX in *.
  rewrite (proj2 (N.leb_le _ _)) by lia. simpl.
  eapply delivers_lift; [by rewrite (proj2 (N.ltb_ge _ _)) by lia|].
  apply IH. rewrite !length_app. lia.
Qed.

Lemma delivers_response env r : carries_envelope env r ->
  delivers (read_response context d r) (fun env' => env' = env).
Proof.
  intros (Hst & (declared & Hm & Hn) & Hfr & Hsize & text & Hslice & Hraw). unfold read_response.
  apply delivers_check_then. rewrite Hst. simpl.
  eapply delivers_lift; [by apply headers_validate|]. unfold read_body.
  eapply (delivers_try _ _ (fun b => b = mjoin ((fun f => match f with BodyData b => b | _ => [] end) <$> answer_frames r))).
  { eapply delivers_try; [by apply (delivers_frames _ [])|]. intros b ->. apply delivers_check_then.
    by apply delivers_ret. }
  intros b ->. apply delivers_check_then. eapply delivers_lift.
  { unfold parse_success_envelope, opaque_payload_try_from. by rewrite Hslice; simpl; rewrite Hraw. }
  apply delivers_check_then. apply delivers_ret. by destruct env as [[] []].
Qed.

Lemma delivers_within :
  header_text_valid ("Bearer " ++ bearer_as_str (pr_technical_caller_bearer_token request))%string = true ->
  delivers (resolve_within_deadline self request d) (fun env => env = desired_of (pr_identity request)).
Proof.
  intros Hbearer. destruct (serving_body (pr_identity request)) as [body Hbody].
  unfold resolve_within_deadline. apply delivers_check_then.
  eapply delivers_lift; [unfold serialize_request_body; by rewrite Hbody|].
  eapply delivers_lift; [unfold authorization_header; by rewrite Hbearer|].
  eapply delivers_lift; [unfold build_request; by rewrite serving_authority, serving_target|].
  eapply delivers_try; [apply delivers_connect|]. intros [] _. apply delivers_check_then.
  unfold send. eapply (delivers_try _ _ (carries_envelope (desired_of (pr_identity request)))).
  2:{ intros r. apply delivers_response. }
  eapply (delivers_bind _ _ _ (fun a => exists r, a = SendResponse r /\
    carries_envelope (desired_of (pr_identity request)) r)).
  - intros w. eapply serving_answer; [exact Hbody|].
    unfold build_request. by rewrite serving_authority, serving_target.
  - intros ? (r & -> & Hr). by apply delivers_ret.
Qed.
End Window.

(** From the start of a resolution. *)
Lemma delivers_resolve w :
  header_text_valid ("Bearer " ++ bearer_as_str (pr_technical_caller_bearer_token request))%string = true ->
  match resolve self request (mkTr w []) with
  | (Ok env, _) => env = desired_of (pr_identity request)
  | (Err e, s) => too_late e (trace s)
  end.
Proof.
  intros Hb. unfold resolve, etry, effective_deadline, ebind, read_cancelled, read_now. simpl.
  destruct (is_cancelled w) as [[] w1] eqn:E1; simpl.
  { split; [set_solver|]. exists w. by rewrite E1. }
  destruct (now w1) as [t w2] eqn:E2. simpl. destruct (Z.leb_spec (deadline context) t); simpl.
  { exists t, [], t. split_and!; [done|set_solver|unfold window_end; lia|]. exists w1, w1. by rewrite E2. }
  rewrite serving_runtime. simpl.
  pose proof (delivers_within t _ eq_refl w1 ltac:(by rewrite E2) Hb (mkTr w2 [ECancelled false; ENow t])) as Hrun.
  unfold window_end in Hrun. destruct (resolve_within_deadline _ _ _ _) as [[env|e] s]; apply Hrun; by exists [].
Qed.
End Delivery.

(** ** What a resolution leaves alone *)

Section Keeps.
Context `{Deps : ProviderDeps} {W : Type} `{!NetWorld W} (self : GenericRestPermissionProvider).

Record net_keeps (P : W -> Prop) : Prop := mkNetKeeps {
  net_keeps_now : forall w, P w -> P (now w).2;
  net_keeps_cancelled : forall w, P w -> P (is_cancelled w).2;
  net_keeps_dns : forall server n d w, P w -> P (dns_exchange server n d w).2;
  net_keeps_tcp : forall a w, P w -> P (tcp_connect a w).2;
  net_keeps_tls : forall domain w, P w -> P (tls_connect domain w).2;
  net_keeps_handshake : forall w, P w -> P (http_handshake w).2;
  net_keeps_send : forall out w, P w -> P (send_request out w).2;
}.

Context (P : W -> Prop) (Hk : net_keeps P).
Abbreviation kept := (preserves (C := NetCall) P).

Lemma net_kept_now : kept read_now.
Proof. apply preserves_now, Hk. Qed.
Lemma net_kept_cancelled : kept read_cancelled.
Proof. apply preserves_cancelled, Hk. Qed.
Lemma net_kept_runtime : kept (fun s => (runtime_available (world s), s)).
Proof. by intros s Hs. Qed.
#[local] Hint Resolve net_kept_now net_kept_cancelled net_kept_runtime : preserves.

Lemma net_kept_check context d : kept (check_context context d).
Proof. unfold check_context. preserve. Qed.

Lemma net_kept_frames (check : Eff (Tr W NetCall) (result unit ProviderFailure)) e1 e2 limit l b : kept check ->
  kept (read_frames Transport DeadlineExceeded check e1 e2 limit l b).
Proof. intros Hc. revert b. induction l as [|f l IH]; intros b; simpl; [preserve|]. destruct f; preserve. Qed.

Lemma net_kept_address d : kept (resolve_one_address (endpoint_host self) d).
Proof.
  assert (forall server n r, kept (perform (dns_exchange server n r) (DnsExchange server n r)))
    by (intros; apply preserves_perform; intros; by apply Hk).
  unfold resolve_one_address, resolve_hostname. preserve.
Qed.
#[local] Hint Resolve net_kept_check net_kept_frames net_kept_address : preserves.

Lemma net_kept_connect d context domain :
  kept (connect Transport DeadlineExceeded (check_context context d)
    (resolve_one_address (endpoint_host self) d) domain).
Proof.
  assert (forall a, kept (perform (tcp_connect a) (TcpConnect a))) by (intros; apply preserves_perform, Hk).
  assert (kept (perform (tls_connect domain) (TlsConnect domain))) by apply preserves_perform, Hk.
  assert (kept (perform http_handshake Handshake)) by apply preserves_perform, Hk.
  unfold connect, connect_tcp, connect_tls, handshake. preserve.
Qed.
#[local] Hint Resolve net_kept_connect : preserves.

Lemma net_kept_resolve request : kept (resolve self request).
Proof.
  assert (forall out, kept (perform (send_request out) (SendRequest out)))
    by (intros; apply preserves_perform, Hk).
  unfold resolve, effective_deadline, resolve_within_deadline, send, read_response, read_body. preserve.
Qed.
End Keeps.

(** ** Properties *)

Section Properties.
Context `{Deps : ProviderDeps} {W : Type} `{!NetWorld W} (self : GenericRestPermissionProvider).
Context `{Service : !ServingProvider self W}.

(** C31: in front of a service that keeps the wire contract, and with a token that can
    be sent in a header, a resolution returns the service's desired state for the
    request's identity.  It fails only with [Cancelled] or [DeadlineExceeded], and then
    this very run polled cancellation and was told so, or read the clock at or past the
    end of its window, which is the earlier of the request's deadline and the operation
    timeout counted from the run's first reading. *)
Theorem provider_delivers (request : PermissionProviderRequest) (w : W) :
  header_text_valid ("Bearer " ++ bearer_as_str (pr_technical_caller_bearer_token request))%string = true ->
  match resolve self request (mkTr w []) with
  | (Ok env, _) => env = desired_of (pr_identity request)
  | (Err e, s) => late W (deadline (pr_context request)) (operation_timeout self) e (trace s)
  end.
Proof. apply delivers_resolve. Qed.
End Properties.

(** ** A concrete service

    Behind a host name the name server answers through an alias; the response body comes
    in two pieces. *)
Module Sample.
#[local] Program Instance names : DnsNames := {|
  Name := string; name_eqb := fun a b => bool_decide (a = b); name_of_str := Some; name_set_fqdn := id |}.
Next Obligation. intros n. by apply bool_decide_eq_true. Qed.
Next Obligation. intros n m. by rewrite !bool_decide_eq_true. Qed.
Next Obligation. intros n m k. rewrite !bool_decide_eq_true. congruence. Qed.

#[local] Instance deps : ProviderDeps.
Proof.
  refine {| Uri := string; uri_parse := Some; uri_scheme := fun _ => Some "https";
    uri_host := fun _ => Some "provider"; uri_authority := fun _ => Some "provider";
    uri_query := fun _ => None; uri_path := fun _ => "/"; uri_port := fun _ => None;
    uri_with_root_path := Some; ip_parse := fun _ => None; stack_from_pem := fun _ => Some 1;
    tls_build := fun _ => true; header_text_valid := fun _ => true; header_to_str := fun b => Some (of_bytes b);
    request_target_valid := fun _ => true;
    parse_mime := fun _ => Some (mkMime "application" "json" []);
    to_vec_request := fun _ _ => Some []; envelope_from_slice := fun b => Some (1%N, of_bytes b);
    raw_value_from_string := Some |}.
  by intros u u' [= <-].
Defined.

Definition response : HttpResponse := mkHttpResponse 200
  [("content-type", as_bytes "application/json"); ("content-length", as_bytes "7")]
  [BodyData (as_bytes "pay"); BodyOther; BodyData (as_bytes "load")].

#[local] Instance clock : Clock unit := {| now := fun w => (0%Z, w); is_cancelled := fun w => (false, w) |}.
#[local] Instance network : NetWorld unit := {|
  net_clock := clock; runtime_available := fun _ => true;
  read_system_conf := fun w => (None, w);
  dns_exchange := fun _ n _ w =>
    ([(Some (Ok (mkDnsResponse names 0 false
        [mkRecord names n (RecCNAME "alias");
         mkRecord names "alias" (RecA 5)])), None)], w);
  tcp_connect := fun _ w => (StageDone, w); tls_connect := fun _ w => (StageDone, w);
  http_handshake := fun w => (StageDone, w); send_request := fun _ w => (SendResponse response, w);
|}.

Definition self : GenericRestPermissionProvider :=
  mkProvider "https://provider/" (mkEndpointHost 443 (Hostname "provider"
    (mkUdpNameServer (mkSocketAddr (V4 1) 53) None))) 10.
Definition envelope : DesiredStateEnvelope := mkEnvelope (mkEnvelopeVersion 1) (mkOpaquePayload "payload").

#[local] Program Instance service : ServingProvider self unit := {| desired_of := fun _ => envelope |}.
Next Obligation. done. Qed.
Next Obligation. by eexists. Qed.
Next Obligation. done. Qed.
Next Obligation. done. Qed.
Next Obligation.
  intros n server d w [= <- <-]. eexists _, (V4 5), _, _. split; [reflexivity|]. vm_compute. reflexivity.
Qed.
Next Obligation. done. Qed.
Next Obligation. done. Qed.
Next Obligation. done. Qed.
Next Obligation.
  intros identity body authorization out w _ _. exists response. split; [done|]. split; [done|]. split.
  { exists (Some 7%N). split; [|intros n [= <-]; by vm_compute].
    pose proof (success_headers_exact (answer_headers response) RESPONSE_BODY_LIMIT_BYTES) as H.
    assert (validate_success_headers (answer_headers response) RESPONSE_BODY_LIMIT_BYTES = Ok (Some 7%N)) as E
      by (vm_compute; reflexivity).
    rewrite E in H. apply H. }
  split; [simpl; rewrite !Forall_cons; eauto 10|]. split; [by vm_compute|]. exists "payload". done.
Qed.

Definition request : PermissionProviderRequest :=
  mkProviderRequest (mkIdentityContext "jane" []) (mkLogicalTarget "glpi") (mkBearerToken "token") (mkContext 100).

Lemma provider_delivers_witness : (resolve self request (mkTr tt [])).1 = Ok envelope.
Proof.
  pose proof (provider_delivers self request tt eq_refl) as H.
  assert (is_ok (resolve self request (mkTr tt [])).1 = true) as Hr by (vm_compute; reflexivity).
  destruct (resolve self request (mkTr tt [])) as [[env|e] s]; [|discriminate Hr]. simpl. by rewrite H.
Defined.
End Sample.
