(* ===== verification/GlpiPlan.v ===== *)
(** * GLPI reconciliation plan

    Models [crates/permissionsync-adapter-glpi/src/plan.rs]: the pure plan of
    removals and additions that takes the physical [Profile_User] rows of one
    user to the canonical state for the desired assignments. *)
From S2P Require Import Prelude BTree.

Record CurrentRow : Type := mkRow {
  row_id : N;
  row_entities_id : N;
  row_profiles_id : N;
  row_is_recursive : bool;
}.

Record DesiredAssignment : Type := mkDesired {
  des_entities_id : N;
  des_profiles_id : N;
  des_recursive : bool;
}.

Record Addition : Type := mkAddition {
  add_entities_id : N;
  add_profiles_id : N;
  add_recursive : bool;
}.

Record Plan : Type := mkPlan { removals : list N; additions : list Addition }.

#[global] Instance CurrentRow_eq_dec : EqDecision CurrentRow.
Proof. solve_decision. Defined.
#[global] Instance DesiredAssignment_eq_dec : EqDecision DesiredAssignment.
Proof. solve_decision. Defined.
#[global] Instance Addition_eq_dec : EqDecision Addition.
Proof. solve_decision. Defined.

(** [Plan::is_empty]. *)
Definition plan_is_empty (p : Plan) : bool :=
  bool_decide (removals p = []) && bool_decide (additions p = []).

Definition row_pair (r : CurrentRow) : N * N := (row_entities_id r, row_profiles_id r).
Definition des_pair (a : DesiredAssignment) : N * N := (des_entities_id a, des_profiles_id a).
Definition add_pair (a : Addition) : N * N := (add_entities_id a, add_profiles_id a).

Definition addition_of (a : DesiredAssignment) : Addition :=
  mkAddition (des_entities_id a) (des_profiles_id a) (des_recursive a).

(** The grouping loop: [by_pair.entry(pair).or_default().push(row)]. *)
Definition group_rows (current : list CurrentRow) : list ((N * N) * list CurrentRow) :=
  foldl (fun by_pair row => bt_upsert (row_pair row) [] (fun rows => rows ++ [row]) by_pair)
    [] current.

(** [for rows in by_pair.values_mut() { rows.sort_by_key(|row| row.id) }]. *)
Definition sort_groups (by_pair : list ((N * N) * list CurrentRow))
  : list ((N * N) * list CurrentRow) :=
  prod_map id (sort_by_key row_id) <$> by_pair.

(** One iteration of the loop over the sorted desired assignments. *)
Definition plan_step (st : list ((N * N) * list CurrentRow) * list N * list Addition)
    (assignment : DesiredAssignment)
  : list ((N * N) * list CurrentRow) * list N * list Addition :=
  let '(by_pair, rem, add) := st in
  let key := des_pair assignment in
  match bt_lookup key by_pair with
  | None => (by_pair, rem, add ++ [addition_of assignment])
  | Some rows =>
      let by_pair := bt_remove key by_pair in
      match List.find (fun row => Bool.eqb (row_is_recursive row) (des_recursive assignment)) rows with
      | Some keeper =>
          (by_pair,
           rem ++ (row_id <$> List.filter (fun row => negb (row_id row =? row_id keeper)%N) rows),
           add)
      | None => (by_pair, rem ++ (row_id <$> rows), add ++ [addition_of assignment])
      end
  end.

#[global] Arguments plan_step : simpl never.

(** [compute]. *)
Definition compute (current : list CurrentRow) (desired : list DesiredAssignment) : Plan :=
  let by_pair := sort_groups (group_rows current) in
  let desired_sorted := sort_by_key des_pair desired in
  let '(by_pair, rem, add) := foldl plan_step (by_pair, [], []) desired_sorted in
  let rem := rem ++ (row_id <$> mjoin (by_pair.*2)) in
  mkPlan (sort_by_key id rem) (sort_by_key add_pair add).

(** [is_canonical]. *)
Definition is_canonical (current : list CurrentRow) (desired : list DesiredAssignment) : bool :=
  plan_is_empty (compute current desired).

(** ** Specification vocabulary *)

(** The semantic content of a row and of a desired assignment. *)
Definition row_grant (r : CurrentRow) : N * N * bool := (row_pair r, row_is_recursive r).
Definition des_grant (a : DesiredAssignment) : N * N * bool := (des_pair a, des_recursive a).
Definition add_grant (a : Addition) : N * N * bool := (add_pair a, add_recursive a).

(** A row the plan keeps: some desired assignment asks for exactly its grant,
    and no row with the same grant has a smaller id. *)
Definition keeper (current : list CurrentRow) (desired : list DesiredAssignment)
    (r : CurrentRow) : Prop :=
  r ∈ current /\ row_grant r ∈ (des_grant <$> desired) /\
  forall r', r' ∈ current -> row_grant r' = row_grant r -> (row_id r <= row_id r')%N.

#[global] Instance keeper_proper : Proper ((≡ₚ) ==> (≡ₚ) ==> eq ==> iff) keeper.
Proof.
  intros c c' Hc d d' Hd r ? <-. unfold keeper. setoid_rewrite Hc. by setoid_rewrite Hd.
Qed.

(** Performing a plan on the target: delete the removed ids, then create one row
    per addition with ids the target chooses. *)
Definition apply_plan (p : Plan) (fresh : list N) (current : list CurrentRow) : list CurrentRow :=
  filter (fun r => row_id r ∉ removals p) current ++
  zip_with (fun i a => mkRow i (add_entities_id a) (add_profiles_id a) (add_recursive a))
    fresh (additions p).

(** ** The groups *)

Definition group_of (current : list CurrentRow) (k : N * N) : list CurrentRow :=
  filter (fun r => row_pair r = k) current.

Lemma group_rows_snoc current r :
  group_rows (current ++ [r]) =
  bt_upsert (row_pair r) [] (fun rows => rows ++ [r]) (group_rows current).
Proof. unfold group_rows. by rewrite foldl_app. Qed.

Lemma group_rows_wf current : bt_wf (group_rows current).
Proof.
  induction current as [|r current IH] using rev_ind; [apply bt_wf_nil|].
  rewrite group_rows_snoc. by apply bt_upsert_wf.
Qed.

Lemma group_rows_lookup current k :
  bt_lookup k (group_rows current) =
  (if decide (group_of current k = []) then None else Some (group_of current k)).
Proof.
  induction current as [|r current IH] using rev_ind; [done|].
  rewrite group_rows_snoc. unfold bt_upsert, group_of in *. rewrite filter_app.
  destruct (decide (row_pair r = k)) as [<-|Hne].
  - rewrite bt_lookup_insert_eq, IH. rewrite filter_cons_True, filter_nil by done.
    set (g := filter _ current). rewrite (decide_False (P := g ++ [r] = [])).
    + f_equal. subst g. by case_decide as Hc; [rewrite Hc|].
    + by intros [_ ?]%app_eq_nil.
  - rewrite bt_lookup_insert_ne, IH by done.
    by rewrite filter_cons_False, filter_nil, app_nil_r.
Qed.

Lemma sort_groups_lookup m k :
  bt_lookup k (sort_groups m) = sort_by_key row_id <$> bt_lookup k m.
Proof.
  unfold sort_groups. induction m as [|[k' v] m IH]; csimpl; [done|].
  by destruct (key_compare k k').
Qed.

Lemma sort_groups_wf m : bt_wf m -> bt_wf (sort_groups m).
Proof.
  unfold bt_wf. replace ((sort_groups m).*1) with (m.*1); [done|].
  unfold sort_groups. induction m as [|[k v] m IH]; csimpl; congruence.
Qed.

(** All rows of a group map, in iteration order. *)
Definition rows_of (m : list ((N * N) * list CurrentRow)) : list CurrentRow := mjoin (m.*2).

Lemma elem_of_rows_of m r :
  bt_wf m -> (r ∈ rows_of m <-> exists k v, bt_lookup k m = Some v /\ r ∈ v).
Proof.
  intros Hwf. unfold rows_of. rewrite list_elem_of_join. split.
  - intros (v & Hr & Hv). apply list_elem_of_fmap in Hv as ([k v'] & -> & Hin).
    exists k, v'. by rewrite <- bt_elem_lookup.
  - intros (k & v & Hl & Hr). exists v. split; [done|].
    apply bt_elem_lookup in Hl; [|done]. apply list_elem_of_fmap. by exists (k, v).
Qed.

Lemma rows_of_remove m k v :
  bt_lookup k m = Some v -> rows_of m ≡ₚ v ++ rows_of (bt_remove k m).
Proof.
  unfold rows_of. induction m as [|[k' v'] m IH]; simpl; [done|].
  destruct (key_compare k k') eqn:E; simpl; [by intros [= ->]|..]; intros Hl; rewrite IH by done;
    rewrite !app_assoc; by rewrite (Permutation_app_comm v' v).
Qed.

Lemma bt_remove_absent (m : list ((N * N) * list CurrentRow)) k :
  bt_lookup k m = None -> bt_remove k m = m.
Proof.
  induction m as [|[k' v'] m IH]; simpl; [done|].
  destruct (key_compare k k'); [done|..]; intros ?; by rewrite IH.
Qed.

Lemma rows_of_upsert m k r :
  bt_wf m -> rows_of (bt_upsert k [] (fun rows => rows ++ [r]) m) ≡ₚ r :: rows_of m.
Proof.
  unfold bt_upsert, rows_of. induction m as [|[k' v'] m IH]; [done|].
  rewrite bt_wf_cons. intros [Hwf Hall]. simpl. destruct (key_compare k k') eqn:E; simpl.
  - rewrite <- app_assoc. symmetry. apply Permutation_middle.
  - rewrite bt_lookup_below; [done|]. eapply Forall_impl; [exact Hall|].
    intros p Hp. simpl in Hp. by transitivity k'.
  - rewrite IH by done. symmetry. apply Permutation_middle.
Qed.

Lemma rows_of_group_rows current : rows_of (group_rows current) ≡ₚ current.
Proof.
  induction current as [|r current IH] using rev_ind; [done|].
  rewrite group_rows_snoc, rows_of_upsert by apply group_rows_wf. rewrite IH.
  apply Permutation_cons_append.
Qed.

Lemma rows_of_sort_groups m : rows_of (sort_groups m) ≡ₚ rows_of m.
Proof.
  unfold rows_of. induction m as [|[k v] m IH]; simpl; [done|]. by rewrite IH, sort_by_key_perm.
Qed.

(** Removals only ever name observed rows, whatever the desired assignments. *)
Lemma plan_step_removals m rem add a (l : list N) :
  rem ++ (row_id <$> rows_of m) ⊆ l ->
  let '(m', rem', _) := plan_step (m, rem, add) a in rem' ++ (row_id <$> rows_of m') ⊆ l.
Proof.
  intros Hl. unfold plan_step. destruct (bt_lookup (des_pair a) m) as [rows|] eqn:E; [|done].
  apply rows_of_remove in E. destruct (List.find _ rows) as [kp|]; intros i Hi; apply Hl;
    rewrite E, fmap_app; rewrite !elem_of_app in Hi |- *; [|tauto].
  destruct Hi as [[Hi|Hi]|Hi]; auto. right. left.
  apply list_elem_of_fmap in Hi as (r & -> & Hr%list_elem_of_In). apply List.filter_In in Hr as [Hr _].
  apply list_elem_of_fmap_2. by apply list_elem_of_In.
Qed.

Lemma removals_from_current current desired i :
  i ∈ removals (compute current desired) -> exists r, r ∈ current /\ row_id r = i.
Proof.
  unfold compute. set (m0 := sort_groups (group_rows current)).
  assert (forall ds m rem add, rem ++ (row_id <$> rows_of m) ⊆ (row_id <$> current) ->
    let '(m', rem', _) := foldl plan_step (m, rem, add) ds in
    rem' ++ (row_id <$> rows_of m') ⊆ (row_id <$> current)) as Hloop.
  { induction ds as [|a ds IH]; intros m rem add Hl; [done|].
    change (foldl plan_step (m, rem, add) (a :: ds)) with (foldl plan_step (plan_step (m, rem, add) a) ds).
    pose proof (plan_step_removals m rem add a _ Hl) as H.
    destruct (plan_step (m, rem, add) a) as [[m1 rem1] add1]. by apply IH. }
  specialize (Hloop (sort_by_key des_pair desired) m0 [] []).
  destruct (foldl plan_step _ _) as [[m rem] add]. simpl. rewrite sort_by_key_perm.
  intros Hi. assert (i ∈ row_id <$> current) as Hin.
  { apply Hloop; [|done]. unfold m0. by rewrite rows_of_sort_groups, rows_of_group_rows. }
  apply list_elem_of_fmap in Hin as (r & -> & ?). eauto.
Qed.

(** ** What one desired assignment contributes *)

Section OnePair.
Context (current : list CurrentRow).

Definition sorted_group (k : N * N) : list CurrentRow := sort_by_key row_id (group_of current k).

Definition chosen (a : DesiredAssignment) : option CurrentRow :=
  List.find (fun row => Bool.eqb (row_is_recursive row) (des_recursive a)) (sorted_group (des_pair a)).

Definition removals_of (a : DesiredAssignment) : list N :=
  match chosen a with
  | Some kp => row_id <$> List.filter (fun row => negb (row_id row =? row_id kp)%N)
                            (sorted_group (des_pair a))
  | None => row_id <$> sorted_group (des_pair a)
  end.

Definition additions_of (a : DesiredAssignment) : list Addition :=
  match chosen a with Some _ => [] | None => [addition_of a] end.

Definition group_entry (k : N * N) : option (list CurrentRow) :=
  if decide (group_of current k = []) then None else Some (sorted_group k).

Lemma elem_of_sorted_group r k : r ∈ sorted_group k <-> r ∈ current /\ row_pair r = k.
Proof.
  unfold sorted_group, group_of. rewrite sort_by_key_perm, list_elem_of_filter. tauto.
Qed.

Lemma initial_groups_lookup k :
  bt_lookup k (sort_groups (group_rows current)) = group_entry k.
Proof.
  rewrite sort_groups_lookup, group_rows_lookup. unfold group_entry, sorted_group. by case_decide.
Qed.

Lemma plan_step_unfold m rem add a :
  bt_lookup (des_pair a) m = group_entry (des_pair a) ->
  exists m', plan_step (m, rem, add) a = (m', rem ++ removals_of a, add ++ additions_of a) /\
    (m' = m /\ group_entry (des_pair a) = None \/ m' = bt_remove (des_pair a) m).
Proof.
  unfold plan_step, removals_of, additions_of, chosen. intros ->. unfold group_entry.
  case_decide as Hg.
  - unfold sorted_group. rewrite Hg. exists m. simpl. rewrite app_nil_r. auto.
  - destruct (List.find _ _) as [kp|]; eexists; (split; [|by right]); by rewrite ?app_nil_r.
Qed.

(** The loop over distinct pairs is the concatenation of the contributions, and
    leaves exactly the groups of the undesired pairs. *)
Lemma plan_loop ds m rem add :
  NoDup (des_pair <$> ds) -> bt_wf m ->
  (forall k, k ∈ des_pair <$> ds -> bt_lookup k m = group_entry k) ->
  exists m', foldl plan_step (m, rem, add) ds =
    (m', rem ++ mjoin (removals_of <$> ds), add ++ mjoin (additions_of <$> ds)) /\
    bt_wf m' /\
    (forall k, bt_lookup k m' = if decide (k ∈ des_pair <$> ds) then None else bt_lookup k m) /\
    (exists l, rows_of m ≡ₚ l ++ rows_of m').
Proof.
  revert m rem add. induction ds as [|a ds IH]; intros m rem add Hnd Hwf Hl.
  { exists m. rewrite !app_nil_r. split; [done|]. split; [done|]. split; [|by exists []].
    intros k. case_decide; [|done]. set_solver. }
  apply NoDup_cons in Hnd as [Hnin Hnd].
  destruct (plan_step_unfold m rem add a) as (m1 & Hstep & Hm1); [apply Hl; set_solver|].
  assert (bt_wf m1) as Hwf1 by (destruct Hm1 as [[-> _]| ->]; auto using bt_remove_wf).
  assert (forall k, k <> des_pair a -> bt_lookup k m1 = bt_lookup k m) as Hother.
  { intros k Hk. destruct Hm1 as [[-> _]| ->]; [done|]. by apply bt_lookup_remove_ne. }
  assert (bt_lookup (des_pair a) m1 = None) as Hself.
  { destruct Hm1 as [[-> Hn]| ->]; [|by apply bt_lookup_remove_eq].
    rewrite Hl; [done|set_solver]. }
  assert (exists l, rows_of m ≡ₚ l ++ rows_of m1) as [l1 Hl1].
  { destruct Hm1 as [[-> _]| ->]; [by exists []|].
    destruct (bt_lookup (des_pair a) m) as [v|] eqn:Ev; [exists v; by apply rows_of_remove|].
    exists []. by rewrite bt_remove_absent. }
  change (foldl plan_step (m, rem, add) (a :: ds)) with (foldl plan_step (plan_step (m, rem, add) a) ds).
  rewrite Hstep.
  destruct (IH m1 (rem ++ removals_of a) (add ++ additions_of a)) as (m' & -> & Hwf' & Hl' & l2 & Hl2); [done..| |].
  { intros k Hk. rewrite Hother by (intros ->; done). apply Hl. set_solver. }
  exists m'. csimpl. rewrite <- !app_assoc. split; [done|]. split; [done|].
  split; [|exists (l1 ++ l2); by rewrite Hl1, Hl2, app_assoc]. intros k. rewrite Hl'.
  destruct (decide (k = des_pair a)) as [->|Hk].
  - rewrite Hself. repeat case_decide; set_solver.
  - rewrite Hother by done. repeat case_decide; set_solver.
Qed.
End OnePair.

(** ** The plan, declaratively *)

Section PlanSpec.
Context (current : list CurrentRow) (desired : list DesiredAssignment).

Lemma compute_unfold :
  NoDup (des_pair <$> desired) ->
  exists leftover,
    compute current desired =
      mkPlan (sort_by_key id (mjoin (removals_of current <$> sort_by_key des_pair desired) ++
                              (row_id <$> leftover)))
             (sort_by_key add_pair (mjoin (additions_of current <$> sort_by_key des_pair desired))) /\
    (forall r, r ∈ leftover <-> r ∈ current /\ row_pair r ∉ (des_pair <$> desired)) /\
    (exists l, current ≡ₚ l ++ leftover).
Proof.
  intros Hnd. unfold compute.
  destruct (plan_loop current (sort_by_key des_pair desired) (sort_groups (group_rows current)) [] [])
    as (m' & -> & Hwf & Hl & l0 & Hl0).
  - by rewrite sort_by_key_perm.
  - apply sort_groups_wf, group_rows_wf.
  - intros k _. apply initial_groups_lookup.
  - exists (rows_of m'). split; [done|]. split.
    2:{ exists l0. by rewrite <- Hl0, rows_of_sort_groups, rows_of_group_rows. }
    intros r. rewrite elem_of_rows_of by done.
    assert (forall k, bt_lookup k m' =
      if decide (k ∈ des_pair <$> desired) then None else group_entry current k) as Hl'.
    { intros k. rewrite Hl, initial_groups_lookup. apply decide_ext. by rewrite sort_by_key_perm. }
    setoid_rewrite Hl'. unfold group_entry. split.
    + intros (k & v & Hk & Hr). repeat case_decide; simplify_eq.
      apply elem_of_sorted_group in Hr as [Hr <-]. done.
    + intros [Hr Hnin]. exists (row_pair r), (sorted_group current (row_pair r)).
      assert (r ∈ sorted_group current (row_pair r)) as Hin by by apply elem_of_sorted_group.
      rewrite decide_False by done. rewrite decide_False; [done|]. intros Hg.
      unfold sorted_group in Hin. rewrite Hg in Hin. set_solver.
Qed.

(** The kept row of a pair is the one with the least id among the rows that
    already carry the desired grant. *)
Lemma find_sorted_least (p : CurrentRow -> bool) l kp :
  StronglySorted (by_key_le row_id) l -> List.find p l = Some kp ->
  kp ∈ l /\ p kp = true /\ forall r, r ∈ l -> p r = true -> (row_id kp <= row_id r)%N.
Proof.
  induction 1 as [|x l Hl IH Hall]; simpl; [done|]. destruct (p x) eqn:Hx.
  - intros [= <-]. split; [set_solver|]. split; [done|]. intros r [->|Hr]%elem_of_cons _; [done|].
    rewrite Forall_forall in Hall. specialize (Hall _ Hr).
    apply key_le_lteq in Hall as [Hlt| ->]; [|done]. by apply N.lt_le_incl, N.compare_lt_iff.
  - intros (Hin & Hp & Hleast)%IH. split; [set_solver|]. split; [done|].
    intros r [->|Hr]%elem_of_cons Hpr; [congruence|auto].
Qed.

Lemma row_grant_split r a :
  row_grant r = des_grant a <-> row_pair r = des_pair a /\ row_is_recursive r = des_recursive a.
Proof. unfold row_grant, des_grant. by rewrite pair_equal_spec. Qed.

Lemma chosen_some a kp :
  chosen current a = Some kp ->
  kp ∈ current /\ row_grant kp = des_grant a /\
  forall r, r ∈ current -> row_grant r = des_grant a -> (row_id kp <= row_id r)%N.
Proof.
  unfold chosen. intros (Hin & Hp & Hleast)%find_sorted_least; [|apply sort_by_key_sorted].
  apply elem_of_sorted_group in Hin as [Hin Hpair]. apply Bool.eqb_prop in Hp.
  split; [done|]. split; [by apply row_grant_split|]. intros r Hr [Hrp Hrr]%row_grant_split.
  apply Hleast; [by apply elem_of_sorted_group|]. rewrite Hrr. apply Bool.eqb_reflx.
Qed.

Lemma chosen_none a r :
  chosen current a = None -> r ∈ current -> row_grant r <> des_grant a.
Proof.
  unfold chosen. intros Hn Hr [Hp Hrec]%row_grant_split.
  assert (r ∈ sorted_group current (des_pair a)) as Hin%list_elem_of_In by by apply elem_of_sorted_group.
  pose proof (List.find_none _ _ Hn r Hin) as Hf. simpl in Hf. by rewrite Hrec, Bool.eqb_reflx in Hf.
Qed.

Lemma desired_pair_unique a b :
  NoDup (des_pair <$> desired) -> a ∈ desired -> b ∈ desired -> des_pair a = des_pair b -> a = b.
Proof. intros ? ? ? ?. by eapply NoDup_fmap_inj_elem. Qed.

Lemma row_id_unique r r' :
  NoDup (row_id <$> current) -> r ∈ current -> r' ∈ current -> row_id r = row_id r' -> r = r'.
Proof. intros ? ? ? ?. by eapply NoDup_fmap_inj_elem. Qed.

Hypothesis ids_unique : NoDup (row_id <$> current).
Hypothesis pairs_unique : NoDup (des_pair <$> desired).

Lemma elem_of_removals_of a i :
  a ∈ desired ->
  i ∈ removals_of current a <->
  exists r, r ∈ current /\ row_id r = i /\ row_pair r = des_pair a /\ ~ keeper current desired r.
Proof.
  intros Ha. unfold removals_of. destruct (chosen current a) as [kp|] eqn:Ec.
  - apply chosen_some in Ec as (Hkp & Hgrant & Hleast). rewrite list_elem_of_fmap.
    setoid_rewrite list_elem_of_In. setoid_rewrite List.filter_In.
    setoid_rewrite <- list_elem_of_In. setoid_rewrite elem_of_sorted_group.
    setoid_rewrite negb_true_iff. setoid_rewrite N.eqb_neq. split.
    + intros (r & -> & [Hr Hp] & Hne). exists r. split_and!; [done..|].
      intros (_ & Hd & Hmin). apply list_elem_of_fmap in Hd as (b & Hrb & Hb).
      pose proof (proj1 (row_grant_split r b) Hrb) as [Hpb Hrec].
      assert (b = a) as -> by (apply desired_pair_unique; congruence).
      apply Hne, N.le_antisymm; [apply Hmin|apply Hleast]; congruence.
    + intros (r & Hr & <- & Hp & Hnk). exists r. split_and!; [done..|]. intros Hid.
      assert (r = kp) as -> by by apply row_id_unique. apply Hnk. split; [done|]. split.
      * rewrite Hgrant. by apply list_elem_of_fmap_2.
      * intros r' Hr' Hg'. apply Hleast; congruence.
  - rewrite list_elem_of_fmap. setoid_rewrite elem_of_sorted_group. split.
    + intros (r & -> & Hr & Hp). exists r. split_and!; [done..|]. intros (_ & Hd & _).
      apply list_elem_of_fmap in Hd as (b & Hrb & Hb).
      pose proof (proj1 (row_grant_split r b) Hrb) as [Hpb Hrec].
      assert (b = a) as -> by (apply desired_pair_unique; congruence).
      by apply (chosen_none _ _ Ec Hr).
    + intros (r & Hr & <- & Hp & _). by exists r.
Qed.

(** Removed ids: the rows that are not keepers. *)
Lemma elem_of_removals i :
  i ∈ removals (compute current desired) <->
  exists r, r ∈ current /\ row_id r = i /\ ~ keeper current desired r.
Proof.
  destruct (compute_unfold pairs_unique) as (leftover & -> & Hleft & _). simpl.
  rewrite sort_by_key_perm, elem_of_app, list_elem_of_join, list_elem_of_fmap. split.
  - intros [(l & Hi & Hl)|(r & -> & Hr)].
    + apply list_elem_of_fmap in Hl as (a & -> & Ha). rewrite sort_by_key_perm in Ha.
      apply elem_of_removals_of in Hi as (r & ? & ? & _ & ?); [|done]. by exists r.
    + apply Hleft in Hr as [Hr Hnin]. exists r. split_and!; [done..|]. intros (_ & Hd & _).
      apply Hnin. apply list_elem_of_fmap in Hd as (a & [Hp _]%row_grant_split & Ha).
      rewrite Hp. by apply list_elem_of_fmap_2.
  - intros (r & Hr & <- & Hnk).
    destruct (decide (row_pair r ∈ des_pair <$> desired)) as [Hin|Hnin].
    + left. apply list_elem_of_fmap in Hin as (a & Hp & Ha). exists (removals_of current a).
      split; [by apply elem_of_removals_of; eauto 6|]. apply list_elem_of_fmap_2.
      by rewrite sort_by_key_perm.
    + right. exists r. split; [done|]. by apply Hleft.
Qed.

(** Additions: the desired grants no current row carries. *)
Lemma elem_of_additions x :
  x ∈ additions (compute current desired) <->
  exists a, a ∈ desired /\ x = addition_of a /\ forall r, r ∈ current -> row_grant r <> des_grant a.
Proof.
  destruct (compute_unfold pairs_unique) as (leftover & -> & _ & _). simpl.
  rewrite sort_by_key_perm, list_elem_of_join. split.
  - intros (l & Hx & Hl). apply list_elem_of_fmap in Hl as (a & -> & Ha).
    rewrite sort_by_key_perm in Ha. unfold additions_of in Hx.
    destruct (chosen current a) eqn:Ec; [set_solver|]. apply list_elem_of_singleton in Hx.
    exists a. split_and!; [done..|]. intros r Hr. by apply chosen_none.
  - intros (a & Ha & -> & Hno). exists (additions_of current a). split.
    + unfold additions_of. destruct (chosen current a) as [kp|] eqn:Ec; [|set_solver].
      apply chosen_some in Ec as (Hkp & Hg & _). by apply Hno in Hkp.
    + apply list_elem_of_fmap_2. by rewrite sort_by_key_perm.
Qed.

Lemma NoDup_mjoin {A B} (f : A -> list B) (l : list A) :
  NoDup l -> (forall x, x ∈ l -> NoDup (f x)) ->
  (forall x y z, x ∈ l -> y ∈ l -> z ∈ f x -> z ∈ f y -> x = y) ->
  NoDup (mjoin (f <$> l)).
Proof.
  induction 1 as [|x l Hx Hl IH]; intros Hf Hd; csimpl; [constructor|].
  apply NoDup_app. split; [apply Hf; set_solver|]. split; [|apply IH; set_solver].
  intros z Hz Hz'. apply list_elem_of_join in Hz' as (k & Hzk & Hk).
  apply list_elem_of_fmap in Hk as (y & -> & Hy).
  assert (x = y) as -> by (apply (Hd x y z); set_solver). done.
Qed.

Lemma NoDup_ids_sublist l : l `sublist_of` current -> NoDup (row_id <$> l).
Proof. intros Hl. eapply sublist_NoDup; [exact ids_unique|]. by apply fmap_sublist. Qed.

Lemma sorted_group_ids k : NoDup (row_id <$> sorted_group current k).
Proof.
  unfold sorted_group, group_of. rewrite sort_by_key_perm. apply NoDup_ids_sublist, sublist_filter.
Qed.

Lemma removals_of_nodup a : NoDup (removals_of current a).
Proof.
  unfold removals_of. destruct (chosen current a); [|apply sorted_group_ids].
  eapply sublist_NoDup; [apply (sorted_group_ids (des_pair a))|]. apply fmap_sublist.
  generalize (sorted_group current (des_pair a)). intros l.
  induction l as [|x l IH]; simpl; [constructor|]. destruct (negb _); by constructor.
Qed.

Lemma removals_nodup : NoDup (removals (compute current desired)).
Proof.
  destruct (compute_unfold pairs_unique) as (leftover & -> & Hleft & l & Hl). simpl.
  rewrite sort_by_key_perm. apply NoDup_app.
  assert (NoDup (row_id <$> leftover)) as Hnd.
  { pose proof ids_unique as H. rewrite Hl, fmap_app in H. by apply NoDup_app in H as (_ & _ & ?). }
  assert (forall a i, a ∈ sort_by_key des_pair desired -> i ∈ removals_of current a ->
    exists r, r ∈ current /\ row_id r = i /\ row_pair r = des_pair a) as Hrow.
  { intros a i Ha Hi. rewrite sort_by_key_perm in Ha.
    apply elem_of_removals_of in Hi as (r & ? & ? & ? & _); eauto. }
  split; [|split; [|done]].
  - apply NoDup_mjoin; [|intros; apply removals_of_nodup|].
    + rewrite sort_by_key_perm. by eapply NoDup_fmap_1.
    + intros a b i Ha Hb Hi Hi'. destruct (Hrow _ _ Ha Hi) as (r & Hr & Hid & Hp).
      destruct (Hrow _ _ Hb Hi') as (r' & Hr' & Hid' & Hp').
      assert (r = r') as -> by (apply row_id_unique; congruence).
      rewrite sort_by_key_perm in Ha, Hb. apply desired_pair_unique; congruence.
  - intros i Hi Hi'. apply list_elem_of_join in Hi as (k & Hik & Hk).
    apply list_elem_of_fmap in Hk as (a & -> & Ha).
    destruct (Hrow _ _ Ha Hik) as (r & Hr & Hid & Hp).
    apply list_elem_of_fmap in Hi' as (r' & -> & Hr'). apply Hleft in Hr' as [Hr' Hnin].
    assert (r = r') as -> by (apply row_id_unique; congruence).
    apply Hnin. rewrite Hp, <- (sort_by_key_perm des_pair desired). by apply list_elem_of_fmap_2.
Qed.

Lemma additions_pairs_nodup : NoDup (add_pair <$> additions (compute current desired)).
Proof.
  destruct (compute_unfold pairs_unique) as (leftover & -> & _ & _). simpl.
  rewrite sort_by_key_perm.
  assert (NoDup (des_pair <$> sort_by_key des_pair desired)) as Hnd by by rewrite sort_by_key_perm.
  eapply sublist_NoDup; [exact Hnd|]. generalize (sort_by_key des_pair desired). intros ds.
  induction ds as [|a ds IH]; [constructor|]. csimpl. rewrite fmap_app. unfold additions_of at 1.
  destruct (chosen current a); simpl; by constructor.
Qed.

(** Rows the plan keeps. *)
Definition kept_rows : list CurrentRow :=
  filter (fun r => row_id r ∉ removals (compute current desired)) current.

Lemma elem_of_kept_rows r : r ∈ kept_rows <-> r ∈ current /\ (exists a, a ∈ desired /\
  chosen current a = Some r).
Proof.
  unfold kept_rows. rewrite list_elem_of_filter, elem_of_removals. split.
  - intros [Hnr Hr]. split; [done|].
    destruct (decide (row_grant r ∈ des_grant <$> desired)) as [Hin|Hnin].
    + apply list_elem_of_fmap in Hin as (a & Hg & Ha). exists a. split; [done|].
      destruct (chosen current a) as [kp|] eqn:Ec; [|by destruct (chosen_none _ _ Ec Hr)].
      f_equal. apply chosen_some in Ec as (Hkp & Hgk & Hleast).
      destruct (decide (row_id kp = row_id r)) as [Hid|Hne]; [by apply row_id_unique|].
      destruct Hnr. exists r. split_and!; [done..|]. intros (_ & _ & Hmin).
      apply Hne, N.le_antisymm; [by apply Hleast|]. apply Hmin; congruence.
    + destruct Hnr. exists r. split_and!; [done..|]. by intros (_ & ? & _).
  - intros [Hr (a & Ha & Ec)]. split; [|done]. intros (r' & Hr' & Hid & Hnk).
    assert (r' = r) as -> by by apply row_id_unique. apply Hnk.
    apply chosen_some in Ec as (_ & Hg & Hleast). split; [done|]. split.
    + rewrite Hg. by apply list_elem_of_fmap_2.
    + intros r2 Hr2 Hg2. apply Hleast; congruence.
Qed.

Lemma kept_grants_nodup : NoDup (row_grant <$> kept_rows).
Proof.
  apply NoDup_fmap_2_strong.
  - intros r r' (Hr & a & Ha & Ec)%elem_of_kept_rows (Hr' & b & Hb & Ec')%elem_of_kept_rows Hg.
    pose proof (chosen_some _ _ Ec) as (_ & Hga & _). pose proof (chosen_some _ _ Ec') as (_ & Hgb & _).
    assert (a = b) as ->; [|congruence]. apply desired_pair_unique; [done..|].
    rewrite Hga, Hgb in Hg. by apply pair_equal_spec in Hg as [? _].
  - apply NoDup_filter. by eapply NoDup_fmap_1.
Qed.

Lemma elem_of_kept_grants g :
  g ∈ row_grant <$> kept_rows <-> g ∈ des_grant <$> desired /\ g ∈ row_grant <$> current.
Proof.
  split.
  - intros (r & -> & (Hr & a & Ha & Ec)%elem_of_kept_rows)%list_elem_of_fmap.
    apply chosen_some in Ec as (_ & Hg & _). split; [|by apply list_elem_of_fmap_2].
    rewrite Hg. by apply list_elem_of_fmap_2.
  - intros [(a & -> & Ha)%list_elem_of_fmap (r & Hg & Hr)%list_elem_of_fmap].
    destruct (chosen current a) as [kp|] eqn:Ec; [|by destruct (chosen_none _ _ Ec Hr)].
    pose proof (chosen_some _ _ Ec) as (Hkp & <- & _). apply list_elem_of_fmap_2, elem_of_kept_rows.
    eauto.
Qed.

Lemma elem_of_added_grants g :
  g ∈ add_grant <$> additions (compute current desired) <->
  g ∈ des_grant <$> desired /\ g ∉ row_grant <$> current.
Proof.
  rewrite list_elem_of_fmap. setoid_rewrite elem_of_additions. split.
  - intros (x & -> & a & Ha & -> & Hno). split.
    + by apply (list_elem_of_fmap_2 des_grant).
    + intros (r & Hg & Hr)%list_elem_of_fmap. by apply (Hno r).
  - intros [(a & -> & Ha)%list_elem_of_fmap Hnin]. exists (addition_of a). split; [done|].
    exists a. split_and!; [done..|]. intros r Hr Hg. apply Hnin. rewrite <- Hg.
    by apply list_elem_of_fmap_2.
Qed.

Lemma added_grants_nodup : NoDup (add_grant <$> additions (compute current desired)).
Proof.
  apply (NoDup_fmap_1 fst). rewrite <- list_fmap_compose. apply additions_pairs_nodup.
Qed.

Lemma des_grants_nodup : NoDup (des_grant <$> desired).
Proof. apply (NoDup_fmap_1 fst). by rewrite <- list_fmap_compose. Qed.

Lemma partition_count (rem : list N) (l : list CurrentRow) :
  (length (filter (fun r => row_id r ∈ rem) l) + length (filter (fun r => row_id r ∉ rem) l)
   = length l)%nat.
Proof.
  induction l as [|r l IH]; [done|]. rewrite !filter_cons.
  repeat case_decide; simpl; (lia || tauto).
Qed.

Lemma removed_plus_kept :
  (length (removals (compute current desired)) + length kept_rows = length current)%nat.
Proof.
  set (rem := removals (compute current desired)).
  assert (row_id <$> filter (fun r => row_id r ∈ rem) current ≡ₚ rem) as Hrem.
  { apply NoDup_Permutation; [apply NoDup_ids_sublist, sublist_filter|apply removals_nodup|].
    intros i. rewrite list_elem_of_fmap. setoid_rewrite list_elem_of_filter. split.
    - by intros (r & -> & ? & _).
    - intros Hi. pose proof Hi as (r & Hr & <- & _)%elem_of_removals. by exists r. }
  pose proof (Permutation_length Hrem) as Hl. rewrite length_fmap in Hl. rewrite <- Hl.
  apply partition_count.
Qed.

(** Kept and added grants together are the desired grants. *)
Lemma plan_covers :
  (row_grant <$> kept_rows) ++ (add_grant <$> additions (compute current desired))
  ≡ₚ des_grant <$> desired.
Proof.
  apply NoDup_Permutation.
  - apply NoDup_app. split; [apply kept_grants_nodup|]. split; [|apply added_grants_nodup].
    intros g [_ ?]%elem_of_kept_grants [_ ?]%elem_of_added_grants. done.
  - apply des_grants_nodup.
  - intros g. rewrite elem_of_app, elem_of_kept_grants, elem_of_added_grants.
    destruct (decide (g ∈ row_grant <$> current)); tauto.
Qed.

Lemma no_removals_keeps_all : removals (compute current desired) = [] -> kept_rows = current.
Proof.
  unfold kept_rows. intros ->. clear. induction current as [|r l IH]; [done|].
  rewrite filter_cons_True by set_solver. by rewrite IH.
Qed.

Lemma canonical_iff :
  is_canonical current desired = true <-> (row_grant <$> current) ≡ₚ (des_grant <$> desired).
Proof.
  unfold is_canonical, plan_is_empty. rewrite andb_true_iff, !bool_decide_eq_true. split.
  - intros [Hr Ha]. rewrite <- plan_covers, Ha, no_removals_keeps_all by done. by rewrite app_nil_r.
  - intros Hperm. split; apply elem_of_nil_inv.
    + intros i (r & Hr & <- & Hnk)%elem_of_removals. apply Hnk. split; [done|].
      split; [rewrite <- Hperm; by apply list_elem_of_fmap_2|]. intros r' Hr' Hg.
      assert (NoDup (row_grant <$> current)) as Hnd by (rewrite Hperm; apply des_grants_nodup).
      assert (r' = r) as -> by (by eapply NoDup_fmap_inj_elem). done.
    + intros x (a & Ha & -> & Hno)%elem_of_additions.
      assert (des_grant a ∈ row_grant <$> current) as (r & Hg & Hr)%list_elem_of_fmap
        by (rewrite Hperm; by apply list_elem_of_fmap_2).
      by apply (Hno r).
Qed.
End PlanSpec.

(** ** Duplicate desired pairs *)

Lemma plan_step_facts m rem add a m' rem' add' :
  bt_wf m -> plan_step (m, rem, add) a = (m', rem', add') ->
  bt_wf m' /\ bt_lookup (des_pair a) m' = None /\
  (forall k, bt_lookup k m = None -> bt_lookup k m' = None) /\
  (length add <= length add')%nat /\
  (bt_lookup (des_pair a) m = None -> add' <> []).
Proof.
  intros Hwf. unfold plan_step. destruct (bt_lookup (des_pair a) m) as [rows|] eqn:E.
  - assert (forall k, bt_lookup k m = None -> bt_lookup k (bt_remove (des_pair a) m) = None) as Hk.
    { intros k Hk. destruct (decide (k = des_pair a)) as [->|Hne]; [by apply bt_lookup_remove_eq|].
      by rewrite bt_lookup_remove_ne. }
    destruct (List.find _ rows); intros [= <- <- <-]; rewrite ?length_app;
      (split_and!; [by apply bt_remove_wf|by apply bt_lookup_remove_eq|done|lia|done]).
  - intros [= <- <- <-]. rewrite length_app. split_and!; [done..|lia|].
    intros _ ?%app_eq_nil. naive_solver.
Qed.

Lemma plan_loop_facts ds m rem add m' rem' add' :
  bt_wf m -> foldl plan_step (m, rem, add) ds = (m', rem', add') ->
  bt_wf m' /\ (forall k, bt_lookup k m = None -> bt_lookup k m' = None) /\
  (length add <= length add')%nat.
Proof.
  revert m rem add. induction ds as [|a ds IH]; intros m rem add Hwf.
  { intros [= <- <- <-]. done. }
  change (foldl plan_step (m, rem, add) (a :: ds)) with (foldl plan_step (plan_step (m, rem, add) a) ds).
  destruct (plan_step (m, rem, add) a) as [[m1 rem1] add1] eqn:E.
  apply plan_step_facts in E as (Hwf1 & _ & Hk & Hlen & _); [|done].
  intros (Hwf' & Hk' & Hlen')%IH; [|done]. split_and!; [done|auto|lia].
Qed.

Lemma not_NoDup_split {B} `{EqDecision B} (l : list B) :
  ~ NoDup l -> exists l1 x l2 l3, l = l1 ++ x :: l2 ++ x :: l3.
Proof.
  induction l as [|x l IH]; intros Hnd; [destruct Hnd; constructor|].
  destruct (decide (x ∈ l)) as [(l2 & l3 & ->)%list_elem_of_split|Hnin].
  - by exists [], x, l2, l3.
  - destruct IH as (l1 & y & l2 & l3 & ->).
    + intros Hl. apply Hnd. by constructor.
    + by exists (x :: l1), y, l2, l3.
Qed.

Lemma fmap_split_two {A B} (f : A -> B) l l1 x l2 l3 :
  f <$> l = l1 ++ x :: l2 ++ x :: l3 ->
  exists k1 a k2 b k3, l = k1 ++ a :: k2 ++ b :: k3 /\ f a = x /\ f b = x.
Proof.
  intros (k1 & k & _ & E & ->)%fmap_app_inv. symmetry in E.
  apply fmap_cons_inv in E as (a & k' & -> & E & ->). symmetry in E.
  apply fmap_app_inv in E as (k2 & k & _ & E & ->). symmetry in E.
  apply fmap_cons_inv in E as (b & k3 & Hb & _ & ->). by exists k1, a, k2, b, k3.
Qed.

Lemma duplicate_pairs_add current desired :
  ~ NoDup (des_pair <$> desired) -> additions (compute current desired) <> [].
Proof.
  intros Hnd. unfold compute. rewrite <- (sort_by_key_perm des_pair desired) in Hnd.
  apply not_NoDup_split in Hnd as (l1 & x & l2 & l3 & E).
  apply fmap_split_two in E as (k1 & a & k2 & b & k3 & -> & Ha & Hb).
  pose proof (sort_groups_wf _ (group_rows_wf current)) as Hwf.
  remember (sort_groups (group_rows current)) as m0 eqn:Hm0. clear Hm0.
  rewrite foldl_app. destruct (foldl plan_step (m0, [], []) k1) as [[m1 r1] d1] eqn:E1.
  apply plan_loop_facts in E1 as (Hwf1 & _ & _); [|done]. simpl.
  destruct (plan_step (m1, r1, d1) a) as [[m2 r2] d2] eqn:E2.
  apply plan_step_facts in E2 as (Hwf2 & Hnone & _); [|done].
  rewrite foldl_app. destruct (foldl plan_step (m2, r2, d2) k2) as [[m3 r3] d3] eqn:E3.
  apply plan_loop_facts in E3 as (Hwf3 & Hk & _); [|done]. simpl.
  destruct (plan_step (m3, r3, d3) b) as [[m4 r4] d4] eqn:E4.
  apply plan_step_facts in E4 as (Hwf4 & _ & _ & _ & Hadd); [|done].
  destruct (foldl plan_step (m4, r4, d4) k3) as [[m5 r5] d5] eqn:E5.
  apply plan_loop_facts in E5 as (_ & _ & Hlen); [|done]. simpl. intros Hnil.
  assert (d4 <> []) as Hd4 by (apply Hadd; rewrite Hb, <- Ha; auto).
  pose proof (sort_by_key_perm add_pair d5) as Hp. rewrite Hnil in Hp.
  apply Permutation_nil_l in Hp. subst d5. destruct d4; [done|]. simpl in Hlen. lia.
Qed.

Lemma plan_sorted current desired :
  StronglySorted (by_key_le id) (removals (compute current desired)) /\
  StronglySorted (by_key_le add_pair) (additions (compute current desired)).
Proof.
  unfold compute. destruct (foldl plan_step _ _) as [[m rem] add]. simpl.
  split; apply sort_by_key_sorted.
Qed.

(** ** Theorems *)

(** With distinct row ids and distinct desired pairs, the code's
    canonical-state test holds exactly when the rows carry each desired grant
    once and nothing else. *)
Lemma is_canonical_exact (current : list CurrentRow) (desired : list DesiredAssignment) :
  NoDup (row_id <$> current) -> NoDup (des_pair <$> desired) ->
  is_canonical current desired = true <-> (row_grant <$> current) ≡ₚ (des_grant <$> desired).
Proof. intros. by apply canonical_iff. Qed.

Definition sample_rows : list CurrentRow :=
  [mkRow 9 1 2 false; mkRow 4 1 2 true; mkRow 5 1 2 true; mkRow 7 3 3 false; mkRow 8 0 6 false].
Definition sample_desired : list DesiredAssignment :=
  [mkDesired 1 2 true; mkDesired 0 6 true; mkDesired 2 2 false].

Lemma sample_nodup : NoDup (row_id <$> sample_rows) /\ NoDup (des_pair <$> sample_desired).
Proof. split; by_decide. Defined.

Lemma is_canonical_exact_witness :
  is_canonical [mkRow 5 2 2 false; mkRow 3 1 2 true] [mkDesired 1 2 true; mkDesired 2 2 false] = true.
Proof.
  apply is_canonical_exact; [by_decide..|].
  apply Permutation_swap.
Defined.

(** The rows a plan creates have the ids the target chose and the added grants. *)
Lemma added_row_ids fresh l :
  length fresh = length l -> row_id <$> zip_with (fun i a => mkRow i
    (add_entities_id a) (add_profiles_id a) (add_recursive a)) fresh l = fresh.
Proof. revert l. induction fresh as [|i f IH]; intros [|a l] Hl; simplify_eq/=; [done|]. by rewrite IH. Qed.

Lemma added_row_grants fresh l :
  length fresh = length l -> row_grant <$> zip_with (fun i a => mkRow i
    (add_entities_id a) (add_profiles_id a) (add_recursive a)) fresh l = add_grant <$> l.
Proof. revert l. induction fresh as [|i f IH]; intros [|a l] Hl; simplify_eq/=; [done|]. by rewrite IH. Qed.

(** Whatever ids the target chooses, the executed plan leaves the desired grants. *)
Lemma apply_plan_grants current desired fresh :
  NoDup (row_id <$> current) -> NoDup (des_pair <$> desired) ->
  length fresh = length (additions (compute current desired)) ->
  row_grant <$> apply_plan (compute current desired) fresh current ≡ₚ des_grant <$> desired.
Proof.
  intros Hids Hpairs Hlen. unfold apply_plan. rewrite fmap_app, added_row_grants by done.
  by apply plan_covers.
Qed.

(** When two desired assignments share a physical pair (distinct
    selectors that resolved to the same ids), no set of rows is ever canonical,
    so reconciliation towards them cannot succeed. *)
Lemma duplicate_pairs_never_canonical (current : list CurrentRow)
    (desired : list DesiredAssignment) :
  ~ NoDup (des_pair <$> desired) -> is_canonical current desired = false.
Proof.
  intros Hnd%(duplicate_pairs_add current). unfold is_canonical, plan_is_empty.
  apply andb_false_iff. right. by apply bool_decide_eq_false.
Qed.

(** C14: executing the plan on rows with distinct ids, when the target gives each created
    row an id of its own that is new, leaves exactly the desired grants, once each and
    nothing else, provided no two desired assignments share their entity and profile; and
    the code's own test accepts the resulting state as canonical exactly under that
    proviso (distinct names that resolve to the same ids break it, and then no set of rows
    is canonical). *)
Theorem plan_converges (current : list CurrentRow) (desired : list DesiredAssignment)
    (fresh : list N) :
  NoDup (fresh ++ (row_id <$> current)) ->
  length fresh = length (additions (compute current desired)) ->
  let reached := apply_plan (compute current desired) fresh current in
  (NoDup (des_pair <$> desired) -> (row_grant <$> reached) ≡ₚ (des_grant <$> desired)) /\
  (is_canonical reached desired = true <-> NoDup (des_pair <$> desired)).
Proof.
  intros (Hf & Hdisj & Hids)%NoDup_app Hlen reached.
  assert (NoDup (des_pair <$> desired) -> (row_grant <$> reached) ≡ₚ (des_grant <$> desired)) as Hgrants
    by (intros Hpairs; by apply apply_plan_grants).
  split; [exact Hgrants|]. split.
  - intros Hc. destruct (decide (NoDup (des_pair <$> desired))) as [|Hdup]; [done|].
    by rewrite duplicate_pairs_never_canonical in Hc.
  - intros Hpairs. apply canonical_iff; [|done|by apply Hgrants].
    unfold reached, apply_plan. rewrite fmap_app, added_row_ids by done. apply NoDup_app. split_and!; [| |done].
    + eapply sublist_NoDup; [exact Hids|]. apply fmap_sublist, sublist_filter.
    + intros i (r & -> & [_ Hr]%list_elem_of_filter)%list_elem_of_fmap Hi.
      apply (Hdisj _ Hi). by apply list_elem_of_fmap_2.
Qed.

Lemma plan_converges_witness :
  compute sample_rows sample_desired =
    mkPlan [5; 7; 8; 9]%N [mkAddition 0 6 true; mkAddition 2 2 false] /\
  is_canonical (apply_plan (compute sample_rows sample_desired) [20; 21]%N sample_rows)
    sample_desired = true.
Proof.
  split; [vm_compute; reflexivity|].
  apply (plan_converges sample_rows sample_desired [20; 21]%N); [by_decide|vm_compute; reflexivity|apply sample_nodup].
Defined.

(** The plan does not depend on the order in which rows and desired
    assignments are supplied. *)
Lemma plan_order_independent (current current' : list CurrentRow)
    (desired desired' : list DesiredAssignment) :
  NoDup (row_id <$> current) -> NoDup (des_pair <$> desired) ->
  current ≡ₚ current' -> desired ≡ₚ desired' ->
  compute current desired = compute current' desired'.
Proof.
  intros Hids Hpairs Hc Hd.
  assert (NoDup (row_id <$> current')) as Hids' by by rewrite <- Hc.
  assert (NoDup (des_pair <$> desired')) as Hpairs' by by rewrite <- Hd.
  pose proof (removals_nodup current desired Hids Hpairs) as Hn1.
  pose proof (removals_nodup current' desired' Hids' Hpairs') as Hn2.
  pose proof (additions_pairs_nodup current desired Hpairs) as Ha1.
  pose proof (additions_pairs_nodup current' desired' Hpairs') as Ha2.
  pose proof (fun i => elem_of_removals current desired Hids Hpairs i) as He1.
  pose proof (fun i => elem_of_removals current' desired' Hids' Hpairs' i) as He2.
  pose proof (fun x => elem_of_additions current desired Hids Hpairs x) as Hx1.
  pose proof (fun x => elem_of_additions current' desired' Hids' Hpairs' x) as Hx2.
  assert (removals (compute current desired) ≡ₚ removals (compute current' desired')) as Hpr.
  { apply NoDup_Permutation; [done..|]. intros i. rewrite He1, He2.
    setoid_rewrite Hc. by setoid_rewrite Hd. }
  assert (additions (compute current desired) ≡ₚ additions (compute current' desired')) as Hpa.
  { apply NoDup_Permutation; [by eapply NoDup_fmap_1..|]. intros x. rewrite Hx1, Hx2.
    setoid_rewrite Hc. by setoid_rewrite Hd. }
  destruct (plan_sorted current desired) as [Hs1 Ht1].
  destruct (plan_sorted current' desired') as [Hs2 Ht2].
  destruct (compute current desired) as [r1 a1], (compute current' desired') as [r2 a2].
  simpl in *. f_equal.
  - eapply (sorted_by_key_unique id); [done..| |done]. by rewrite list_fmap_id.
  - by eapply (sorted_by_key_unique add_pair).
Qed.

Lemma plan_order_independent_witness :
  compute sample_rows sample_desired = compute (reverse sample_rows) (reverse sample_desired).
Proof.
  apply plan_order_independent; [apply sample_nodup|apply sample_nodup|..];
    symmetry; apply reverse_Permutation.
Defined.

(** A plan deletes only row ids of the snapshot, each at most once, in
    ascending order, and adds only desired pairs, each at most once, in
    ascending order. *)
Lemma plan_local_and_sorted (current : list CurrentRow) (desired : list DesiredAssignment) :
  NoDup (row_id <$> current) -> NoDup (des_pair <$> desired) ->
  let p := compute current desired in
  StronglySorted N.lt (removals p) /\ removals p ⊆ (row_id <$> current) /\
  StronglySorted key_lt (add_pair <$> additions p) /\
  (add_grant <$> additions p) ⊆ (des_grant <$> desired).
Proof.
  intros Hids Hpairs p. destruct (plan_sorted current desired) as [Hs Ht].
  pose proof (removals_nodup current desired Hids Hpairs) as Hn.
  pose proof (additions_pairs_nodup current desired Hpairs) as Ha. split_and!.
  - apply (sorted_by_key_strict id) in Hs; [|by rewrite list_fmap_id].
    rewrite list_fmap_id in Hs. eapply StronglySorted_mono; [|exact Hs].
    intros x y Hxy. by apply N.compare_lt_iff.
  - intros i Hi. apply elem_of_removals in Hi as (r & Hr & <- & _); [|done..].
    by apply list_elem_of_fmap_2.
  - by apply sorted_by_key_strict.
  - intros g Hg. by apply elem_of_added_grants in Hg as [? _].
Qed.

Lemma plan_local_and_sorted_witness :
  let p := compute sample_rows sample_desired in
  StronglySorted N.lt (removals p) /\ removals p ⊆ (row_id <$> sample_rows) /\
  StronglySorted key_lt (add_pair <$> additions p) /\
  (add_grant <$> additions p) ⊆ (des_grant <$> sample_desired).
Proof. apply plan_local_and_sorted; apply sample_nodup. Defined.

(** C26: with distinct row ids and no two desired assignments for the same entity and
    profile, no way of reaching the desired grants from the same rows, by keeping some of
    them and creating others, deletes or creates fewer rows. *)
Theorem plan_minimal (current survivors : list CurrentRow) (desired : list DesiredAssignment)
    (created : list Addition) :
  NoDup (row_id <$> current) -> NoDup (des_pair <$> desired) ->
  survivors `sublist_of` current ->
  (row_grant <$> survivors) ++ (add_grant <$> created) ≡ₚ des_grant <$> desired ->
  (length (removals (compute current desired)) <= length current - length survivors)%nat /\
  (length (additions (compute current desired)) <= length created)%nat.
Proof.
  intros Hids Hpairs Hsub Hreach.
  assert (NoDup (row_grant <$> survivors)) as Hnd.
  { pose proof (des_grants_nodup desired Hpairs) as H. rewrite <- Hreach in H.
    by apply NoDup_app in H as (? & _). }
  assert (length survivors <= length (kept_rows current desired))%nat as Hlen.
  { rewrite <- (length_fmap row_grant survivors), <- (length_fmap row_grant (kept_rows _ _)).
    apply submseteq_length, NoDup_submseteq; [done|]. intros g Hg.
    apply elem_of_kept_grants; [done..|]. split; [rewrite <- Hreach; set_solver|].
    apply list_elem_of_fmap in Hg as (r & -> & Hr). apply list_elem_of_fmap_2.
    by eapply sublist_subseteq. }
  pose proof (removed_plus_kept current desired Hids Hpairs) as Hcount.
  pose proof (Permutation_length (plan_covers current desired Hids Hpairs)) as Hcov.
  pose proof (Permutation_length Hreach) as Hl.
  rewrite !length_app, !length_fmap in Hcov, Hl. lia.
Qed.

Lemma plan_minimal_witness :
  (length (removals (compute sample_rows sample_desired)) <= 5 - 0)%nat /\
  (length (additions (compute sample_rows sample_desired)) <= 3)%nat.
Proof.
  apply (plan_minimal sample_rows [] sample_desired
    [mkAddition 1 2 true; mkAddition 0 6 true; mkAddition 2 2 false]);
    [apply sample_nodup|apply sample_nodup|apply sublist_nil_l|reflexivity].
Defined.

Lemma duplicate_pairs_never_canonical_witness :
  is_canonical [mkRow 1 4 4 true] [mkDesired 4 4 true; mkDesired 4 4 true] = false.
Proof. apply duplicate_pairs_never_canonical. by_decide. Defined.
