(* ===== verification/GlpiBase.v ===== *)
(** * GLPI adapter: shared types

    Models the data of [crates/permissionsync-adapter-glpi/src]: the failure
    categories ([error.rs]), the validated configuration ([config.rs]), the
    HTTP request and response carriers ([transport.rs]), the effective deadline
    and context checks of [adapter.rs], and the environment the adapter runs in. *)
From S2P Require Import Prelude Core Json Net.

(** [error.rs]. *)
Inductive GlpiFailure : Type :=
| Cancelled
| DeadlineExceeded
| RuntimeUnavailable
| UnsupportedEnvelopeVersion
| InvalidPayload
| Transport
| ResponseBody
| ResponseTooLarge
| SessionInitFailed
| IncompleteVisibility
| SearchMetadataUnavailable
| SearchPagination
| AmbiguousReference
| MissingReference
| MalformedReference
| UserCreationFailed
| MutationFailed
| VerificationFailed
| CleanupFailed.

#[global] Instance GlpiFailure_eq_dec : EqDecision GlpiFailure.
Proof. solve_decision. Defined.

Definition glpi_failure_debug (e : GlpiFailure) : string := "GlpiFailure".
Definition glpi_failure_display (e : GlpiFailure) : string :=
  "GLPI target adapter reconciliation failed".

(** [GlpiAuthenticationSource]. *)
Inductive GlpiAuthenticationSource : Type :=
| DefaultSource
| Explicit (authtype auths_id : Z).

(** HTTP carriers. *)
Abbreviation StatusCode := N (only parsing).
Definition STATUS_OK : StatusCode := 200.
Definition STATUS_CREATED : StatusCode := 201.
Definition STATUS_PARTIAL_CONTENT : StatusCode := 206.

(** [transport::RawResponse]. *)
Record RawResponse : Type := mkResponse { status : StatusCode; body : bytes }.

(** [serde]-derived wire structs: the decoders are parameters below. *)
Record RawPermission : Type := mkRawPermission {
  rp_entity : string;
  rp_profile : string;
  rp_recursive : bool;
}.
Record RawPayload : Type := mkRawPayload { rp_permissions : list RawPermission }.
Record CreatedResponse : Type := mkCreatedResponse {
  created_id : N;
  created_message : string;
  created_upload_result : option Value;
}.
Inductive SearchData : Type := Missing | Present (l : list Value).
Record WireSearchPage : Type := mkWireSearchPage {
  wire_totalcount : N;
  wire_count : N;
  wire_content_range : string;
  wire_data : SearchData;
}.

(** Third-party code the adapter calls.
    - [url]: joining a relative reference and appending a query pair;
    - [http]: which texts are header values;
    - [serde_json]: parsing to a [Value], to the token stream of one complete
      document, to the derived wire structs, and printing. *)
Class GlpiDeps : Type := {
  Url : Type;
  url_join : Url -> string -> option Url;
  url_append_pair : Url -> string -> string -> Url;
  header_text_valid : string -> bool;
  from_slice_value : bytes -> option Value;
  from_slice_tokens : bytes -> option Value;
  from_str_payload : string -> option RawPayload;
  from_slice_created : bytes -> option CreatedResponse;
  from_slice_init_session : bytes -> option string;
  from_slice_full_session : bytes -> option Value;
  from_slice_search_page : bytes -> option WireSearchPage;
  to_vec : Value -> option bytes;
}.

Record HttpRequest `{GlpiDeps} : Type := mkHttpRequest {
  req_method : Method;
  req_url : Url;
  req_headers : list (string * HeaderValue);
  req_body : option bytes;
}.

(** [ValidatedConfig], without its TLS connector. *)
Record ValidatedConfig `{GlpiDeps} : Type := mkValidatedConfig {
  base : Url;
  app_token : string;
  user_token : string;
  operation_timeout : Z;
  authentication_source : GlpiAuthenticationSource;
}.

(** The environment: a clock and one bounded, single-attempt HTTP exchange
    ([transport::request]) per call. *)
Class GlpiWorld (W : Type) `{GlpiDeps} : Type := {
  glpi_clock :: Clock W;
  transport_request : HttpRequest -> Z -> W -> result RawResponse GlpiFailure * W;
}.

(** Which operation of the adapter issued a request. *)
Inductive GlpiOp : Type :=
| OpInitSession
| OpChangeActiveEntities
| OpGetFullSession
| OpKillSession
| OpListSearchOptions (itemtype : string)
| OpSearch (itemtype : string) (first last : N)
| OpReadItem (id : N)
| OpCreateUser (name : string)
| OpCreateAssignment (users_id profiles_id entities_id : N) (is_recursive : bool)
| OpDeleteAssignment (id : N).

#[global] Instance GlpiOp_eq_dec : EqDecision GlpiOp.
Proof. solve_decision. Defined.

Record GlpiCall `{GlpiDeps} : Type := mkCall {
  call_op : GlpiOp;
  call_request : HttpRequest;
  call_deadline : Z;
  call_answer : result RawResponse GlpiFailure;
}.

Arguments mkHttpRequest {_} req_method req_url req_headers req_body.
Arguments mkValidatedConfig {_} base app_token user_token operation_timeout authentication_source.
Arguments mkCall {_} call_op call_request call_deadline call_answer.

Section Glpi.
Context `{Deps : GlpiDeps} {W : Type} `{!GlpiWorld W}.
Abbreviation M := (Eff (Tr W GlpiCall)).

Definition send (op : GlpiOp) (request : HttpRequest) (effective_deadline : Z)
  : M (result RawResponse GlpiFailure) :=
  perform (transport_request request effective_deadline)
    (fun answer => mkCall op request effective_deadline answer).

(** The smaller of the request deadline and [now + operation_timeout]. *)
Definition operation_window (overall timeout t : Z) : Z :=
  Z.min overall (default overall (instant_checked_add t timeout)).

(** [effective_deadline]. *)
Definition effective_deadline (context : SynchronizationContext) (timeout : Z)
  : M (result Z GlpiFailure) :=
  let* cancelled := read_cancelled in
  if cancelled then eret (Err Cancelled) else
  let* t := read_now in
  if (deadline context <=? t)%Z then eret (Err DeadlineExceeded) else
  let operation_deadline := default (deadline context) (instant_checked_add t timeout) in
  eret (Ok (Z.min (deadline context) operation_deadline)).

(** [check_context]. *)
Definition check_context (context : SynchronizationContext) (limit : Z)
  : M (result unit GlpiFailure) :=
  let* cancelled := read_cancelled in
  if cancelled then eret (Err Cancelled) else
  let* t := read_now in
  if (limit <=? t)%Z then eret (Err DeadlineExceeded) else eret (Ok tt).

(** ** Facts *)

(** Every request is issued inside its own freshly computed window. *)
Definition in_window (context : SynchronizationContext) (config : ValidatedConfig)
    (t : Z) (c : GlpiCall) : Prop :=
  (t < deadline context)%Z /\
  call_deadline c = operation_window (deadline context) (operation_timeout config) t.

Definition windowed (context : SynchronizationContext) (config : ValidatedConfig)
  : list (event GlpiCall) -> Prop :=
  guarded (fun _ => False) (in_window context config).

Lemma emits_effective_deadline context timeout :
  emits (effective_deadline context timeout)
    (fun l r => calls l = [] /\
       forall d, r = Ok d -> exists t, l = [ECancelled false; ENow t] /\
         (t < deadline context)%Z /\ d = operation_window (deadline context) timeout t).
Proof.
  unfold effective_deadline. eapply emits_bind;
    [by apply (emits_cancelled (fun l b => l = [ECancelled b]))|].
  intros l1 [] ->; [by apply emits_ret|].
  eapply emits_bind; [by apply (emits_now (fun l t => l = [ENow t]))|].
  intros l2 t ->. destruct (deadline context <=? t)%Z eqn:E; apply emits_ret; [done|].
  split; [done|]. intros d [= <-]. exists t. split; [done|]. apply Z.leb_gt in E. done.
Qed.

Lemma emits_check_context context limit :
  emits (check_context context limit) (fun l _ => calls l = []).
Proof.
  unfold check_context. eapply emits_bind;
    [by apply (emits_cancelled (fun l b => l = [ECancelled b]))|].
  intros l1 [] ->; [by apply emits_ret|].
  eapply emits_bind; [by apply (emits_now (fun l t => l = [ENow t]))|].
  intros l2 t ->. by destruct (_ <=? _)%Z; apply emits_ret.
Qed.

Lemma emits_send op request d (Q : list (event GlpiCall) -> result RawResponse GlpiFailure -> Prop) :
  (forall a, Q [ECall (mkCall op request d a)] a) -> emits (send op request d) Q.
Proof. intros HQ. by apply emits_perform. Qed.

(** *** Phases

    [phase E F l r]: every request of [l] was issued in its own window; on
    success the calls and the value satisfy [F], on failure the calls satisfy
    [E]. *)
Definition phase {A} (context : SynchronizationContext) (config : ValidatedConfig)
    (E : list GlpiCall -> Prop) (F : list GlpiCall -> A -> Prop)
    (l : list (event GlpiCall)) (r : result A GlpiFailure) : Prop :=
  windowed context config l /\
  match r with Ok a => F (calls l) a | Err _ => E (calls l) end.

(** [shot E F d l r]: one request with deadline [d], or an error before it. *)
Definition shot {A} (E : GlpiCall -> Prop) (F : GlpiCall -> A -> Prop) (d : Z)
    (l : list (event GlpiCall)) (r : result A GlpiFailure) : Prop :=
  match r with
  | Ok a => exists c, l = [ECall c] /\ call_deadline c = d /\ F c a
  | Err _ => l = [] \/ exists c, l = [ECall c] /\ call_deadline c = d /\ E c
  end.

Section Phases.
Context (context : SynchronizationContext) (config : ValidatedConfig).
Abbreviation phase := (phase context config).

Lemma phase_ok {A} E F (a : A) : F [] a -> emits (W := W) (eret (Ok a)) (phase E F).
Proof. intros HF. apply emits_ret. split; [apply guarded_nil|done]. Qed.

Lemma phase_err {A} (E : list GlpiCall -> Prop) (F : list GlpiCall -> A -> Prop) e :
  E [] -> emits (W := W) (eret (Err e)) (phase E F).
Proof. intros HE. apply emits_ret. split; [apply guarded_nil|done]. Qed.

Lemma phase_lift {A} (E : list GlpiCall -> Prop) (F : list GlpiCall -> A -> Prop) r :
  E [] -> (forall a, r = Ok a -> F [] a) -> emits (W := W) (elift r) (phase E F).
Proof. intros HE HF. apply emits_ret. split; [apply guarded_nil|]. destruct r; auto. Qed.

Lemma phase_conseq {A} (m : M (result A GlpiFailure)) E F E' F' :
  emits m (phase E F) -> (forall cs, E cs -> E' cs) -> (forall cs a, F cs a -> F' cs a) ->
  emits m (phase E' F').
Proof.
  intros Hm HE HF. eapply emits_conseq; [exact Hm|]. intros l [a|e] [Hw H]; split; auto.
Qed.

Lemma phase_try {A B} (m : M (result A GlpiFailure)) (k : A -> M (result B GlpiFailure)) E1 F1 E G :
  emits m (phase E1 F1) -> (forall cs, E1 cs -> E cs) ->
  (forall cs a, F1 cs a ->
     emits (k a) (phase (fun cs' => E (cs ++ cs')) (fun cs' => G (cs ++ cs')))) ->
  emits (etry m k) (phase E G).
Proof.
  intros Hm HE Hk. eapply emits_try; [exact Hm| |].
  - intros l1 a [Hw HF]. eapply emits_conseq; [by apply Hk|]. intros l2 r [Hw2 Hr]. split.
    + by apply guarded_app.
    + rewrite calls_app. done.
  - intros l1 e [Hw H]. split; [done|]. by apply HE.
Qed.

Lemma phase_check {B} limit (k : unit -> M (result B GlpiFailure)) (E : list GlpiCall -> Prop) G :
  E [] -> emits (k tt) (phase E G) -> emits (etry (check_context context limit) k) (phase E G).
Proof.
  intros HE Hk.
  assert (emits (check_context context limit) (phase (fun cs => cs = []) (fun cs _ => cs = []))) as Hc.
  { eapply emits_conseq; [apply emits_check_context|]. intros l r Hl.
    split; [by apply guarded_no_calls|]. by destruct r. }
  eapply phase_try; [exact Hc|by intros ? ->|]. intros cs [] ->. done.
Qed.

(** An operation issued under its own freshly computed window. *)
Lemma phase_shot {A} (m : Z -> M (result A GlpiFailure)) (E1 : GlpiCall -> Prop) F1 :
  (forall d, emits (m d) (shot E1 F1 d)) ->
  emits (etry (effective_deadline context (operation_timeout config)) m)
    (phase (fun cs => cs = [] \/ exists c, cs = [c] /\ E1 c)
           (fun cs a => exists c, cs = [c] /\ F1 c a)).
Proof.
  intros Hm. eapply emits_try; [apply emits_effective_deadline| |].
  - intros l1 d [_ Hd]. destruct (Hd d eq_refl) as (t & -> & Ht & ->).
    eapply emits_conseq; [apply Hm|]. intros l2 [a|e] H; simpl in H.
    + destruct H as (c & -> & Hdl & HF). split; [by apply guarded_block|]. eauto.
    + destruct H as [->|(c & -> & Hdl & HE)].
      * split; [by apply guarded_no_calls|]. by left.
      * split; [by apply guarded_block|]. eauto.
  - intros l1 e [Hc _]. split; [by apply guarded_no_calls|]. by left.
Qed.

Lemma etry_assoc_emits {A B D} (m : M (result A GlpiFailure)) (k : A -> M (result B GlpiFailure))
    (k' : B -> M (result D GlpiFailure)) Q :
  emits (etry (etry m k) k') Q -> emits (etry m (fun a => etry (k a) k')) Q.
Proof.
  intros H s. destruct (H s) as (l & Ht & HQ). exists l. unfold etry, ebind, eret in *.
  destruct (m s) as [[a|e] s']; done.
Qed.

(** [let deadline = effective_deadline(..)?; op(.., deadline).await?; k]. *)
Lemma phase_shot_try {A B} (m : Z -> M (result A GlpiFailure)) (k : A -> M (result B GlpiFailure))
    (E1 : GlpiCall -> Prop) F1 (E : list GlpiCall -> Prop) G :
  (forall d, emits (m d) (shot E1 F1 d)) ->
  E [] -> (forall c, E1 c -> E [c]) ->
  (forall c a, F1 c a -> emits (k a) (phase (fun cs' => E (c :: cs')) (fun cs' => G (c :: cs')))) ->
  emits (etry (effective_deadline context (operation_timeout config)) (fun d => etry (m d) k))
    (phase E G).
Proof.
  intros Hm HE0 HE1 Hk. apply etry_assoc_emits.
  eapply phase_try; [by apply phase_shot| |].
  - by intros cs [->|(c & -> & ?)]; auto.
  - intros cs a (c & -> & HF). by apply Hk.
Qed.

Lemma phase_lift_try {A B} (r : result A GlpiFailure) (k : A -> M (result B GlpiFailure))
    (E : list GlpiCall -> Prop) G :
  E [] -> (forall a, r = Ok a -> emits (k a) (phase E G)) ->
  emits (etry (elift r) k) (phase E G).
Proof.
  intros HE Hk. destruct r as [a|e]; [|by apply phase_err].
  intros s. by apply (Hk a eq_refl).
Qed.

(** Loops: the invariant [I] counts the iterations done. *)
Lemma phase_iterate {S R} (step : S -> M (result (S + R) GlpiFailure))
    (I : N -> S -> list GlpiCall -> Prop) (E : list GlpiCall -> Prop) (G : list GlpiCall -> R -> Prop) :
  (forall n s cs, I n s cs ->
     emits (step s) (phase (fun cs' => E (cs ++ cs'))
       (fun cs' o => match o with
          | inl s' => I (n + 1)%N s' (cs ++ cs')
          | inr r => G (cs ++ cs') r end))) ->
  forall p n s cs, I n s cs ->
    emits (iterate p step s) (phase (fun cs' => E (cs ++ cs'))
      (fun cs' o => match o with
         | inl s' => I (n + Npos p)%N s' (cs ++ cs')
         | inr r => G (cs ++ cs') r end)).
Proof.
  intros Hstep.
  assert (forall (m : M (result (S + R) GlpiFailure)) (k : S -> M (result (S + R) GlpiFailure)) a b cs,
    emits m (phase (fun cs' => E (cs ++ cs'))
      (fun cs' o => match o with inl s' => I a s' (cs ++ cs') | inr r => G (cs ++ cs') r end)) ->
    (forall s' cs', I a s' cs' -> emits (k s') (phase (fun cs'' => E (cs' ++ cs''))
      (fun cs'' o => match o with inl s'' => I b s'' (cs' ++ cs'') | inr r => G (cs' ++ cs'') r end))) ->
    emits (etry m (fun o => match o with inl s' => k s' | inr r => eret (Ok (inr r)) end))
      (phase (fun cs' => E (cs ++ cs'))
        (fun cs' o => match o with inl s' => I b s' (cs ++ cs') | inr r => G (cs ++ cs') r end)))
    as Hagain.
  { intros m k a b cs Hm Hk. eapply phase_try; [exact Hm|done|].
    intros cs' [s'|r] H; [|apply phase_ok; by rewrite app_nil_r].
    eapply phase_conseq; [by apply Hk| |]; simpl; intros *; by rewrite app_assoc. }
  induction p as [p IH|p IH|]; intros n s cs HI; simpl.
  - eapply Hagain; [by apply Hstep|]. intros s1 cs1 H1.
    eapply Hagain; [by apply IH|]. intros s2 cs2 H2.
    eapply phase_conseq; [by apply IH|done|]. intros cs3 [s3|r] H3; [|done].
    by replace (n + N.pos p~1)%N with (n + 1 + N.pos p + N.pos p)%N by lia.
  - eapply Hagain; [by apply IH|]. intros s2 cs2 H2.
    eapply phase_conseq; [by apply IH|done|]. intros cs3 [s3|r] H3; [|done].
    by replace (n + N.pos p~0)%N with (n + N.pos p + N.pos p)%N by lia.
  - by apply Hstep.
Qed.
End Phases.
End Glpi.

(** ** A concrete instance of the third-party code

    Decoders given by finite tables of documents, and textual URLs: enough to
    run the adapter on concrete exchanges. *)
Fixpoint table_get {A} (t : list (string * A)) (key : string) : option A :=
  match t with
  | [] => None
  | (k, a) :: t' => if bool_decide (k = key) then Some a else table_get t' key
  end.

Record Documents : Type := mkDocuments {
  doc_values : list (string * Value);
  doc_payloads : list (string * RawPayload);
  doc_created : list (string * CreatedResponse);
  doc_sessions : list (string * string);
  doc_pages : list (string * WireSearchPage);
}.

Definition table_deps (t : Documents) : GlpiDeps := {|
  Url := string;
  url_join := fun u path => Some (u +:+ path);
  url_append_pair := fun u key value => u +:+ "&" +:+ key +:+ "=" +:+ value;
  header_text_valid := fun _ => true;
  from_slice_value := fun b => table_get (doc_values t) (of_bytes b);
  from_slice_tokens := fun b => table_get (doc_values t) (of_bytes b);
  from_str_payload := fun s => table_get (doc_payloads t) s;
  from_slice_created := fun b => table_get (doc_created t) (of_bytes b);
  from_slice_init_session := fun b => table_get (doc_sessions t) (of_bytes b);
  from_slice_full_session := fun b => table_get (doc_values t) (of_bytes b);
  from_slice_search_page := fun b => table_get (doc_pages t) (of_bytes b);
  to_vec := fun _ => Some [];
|}.
