(* ===== verification/GlpiConfig.v ===== *)
(** * GLPI adapter: configuration

    Models [crates/permissionsync-adapter-glpi/src/config.rs] and
    [GlpiAdapter::new]: validation of the endpoint, the tokens and the trust
    anchors. *)
From S2P Require Import Prelude Core Net GlpiBase.

Inductive GlpiAdapterConfigError : Type := glpi_config_error.

(** [GlpiAdapterConfig]. *)
Record GlpiAdapterConfig : Type := mkGlpiAdapterConfig {
  glpi_endpoint : string;
  glpi_app_token : string;
  glpi_user_token : string;
  glpi_operation_timeout : Z;
  glpi_trust_anchors : list bytes;
  glpi_authentication_source : GlpiAuthenticationSource;
}.

(** Third-party code validation calls: parsing and the components of a
    [url::Url], [native_tls]'s PEM decoder and connector builder. *)
Class GlpiConfigDeps : Type := {
  config_glpi :: GlpiDeps;
  url_parse : string -> option Url;
  url_scheme : Url -> string;
  url_host_str : Url -> option string;
  url_username : Url -> string;
  url_password : Url -> option string;
  url_fragment : Url -> option string;
  url_query : Url -> option string;
  url_path : Url -> string;
  url_set_path : Url -> string -> Url;
  glpi_stack_from_pem : bytes -> option nat;
  glpi_tls_build : list bytes -> bool;
}.

(** [str::strip_suffix] of one character, or the text itself. *)
Definition strip_slash (s : string) : string :=
  match rev (as_bytes s) with
  | "/"%char :: l => of_bytes (rev l)
  | _ => s
  end.

Section Validate.
Context `{Deps : GlpiConfigDeps}.

(** [parse_base]. *)
Definition parse_base (endpoint : string) : result Url GlpiAdapterConfigError :=
  let? url := ok_or (url_parse endpoint) glpi_config_error in
  if negb (bool_decide (url_scheme url = "https"))
     || match url_host_str url with Some h => bool_decide (h = "") | None => true end
     || negb (bool_decide (url_username url = ""))
     || bool_decide (is_Some (url_password url))
     || bool_decide (is_Some (url_fragment url))
     || bool_decide (is_Some (url_query url))
  then Err glpi_config_error else
  let path_without_trailing_slash := strip_slash (url_path url) in
  if negb (bool_decide (snd <$> rsplit_once "/" path_without_trailing_slash = Some "apirest.php"))
  then Err glpi_config_error else
  Ok (url_set_path url (path_without_trailing_slash ++ "/")).

(** [build_tls_connector]. *)
Definition build_tls_connector (pems : list bytes) : result unit GlpiAdapterConfigError :=
  if forallb (fun pem => match glpi_stack_from_pem pem with Some (S _) => true | _ => false end) pems
     && glpi_tls_build pems
  then Ok tt else Err glpi_config_error.

(** [validate]. *)
Definition validate (config : GlpiAdapterConfig) : result ValidatedConfig GlpiAdapterConfigError :=
  let? b := parse_base (glpi_endpoint config) in
  if (glpi_operation_timeout config =? 0)%Z then Err glpi_config_error else
  if bool_decide (glpi_app_token config = "") || bool_decide (glpi_user_token config = "")
  then Err glpi_config_error else
  let? _ := build_tls_connector (glpi_trust_anchors config) in
  Ok (mkValidatedConfig b (glpi_app_token config) (glpi_user_token config)
        (glpi_operation_timeout config) (glpi_authentication_source config)).

(** [GlpiAdapter::new]. *)
Definition glpi_adapter_new (config : GlpiAdapterConfig) : result ValidatedConfig GlpiAdapterConfigError :=
  validate config.

(** A path that ends in the component [apirest.php], with or without one slash. *)
Lemma rsplit_terminal s (terminal : string) :
  snd <$> rsplit_once "/" s = Some terminal <->
  exists head, as_bytes s = head ++ "/"%char :: as_bytes terminal /\ "/"%char ∉ as_bytes terminal.
Proof.
  assert (forall l a b, split_once_bytes "/" l = Some (a, b) <->
    l = a ++ "/"%char :: b /\ "/"%char ∉ a) as Hsplit.
  { induction l as [|c l IH]; intros a b; simpl.
    - split; [done|]. intros [H _]. by destruct a.
    - case_bool_decide as Hc.
      + subst. split; [intros [= <- <-]; split; [done|set_solver]|].
        intros [H Ha]. destruct a as [|x a]; simplify_eq/=; [done|]. set_solver.
      + destruct (split_once_bytes "/" l) as [[a' b']|] eqn:E; simpl.
        * destruct (proj1 (IH a' b') eq_refl) as [Hl Ha']. split.
          -- intros [= <- <-]. split; [by rewrite Hl|set_solver].
          -- intros [H Ha]. destruct a as [|x a]; simpl in H; injection H as -> H; [done|].
             assert (Some (a', b') = Some (a, b)) as [= <- <-] by (apply IH; split; [done|set_solver]).
             done.
        * split; [done|]. intros [H Ha]. destruct a as [|x a]; simpl in H; injection H as -> H; [done|].
          assert (None = Some (a, b)) as [=] by (apply IH; split; [done|set_solver]). }
  unfold rsplit_once. split.
  - destruct (split_once_bytes "/" (rev (as_bytes s))) as [[a b]|] eqn:E; [|done]. simpl.
    intros [= <-]. apply Hsplit in E as [E Ha]. exists (rev b). rewrite as_of_bytes. split.
    + rewrite <- (rev_involutive (as_bytes s)), E, rev_app_distr. simpl. by rewrite <- app_assoc.
    + rewrite list_elem_of_In, <- in_rev, <- list_elem_of_In. done.
  - intros (head & E & Hn).
    assert (split_once_bytes "/" (rev (as_bytes s)) = Some (rev (as_bytes terminal), rev head)) as ->.
    { apply Hsplit. split.
      - rewrite E, rev_app_distr. simpl. by rewrite <- app_assoc.
      - rewrite list_elem_of_In, <- in_rev, <- list_elem_of_In. done. }
    simpl. by rewrite rev_involutive, of_as_bytes.
Qed.

(** A validated adapter has a non-empty app token and user token, a positive
    timeout, and a base that is an HTTPS URL whose path ends in [apirest.php/]. *)
Lemma validate_sound config v :
  (0 <= glpi_operation_timeout config)%Z -> validate config = Ok v ->
  app_token v <> "" /\ user_token v <> "" /\ (0 < operation_timeout v)%Z /\
  exists url head, url_parse (glpi_endpoint config) = Some url /\ url_scheme url = "https" /\
    base v = url_set_path url (of_bytes head ++ "/apirest.php/").
Proof.
  intros Hpos. unfold validate. destruct (parse_base (glpi_endpoint config)) as [b|] eqn:Hb; [|done]. simpl.
  destruct (Z.eqb_spec (glpi_operation_timeout config) 0); [done|].
  destruct (bool_decide (glpi_app_token config = "")) eqn:Ha; [done|].
  destruct (bool_decide (glpi_user_token config = "")) eqn:Hu; [done|]. simpl.
  apply bool_decide_eq_false in Ha, Hu. destruct (build_tls_connector _); [|done].
  intros [= <-]. simpl. split_and!; [done|done|lia|].
  unfold parse_base in Hb. destruct (url_parse _) as [url|]; [|done]. simpl in Hb.
  destruct (bool_decide (url_scheme url = "https")) eqn:Hs; [|done]. simpl in Hb.
  apply bool_decide_eq_true in Hs. case_match; [done|].
  destruct (bool_decide (snd <$> _ = _)) eqn:Hp; [|done]. injection Hb as <-.
  apply bool_decide_eq_true, rsplit_terminal in Hp as (head & Hp & _).
  exists url, head. split_and!; [done..|]. f_equal.
  rewrite <- (of_as_bytes (strip_slash (url_path url))), Hp.
  assert (forall l t, of_bytes (l ++ t) = (of_bytes l ++ of_bytes t)%string) as Happ.
  { induction l as [|c l IH]; intros t; simpl; [done|]. by rewrite IH. }
  rewrite Happ. change ("/"%char :: as_bytes "apirest.php") with (as_bytes "/apirest.php").
  rewrite of_as_bytes.
  assert (forall s t u : string, ((s ++ t) ++ u = s ++ (t ++ u))%string) as ->; [|done].
  induction s as [|c s IH]; intros t u; [done|]. by apply (f_equal (String c)).
Qed.
End Validate.
