(* ===== verification/GlpiTransport.v ===== *)
(** * GLPI adapter: transport

    Models [crates/permissionsync-adapter-glpi/src/transport.rs]: one bounded,
    single-attempt HTTP request over the exchange of [Net], and its place behind
    the environment the adapter runs in. *)
From S2P Require Import Prelude Core Dns Net GlpiBase.

Definition RESPONSE_BODY_LIMIT_BYTES : N := 2097152.

(** [url::Host]. *)
Inductive Host : Type := HostDomain (domain : string) | HostIpv4 (a : N) | HostIpv6 (a : N).

(** Third-party code the transport calls: the components of a [url::Url] (the
    path and query as [hyper::Uri] parses them from its text), whether [http]
    builds a request, and the text of an IP address. *)
Class TransportDeps : Type := {
  transport_glpi :: GlpiDeps;
  transport_names :: DnsNames;
  url_host : Url -> option Host;
  url_port_or_known_default : Url -> option N;
  url_path_and_query : Url -> option string;
  request_builds : OutboundRequest -> bool;
  ip_to_string : IpAddr -> string;
}.

Inductive ConnectionHost : Type := Domain (host : string) | Ip (a : IpAddr).
Record NormalizedHost : Type := mkNormalizedHost {
  connection_host : ConnectionHost;
  tls_server_name : string;
  authority : string;
}.

Section Transport.
Context `{Deps : TransportDeps} {W : Type} `{!NetWorld W}.
Abbreviation M := (Eff (Tr W NetCall)).

(** [normalize_host]. *)
Definition normalize_host (h : Host) : NormalizedHost :=
  match h with
  | HostDomain domain => mkNormalizedHost (Domain domain) domain domain
  | HostIpv4 a =>
      let address_text := ip_to_string (V4 a) in
      mkNormalizedHost (Ip (V4 a)) address_text address_text
  | HostIpv6 a =>
      let address_text := ip_to_string (V6 a) in
      mkNormalizedHost (Ip (V6 a)) address_text ("[" ++ address_text ++ "]")
  end.

(** [host_header_authority]. *)
Definition host_header_authority (host : NormalizedHost) (port : N) : string :=
  if (port =? 443)%N then authority host
  else (authority host ++ ":" ++ u64_to_string port)%string.

(** [check_deadline]. *)
Definition check_deadline (effective_deadline : Z) : M (result unit GlpiFailure) :=
  let* t := read_now in
  if (effective_deadline <=? t)%Z then eret (Err DeadlineExceeded) else eret (Ok tt).

(** Reads the platform's resolver configuration. *)
Definition system_conf : M (option (list NameServer)) :=
  fun s => let '(c, w) := read_system_conf (world s) in (c, mkTr w (trace s)).

(** [resolve_one_address]. *)
Definition resolve_one_address (host : ConnectionHost) (port : N) (effective_deadline : Z)
  : M (result SocketAddr GlpiFailure) :=
  match host with
  | Ip a => eret (Ok (mkSocketAddr a port))
  | Domain host =>
      let! n := elift (ok_or (name_of_str host) Transport) in
      let* conf := system_conf in
      let! servers := elift (ok_or conf Transport) in
      let! name_server := elift (ok_or (configured_udp_name_server servers) Transport) in
      resolve_hostname Transport DeadlineExceeded (name_set_fqdn n) name_server port effective_deadline
  end.

(** The request builder of [run]. *)
Definition outbound (request : HttpRequest) (path_and_query host_header_value : string)
  : result OutboundRequest GlpiFailure :=
  let out := mkOutbound (req_method request) path_and_query
    (("host", mkHeader host_header_value false) :: req_headers request ++
     match req_body request with
     | Some _ => [("content-type", mkHeader "application/json" false)]
     | None => []
     end)
    (default [] (req_body request)) in
  if request_builds out then Ok out else Err Transport.

(** [read_body]. *)
Definition read_body (response : HttpResponse) (effective_deadline : Z) : M (result bytes GlpiFailure) :=
  read_frames Transport DeadlineExceeded (check_deadline effective_deadline) ResponseBody ResponseTooLarge
    RESPONSE_BODY_LIMIT_BYTES (answer_frames response) [].

(** [send_and_read], after the response head arrived. *)
Definition read_response (effective_deadline : Z) (response : HttpResponse)
  : M (result RawResponse GlpiFailure) :=
  let! _ := check_deadline effective_deadline in
  let! b := read_body response effective_deadline in
  eret (Ok (mkResponse (answer_status response) b)).

(** [run]. *)
Definition run (request : HttpRequest) (effective_deadline : Z) : M (result RawResponse GlpiFailure) :=
  let check := check_deadline effective_deadline in
  let! _ := check in
  let! h := elift (ok_or (url_host (req_url request)) Transport) in
  let host := normalize_host h in
  let! port := elift (ok_or (url_port_or_known_default (req_url request)) Transport) in
  let! path_and_query := elift (ok_or (url_path_and_query (req_url request)) Transport) in
  let! outbound_request := elift (outbound request path_and_query (host_header_authority host port)) in
  let! _ := connect Transport DeadlineExceeded check
    (resolve_one_address (connection_host host) port effective_deadline) (tls_server_name host) in
  let! _ := check in
  let! response := Net.send Transport DeadlineExceeded outbound_request in
  read_response effective_deadline response.

(** [transport::request]. *)
Definition request (r : HttpRequest) (effective_deadline : Z) : M (result RawResponse GlpiFailure) :=
  let* runtime := (fun s => (runtime_available (world s), s)) in
  if negb runtime then eret (Err RuntimeUnavailable) else run r effective_deadline.

(** The environment of the adapter, implemented by this transport. *)
#[global] Instance transport_world : GlpiWorld W := {|
  glpi_clock := net_clock;
  transport_request := fun r d w => let '(x, s) := request r d (mkTr w []) in (x, world s);
|}.

(** ** Facts *)

Lemma check_deadline_emits d :
  emits (check_deadline d) (fun l r => calls l = [] /\ (r = Ok tt -> ticked d l)).
Proof.
  unfold check_deadline. eapply emits_bind; [by apply (emits_now (fun l t => l = [ENow t]))|].
  intros l2 t ->. destruct (Z.leb_spec d t) as [|Hlt]; apply emits_ret; [done|]. split; [done|].
  intros _. exists [], t. done.
Qed.

(** Where the address comes from: the URL itself, or one DNS exchange with a
    configured name server. *)
Definition addressed (host : ConnectionHost) (port : N) (cs : list NetCall)
    (r : result SocketAddr GlpiFailure) : Prop :=
  match host with
  | Ip a => cs = [] /\ r = Ok (mkSocketAddr a port)
  | Domain host => (is_ok r = false /\ cs = []) \/
      exists n servers name_server, name_of_str host = Some n /\
        configured_udp_name_server servers = Some name_server /\
        looked_up (name_set_fqdn n) name_server port cs r
  end.

Lemma resolve_address_emits host port d :
  emits (resolve_one_address host port d) (timed d (addressed host port)).
Proof.
  destruct host as [host|a]; simpl.
  2:{ apply emits_ret. split; [by apply clocked_no_calls|done]. }
  assert (forall e, timed d (addressed (Domain host) port) [] (Err e)) as Herr.
  { intros e. split; [by apply clocked_no_calls|by left]. }
  apply emits_lift; [|by intros]. intros n Hn%ok_or_ok_inv.
  eapply emits_bind with (Q1 := fun l _ => l = []).
  { intros s. unfold system_conf. destruct (read_system_conf (world s)) as [c w].
    exists []. by rewrite app_nil_r. }
  intros l1 conf ->. apply emits_lift; [|by intros]. intros servers Hc%ok_or_ok_inv.
  apply emits_lift; [|by intros]. intros name_server Hs%ok_or_ok_inv.
  eapply emits_conseq; [apply resolve_hostname_emits|]. intros l2 r [Ht Hl]. split; [done|].
  right. eauto 10.
Qed.

(** The response is the answer's status and its complete bounded body. *)
Definition raw_response (resp : HttpResponse) (r : result RawResponse GlpiFailure) : Prop :=
  forall raw, r = Ok raw ->
  status raw = answer_status resp /\ body raw = mjoin (body_data <$> answer_frames resp) /\
  (N.of_nat (length (body raw)) <= RESPONSE_BODY_LIMIT_BYTES)%N.

Lemma raw_response_emits d response :
  emits (read_response d response) (fun l r => calls l = [] /\ raw_response response r).
Proof.
  unfold read_response. eapply emits_try; [apply check_deadline_emits| |by intros l1 e [Hl _]].
  intros l1 [] [Hl _]. eapply emits_try.
  - apply (body_frames_emits _ _ d); [apply check_deadline_emits|]. simpl. unfold RESPONSE_BODY_LIMIT_BYTES. lia.
  - intros l2 b [Hl2 Hb]. apply emits_ret. rewrite app_nil_r, calls_app, Hl, Hl2. split; [done|].
    intros raw [= <-]. simpl. by destruct (Hb b eq_refl) as [-> ?].
  - intros l2 e [Hl2 _]. by rewrite calls_app, Hl, Hl2.
Qed.

(** The outbound form of a request. *)
Definition outbound_request (r : HttpRequest) (host : NormalizedHost) (port : N) (out : OutboundRequest) : Prop :=
  exists path_and_query, url_path_and_query (req_url r) = Some path_and_query /\
    outbound r path_and_query (host_header_authority host port) = Ok out.

Definition attempted (r : HttpRequest) (cs : list NetCall) (x : result RawResponse GlpiFailure) : Prop :=
  (is_ok x = false /\ cs = []) \/
  exists h port out, url_host (req_url r) = Some h /\
    url_port_or_known_default (req_url r) = Some port /\
    outbound_request r (normalize_host h) port out /\
    exchanged (addressed (connection_host (normalize_host h)) port)
      (tls_server_name (normalize_host h)) out raw_response cs x.

Lemma run_emits r d : emits (run r d) (timed d (attempted r)).
Proof.
  assert (forall e, attempted r [] (Err e)) as Herr by (by left).
  unfold run. apply (timed_check d (check_deadline d)); [apply check_deadline_emits|done|].
  assert (forall e, timed d (attempted r) [] (Err e)) as Hnone by (by intros; split; [apply clocked_no_calls|]).
  apply emits_lift; [|by intros]. intros h Hh%ok_or_ok_inv.
  apply emits_lift; [|by intros]. intros port Hp%ok_or_ok_inv.
  apply emits_lift; [|by intros]. intros pq Hq%ok_or_ok_inv.
  apply emits_lift; [|by intros]. intros out Ho.
  eapply emits_conseq; [apply (exchange_emits _ _ d _ (check_deadline_emits _)
    (addressed (connection_host (normalize_host h)) port) _ _ _ _ raw_response)|].
  - apply resolve_address_emits.
  - intros resp. apply raw_response_emits.
  - intros l x [Hc Hx]. split; [done|]. right. exists h, port, out. split_and!; [done..| |done].
    exists pq. done.
Qed.

(** One GLPI request is at most one attempt: to the URL's own
    address or one obtained by a single DNS exchange, one connection, one TLS
    handshake for the URL's host name, one HTTP handshake and one request that
    carries exactly the given method, headers and body, each stage started only
    after the clock was read before the deadline.  A response is the status and
    the complete body of the one answer, at most 2 MiB. *)
Lemma transport_request_once (r : HttpRequest) (d : Z) (w : W) :
  let '(x, s) := request r d (mkTr w []) in
  clocked d (trace s) /\ attempted r (calls (trace s)) x.
Proof.
  unfold request, ebind. destruct (runtime_available _); simpl.
  - pose proof (emits_run _ _ w (run_emits r d)) as H. by destruct (run r d _) as [x s].
  - split; [by apply clocked_no_calls|by left].
Qed.
End Transport.
