(* ===== verification/GlpiSession.v ===== *)
(** * GLPI adapter: request-scoped session

    Models [crates/permissionsync-adapter-glpi/src/session.rs]. *)
From S2P Require Import Prelude Core Json Net GlpiBase.

Record GlpiSession : Type := mkSession { token : string }.

(** The position of the first byte satisfying [p] ([Iterator::position]). *)
Fixpoint position (p : ascii -> bool) (l : bytes) : option nat :=
  match l with
  | [] => None
  | c :: l' => if p c then Some 0 else S <$> position p l'
  end.

(** [Iterator::rposition]. *)
Definition rposition (p : ascii -> bool) (l : bytes) : option nat :=
  (fun i => length l - 1 - i) <$> position p (rev l).

(** [trim_ascii]. *)
Definition trim_ascii (b : bytes) : bytes :=
  let start := position (fun c => negb (is_ascii_whitespace c)) b in
  let last := rposition (fun c => negb (is_ascii_whitespace c)) b in
  match start, last with
  | Some i, Some j => take (j + 1 - i) (drop i b)
  | _, _ => []
  end.

Definition quote : string := String (ascii_of_N 34) EmptyString.

(** The fixed body of [changeActiveEntities]: one member, [is_recursive], true. *)
Definition active_entities_body : bytes :=
  as_bytes ("{" +:+ quote +:+ "is_recursive" +:+ quote +:+ ":true}").

Section Session.
Context `{Deps : GlpiDeps} {W : Type} `{!GlpiWorld W}.
Abbreviation M := (Eff (Tr W GlpiCall)).

(** [HeaderValue::from_str], then [set_sensitive(true)]. *)
Definition sensitive_header (text : string) : result HeaderValue GlpiFailure :=
  if header_text_valid text then Ok (mkHeader text true) else Err Transport.

(** [app_token_header] and [session_token_header]. *)
Definition app_token_header (config : ValidatedConfig) : result (string * HeaderValue) GlpiFailure :=
  let? value := sensitive_header (app_token config) in Ok ("app-token", value).
Definition session_token_header (session : GlpiSession) : result (string * HeaderValue) GlpiFailure :=
  let? value := sensitive_header (token session) in Ok ("session-token", value).

(** [session_headers]. *)
Definition session_headers (session : GlpiSession) (config : ValidatedConfig)
  : result (list (string * HeaderValue)) GlpiFailure :=
  let? s := session_token_header session in
  let? a := app_token_header config in
  Ok [s; a].

(** [config.base.join(path)]. *)
Definition join_base (config : ValidatedConfig) (path : string) : result Url GlpiFailure :=
  ok_or (url_join (base config) path) Transport.

(** [init_session]. *)
Definition init_session (config : ValidatedConfig) (effective_deadline : Z)
  : M (result GlpiSession GlpiFailure) :=
  let! url := elift (join_base config "initSession") in
  let! authorization := elift (sensitive_header ("user_token " +:+ user_token config)) in
  let! app := elift (app_token_header config) in
  let headers := [("authorization", authorization); app] in
  let! response := send OpInitSession (mkHttpRequest GET url headers None) effective_deadline in
  if negb (status response =? STATUS_OK)%N then eret (Err SessionInitFailed) else
  let! session_token := elift (ok_or (from_slice_init_session (body response)) SessionInitFailed) in
  if bool_decide (session_token = "") then eret (Err SessionInitFailed)
  else eret (Ok (mkSession session_token)).

(** [force_all_entities]. *)
Definition force_all_entities (config : ValidatedConfig) (session : GlpiSession)
    (effective_deadline : Z) : M (result unit GlpiFailure) :=
  let! url := elift (join_base config "changeActiveEntities") in
  let! headers := elift (session_headers session config) in
  let! response := send OpChangeActiveEntities
    (mkHttpRequest POST url headers (Some active_entities_body)) effective_deadline in
  if negb (status response =? STATUS_OK)%N then eret (Err IncompleteVisibility) else
  if negb (bool_decide (trim_ascii (body response) = as_bytes "true"))
  then eret (Err IncompleteVisibility) else eret (Ok tt).

(** The visibility precondition on a [getFullSession] response body. *)
Definition complete_visibility (b : bytes) : bool :=
  match from_slice_full_session b with
  | Some session =>
      match as_object session ≫= (fun o => object_get o "glpishowallentities") with
      | Some (VNumber number) => bool_decide (number_as_u64 number = Some 1%N)
      | _ => false
      end
  | None => false
  end.

(** [verify_complete_visibility]. *)
Definition verify_complete_visibility (config : ValidatedConfig) (session : GlpiSession)
    (effective_deadline : Z) : M (result unit GlpiFailure) :=
  let! url := elift (join_base config "getFullSession") in
  let! headers := elift (session_headers session config) in
  let! response := send OpGetFullSession (mkHttpRequest GET url headers None) effective_deadline in
  if negb (status response =? STATUS_OK)%N then eret (Err IncompleteVisibility) else
  if complete_visibility (body response) then eret (Ok tt) else eret (Err IncompleteVisibility).

(** [kill_session]. *)
Definition kill_session (config : ValidatedConfig) (session : GlpiSession)
    (effective_deadline : Z) : M (result unit GlpiFailure) :=
  let! url := elift (join_base config "killSession") in
  let! headers := elift (session_headers session config) in
  let! response := send OpKillSession (mkHttpRequest GET url headers None) effective_deadline in
  if negb (status response =? STATUS_OK)%N then eret (Err CleanupFailed) else
  if negb (bool_decide (trim_ascii (body response) = as_bytes "true"))
  then eret (Err CleanupFailed) else eret (Ok tt).

(** ** Facts *)

(** Early failures before the one request of an operation. *)
Lemma shot_lift {A B} (r : result A GlpiFailure) (k : A -> M (result B GlpiFailure)) E F d :
  (forall a, r = Ok a -> emits (k a) (shot E F d)) -> emits (etry (elift r) k) (shot E F d).
Proof.
  intros Hk. destruct r as [a|e]; [|by apply emits_ret; left].
  intros s. by apply (Hk a eq_refl).
Qed.

(** The one request: everything after it is pure. *)
Lemma shot_send {A} op request d (k : RawResponse -> result A GlpiFailure)
    (k' : RawResponse -> M (result A GlpiFailure)) (E : GlpiCall -> Prop) (F : GlpiCall -> A -> Prop) :
  (forall resp s, k' resp s = (k resp, s)) ->
  (forall e, E (mkCall op request d (Err e))) ->
  (forall resp e, k resp = Err e -> E (mkCall op request d (Ok resp))) ->
  (forall resp a, k resp = Ok a -> F (mkCall op request d (Ok resp)) a) ->
  emits (etry (send op request d) k') (shot E F d).
Proof.
  intros Hpure HE1 HE2 HF. eapply emits_try.
  - by apply (emits_send _ _ _ (fun l a => l = [ECall (mkCall op request d a)])).
  - intros l1 resp -> s. exists []. rewrite Hpure, app_nil_r. split; [done|]. simpl.
    destruct (k resp) as [a|e] eqn:Ek; simpl; eauto 10.
  - intros l1 e ->. right. eauto.
Qed.

Lemma force_all_shot config session d :
  emits (force_all_entities config session d)
    (shot (fun c => call_op c = OpChangeActiveEntities)
          (fun c _ => call_op c = OpChangeActiveEntities /\
             exists resp, call_answer c = Ok resp /\ status resp = STATUS_OK /\
               trim_ascii (body resp) = as_bytes "true") d).
Proof.
  unfold force_all_entities. apply shot_lift. intros url _. apply shot_lift. intros headers _.
  apply (shot_send _ _ _ (fun response =>
    if negb (status response =? STATUS_OK)%N then Err IncompleteVisibility else
    if negb (bool_decide (trim_ascii (body response) = as_bytes "true"))
    then Err IncompleteVisibility else Ok tt)); [|done|done|].
  - intros resp s. by repeat case_match.
  - intros resp [] H. split; [done|]. exists resp. repeat case_match; simplify_eq.
    split; [done|]. split; [by apply N.eqb_eq, negb_false_iff|].
    by eapply bool_decide_eq_true, negb_false_iff.
Qed.

Lemma verify_visibility_shot config session d :
  emits (verify_complete_visibility config session d)
    (shot (fun c => call_op c = OpGetFullSession)
          (fun c _ => call_op c = OpGetFullSession /\
             exists resp, call_answer c = Ok resp /\ status resp = STATUS_OK /\
               complete_visibility (body resp) = true) d).
Proof.
  unfold verify_complete_visibility. apply shot_lift. intros url _. apply shot_lift. intros headers _.
  apply (shot_send _ _ _ (fun response =>
    if negb (status response =? STATUS_OK)%N then Err IncompleteVisibility else
    if complete_visibility (body response) then Ok tt else Err IncompleteVisibility)); [|done|done|].
  - intros resp s. by repeat case_match.
  - intros resp [] H. split; [done|]. exists resp. repeat case_match; simplify_eq.
    split; [done|]. split; [by apply N.eqb_eq, negb_false_iff|done].
Qed.

Lemma kill_session_shot config session d :
  emits (kill_session config session d)
    (shot (fun c => call_op c = OpKillSession) (fun c _ => call_op c = OpKillSession) d).
Proof.
  unfold kill_session. apply shot_lift. intros url _. apply shot_lift. intros headers _.
  apply (shot_send _ _ _ (fun response =>
    if negb (status response =? STATUS_OK)%N then Err CleanupFailed else
    if negb (bool_decide (trim_ascii (body response) = as_bytes "true"))
    then Err CleanupFailed else Ok tt)); [|done..].
  intros resp s. by repeat case_match.
Qed.

(** The documented success answer of [killSession]. *)
Definition kill_acknowledged (c : GlpiCall) : bool :=
  match call_answer c with
  | Ok response =>
      (status response =? STATUS_OK)%N && bool_decide (trim_ascii (body response) = as_bytes "true")
  | Err _ => false
  end.

(** [kill_session] fails without a request, or sends one and succeeds exactly on
    its acknowledgement. *)
Lemma kill_session_exact config session d (s : Tr W GlpiCall) :
  (exists e, kill_session config session d s = (Err e, s) /\
     is_ok (join_base config "killSession") && is_ok (session_headers session config) = false) \/
  (exists c r w, kill_session config session d s = (r, mkTr w (trace s ++ [ECall c])) /\
     call_op c = OpKillSession /\ call_deadline c = d /\ is_ok r = kill_acknowledged c).
Proof.
  unfold kill_session, etry, ebind, elift, eret.
  destruct (join_base config "killSession") as [url|e]; simpl; [|eauto].
  destruct (session_headers session config) as [headers|e]; simpl; [|eauto].
  right. unfold send, perform. destruct (transport_request _ _ _) as [answer w].
  exists (mkCall OpKillSession (mkHttpRequest GET url headers None) d answer).
  unfold kill_acknowledged. simpl. destruct answer as [response|e]; simpl; [|by eexists _, _].
  destruct (status response =? STATUS_OK)%N; simpl; [|by eexists _, _].
  case_bool_decide; by eexists _, _.
Qed.

(** The answer that opened [session]. *)
Definition opened (session : GlpiSession) (c : GlpiCall) : Prop :=
  call_op c = OpInitSession /\
  exists resp, call_answer c = Ok resp /\ status resp = STATUS_OK /\
    from_slice_init_session (body resp) = Some (token session) /\ token session <> "".

Lemma init_session_shot config d :
  emits (init_session config d)
    (shot (fun c => call_op c = OpInitSession) (fun c session => opened session c) d).
Proof.
  unfold init_session. apply shot_lift. intros url _. apply shot_lift. intros authorization _.
  apply shot_lift. intros app _.
  apply (shot_send _ _ _ (fun response =>
    if negb (status response =? STATUS_OK)%N then Err SessionInitFailed else
    match ok_or (from_slice_init_session (body response)) SessionInitFailed with
    | Ok t => if bool_decide (t = "") then Err SessionInitFailed else Ok (mkSession t)
    | Err e => Err e
    end)); [|done|done|].
  - intros resp s. unfold etry, ebind, elift, eret. by repeat case_match; simplify_eq.
  - intros resp session H. split; [done|]. exists resp. split; [done|].
    destruct (N.eqb_spec (status resp) STATUS_OK); [|done]. split; [done|]. simpl in H.
    destruct (from_slice_init_session (body resp)) as [t|]; [|done]. simpl in H.
    case_bool_decide; [done|]. by injection H as <-.
Qed.
End Session.
