(* ===== verification/GlpiMutation.v ===== *)
(** * GLPI adapter: mutations

    Models [crates/permissionsync-adapter-glpi/src/mutation.rs]: user creation,
    assignment creation and assignment deletion, one request each, with the
    strict success shapes. *)
From S2P Require Import Prelude Core Json Net GlpiBase GlpiSession.

Section Mutation.
Context `{Deps : GlpiDeps} {W : Type} `{!GlpiWorld W}.
Abbreviation M := (Eff (Tr W GlpiCall)).

(** [parse_created_id]. *)
Definition parse_created_id (b : bytes) : result N GlpiFailure :=
  let? parsed := ok_or (from_slice_created b) MutationFailed in
  if (created_id parsed =? 0)%N then Err MutationFailed else Ok (created_id parsed).

(** [DeletionEntryVisitor::visit_map]: the loop over the members. *)
Fixpoint visit_deletion_entry (expected_id : string) (success : option bool)
    (message : option string) (members : Object) : option unit :=
  match members with
  | [] => if bool_decide (success = Some true) && bool_decide (is_Some message) then Some tt else None
  | (key, value) :: rest =>
      if bool_decide (key = expected_id) then
        match success with
        | Some _ => None
        | None =>
            match value with
            | VBool b => visit_deletion_entry expected_id (Some b) message rest
            | _ => None
            end
        end
      else if bool_decide (key = "message") then
        match message with
        | Some _ => None
        | None =>
            match value with
            | VString text => visit_deletion_entry expected_id success (Some text) rest
            | _ => None
            end
        end
      else None
  end.

(** [DeletionResponseVisitor::visit_seq]: exactly one entry, which is a map. *)
Definition visit_deletion_response (expected_id : string) (v : Value) : option unit :=
  match v with
  | VArray [VObject members] => visit_deletion_entry expected_id None None members
  | _ => None
  end.

(** [parse_deleted_assignment]. *)
Definition parse_deleted_assignment (b : bytes) (assignment_id : N) : result unit GlpiFailure :=
  ok_or (from_slice_tokens b ≫= visit_deletion_response (u64_to_string assignment_id)) MutationFailed.

(** The [input] object of [create_user]. *)
Definition create_user_input (name : string) (source : GlpiAuthenticationSource) : Value :=
  VObject (("name", VString name) ::
    match source with
    | Explicit authtype auths_id =>
        [("authtype", VNumber (if (0 <=? authtype)%Z then PosInt (Z.to_N authtype) else NegInt authtype));
         ("auths_id", VNumber (if (0 <=? auths_id)%Z then PosInt (Z.to_N auths_id) else NegInt auths_id))]
    | DefaultSource => []
    end).

(** [create_user]. *)
Definition create_user (config : ValidatedConfig) (session : GlpiSession) (name : string)
    (source : GlpiAuthenticationSource) (effective_deadline : Z) : M (result N GlpiFailure) :=
  let! url := elift (join_base config "User") in
  let! headers := elift (session_headers session config) in
  let! b := elift (ok_or (to_vec (VObject [("input", create_user_input name source)])) MutationFailed) in
  let! response := send (OpCreateUser name) (mkHttpRequest POST url headers (Some b))
    effective_deadline in
  if negb (status response =? STATUS_CREATED)%N then eret (Err UserCreationFailed) else
  eret (map_err (fun _ => UserCreationFailed) (parse_created_id (body response))).

(** The body of [create_assignment]. *)
Definition create_assignment_body (users_id profiles_id entities_id : N) (is_recursive : bool)
  : Value :=
  VObject [("input", VObject
    [("users_id", VNumber (PosInt users_id)); ("profiles_id", VNumber (PosInt profiles_id));
     ("entities_id", VNumber (PosInt entities_id)); ("is_recursive", VBool is_recursive)])].

(** [create_assignment]. *)
Definition create_assignment (config : ValidatedConfig) (session : GlpiSession)
    (users_id profiles_id entities_id : N) (is_recursive : bool) (effective_deadline : Z)
  : M (result N GlpiFailure) :=
  let! url := elift (join_base config "Profile_User") in
  let! headers := elift (session_headers session config) in
  let! b := elift (ok_or (to_vec (create_assignment_body users_id profiles_id entities_id is_recursive))
    MutationFailed) in
  let! response := send (OpCreateAssignment users_id profiles_id entities_id is_recursive)
    (mkHttpRequest POST url headers (Some b)) effective_deadline in
  if negb (status response =? STATUS_CREATED)%N then eret (Err MutationFailed) else
  eret (parse_created_id (body response)).

(** [delete_assignment]. *)
Definition delete_assignment (config : ValidatedConfig) (session : GlpiSession)
    (assignment_id : N) (effective_deadline : Z) : M (result unit GlpiFailure) :=
  let! url := elift (join_base config ("Profile_User/" +:+ u64_to_string assignment_id)) in
  let! headers := elift (session_headers session config) in
  let! response := send (OpDeleteAssignment assignment_id) (mkHttpRequest DELETE url headers None)
    effective_deadline in
  if negb (status response =? STATUS_OK)%N then eret (Err MutationFailed) else
  eret (parse_deleted_assignment (body response) assignment_id).

(** ** Confirmed mutations *)

(** What GLPI must answer for a mutation to count as performed. *)
Definition confirmed_delete (id : N) (c : GlpiCall) : Prop :=
  call_op c = OpDeleteAssignment id /\
  exists resp, call_answer c = Ok resp /\ status resp = STATUS_OK /\
    parse_deleted_assignment (body resp) id = Ok tt.

Definition confirmed_create (op : GlpiOp) (id : N) (c : GlpiCall) : Prop :=
  call_op c = op /\
  exists resp, call_answer c = Ok resp /\ status resp = STATUS_CREATED /\
    parse_created_id (body resp) = Ok id.

Lemma parse_created_id_ok b id :
  parse_created_id b = Ok id <->
  exists parsed, from_slice_created b = Some parsed /\ created_id parsed = id /\ id <> 0%N.
Proof.
  unfold parse_created_id. destruct (from_slice_created b) as [parsed|]; simpl; [|naive_solver].
  destruct (N.eqb_spec (created_id parsed) 0); naive_solver.
Qed.

Lemma delete_assignment_shot config session id d :
  emits (delete_assignment config session id d)
    (shot (fun c => call_op c = OpDeleteAssignment id) (fun c _ => confirmed_delete id c) d).
Proof.
  unfold delete_assignment. apply shot_lift. intros url _. apply shot_lift. intros headers _.
  apply (shot_send _ _ _ (fun response =>
    if negb (status response =? STATUS_OK)%N then Err MutationFailed
    else parse_deleted_assignment (body response) id)); [|done|done|].
  - intros resp s. by case_match.
  - intros resp [] H. split; [done|]. exists resp. case_match eqn:E; simplify_eq.
    split; [done|]. split; [by apply N.eqb_eq, negb_false_iff|done].
Qed.

Lemma create_assignment_shot config session u p e rec d :
  emits (create_assignment config session u p e rec d)
    (shot (fun c => call_op c = OpCreateAssignment u p e rec)
          (fun c id => confirmed_create (OpCreateAssignment u p e rec) id c) d).
Proof.
  unfold create_assignment. apply shot_lift. intros url _. apply shot_lift. intros headers _.
  apply shot_lift. intros b _.
  apply (shot_send _ _ _ (fun response =>
    if negb (status response =? STATUS_CREATED)%N then Err MutationFailed
    else parse_created_id (body response))); [|done|done|].
  - intros resp s. by case_match.
  - intros resp id H. split; [done|]. exists resp. case_match eqn:E; simplify_eq.
    split; [done|]. split; [by apply N.eqb_eq, negb_false_iff|done].
Qed.

Lemma create_user_shot config session name source d :
  emits (create_user config session name source d)
    (shot (fun c => call_op c = OpCreateUser name)
          (fun c id => confirmed_create (OpCreateUser name) id c) d).
Proof.
  unfold create_user. apply shot_lift. intros url _. apply shot_lift. intros headers _.
  apply shot_lift. intros b _.
  apply (shot_send _ _ _ (fun response =>
    if negb (status response =? STATUS_CREATED)%N then Err UserCreationFailed
    else map_err (fun _ => UserCreationFailed) (parse_created_id (body response)))); [|done|done|].
  - intros resp s. by case_match.
  - intros resp id H. split; [done|]. exists resp. case_match eqn:E; [done|].
    split; [done|]. split; [by apply N.eqb_eq, negb_false_iff|].
    destruct (parse_created_id (body resp)); simplify_eq/=; done.
Qed.

(** ** The deletion acknowledgement *)

Lemma visit_success_message expected text members :
  expected <> "message" ->
  visit_deletion_entry expected (Some true) (Some text) members = Some tt -> members = [].
Proof.
  intros Hne. destruct members as [|[k v] rest]; [done|]. simpl.
  by repeat case_bool_decide.
Qed.

Lemma visit_success expected members :
  expected <> "message" ->
  visit_deletion_entry expected (Some true) None members = Some tt ->
  exists text, members = [("message", VString text)].
Proof.
  intros Hne. destruct members as [|[k v] rest]; [done|]. simpl.
  repeat case_bool_decide; [done| |done]. destruct v; try done.
  intros ->%visit_success_message; [|done]. subst. eauto.
Qed.

Lemma visit_message expected text members :
  expected <> "message" ->
  visit_deletion_entry expected None (Some text) members = Some tt ->
  members = [(expected, VBool true)].
Proof.
  intros Hne. destruct members as [|[k v] rest]; [done|]. simpl.
  repeat case_bool_decide; try done. destruct v as [|[]| | | |]; try done.
  - intros ->%visit_success_message; [|done]. by subst.
  - destruct rest as [|[k' v'] rest]; [done|]. simpl. by repeat case_bool_decide.
Qed.

Lemma visit_failed expected message members :
  visit_deletion_entry expected (Some false) message members = None.
Proof.
  revert message. induction members as [|[k v] rest IH]; intros message; simpl; [done|].
  repeat case_bool_decide; try done. destruct message; [done|]. by destruct v.
Qed.

(** A deletion is acknowledged exactly by a one-element array whose
    only entry has the requested id mapped to [true] and one string message, in
    either order, with no other or repeated member. *)
Lemma deletion_acknowledgement_exact (b : bytes) (assignment_id : N) :
  (assignment_id <= U64_MAX)%N ->
  parse_deleted_assignment b assignment_id = Ok tt <->
  exists text,
    from_slice_tokens b = Some (VArray [VObject
      [(u64_to_string assignment_id, VBool true); ("message", VString text)]]) \/
    from_slice_tokens b = Some (VArray [VObject
      [("message", VString text); (u64_to_string assignment_id, VBool true)]]).
Proof.
  intros Hid. set (expected := u64_to_string assignment_id).
  assert (expected <> "message") as Hne.
  { intros E. pose proof (parse_u64_to_string _ Hid) as H. fold expected in H. by rewrite E in H. }
  unfold parse_deleted_assignment. rewrite ok_or_ok_inv. fold expected. split.
  - destruct (from_slice_tokens b) as [v|]; [|done]. simpl. unfold visit_deletion_response.
    destruct v as [| | | |[|[| | | | |members] [|]]|]; try done.
    destruct members as [|[k v] rest]; [done|]. simpl. repeat case_bool_decide; try done; subst.
    + destruct v as [|[]| | | |]; try done; [|by rewrite visit_failed].
      intros (text & ->)%visit_success; [|done]. eauto.
    + destruct v; try done. intros ->%visit_message; [|done]. eauto.
  - intros (text & [-> | ->]); simpl.
    + rewrite !bool_decide_true by done. rewrite bool_decide_false by done. done.
    + rewrite bool_decide_false by done. rewrite !bool_decide_true by done. done.
Qed.
End Mutation.

Definition sample_ack : Value :=
  VArray [VObject [("message", VString "deleted"); ("17", VBool true)]].
Definition sample_acks : Documents := mkDocuments [("ack", sample_ack)] [] [] [] [].

Lemma deletion_acknowledgement_exact_witness :
  parse_deleted_assignment (Deps := table_deps sample_acks) (as_bytes "ack") 17 = Ok tt /\
  exists text, Some sample_ack =
    Some (VArray [VObject [(u64_to_string 17, VBool true); ("message", VString text)]]) \/
    Some sample_ack =
    Some (VArray [VObject [("message", VString text); (u64_to_string 17, VBool true)]]).
Proof.
  assert (17 <= U64_MAX)%N as Hid by (by vm_compute).
  assert (parse_deleted_assignment (Deps := table_deps sample_acks) (as_bytes "ack") 17 = Ok tt)
    as Hok by (vm_compute; reflexivity).
  split; [exact Hok|].
  exact (proj1 (deletion_acknowledgement_exact (Deps := table_deps sample_acks)
    (as_bytes "ack") 17 Hid) Hok).
Defined.
