(* ===== verification/GlpiPayload.v ===== *)
(** * GLPI adapter: desired-state payload

    Models [crates/permissionsync-adapter-glpi/src/payload.rs]: the v1 payload
    is decoded strictly, empty selectors are refused, and the permissions are
    grouped by (entity, profile) with their recursive flags joined. *)
From S2P Require Import Prelude BTree Core Json Net GlpiBase.

Record CanonicalAssignment : Type := mkCanonical {
  ca_entity : string;
  ca_profile : string;
  ca_recursive : bool;
}.

(** The grouping identity of a raw permission and of a canonical assignment. *)
Definition raw_pair (p : RawPermission) : string * string := (rp_entity p, rp_profile p).
Definition ca_pair (a : CanonicalAssignment) : string * string := (ca_entity a, ca_profile a).

Definition empty_selector (p : RawPermission) : bool :=
  bool_decide (rp_entity p = "") || bool_decide (rp_profile p = "").

(** One iteration of the grouping loop: [entry(key).or_insert(false)] and the
    in-place disjunction. *)
Definition group_permission (groups : list ((string * string) * bool)) (p : RawPermission)
  : list ((string * string) * bool) :=
  bt_upsert (raw_pair p) false (fun canonical_recursive => canonical_recursive || rp_recursive p)
    groups.

Definition canonical_of (g : (string * string) * bool) : CanonicalAssignment :=
  mkCanonical g.1.1 g.1.2 g.2.

(** The grouping and collection of [parse_and_normalize]. *)
Definition normalize (permissions : list RawPermission) : list CanonicalAssignment :=
  canonical_of <$> foldl group_permission [] permissions.

Section Payload.
Context `{Deps : GlpiDeps}.

(** [parse_and_normalize]. *)
Definition parse_and_normalize (json : string) : result (list CanonicalAssignment) GlpiFailure :=
  let? raw := ok_or (from_str_payload json) InvalidPayload in
  if existsb empty_selector (rp_permissions raw) then Err InvalidPayload
  else Ok (normalize (rp_permissions raw)).
End Payload.

(** ** Facts *)

(** What the groups hold for one key: whether it occurs, and the disjunction of
    its flags. *)
Definition group_flag (permissions : list RawPermission) (k : string * string) : option bool :=
  if bool_decide (k ∈ raw_pair <$> permissions)
  then Some (existsb (fun p => bool_decide (raw_pair p = k) && rp_recursive p) permissions)
  else None.

Lemma groups_snoc permissions p :
  foldl group_permission [] (permissions ++ [p]) =
  group_permission (foldl group_permission [] permissions) p.
Proof. by rewrite foldl_app. Qed.

Lemma groups_wf permissions : bt_wf (foldl group_permission [] permissions).
Proof.
  induction permissions as [|p l IH] using rev_ind; [apply bt_wf_nil|].
  rewrite groups_snoc. by apply bt_upsert_wf.
Qed.

Lemma group_flag_snoc permissions p k :
  group_flag (permissions ++ [p]) k =
  if bool_decide (raw_pair p = k)
  then Some (default false (group_flag permissions k) || rp_recursive p)
  else group_flag permissions k.
Proof.
  unfold group_flag. rewrite fmap_app, existsb_app. simpl. rewrite orb_false_r.
  assert (k ∉ raw_pair <$> permissions ->
    existsb (fun p => bool_decide (raw_pair p = k) && rp_recursive p) permissions = false) as Hex.
  { intros Hk. apply not_true_is_false. intros (q & Hq & Hb)%existsb_exists.
    apply andb_true_iff in Hb as [Hb _]. apply bool_decide_eq_true in Hb as <-.
    apply Hk. apply list_elem_of_In in Hq. by apply list_elem_of_fmap_2. }
  destruct (bool_decide (raw_pair p = k)) eqn:E.
  - apply bool_decide_eq_true in E. rewrite bool_decide_true by (subst; set_solver). simpl.
    case_bool_decide as Hin; simpl; [done|]. by rewrite Hex.
  - apply bool_decide_eq_false in E. simpl. rewrite orb_false_r.
    rewrite (bool_decide_ext _ (k ∈ raw_pair <$> permissions)); [done|]. set_solver.
Qed.

Lemma groups_lookup permissions k :
  bt_lookup k (foldl group_permission [] permissions) = group_flag permissions k.
Proof.
  induction permissions as [|p l IH] using rev_ind; [done|].
  rewrite groups_snoc, group_flag_snoc.
  set (groups := foldl group_permission [] l) in *. unfold group_permission, bt_upsert.
  case_bool_decide as E.
  - subst. by rewrite bt_lookup_insert_eq, IH.
  - by rewrite bt_lookup_insert_ne.
Qed.

Lemma normalize_pairs permissions :
  ca_pair <$> normalize permissions = (foldl group_permission [] permissions).*1.
Proof.
  unfold normalize. rewrite <- list_fmap_compose. apply list_fmap_ext. by intros ? [[e p] r] _.
Qed.

Lemma normalize_nodup permissions : NoDup (ca_pair <$> normalize permissions).
Proof. rewrite normalize_pairs. apply bt_wf_nodup, groups_wf. Qed.

Lemma elem_of_normalize permissions a :
  a ∈ normalize permissions <-> group_flag permissions (ca_pair a) = Some (ca_recursive a).
Proof.
  rewrite <- groups_lookup, <- (bt_elem_lookup _ _ _ (groups_wf permissions)).
  unfold normalize. rewrite list_elem_of_fmap. destruct a as [e p r]. split.
  - by intros ([[e' p'] r'] & [= -> -> ->] & Hin).
  - intros Hin. by exists ((e, p), r).
Qed.

Lemma group_flag_spec permissions k r :
  group_flag permissions k = Some r <->
  (exists p, p ∈ permissions /\ raw_pair p = k) /\
  (r = true <-> exists p, p ∈ permissions /\ raw_pair p = k /\ rp_recursive p = true).
Proof.
  unfold group_flag.
  assert (existsb (fun p => bool_decide (raw_pair p = k) && rp_recursive p) permissions = true <->
    exists p, p ∈ permissions /\ raw_pair p = k /\ rp_recursive p = true) as Hex.
  { rewrite existsb_exists. setoid_rewrite <- list_elem_of_In.
    setoid_rewrite andb_true_iff. setoid_rewrite bool_decide_eq_true. naive_solver. }
  case_bool_decide as Hin; rewrite list_elem_of_fmap in Hin.
  - rewrite <- Hex. split.
    + intros [= <-]. naive_solver.
    + intros [_ Hr]. f_equal. by apply eq_true_iff_eq.
  - naive_solver.
Qed.

Lemma normalize_ext l1 l2 : (forall p, p ∈ l1 <-> p ∈ l2) -> normalize l1 = normalize l2.
Proof.
  intros Heq. unfold normalize. f_equal. apply bt_ext; [apply groups_wf..|].
  intros k. rewrite !groups_lookup. apply option_eq. intros r.
  rewrite !group_flag_spec. by setoid_rewrite Heq.
Qed.

Lemma existsb_ext_elem {A} (f : A -> bool) l1 l2 :
  (forall p, p ∈ l1 <-> p ∈ l2) -> existsb f l1 = existsb f l2.
Proof.
  intros Heq. apply eq_true_iff_eq. rewrite !existsb_exists.
  setoid_rewrite <- list_elem_of_In. by setoid_rewrite Heq.
Qed.

Lemma parsed_pairs_nodup `{Deps : GlpiDeps} json desired :
  parse_and_normalize json = Ok desired -> NoDup (ca_pair <$> desired).
Proof.
  intros (raw & _ & H)%rbind_ok_inv. destruct (existsb _ _); [done|].
  injection H as <-. apply normalize_nodup.
Qed.

(** ** Properties *)

(** Parsing fails with [InvalidPayload] exactly when the document
    does not decode or one selector is empty.  Otherwise the result has one
    assignment per distinct (entity, profile) pair, in strictly ascending order,
    recursive exactly when one permission of the pair is. *)
Lemma payload_normal_form `{Deps : GlpiDeps} (json : string) :
  match from_str_payload json with
  | None => parse_and_normalize json = Err InvalidPayload
  | Some raw =>
      ((exists p, p ∈ rp_permissions raw /\ (rp_entity p = "" \/ rp_profile p = "")) /\
       parse_and_normalize json = Err InvalidPayload) \/
      (Forall (fun p => rp_entity p <> "" /\ rp_profile p <> "") (rp_permissions raw) /\
       exists desired, parse_and_normalize json = Ok desired /\
         StronglySorted key_lt (ca_pair <$> desired) /\
         forall a, a ∈ desired <->
           (exists p, p ∈ rp_permissions raw /\ raw_pair p = ca_pair a) /\
           (ca_recursive a = true <->
            exists p, p ∈ rp_permissions raw /\ raw_pair p = ca_pair a /\ rp_recursive p = true))
  end.
Proof.
  unfold parse_and_normalize. destruct (from_str_payload json) as [raw|]; [|done]. simpl.
  destruct (existsb empty_selector _) eqn:E; [left|right].
  - apply existsb_exists in E as (p & Hp%list_elem_of_In & Hb).
    split; [|done]. exists p. split; [done|]. unfold empty_selector in Hb.
    apply orb_true_iff in Hb as [Hb|Hb]; apply bool_decide_eq_true in Hb; auto.
  - split.
    + apply Forall_forall. intros p Hp. apply not_true_iff_false in E.
      rewrite existsb_exists in E. split; intros Hempty; apply E; exists p;
        (split; [by apply list_elem_of_In|]); unfold empty_selector;
        rewrite (bool_decide_true _ Hempty); [done|by rewrite orb_true_r].
    + eexists. split; [done|]. rewrite normalize_pairs. split; [apply groups_wf|].
      intros a. rewrite elem_of_normalize. apply group_flag_spec.
Qed.

(** Two documents holding the same set of permissions, in any
    order and with any repetition, normalize to the same result. *)
Lemma payload_order_independent `{Deps : GlpiDeps} (json1 json2 : string) (raw1 raw2 : RawPayload) :
  from_str_payload json1 = Some raw1 ->
  from_str_payload json2 = Some raw2 ->
  (forall p, p ∈ rp_permissions raw1 <-> p ∈ rp_permissions raw2) ->
  parse_and_normalize json1 = parse_and_normalize json2.
Proof.
  intros H1 H2 Heq. unfold parse_and_normalize. rewrite H1, H2. simpl.
  by rewrite (existsb_ext_elem _ _ _ Heq), (normalize_ext _ _ Heq).
Qed.

Definition sample_permissions : list RawPermission :=
  [mkRawPermission "Root > A" "Tech" false; mkRawPermission "Root" "Admin" false;
   mkRawPermission "Root > A" "Tech" true].
Definition sample_payloads : Documents :=
  mkDocuments [] [("first", mkRawPayload sample_permissions);
    ("second", mkRawPayload (rev sample_permissions))] [] [] [].

Lemma payload_order_independent_witness :
  parse_and_normalize (Deps := table_deps sample_payloads) "first" =
  parse_and_normalize (Deps := table_deps sample_payloads) "second".
Proof.
  apply (payload_order_independent (Deps := table_deps sample_payloads) "first" "second"
    (mkRawPayload sample_permissions) (mkRawPayload (rev sample_permissions))).
  - reflexivity.
  - reflexivity.
  - intros p. unfold rp_permissions. by rewrite <- (Permutation_rev sample_permissions).
Defined.

(** The merged payload of the sample: two assignments, the repeated pair recursive. *)
Example sample_normalized :
  parse_and_normalize (Deps := table_deps sample_payloads) "first" =
  Ok [mkCanonical "Root" "Admin" false; mkCanonical "Root > A" "Tech" true].
Proof. reflexivity. Qed.
