(* ===== verification/GlpiSearch.v ===== *)
(** * GLPI adapter: search

    Models [crates/permissionsync-adapter-glpi/src/search.rs]: search-option
    discovery, the paginated search, exact adapter-side matching, and the
    complete read of a user's [Profile_User] rows. *)
From S2P Require Import Prelude Core Json Net GlpiBase GlpiSession GlpiPlan.

(** ** Search criterion *)

Definition is_php_trim_byte (b : ascii) : bool :=
  bool_decide (N_of_ascii b ∈ [32; 9; 10; 13; 0; 11]%N).

Definition exact_search_query_value (selector : string) : string :=
  let starts_with_php_trim := default false (is_php_trim_byte <$> head (as_bytes selector)) in
  let ends_with_php_trim := default false (is_php_trim_byte <$> last (as_bytes selector)) in
  "^" +:+ (if starts_with_php_trim then "%" else "") +:+ selector +:+
  (if ends_with_php_trim then "%" else "") +:+ "$".

(** ** Search options *)

Abbreviation SearchOptions := (gmap string N).

Definition require (options : SearchOptions) (uid : string) : result N GlpiFailure :=
  ok_or (options !! uid) SearchMetadataUnavailable.

(** The required [uid] and the option id one member of the metadata claims, if
    it is such a claim. *)
Definition option_claim (required_uids : list string) (member : string * Value) : option (string * N) :=
  match as_object member.2 with
  | None => None
  | Some entry =>
      match get_str entry "uid" with
      | None => None
      | Some uid =>
          match List.find (fun candidate => bool_decide (candidate = uid)) required_uids with
          | None => None
          | Some required_uid =>
              match parse_u64 member.1 with
              | None => None
              | Some option_id => Some (required_uid, option_id)
              end
          end
      end
  end.

(** The loop over the members: a second claim of a required [uid] is an error. *)
Fixpoint collect_options (required_uids : list string) (members : Object) (found : SearchOptions)
  : result SearchOptions GlpiFailure :=
  match members with
  | [] => Ok found
  | member :: rest =>
      match option_claim required_uids member with
      | None => collect_options required_uids rest found
      | Some (uid, option_id) =>
          match found !! uid with
          | Some _ => Err SearchMetadataUnavailable
          | None => collect_options required_uids rest (<[uid := option_id]> found)
          end
      end
  end.

Definition select_options (required_uids : list string) (members : Object)
  : result SearchOptions GlpiFailure :=
  let? found := collect_options required_uids members ∅ in
  if forallb (fun uid => bool_decide (is_Some (found !! uid))) required_uids
  then Ok found else Err SearchMetadataUnavailable.

(** ** Search pages *)

Definition PAGE_SIZE : N := 50.

Record SearchPage : Type := mkSearchPage {
  page_total_count : N;
  page_count : N;
  page_returned_end : N;
  page_data : list Value;
}.

Section Search.
Context `{Deps : GlpiDeps}.

(** [parse_search_page]. *)
Definition parse_search_page (b : bytes) (requested_start requested_end : N)
  : result SearchPage GlpiFailure :=
  let? wire := ok_or (from_slice_search_page b) SearchPagination in
  let total_count := wire_totalcount wire in
  let count := wire_count wire in
  if (total_count =? 0)%N then
    if negb (requested_start =? 0)%N || negb (count =? 0)%N ||
       negb (bool_decide (wire_content_range wire = "0--1/0")) ||
       negb (match wire_data wire with Missing => true | Present _ => false end)
    then Err SearchPagination
    else Ok (mkSearchPage total_count count 0 [])
  else
    match wire_data wire with
    | Missing => Err SearchPagination
    | Present data =>
        if (count =? 0)%N || negb (count =? N.of_nat (length data))%N || (total_count <? count)%N
        then Err SearchPagination
        else
          let? (range, range_total) :=
            ok_or (rsplit_once "/" (wire_content_range wire)) SearchPagination in
          let? range_total := ok_or (parse_u64 range_total) SearchPagination in
          let? (returned_start, returned_end) := ok_or (split_once "-" range) SearchPagination in
          let? returned_start := ok_or (parse_u64 returned_start) SearchPagination in
          let? returned_end := ok_or (parse_u64 returned_end) SearchPagination in
          if negb (range_total =? total_count)%N
             || negb (returned_start =? requested_start)%N
             || (returned_end <? returned_start)%N
             || (requested_end <? returned_end)%N
             || (total_count <=? returned_end)%N
             || negb (bool_decide
                  (checked_sub returned_end returned_start ≫= (fun width => checked_add width 1)
                   = Some count))
             || (negb (returned_end =? requested_end)%N && negb (returned_end =? total_count - 1)%N)
          then Err SearchPagination
          else Ok (mkSearchPage total_count count returned_end data)
    end.
End Search.

(** One raw row, keyed by search-option id. *)
Abbreviation Row := (gmap N Value).

Fixpoint insert_cells (members : Object) (row : Row) : option Row :=
  match members with
  | [] => Some row
  | (key, value) :: rest =>
      match parse_u64 key with
      | Some option_id => insert_cells rest (<[option_id := value]> row)
      | None => None
      end
  end.

Definition read_row (entry : Value) : option Row :=
  match as_object entry with Some members => insert_cells members ∅ | None => None end.

(** The pagination loop's mutable locals. *)
Record PageState : Type := mkPageState {
  ps_rows : list Row;
  ps_start : N;
  ps_expected_total : option N;
}.

(** [forcedisplay.iter().enumerate()]. *)
Fixpoint append_forcedisplay `{Deps : GlpiDeps} (index : N) (fields : list N) (url : Url) : Url :=
  match fields with
  | [] => url
  | field :: rest =>
      append_forcedisplay (index + 1) rest
        (url_append_pair url ("forcedisplay[" +:+ u64_to_string index +:+ "]") (u64_to_string field))
  end.

(** One search: everything that does not change from page to page. *)
Record SearchQuery : Type := mkQuery {
  itemtype : string;
  criterion_field : N;
  criterion_value : string;
  forcedisplay : list N;
  sort_field : N;
  is_deleted : option bool;
}.

Section Pages.
Context `{Deps : GlpiDeps} {W : Type} `{!GlpiWorld W}.
Abbreviation M := (Eff (Tr W GlpiCall)).

(** The query string of one page. *)
Definition page_url (q : SearchQuery) (start last : N) (url : Url) : Url :=
  let url := url_append_pair url "range" (u64_to_string start +:+ "-" +:+ u64_to_string last) in
  let url := url_append_pair url "criteria[0][field]" (u64_to_string (criterion_field q)) in
  let url := url_append_pair url "criteria[0][searchtype]" "contains" in
  let url := url_append_pair url "criteria[0][value]" (exact_search_query_value (criterion_value q)) in
  let url := url_append_pair url "sort" (u64_to_string (sort_field q)) in
  let url := url_append_pair url "order" "ASC" in
  let url := match is_deleted q with
    | Some flag => url_append_pair url "is_deleted" (if flag then "1" else "0")
    | None => url
    end in
  append_forcedisplay 0 (forcedisplay q) url.

(** The request of one page. *)
Definition page_request (config : ValidatedConfig) (session : GlpiSession) (q : SearchQuery)
    (start last : N) : result HttpRequest GlpiFailure :=
  let? url := join_base config ("search/" +:+ itemtype q) in
  let? headers := session_headers session config in
  Ok (mkHttpRequest GET (page_url q start last url) headers None).

(** What the loop does with one response: accumulate, then break ([inr]) or
    continue ([inl]). *)
Definition accept_page (st : PageState) (last : N) (response : RawResponse)
  : result (PageState + list Row) GlpiFailure :=
  let? page := parse_search_page (body response) (ps_start st) last in
  let expected_status :=
    if (page_count page =? page_total_count page)%N then STATUS_OK else STATUS_PARTIAL_CONTENT in
  if negb (status response =? expected_status)%N then Err SearchPagination else
  let? expected_total :=
    match ps_expected_total st with
    | Some expected =>
        if negb (expected =? page_total_count page)%N then Err SearchPagination else Ok (Some expected)
    | None => Ok (Some (page_total_count page))
    end in
  let? new_rows := ok_or (mapM read_row (page_data page)) SearchPagination in
  let rows := ps_rows st ++ new_rows in
  if (page_total_count page =? 0)%N then Ok (inr rows) else
  if negb (N.of_nat (length rows) =? saturating_add (page_returned_end page) 1)%N
  then Err SearchPagination else
  if (N.of_nat (length rows) =? page_total_count page)%N then Ok (inr rows) else
  let? start := ok_or (checked_add (page_returned_end page) 1) SearchPagination in
  Ok (inl (mkPageState rows start expected_total)).

(** One iteration of the pagination loop. *)
Definition search_page_step (config : ValidatedConfig) (session : GlpiSession) (q : SearchQuery)
    (context : SynchronizationContext) (st : PageState)
  : M (result (PageState + list Row) GlpiFailure) :=
  let! last := elift (ok_or (checked_add (ps_start st) (PAGE_SIZE - 1)) SearchPagination) in
  let! request := elift (page_request config session q (ps_start st) last) in
  let! window := effective_deadline context (operation_timeout config) in
  let! response := send (OpSearch (itemtype q) (ps_start st) last) request window in
  elift (accept_page st last response).

(** Every iteration advances [start] by a full page below 2^64, so 2^64
    iterations are never used up. *)
Definition PAGE_FUEL : positive := 18446744073709551616.

Definition search_loop (config : ValidatedConfig) (session : GlpiSession) (q : SearchQuery)
    (context : SynchronizationContext) : M (result (PageState + list Row) GlpiFailure) :=
  iterate PAGE_FUEL (search_page_step config session q context) (mkPageState [] 0 None).

(** [search_all_pages].  The [inl] arm is unreachable ([search_loop_breaks]). *)
Definition search_all_pages (config : ValidatedConfig) (session : GlpiSession) (q : SearchQuery)
    (context : SynchronizationContext) : M (result (list Row) GlpiFailure) :=
  let! o := search_loop config session q context in
  match o with inr rows => eret (Ok rows) | inl _ => eret (Err SearchPagination) end.
End Pages.

(** ** Exact matching *)

(** [required_string_field]. *)
Definition required_string_field (row : Row) (field : N) : result string GlpiFailure :=
  ok_or (row !! field ≫= as_str) SearchPagination.

(** [numeric_id]. *)
Definition numeric_id (row : Row) (field : N) (allow_zero : bool) : option N :=
  match row !! field ≫= (fun value =>
      match value with
      | VNumber number => number_as_u64 number
      | VString text => parse_u64 text
      | _ => None
      end) with
  | Some id => if allow_zero || negb (id =? 0)%N then Some id else None
  | None => None
  end.

(** The matching loop shared by [resolve_exact_id], [exact_positive_ids] and
    [read_current_assignments].  The [seen] set always holds the elements of
    [matches]. *)
Fixpoint exact_ids (id_field name_field : N) (selector : string) (allow_zero : bool)
    (rows : list Row) (matches : list N) : result (list N) GlpiFailure :=
  match rows with
  | [] => Ok matches
  | row :: rest =>
      let? name := required_string_field row name_field in
      if bool_decide (name = selector) then
        let? id := ok_or (numeric_id row id_field allow_zero) MalformedReference in
        exact_ids id_field name_field selector allow_zero rest
          (if bool_decide (id ∈ matches) then matches else matches ++ [id])
      else exact_ids id_field name_field selector allow_zero rest matches
  end.

(** [exact_positive_ids]. *)
Definition exact_positive_ids (rows : list Row) (id_field name_field : N) (selector : string)
  : result (list N) GlpiFailure :=
  exact_ids id_field name_field selector false rows [].

(** The selection at the end of [resolve_exact_id]. *)
Definition only_match (matches : list N) : result N GlpiFailure :=
  match matches with
  | [] => Err MissingReference
  | [only] => Ok only
  | _ => Err AmbiguousReference
  end.

(** The selection at the end of [resolve_user_id]. *)
Definition select_user (active_matches deleted_matches : list N) : result (option N) GlpiFailure :=
  if negb (bool_decide (deleted_matches = [])) || (1 <? length active_matches)
  then Err AmbiguousReference else Ok (head active_matches).

(** ** Profile_User items *)

Record ProfileUserItem : Type := mkItem {
  item_users_id : N;
  item_profiles_id : N;
  item_entities_id : N;
  item_is_recursive : bool;
}.

Definition positive_u64 (o : Object) (key : string) : option N :=
  match get_u64 o key with
  | Some n => if negb (n =? 0)%N then Some n else None
  | None => None
  end.

(** The validation of one item body in [read_profile_user_item]. *)
Definition parse_profile_user_item (object : Object) (id : N) : result ProfileUserItem GlpiFailure :=
  let? item_id := ok_or (positive_u64 object "id") SearchPagination in
  if negb (item_id =? id)%N then Err SearchPagination else
  let? users_id := ok_or (positive_u64 object "users_id") SearchPagination in
  let? profiles_id := ok_or (positive_u64 object "profiles_id") SearchPagination in
  let? entities_id := ok_or (get_u64 object "entities_id") SearchPagination in
  let? is_recursive :=
    match object_get object "is_recursive" with
    | Some (VNumber number) =>
        if bool_decide (number_as_u64 number = Some 0%N) then Ok false
        else if bool_decide (number_as_u64 number = Some 1%N) then Ok true
        else Err SearchPagination
    | _ => Err SearchPagination
    end in
  Ok (mkItem users_id profiles_id entities_id is_recursive).

Section Resolve.
Context `{Deps : GlpiDeps} {W : Type} `{!GlpiWorld W}.
Abbreviation M := (Eff (Tr W GlpiCall)).

(** [search::resolve_search_options]. *)
Definition accept_search_options (required_uids : list string) (response : RawResponse)
  : result SearchOptions GlpiFailure :=
  if negb (status response =? STATUS_OK)%N then Err SearchMetadataUnavailable else
  let? parsed := ok_or (from_slice_value (body response)) SearchMetadataUnavailable in
  let? object := ok_or (as_object parsed) SearchMetadataUnavailable in
  select_options required_uids object.

Definition search_resolve_search_options (config : ValidatedConfig) (session : GlpiSession)
    (type_name : string) (required_uids : list string) (window : Z)
  : M (result SearchOptions GlpiFailure) :=
  let! url := elift (join_base config ("listSearchOptions/" +:+ type_name)) in
  let! headers := elift (session_headers session config) in
  let! response := send (OpListSearchOptions type_name) (mkHttpRequest GET url headers None) window in
  elift (accept_search_options required_uids response).

(** [resolve_exact_id]. *)
Definition exact_query (type_name : string) (id_field name_field : N) (selector : string)
    (deleted : option bool) : SearchQuery :=
  mkQuery type_name name_field selector [id_field; name_field] id_field deleted.

Definition resolve_exact_id (config : ValidatedConfig) (session : GlpiSession) (type_name : string)
    (id_field name_field : N) (selector : string) (allow_zero_id : bool)
    (context : SynchronizationContext) : M (result N GlpiFailure) :=
  let! rows := search_all_pages config session
    (exact_query type_name id_field name_field selector None) context in
  elift (let? matches := exact_ids id_field name_field selector allow_zero_id rows [] in
         only_match matches).

(** [resolve_entity_id], [resolve_profile_id]. *)
Definition resolve_entity_id (config : ValidatedConfig) (session : GlpiSession)
    (options : SearchOptions) (selector : string) (context : SynchronizationContext)
  : M (result N GlpiFailure) :=
  let! id_field := elift (require options "Entity.id") in
  let! name_field := elift (require options "Entity.completename") in
  resolve_exact_id config session "Entity" id_field name_field selector true context.

Definition resolve_profile_id (config : ValidatedConfig) (session : GlpiSession)
    (options : SearchOptions) (selector : string) (context : SynchronizationContext)
  : M (result N GlpiFailure) :=
  let! id_field := elift (require options "Profile.id") in
  let! name_field := elift (require options "Profile.name") in
  resolve_exact_id config session "Profile" id_field name_field selector false context.

(** [resolve_user_id]. *)
Definition resolve_user_id (config : ValidatedConfig) (session : GlpiSession)
    (options : SearchOptions) (username : string) (context : SynchronizationContext)
  : M (result (option N) GlpiFailure) :=
  let! id_field := elift (require options "User.id") in
  let! name_field := elift (require options "User.name") in
  let! active_rows := search_all_pages config session
    (exact_query "User" id_field name_field username (Some false)) context in
  let! deleted_rows := search_all_pages config session
    (exact_query "User" id_field name_field username (Some true)) context in
  elift (let? active_matches := exact_positive_ids active_rows id_field name_field username in
         let? deleted_matches := exact_positive_ids deleted_rows id_field name_field username in
         select_user active_matches deleted_matches).

(** [read_profile_user_item]. *)
Definition accept_item (id : N) (response : RawResponse) : result ProfileUserItem GlpiFailure :=
  if negb (status response =? STATUS_OK)%N then Err SearchPagination else
  let? parsed := ok_or (from_slice_value (body response)) SearchPagination in
  let? object := ok_or (as_object parsed) SearchPagination in
  parse_profile_user_item object id.

Definition read_profile_user_item (config : ValidatedConfig) (session : GlpiSession) (id : N)
    (context : SynchronizationContext) : M (result ProfileUserItem GlpiFailure) :=
  let! url := elift (join_base config ("Profile_User/" +:+ u64_to_string id)) in
  let! headers := elift (session_headers session config) in
  let! window := effective_deadline context (operation_timeout config) in
  let! response := send (OpReadItem id) (mkHttpRequest GET url headers None) window in
  elift (accept_item id response).

(** The item loop of [read_current_assignments]. *)
Fixpoint read_items (config : ValidatedConfig) (session : GlpiSession) (user_id : N)
    (context : SynchronizationContext) (candidate_ids : list N) (current : list CurrentRow)
  : M (result (list CurrentRow) GlpiFailure) :=
  match candidate_ids with
  | [] => eret (Ok current)
  | candidate_id :: rest =>
      let! item := read_profile_user_item config session candidate_id context in
      if negb (item_users_id item =? user_id)%N then eret (Err SearchPagination) else
      read_items config session user_id context rest
        (current ++ [mkRow candidate_id (item_entities_id item) (item_profiles_id item)
                       (item_is_recursive item)])
  end.

(** [read_current_assignments]. *)
Definition read_current_assignments (config : ValidatedConfig) (session : GlpiSession)
    (options : SearchOptions) (username : string) (user_id : N) (context : SynchronizationContext)
  : M (result (list CurrentRow) GlpiFailure) :=
  let! id_field := elift (require options "Profile_User.id") in
  let! user_name_field := elift (require options "Profile_User.User.name") in
  let! rows := search_all_pages config session
    (exact_query "Profile_User" id_field user_name_field username None) context in
  let! candidate_ids := elift (exact_ids id_field user_name_field username false rows []) in
  read_items config session user_id context candidate_ids [].
End Resolve.

Definition REQUIRED_ENTITY_UIDS : list string := ["Entity.id"; "Entity.completename"].
Definition REQUIRED_PROFILE_UIDS : list string := ["Profile.id"; "Profile.name"].
Definition REQUIRED_USER_UIDS : list string := ["User.id"; "User.name"].
Definition REQUIRED_PROFILE_USER_UIDS : list string :=
  ["Profile_User.id"; "Profile_User.User.name"].

(** ** Facts: pages *)

(** Calls that read and never change the target. *)
Definition reads `{Deps : GlpiDeps} (c : GlpiCall) : Prop :=
  match call_op c with
  | OpListSearchOptions _ | OpSearch _ _ _ | OpReadItem _ => True
  | _ => False
  end.

Section PageFacts.
Context `{Deps : GlpiDeps}.

Definition sound_page (start last : N) (page : SearchPage) : Prop :=
  let total := page_total_count page in
  let count := N.of_nat (length (page_data page)) in
  page_count page = count /\
  ((total = 0 /\ start = 0 /\ count = 0)%N \/
   (0 < count /\ page_returned_end page + 1 = start + count /\
    page_returned_end page <= last /\ page_returned_end page < total /\
    (page_returned_end page = last \/ page_returned_end page + 1 = total))%N).

Lemma parse_search_page_sound b start last page :
  parse_search_page b start last = Ok page -> sound_page start last page.
Proof.
  unfold parse_search_page. intros (wire & _ & H)%rbind_ok_inv.
  destruct (N.eqb_spec (wire_totalcount wire) 0) as [Hz|Hz].
  { destruct (_ || _) eqn:E in H; [done|]. injection H as <-.
    apply orb_false_iff in E as [E _]. apply orb_false_iff in E as [E _].
    apply orb_false_iff in E as [E1 E2]. apply negb_false_iff, N.eqb_eq in E1, E2.
    split; [done|]. by left. }
  destruct (wire_data wire) as [|data]; [done|].
  destruct (_ || _ || _) eqn:E in H; [done|].
  apply orb_false_iff in E as [E E3]. apply orb_false_iff in E as [E1 E2].
  apply N.eqb_neq in E1. apply negb_false_iff, N.eqb_eq in E2. apply N.ltb_ge in E3.
  apply rbind_ok_inv in H as ([range rt] & _ & H). apply rbind_ok_inv in H as (range_total & _ & H).
  apply rbind_ok_inv in H as ([rs re] & _ & H). apply rbind_ok_inv in H as (s & _ & H).
  apply rbind_ok_inv in H as (e & _ & H).
  destruct (_ || _) eqn:E in H; [done|]. injection H as <-. rewrite !orb_false_iff in E.
  destruct E as ((((((F1 & F2) & F3) & F4) & F5) & F6) & F7).
  apply negb_false_iff, N.eqb_eq in F1, F2. apply N.ltb_ge in F3, F4. apply N.leb_gt in F5.
  apply negb_false_iff, bool_decide_eq_true in F6. unfold checked_sub, checked_add in F6.
  apply N.leb_le in F3 as F3'. rewrite F3' in F6. simpl in F6. case_match; [|done].
  injection F6 as F6. split; [done|]. right. simpl. subst s.
  apply andb_false_iff in F7 as [F7|F7]; apply negb_false_iff, N.eqb_eq in F7; lia.
Qed.

Lemma accept_page_spec st last response o :
  accept_page st last response = Ok o ->
  last = (ps_start st + 49)%N -> N.of_nat (length (ps_rows st)) = ps_start st ->
  exists page new,
    parse_search_page (body response) (ps_start st) last = Ok page /\
    mapM read_row (page_data page) = Some new /\
    (forall t, ps_expected_total st = Some t -> page_total_count page = t) /\
    match o with
    | inl st' =>
        st' = mkPageState (ps_rows st ++ new) (ps_start st + 50) (Some (page_total_count page)) /\
        length new = 50 /\
        (ps_start st + 50 < page_total_count page)%N /\ (ps_start st + 50 <= U64_MAX)%N
    | inr rows =>
        rows = ps_rows st ++ new /\ N.of_nat (length rows) = page_total_count page
    end.
Proof.
  intros H -> Hlen. unfold accept_page in H.
  apply rbind_ok_inv in H as (page & Hpage & H). pose proof (parse_search_page_sound _ _ _ _ Hpage) as [Hc Hs].
  destruct (negb _) in H; [done|].
  apply rbind_ok_inv in H as (expected & Hexp & H).
  apply rbind_ok_inv in H as (new & Hnew & H). apply ok_or_ok_inv in Hnew.
  exists page, new. split; [done|]. split; [done|].
  assert (expected = Some (page_total_count page) /\
    forall t, ps_expected_total st = Some t -> page_total_count page = t) as [-> Ht].
  { destruct (ps_expected_total st) as [t|]; [|naive_solver].
    destruct (N.eqb_spec t (page_total_count page)); simpl in Hexp; naive_solver. }
  split; [done|].
  pose proof (length_mapM _ _ _ Hnew) as Hl. rewrite length_app in H.
  destruct (N.eqb_spec (page_total_count page) 0) as [Hz|Hz].
  { injection H as <-. split; [done|]. rewrite length_app. lia. }
  destruct Hs as [|(Hpos & Hre & Hle & Hlt & Hend)]; [lia|].
  destruct (negb _) in H; [done|].
  destruct (N.eqb_spec (N.of_nat (length (ps_rows st) + length new)) (page_total_count page)) as [Ee|Ee].
  { injection H as <-. split; [done|]. by rewrite length_app. }
  apply rbind_ok_inv in H as (s & Hstart & [= <-]). apply ok_or_ok_inv in Hstart.
  unfold checked_add in Hstart.
  destruct (N.leb_spec (page_returned_end page + 1) U64_MAX); simplify_eq.
  replace (page_returned_end page + 1)%N with (ps_start st + 50)%N by lia. split; [done|]. lia.
Qed.
End PageFacts.

(** ** Facts: complete searches *)

Section Complete.
Context `{Deps : GlpiDeps} (config : ValidatedConfig) (session : GlpiSession) (q : SearchQuery).

(** Call [c] asked for the page at [start] and was answered with its [rows]. *)
Definition answers_page (start total : N) (rows : list Row) (c : GlpiCall) : Prop :=
  call_op c = OpSearch (itemtype q) start (start + 49) /\
  page_request config session q start (start + 49) = Ok (call_request c) /\
  exists resp page, call_answer c = Ok resp /\
    parse_search_page (body resp) start (start + 49) = Ok page /\
    page_total_count page = total /\
    mapM read_row (page_data page) = Some rows.

(** [pages total cs rows]: the calls are the consecutive pages from row 0, every
    page but the last full, all reporting [total]; [rows] are their rows. *)
Inductive pages (total : N) : list GlpiCall -> list Row -> Prop :=
| pages_nil : pages total [] []
| pages_snoc cs rows c new :
    pages total cs rows ->
    length rows = 50 * length cs ->
    answers_page (N.of_nat (length rows)) total new c ->
    pages total (cs ++ [c]) (rows ++ new).

(** A complete search: at least one page, and as many rows as reported. *)
Definition complete_search (cs : list GlpiCall) (rows : list Row) : Prop :=
  cs <> [] /\ pages (N.of_nat (length rows)) cs rows.

Lemma pages_read total cs rows : pages total cs rows -> Forall reads cs.
Proof.
  induction 1 as [|cs rows c new _ IH _ (Hop & _)]; [done|].
  apply Forall_app. split; [done|]. constructor; [|done]. unfold reads. by rewrite Hop.
Qed.

Lemma complete_search_read cs rows : complete_search cs rows -> Forall reads cs.
Proof. intros [_ H]. by eapply pages_read. Qed.
End Complete.

Section SearchPhases.
Context `{Deps : GlpiDeps} {W : Type} `{!GlpiWorld W}.
Context (config : ValidatedConfig) (session : GlpiSession) (context : SynchronizationContext).
Abbreviation phase := (phase context config).
Abbreviation M := (Eff (Tr W GlpiCall)).

(** The loop invariant after [n] pages. *)
Definition page_invariant (q : SearchQuery) (n : N) (st : PageState) (cs : list GlpiCall) : Prop :=
  ps_start st = (50 * n)%N /\ N.of_nat (length (ps_rows st)) = ps_start st /\
  N.of_nat (length cs) = n /\ (ps_start st <= U64_MAX)%N /\
  match ps_expected_total st with
  | None => cs = [] /\ ps_rows st = []
  | Some total => pages config session q total cs (ps_rows st) /\ (ps_start st < total)%N
  end.

Lemma page_invariant_pages q n st cs total :
  page_invariant q n st cs -> (forall t, ps_expected_total st = Some t -> total = t) ->
  pages config session q total cs (ps_rows st).
Proof.
  intros (_ & _ & _ & _ & H) Ht. destruct (ps_expected_total st) as [t|].
  - rewrite (Ht t eq_refl). apply H.
  - destruct H as [-> ->]. constructor.
Qed.

Lemma page_invariant_read q n st cs : page_invariant q n st cs -> Forall reads cs.
Proof.
  intros (_ & _ & _ & _ & H). destruct (ps_expected_total st) as [t|].
  - eapply pages_read, H.
  - by destruct H as [-> _].
Qed.

Lemma search_page_step_phase q n st cs :
  page_invariant q n st cs ->
  emits (search_page_step (W := W) config session q context st)
    (phase (fun cs' => Forall reads (cs ++ cs'))
       (fun cs' o => match o with
          | inl st' => page_invariant q (n + 1) st' (cs ++ cs')
          | inr rows => complete_search config session q (cs ++ cs') rows
          end)).
Proof.
  intros HI. pose proof (page_invariant_read _ _ _ _ HI) as Hr.
  pose proof HI as (Hstart & Hlen & Hcs & Hmax & _). unfold search_page_step.
  apply phase_lift_try; [by rewrite app_nil_r|]. intros last Hlast%ok_or_ok_inv.
  unfold checked_add, PAGE_SIZE in Hlast. case_match; simplify_eq.
  apply phase_lift_try; [by rewrite app_nil_r|]. intros request Hreq.
  set (last := (ps_start st + (50 - 1))%N) in *.
  eapply phase_conseq.
  - eapply (phase_shot _ _ _ (fun c => reads c) (fun c o => exists resp,
      c = mkCall (OpSearch (itemtype q) (ps_start st) last) request (call_deadline c) (Ok resp) /\
      accept_page st last resp = Ok o)).
    intros d. eapply (shot_send _ _ _ (accept_page st last)); [done|done|done|].
    intros resp a Ha. eauto.
  - intros cs' [->|(c & -> & Hc)]; [by rewrite app_nil_r|].
    apply Forall_app. auto.
  - intros cs' o (c & -> & resp & Hc & Ho).
    apply accept_page_spec in Ho as (page & new & Hp & Hnew & Ht & Ho); [|done|done].
    assert (pages config session q (page_total_count page) (cs ++ [c]) (ps_rows st ++ new)) as Hpages.
    { apply pages_snoc; [by eapply page_invariant_pages|lia|]. rewrite Hlen, Hc.
      split; [done|]. split; [done|]. by exists resp, page. }
    destruct o as [st'|rows].
    + destruct Ho as (-> & Hnl & Hlt & Hle). unfold page_invariant. simpl.
      rewrite !length_app. simpl. split_and!; [lia|lia|lia|done|done|done].
    + destruct Ho as (-> & Hl). split; [by destruct cs|]. by rewrite Hl.
Qed.

Lemma search_loop_phase q :
  emits (search_loop (W := W) config session q context)
    (phase (Forall reads)
       (fun cs o => match o with
          | inl _ => False
          | inr rows => complete_search config session q cs rows
          end)).
Proof.
  eapply phase_conseq.
  - apply (phase_iterate context config _ (page_invariant q) _ _
      (fun n st cs => search_page_step_phase q n st cs) _ 0 _ []).
    split_and!; try done. 
  - done.
  - intros cs [st|rows] H; [|done]. destruct H as (Hs & _ & _ & Hmax & _).
    rewrite Hs in Hmax. unfold PAGE_FUEL, U64_MAX in Hmax. lia.
Qed.

Lemma search_all_pages_phase q :
  emits (search_all_pages (W := W) config session q context)
    (phase (Forall reads) (complete_search config session q)).
Proof.
  unfold search_all_pages. eapply phase_try; [apply search_loop_phase|done|].
  intros cs [st|rows] H; [done|]. apply phase_ok. by rewrite app_nil_r.
Qed.
End SearchPhases.

(** ** Facts: exact matching *)

Section Matching.
Context (id_field name_field : N) (selector : string) (allow_zero : bool).

(** The display name of a row, and the rows carrying the selector exactly. *)
Definition row_name (row : Row) : option string := row !! name_field ≫= as_str.
Definition exact_row (row : Row) : Prop := row_name row = Some selector.
Abbreviation id_of := (fun row => numeric_id row id_field allow_zero).

(** [ids] are the distinct ids of the exact rows of a reliable result set. *)
Definition exact_match (rows : list Row) (ids : list N) : Prop :=
  Forall (fun row => is_Some (row_name row)) rows /\
  Forall (fun row => exact_row row -> is_Some (id_of row)) rows /\
  NoDup ids /\
  forall id, id ∈ ids <-> exists row, row ∈ rows /\ exact_row row /\ id_of row = Some id.

Lemma exact_ids_sound rows matches ids :
  NoDup matches -> exact_ids id_field name_field selector allow_zero rows matches = Ok ids ->
  Forall (fun row => is_Some (row_name row)) rows /\
  Forall (fun row => exact_row row -> is_Some (id_of row)) rows /\
  NoDup ids /\
  forall id, id ∈ ids <->
    id ∈ matches \/ exists row, row ∈ rows /\ exact_row row /\ id_of row = Some id.
Proof.
  revert matches. induction rows as [|row rows IH]; intros matches Hnd H; simpl in H.
  { injection H as <-. split_and!; [done..|]. set_solver. }
  apply rbind_ok_inv in H as (name & Hname%ok_or_ok_inv & H).
  fold (row_name row) in Hname. rewrite !Forall_cons. case_bool_decide as Heq.
  - subst name. apply rbind_ok_inv in H as (id & Hid%ok_or_ok_inv & H).
    apply IH in H as (H1 & H2 & H3 & H4).
    2:{ case_bool_decide; [done|]. apply NoDup_app. split_and!; [done|set_solver|apply NoDup_singleton]. }
    split_and!; [by eexists|done|by eexists|done|done|]. intros id'. rewrite H4.
    assert (id' ∈ (if bool_decide (id ∈ matches) then matches else matches ++ [id]) <->
      id' ∈ matches \/ id' = id) as -> by (case_bool_decide; set_solver).
    setoid_rewrite elem_of_cons. unfold exact_row in *. naive_solver.
  - apply IH in H as (H1 & H2 & H3 & H4); [|done].
    assert (~ exact_row row) as Hne by (unfold exact_row; congruence).
    split_and!; [by eexists|done|done|done|done|]. intros id'. rewrite H4.
    setoid_rewrite elem_of_cons. naive_solver.
Qed.

Lemma exact_ids_complete rows matches :
  Forall (fun row => is_Some (row_name row)) rows ->
  Forall (fun row => exact_row row -> is_Some (id_of row)) rows ->
  exists ids, exact_ids id_field name_field selector allow_zero rows matches = Ok ids.
Proof.
  revert matches. induction rows as [|row rows IH]; intros matches; simpl; [eauto|].
  rewrite !Forall_cons. intros [[name Hname] H1] [Hid H2].
  unfold required_string_field. fold (row_name row). rewrite Hname. simpl.
  case_bool_decide as Heq; [|by apply IH]. subst name. destruct (Hid Hname) as [id ->]. simpl.
  by apply IH.
Qed.

Lemma exact_ids_match rows ids :
  exact_ids id_field name_field selector allow_zero rows [] = Ok ids -> exact_match rows ids.
Proof.
  intros (H1 & H2 & H3 & H4)%exact_ids_sound; [|constructor].
  split_and!; [done..|]. intros id. rewrite H4. set_solver.
Qed.

(** A unique exact reference: every row is reliable, and the exact rows name one
    and the same id. *)
Definition exact_reference (rows : list Row) (id : N) : Prop :=
  Forall (fun row => is_Some (row_name row)) rows /\
  Exists exact_row rows /\
  Forall (fun row => exact_row row -> id_of row = Some id) rows.

Definition select_exact (rows : list Row) : result N GlpiFailure :=
  let? matches := exact_ids id_field name_field selector allow_zero rows [] in only_match matches.

Lemma exact_match_singleton rows id :
  exact_match rows [id] <-> exact_reference rows id.
Proof.
  unfold exact_match, exact_reference. rewrite Exists_exists, !Forall_forall. split.
  - intros (H1 & H2 & _ & H4). split_and!; [done| |].
    + destruct (proj1 (H4 id) ltac:(set_solver)) as (row & ? & ? & ?). eauto.
    + intros row Hin Hx. destruct (H2 row Hin Hx) as [id' Hid']. rewrite Hid'. f_equal.
      apply list_elem_of_singleton, H4. eauto.
  - intros (H1 & (row & Hin & Hx) & H3). split_and!; [done|eauto|apply NoDup_singleton|].
    intros id'. rewrite list_elem_of_singleton. split; [naive_solver|].
    intros (row' & Hin' & Hx' & Hid'). specialize (H3 _ Hin' Hx'). congruence.
Qed.

Lemma select_exact_ok rows id : select_exact rows = Ok id <-> exact_reference rows id.
Proof.
  unfold select_exact. split.
  - intros (ids & Hids%exact_ids_match & Hone)%rbind_ok_inv.
    destruct ids as [|i [|]]; simplify_eq/=. by apply exact_match_singleton.
  - intros (H1 & H2 & H3).
    destruct (exact_ids_complete rows [] H1) as [ids Hids].
    { eapply Forall_impl; [exact H3|]. intros row H Hx. rewrite H; eauto. }
    rewrite Hids. simpl. apply exact_ids_match in Hids as (_ & _ & Hnd & Hel).
    rewrite Forall_forall in H3. apply Exists_exists in H2 as (row & Hin & Hx).
    assert (id ∈ ids) as Hid by (apply Hel; exists row; auto).
    assert (forall i, i ∈ ids -> i = id) as Hall.
    { intros i (r & Hr & Hxr & Hir)%Hel. specialize (H3 _ Hr Hxr). congruence. }
    destruct ids as [|i [|j ids]]; [by apply elem_of_nil in Hid| |].
    + by rewrite (Hall i) by set_solver.
    + exfalso. rewrite (Hall i), (Hall j) in Hnd by set_solver.
      apply NoDup_cons in Hnd as [Hn _]. set_solver.
Qed.
End Matching.

(** What a successful user lookup established about both result sets. *)
Definition user_lookup (id_field name_field : N) (username : string) (active deleted : list Row)
    (o : option N) : Prop :=
  Forall (fun row => ~ exact_row name_field username row) deleted /\
  match o with
  | Some id => exact_reference id_field name_field username false active id
  | None =>
      Forall (fun row => is_Some (row_name name_field row)) active /\
      Forall (fun row => ~ exact_row name_field username row) active
  end.

Lemma exact_match_nil idf nf sel z rows :
  exact_match idf nf sel z rows [] -> Forall (fun row => ~ exact_row nf sel row) rows.
Proof.
  intros (_ & H2 & _ & H4). rewrite Forall_forall in H2 |- *. intros row Hin Hx.
  destruct (H2 row Hin Hx) as [id Hid]. apply (not_elem_of_nil id), H4. eauto.
Qed.

Lemma select_user_sound idf nf username active deleted o :
  (let? active_matches := exact_positive_ids active idf nf username in
   let? deleted_matches := exact_positive_ids deleted idf nf username in
   select_user active_matches deleted_matches) = Ok o ->
  user_lookup idf nf username active deleted o.
Proof.
  intros (am & Ham%exact_ids_match & H)%rbind_ok_inv.
  apply rbind_ok_inv in H as (dm & Hdm%exact_ids_match & H). unfold select_user in H.
  destruct (_ || _) eqn:E; [done|]. injection H as <-. apply orb_false_iff in E as [E1 E2].
  apply negb_false_iff, bool_decide_eq_true in E1 as ->. apply Nat.ltb_ge in E2.
  split; [by eapply exact_match_nil|].
  destruct am as [|id [|]]; simpl in E2 |- *; [|by apply exact_match_singleton|lia].
  split; [apply Ham|by eapply exact_match_nil].
Qed.

(** ** Facts: resolution *)

Section ResolvePhases.
Context `{Deps : GlpiDeps} {W : Type} `{!GlpiWorld W}.
Context (config : ValidatedConfig) (session : GlpiSession) (context : SynchronizationContext).
Abbreviation phase := (phase context config).
Abbreviation M := (Eff (Tr W GlpiCall)).

Lemma search_options_shot type_name required_uids d :
  emits (search_resolve_search_options (W := W) config session type_name required_uids d)
    (shot (fun c => reads c)
       (fun c options => reads c /\ exists resp, call_answer c = Ok resp /\
          accept_search_options required_uids resp = Ok options) d).
Proof.
  unfold search_resolve_search_options. apply shot_lift. intros url _. apply shot_lift. intros headers _.
  apply (shot_send _ _ _ (accept_search_options required_uids)); [done|done|done|].
  intros resp a Ha. split; [done|]. eauto.
Qed.

Lemma resolve_exact_id_phase type_name idf nf selector z :
  emits (resolve_exact_id (W := W) config session type_name idf nf selector z context)
    (phase (Forall reads)
       (fun cs id => exists rows,
          complete_search config session (exact_query type_name idf nf selector None) cs rows /\
          exact_reference idf nf selector z rows id)).
Proof.
  unfold resolve_exact_id. eapply phase_try; [apply search_all_pages_phase|done|].
  intros cs rows Hrows. apply phase_lift.
  - rewrite app_nil_r. by eapply complete_search_read.
  - intros id Hid. exists rows. rewrite app_nil_r. split; [done|]. by apply select_exact_ok.
Qed.

Lemma resolve_user_id_phase options username :
  emits (resolve_user_id (W := W) config session options username context)
    (phase (Forall reads)
       (fun cs o => exists idf nf active deleted cs1 cs2, cs = cs1 ++ cs2 /\
          options !! "User.id" = Some idf /\ options !! "User.name" = Some nf /\
          complete_search config session (exact_query "User" idf nf username (Some false)) cs1 active /\
          complete_search config session (exact_query "User" idf nf username (Some true)) cs2 deleted /\
          user_lookup idf nf username active deleted o)).
Proof.
  unfold resolve_user_id. apply phase_lift_try; [done|]. intros idf Hidf%ok_or_ok_inv.
  apply phase_lift_try; [done|]. intros nf Hnf%ok_or_ok_inv.
  eapply phase_try; [apply search_all_pages_phase|done|]. intros cs1 active Ha.
  pose proof (complete_search_read _ _ _ _ _ Ha) as Hr1.
  eapply phase_try; [apply search_all_pages_phase|by intros cs ?; apply Forall_app|].
  intros cs2 deleted Hd. pose proof (complete_search_read _ _ _ _ _ Hd) as Hr2.
  apply phase_lift; rewrite app_nil_r; [by apply Forall_app|].
  intros o Ho%select_user_sound. by exists idf, nf, active, deleted, cs1, cs2.
Qed.

(** One authoritative item read of a row of user [user_id]. *)
Definition item_read (user_id : N) (c : GlpiCall) (r : CurrentRow) : Prop :=
  call_op c = OpReadItem (row_id r) /\
  exists resp, call_answer c = Ok resp /\
    accept_item (row_id r) resp =
      Ok (mkItem user_id (row_profiles_id r) (row_entities_id r) (row_is_recursive r)).

Lemma items_read user_id cs current : Forall2 (item_read user_id) cs current -> Forall reads cs.
Proof.
  induction 1 as [|c r cs current [Hop _] _ IH]; constructor; [|done]. unfold reads. by rewrite Hop.
Qed.

Lemma read_profile_user_item_phase id :
  emits (read_profile_user_item (W := W) config session id context)
    (phase (Forall reads)
       (fun cs item => exists c, cs = [c] /\ call_op c = OpReadItem id /\
          exists resp, call_answer c = Ok resp /\ accept_item id resp = Ok item)).
Proof.
  unfold read_profile_user_item. apply phase_lift_try; [done|]. intros url _.
  apply phase_lift_try; [done|]. intros headers _. eapply phase_conseq.
  - eapply (phase_shot _ _ _ (fun c => call_op c = OpReadItem id) (fun c item =>
      call_op c = OpReadItem id /\ exists resp, call_answer c = Ok resp /\ accept_item id resp = Ok item)).
    intros d. eapply (shot_send _ _ _ (accept_item id)); [done|done|done|].
    intros resp a Ha. eauto.
  - intros cs [->|(c & -> & Hc)]; [done|]. constructor; [|done]. unfold reads. by rewrite Hc.
  - done.
Qed.

Lemma read_items_phase user_id ids current cs :
  Forall2 (item_read user_id) cs current ->
  emits (read_items (W := W) config session user_id context ids current)
    (phase (fun cs' => Forall reads (cs ++ cs'))
       (fun cs' rows => exists rest, rows = current ++ rest /\ row_id <$> rest = ids /\
          Forall2 (item_read user_id) (cs ++ cs') rows)).
Proof.
  revert current cs. induction ids as [|id ids IH]; intros current cs Hcs; simpl.
  { apply phase_ok. exists []. by rewrite !app_nil_r. }
  pose proof (items_read _ _ _ Hcs) as Hr.
  eapply phase_try; [apply read_profile_user_item_phase|by intros cs' ?; apply Forall_app|].
  intros cs' item (c & -> & Hop & resp & Hresp & Hitem).
  assert (reads c) as Hc by (unfold reads; by rewrite Hop).
  destruct (N.eqb_spec (item_users_id item) user_id) as [Hu|Hu]; simpl.
  2:{ apply phase_err. apply Forall_app. auto. }
  eapply phase_conseq; [apply (IH _ (cs ++ [c]))| |].
  - apply Forall2_app; [done|]. constructor; [|constructor]. split; [done|].
    exists resp. split; [done|]. simpl. rewrite Hitem. destruct item. simpl in *. by subst.
  - intros cs' H. cbv beta in H. by rewrite <- app_assoc in H.
  - intros cs' rows (rest & -> & Hids & Hall). eexists (_ :: rest). rewrite <- app_assoc. csimpl.
    split; [done|]. split; [by rewrite Hids|].
    by rewrite <- !app_assoc in Hall.
Qed.

(** A complete, authoritative snapshot of the rows of [user_id]. *)
Definition snapshot (options : SearchOptions) (username : string) (user_id : N)
    (cs : list GlpiCall) (current : list CurrentRow) : Prop :=
  exists idf nf rows cs1 cs2, cs = cs1 ++ cs2 /\
    options !! "Profile_User.id" = Some idf /\ options !! "Profile_User.User.name" = Some nf /\
    complete_search config session (exact_query "Profile_User" idf nf username None) cs1 rows /\
    exact_match idf nf username false rows (row_id <$> current) /\
    Forall2 (item_read user_id) cs2 current.

Lemma read_current_phase options username user_id :
  emits (read_current_assignments (W := W) config session options username user_id context)
    (phase (Forall reads) (snapshot options username user_id)).
Proof.
  unfold read_current_assignments. apply phase_lift_try; [done|]. intros idf Hidf%ok_or_ok_inv.
  apply phase_lift_try; [done|]. intros nf Hnf%ok_or_ok_inv.
  eapply phase_try; [apply search_all_pages_phase|done|]. intros cs1 rows Hrows.
  pose proof (complete_search_read _ _ _ _ _ Hrows) as Hr1.
  apply phase_lift_try; [by rewrite app_nil_r|]. intros ids Hids%exact_ids_match.
  eapply phase_conseq; [apply (read_items_phase user_id ids [] []); constructor| |].
  - intros cs' ?. by apply Forall_app.
  - intros cs' current (rest & -> & <- & Hall). by exists idf, nf, rows, cs1, cs'.
Qed.

Lemma snapshot_reads options username user_id cs current :
  snapshot options username user_id cs current -> Forall reads cs.
Proof.
  intros (idf & nf & rows & cs1 & cs2 & -> & _ & _ & Hc & _ & Hi).
  apply Forall_app. split; [by eapply complete_search_read|by eapply items_read].
Qed.

Lemma snapshot_nodup options username user_id cs current :
  snapshot options username user_id cs current -> NoDup (row_id <$> current).
Proof. intros (idf & nf & rows & cs1 & cs2 & _ & _ & _ & _ & (_ & _ & H & _) & _). done. Qed.

(** ** Properties *)

(** C24: in every world the pagination loop breaks or fails
    within its 2^64 iterations, and every request of it is issued inside its own
    freshly computed window. *)
Theorem search_loop_breaks (q : SearchQuery) (w : W) :
  let '(r, s) := search_loop config session q context (mkTr w []) in
  windowed context config (trace s) /\
  (forall st, r <> Ok (inl st)).
Proof.
  pose proof (emits_run _ _ w (search_loop_phase (W := W) config session context q)) as H.
  destruct (search_loop _ _ _ _ _) as [r s]. destruct H as [Hw Hr]. split; [done|].
  intros st ->. done.
Qed.

(** C23: a successful search issued exactly the consecutive
    pages 0-49, 50-99, ... up to the reported total, all pages but the last were
    full, all reported the same total, and the rows returned are all of theirs,
    as many as the total.  A failed search issued only reads. *)
Theorem search_all_pages_complete (q : SearchQuery) (w : W) :
  let '(r, s) := search_all_pages config session q context (mkTr w []) in
  match r with
  | Ok rows => complete_search config session q (calls (trace s)) rows
  | Err _ => Forall reads (calls (trace s))
  end.
Proof.
  pose proof (emits_run _ _ w (search_all_pages_phase (W := W) config session context q)) as [_ H].
  by destruct (search_all_pages _ _ _ _ _) as [[|] s].
Qed.

(** An entity or profile reference resolves only from a complete
    search in which every row carries a name, at least one row carries exactly
    the selector, and all such rows have one and the same id. *)
Lemma resolve_exact_id_sound (type_name : string) (idf nf : N) (selector : string) (z : bool) (w : W) :
  let '(r, s) := resolve_exact_id config session type_name idf nf selector z context (mkTr w []) in
  match r with
  | Ok id => exists rows,
      complete_search config session (exact_query type_name idf nf selector None)
        (calls (trace s)) rows /\
      exact_reference idf nf selector z rows id
  | Err _ => Forall reads (calls (trace s))
  end.
Proof.
  pose proof (emits_run _ _ w (resolve_exact_id_phase type_name idf nf selector z)) as [_ H].
  by destruct (resolve_exact_id _ _ _ _ _ _ _ _ _) as [[|] s].
Qed.

(** A user lookup succeeds only when the complete deleted-user
    search has no exact match; it returns an id only when all exact active rows
    carry that one id, and reports absence only when no active row matches. *)
Lemma resolve_user_id_sound (options : SearchOptions) (username : string) (w : W) :
  let '(r, s) := resolve_user_id config session options username context (mkTr w []) in
  match r with
  | Ok o => exists idf nf active deleted cs1 cs2, calls (trace s) = cs1 ++ cs2 /\
      complete_search config session (exact_query "User" idf nf username (Some false)) cs1 active /\
      complete_search config session (exact_query "User" idf nf username (Some true)) cs2 deleted /\
      user_lookup idf nf username active deleted o
  | Err _ => Forall reads (calls (trace s))
  end.
Proof.
  pose proof (emits_run _ _ w (resolve_user_id_phase options username)) as [_ H].
  destruct (resolve_user_id _ _ _ _ _ _) as [[|] s]; [|done].
  destruct H as (idf & nf & active & deleted & cs1 & cs2 & ? & _ & _ & ? & ? & ?).
  by exists idf, nf, active, deleted, cs1, cs2.
Qed.

(** A successful read of the current assignments is complete and
    authoritative: the row ids are exactly the distinct ids of the exactly named
    rows of a complete search, and every row's fields come from an item read of
    that id which reports the same user. *)
Lemma read_current_assignments_authoritative (options : SearchOptions) (username : string)
    (user_id : N) (w : W) :
  let '(r, s) := read_current_assignments config session options username user_id context
    (mkTr w []) in
  match r with
  | Ok current =>
      snapshot options username user_id (calls (trace s)) current /\ NoDup (row_id <$> current)
  | Err _ => Forall reads (calls (trace s))
  end.
Proof.
  pose proof (emits_run _ _ w (read_current_phase options username user_id)) as [_ H].
  destruct (read_current_assignments _ _ _ _ _ _ _) as [[|] s]; [|done].
  split; [done|exact (snapshot_nodup _ _ _ _ _ H)].
Qed.
End ResolvePhases.

(** ** Search metadata *)

Lemma collect_options_exact required members found0 found :
  collect_options required members found0 = Ok found <->
  let claims := omap (option_claim required) members in
  NoDup claims.*1 /\ (forall uid, uid ∈ claims.*1 -> found0 !! uid = None) /\
  found = list_to_map claims ∪ found0.
Proof.
  cbv zeta. revert found0. induction members as [|member rest IH]; intros found0; csimpl.
  { rewrite map_empty_union. split; [|naive_solver].
    intros [= ->]. split_and!; [constructor|set_solver|done]. }
  destruct (option_claim required member) as [[uid id]|]; [|by apply IH]. csimpl.
  rewrite NoDup_cons. destruct (found0 !! uid) as [x|] eqn:E.
  { split; [done|]. intros (_ & H & _). rewrite H in E by set_solver. done. }
  rewrite IH. clear IH. set (claims := omap (option_claim required) rest).
  assert (uid ∉ claims.*1 -> list_to_map claims ∪ <[uid := id]> found0 =
    (list_to_map ((uid, id) :: claims) : SearchOptions) ∪ found0) as Hunion.
  { intros Hnin. rewrite list_to_map_cons, <- insert_union_l, insert_union_r; [done|].
    by apply not_elem_of_list_to_map_1. }
  split.
  - intros (Hnd & Hfresh & ->).
    assert (uid ∉ claims.*1) as Hnin.
    { intros Hin. specialize (Hfresh _ Hin). by rewrite lookup_insert_eq in Hfresh. }
    split_and!; [done|done| |auto]. intros uid' [->|Hin]%elem_of_cons; [done|].
    specialize (Hfresh _ Hin). by apply lookup_insert_None in Hfresh as [? _].
  - intros ([Hnin Hnd] & Hfresh & ->). split_and!; [done| |symmetry; auto].
    intros uid' Hin. apply lookup_insert_None. split; [apply Hfresh; set_solver|set_solver].
Qed.

(** Search-option discovery succeeds exactly when every
    required [uid] is claimed by exactly one numeric option id, and then returns
    those claims; members that claim nothing required are ignored. *)
Lemma search_options_exact (required : list string) (members : Object) (found : SearchOptions) :
  select_options required members = Ok found <->
  let claims := omap (option_claim required) members in
  NoDup claims.*1 /\ (forall uid, uid ∈ required -> uid ∈ claims.*1) /\ found = list_to_map claims.
Proof.
  cbv zeta. set (claims := omap (option_claim required) members). unfold select_options.
  assert (forall f : SearchOptions, f = list_to_map claims ->
    forallb (fun uid => bool_decide (is_Some (f !! uid))) required = true <->
    (forall uid, uid ∈ required -> uid ∈ claims.*1)) as Hreq.
  { intros f ->. rewrite forallb_Forall, Forall_forall. apply forall_proper. intros uid.
    rewrite bool_decide_eq_true.
    assert (is_Some ((list_to_map claims : SearchOptions) !! uid) <-> uid ∈ claims.*1) as Hiff;
      [|by rewrite Hiff].
    rewrite <- not_eq_None_Some, <- not_elem_of_list_to_map. split; [by apply dec_stable|auto]. }
  split.
  - intros (f & Hf & H)%rbind_ok_inv. apply collect_options_exact in Hf as (Hnd & _ & Hf).
    rewrite map_union_empty in Hf. destruct (forallb _ _) eqn:E; [|done]. injection H as <-.
    split_and!; [done| |done]. by apply (Hreq f).
  - intros (Hnd & Hall & ->).
    assert (collect_options required members ∅ = Ok (list_to_map claims)) as ->.
    { apply collect_options_exact. split_and!; [done|done|by rewrite map_union_empty]. }
    simpl. by rewrite (proj2 (Hreq _ eq_refl) Hall).
Qed.

(** ** Content ranges *)

Definition content_range (start last total : N) : string :=
  u64_to_string start +:+ "-" +:+ u64_to_string last +:+ "/" +:+ u64_to_string total.

Lemma as_bytes_app s t : as_bytes (s +:+ t) = as_bytes s ++ as_bytes t.
Proof. induction s as [|c s IH]; simpl; [done|]. by rewrite IH. Qed.

Lemma split_once_bytes_app sep l1 l2 :
  sep ∉ l1 -> split_once_bytes sep (l1 ++ sep :: l2) = Some (l1, l2).
Proof.
  induction l1 as [|c l1 IH]; simpl; intros Hnin.
  - by rewrite bool_decide_true.
  - rewrite bool_decide_false by set_solver. rewrite IH by set_solver. done.
Qed.

Lemma split_once_app sep s1 s2 :
  sep ∉ as_bytes s1 -> split_once sep (s1 +:+ String sep s2) = Some (s1, s2).
Proof.
  intros H. unfold split_once. rewrite as_bytes_app. simpl.
  rewrite split_once_bytes_app by done. simpl. by rewrite !of_as_bytes.
Qed.

Lemma rsplit_once_app sep s1 s2 :
  sep ∉ as_bytes s2 -> rsplit_once sep (s1 +:+ String sep s2) = Some (s1, s2).
Proof.
  intros H. unfold rsplit_once. rewrite as_bytes_app. simpl.
  rewrite rev_app_distr. simpl. rewrite <- app_assoc. simpl.
  rewrite split_once_bytes_app.
  - simpl. by rewrite !rev_involutive, !of_as_bytes.
  - by rewrite <- Permutation_rev.
Qed.

Lemma digits_no_sep sep n :
  (n <= U64_MAX)%N -> is_ascii_digit sep = false -> sep ∉ as_bytes (u64_to_string n).
Proof.
  intros Hn Hsep Hin. pose proof (u64_to_string_digits n Hn) as H.
  rewrite Forall_forall in H. specialize (H _ Hin). congruence.
Qed.

Lemma parse_content_range start last total :
  (start <= U64_MAX)%N -> (last <= U64_MAX)%N -> (total <= U64_MAX)%N ->
  exists range,
    rsplit_once "/" (content_range start last total) = Some (range, u64_to_string total) /\
    split_once "-" range = Some (u64_to_string start, u64_to_string last).
Proof.
  intros Hs Hl Ht. exists (u64_to_string start +:+ String "-" (u64_to_string last)).
  split; [|by apply split_once_app, digits_no_sep].
  rewrite <- (rsplit_once_app "/"); [|by apply digits_no_sep].
  f_equal. apply as_bytes_inj. unfold content_range.
  rewrite !as_bytes_app. simpl. by rewrite <- app_assoc.
Qed.

(** A page in the documented form is read back. *)
Lemma parse_wire_page `{Deps : GlpiDeps} (b : bytes) (start last requested_end total : N)
    (data : list Value) :
  from_slice_search_page b =
    Some (mkWireSearchPage total (last - start + 1) (content_range start last total) (Present data)) ->
  (start <= last < total)%N -> (total <= U64_MAX)%N -> (last <= requested_end)%N ->
  N.of_nat (length data) = (last - start + 1)%N ->
  last = requested_end \/ (last + 1)%N = total ->
  parse_search_page b start requested_end =
    Ok (mkSearchPage total (last - start + 1) last data).
Proof.
  intros Hwire [Hsl Hlt] Hmax Hend Hlen Hfull. unfold parse_search_page. rewrite Hwire. simpl.
  destruct (N.eqb_spec total 0) as [->|Hz]; [lia|].
  destruct (parse_content_range start last total) as (range & Hr & Hs); [lia..|].
  rewrite (proj2 (N.eqb_neq (last - start + 1) 0)), (proj2 (N.eqb_eq _ _) (eq_sym Hlen)) by lia.
  rewrite (proj2 (N.ltb_ge total (last - start + 1))) by lia. simpl.
  rewrite Hr. simpl. rewrite parse_u64_to_string by lia. simpl.
  rewrite Hs. simpl. rewrite !parse_u64_to_string by lia. simpl.
  unfold checked_sub, checked_add. rewrite (proj2 (N.leb_le start last)) by lia. simpl.
  rewrite (proj2 (N.leb_le (last - start + 1) U64_MAX)) by lia.
  rewrite bool_decide_true by done. rewrite !N.eqb_refl. simpl.
  rewrite (proj2 (N.ltb_ge last start)), (proj2 (N.ltb_ge requested_end last)),
    (proj2 (N.leb_gt total last)) by lia. simpl.
  destruct Hfull as [-> | <-].
  - by rewrite N.eqb_refl.
  - rewrite N.add_sub, N.eqb_refl. by rewrite andb_false_r.
Qed.

(** C37: the metadata GLPI prints for a non-empty page, rows
    [start] to [last] of [total] with the range [start-last/total], is accepted
    and read back unchanged, for every page that is full or ends the result. *)
Theorem search_page_roundtrip `{Deps : GlpiDeps} (b : bytes) (start last requested_end total : N)
    (data : list Value) :
  from_slice_search_page b =
    Some (mkWireSearchPage total (last - start + 1) (content_range start last total) (Present data)) ->
  (start <= last < total)%N -> (total <= U64_MAX)%N -> (last <= requested_end)%N ->
  N.of_nat (length data) = (last - start + 1)%N ->
  last = requested_end \/ (last + 1)%N = total ->
  parse_search_page b start requested_end =
    Ok (mkSearchPage total (last - start + 1) last data).
Proof. intros. by apply parse_wire_page. Qed.

Definition sample_page_data : list Value := [VObject []; VObject []; VObject []].
Definition sample_pages : Documents :=
  mkDocuments [] [] [] []
    [("page", mkWireSearchPage 53 3 (content_range 50 52 53) (Present sample_page_data))].

Lemma search_page_roundtrip_witness :
  parse_search_page (Deps := table_deps sample_pages) (as_bytes "page") 50 99 =
    Ok (mkSearchPage 53 3 52 sample_page_data).
Proof.
  apply (search_page_roundtrip (Deps := table_deps sample_pages) (as_bytes "page") 50 52 99 53
    sample_page_data).
  - reflexivity.
  - lia.
  - by vm_compute.
  - lia.
  - reflexivity.
  - right. reflexivity.
Defined.
