(* ===== verification/GlpiAdapter.v ===== *)
(** * GLPI adapter: reconciliation

    Models [crates/permissionsync-adapter-glpi/src/adapter.rs]: the mandatory
    operation order of one reconciliation, the deadline window of every
    request, and the request-scoped session's cleanup. *)
From S2P Require Import Prelude BTree Core Json Net GlpiBase.
From S2P Require Import GlpiSession GlpiPlan GlpiPayload GlpiSearch GlpiMutation.

Section Adapter.
Context `{Deps : GlpiDeps} {W : Type} `{!GlpiWorld W}.
Abbreviation M := (Eff (Tr W GlpiCall)).

(** [resolve_search_options]: the options of one itemtype, in its own window. *)
Definition resolve_search_options (config : ValidatedConfig) (session : GlpiSession)
    (type_name : string) (required_uids : list string) (context : SynchronizationContext)
  : M (result SearchOptions GlpiFailure) :=
  let! window := effective_deadline context (operation_timeout config) in
  search_resolve_search_options config session type_name required_uids window.

(** [BTreeMap<String, u64>]: resolved selectors. *)
Abbreviation Resolved := (list (string * N)).

(** One half of the loop body: resolve a selector unless it already is. *)
Definition resolve_once (resolve : string -> M (result N GlpiFailure)) (selector : string)
    (resolved : Resolved) : M (result Resolved GlpiFailure) :=
  if bt_contains selector resolved then eret (Ok resolved) else
  let! id := resolve selector in
  eret (Ok (bt_insert selector id resolved)).

(** The loop over the desired assignments. *)
Fixpoint resolve_references (config : ValidatedConfig) (session : GlpiSession)
    (entity_options profile_options : SearchOptions) (context : SynchronizationContext)
    (desired : list CanonicalAssignment) (resolved_entities resolved_profiles : Resolved)
  : M (result (Resolved * Resolved) GlpiFailure) :=
  match desired with
  | [] => eret (Ok (resolved_entities, resolved_profiles))
  | assignment :: rest =>
      let! _ := check_context context (deadline context) in
      let! resolved_entities := resolve_once
        (fun selector => resolve_entity_id config session entity_options selector context)
        (ca_entity assignment) resolved_entities in
      let! _ := check_context context (deadline context) in
      let! resolved_profiles := resolve_once
        (fun selector => resolve_profile_id config session profile_options selector context)
        (ca_profile assignment) resolved_profiles in
      resolve_references config session entity_options profile_options context rest
        resolved_entities resolved_profiles
  end.

Record Prepared : Type := mkPrepared {
  resolved_entities : Resolved;
  resolved_profiles : Resolved;
  user_options : SearchOptions;
  profile_user_options : SearchOptions;
}.

(** The first part of [reconcile_with_session]: visibility, metadata, references. *)
Definition prepare (config : ValidatedConfig) (session : GlpiSession)
    (desired : list CanonicalAssignment) (context : SynchronizationContext)
  : M (result Prepared GlpiFailure) :=
  let! window := effective_deadline context (operation_timeout config) in
  let! _ := force_all_entities config session window in
  let! window := effective_deadline context (operation_timeout config) in
  let! _ := verify_complete_visibility config session window in
  match desired with
  | [] =>
      let! user_options := resolve_search_options config session "User" REQUIRED_USER_UIDS context in
      let! profile_user_options :=
        resolve_search_options config session "Profile_User" REQUIRED_PROFILE_USER_UIDS context in
      eret (Ok (mkPrepared [] [] user_options profile_user_options))
  | _ =>
      let! entity_options :=
        resolve_search_options config session "Entity" REQUIRED_ENTITY_UIDS context in
      let! profile_options :=
        resolve_search_options config session "Profile" REQUIRED_PROFILE_UIDS context in
      let! user_options := resolve_search_options config session "User" REQUIRED_USER_UIDS context in
      let! profile_user_options :=
        resolve_search_options config session "Profile_User" REQUIRED_PROFILE_USER_UIDS context in
      let! (resolved_entities, resolved_profiles) :=
        resolve_references config session entity_options profile_options context desired [] [] in
      eret (Ok (mkPrepared resolved_entities resolved_profiles user_options profile_user_options))
  end.

(** [create_user_and_resolve_outcome]. *)
Definition create_user_and_resolve_outcome (config : ValidatedConfig) (session : GlpiSession)
    (user_options : SearchOptions) (username : string) (context : SynchronizationContext)
  : M (result (N * N) GlpiFailure) :=
  let! window := effective_deadline context (operation_timeout config) in
  let! created_id := create_user config session username (authentication_source config) window in
  let! resolved := resolve_user_id config session user_options username context in
  if negb (bool_decide (resolved = Some created_id)) then eret (Err UserCreationFailed)
  else eret (Ok (created_id, 1%N)).

(** The owning user and the mutations performed so far. *)
Definition resolve_owner (config : ValidatedConfig) (session : GlpiSession)
    (user_options : SearchOptions) (username : string) (context : SynchronizationContext)
  : M (result (N * N) GlpiFailure) :=
  let! existing_user_id := resolve_user_id config session user_options username context in
  match existing_user_id with
  | Some id => eret (Ok (id, 0%N))
  | None => create_user_and_resolve_outcome config session user_options username context
  end.

(** The resolved ids of one desired assignment. *)
Definition resolve_assignment (p : Prepared) (assignment : CanonicalAssignment)
  : result DesiredAssignment GlpiFailure :=
  let? entities_id := ok_or (bt_lookup (ca_entity assignment) (resolved_entities p)) MissingReference in
  let? profiles_id := ok_or (bt_lookup (ca_profile assignment) (resolved_profiles p)) MissingReference in
  Ok (mkDesired entities_id profiles_id (ca_recursive assignment)).

Fixpoint resolve_desired (p : Prepared) (desired : list CanonicalAssignment)
  : result (list DesiredAssignment) GlpiFailure :=
  match desired with
  | [] => Ok []
  | assignment :: rest =>
      let? d := resolve_assignment p assignment in
      let? ds := resolve_desired p rest in
      Ok (d :: ds)
  end.

(** The removal loop and the addition loop. *)
Fixpoint apply_removals (config : ValidatedConfig) (session : GlpiSession)
    (context : SynchronizationContext) (ids : list N) (effective_mutations : N)
  : M (result N GlpiFailure) :=
  match ids with
  | [] => eret (Ok effective_mutations)
  | assignment_id :: rest =>
      let! window := effective_deadline context (operation_timeout config) in
      let! _ := delete_assignment config session assignment_id window in
      apply_removals config session context rest (effective_mutations + 1)
  end.

Fixpoint apply_additions (config : ValidatedConfig) (session : GlpiSession)
    (context : SynchronizationContext) (user_id : N) (l : list Addition) (effective_mutations : N)
  : M (result N GlpiFailure) :=
  match l with
  | [] => eret (Ok effective_mutations)
  | addition :: rest =>
      let! window := effective_deadline context (operation_timeout config) in
      let! _ := create_assignment config session user_id (add_profiles_id addition)
        (add_entities_id addition) (add_recursive addition) window in
      apply_additions config session context user_id rest (effective_mutations + 1)
  end.

(** [reconcile_with_session]. *)
Definition reconcile_with_session (config : ValidatedConfig) (session : GlpiSession)
    (username : string) (desired : list CanonicalAssignment) (context : SynchronizationContext)
  : M (result ReconciliationOutcome GlpiFailure) :=
  let! p := prepare config session desired context in
  let! (user_id, effective_mutations) :=
    resolve_owner config session (user_options p) username context in
  let! current := read_current_assignments config session (profile_user_options p) username user_id
    context in
  let! desired_resolved := elift (resolve_desired p desired) in
  let reconciliation_plan := compute current desired_resolved in
  let! effective_mutations := apply_removals config session context
    (removals reconciliation_plan) effective_mutations in
  let! effective_mutations := apply_additions config session context user_id
    (additions reconciliation_plan) effective_mutations in
  let! _ := check_context context (deadline context) in
  let! verified := read_current_assignments config session (profile_user_options p) username user_id
    context in
  if negb (is_canonical verified desired_resolved) then eret (Err VerificationFailed) else
  if (0 <? effective_mutations)%N then eret (Ok Changed) else eret (Ok Unchanged).

(** The tail of [reconcile]: session cleanup, which never starts after an
    observed cancellation or expiry and never hides the primary error. *)
Definition cleanup (config : ValidatedConfig) (session : GlpiSession)
    (context : SynchronizationContext) (outcome : result ReconciliationOutcome GlpiFailure)
  : M (result ReconciliationOutcome GlpiFailure) :=
  let* cancelled := read_cancelled in
  let* cleanup_allowed :=
    if cancelled then eret false else
    let* t := read_now in eret (t <? deadline context)%Z in
  if (cleanup_allowed : bool) then
    let* window := effective_deadline context (operation_timeout config) in
    match window with
    | Ok cleanup_deadline =>
        let* cleanup_result := kill_session config session cleanup_deadline in
        eret (match outcome, cleanup_result with
          | Ok outcome, Ok _ => Ok outcome
          | Ok _, Err cleanup_error => Err cleanup_error
          | Err primary_error, _ => Err primary_error
          end)
    | Err _ => eret outcome
    end
  else eret outcome.

(** [reconcile]. *)
Definition reconcile (config : ValidatedConfig) (request : TargetAdapterRequest)
  : M (result ReconciliationOutcome GlpiFailure) :=
  let context := ar_context request in
  let! _ := check_context context (deadline context) in
  if negb (version_get (envelope_version (ar_desired_state request)) =? 1)%N
  then eret (Err UnsupportedEnvelopeVersion) else
  let! desired := elift (parse_and_normalize
    (as_json (envelope_payload (ar_desired_state request)))) in
  let! init_session_deadline := effective_deadline context (operation_timeout config) in
  let! session := init_session config init_session_deadline in
  let* outcome := reconcile_with_session config session (username (ar_identity request)) desired
    context in
  cleanup config session context outcome.
End Adapter.

(** ** Specification *)

(** Requests that change the target. *)
Definition is_mutation (op : GlpiOp) : bool :=
  match op with
  | OpCreateUser _ | OpCreateAssignment _ _ _ _ | OpDeleteAssignment _ => true
  | _ => false
  end.

Section Specification.
Context `{Deps : GlpiDeps} (config : ValidatedConfig) (session : GlpiSession).
Context (the_user : string) (desired : list CanonicalAssignment).

Definition quiet (c : GlpiCall) : Prop := is_mutation (call_op c) = false.

(** The complete-visibility precondition was confirmed by the first two calls. *)
Definition visible_start (cs : list GlpiCall) : Prop :=
  exists c1 c2 rest resp1 resp2, cs = c1 :: c2 :: rest /\
    call_op c1 = OpChangeActiveEntities /\ call_answer c1 = Ok resp1 /\
    status resp1 = STATUS_OK /\ trim_ascii (body resp1) = as_bytes "true" /\
    call_op c2 = OpGetFullSession /\ call_answer c2 = Ok resp2 /\
    status resp2 = STATUS_OK /\ complete_visibility (body resp2) = true.

(** [selector] was resolved to [id] by one complete search among [cs]. *)
Definition resolved_in (type_name : string) (allow_zero : bool) (cs : list GlpiCall)
    (selector : string) (id : N) : Prop :=
  exists l1 l2 l3 idf nf rows, cs = l1 ++ l2 ++ l3 /\
    complete_search config session (exact_query type_name idf nf selector None) l2 rows /\
    exact_reference idf nf selector allow_zero rows id.

(** A desired assignment with its resolved ids. *)
Definition assignment_resolved (cs : list GlpiCall) (a : CanonicalAssignment)
    (d : DesiredAssignment) : Prop :=
  resolved_in "Entity" true cs (ca_entity a) (des_entities_id d) /\
  resolved_in "Profile" false cs (ca_profile a) (des_profiles_id d) /\
  des_recursive d = ca_recursive a.

(** Stage 1: nothing was changed, visibility is complete, and every reference of
    every desired assignment is resolved. *)
Definition prepared (cs : list GlpiCall) (resolved : list DesiredAssignment) : Prop :=
  visible_start cs /\ Forall quiet cs /\ Forall2 (assignment_resolved cs) desired resolved.

(** A completed user lookup. *)
Definition user_looked_up (cs : list GlpiCall) (o : option N) : Prop :=
  exists idf nf active deleted cs1 cs2, cs = cs1 ++ cs2 /\
    complete_search config session (exact_query "User" idf nf the_user (Some false)) cs1 active /\
    complete_search config session (exact_query "User" idf nf the_user (Some true)) cs2 deleted /\
    user_lookup idf nf the_user active deleted o.

(** Stage 2: the owner is the one existing user, or the user this request
    created and then found again; the count is the number of creations. *)
Inductive owner (user_id : N) : N -> list GlpiCall -> Prop :=
| owner_existing cs : user_looked_up cs (Some user_id) -> owner user_id 0 cs
| owner_created cs1 c cs2 :
    user_looked_up cs1 None ->
    confirmed_create (OpCreateUser the_user) user_id c ->
    user_looked_up cs2 (Some user_id) ->
    owner user_id 1 (cs1 ++ c :: cs2).

(** The mutations a plan intends, in execution order. *)
Definition intended (user_id : N) (p : Plan) : list GlpiOp :=
  (OpDeleteAssignment <$> removals p) ++
  ((fun a => OpCreateAssignment user_id (add_profiles_id a) (add_entities_id a) (add_recursive a))
     <$> additions p).

(** The call performed [op] and GLPI confirmed it in the documented shape. *)
Definition confirmed (op : GlpiOp) (c : GlpiCall) : Prop :=
  match op with
  | OpDeleteAssignment id => confirmed_delete id c
  | _ => exists id, confirmed_create op id c
  end.

(** How far a run got, whatever its result. *)
Inductive progress : list GlpiCall -> Prop :=
| stopped_before cs : Forall quiet cs -> progress cs
| stopped_creating csA resolved cs1 c cs2 :
    prepared csA resolved -> user_looked_up cs1 None ->
    call_op c = OpCreateUser the_user -> Forall quiet cs2 ->
    progress (csA ++ cs1 ++ c :: cs2)
| stopped_mutating csA resolved user_id n csB options current snap muts post :
    prepared csA resolved -> owner user_id n csB ->
    snapshot config session options the_user user_id snap current ->
    call_op <$> muts `prefix_of` intended user_id (compute current resolved) ->
    Forall quiet post ->
    progress (csA ++ csB ++ snap ++ muts ++ post).

(** A successful run: the whole plan of one authoritative snapshot was carried
    out and confirmed, and a second authoritative snapshot is canonical.
    [Changed] means that at least one mutation was confirmed. *)
Definition reconciled (cs : list GlpiCall) (outcome : ReconciliationOutcome) : Prop :=
  exists csA resolved user_id n csB options current snap muts verified ver,
    cs = csA ++ csB ++ snap ++ muts ++ ver /\
    prepared csA resolved /\ owner user_id n csB /\
    snapshot config session options the_user user_id snap current /\
    Forall2 confirmed (intended user_id (compute current resolved)) muts /\
    snapshot config session options the_user user_id ver verified /\
    is_canonical verified resolved = true /\
    outcome = (if bool_decide (n = 0%N /\ muts = []) then Unchanged else Changed).
End Specification.

(** ** Facts: preparation *)

Section PrepareFacts.
Context `{Deps : GlpiDeps} {W : Type} `{!GlpiWorld W}.
Context (config : ValidatedConfig) (session : GlpiSession) (context : SynchronizationContext).
Abbreviation phase := (phase context config).
Abbreviation M := (Eff (Tr W GlpiCall)).

Lemma reads_quiet (cs : list GlpiCall) : Forall reads cs -> Forall quiet cs.
Proof.
  intros H. eapply Forall_impl; [exact H|]. intros c. unfold reads, quiet. by destruct (call_op c).
Qed.

Lemma resolved_in_app ty z (cs cs' : list GlpiCall) selector id :
  resolved_in config session ty z cs selector id ->
  resolved_in config session ty z (cs ++ cs') selector id.
Proof.
  intros (l1 & l2 & l3 & idf & nf & rows & -> & H). exists l1, l2, (l3 ++ cs'), idf, nf, rows.
  by rewrite !app_assoc.
Qed.

Lemma resolved_in_prepend ty z (cs cs' : list GlpiCall) selector id :
  resolved_in config session ty z cs selector id ->
  resolved_in config session ty z (cs' ++ cs) selector id.
Proof.
  intros (l1 & l2 & l3 & idf & nf & rows & -> & H). exists (cs' ++ l1), l2, l3, idf, nf, rows.
  by rewrite !app_assoc.
Qed.

(** Every entry of a resolution map comes from a complete search. *)
Definition known (ty : string) (z : bool) (cs : list GlpiCall) (m : list (string * N)) : Prop :=
  forall selector id, bt_lookup selector m = Some id -> resolved_in config session ty z cs selector id.

Definition grows (m m' : list (string * N)) : Prop :=
  forall selector, is_Some (bt_lookup selector m) -> is_Some (bt_lookup selector m').

Lemma known_app ty z cs cs' m : known ty z cs m -> known ty z (cs ++ cs') m.
Proof. intros H selector id Hl. by apply resolved_in_app, H. Qed.

Lemma resolve_once_phase ty z (resolve : string -> M (result N GlpiFailure)) selector m cs :
  emits (resolve selector) (phase (Forall reads) (fun cs' id => exists idf nf rows,
    complete_search config session (exact_query ty idf nf selector None) cs' rows /\
    exact_reference idf nf selector z rows id)) ->
  known ty z cs m ->
  emits (resolve_once resolve selector m)
    (phase (Forall quiet) (fun cs' m' => Forall quiet cs' /\ known ty z (cs ++ cs') m' /\
       grows m m' /\ is_Some (bt_lookup selector m'))).
Proof.
  intros Hres Hk. unfold resolve_once, bt_contains. case_bool_decide as Hin.
  { apply phase_ok. rewrite app_nil_r. split_and!; [constructor|done|by intros ?|done]. }
  eapply phase_try; [exact Hres|apply reads_quiet|].
  intros cs' id (idf & nf & rows & Hc & Href). apply phase_ok. rewrite app_nil_r.
  split_and!.
  - apply reads_quiet. by eapply complete_search_read.
  - intros k i Hki. destruct (decide (selector = k)) as [<-|Hne].
    + rewrite bt_lookup_insert_eq in Hki. injection Hki as <-.
      exists cs, cs', [], idf, nf, rows. by rewrite app_nil_r.
    + rewrite bt_lookup_insert_ne in Hki by done. by apply resolved_in_app, Hk.
  - intros k Hk'. destruct (decide (selector = k)) as [<-|Hne].
    + rewrite bt_lookup_insert_eq. by eexists.
    + by rewrite bt_lookup_insert_ne.
  - rewrite bt_lookup_insert_eq. by eexists.
Qed.

Lemma entity_phase options selector :
  emits (resolve_entity_id (W := W) config session options selector context)
    (phase (Forall reads) (fun cs id => exists idf nf rows,
       complete_search config session (exact_query "Entity" idf nf selector None) cs rows /\
       exact_reference idf nf selector true rows id)).
Proof.
  unfold resolve_entity_id. apply phase_lift_try; [done|]. intros idf _.
  apply phase_lift_try; [done|]. intros nf _.
  eapply phase_conseq; [apply resolve_exact_id_phase|done|]. intros cs id (rows & ?). eauto.
Qed.

Lemma profile_phase options selector :
  emits (resolve_profile_id (W := W) config session options selector context)
    (phase (Forall reads) (fun cs id => exists idf nf rows,
       complete_search config session (exact_query "Profile" idf nf selector None) cs rows /\
       exact_reference idf nf selector false rows id)).
Proof.
  unfold resolve_profile_id. apply phase_lift_try; [done|]. intros idf _.
  apply phase_lift_try; [done|]. intros nf _.
  eapply phase_conseq; [apply resolve_exact_id_phase|done|]. intros cs id (rows & ?). eauto.
Qed.

Lemma resolve_references_phase eo po ds ents profs cs :
  known "Entity" true cs ents -> known "Profile" false cs profs ->
  emits (resolve_references (W := W) config session eo po context ds ents profs)
    (phase (Forall quiet) (fun cs' r => Forall quiet cs' /\
       known "Entity" true (cs ++ cs') r.1 /\ known "Profile" false (cs ++ cs') r.2 /\
       grows ents r.1 /\ grows profs r.2 /\
       Forall (fun a => is_Some (bt_lookup (ca_entity a) r.1) /\
                        is_Some (bt_lookup (ca_profile a) r.2)) ds)).
Proof.
  revert ents profs cs. induction ds as [|a ds IH]; intros ents profs cs He Hp; simpl.
  { apply phase_ok. simpl. rewrite app_nil_r. split_and!; try done; by intros ?. }
  apply phase_check; [done|].
  eapply phase_try; [apply (resolve_once_phase _ _ _ _ _ _ (entity_phase eo _) He)|done|].
  intros cs1 ents' (Hq1 & He' & Hg1 & Hs1). apply phase_check; [by rewrite app_nil_r|].
  eapply phase_try; [apply (resolve_once_phase _ _ _ _ _ (cs ++ cs1) (profile_phase po _)); by apply known_app| |].
  { intros cs2 ?. by apply Forall_app. }
  intros cs2 profs' (Hq2 & Hp' & Hg2 & Hs2).
  eapply phase_conseq; [apply (IH ents' profs' ((cs ++ cs1) ++ cs2)); [by apply known_app|done]| |].
  { intros cs3 ?. cbv beta. by rewrite !Forall_app. }
  intros cs3 [e p]. simpl. intros (Hq3 & He3 & Hp3 & Hg3 & Hg4 & Hall).
  rewrite <- !app_assoc in He3, Hp3. split_and!; [by rewrite !Forall_app|done|done| | |].
  - intros k Hk. by apply Hg3, Hg1.
  - intros k Hk. by apply Hg4, Hg2.
  - constructor; [|done]. split; [by apply Hg3|by apply Hg4].
Qed.

Lemma resolve_desired_known p ds cs :
  known "Entity" true cs (resolved_entities p) -> known "Profile" false cs (resolved_profiles p) ->
  Forall (fun a => is_Some (bt_lookup (ca_entity a) (resolved_entities p)) /\
                   is_Some (bt_lookup (ca_profile a) (resolved_profiles p))) ds ->
  exists resolved, resolve_desired p ds = Ok resolved /\
    Forall2 (assignment_resolved config session cs) ds resolved.
Proof.
  intros He Hp. induction 1 as [|a ds [[e Hle] [q Hlp]] _ (resolved & Hr & IH)]; simpl; [eauto|].
  unfold resolve_assignment. rewrite Hle, Hlp, Hr. simpl. eexists. split; [done|].
  constructor; [|done]. split_and!; [by apply He|by apply Hp|done].
Qed.

Lemma search_options_phase ty uids :
  emits (resolve_search_options (W := W) config session ty uids context)
    (phase (Forall quiet) (fun cs _ => Forall quiet cs)).
Proof.
  unfold resolve_search_options. eapply phase_conseq.
  - eapply phase_shot. intros d. apply search_options_shot.
  - intros cs [->|(c & -> & Hc)]; [done|]. apply reads_quiet. by constructor.
  - intros cs a (c & -> & Hc & _). apply reads_quiet. by constructor.
Qed.

Lemma visible_start_app (cs cs' : list GlpiCall) : visible_start cs -> visible_start (cs ++ cs').
Proof.
  intros (c1 & c2 & rest & resp1 & resp2 & -> & H). by exists c1, c2, (rest ++ cs'), resp1, resp2.
Qed.

(** The quiet part of a run after the visibility check. *)
Definition looking (cs : list GlpiCall) : Prop := visible_start cs /\ Forall quiet cs.

Lemma looking_app cs cs' : looking cs -> Forall quiet cs' -> looking (cs ++ cs').
Proof. intros [Hv Hq] Hq'. split; [by apply visible_start_app|by apply Forall_app]. Qed.

(** Another option discovery in front of a quiet continuation. *)
Lemma search_options_try {B} ty uids (k : SearchOptions -> M (result B GlpiFailure)) cs0
    (G : list GlpiCall -> B -> Prop) :
  looking cs0 ->
  (forall cs o, looking cs -> emits (k o)
     (phase (fun cs' => Forall quiet (cs ++ cs')) (fun cs' => G (cs ++ cs')))) ->
  emits (etry (resolve_search_options (W := W) config session ty uids context) k)
    (phase (fun cs' => Forall quiet (cs0 ++ cs')) (fun cs' => G (cs0 ++ cs'))).
Proof.
  intros Hq Hk. eapply phase_try; [apply search_options_phase| |].
  { intros cs' ?. apply Forall_app. split; [apply Hq|done]. }
  intros cs o Hcs. eapply phase_conseq; [apply (Hk (cs0 ++ cs) o); by apply looking_app| |];
    intros *; by rewrite app_assoc.
Qed.

Lemma known_nil ty z cs : known ty z cs [].
Proof. by intros selector id. Qed.

Lemma prepare_phase desired :
  emits (prepare (W := W) config session desired context)
    (phase (Forall quiet)
       (fun cs p => exists resolved, resolve_desired p desired = Ok resolved /\
          prepared config session desired cs resolved)).
Proof.
  unfold prepare. eapply phase_shot_try; [intros d; apply force_all_shot|done| |].
  { intros c Hc. constructor; [|done]. unfold quiet. by rewrite Hc. }
  cbv beta. intros c1 [] (Hop1 & resp1 & Ha1 & Hs1 & Hb1).
  assert (quiet c1) as Hq1 by (unfold quiet; by rewrite Hop1).
  eapply phase_shot_try; [intros d; apply verify_visibility_shot|by constructor| |].
  { intros c Hc. repeat constructor; [done|]. unfold quiet. by rewrite Hc. }
  intros c2 [] (Hop2 & resp2 & Ha2 & Hs2 & Hb2).
  assert (looking [c1; c2]) as Hlook.
  { split; [by exists c1, c2, [], resp1, resp2|]. repeat constructor; [done|].
    unfold quiet. by rewrite Hop2. }
  set (G := fun cs p => exists resolved, resolve_desired p desired = Ok resolved /\
    prepared config session desired cs resolved).
  assert (forall cs p, looking cs ->
    known "Entity" true cs (resolved_entities p) -> known "Profile" false cs (resolved_profiles p) ->
    Forall (fun a => is_Some (bt_lookup (ca_entity a) (resolved_entities p)) /\
                     is_Some (bt_lookup (ca_profile a) (resolved_profiles p))) desired ->
    G cs p) as HG.
  { intros cs p [Hv Hq] He Hp Hall.
    destruct (resolve_desired_known p desired _ He Hp Hall) as (r & ? & ?). by exists r. }
  match goal with |- emits ?m _ =>
    change (emits m (phase (fun cs' => Forall quiet ([c1; c2] ++ cs')) (fun cs' => G ([c1; c2] ++ cs'))))
  end.
  clearbody G. clear - Hlook HG. destruct desired as [|a ds].
  - apply (search_options_try _ _ _ _ G); [done|]. intros cs3 uo Hq3.
    apply (search_options_try _ _ _ _ G); [done|]. intros cs4 puo Hq4. apply phase_ok.
    rewrite app_nil_r. apply HG; [done|apply known_nil..|constructor].
  - apply (search_options_try _ _ _ _ G); [done|]. intros cs1' eo Hq1.
    apply (search_options_try _ _ _ _ G); [done|]. intros cs2' po Hq2.
    apply (search_options_try _ _ _ _ G); [done|]. intros cs3 uo Hq3.
    apply (search_options_try _ _ _ _ G); [done|]. intros cs4 puo Hq4.
    eapply phase_try; [apply (resolve_references_phase eo po (a :: ds) [] [] cs4); apply known_nil| |].
    { intros cs5 ?. apply Forall_app. split; [apply Hq4|done]. }
    intros cs5 [ents profs] (Hq5 & He & Hp & _ & _ & Hall). apply phase_ok. rewrite app_nil_r.
    by apply HG; [apply looking_app|..].
Qed.
End PrepareFacts.

(** ** Facts: mutation and verification *)

Section RunFacts.
Context `{Deps : GlpiDeps} {W : Type} `{!GlpiWorld W}.
Context (config : ValidatedConfig) (session : GlpiSession) (context : SynchronizationContext).
Context (the_user : string) (desired : list CanonicalAssignment).
Abbreviation phase := (phase context config).
Abbreviation M := (Eff (Tr W GlpiCall)).
Abbreviation looked_up := (user_looked_up config session the_user).
Abbreviation owner := (owner config session the_user).
Abbreviation prepared := (prepared config session desired).
Abbreviation progress := (progress config session the_user desired).
Abbreviation reconciled := (reconciled config session the_user desired).

Lemma looked_up_quiet cs o : looked_up cs o -> Forall quiet cs.
Proof.
  intros (idf & nf & active & deleted & cs1 & cs2 & -> & H1 & H2 & _). apply reads_quiet, Forall_app.
  split; by eapply complete_search_read.
Qed.

Lemma user_lookup_phase options :
  emits (resolve_user_id (W := W) config session options the_user context)
    (phase (Forall quiet) looked_up).
Proof.
  eapply phase_conseq; [apply resolve_user_id_phase|apply reads_quiet|].
  intros cs o (idf & nf & active & deleted & cs1 & cs2 & ? & _ & _ & ?).
  by exists idf, nf, active, deleted, cs1, cs2.
Qed.

(** A run that stopped around the user creation. *)
Definition creation_stopped (cs : list GlpiCall) : Prop :=
  Forall quiet cs \/
  exists cs1 c cs2, cs = cs1 ++ c :: cs2 /\ looked_up cs1 None /\
    call_op c = OpCreateUser the_user /\ Forall quiet cs2.

Lemma resolve_owner_phase options :
  emits (resolve_owner (W := W) config session options the_user context)
    (phase creation_stopped (fun cs r => owner r.1 r.2 cs)).
Proof.
  unfold resolve_owner. eapply phase_try; [apply user_lookup_phase|by left|].
  intros cs1 [id|] Hlook; [by apply phase_ok; rewrite app_nil_r; constructor|].
  pose proof (looked_up_quiet _ _ Hlook) as Hq1. unfold create_user_and_resolve_outcome.
  eapply phase_shot_try; [intros d; apply create_user_shot| | |].
  - left. by rewrite app_nil_r.
  - intros c Hop. right. by exists cs1, c, [].
  - intros c id Hc. pose proof (proj1 Hc) as Hop.
    eapply phase_try; [apply user_lookup_phase| |].
    { intros cs2 Hq2. right. by exists cs1, c, cs2. }
    intros cs2 o Hlook2. pose proof (looked_up_quiet _ _ Hlook2) as Hq2.
    case_bool_decide as Heq; simpl.
    + subst o. apply phase_ok. rewrite app_nil_r. by constructor.
    + apply phase_err. rewrite app_nil_r. right. by exists cs1, c, cs2.
Qed.

Lemma apply_removals_phase ids n :
  emits (apply_removals (W := W) config session context ids n)
    (phase (fun cs => call_op <$> cs `prefix_of` (OpDeleteAssignment <$> ids))
       (fun cs n' => Forall2 confirmed (OpDeleteAssignment <$> ids) cs /\
          n' = (n + N.of_nat (length ids))%N)).
Proof.
  revert n. induction ids as [|id ids IH]; intros n; csimpl.
  { apply phase_ok. split; [constructor|lia]. }
  eapply phase_shot_try; [intros d; apply delete_assignment_shot|apply prefix_nil| |].
  { intros c Hop. csimpl. rewrite Hop. apply prefix_cons, prefix_nil. }
  intros c [] Hc. pose proof (proj1 Hc) as Hop.
  eapply phase_conseq; [apply IH| |]; cbv beta.
  - intros cs Hp. csimpl. rewrite Hop. by apply prefix_cons.
  - intros cs n' [Hall ->]. split; [by constructor|lia].
Qed.

Definition addition_op (user_id : N) (a : Addition) : GlpiOp :=
  OpCreateAssignment user_id (add_profiles_id a) (add_entities_id a) (add_recursive a).

Lemma apply_additions_phase user_id l n :
  emits (apply_additions (W := W) config session context user_id l n)
    (phase (fun cs => call_op <$> cs `prefix_of` (addition_op user_id <$> l))
       (fun cs n' => Forall2 confirmed (addition_op user_id <$> l) cs /\
          n' = (n + N.of_nat (length l))%N)).
Proof.
  revert n. induction l as [|a l IH]; intros n; csimpl.
  { apply phase_ok. split; [constructor|lia]. }
  eapply phase_shot_try; [intros d; apply create_assignment_shot|apply prefix_nil| |].
  { intros c Hop. csimpl. rewrite Hop. apply prefix_cons, prefix_nil. }
  intros c id Hc. pose proof (proj1 Hc) as Hop.
  eapply phase_conseq; [apply IH| |]; cbv beta.
  - intros cs Hp. csimpl. rewrite Hop. by apply prefix_cons.
  - intros cs n' [Hall ->]. split; [|lia]. constructor; [by exists id|done].
Qed.

Lemma confirmed_ops ops cs : Forall2 confirmed ops cs -> call_op <$> cs = ops.
Proof.
  induction 1 as [|op c ops cs Hc _ IH]; [done|]. csimpl. rewrite IH. f_equal.
  unfold confirmed, confirmed_create, confirmed_delete in Hc. destruct op; naive_solver.
Qed.

Lemma progress_owner csA resolved user_id n csB post :
  prepared csA resolved -> owner user_id n csB -> Forall quiet post ->
  progress (csA ++ csB ++ post).
Proof.
  intros HA HB Hq. destruct HB as [cs Hl|cs1 c cs2 Hn Hc Hl].
  - apply stopped_before. pose proof (looked_up_quiet _ _ Hl) as Hq2.
    rewrite !Forall_app. split_and!; [apply HA|done|done].
  - rewrite <- app_assoc. simpl. eapply stopped_creating; [done|done|apply Hc|].
    apply Forall_app. split; [by eapply looked_up_quiet|done].
Qed.

Lemma progress_creation csA resolved cs :
  prepared csA resolved -> creation_stopped cs -> progress (csA ++ cs).
Proof.
  intros HA [Hq|(cs1 & c & cs2 & -> & Hl & Hop & Hq)].
  - apply stopped_before. apply Forall_app. split; [apply HA|done].
  - by eapply stopped_creating.
Qed.

Lemma snapshot_quiet options user_id cs current :
  snapshot config session options the_user user_id cs current -> Forall quiet cs.
Proof. intros H. by eapply reads_quiet, snapshot_reads. Qed.

Lemma current_phase options user_id :
  emits (read_current_assignments (W := W) config session options the_user user_id context)
    (phase (Forall quiet) (snapshot config session options the_user user_id)).
Proof. eapply phase_conseq; [apply read_current_phase|apply reads_quiet|done]. Qed.

Lemma reconciled_progress cs outcome : reconciled cs outcome -> progress cs.
Proof.
  intros (csA & resolved & user_id & n & csB & options & current & snap & muts & verified & ver &
    -> & HA & HB & Hs & Hconf & Hv & _).
  eapply stopped_mutating; [done..| |by eapply snapshot_quiet].
  by rewrite (confirmed_ops _ _ Hconf).
Qed.

(** The mutation counter decides the outcome. *)
Lemma counted_outcome user_id p n muts :
  Forall2 confirmed (intended user_id p) muts ->
  (if (0 <? n + N.of_nat (length (removals p)) + N.of_nat (length (additions p)))%N
   then Changed else Unchanged) =
  (if bool_decide (n = 0%N /\ muts = []) then Unchanged else Changed).
Proof.
  intros Hlen%Forall2_length. unfold intended in Hlen. rewrite length_app, !length_fmap in Hlen.
  destruct (N.ltb_spec 0 (n + N.of_nat (length (removals p)) + N.of_nat (length (additions p)))).
  - rewrite bool_decide_false; [done|]. intros [-> ->]. simpl in Hlen. lia.
  - rewrite bool_decide_true; [done|]. split; [lia|]. apply length_zero_iff_nil. lia.
Qed.

Lemma decided_outcome (b : bool) :
  (if b then eret (Ok Changed) else eret (Ok Unchanged) : M (result ReconciliationOutcome GlpiFailure)) =
  eret (Ok (if b then Changed else Unchanged)).
Proof. by destruct b. Qed.

Lemma reconcile_with_session_phase :
  emits (reconcile_with_session (W := W) config session the_user desired context)
    (phase progress reconciled).
Proof.
  unfold reconcile_with_session.
  eapply phase_try; [apply prepare_phase|by constructor|].
  intros csA p (resolved & Hres & HA).
  eapply phase_try; [apply resolve_owner_phase|by intros cs; apply progress_creation with resolved|].
  intros csB [user_id n] HB. simpl in HB.
  eapply phase_try; [apply current_phase| |].
  { intros cs Hq. by eapply progress_owner. }
  intros snap current Hsnap. rewrite Hres.
  apply phase_lift_try.
  { rewrite app_nil_r. eapply progress_owner; [done|done|by eapply snapshot_quiet]. }
  intros ? [= <-].
  assert (forall muts post, call_op <$> muts `prefix_of` intended user_id (compute current resolved) ->
    Forall quiet post -> progress (csA ++ csB ++ snap ++ muts ++ post)) as Hmut
    by (intros; by eapply stopped_mutating).
  eapply phase_try; [apply apply_removals_phase| |].
  { intros cs Hp. rewrite <- (app_nil_r cs). apply Hmut; [by apply prefix_app_r|done]. }
  intros dels n1 [Hdel ->]. pose proof (confirmed_ops _ _ Hdel) as Hdops.
  eapply phase_try; [apply apply_additions_phase| |].
  { intros cs Hp. rewrite <- (app_nil_r (dels ++ cs)). apply Hmut; [|done].
    unfold intended. rewrite fmap_app, Hdops. by apply prefix_app. }
  intros adds n2 [Hadd ->]. pose proof (confirmed_ops _ _ Hadd) as Haops.
  assert (Forall2 confirmed (intended user_id (compute current resolved)) (dels ++ adds)) as Hconf
    by (by apply Forall2_app).
  assert (forall post, Forall quiet post ->
    progress (csA ++ csB ++ snap ++ dels ++ adds ++ post)) as Hpost.
  { intros post Hq. rewrite (app_assoc dels). apply Hmut; [|done].
    by rewrite (confirmed_ops _ _ Hconf). }
  apply phase_check; [rewrite app_nil_r; rewrite <- (app_nil_r adds); by apply Hpost|].
  eapply phase_try; [apply current_phase|by intros cs; apply Hpost|].
  intros ver verified Hver.
  destruct (is_canonical verified resolved) eqn:Hcan; simpl.
  2:{ apply phase_err. rewrite app_nil_r. apply Hpost. by eapply snapshot_quiet. }
  rewrite decided_outcome.
  apply phase_ok. rewrite app_nil_r.
  exists csA, resolved, user_id, n, csB, (profile_user_options p), current, snap,
      (dels ++ adds), verified, ver. rewrite <- (app_assoc dels).
  split_and!; try done. by eapply counted_outcome.
Qed.
End RunFacts.

(** ** Facts: whole runs *)

Section WholeRun.
Context `{Deps : GlpiDeps} {W : Type} `{!GlpiWorld W}.
Context (config : ValidatedConfig) (request : TargetAdapterRequest).
Abbreviation M := (Eff (Tr W GlpiCall)).
Abbreviation context := (ar_context request).
Abbreviation the_user := (username (ar_identity request)).
Abbreviation payload_text := (as_json (envelope_payload (ar_desired_state request))).

(** The cleanup requests of a run and how they decide its result. *)
Definition cleaned (outcome r : result ReconciliationOutcome GlpiFailure) (tail : list GlpiCall) : Prop :=
  (tail = [] \/ exists c, tail = [c] /\ call_op c = OpKillSession) /\
  (r = outcome \/ (is_ok outcome = true /\ exists e, r = Err e)).

Lemma cleanup_emits session outcome :
  emits (cleanup (W := W) config session context outcome)
    (fun l r => windowed context config l /\ cleaned outcome r (calls l)).
Proof.
  unfold cleanup. eapply emits_bind;
    [by apply (emits_cancelled (fun l b => l = [ECancelled b]))|]. intros l1 b ->.
  eapply emits_bind.
  { instantiate (1 := fun l _ => calls l = []). destruct b; [by apply emits_ret|].
    eapply emits_bind; [by apply (emits_now (fun l t => calls l = []))|]. intros l2 t Hl2.
    apply emits_ret. by rewrite app_nil_r. }
  intros l2 allowed Hl2.
  assert (forall l, calls l = [] -> windowed context config l /\ cleaned outcome outcome (calls l)) as Hnone.
  { intros l Hl. split; [by apply guarded_no_calls|]. rewrite Hl. split; by left. }
  destruct allowed; [|apply emits_ret; apply Hnone; by rewrite app_nil_r, calls_app, Hl2].
  eapply emits_bind; [apply emits_effective_deadline|]. intros l3 [d|e] [Hc3 Hd].
  2:{ apply emits_ret. apply Hnone. by rewrite app_nil_r, !calls_app, Hl2, Hc3. }
  destruct (Hd d eq_refl) as (t & -> & Ht & Hwin).
  eapply emits_bind; [apply kill_session_shot|]. intros l4 r Hr. apply emits_ret.
  rewrite app_nil_r, !calls_app, Hl2, Hc3. simpl.
  assert (forall c, call_deadline c = d -> windowed context config
    ([ECancelled b] ++ l2 ++ [ECancelled false; ENow t] ++ [ECall c])) as Hw.
  { intros c Hc. apply guarded_app; [by apply guarded_no_calls|].
    apply guarded_app; [by apply guarded_no_calls|]. apply guarded_block.
    split; [done|congruence]. }
  destruct r as [[]|e]; simpl in Hr.
  - destruct Hr as (c & -> & Hdl & Hop). split; [by apply Hw|].
    split; [right; by exists c|]. destruct outcome; auto.
  - assert ((match outcome with Ok _ => Err e | Err p => Err p end) = outcome \/
      is_ok outcome = true /\ exists e', (match outcome with Ok _ => Err e | Err p => Err p end
        : result ReconciliationOutcome GlpiFailure) = Err e') as Hres by (destruct outcome; eauto).
    destruct Hr as [->|(c & -> & Hdl & Hop)]; (split; [|split; [|by destruct outcome]]).
    + apply guarded_no_calls. simpl. by rewrite !calls_app, Hl2.
    + by left.
    + by apply Hw.
    + right. by exists c.
Qed.

(** What the calls of a whole run are, given its result. *)
Definition run_spec (cs : list GlpiCall) (r : result ReconciliationOutcome GlpiFailure) : Prop :=
  match r with
  | Ok outcome => exists session desired c0 cs' tail,
      version_get (envelope_version (ar_desired_state request)) = 1%N /\
      parse_and_normalize payload_text = Ok desired /\
      cs = c0 :: cs' ++ tail /\ opened session c0 /\
      reconciled config session the_user desired cs' outcome /\
      (tail = [] \/ exists c, tail = [c] /\ call_op c = OpKillSession)
  | Err _ =>
      cs = [] \/ exists c0 cs' tail, cs = c0 :: cs' ++ tail /\ call_op c0 = OpInitSession /\
        (cs' = [] \/ exists session desired,
           parse_and_normalize payload_text = Ok desired /\ opened session c0 /\
           progress config session the_user desired cs') /\
        (tail = [] \/ exists c, tail = [c] /\ call_op c = OpKillSession)
  end.

Lemma session_run_emits session desired c0 :
  version_get (envelope_version (ar_desired_state request)) = 1%N ->
  parse_and_normalize payload_text = Ok desired -> opened session c0 ->
  emits (let* outcome := reconcile_with_session (W := W) config session the_user desired context in
         cleanup config session context outcome)
    (fun l r => windowed context config l /\ run_spec (c0 :: calls l) r).
Proof.
  intros Hver Hparse Hopen. eapply emits_bind; [apply reconcile_with_session_phase|].
  intros l1 outcome [Hw1 Hrun]. eapply emits_conseq; [apply cleanup_emits|].
  intros l2 r (Hw2 & Htail & Hres). split; [by apply guarded_app|].
  rewrite calls_app. destruct r as [o|e].
  - destruct Hres as [<-|(_ & e & ?)]; [|done].
    by exists session, desired, c0, (calls l1), (calls l2).
  - right. exists c0, (calls l1), (calls l2). split; [done|]. split; [apply Hopen|].
    split; [|done]. right. exists session, desired. split; [done|]. split; [done|].
    destruct outcome; [by eapply reconciled_progress|done].
Qed.

Lemma reconcile_emits :
  emits (reconcile (W := W) config request)
    (fun l r => windowed context config l /\ run_spec (calls l) r).
Proof.
  unfold reconcile.
  assert (forall (l : list (event GlpiCall)) e, calls l = [] ->
    windowed context config l /\ run_spec (calls l) (Err e)) as Hnone.
  { intros l e Hl. split; [by apply guarded_no_calls|]. left. done. }
  eapply emits_try; [apply emits_check_context| |by intros; apply Hnone].
  intros l1 [] Hl1. destruct (N.eqb_spec (version_get (envelope_version (ar_desired_state request))) 1)
    as [Hv|Hv]; simpl; [|apply emits_ret, Hnone; by rewrite app_nil_r].
  destruct (parse_and_normalize payload_text) as [desired|e] eqn:Hparse;
    [|by apply emits_ret, Hnone; rewrite app_nil_r].
  eapply emits_try; [by apply (emits_ret _ (fun l r => l = [] /\ r = Ok desired))| |by intros ? ? [? ?]].
  intros ? ? [-> [= ->]].
  eapply emits_try; [apply emits_effective_deadline| |].
  2:{ intros l2 e [Hc _]. apply Hnone. by rewrite calls_app, Hl1. }
  intros l2 d [_ Hd]. destruct (Hd d eq_refl) as (t & -> & Ht & Hwin).
  assert (forall c, call_deadline c = d ->
    windowed context config (l1 ++ [ECancelled false; ENow t; ECall c])) as Hw.
  { intros c Hc. apply guarded_app; [by apply guarded_no_calls|]. apply guarded_block.
    split; [done|congruence]. }
  eapply emits_try; [apply init_session_shot| |].
  - intros l3 session (c0 & -> & Hdl & Hopen).
    eapply emits_conseq; [by apply (session_run_emits session desired c0)|].
    intros l4 r [Hw4 Hr]. split.
    + pose proof (guarded_app _ _ _ _ (Hw c0 Hdl) Hw4) as H. by rewrite <- app_assoc in H.
    + rewrite !calls_app, Hl1. done.
  - intros l3 e [->|(c0 & -> & Hdl & Hop)].
    + apply Hnone. by rewrite !calls_app, Hl1.
    + split; [by apply Hw|]. right. exists c0, [], []. rewrite !calls_app, Hl1.
      split_and!; auto.
Qed.
End WholeRun.

(** ** Facts: deletions *)

Section Deletions.
Context `{Deps : GlpiDeps} (config : ValidatedConfig) (session : GlpiSession).
Context (the_user : string) (desired : list CanonicalAssignment).

(** Row [id] was read as a row of user [user_id] by one of [cs]. *)
Definition observed (user_id id : N) (cs : list GlpiCall) : Prop :=
  exists c row, c ∈ cs /\ item_read user_id c row /\ row_id row = id.

(** Every deletion follows a read of the very row it removes, as a row of that user. *)
Definition deletes_observed (user_id : N) (cs : list GlpiCall) : Prop :=
  forall pre c post id, cs = pre ++ c :: post -> call_op c = OpDeleteAssignment id -> observed user_id id pre.

Lemma deletes_observed_app user_id cs1 cs2 :
  deletes_observed user_id cs1 ->
  (forall pre c post id, cs2 = pre ++ c :: post -> call_op c = OpDeleteAssignment id ->
     observed user_id id (cs1 ++ pre)) ->
  deletes_observed user_id (cs1 ++ cs2).
Proof.
  intros H1 H2 pre c post id Heq Hop. apply app_eq_app in Heq as (k & [[-> Hk]|[-> Hk]]).
  - destruct k as [|c' k]; simpl in Hk.
    + specialize (H2 [] c post id (eq_sym Hk) Hop). by rewrite !app_nil_r in H2.
    + injection Hk as <- ->. by eapply H1.
  - by eapply H2.
Qed.

Lemma no_deletion_observed user_id cs :
  Forall (fun c => forall id, call_op c <> OpDeleteAssignment id) cs -> deletes_observed user_id cs.
Proof. intros H pre c post id -> Hop. apply Forall_app in H as [_ [H _]%Forall_cons]. by destruct (H id). Qed.

Lemma quiet_no_deletion (cs : list GlpiCall) :
  Forall quiet cs -> Forall (fun c => forall id, call_op c <> OpDeleteAssignment id) cs.
Proof.
  intros H. eapply Forall_impl; [exact H|]. intros c Hc id Hop. unfold quiet in Hc. by rewrite Hop in Hc.
Qed.

Lemma owner_no_deletion user_id n cs :
  owner config session the_user user_id n cs ->
  Forall (fun c => forall id, call_op c <> OpDeleteAssignment id) cs.
Proof.
  intros [cs' H|cs1 c cs2 H1 [Hop _] H2].
  - eapply quiet_no_deletion, looked_up_quiet, H.
  - apply Forall_app. split; [eapply quiet_no_deletion, looked_up_quiet, H1|].
    constructor; [by rewrite Hop|]. eapply quiet_no_deletion, looked_up_quiet, H2.
Qed.

Lemma snapshot_observes options user_id snap current row :
  snapshot config session options the_user user_id snap current -> row ∈ current ->
  observed user_id (row_id row) snap.
Proof.
  intros (idf & nf & rows & cs1 & cs2 & -> & _ & _ & _ & _ & Hall) Hrow.
  apply list_elem_of_lookup_1 in Hrow as (i & Hi).
  destruct (Forall2_lookup_r _ _ _ _ _ Hall Hi) as (c & Hc & Hread).
  exists c, row. split; [|done]. apply elem_of_app. right. by eapply list_elem_of_lookup_2.
Qed.

Lemma planned_deletions_observed options user_id snap current resolved muts pre0 :
  snapshot config session options the_user user_id snap current ->
  call_op <$> muts `prefix_of` intended user_id (compute current resolved) ->
  forall pre c post id, muts = pre ++ c :: post -> call_op c = OpDeleteAssignment id ->
    observed user_id id (pre0 ++ snap ++ pre).
Proof.
  intros Hsnap [k Hk] pre c post id -> Hop.
  assert (OpDeleteAssignment id ∈ intended user_id (compute current resolved)) as Hin.
  { rewrite Hk, fmap_app, fmap_cons, Hop. set_solver. }
  unfold intended in Hin. apply elem_of_app in Hin as [Hin|Hin];
    apply list_elem_of_fmap in Hin as (x & Heq & Hx); [|done]. injection Heq as ->.
  apply (removals_from_current current resolved) in Hx as (row & Hrow & <-).
  destruct (snapshot_observes _ _ _ _ _ Hsnap Hrow) as (c' & r & Hc' & ?).
  exists c', r. split; [|done]. rewrite !elem_of_app. auto.
Qed.

Lemma progress_deletes cs : progress config session the_user desired cs -> exists user_id, deletes_observed user_id cs.
Proof.
  intros [cs' Hq|csA resolved cs1 c cs2 HA Hl Hop Hq
         |csA resolved user_id n csB options current snap muts post HA HB Hs Hp Hq].
  - exists 0%N. by apply no_deletion_observed, quiet_no_deletion.
  - exists 0%N. apply no_deletion_observed. rewrite !Forall_app, Forall_cons. split_and!.
    + apply quiet_no_deletion, HA.
    + eapply quiet_no_deletion, looked_up_quiet, Hl.
    + by rewrite Hop.
    + by apply quiet_no_deletion.
  - exists user_id. apply quiet_no_deletion in Hq. apply snapshot_quiet in Hs as Hsq.
    replace (csA ++ csB ++ snap ++ muts ++ post) with (((csA ++ csB) ++ snap) ++ muts ++ post)
      by (by rewrite <- !app_assoc).
    apply deletes_observed_app.
    + apply no_deletion_observed. rewrite !Forall_app. split_and!;
        [apply quiet_no_deletion, HA|by eapply owner_no_deletion|by apply quiet_no_deletion].
    + intros pre c post' id Heq Hop. apply app_eq_app in Heq as (k & [[-> Hk]|[-> Hk]]).
      * destruct k as [|c' k]; simpl in Hk.
        -- subst post. apply Forall_cons in Hq as [Hq _]. by destruct (Hq id).
        -- injection Hk as <- ->. rewrite <- app_assoc. by eapply planned_deletions_observed.
      * subst post. apply Forall_app in Hq as [_ [Hq _]%Forall_cons]. by destruct (Hq id).
Qed.
End Deletions.

Lemma run_spec_deletes `{Deps : GlpiDeps} config request cs r :
  run_spec config request cs r -> exists user_id, deletes_observed user_id cs.
Proof.
  assert (forall c0 cs' tail, call_op c0 = OpInitSession -> (exists user_id, deletes_observed user_id cs') ->
    (tail = [] \/ exists c, tail = [c] /\ call_op c = OpKillSession) ->
    exists user_id, deletes_observed user_id (c0 :: cs' ++ tail)) as Hwrap.
  { intros c0 cs' tail H0 [user_id Hd] Ht. exists user_id. apply (deletes_observed_app user_id [c0]).
    - apply no_deletion_observed. constructor; [by rewrite H0|done].
    - intros pre c post id Heq Hop.
      assert (deletes_observed user_id (cs' ++ tail)) as Hd'.
      { apply deletes_observed_app; [done|]. intros pre' c' post' id' -> Hop'.
        destruct Ht as [Ht|(ck & Ht & Hck)]; [by destruct pre'|].
        destruct pre' as [|? [|]]; simplify_eq/=. by rewrite Hop' in Hck. }
      destruct (Hd' _ _ _ _ Heq Hop) as (c' & row & Hin & ?).
      exists c', row. split; [set_solver|done]. }
  destruct r as [outcome|e].
  - intros (session & desired & c0 & cs' & tail & _ & _ & -> & [H0 _] & Hr & Ht).
    apply Hwrap; [done| |done]. by eapply progress_deletes, reconciled_progress.
  - intros [->|(c0 & cs' & tail & -> & H0 & Hcs & Ht)]; [exists 0%N; by intros [|]|].
    apply Hwrap; [done| |done].
    destruct Hcs as [->|(session & desired & _ & _ & Hp)]; [exists 0%N; by intros [|]|by eapply progress_deletes].
Qed.

(** ** Properties *)

Section Properties.
Context `{Deps : GlpiDeps} {W : Type} `{!GlpiWorld W}.

(** C6: a reconciliation that reports an outcome opened one
    session, confirmed complete visibility, resolved every reference by complete
    exact searches, settled the owning user, carried out the whole plan computed
    from one authoritative snapshot with every mutation confirmed, and verified
    by a second authoritative snapshot that the state is canonical; it reports
    [Changed] exactly when at least one mutation was confirmed. *)
Theorem reconcile_success (config : ValidatedConfig) (request : TargetAdapterRequest) (w : W) :
  let '(r, s) := reconcile config request (mkTr w []) in
  forall outcome, r = Ok outcome ->
  exists session desired c0 cs tail,
    version_get (envelope_version (ar_desired_state request)) = 1%N /\
    parse_and_normalize (as_json (envelope_payload (ar_desired_state request))) = Ok desired /\
    calls (trace s) = c0 :: cs ++ tail /\ opened session c0 /\
    reconciled config session (username (ar_identity request)) desired cs outcome /\
    (tail = [] \/ exists c, tail = [c] /\ call_op c = OpKillSession).
Proof.
  pose proof (emits_run _ _ w (reconcile_emits (W := W) config request)) as [_ H].
  destruct (reconcile config request _) as [r s]. intros outcome ->. exact H.
Qed.

(** C7: a failed reconciliation made no request, or opened a
    session and then got no further than one of the stages: nothing changed yet;
    one user creation attempted, after complete visibility, resolved references
    and a completed lookup that found no such user; or a prefix of the planned
    deletions and creations, in plan order, of one authoritative snapshot.  The
    session is closed at most once, by the last request. *)
Theorem reconcile_failure (config : ValidatedConfig) (request : TargetAdapterRequest) (w : W) :
  let '(r, s) := reconcile config request (mkTr w []) in
  forall e, r = Err e ->
  calls (trace s) = [] \/
  exists c0 cs tail, calls (trace s) = c0 :: cs ++ tail /\ call_op c0 = OpInitSession /\
    (cs = [] \/ exists session desired,
       parse_and_normalize (as_json (envelope_payload (ar_desired_state request))) = Ok desired /\
       opened session c0 /\
       progress config session (username (ar_identity request)) desired cs) /\
    (tail = [] \/ exists c, tail = [c] /\ call_op c = OpKillSession).
Proof.
  pose proof (emits_run _ _ w (reconcile_emits (W := W) config request)) as [_ H].
  destruct (reconcile config request _) as [r s]. intros e ->. exact H.
Qed.

(** Immediately before every GLPI request of a
    reconciliation, cleanup included, the code polled cancellation and got no,
    read a time before the overall deadline, and gave the request exactly the
    deadline min(overall deadline, that time + operation timeout). *)
Lemma reconcile_windowed (config : ValidatedConfig) (request : TargetAdapterRequest) (w : W) :
  windowed (ar_context request) config (trace (reconcile config request (mkTr w [])).2).
Proof. apply (emits_run _ _ w (reconcile_emits (W := W) config request)). Qed.

(** An envelope of another version than 1, or a payload
    that does not normalize, never causes a request. *)
Lemma reconcile_rejects_without_request (config : ValidatedConfig) (request : TargetAdapterRequest)
    (w : W) :
  let '(r, s) := reconcile config request (mkTr w []) in
  (version_get (envelope_version (ar_desired_state request)) = 1%N /\
   exists desired,
     parse_and_normalize (as_json (envelope_payload (ar_desired_state request))) = Ok desired) \/
  (is_ok r = false /\ calls (trace s) = []).
Proof.
  pose proof (emits_check_context (W := W) (ar_context request) (deadline (ar_context request)) (mkTr w []))
    as (l & Ht & Hl).
  unfold reconcile, etry at 1, ebind at 1.
  destruct (check_context _ _ _) as [[[]|e] s]; simpl in Ht; [|right; simpl; by rewrite Ht].
  destruct (N.eqb_spec (version_get (envelope_version (ar_desired_state request))) 1) as [Hv|Hv];
    simpl; [|right; by rewrite Ht].
  destruct (parse_and_normalize _) as [desired|e] eqn:Hp; simpl; [|right; by rewrite Ht].
  match goal with |- context [match ?x with pair _ _ => _ end] => destruct x as [r s'] end.
  left. split; [done|]. eauto.
Qed.

(** Every deletion removes a row that this very run read before. *)
Lemma reconcile_deletes_observed (config : ValidatedConfig) (request : TargetAdapterRequest) (w : W) :
  exists user_id, deletes_observed user_id (calls (trace (reconcile config request (mkTr w [])).2)).
Proof.
  pose proof (emits_run _ _ w (reconcile_emits (W := W) config request)) as [_ H].
  by eapply run_spec_deletes.
Qed.

(** A session that was opened is closed by exactly one kill request,
    unless cancellation or expiry was observed, when cleanup is skipped and the
    outcome stands, or the request cannot be built, which is an error.  A failure
    is never replaced; a success stands exactly when the kill was acknowledged
    and becomes an error otherwise. *)
Lemma cleanup_closes_session (config : ValidatedConfig) (session : GlpiSession)
    (context : SynchronizationContext) (outcome : result ReconciliationOutcome GlpiFailure) (w : W) :
  let '(r, s) := cleanup config session context outcome (mkTr w []) in
  match calls (trace s) with
  | [] =>
      (r = outcome /\ (ECancelled true ∈ trace s \/
         exists t, ENow t ∈ trace s /\ (deadline context <= t)%Z)) \/
      (is_ok r = false /\
       is_ok (join_base config "killSession") && is_ok (session_headers session config) = false)
  | [c] => call_op c = OpKillSession /\ (call_deadline c <= deadline context)%Z /\
      is_ok r = is_ok outcome && kill_acknowledged c
  | _ => False
  end /\
  (forall e, outcome = Err e -> r = Err e) /\ (forall o, r = Ok o -> outcome = Ok o).
Proof.
  unfold cleanup, effective_deadline, ebind, read_cancelled, read_now. simpl.
  destruct (is_cancelled w) as [[] w1] eqn:E1; simpl.
  { split; [left|naive_solver]. split; [done|]. left. set_solver. }
  destruct (now w1) as [t1 w2] eqn:E2; simpl.
  destruct (Z.ltb_spec t1 (deadline context)) as [Ht1|Ht1]; simpl.
  2:{ split; [left|naive_solver]. split; [done|]. right. exists t1. split; [set_solver|done]. }
  destruct (is_cancelled w2) as [[] w3] eqn:E3; simpl.
  { split; [left|naive_solver]. split; [done|]. left. set_solver. }
  destruct (now w3) as [t2 w4] eqn:E4; simpl.
  destruct (Z.leb_spec (deadline context) t2) as [Ht2|Ht2]; simpl.
  { split; [left|naive_solver]. split; [done|]. right. exists t2. split; [set_solver|done]. }
  destruct (kill_session_exact config session (Z.min (deadline context)
    (default (deadline context) (instant_checked_add t2 (operation_timeout config))))
    (mkTr w4 [ECancelled false; ENow t1; ECancelled false; ENow t2]))
    as [(e & -> & Hb)|(c & r & w' & -> & Ho & Hd & Hr)]; simpl.
  - split; [right; by destruct outcome|]. destruct outcome; naive_solver.
  - rewrite Hd. split; [split; [done|]; split; [lia|]|]; destruct outcome, r; naive_solver.
Qed.

(** The adapter behind the [TargetAdapter] port: its failures are wrapped. *)
#[global] Instance GlpiAdapter : TargetAdapter W ValidatedConfig GlpiFailure :=
  fun config request w =>
    let '(r, s) := reconcile config request (mkTr w []) in (map_err mkAdapterError r, world s).
End Properties.

(** ** A concrete run

    A scripted GLPI: the answers come in order, the clock stands still and
    nothing is cancelled.  The user holds row 17, entity 0 and profile 4,
    recursive; the desired state is the same grant, not recursive. *)
Module Sample.
Abbreviation Script := (list (result RawResponse GlpiFailure)).

Definition member (uid : string) : Value := VObject [("uid", VString uid)].
Definition number (n : N) : Value := VNumber (PosInt n).
Definition options_of (uid1 uid2 : string) : Value := VObject [("1", member uid1); ("2", member uid2)].
Definition item (id recursive : N) : Value :=
  VObject [("id", number id); ("users_id", number 7); ("profiles_id", number 4);
           ("entities_id", number 0); ("is_recursive", number recursive)].
Definition one_row (id : N) (name : string) : WireSearchPage :=
  mkWireSearchPage 1 1 "0-0/1" (Present [VObject [("1", number id); ("2", VString name)]]).

Definition documents : Documents :=
  mkDocuments
    [("full", VObject [("glpishowallentities", number 1)]);
     ("entity options", options_of "Entity.id" "Entity.completename");
     ("profile options", options_of "Profile.id" "Profile.name");
     ("user options", options_of "User.id" "User.name");
     ("row options", options_of "Profile_User.id" "Profile_User.User.name");
     ("item 17", item 17 1); ("item 18", item 18 0);
     ("ack", VArray [VObject [("17", VBool true); ("message", VString "gone")]])]
    [("payload", mkRawPayload [mkRawPermission "Root" "Admin" false])]
    [("created", mkCreatedResponse 18 "done" None)]
    [("session", "token")]
    [("entity", one_row 0 "Root"); ("profile", one_row 4 "Admin"); ("user", one_row 7 "jane");
     ("none", mkWireSearchPage 0 0 "0--1/0" Missing);
     ("row 17", one_row 17 "jane"); ("row 18", one_row 18 "jane")].

#[local] Instance deps : GlpiDeps := table_deps documents.
#[local] Instance script_clock : Clock Script :=
  {| now := fun w => (0%Z, w); is_cancelled := fun w => (false, w) |}.
#[local] Instance script_world : GlpiWorld Script :=
  {| transport_request := fun _ _ w =>
       match w with [] => (Err Transport, []) | a :: w' => (a, w') end |}.

Definition answer (code : N) (document : string) : result RawResponse GlpiFailure :=
  Ok (mkResponse code (as_bytes document)).
Definition script : Script :=
  [answer 200 "session"; answer 200 "true"; answer 200 "full"; answer 200 "entity options";
   answer 200 "profile options"; answer 200 "user options"; answer 200 "row options";
   answer 200 "entity"; answer 200 "profile"; answer 200 "user"; answer 200 "none";
   answer 200 "row 17"; answer 200 "item 17"; answer 200 "ack"; answer 201 "created";
   answer 200 "row 18"; answer 200 "item 18"; answer 200 "true"].

Definition config : ValidatedConfig :=
  mkValidatedConfig (H := deps) "https://glpi/" "app" "user" 5 DefaultSource.
Definition request : TargetAdapterRequest :=
  mkAdapterRequest (mkIdentityContext "jane" [])
    (mkEnvelope (mkEnvelopeVersion 1) (mkOpaquePayload "payload")) (mkContext 100).

(** The run replaces the recursive row, verifies and reports a change. *)
Example sample_run :
  let '(r, s) := reconcile config request (mkTr script []) in
  r = Ok Changed /\
  filter (fun op => is_mutation op = true) (call_op <$> calls (trace s)) =
    [OpDeleteAssignment 17; OpCreateAssignment 7 4 0 false].
Proof. vm_compute. done. Qed.

(** Without answers the run opens no session and fails. *)
Example sample_failed_run :
  let '(r, s) := reconcile config request (mkTr [] []) in
  r = Err Transport /\ call_op <$> calls (trace s) = [OpInitSession].
Proof. vm_compute. done. Qed.

Lemma reconcile_success_witness :
  exists session desired c0 cs tail,
    parse_and_normalize "payload" = Ok desired /\
    calls (trace (reconcile config request (mkTr script [])).2) = c0 :: cs ++ tail /\
    opened session c0 /\ reconciled config session "jane" desired cs Changed.
Proof.
  pose proof (reconcile_success config request script) as H.
  assert ((reconcile config request (mkTr script [])).1 = Ok Changed) as Hr by (vm_compute; reflexivity).
  destruct (reconcile config request (mkTr script [])) as [r s]. simpl in Hr |- *.
  destruct (H Changed Hr) as (session & desired & c0 & cs & tail & _ & Hp & Hc & Ho & Hrec & _).
  exists session, desired, c0, cs, tail. split; [exact Hp|]. split; [exact Hc|].
  split; [exact Ho|exact Hrec].
Defined.

Lemma reconcile_failure_witness :
  exists c0 cs tail,
    calls (trace (reconcile config request (mkTr [] [])).2) = c0 :: cs ++ tail /\
    call_op c0 = OpInitSession.
Proof.
  pose proof (reconcile_failure config request []) as H.
  assert ((reconcile config request (mkTr [] [])).1 = Err Transport) as Hr by (vm_compute; reflexivity).
  assert (length (calls (trace (reconcile config request (mkTr [] [])).2)) = 1) as Hne
    by (vm_compute; reflexivity).
  destruct (reconcile config request (mkTr [] [])) as [r s]. simpl in Hr, Hne |- *.
  destruct (H Transport Hr) as [He|(c0 & cs & tail & Hc & Ho & _)]; [by rewrite He in Hne|].
  exists c0, cs, tail. split; [exact Hc|exact Ho].
Defined.
End Sample.
