(* ===== verification/GlpiWire.v ===== *)
(** * GLPI adapter: what goes over the wire

    The specifications of [GlpiAdapter] name the operations of a run.  Here is what each
    operation sends: method, resource and body of every request of a reconciliation
    ([on_wire]), and which rows it deletes. *)
From S2P Require Import Prelude BTree Core Json Net GlpiBase.
From S2P Require Import GlpiSession GlpiPlan GlpiPayload GlpiSearch GlpiMutation GlpiAdapter.

Section Wire.
Context `{Deps : GlpiDeps} (config : ValidatedConfig).

(** A request for the resource at [path] of the configured API. *)
Definition asks (method : Method) (path : string) (b : option bytes) (req : HttpRequest) : Prop :=
  req_method req = method /\ url_join (base config) path = Some (req_url req) /\ req_body req = b.

(** The resource of an assignment row. *)
Definition row_path (id : N) : string := "Profile_User/" +:+ u64_to_string id.

Definition number_of (z : Z) : Value := VNumber (if (0 <=? z)%Z then PosInt (Z.to_N z) else NegInt z).

(** The documents that create a user and an assignment. *)
Definition user_document (name : string) : Value :=
  VObject [("input", VObject (("name", VString name) ::
    match authentication_source config with
    | Explicit authtype auths_id => [("authtype", number_of authtype); ("auths_id", number_of auths_id)]
    | DefaultSource => []
    end))].
Definition assignment_document (user profile entity : N) (recursive : bool) : Value :=
  VObject [("input", VObject
    [("users_id", VNumber (PosInt user)); ("profiles_id", VNumber (PosInt profile));
     ("entities_id", VNumber (PosInt entity)); ("is_recursive", VBool recursive)])].

(** The request of each operation. *)
Definition on_wire (c : GlpiCall) : Prop :=
  let req := call_request c in
  match call_op c with
  | OpInitSession => asks GET "initSession" None req
  | OpChangeActiveEntities => asks POST "changeActiveEntities" (Some active_entities_body) req
  | OpGetFullSession => asks GET "getFullSession" None req
  | OpKillSession => asks GET "killSession" None req
  | OpListSearchOptions itemtype => asks GET ("listSearchOptions/" +:+ itemtype) None req
  | OpSearch ty first last => exists url q, url_join (base config) ("search/" +:+ ty) = Some url /\
      itemtype q = ty /\ req_method req = GET /\ req_url req = page_url q first last url /\ req_body req = None
  | OpReadItem id => asks GET (row_path id) None req
  | OpCreateUser name => exists b, to_vec (user_document name) = Some b /\ asks POST "User" (Some b) req
  | OpCreateAssignment user profile entity recursive => exists b,
      to_vec (assignment_document user profile entity recursive) = Some b /\ asks POST "Profile_User" (Some b) req
  | OpDeleteAssignment id => asks DELETE (row_path id) None req
  end.

Lemma only_deletions_delete c : on_wire c -> req_method (call_request c) = DELETE ->
  exists id, call_op c = OpDeleteAssignment id.
Proof.
  unfold on_wire, asks. destruct (call_op c); intros H Hm; eauto; exfalso; destruct_and?; destruct_or?;
    naive_solver congruence.
Qed.

(** ** Every request of a run *)

Context {W : Type} `{!GlpiWorld W}.
Abbreviation M := (Eff (Tr W GlpiCall)).

(** Every request of [m] is the one its operation prescribes. *)
Definition issues {A} (m : M A) : Prop := emits m (fun l _ => Forall on_wire (calls l)).

Lemma issues_ret {A} (a : A) : issues (eret a).
Proof. apply emits_ret. constructor. Qed.

Lemma issues_bind {A B} (m : M A) (k : A -> M B) : issues m -> (forall a, issues (k a)) -> issues (ebind m k).
Proof.
  intros Hm Hk. eapply emits_bind; [exact Hm|]. intros l a Hl. eapply emits_conseq; [apply Hk|].
  intros l' b Hl'. rewrite calls_app. by apply Forall_app.
Qed.

Lemma issues_try {A B} (m : M (result A GlpiFailure)) (k : A -> M (result B GlpiFailure)) :
  issues m -> (forall a, issues (k a)) -> issues (etry m k).
Proof. intros Hm Hk. apply issues_bind; [exact Hm|]. intros [a|e]; [apply Hk|apply issues_ret]. Qed.

Lemma issues_lift {A B} (r : result A GlpiFailure) (k : A -> M (result B GlpiFailure)) :
  (forall a, r = Ok a -> issues (k a)) -> issues (etry (elift r) k).
Proof. intros Hk. apply emits_lift; [exact Hk|]. constructor. Qed.

Lemma issues_now : issues read_now.
Proof. apply emits_now. constructor. Qed.
Lemma issues_cancelled : issues read_cancelled.
Proof. apply emits_cancelled. constructor. Qed.

Lemma issues_send op req d : (forall a, on_wire (mkCall op req d a)) -> issues (send op req d).
Proof. intros H. apply emits_send. intros a. simpl. by constructor. Qed.

Lemma issues_iterate {S R} (step : S -> M (result (S + R) GlpiFailure)) p s :
  (forall s, issues (step s)) -> issues (iterate p step s).
Proof.
  intros Hs. revert s. induction p as [p IH|p IH|]; intros s; simpl; [| |apply Hs].
  - apply issues_try; [apply Hs|]. intros [s'|r]; [|apply issues_ret].
    apply issues_try; [apply IH|]. intros [s''|r]; [apply IH|apply issues_ret].
  - apply issues_try; [apply IH|]. intros [s'|r]; [apply IH|apply issues_ret].
Qed.
End Wire.

Create HintDb wire discriminated.
#[global] Hint Constants Opaque : wire.
#[global] Hint Resolve issues_now issues_cancelled : wire.

(** Walks through a computation to its requests. *)
Ltac issue :=
  repeat lazymatch goal with
  | |- issues _ (let _ := _ in _) => cbv zeta
  | |- issues _ (etry (elift _) _) => apply issues_lift; intros ? ?
  | |- issues _ (etry _ _) => apply issues_try; [|intros ?]
  | |- issues _ (ebind _ _) => apply issues_bind; [|intros ?]
  | |- issues _ (elift _) => apply issues_ret
  | |- issues _ (eret _) => apply issues_ret
  | |- issues _ (iterate _ _ _) => apply issues_iterate; intros ?
  | |- issues _ (send _ _ _) => apply issues_send; intros ?
  | |- issues _ (if ?b then _ else _) => destruct b
  | |- issues _ (match ?x with _ => _ end) => destruct x
  | |- issues _ _ => solve [eauto with wire nocore]
  end.

Section Operations.
Context `{Deps : GlpiDeps} (config : ValidatedConfig) {W : Type} `{!GlpiWorld W}.
Abbreviation issues := (issues (W := W) config).

Lemma joined path url : join_base config path = Ok url -> url_join (base config) path = Some url.
Proof. apply ok_or_ok_inv. Qed.

Lemma printed v b : ok_or (to_vec v) MutationFailed = Ok b -> to_vec v = Some b.
Proof. apply ok_or_ok_inv. Qed.

Lemma issues_check context limit : issues (check_context context limit).
Proof. unfold check_context. issue. Qed.
Lemma issues_window context timeout : issues (effective_deadline context timeout).
Proof. unfold effective_deadline. issue. Qed.
#[local] Hint Resolve issues_check issues_window : wire.

(** *** Session *)

Lemma issues_init d : issues (init_session config d).
Proof. unfold init_session. issue. split_and!; [done|by apply joined|done]. Qed.
Lemma issues_force session d : issues (force_all_entities config session d).
Proof. unfold force_all_entities. issue. split_and!; [done|by apply joined|done]. Qed.
Lemma issues_visibility session d : issues (verify_complete_visibility config session d).
Proof. unfold verify_complete_visibility. issue. split_and!; [done|by apply joined|done]. Qed.
Lemma issues_kill session d : issues (kill_session config session d).
Proof. unfold kill_session. issue. split_and!; [done|by apply joined|done]. Qed.

(** *** Mutations *)

Lemma issues_delete session id d : issues (delete_assignment config session id d).
Proof. unfold delete_assignment. issue. split_and!; [done|by apply joined|done]. Qed.
Lemma issues_create_user session name d :
  issues (create_user config session name (authentication_source config) d).
Proof.
  unfold create_user. issue. eexists. split; [apply printed; eassumption|split_and!; [done|by apply joined|done]].
Qed.
Lemma issues_create_assignment session u p e rec d : issues (create_assignment config session u p e rec d).
Proof.
  unfold create_assignment. issue. eexists. split; [apply printed; eassumption|split_and!; [done|by apply joined|done]].
Qed.
#[local] Hint Resolve issues_init issues_force issues_visibility issues_kill issues_delete issues_create_user
  issues_create_assignment : wire.

(** *** Searches *)

Lemma issues_page session q context st : issues (search_page_step config session q context st).
Proof.
  unfold search_page_step. issue.
  match goal with H : page_request _ _ _ _ _ = Ok _ |- _ =>
    apply rbind_ok_inv in H as (url & Hurl & (headers & _ & [= <-])%rbind_ok_inv) end.
  exists url, q. split_and!; [by apply joined|done..].
Qed.
#[local] Hint Resolve issues_page : wire.

Lemma issues_search session q context : issues (search_all_pages config session q context).
Proof. unfold search_all_pages, search_loop. issue. Qed.
#[local] Hint Resolve issues_search : wire.

Lemma issues_options session ty uids context : issues (resolve_search_options config session ty uids context).
Proof.
  unfold resolve_search_options, search_resolve_search_options. issue. split_and!; [done|by apply joined|done].
Qed.
Lemma issues_entity session options selector context : issues (resolve_entity_id config session options selector context).
Proof. unfold resolve_entity_id, resolve_exact_id. issue. Qed.
Lemma issues_profile session options selector context :
  issues (resolve_profile_id config session options selector context).
Proof. unfold resolve_profile_id, resolve_exact_id. issue. Qed.
Lemma issues_user session options name context : issues (resolve_user_id config session options name context).
Proof. unfold resolve_user_id. issue. Qed.
Lemma issues_item session id context : issues (read_profile_user_item config session id context).
Proof. unfold read_profile_user_item. issue. split_and!; [done|by apply joined|done]. Qed.
#[local] Hint Resolve issues_options issues_entity issues_profile issues_user issues_item : wire.

Lemma issues_items session user context ids current : issues (read_items config session user context ids current).
Proof. revert current. induction ids as [|id ids IH]; intros current; simpl; issue. Qed.
#[local] Hint Resolve issues_items : wire.

Lemma issues_current session options name user context :
  issues (read_current_assignments config session options name user context).
Proof. unfold read_current_assignments. issue. Qed.
#[local] Hint Resolve issues_current : wire.

(** *** The run *)

Lemma issues_once (resolve : string -> Eff (Tr W GlpiCall) (result N GlpiFailure)) selector resolved :
  (forall s, issues (resolve s)) -> issues (resolve_once resolve selector resolved).
Proof. intros H. unfold resolve_once. issue. Qed.

Lemma issues_references session eo po context desired es ps :
  issues (resolve_references config session eo po context desired es ps).
Proof.
  revert es ps. induction desired as [|a desired IH]; intros es ps; simpl; [issue|].
  apply issues_try; [eauto with wire nocore|intros []]. apply issues_try; [apply issues_once; intros ?; issue|intros ?].
  apply issues_try; [eauto with wire nocore|intros []]. apply issues_try; [apply issues_once; intros ?; issue|intros ?].
  apply IH.
Qed.

Lemma issues_removals session context ids n : issues (apply_removals config session context ids n).
Proof. revert n. induction ids as [|id ids IH]; intros n; simpl; issue. Qed.
Lemma issues_additions session context user l n : issues (apply_additions config session context user l n).
Proof. revert n. induction l as [|a l IH]; intros n; simpl; issue. Qed.
#[local] Hint Resolve issues_references issues_removals issues_additions : wire.

Lemma issues_reconcile request : issues (reconcile config request).
Proof.
  unfold reconcile, reconcile_with_session, prepare, resolve_owner, create_user_and_resolve_outcome, cleanup. issue.
Qed.
End Operations.

(** ** Which rows are deleted *)

Section Properties.
Context `{Deps : GlpiDeps} {W : Type} `{!GlpiWorld W} (config : ValidatedConfig).

(** One of [cs] asked for the row [id] and was answered 200 with an object that says it
    is that row, of user [user]. *)
Definition row_shown (user id : N) (cs : list GlpiCall) : Prop :=
  exists c resp object, c ∈ cs /\ asks config GET (row_path id) None (call_request c) /\
    call_answer c = Ok resp /\ status resp = 200%N /\ from_slice_value (body resp) = Some (VObject object) /\
    get_u64 object "id" = Some id /\ get_u64 object "users_id" = Some user.

Lemma positive_exact object key n : positive_u64 object key = Some n -> get_u64 object key = Some n.
Proof. unfold positive_u64. destruct (get_u64 object key); [|done]. by destruct (_ =? 0)%N; intros [= ->]. Qed.

Lemma item_shown user id resp item : accept_item id resp = Ok item -> item_users_id item = user ->
  status resp = 200%N /\ exists object, from_slice_value (body resp) = Some (VObject object) /\
    get_u64 object "id" = Some id /\ get_u64 object "users_id" = Some user.
Proof.
  unfold accept_item. destruct (N.eqb_spec (status resp) STATUS_OK) as [Hst|]; [|done]. simpl.
  intros (v & Hv%ok_or_ok_inv & (object & Ho%ok_or_ok_inv & Hp)%rbind_ok_inv)%rbind_ok_inv Hu. split; [done|].
  exists object. destruct v; try done. injection Ho as ->. split; [done|]. unfold parse_profile_user_item in Hp.
  apply rbind_ok_inv in Hp as (id' & Hid%ok_or_ok_inv%positive_exact & Hp).
  destruct (N.eqb_spec id' id) as [->|]; [|done]. simpl in Hp. split; [done|].
  apply rbind_ok_inv in Hp as (u & Hu'%ok_or_ok_inv%positive_exact & Hp).
  apply rbind_ok_inv in Hp as (? & _ & Hp). apply rbind_ok_inv in Hp as (? & _ & Hp).
  apply rbind_ok_inv in Hp as (? & _ & Hp). injection Hp as <-. simpl in Hu. by subst.
Qed.

Lemma observed_shown user id cs : Forall (on_wire config) cs -> observed user id cs -> row_shown user id cs.
Proof.
  rewrite Forall_forall. intros Hall (c & row & Hin & (Hop & resp & Ha & Hacc) & <-).
  specialize (Hall c Hin). unfold on_wire in Hall. rewrite Hop in Hall.
  destruct (item_shown user _ _ _ Hacc eq_refl) as (Hst & object & ?). by exists c, resp, object.
Qed.

(** C25: what a reconciliation sends, whatever it is answered.  Every request has the
    method, the resource and the body of its operation.  In particular a DELETE names one
    assignment row, and the run asked for that very row before, at the same resource, and
    was answered 200 with an object that carries this id; all the rows deleted were shown
    to belong to one and the same user. *)
Theorem reconcile_deletes_only_observed (request : TargetAdapterRequest) (w : W) :
  let cs := calls (trace (reconcile config request (mkTr w [])).2) in
  Forall (on_wire config) cs /\
  exists user, forall pre c post, cs = pre ++ c :: post -> req_method (call_request c) = DELETE ->
    exists id, asks config DELETE (row_path id) None (call_request c) /\ row_shown user id pre.
Proof.
  intros cs. assert (Forall (on_wire config) cs) as Hall.
  { apply (emits_run _ (fun l _ => Forall (on_wire config) (calls l)) w), issues_reconcile. }
  split; [done|]. destruct (reconcile_deletes_observed config request w) as (user & Hdel). fold cs in Hdel.
  exists user. intros pre c post Hcs Hm. rewrite Hcs in Hall. apply Forall_app in Hall as [Hpre [Hc _]%Forall_cons].
  destruct (only_deletions_delete config c Hc Hm) as (id & Hop). exists id. split.
  - unfold on_wire in Hc. by rewrite Hop in Hc.
  - apply observed_shown; [done|]. by apply (Hdel pre c post id).
Qed.
End Properties.

(** ** A concrete run: row 17 is read, then deleted. *)
Module Sample.
#[local] Existing Instance GlpiAdapter.Sample.deps.
#[local] Existing Instance GlpiAdapter.Sample.script_clock.
#[local] Existing Instance GlpiAdapter.Sample.script_world.
Import GlpiAdapter.Sample.

Definition sent : list GlpiCall := calls (trace (reconcile config request (mkTr script [])).2).

Lemma sent_deletion : (fun c => (req_method (call_request c), req_url (call_request c))) <$> sent !! 13 =
  Some (DELETE, "https://glpi/Profile_User/17").
Proof. vm_compute. reflexivity. Qed.

Lemma reconcile_deletes_only_observed_witness :
  exists user id c, sent !! 13 = Some c /\ asks config DELETE (row_path id) None (call_request c) /\
    row_shown config user id (take 13 sent).
Proof.
  destruct (reconcile_deletes_only_observed config request script) as [_ [user H]].
  change (calls (trace (reconcile config request (mkTr script [])).2)) with sent in H.
  pose proof sent_deletion as Hd. destruct (sent !! 13) as [c|] eqn:E; [|discriminate Hd].
  injection Hd as Hm _. exists user.
  destruct (H (take 13 sent) c (drop 14 sent) (eq_sym (take_drop_middle _ _ _ E)) Hm) as (id & Ha & Hr).
  exists id, c. split_and!; [reflexivity|exact Ha|exact Hr].
Defined.
End Sample.
