(* ===== verification/GlpiServer.v ===== *)
(** * GLPI adapter: a compliant GLPI

    The other GLPI files hold for every environment.  Here the environment is a
    GLPI that behaves as its REST API documents ([CompliantGlpi]: tables, sessions
    and one answer per request, stated on the requests the adapter builds), with a
    logic of runs against it ([runs]: success with a postcondition, or an
    interruption) and the effect of every operation of the adapter.
    [GlpiConverge] puts them together. *)
From S2P Require Import Prelude BTree Core Json Net GlpiBase.
From S2P Require Import GlpiSession GlpiPlan GlpiPayload GlpiSearch GlpiMutation GlpiAdapter.

(** ** The tables *)

Record User : Type := mkUser { user_key : N; user_name : string; user_deleted : bool }.
Record Assigned : Type := mkAssigned { assigned_to : N; assigned : CurrentRow }.
Record Database : Type := mkDatabase {
  entities : list (N * string);
  profiles : list (N * string);
  users : list User;
  assignments : list Assigned;
}.

(** The tables, and which sessions are open: [true] when all entities are active. *)
Record Glpi : Type := mkGlpi { database : Database; sessions : gmap string bool }.

Inductive ItemType : Type := TEntity | TProfile | TUser | TProfileUser.
Definition type_name (ty : ItemType) : string :=
  match ty with
  | TEntity => "Entity" | TProfile => "Profile" | TUser => "User" | TProfileUser => "Profile_User"
  end.
Definition id_uid (ty : ItemType) : string := type_name ty +:+ ".id".
Definition name_uid (ty : ItemType) : string :=
  match ty with
  | TEntity => "Entity.completename" | TProfile => "Profile.name" | TUser => "User.name"
  | TProfileUser => "Profile_User.User.name"
  end.

Definition assigned_id (a : Assigned) : N := row_id (assigned a).
Definition name_of (σ : Database) (u : N) : option string :=
  user_name <$> List.find (fun x => bool_decide (user_key x = u)) (users σ).

(** The ids and names a search of one item type ranges over: trashed users are
    apart, and an assignment carries the name of its user. *)
Definition entries (σ : Database) (ty : ItemType) (deleted : option bool) : list (N * string) :=
  match ty with
  | TEntity => entities σ
  | TProfile => profiles σ
  | TUser => (fun x => (user_key x, user_name x)) <$>
      filter (fun x => user_deleted x = default false deleted) (users σ)
  | TProfileUser => omap (fun a => (assigned_id a,.) <$> name_of σ (assigned_to a)) (assignments σ)
  end.

(** The rows of one user. *)
Definition owned (σ : Database) (u : N) : list CurrentRow :=
  assigned <$> filter (fun a => assigned_to a = u) (assignments σ).

(** What a deletion and a creation do to the tables. *)
Definition delete_rows (ids : list N) (σ : Database) : Database :=
  mkDatabase (entities σ) (profiles σ) (users σ)
    (filter (fun a => assigned_id a ∉ ids) (assignments σ)).
Definition add_rows (rows : list Assigned) (σ : Database) : Database :=
  mkDatabase (entities σ) (profiles σ) (users σ) (assignments σ ++ rows).
Definition add_user (x : User) (σ : Database) : Database :=
  mkDatabase (entities σ) (profiles σ) (users σ ++ [x]) (assignments σ).

(** Keys are unique, ids positive where GLPI's are, and rows belong to users. *)
Record wf (σ : Database) : Prop := mkWf {
  wf_entities : NoDup (entities σ).*1;
  wf_profiles : NoDup (profiles σ).*1;
  wf_users : NoDup (user_key <$> users σ);
  wf_ids : NoDup (assigned_id <$> assignments σ);
  wf_keys : Forall (fun x => (0 < user_key x)%N) (users σ);
  wf_rows : Forall (fun a => (0 < assigned_id a <= U64_MAX)%N /\ (0 < row_profiles_id (assigned a))%N /\
    assigned_to a ∈ user_key <$> users σ) (assignments σ);
}.

(** Room for [n] more rows below the width of the page indices. *)
Definition size (σ : Database) : nat :=
  length (entities σ) + length (profiles σ) + length (users σ) + length (assignments σ).
Definition fits (n : nat) (σ : Database) : Prop :=
  (N.of_nat (size σ + n) + PAGE_SIZE <= U64_MAX)%N.

(** ** The documented API *)

(** One request of the adapter, by its meaning. *)
Inductive Ask : Type :=
| AskInit
| AskActivate (t : string)
| AskFullSession (t : string)
| AskKill (t : string)
| AskOptions (t : string) (ty : ItemType)
| AskSearch (t : string) (ty : ItemType) (selector : string) (deleted : option bool) (start last : N)
| AskItem (t : string) (id : N)
| AskCreateUser (t : string) (name : string)
| AskCreateAssignment (t : string) (u p e : N) (recursive : bool)
| AskDelete (t : string) (id : N).

Section Api.
Context `{Deps : GlpiDeps} (config : ValidatedConfig) (field : string -> N).

(** The adapter's search for an exact name. *)
Definition search_for (ty : ItemType) (selector : string) (deleted : option bool) : SearchQuery :=
  exact_query (type_name ty) (field (id_uid ty)) (field (name_uid ty)) selector deleted.

Definition session_request (t : string) (m : Method) (path : string) (b : option bytes)
  : result HttpRequest GlpiFailure :=
  let? url := join_base config path in
  let? headers := session_headers (mkSession t) config in
  Ok (mkHttpRequest m url headers b).

Definition printed_request (t : string) (path : string) (v : Value) : result HttpRequest GlpiFailure :=
  let? b := ok_or (to_vec v) MutationFailed in session_request t POST path (Some b).

(** The HTTP form of a request. *)
Definition request_for (ask : Ask) : result HttpRequest GlpiFailure :=
  match ask with
  | AskInit =>
      let? url := join_base config "initSession" in
      let? authorization := sensitive_header ("user_token " +:+ user_token config) in
      let? app := app_token_header config in
      Ok (mkHttpRequest GET url [("authorization", authorization); app] None)
  | AskActivate t => session_request t POST "changeActiveEntities" (Some active_entities_body)
  | AskFullSession t => session_request t GET "getFullSession" None
  | AskKill t => session_request t GET "killSession" None
  | AskOptions t ty => session_request t GET ("listSearchOptions/" +:+ type_name ty) None
  | AskSearch t ty selector deleted start last =>
      page_request config (mkSession t) (search_for ty selector deleted) start last
  | AskItem t id => session_request t GET ("Profile_User/" +:+ u64_to_string id) None
  | AskCreateUser t name => printed_request t "User"
      (VObject [("input", create_user_input name (authentication_source config))])
  | AskCreateAssignment t u p e recursive =>
      printed_request t "Profile_User" (create_assignment_body u p e recursive)
  | AskDelete t id => session_request t DELETE ("Profile_User/" +:+ u64_to_string id) None
  end.

(** The numbers of a path or a range are [u64]. *)
Definition in_range (ask : Ask) : Prop :=
  match ask with
  | AskSearch _ _ _ _ start last => (start <= last <= U64_MAX)%N
  | AskItem _ id | AskDelete _ id => (id <= U64_MAX)%N
  | _ => True
  end.

(** One search result row: the two displayed columns of an entry. *)
Definition shows (idf nf : N) (v : Value) (e : N * string) : Prop :=
  exists row, read_row v = Some row /\ row !! nf = Some (VString e.2) /\
    (row !! idf = Some (VNumber (PosInt e.1)) \/
     exists text, row !! idf = Some (VString text) /\ parse_u64 text = Some e.1).

(** The page [start]-[last] of a search with the given hits. *)
Definition page_reply (found : list Value) (start last : N) (resp : RawResponse) : Prop :=
  let total := N.of_nat (length found) in
  if (total =? 0)%N then
    status resp = STATUS_OK /\
    from_slice_search_page (body resp) = Some (mkWireSearchPage 0 0 "0--1/0" Missing)
  else
    let stop := N.min last (total - 1) in
    let count := (stop - start + 1)%N in
    status resp = (if (count =? total)%N then STATUS_OK else STATUS_PARTIAL_CONTENT) /\
    from_slice_search_page (body resp) = Some (mkWireSearchPage total count
      (content_range start stop total)
      (Present (take (N.to_nat count) (drop (N.to_nat start) found)))).

(** The item document of an assignment. *)
Definition item_reply (a : Assigned) (resp : RawResponse) : Prop :=
  status resp = STATUS_OK /\ exists o, from_slice_value (body resp) = Some (VObject o) /\
    object_get o "id" = Some (VNumber (PosInt (assigned_id a))) /\
    object_get o "users_id" = Some (VNumber (PosInt (assigned_to a))) /\
    object_get o "profiles_id" = Some (VNumber (PosInt (row_profiles_id (assigned a)))) /\
    object_get o "entities_id" = Some (VNumber (PosInt (row_entities_id (assigned a)))) /\
    object_get o "is_recursive" =
      Some (VNumber (PosInt (if row_is_recursive (assigned a) then 1 else 0))).

Definition created_reply (id : N) (resp : RawResponse) : Prop :=
  status resp = STATUS_CREATED /\
  exists c, from_slice_created (body resp) = Some c /\ created_id c = id.

Definition deleted_reply (id : N) (resp : RawResponse) : Prop :=
  status resp = STATUS_OK /\ exists text, from_slice_tokens (body resp) = Some (VArray [VObject
    [(u64_to_string id, VBool true); ("message", VString text)]]).

(** The answer to a request and its effect, when the request makes sense: the
    session is open, with all entities active where tables are read or changed.
    [hits] are the results of a search,
    [field] the number of a search option, and [extra] bounds the rows GLPI itself
    gives to a new user. *)
Definition answered (hits : Database -> ItemType -> string -> option bool -> list Value)
    (extra : nat) (ask : Ask) (g : Glpi) (resp : RawResponse) (g' : Glpi) : Prop :=
  let σ := database g in
  let all_entities t := sessions g !! t = Some true in
  match ask with
  | AskInit => exists t b, status resp = STATUS_OK /\ from_slice_init_session (body resp) = Some t /\
      t <> "" /\ header_text_valid t = true /\ g' = mkGlpi σ (<[t := b]> (sessions g))
  | AskActivate t => is_Some (sessions g !! t) ->
      status resp = STATUS_OK /\ trim_ascii (body resp) = as_bytes "true" /\
      g' = mkGlpi σ (<[t := true]> (sessions g))
  | AskFullSession t => all_entities t ->
      status resp = STATUS_OK /\ g' = g /\ exists o,
      from_slice_full_session (body resp) = Some (VObject o) /\
      object_get o "glpishowallentities" = Some (VNumber (PosInt 1))
  | AskKill t => is_Some (sessions g !! t) ->
      status resp = STATUS_OK /\ trim_ascii (body resp) = as_bytes "true" /\
      g' = mkGlpi σ (delete t (sessions g))
  | AskOptions t ty => is_Some (sessions g !! t) ->
      status resp = STATUS_OK /\ g' = g /\ exists members,
      from_slice_value (body resp) = Some (VObject members) /\
      omap (option_claim [id_uid ty; name_uid ty]) members ≡ₚ
        ((fun uid => (uid, field uid)) <$> [id_uid ty; name_uid ty])
  | AskSearch t ty selector deleted start last => all_entities t ->
      let found := hits σ ty selector deleted in
      (start = 0 \/ start < N.of_nat (length found))%N ->
      g' = g /\ page_reply found start last resp
  | AskItem t id => all_entities t -> forall a, a ∈ assignments σ -> assigned_id a = id ->
      g' = g /\ item_reply a resp
  | AskCreateUser t name => all_entities t -> Forall (fun x => user_name x <> name) (users σ) ->
      fits (S extra) σ ->
      exists id rows, created_reply id resp /\ (0 < id)%N /\ (id ∉ user_key <$> users σ) /\
      g' = mkGlpi (add_rows rows (add_user (mkUser id name false) σ)) (sessions g) /\
      Forall (fun a => assigned_to a = id) rows /\ length rows <= extra /\ wf (database g')
  | AskCreateAssignment t u p e recursive => all_entities t ->
      u ∈ user_key <$> users σ -> (0 < p)%N -> fits 1 σ ->
      exists id, created_reply id resp /\ (0 < id <= U64_MAX)%N /\
      (id ∉ assigned_id <$> assignments σ) /\
      g' = mkGlpi (add_rows [mkAssigned u (mkRow id e p recursive)] σ) (sessions g)
  | AskDelete t id => all_entities t -> id ∈ assigned_id <$> assignments σ ->
      deleted_reply id resp /\ g' = mkGlpi (delete_rows [id] σ) (sessions g)
  end.
End Api.

(** A world in which this GLPI is the server, nobody else changes its tables, and
    every request is answered unless its deadline passes.  A search finds every
    entry with the exact name, perhaps others ([contains] takes wildcards), each
    at most as often as it exists. *)
Class CompliantGlpi `{Deps : GlpiDeps} (config : ValidatedConfig) (W : Type) `{!GlpiWorld W} : Type := {
  glpi : W -> Glpi;
  field : string -> N;
  hits : Database -> ItemType -> string -> option bool -> list Value;
  default_rows : nat;
  glpi_now : forall w, glpi (now w).2 = glpi w;
  glpi_cancelled : forall w, glpi (is_cancelled w).2 = glpi w;
  paths_join : forall path, is_Some (url_join (base config) path);
  bodies_print : forall v, is_Some (to_vec v);
  app_token_valid : header_text_valid (app_token config) = true;
  user_token_valid : header_text_valid ("user_token " +:+ user_token config) = true;
  hits_found : forall σ ty sel deleted, wf σ ->
    exists found,
      Forall2 (shows (field (id_uid ty)) (field (name_uid ty)))
        (hits σ ty sel deleted) found /\
      found ⊆+ entries σ ty deleted /\
      forall id, (id, sel) ∈ entries σ ty deleted -> (id, sel) ∈ found;
  glpi_answers : forall ask req d w, request_for config field ask = Ok req -> in_range ask ->
    wf (database (glpi w)) ->
    match transport_request req d w with
    | (Ok resp, w') => answered field hits default_rows ask (glpi w) resp (glpi w')
    | (Err e, _) => e = DeadlineExceeded
    end;
}.

(** Why a run may stop although GLPI complies: an observed cancellation, or time.  The
    trace shows it, and the world is one that answers so. *)
Definition interrupted `{Deps : GlpiDeps} (W : Type) `{!GlpiWorld W} (limit : Z) (e : GlpiFailure)
    (l : list (event GlpiCall)) : Prop :=
  match e with
  | Cancelled => ECancelled true ∈ l /\ exists w : W, (is_cancelled w).1 = true
  | DeadlineExceeded =>
      (exists t, ENow t ∈ l /\ (limit <= t)%Z /\ exists w : W, (now w).1 = t) \/
      exists c, ECall c ∈ l /\ call_answer c = Err DeadlineExceeded /\
        exists w : W, (transport_request (call_request c) (call_deadline c) w).1 = Err DeadlineExceeded
  | _ => False
  end.

Lemma interrupted_app `{Deps : GlpiDeps} (W : Type) `{!GlpiWorld W} limit e l l' :
  interrupted W limit e l -> interrupted W limit e (l ++ l').
Proof.
  destruct e; simpl; try done; [intros [? ?]; split; [set_solver|done]|].
  intros [(x & ? & ? & ?)|(c & ? & ? & ?)]; [left; exists x|right; exists c]; split_and!; set_solver.
Qed.

(** ** Running against it

    [runs g m Q]: started with GLPI in state [g], [m] succeeds with [Q] or is
    interrupted. *)
Section Runs.
Context `{Deps : GlpiDeps} {W : Type} `{!GlpiWorld W} (config : ValidatedConfig).
Context `{Server : !CompliantGlpi config W} (context : SynchronizationContext).
Abbreviation M := (Eff (Tr W GlpiCall)).
Implicit Types g : Glpi.

Definition runs {A} g (m : M (result A GlpiFailure)) (Q : A -> Glpi -> Prop) : Prop :=
  forall s, glpi (world s) = g ->
  match m s with
  | (Ok a, s') => Q a (glpi (world s'))
  | (Err e, s') => interrupted W (deadline context) e (trace s')
  end.

Lemma runs_ret {A} g (a : A) (Q : A -> Glpi -> Prop) : Q a g -> runs g (eret (Ok a)) Q.
Proof. intros HQ s <-. done. Qed.

Lemma runs_conseq {A} g (m : M (result A GlpiFailure)) (Q Q' : A -> Glpi -> Prop) :
  runs g m Q -> (forall a g', Q a g' -> Q' a g') -> runs g m Q'.
Proof. intros Hm HQ s Hs. specialize (Hm s Hs). destruct (m s) as [[a|e] s']; auto. Qed.

Lemma runs_try {A B} g (m : M (result A GlpiFailure)) (k : A -> M (result B GlpiFailure)) R Q :
  runs g m R -> (forall a g', R a g' -> runs g' (k a) Q) -> runs g (etry m k) Q.
Proof.
  intros Hm Hk s Hs. specialize (Hm s Hs). unfold etry, ebind.
  destruct (m s) as [[a|e] s']; [|done]. by apply (Hk a _ Hm).
Qed.

Lemma runs_elift {A} g (r : result A GlpiFailure) a (Q : A -> Glpi -> Prop) :
  r = Ok a -> Q a g -> runs g (elift r) Q.
Proof. intros ->. apply runs_ret. Qed.

Lemma runs_lift {A B} g (r : result A GlpiFailure) (k : A -> M (result B GlpiFailure)) a Q :
  r = Ok a -> runs g (k a) Q -> runs g (etry (elift r) k) Q.
Proof. intros -> Hk s. apply (Hk s). Qed.

Lemma runs_check limit g : (deadline context <= limit)%Z ->
  runs g (check_context context limit) (fun _ g' => g' = g).
Proof.
  intros Hl s Hs. unfold check_context, ebind, read_cancelled, read_now.
  pose proof (glpi_cancelled (world s)) as Hc. destruct (is_cancelled (world s)) as [[] w1] eqn:E1; simpl in *.
  { split; [set_solver|]. exists (world s). by rewrite E1. }
  pose proof (glpi_now w1) as Hn. destruct (now w1) as [t w2] eqn:E2; simpl in *.
  destruct (Z.leb_spec limit t); simpl; [|congruence].
  left. exists t. split_and!; [set_solver|lia|]. exists w1. by rewrite E2.
Qed.

Lemma runs_window g timeout : runs g (effective_deadline context timeout) (fun _ g' => g' = g).
Proof.
  intros s Hs. unfold effective_deadline, ebind, read_cancelled, read_now.
  pose proof (glpi_cancelled (world s)) as Hc. destruct (is_cancelled (world s)) as [[] w1] eqn:E1; simpl in *.
  { split; [set_solver|]. exists (world s). by rewrite E1. }
  pose proof (glpi_now w1) as Hn. destruct (now w1) as [t w2] eqn:E2; simpl in *.
  destruct (Z.leb_spec (deadline context) t); simpl; [|congruence].
  left. exists t. split_and!; [set_solver|lia|]. exists w1. by rewrite E2.
Qed.

Lemma runs_send ask op req d g :
  request_for config field ask = Ok req -> in_range ask -> wf (database g) ->
  runs g (send op req d) (fun resp g' => answered field hits default_rows ask g resp g').
Proof.
  intros Hreq Hrange Hwf s <-. pose proof (glpi_answers ask req d (world s) Hreq Hrange Hwf) as Ha.
  unfold send, perform. destruct (transport_request req d (world s)) as [[resp|e] w] eqn:E; simpl; [done|].
  subst e. right. eexists. split_and!; [apply elem_of_app; right; by apply list_elem_of_singleton|done|].
  exists (world s). simpl. by rewrite E.
Qed.

(** Loops whose iterations leave GLPI as it is: the invariant counts them. *)
Lemma runs_iterate {S R} g (step : S -> M (result (S + R) GlpiFailure)) (I : N -> S -> Prop)
    (G : R -> Prop) :
  (forall n s, I n s -> runs g (step s) (fun o g' => g' = g /\
     match o with inl s' => I (n + 1)%N s' | inr r => G r end)) ->
  forall p n s, I n s -> runs g (iterate p step s) (fun o g' => g' = g /\
     match o with inl s' => I (n + Npos p)%N s' | inr r => G r end).
Proof.
  intros Hstep.
  assert (forall (m : M (result (S + R) GlpiFailure)) k a b,
    runs g m (fun o g' => g' = g /\ match o with inl s' => I a s' | inr r => G r end) ->
    (forall s', I a s' -> runs g (k s')
       (fun o g' => g' = g /\ match o with inl s' => I b s' | inr r => G r end)) ->
    runs g (etry m (fun o => match o with inl s' => k s' | inr r => eret (Ok (inr r)) end))
      (fun o g' => g' = g /\ match o with inl s' => I b s' | inr r => G r end)) as Hagain.
  { intros m k a b Hm Hk. eapply runs_try; [exact Hm|]. intros [s'|r] g' [-> H]; [by apply Hk|].
    by apply runs_ret. }
  induction p as [p IH|p IH|]; intros n s HI; simpl.
  - replace (n + N.pos p~1)%N with (n + 1 + N.pos p + N.pos p)%N by lia.
    eapply Hagain; [by apply Hstep|]. intros s1 H1. eapply Hagain; [by apply IH|]. auto.
  - replace (n + N.pos p~0)%N with (n + N.pos p + N.pos p)%N by lia.
    eapply Hagain; [by apply IH|]. auto.
  - by apply Hstep.
Qed.
End Runs.

(** ** Pages of a search *)

Lemma omap_length_le {A B} (f : A -> option B) l : length (omap f l) <= length l.
Proof. induction l as [|x l IH]; csimpl; [done|]. destruct (f x); simpl; lia. Qed.

Lemma filter_keeps_all {A} (P : A -> Prop) `{!forall x, Decision (P x)} (l : list A) :
  (forall x, P x) -> filter P l = l.
Proof. intros HP. induction l as [|x l IH]; [done|]. by rewrite filter_cons_True, IH. Qed.

Lemma mapM_slice {A B} (f : A -> option B) l k i n :
  mapM f l = Some k -> mapM f (take n (drop i l)) = Some (take n (drop i k)).
Proof. rewrite !mapM_Some. intros H. by apply Forall2_take, Forall2_drop. Qed.

Section Pages.
Context `{Deps : GlpiDeps} (found : list Value) (rows : list Row).
Context (Hread : mapM read_row found = Some rows).
Context (Hfits : (N.of_nat (length found) + PAGE_SIZE <= U64_MAX)%N).

(** The loop's state once the rows before [start] have been read. *)
Definition rows_before (st : PageState) : Prop :=
  ps_rows st = take (N.to_nat (ps_start st)) rows /\
  (ps_start st = 0 \/ ps_start st < N.of_nat (length found))%N /\
  (forall total, ps_expected_total st = Some total -> total = N.of_nat (length found)).

Lemma accept_page_reply st resp :
  rows_before st -> page_reply found (ps_start st) (ps_start st + 49) resp ->
  exists o, accept_page st (ps_start st + 49) resp = Ok o /\
    match o with
    | inl st' => ps_start st' = (ps_start st + 50)%N /\ rows_before st'
    | inr all => all = rows
    end.
Proof.
  destruct st as [done start expected]. intros (Hdone & Hstart & Hexp). simpl in *.
  assert (length rows = length found) as Hlen by (symmetry; by eapply length_mapM).
  unfold page_reply. destruct (N.eqb_spec (N.of_nat (length found)) 0) as [Hz|Hz].
  { intros [Hst Hwire]. destruct found as [|]; [|done]. destruct rows as [|]; [|done].
    rewrite take_nil in Hdone. assert (start = 0%N) as -> by (simpl in Hstart; lia).
    exists (inr []). split; [|done]. unfold accept_page, parse_search_page. rewrite Hwire. simpl.
    rewrite Hst. simpl. destruct expected as [total|]; [|by subst].
    rewrite (Hexp total eq_refl). simpl. by subst. }
  set (total := N.of_nat (length found)) in *. set (stop := N.min (start + 49) (total - 1)).
  intros [Hst Hwire]. unfold PAGE_SIZE in Hfits.
  assert (parse_search_page (body resp) start (start + 49) =
    Ok (mkSearchPage total (stop - start + 1) stop
      (take (N.to_nat (stop - start + 1)) (drop (N.to_nat start) found)))) as Hpage.
  { apply parse_wire_page; [done|lia..| |lia]. rewrite length_take, length_drop. lia. }
  pose proof (mapM_slice _ _ _ (N.to_nat start) (N.to_nat (stop - start + 1)) Hread) as Hslice.
  assert (take (N.to_nat start) rows ++ take (N.to_nat (stop - start + 1)) (drop (N.to_nat start) rows) =
    take (N.to_nat (stop + 1)) rows) as Htake.
  { rewrite take_take_drop. f_equal. lia. }
  assert (N.of_nat (length (take (N.to_nat (stop + 1)) rows)) = (stop + 1)%N) as Hsize.
  { rewrite length_take. lia. }
  unfold accept_page. simpl. rewrite Hpage. simpl. rewrite Hst, N.eqb_refl. simpl.
  assert ((let? expected_total := match expected with
      | Some e => if negb (e =? total)%N then Err SearchPagination else Ok (Some e)
      | None => Ok (Some total) end in Ok expected_total) = Ok (E := GlpiFailure) (Some total)) as He.
  { destruct expected as [e|]; [|done]. rewrite (Hexp e eq_refl), N.eqb_refl. done. }
  destruct (match expected with Some _ => _ | None => _ end) as [et|]; [|done].
  injection He as ->. simpl. rewrite Hslice. simpl. rewrite (proj2 (N.eqb_neq total 0) Hz).
  rewrite Hdone, Htake, Hsize. unfold saturating_add. rewrite N.min_l, N.eqb_refl by lia. simpl.
  destruct (N.eqb_spec (stop + 1) total) as [Hend|Hend].
  - exists (inr rows). split; [|done]. f_equal. f_equal. apply take_ge. lia.
  - unfold checked_add. rewrite (proj2 (N.leb_le (stop + 1) U64_MAX)) by lia. simpl.
    eexists. split; [done|]. unfold rows_before. simpl. split; [lia|]. split_and!; [done|lia|].
    by intros ? [= <-].
Qed.
End Pages.

(** ** Sessions and requests *)

Section Served.
Context `{Deps : GlpiDeps} {W : Type} `{!GlpiWorld W} (config : ValidatedConfig).
Context `{Server : !CompliantGlpi config W} (context : SynchronizationContext).
Abbreviation M := (Eff (Tr W GlpiCall)).
Abbreviation runs := (runs config context).
Implicit Types g : Glpi.

(** An open session in which all entities are active, on well-formed tables. *)
Definition ready (t : string) (g : Glpi) : Prop :=
  sessions g !! t = Some true /\ wf (database g).

Lemma joins path : exists url, join_base config path = Ok url.
Proof. unfold join_base. destruct (paths_join path) as [url ->]. by exists url. Qed.

Lemma headers_valid t : header_text_valid t = true ->
  exists headers, session_headers (mkSession t) config = Ok headers.
Proof.
  intros Ht. unfold session_headers, session_token_header, app_token_header, sensitive_header.
  simpl. rewrite Ht, app_token_valid. by eexists.
Qed.

(** Building the parts of a request. *)
Ltac build :=
  match goal with
  | |- runs _ (etry (elift (join_base _ ?p)) _) _ =>
      let url := fresh "url" in let H := fresh "Hurl" in
      destruct (joins p) as [url H]; eapply runs_lift; [exact H|]
  | Ht : header_text_valid ?t = true |- runs _ (etry (elift (session_headers _ _)) _) _ =>
      let hs := fresh "headers" in let H := fresh "Hheaders" in
      destruct (headers_valid t Ht) as [hs H]; eapply runs_lift; [exact H|]
  | |- runs _ (etry (elift (ok_or (to_vec ?v) _)) _) _ =>
      let b := fresh "b" in let H := fresh "Hprint" in
      destruct (bodies_print v) as [b H]; eapply runs_lift; [by rewrite H|]
  | |- runs _ (etry (effective_deadline _ _) _) _ =>
      let d := fresh "window" in eapply runs_try; [apply runs_window|]; intros d ? ->
  | |- runs _ (etry (check_context _ _) _) _ =>
      eapply runs_try; [by apply runs_check|]; intros _ ? ->
  end.
(** Sending it: the request is the one GLPI understands as [ask]. *)
Ltac ask_for ask :=
  eapply runs_try; [apply (runs_send config context ask); [
    unfold request_for, printed_request, session_request, page_request; simpl in *;
    repeat match goal with H : _ = Ok _ |- _ => rewrite H; clear H; simpl
                         | H : to_vec _ = Some _ |- _ => rewrite H; clear H; simpl end; reflexivity
    |simpl; try lia|try assumption]|].

Lemma runs_init g d : wf (database g) ->
  runs g (init_session config d) (fun session g' => header_text_valid (token session) = true /\
    is_Some (sessions g' !! token session) /\ database g' = database g).
Proof.
  intros Hwf. unfold init_session. build.
  eapply runs_lift; [by unfold sensitive_header; rewrite user_token_valid|].
  eapply runs_lift; [by unfold app_token_header, sensitive_header; rewrite app_token_valid|].
  eapply runs_try; [apply (runs_send config context AskInit); [|done|done]|].
  { simpl. rewrite Hurl. simpl. unfold app_token_header, sensitive_header.
    by rewrite user_token_valid, app_token_valid. }
  intros resp g' (t & b & Hst & Htok & Hne & Hval & ->). rewrite Hst. simpl.
  eapply runs_lift; [by rewrite Htok|]. rewrite bool_decide_false by done.
  apply runs_ret. simpl. by rewrite lookup_insert_eq.
Qed.

Context (t : string) (Htoken : header_text_valid t = true).
Abbreviation session := (mkSession t).

Lemma runs_force g d : is_Some (sessions g !! t) -> wf (database g) ->
  runs g (force_all_entities config session d)
    (fun _ g' => ready t g' /\ database g' = database g).
Proof.
  intros Ht Hwf. unfold force_all_entities. do 2 build. ask_for (AskActivate t).
  intros resp g' Ha. destruct (Ha Ht) as (-> & -> & ->).
  apply runs_ret. unfold ready. simpl. by rewrite lookup_insert_eq.
Qed.

Lemma runs_verify g d : ready t g ->
  runs g (verify_complete_visibility config session d) (fun _ g' => g' = g).
Proof.
  intros [Ht Hwf]. unfold verify_complete_visibility. do 2 build. ask_for (AskFullSession t).
  intros resp g' Ha. destruct (Ha Ht) as (-> & -> & o & Ho & Hall). simpl.
  unfold complete_visibility. rewrite Ho. simpl. rewrite Hall. simpl. by apply runs_ret.
Qed.

Lemma runs_kill g d : is_Some (sessions g !! t) -> wf (database g) ->
  runs g (kill_session config session d) (fun _ g' => database g' = database g).
Proof.
  intros Ht Hwf. unfold kill_session. do 2 build. ask_for (AskKill t).
  intros resp g' Ha. destruct (Ha Ht) as (-> & -> & ->).
  by apply runs_ret.
Qed.

(** The required search options of an item type. *)
Definition options_known (ty : ItemType) (options : SearchOptions) : Prop :=
  options !! id_uid ty = Some (field (id_uid ty)) /\
  options !! name_uid ty = Some (field (name_uid ty)).

Lemma runs_options g ty : ready t g ->
  runs g (resolve_search_options config session (type_name ty) [id_uid ty; name_uid ty] context)
    (fun options g' => g' = g /\ options_known ty options).
Proof.
  intros [Ht Hwf]. unfold resolve_search_options. build. unfold search_resolve_search_options.
  do 2 build. ask_for (AskOptions t ty). intros resp g' Ha.
  destruct Ha as (Hst & -> & members & Hm & Hp); [by rewrite Ht|].
  assert (id_uid ty <> name_uid ty) as Hne by (by destruct ty).
  set (claims := omap (option_claim [id_uid ty; name_uid ty]) members) in Hp.
  assert (NoDup claims.*1) as Hnd.
  { rewrite Hp. simpl. apply NoDup_cons. split; [set_solver|apply NoDup_singleton]. }
  apply (runs_elift _ _ _ _ (list_to_map claims)).
  - unfold accept_search_options. rewrite Hst. simpl. rewrite Hm. simpl.
    apply search_options_exact. cbv zeta. fold claims. split_and!; [done| |done].
    intros uid Huid. by rewrite Hp.
  - split; [done|]. split; apply elem_of_list_to_map_1; try done; rewrite Hp; set_solver.
Qed.

(** *** Searches *)

(** The entries a search result represents. *)
Definition represents (ty : ItemType) (row : Row) (e : N * string) : Prop :=
  row !! field (name_uid ty) = Some (VString e.2) /\
  (row !! field (id_uid ty) = Some (VNumber (PosInt e.1)) \/
   exists text, row !! field (id_uid ty) = Some (VString text) /\ parse_u64 text = Some e.1).

Lemma entries_size σ ty deleted : length (entries σ ty deleted) <= size σ.
Proof.
  unfold size. destruct ty; simpl; [lia|lia| |].
  - rewrite length_fmap. pose proof (length_filter (fun x => user_deleted x = default false deleted)
      (users σ)). lia.
  - pose proof (omap_length_le (fun a => (assigned_id a,.) <$> name_of σ (assigned_to a))
      (assignments σ)). lia.
Qed.

Lemma hits_readable σ ty sel deleted : wf σ ->
  exists rows found, mapM read_row (hits σ ty sel deleted) = Some rows /\
    Forall2 (represents ty) rows found /\ found ⊆+ entries σ ty deleted /\
    forall id, (id, sel) ∈ entries σ ty deleted -> (id, sel) ∈ found.
Proof.
  intros Hwf. destruct (hits_found σ ty sel deleted Hwf) as (found & Hshow & Hsub & Hall).
  assert (exists rows, mapM read_row (hits σ ty sel deleted) = Some rows /\
    Forall2 (represents ty) rows found) as (rows & ? & ?); [|by exists rows, found].
  clear Hsub Hall. induction Hshow as [|v e vs es (row & Hrow & Hn & Hid) _ (rows & IH & IHr)];
    [by exists []|].
  exists (row :: rows). simpl. rewrite Hrow. simpl. rewrite IH. split; [done|].
  constructor; [done|done].
Qed.

Lemma runs_search g ty sel deleted : ready t g -> fits 0 (database g) ->
  runs g (search_all_pages config session (search_for field ty sel deleted) context)
    (fun rows g' => g' = g /\ mapM read_row (hits (database g) ty sel deleted) = Some rows).
Proof.
  intros [Ht Hwf] Hfits. set (σ := database g) in *.
  destruct (hits_readable σ ty sel deleted Hwf) as (rows & found & Hread & Hrep & Hsub & _).
  set (shown := hits σ ty sel deleted) in *.
  assert (N.of_nat (length shown) + PAGE_SIZE <= U64_MAX)%N as Hsmall.
  { pose proof (entries_size σ ty deleted). apply submseteq_length in Hsub.
    apply Forall2_length in Hrep. apply length_mapM in Hread. unfold fits in Hfits. lia. }
  unfold search_all_pages, search_loop. eapply runs_try.
  - apply (runs_iterate config context g _ (fun n st => ps_start st = (50 * n)%N /\
      rows_before shown rows st) (fun all => all = rows)) with (n := 0%N).
    2:{ simpl. unfold rows_before. simpl. rewrite take_0. split_and!; [done|done|by left|done]. }
    intros n st [Hn Hst]. unfold search_page_step.
    pose proof Hst as (_ & Hpos & _). unfold PAGE_SIZE in *.
    eapply runs_lift; [unfold checked_add; by rewrite (proj2 (N.leb_le _ _)) by lia|].
    destruct (joins ("search/" +:+ type_name ty)) as [url Hurl].
    destruct (headers_valid t Htoken) as [headers Hheaders].
    assert (exists req, page_request config session (search_for field ty sel deleted)
      (ps_start st) (ps_start st + (50 - 1)) = Ok req) as [req Hreq].
    { unfold page_request. simpl. rewrite Hurl. simpl. rewrite Hheaders. by eexists. }
    eapply runs_lift; [exact Hreq|]. build.
    eapply runs_try; [apply (runs_send config context
      (AskSearch t ty sel deleted (ps_start st) (ps_start st + (50 - 1)))); [done|simpl; lia|done]|].
    intros resp g' Ha. destruct Ha as [-> Hpage]; [done|done|].
    change (50 - 1)%N with 49%N in *.
    destruct (accept_page_reply shown rows Hread Hsmall st resp Hst Hpage) as (o & Ho & Hnext).
    eapply runs_elift; [exact Ho|]. split; [done|]. destruct o as [st'|all]; [|done].
    destruct Hnext as [Hs' ?]. split; [lia|done].
  - intros [st|all] g' [-> H]; [|subst all; by apply runs_ret].
    destruct H as [Hs (_ & Hpos & _)]. exfalso. unfold PAGE_FUEL, PAGE_SIZE in *.
    unfold U64_MAX in Hsmall. lia.
Qed.
Lemma represents_name ty row e : represents ty row e -> row_name (field (name_uid ty)) row = Some e.2.
Proof. intros [Hn _]. unfold row_name. by rewrite Hn. Qed.

Lemma represents_id ty row e z : represents ty row e -> z = true \/ e.1 <> 0%N ->
  numeric_id row (field (id_uid ty)) z = Some e.1.
Proof.
  intros [_ Hid] Hz. unfold numeric_id.
  assert (z || negb (e.1 =? 0)%N = true) as Hok.
  { destruct Hz as [->|Hz]; [done|]. apply N.eqb_neq in Hz. rewrite Hz. apply orb_true_r. }
  destruct Hid as [->|(text & -> & Hp)]; simpl; [|rewrite Hp]; by rewrite Hok.
Qed.

(** The exactly matching ids of a search are those of the exactly named entries. *)
Lemma hits_ids σ ty sel deleted z rows : wf σ ->
  mapM read_row (hits σ ty sel deleted) = Some rows ->
  (forall id, (id, sel) ∈ entries σ ty deleted -> z = true \/ id <> 0%N) ->
  exists ids, exact_ids (field (id_uid ty)) (field (name_uid ty)) sel z rows [] = Ok ids /\
    NoDup ids /\ forall id, id ∈ ids <-> (id, sel) ∈ entries σ ty deleted.
Proof.
  intros Hwf Hrows Hz.
  destruct (hits_readable σ ty sel deleted Hwf) as (rows' & found & Hrows' & Hrep & Hsub & Hall).
  rewrite Hrows in Hrows'. injection Hrows' as <-.
  assert (forall row, row ∈ rows -> exists e, represents ty row e /\ e ∈ entries σ ty deleted) as Hrow.
  { intros row Hin. apply list_elem_of_lookup in Hin as [i Hi].
    destruct (Forall2_lookup_l _ _ _ _ _ Hrep Hi) as (e & He & Hre). exists e. split; [done|].
    apply list_elem_of_lookup_2 in He. by eapply elem_of_submseteq. }
  assert (forall row e, represents ty row e -> exact_row (field (name_uid ty)) sel row -> e.2 = sel)
    as Hexact.
  { intros row e Hre Hx. unfold exact_row in Hx. rewrite (represents_name ty row e Hre) in Hx.
    by injection Hx. }
  destruct (exact_ids_complete (field (id_uid ty)) (field (name_uid ty)) sel z rows []) as [ids Hids].
  - apply Forall_forall. intros row Hin. destruct (Hrow row Hin) as (e & Hre & _).
    rewrite (represents_name ty row e Hre). by eexists.
  - apply Forall_forall. intros row Hin Hx. destruct (Hrow row Hin) as ([id name] & Hre & Hen).
    pose proof (Hexact row _ Hre Hx) as Hn. simpl in Hn. subst name.
    rewrite (represents_id ty row (id, sel) z Hre); [by eexists|]. by apply Hz.
  - exists ids. split; [done|]. apply exact_ids_match in Hids as (_ & _ & Hnd & Hel). split; [done|].
    intros id. rewrite Hel. split.
    + intros (row & Hin & Hx & Hid). destruct (Hrow row Hin) as ([id' name] & Hre & Hen).
      pose proof (Hexact row _ Hre Hx) as Hn. simpl in Hn. subst name.
      rewrite (represents_id ty row (id', sel) z Hre) in Hid by (by apply Hz).
      by injection Hid as <-.
    + intros Hen. pose proof (Hall id Hen) as Hf. apply list_elem_of_lookup in Hf as [i Hi].
      destruct (Forall2_lookup_r _ _ _ _ _ Hrep Hi) as (row & Hr & Hre).
      exists row. split; [by eapply list_elem_of_lookup_2|]. split.
      * unfold exact_row. by rewrite (represents_name ty row _ Hre).
      * apply (represents_id ty row (id, sel) z Hre). by apply Hz.
Qed.

(** *** References *)

(** [name] denotes exactly the id [id]. *)
Definition denotes (σ : Database) (ty : ItemType) (name : string) (id : N) : Prop :=
  forall id', (id', name) ∈ entries σ ty None <-> id' = id.

Lemma singleton_ids ids (id : N) : NoDup ids -> (forall i, i ∈ ids <-> i = id) -> ids = [id].
Proof.
  intros Hnd Hel. apply Permutation_singleton_r, NoDup_Permutation; [done|apply NoDup_singleton|].
  intros i. rewrite Hel. set_solver.
Qed.

Lemma few_ids (ids : list N) (l : list N) : NoDup ids ->
  (forall i, i ∈ ids <-> i ∈ l) -> length l <= 1 -> ids = l.
Proof.
  intros Hnd Hel Hl. destruct l as [|i [|]]; simpl in Hl; [|by apply singleton_ids; set_solver|lia].
  apply elem_of_nil_inv. set_solver.
Qed.

Lemma runs_resolve_exact g ty sel z id : ready t g -> fits 0 (database g) ->
  denotes (database g) ty sel id -> z = true \/ id <> 0%N ->
  runs g (resolve_exact_id config session (type_name ty) (field (id_uid ty)) (field (name_uid ty))
      sel z context) (fun id' g' => g' = g /\ id' = id).
Proof.
  intros Hready Hfits Hden Hz. unfold resolve_exact_id.
  eapply runs_try; [by apply runs_search|]. intros rows g' [-> Hrows].
  destruct (hits_ids (database g) ty sel None z rows) as (ids & Hids & Hnd & Hel);
    [apply Hready|done| |].
  { intros i Hi. apply Hden in Hi as ->. done. }
  eapply runs_elift; [|done]. rewrite Hids. simpl.
  rewrite (singleton_ids ids id Hnd); [done|]. intros i. by rewrite Hel.
Qed.

Lemma runs_resolve_entity g options sel id : ready t g -> fits 0 (database g) ->
  options_known TEntity options -> denotes (database g) TEntity sel id ->
  runs g (resolve_entity_id config session options sel context) (fun id' g' => g' = g /\ id' = id).
Proof.
  intros Hready Hfits [Ho1 Ho2] Hden. unfold resolve_entity_id, require.
  eapply runs_lift; [apply ok_or_ok_inv, Ho1|]. eapply runs_lift; [apply ok_or_ok_inv, Ho2|].
  apply (runs_resolve_exact g TEntity sel true id); auto.
Qed.

Lemma runs_resolve_profile g options sel id : ready t g -> fits 0 (database g) ->
  options_known TProfile options -> denotes (database g) TProfile sel id -> id <> 0%N ->
  runs g (resolve_profile_id config session options sel context) (fun id' g' => g' = g /\ id' = id).
Proof.
  intros Hready Hfits [Ho1 Ho2] Hden Hid. unfold resolve_profile_id, require.
  eapply runs_lift; [apply ok_or_ok_inv, Ho1|]. eapply runs_lift; [apply ok_or_ok_inv, Ho2|].
  apply (runs_resolve_exact g TProfile sel false id); auto.
Qed.

(** A desired assignment with the ids its names denote. *)
Definition granted (σ : Database) (a : CanonicalAssignment) (d : DesiredAssignment) : Prop :=
  denotes σ TEntity (ca_entity a) (des_entities_id d) /\
  denotes σ TProfile (ca_profile a) (des_profiles_id d) /\ des_profiles_id d <> 0%N /\
  des_recursive d = ca_recursive a.

(** The resolved names are right, and extend those resolved before. *)
Definition learned (σ : Database) (ty : ItemType) (m m' : list (string * N)) : Prop :=
  (forall name id, bt_lookup name m' = Some id -> denotes σ ty name id) /\
  (forall name, is_Some (bt_lookup name m) -> is_Some (bt_lookup name m')).

Lemma denotes_unique σ ty name i j : denotes σ ty name i -> denotes σ ty name j -> i = j.
Proof. intros Hi Hj. apply Hj, Hi. done. Qed.

Lemma learned_trans σ ty m1 m2 m3 : learned σ ty m1 m2 -> learned σ ty m2 m3 -> learned σ ty m1 m3.
Proof. intros [_ H1] [H2 H3]. split; auto. Qed.

Lemma runs_resolve_once g resolve ty sel id m m0 : learned (database g) ty m0 m ->
  denotes (database g) ty sel id ->
  runs g (resolve sel) (fun id' g' => g' = g /\ id' = id) ->
  runs g (resolve_once resolve sel m) (fun m' g' => g' = g /\ learned (database g) ty m m' /\
    is_Some (bt_lookup sel m')).
Proof.
  intros [Hm _] Hden Hrun. unfold resolve_once, bt_contains. case_bool_decide as Hin.
  { apply runs_ret. done. }
  eapply runs_try; [exact Hrun|]. intros id' g' [-> ->]. apply runs_ret. split; [done|].
  rewrite bt_lookup_insert_eq. split; [|done]. split.
  - intros name i Hl. destruct (decide (sel = name)) as [<-|Hne].
    + rewrite bt_lookup_insert_eq in Hl. by injection Hl as <-.
    + rewrite bt_lookup_insert_ne in Hl by done. by apply Hm.
  - intros name Hs. destruct (decide (sel = name)) as [<-|Hne]; [done|].
    by rewrite bt_lookup_insert_ne.
Qed.

Lemma runs_references g eo po desired resolved ents profs : ready t g -> fits 0 (database g) ->
  options_known TEntity eo -> options_known TProfile po ->
  Forall2 (granted (database g)) desired resolved ->
  learned (database g) TEntity [] ents -> learned (database g) TProfile [] profs ->
  runs g (resolve_references config session eo po context desired ents profs)
    (fun m g' => g' = g /\ learned (database g) TEntity ents m.1 /\
       learned (database g) TProfile profs m.2 /\
       Forall (fun a => is_Some (bt_lookup (ca_entity a) m.1) /\
                        is_Some (bt_lookup (ca_profile a) m.2)) desired).
Proof.
  intros Hready Hfits Heo Hpo Hgr. revert ents profs.
  induction Hgr as [|a d ds rs (He & Hp & Hz & _) _ IH]; intros ents profs Hents Hprofs; simpl.
  { apply runs_ret. split_and!; [done|split; [apply Hents|done]|split; [apply Hprofs|done]|done]. }
  build. eapply runs_try; [by eapply (runs_resolve_once g _ TEntity), runs_resolve_entity|].
  intros ents1 g' (-> & Hents1 & Hin1). simpl.
  build. eapply runs_try; [by eapply (runs_resolve_once g _ TProfile), runs_resolve_profile|].
  intros profs1 g' (-> & Hprofs1 & Hin2).
  eapply runs_conseq; [apply IH; by eapply learned_trans|].
  intros [ents2 profs2] g' (-> & H1 & H2 & Hall). simpl in *. split_and!; [done|..].
  - by eapply learned_trans.
  - by eapply learned_trans.
  - constructor; [|done]. split; [by apply H1|by apply H2].
Qed.

Lemma resolve_desired_granted σ p desired resolved :
  Forall2 (granted σ) desired resolved ->
  (forall name id, bt_lookup name (resolved_entities p) = Some id -> denotes σ TEntity name id) ->
  (forall name id, bt_lookup name (resolved_profiles p) = Some id -> denotes σ TProfile name id) ->
  Forall (fun a => is_Some (bt_lookup (ca_entity a) (resolved_entities p)) /\
                   is_Some (bt_lookup (ca_profile a) (resolved_profiles p))) desired ->
  resolve_desired p desired = Ok resolved.
Proof.
  intros Hgr He Hp. induction Hgr as [|a [ei pi rec] ds rs (Hde & Hdp & _ & Hr) _ IH]; [done|].
  rewrite Forall_cons. intros [[[i Hi] [j Hj]] Hall]. simpl in *.
  unfold resolve_assignment. rewrite Hi, Hj. simpl. rewrite IH by done. simpl. do 2 f_equal.
  rewrite (denotes_unique _ _ _ _ _ (He _ _ Hi) Hde), (denotes_unique _ _ _ _ _ (Hp _ _ Hj) Hdp).
  by subst.
Qed.

(** *** Preparation *)

Lemma runs_prepare g desired resolved : is_Some (sessions g !! t) -> wf (database g) ->
  fits 0 (database g) -> Forall2 (granted (database g)) desired resolved ->
  runs g (prepare config session desired context) (fun p g' =>
    ready t g' /\ database g' = database g /\ resolve_desired p desired = Ok resolved /\
    options_known TUser (user_options p) /\ options_known TProfileUser (profile_user_options p)).
Proof.
  intros Ht Hwf Hfits Hgr. unfold prepare. build.
  eapply runs_try; [by apply runs_force|]. intros _ g1 [Hready Hdb]. rewrite <- Hdb in Hfits, Hgr.
  build. eapply runs_try; [by apply runs_verify|]. intros _ g2 ->.
  destruct Hgr as [|a d ds rs Had Hgr].
  - eapply runs_try; [by apply (runs_options g1 TUser)|]. intros uo g2 [-> Huo].
    eapply runs_try; [by apply (runs_options g1 TProfileUser)|]. intros puo g2 [-> Hpuo].
    by apply runs_ret.
  - eapply runs_try; [by apply (runs_options g1 TEntity)|]. intros eo g2 [-> Heo].
    eapply runs_try; [by apply (runs_options g1 TProfile)|]. intros po g2 [-> Hpo].
    eapply runs_try; [by apply (runs_options g1 TUser)|]. intros uo g2 [-> Huo].
    eapply runs_try; [by apply (runs_options g1 TProfileUser)|]. intros puo g2 [-> Hpuo].
    assert (Forall2 (granted (database g1)) (a :: ds) (d :: rs)) as Hall by (by constructor).
    eapply runs_try; [by eapply runs_references; [..|split|split]|].
    intros [ents profs] g2 (-> & [He _] & [Hp _] & Hin). simpl in *. apply runs_ret.
    split_and!; [apply Hready..|done| |done|done].
    by apply (resolve_desired_granted (database g1) (mkPrepared ents profs uo puo) (a :: ds)).
Qed.

(** *** The owner *)

(** [username] names the user [o], who is not trashed, or nobody. *)
Definition owner_known (σ : Database) (username : string) (o : option N) : Prop :=
  (forall x, x ∈ users σ -> user_name x = username ->
     user_deleted x = false /\ o = Some (user_key x)) /\
  (forall u, o = Some u -> exists x, x ∈ users σ /\ user_key x = u /\ user_name x = username).

Lemma user_entries σ username o deleted id : owner_known σ username o ->
  (id, username) ∈ entries σ TUser (Some deleted) <-> deleted = false /\ o = Some id.
Proof.
  intros [H1 H2]. simpl. rewrite list_elem_of_fmap. setoid_rewrite list_elem_of_filter. split.
  - intros (x & [= -> ->] & <- & Hin). by destruct (H1 x Hin eq_refl) as [-> ->].
  - intros [-> Ho]. destruct (H2 id Ho) as (x & Hin & <- & Hname).
    exists x. rewrite Hname. destruct (H1 x Hin Hname) as [Hd _]. done.
Qed.

Lemma runs_user g options username o : ready t g -> fits 0 (database g) ->
  options_known TUser options -> owner_known (database g) username o ->
  runs g (resolve_user_id config session options username context) (fun r g' => g' = g /\ r = o).
Proof.
  intros Hready Hfits [Ho1 Ho2] Hown. unfold resolve_user_id, require.
  eapply runs_lift; [apply ok_or_ok_inv, Ho1|]. eapply runs_lift; [apply ok_or_ok_inv, Ho2|].
  assert (forall deleted rows, mapM read_row (hits (database g) TUser username (Some deleted)) = Some rows ->
    exact_positive_ids rows (field (id_uid TUser)) (field (name_uid TUser)) username =
      Ok (if deleted then [] else option_list o)) as Hids.
  { intros deleted rows Hrows.
    destruct (hits_ids (database g) TUser username (Some deleted) false rows) as (ids & Hids & Hnd & Hel);
      [apply Hready|done| |].
    - intros id Hid. right. apply (user_entries _ _ _ _ _ Hown) in Hid as [_ Ho].
      destruct Hown as [_ Hown]. destruct (Hown id Ho) as (x & Hin & <- & _).
      pose proof (wf_keys _ (proj2 Hready)) as Hk. rewrite Forall_forall in Hk.
      specialize (Hk x Hin). lia.
    - unfold exact_positive_ids. rewrite Hids. f_equal.
      apply few_ids; [done| |by destruct deleted, o; simpl; lia].
      intros id. rewrite Hel, (user_entries _ _ _ _ _ Hown). destruct deleted, o; set_solver. }
  eapply runs_try; [by apply (runs_search g TUser)|]. intros active g' [-> Hactive].
  eapply runs_try; [by apply (runs_search g TUser)|]. intros trashed g' [-> Htrashed].
  eapply runs_elift; [|done]. simpl in *.
  rewrite (Hids _ _ Hactive), (Hids _ _ Htrashed). simpl. by destruct o.
Qed.

(** What the second stage leaves: the tables, with the new user if there was none. *)
Definition owner_settled (g : Glpi) (username : string) (o : option N) (u n : N) (g' : Glpi) : Prop :=
  ready t g' /\ sessions g' = sessions g /\ owner_known (database g') username (Some u) /\
  match o with
  | Some v => u = v /\ n = 0%N /\ g' = g
  | None => exists rows, n = 1%N /\ (u ∉ user_key <$> users (database g)) /\
      database g' = add_rows rows (add_user (mkUser u username false) (database g)) /\
      Forall (fun a => assigned_to a = u) rows /\ length rows <= default_rows
  end.

Lemma runs_create_user g username d : ready t g -> fits (S default_rows) (database g) ->
  owner_known (database g) username None ->
  runs g (create_user config session username (authentication_source config) d)
    (fun u g' => owner_settled g username None u 1 g').
Proof.
  intros [Ht Hwf] Hfits [Hnone _]. unfold create_user. do 3 build.
  ask_for (AskCreateUser t username).
  intros resp g' Ha.
  assert (Forall (fun x => user_name x <> username) (users (database g))) as Habsent.
  { apply Forall_forall. intros x Hin Hn. by destruct (Hnone x Hin Hn). }
  destruct (Ha Ht Habsent Hfits) as (u & rows & (-> & c & Hc & <-) & Hu & Hfresh & Hg' & Hrows & Hlen & Hwf').
  simpl. eapply runs_elift.
  { unfold parse_created_id. rewrite Hc. simpl. by rewrite (proj2 (N.eqb_neq (created_id c) 0)) by lia. }
  subst g'. split; [done|]. split; [done|]. split.
  - split; simpl.
    + intros x [Hin|Hin%list_elem_of_singleton]%elem_of_app Hn; [by destruct (Hnone x Hin Hn)|by subst x].
    + intros u' [= <-]. eexists. split; [apply elem_of_app; right; by apply list_elem_of_singleton|done].
  - by exists rows.
Qed.

Lemma runs_owner g options username o : ready t g -> fits (S default_rows) (database g) ->
  options_known TUser options -> owner_known (database g) username o ->
  runs g (resolve_owner config session options username context)
    (fun un g' => owner_settled g username o un.1 un.2 g').
Proof.
  intros Hready Hfits Hopt Hown. assert (fits 0 (database g)) as Hfits0 by (unfold fits in *; lia).
  unfold resolve_owner. eapply runs_try; [by eapply runs_user|]. intros r g' [-> ->].
  destruct o as [v|]; [by apply runs_ret|]. unfold create_user_and_resolve_outcome. build.
  eapply runs_try; [by apply runs_create_user|]. intros u g' Hset.
  destruct Hset as (Hready' & Hs & Hown' & rows & Hrest).
  eapply runs_try; [eapply (runs_user g'); [done| |done|done]|].
  { destruct Hrest as (_ & _ & -> & _ & Hlen). unfold fits, size in *. simpl.
    rewrite !length_app. simpl. lia. }
  intros r g'' [-> ->]. rewrite bool_decide_true by done. simpl. apply runs_ret.
  split_and!; [done..|]. exists rows. done.
Qed.

(** *** The current assignments *)

Lemma name_of_owner σ username u v : wf σ -> owner_known σ username (Some u) ->
  v ∈ user_key <$> users σ -> name_of σ v = Some username <-> v = u.
Proof.
  intros Hwf [H1 H2] Hv. unfold name_of.
  destruct (List.find _ (users σ)) as [x|] eqn:Hf; simpl.
  - apply List.find_some in Hf as [Hin Hx]. apply list_elem_of_In in Hin.
    apply bool_decide_eq_true in Hx as <-. split.
    + intros [= Hn]. by destruct (H1 x Hin Hn) as [_ [= ->]].
    + intros <-. destruct (H2 _ eq_refl) as (y & Hy & Hk & <-). do 2 f_equal.
      eapply NoDup_fmap_inj_elem; [apply Hwf|done..].
  - apply list_elem_of_fmap in Hv as (x & -> & Hin%list_elem_of_In).
    eapply List.find_none in Hf; [|exact Hin]. by rewrite bool_decide_true in Hf.
Qed.

Lemma row_entries σ username u id : wf σ -> owner_known σ username (Some u) ->
  (id, username) ∈ entries σ TProfileUser None <-> id ∈ row_id <$> owned σ u.
Proof.
  intros Hwf Hown. simpl. rewrite list_elem_of_omap. unfold owned. rewrite list_elem_of_fmap.
  pose proof (wf_rows _ Hwf) as Hrows. rewrite Forall_forall in Hrows. split.
  - intros (a & Hin & Hn). destruct (name_of σ (assigned_to a)) as [name|] eqn:Ha; [|done].
    injection Hn as <- ->. apply (name_of_owner σ username u) in Ha; [|done|done|by apply Hrows].
    exists (assigned a). split; [done|]. apply list_elem_of_fmap_2, list_elem_of_filter. done.
  - intros (r & -> & Hr). apply list_elem_of_fmap in Hr as (a & -> & [Ha Hin]%list_elem_of_filter).
    exists a. split; [done|]. rewrite (proj2 (name_of_owner σ username u _ Hwf Hown
      (proj2 (proj2 (Hrows a Hin)))) Ha). done.
Qed.

Lemma owned_ids_nodup σ u : wf σ -> NoDup (row_id <$> owned σ u).
Proof.
  intros Hwf. unfold owned. rewrite <- list_fmap_compose.
  eapply sublist_NoDup; [apply (wf_ids _ Hwf)|]. apply fmap_sublist, sublist_filter.
Qed.

Lemma elem_of_owned σ u r : r ∈ owned σ u -> exists a, a ∈ assignments σ /\ assigned_to a = u /\ assigned a = r.
Proof. intros (a & -> & [Ha Hin]%list_elem_of_filter)%list_elem_of_fmap. eauto. Qed.

Lemma runs_item g r u : ready t g -> r ∈ owned (database g) u ->
  runs g (read_profile_user_item config session (row_id r) context) (fun item g' => g' = g /\
    item = mkItem u (row_profiles_id r) (row_entities_id r) (row_is_recursive r)).
Proof.
  intros [Ht Hwf] Hr. apply elem_of_owned in Hr as (a & Hin & Hto & <-).
  pose proof (wf_rows _ Hwf) as Hrows. rewrite Forall_forall in Hrows.
  destruct (Hrows a Hin) as (Hpos & Hprof & Huser). unfold assigned_id in Hpos.
  unfold read_profile_user_item. do 3 build. ask_for (AskItem t (row_id (assigned a))).
  intros resp g' Ha.
  destruct (Ha Ht a Hin eq_refl) as (-> & Hst & o & Ho & Hid & Hu & Hp & He & Hrec).
  eapply runs_elift; [|done]. unfold accept_item. rewrite Hst. simpl. rewrite Ho. simpl.
  assert (0 < assigned_to a)%N as Hkey.
  { apply list_elem_of_fmap in Huser as (x & -> & Hx).
    pose proof (wf_keys _ Hwf) as Hk. rewrite Forall_forall in Hk. auto. }
  unfold parse_profile_user_item, positive_u64, get_u64. rewrite Hid, Hu, Hp, He, Hrec. simpl.
  unfold assigned_id in *.
  rewrite !(proj2 (N.eqb_neq _ 0)) by lia. simpl. rewrite N.eqb_refl. simpl. rewrite Hto.
  by destruct (row_is_recursive (assigned a)).
Qed.

Lemma runs_items g u ids current : ready t g -> ids ⊆ (row_id <$> owned (database g) u) ->
  runs g (read_items config session u context ids current) (fun rows g' => g' = g /\
    exists rest, rows = current ++ rest /\ row_id <$> rest = ids /\ rest ⊆ owned (database g) u).
Proof.
  intros Hready. revert current. induction ids as [|id ids IH]; intros current Hids; simpl.
  { apply runs_ret. split; [done|]. exists []. rewrite app_nil_r. split_and!; [done|done|set_solver]. }
  assert (id ∈ row_id <$> owned (database g) u) as (r & -> & Hr)%list_elem_of_fmap by (apply Hids; set_solver).
  eapply runs_try; [by eapply runs_item|]. intros item g' [-> ->]. simpl. rewrite N.eqb_refl. simpl.
  eapply runs_conseq; [apply IH; set_solver|]. intros rows g' (-> & rest & -> & <- & Hrest).
  split; [done|]. exists (r :: rest). rewrite <- app_assoc. destruct r. simpl. set_solver.
Qed.

Lemma runs_current g options username u : ready t g -> fits 0 (database g) ->
  options_known TProfileUser options -> owner_known (database g) username (Some u) ->
  runs g (read_current_assignments config session options username u context)
    (fun current g' => g' = g /\ current ≡ₚ owned (database g) u).
Proof.
  intros Hready Hfits [Ho1 Ho2] Hown. pose proof Hready as [_ Hwf].
  unfold read_current_assignments, require.
  eapply runs_lift; [apply ok_or_ok_inv, Ho1|]. eapply runs_lift; [apply ok_or_ok_inv, Ho2|].
  eapply runs_try; [by apply (runs_search g TProfileUser)|]. intros rows g' [-> Hrows].
  destruct (hits_ids (database g) TProfileUser username None false rows) as (ids & Hids & Hnd & Hel);
    [done|done| |].
  { intros id Hid. right. apply (row_entries _ _ u) in Hid as (r & -> & Hr)%list_elem_of_fmap; [|done..].
    apply elem_of_owned in Hr as (a & Hin & _ & <-).
    pose proof (wf_rows _ Hwf) as Hrow. rewrite Forall_forall in Hrow.
    destruct (Hrow a Hin) as [Hpos _]. unfold assigned_id in Hpos. lia. }
  eapply runs_lift; [exact Hids|].
  eapply runs_conseq; [apply (runs_items g u); [done|]|].
  { intros id Hid. by apply (row_entries _ username), Hel. }
  intros current g' (-> & rest & -> & Hrest & Hsub). split; [done|]. simpl.
  pose proof (owned_ids_nodup (database g) u Hwf) as Hndo.
  apply NoDup_Permutation; [eapply NoDup_fmap_1; by rewrite Hrest|by eapply NoDup_fmap_1|].
  intros r. split; [apply Hsub|]. intros Hr.
  assert (row_id r ∈ row_id <$> rest) as (r' & Hid & Hr')%list_elem_of_fmap.
  { rewrite Hrest. apply Hel, (row_entries _ _ u); [done..|]. by apply list_elem_of_fmap_2. }
  assert (r = r') as -> by (eapply NoDup_fmap_inj_elem; [exact Hndo|done|by apply Hsub|done]). done.
Qed.

(** *** Mutations *)

Lemma runs_delete g id d : ready t g -> id ∈ assigned_id <$> assignments (database g) ->
  runs g (delete_assignment config session id d)
    (fun _ g' => g' = mkGlpi (delete_rows [id] (database g)) (sessions g)).
Proof.
  intros [Ht Hwf] Hid.
  assert (id <= U64_MAX)%N as Hmax.
  { apply list_elem_of_fmap in Hid as (a & -> & Hin). pose proof (wf_rows _ Hwf) as Hrow.
    rewrite Forall_forall in Hrow. destruct (Hrow a Hin) as [Hpos _]. apply Hpos. }
  unfold delete_assignment. do 2 build. ask_for (AskDelete t id).
  intros resp g' Ha. destruct (Ha Ht Hid) as [(-> & text & Htext) ->]. simpl.
  eapply runs_elift; [|done]. apply deletion_acknowledgement_exact; [done|eauto].
Qed.

Lemma delete_rows_wf ids σ : wf σ -> wf (delete_rows ids σ).
Proof.
  intros [He Hp Hu Hi Hk Hr]. constructor; simpl; try done.
  - eapply sublist_NoDup; [exact Hi|]. apply fmap_sublist, sublist_filter.
  - rewrite Forall_forall in Hr |- *. intros a [_ Ha]%list_elem_of_filter. by apply Hr.
Qed.

Lemma delete_rows_cons id ids σ : delete_rows ids (delete_rows [id] σ) = delete_rows (id :: ids) σ.
Proof.
  unfold delete_rows. simpl. f_equal. rewrite list_filter_filter. apply list_filter_iff.
  intros a. set_solver.
Qed.

Lemma runs_removals g ids n : ready t g -> NoDup ids ->
  ids ⊆ (assigned_id <$> assignments (database g)) ->
  runs g (apply_removals config session context ids n) (fun m g' =>
    g' = mkGlpi (delete_rows ids (database g)) (sessions g) /\ m = (n + N.of_nat (length ids))%N).
Proof.
  revert g n. induction ids as [|id ids IH]; intros g n Hready Hnd Hin; simpl.
  { apply runs_ret. split; [|lia]. destruct g as [[es ps us rows] ss]. unfold delete_rows. simpl.
    do 2 f_equal. symmetry. apply filter_keeps_all. set_solver. }
  apply NoDup_cons in Hnd as [Hnin Hnd]. destruct Hready as [Ht Hwf].
  build. eapply runs_try; [apply runs_delete; [done|set_solver]|]. intros _ g' ->.
  eapply runs_conseq; [apply IH; [|done|]|].
  - split; [done|]. by apply delete_rows_wf.
  - intros i Hi. simpl. assert (i ∈ assigned_id <$> assignments (database g)) as Hi' by set_solver.
    apply list_elem_of_fmap in Hi' as (a & -> & Ha). apply list_elem_of_fmap_2, list_elem_of_filter.
    split; [set_solver|done].
  - intros m g' [-> ->]. simpl. rewrite delete_rows_cons. split; [done|lia].
Qed.

(** The row created for an addition under a fresh id. *)
Definition created_row (u i : N) (a : Addition) : Assigned :=
  mkAssigned u (mkRow i (add_entities_id a) (add_profiles_id a) (add_recursive a)).

Lemma add_row_wf σ u i a : wf σ -> u ∈ user_key <$> users σ -> (0 < add_profiles_id a)%N ->
  (0 < i <= U64_MAX)%N -> i ∉ assigned_id <$> assignments σ -> wf (add_rows [created_row u i a] σ).
Proof.
  intros [He Hp Hu Hi Hk Hr] Huser Hprof Hpos Hfresh. constructor; simpl; try done.
  - rewrite fmap_app. simpl. apply NoDup_app. split_and!; [done| |apply NoDup_singleton].
    intros j Hj ->%list_elem_of_singleton. done.
  - apply Forall_app. split; [done|]. by constructor.
Qed.

Lemma runs_additions g u l n : ready t g -> u ∈ user_key <$> users (database g) ->
  Forall (fun a => (0 < add_profiles_id a)%N) l -> fits (length l) (database g) ->
  runs g (apply_additions config session context u l n) (fun m g' =>
    exists fresh, length fresh = length l /\ ready t g' /\ m = (n + N.of_nat (length l))%N /\
      g' = mkGlpi (add_rows (zip_with (created_row u) fresh l) (database g)) (sessions g)).
Proof.
  revert g n. induction l as [|a l IH]; intros g n Hready Hu Hl Hfits; simpl.
  { apply runs_ret. exists []. split_and!; [done|done|lia|].
    destruct g as [[es ps us rows] ss]. unfold add_rows. simpl. by rewrite app_nil_r. }
  apply Forall_cons in Hl as [Ha Hl]. pose proof Hready as [Ht Hwf]. build.
  eapply runs_try.
  { unfold create_assignment. do 3 build.
    ask_for (AskCreateAssignment t u (add_profiles_id a) (add_entities_id a) (add_recursive a)).
    intros resp g' Hans. destruct Hans as (i & (-> & c & Hc & <-) & Hpos & Hfresh & ->);
      [done|done|done|unfold fits in *; simpl in *; lia|]. simpl.
    apply (runs_elift _ _ _ _ (created_id c) (fun i g' => (0 < i <= U64_MAX)%N /\
      (i ∉ assigned_id <$> assignments (database g)) /\
      g' = mkGlpi (add_rows [created_row u i a] (database g)) (sessions g))); [|done].
    unfold parse_created_id. rewrite Hc. simpl. by rewrite (proj2 (N.eqb_neq (created_id c) 0)) by lia. }
  intros i g' (Hpos & Hfresh & ->).
  eapply runs_conseq; [apply IH; [|done|done|]|].
  - split; [done|]. by apply add_row_wf.
  - unfold fits, size in *. simpl in *. rewrite length_app. simpl. lia.
  - intros m g' (fresh & Hlen & Hr & -> & ->). exists (i :: fresh). simpl in *.
    split_and!; [by rewrite Hlen|done|lia|].
    unfold add_rows. simpl. by rewrite <- app_assoc.
Qed.
End Served.
