(* ===== verification/GlpiConverge.v ===== *)
(** * GLPI adapter: convergence against a compliant GLPI

    The adapter's purpose: against a compliant GLPI, [reconcile] takes the owner's
    rows to exactly the desired grants, leaves everybody else's alone, reports
    [Unchanged] exactly when there was nothing to do, and can only be stopped by
    time or cancellation. *)
From S2P Require Import Prelude BTree Core Json Net GlpiBase.
From S2P Require Import GlpiSession GlpiPlan GlpiPayload GlpiSearch GlpiMutation GlpiAdapter.
From S2P Require Import GlpiServer.

(** ** The tables after a plan *)

Section Effects.
Implicit Types (σ : Database) (u v : N).

Lemma owned_delete ids σ v :
  owned (delete_rows ids σ) v = filter (fun r => row_id r ∉ ids) (owned σ v).
Proof.
  unfold owned, delete_rows. simpl. induction (assignments σ) as [|a l IH]; [done|].
  rewrite !filter_cons. unfold assigned_id at 1.
  destruct (decide (row_id (assigned a) ∉ ids)), (decide (assigned_to a = v)); csimpl;
    rewrite ?filter_cons; repeat case_decide; csimpl; try done; by rewrite IH.
Qed.

Lemma owned_add_self rows σ u : Forall (fun a => assigned_to a = u) rows ->
  owned (add_rows rows σ) u = owned σ u ++ (assigned <$> rows).
Proof.
  intros Hrows. unfold owned, add_rows. simpl. rewrite filter_app, fmap_app. do 2 f_equal.
  induction Hrows as [|a l Ha _ IH]; [done|]. by rewrite filter_cons_True, IH.
Qed.

Lemma owned_add_other rows σ u v : Forall (fun a => assigned_to a = u) rows -> v <> u ->
  owned (add_rows rows σ) v = owned σ v.
Proof.
  intros Hrows Hne. unfold owned, add_rows. simpl. rewrite filter_app, fmap_app.
  replace (filter (fun a => assigned_to a = v) rows) with (@nil Assigned); [apply app_nil_r|].
  induction Hrows as [|a l Ha _ IH]; [done|]. rewrite filter_cons_False by congruence. done.
Qed.

(** Deleting rows of one user leaves the rows of the others. *)
Lemma owned_delete_other ids σ u v : wf σ -> v <> u -> ids ⊆ (row_id <$> owned σ u) ->
  owned (delete_rows ids σ) v = owned σ v.
Proof.
  intros Hwf Hne Hids. rewrite owned_delete.
  assert (forall r, r ∈ owned σ v -> row_id r ∉ ids) as Hkeep.
  { intros r Hr Hin. apply elem_of_owned in Hr as (a & Ha & Hv & <-).
    apply Hids, list_elem_of_fmap in Hin as (r' & Hid & Hr').
    apply elem_of_owned in Hr' as (b & Hb & Hu & <-).
    assert (a = b) as -> by (by eapply (NoDup_fmap_inj_elem assigned_id); [apply Hwf|..]).
    congruence. }
  revert Hkeep. induction (owned σ v) as [|r l IH]; intros Hkeep; [done|].
  rewrite filter_cons_True by (apply Hkeep; set_solver). f_equal. apply IH. set_solver.
Qed.

Lemma created_rows_to u fresh l : Forall (fun a => assigned_to a = u) (zip_with (created_row u) fresh l).
Proof. revert l. induction fresh as [|i f IH]; intros [|a l]; simpl; constructor; auto. Qed.

Lemma created_rows_rows u fresh l : assigned <$> zip_with (created_row u) fresh l =
  zip_with (fun i a => mkRow i (add_entities_id a) (add_profiles_id a) (add_recursive a)) fresh l.
Proof. revert l. induction fresh as [|i f IH]; intros [|a l]; simpl; f_equal; auto. Qed.

(** Performing a plan on the tables performs it on the rows of its user. *)
Definition execute (u : N) (p : Plan) (fresh : list N) (σ : Database) : Database :=
  add_rows (zip_with (created_row u) fresh (additions p)) (delete_rows (removals p) σ).

Lemma execute_owned u p fresh σ : owned (execute u p fresh σ) u = apply_plan p fresh (owned σ u).
Proof.
  unfold execute. rewrite owned_add_self by apply created_rows_to.
  by rewrite owned_delete, created_rows_rows.
Qed.

Lemma execute_others u p fresh σ v : wf σ -> v <> u -> removals p ⊆ (row_id <$> owned σ u) ->
  owned (execute u p fresh σ) v = owned σ v.
Proof.
  intros Hwf Hne Hrem. unfold execute. rewrite (owned_add_other _ _ u); [|apply created_rows_to|done].
  by apply (owned_delete_other _ _ u).
Qed.

Lemma execute_nothing u p fresh σ : removals p = [] -> additions p = [] -> execute u p fresh σ = σ.
Proof.
  intros Hr Ha. unfold execute, add_rows, delete_rows. rewrite Hr, Ha. simpl.
  replace (zip_with (created_row u) fresh []) with (@nil Assigned) by (by destruct fresh).
  rewrite app_nil_r, filter_keeps_all by set_solver. by destruct σ.
Qed.

Lemma apply_plan_perm p fresh rows rows' : rows ≡ₚ rows' -> apply_plan p fresh rows ≡ₚ apply_plan p fresh rows'.
Proof. intros Hp. unfold apply_plan. by rewrite Hp. Qed.

Lemma granted_nodup σ desired resolved : wf σ -> NoDup (ca_pair <$> desired) ->
  Forall2 (granted σ) desired resolved -> NoDup (des_pair <$> resolved).
Proof.
  intros Hwf Hnd Hgr. induction Hgr as [|a d ds rs Had Hgr IH]; csimpl; [constructor|].
  csimpl in Hnd. apply NoDup_cons in Hnd as [Hnin Hnd]. apply NoDup_cons. split; [|auto].
  intros (d' & Hpair & Hd')%list_elem_of_fmap. apply list_elem_of_lookup in Hd' as [i Hi].
  destruct (Forall2_lookup_r _ _ _ _ _ Hgr Hi) as (a' & Ha' & Had').
  apply Hnin, list_elem_of_fmap. exists a'. split; [|by eapply list_elem_of_lookup_2].
  destruct Had as (He & Hp & _), Had' as (He' & Hp' & _). injection Hpair as HE HP.
  assert (forall ty (n n' : string) i, NoDup (entries σ ty None).*1 -> denotes σ ty n i ->
    denotes σ ty n' i -> n = n') as Hinj.
  { intros ty n n' j Hndt Hn Hn'.
    assert ((j, n) = (j, n')) as [= ?]; [|done]. eapply (NoDup_fmap_inj_elem fst); [exact Hndt|..].
    - by apply Hn.
    - by apply Hn'.
    - done. }
  unfold ca_pair. f_equal.
  - apply (Hinj TEntity _ _ (des_entities_id d)); [apply Hwf|done|by rewrite HE].
  - apply (Hinj TProfile _ _ (des_profiles_id d)); [apply Hwf|done|by rewrite HP].
Qed.
End Effects.

(** ** Convergence *)

(** The owner's rows carry exactly the desired grants and nobody else's row was
    touched; the outcome tells whether anything had to be done. *)
Definition converged (σ σ' : Database) (username : string) (o : option N)
    (resolved : list DesiredAssignment) (outcome : ReconciliationOutcome) : Prop :=
  exists u,
    owner_known σ' username (Some u) /\
    match o with
    | Some v => u = v /\ users σ' = users σ
    | None => (u ∉ user_key <$> users σ) /\ users σ' = users σ ++ [mkUser u username false]
    end /\
    entities σ' = entities σ /\ profiles σ' = profiles σ /\
    (row_grant <$> owned σ' u) ≡ₚ (des_grant <$> resolved) /\
    (forall v, v <> u -> owned σ' v = owned σ v) /\
    match outcome with
    | Unchanged => o = Some u /\ σ' = σ
    | Changed => o = None \/ ~ (row_grant <$> owned σ u) ≡ₚ (des_grant <$> resolved)
    end /\
    wf σ'.

(** The plan of a read of the current rows, seen on the tables. *)
Section Plan.
Context (σ : Database) (u : N) (current : list CurrentRow) (resolved : list DesiredAssignment).
Context (Hwf : wf σ) (Hcur : current ≡ₚ owned σ u) (Hpairs : NoDup (des_pair <$> resolved)).
Abbreviation plan := (compute current resolved).

Lemma current_ids : NoDup (row_id <$> current).
Proof. rewrite Hcur. by apply owned_ids_nodup. Qed.

Lemma plan_removals : removals plan ⊆ (row_id <$> owned σ u).
Proof.
  intros i (r & Hr & <-)%removals_from_current. apply list_elem_of_fmap_2. by rewrite <- Hcur.
Qed.

Lemma plan_removals_rows : removals plan ⊆ (assigned_id <$> assignments σ).
Proof.
  intros i (r & -> & Hr)%plan_removals%list_elem_of_fmap.
  apply elem_of_owned in Hr as (a & Ha & _ & <-). exact (list_elem_of_fmap_2 assigned_id _ _ Ha).
Qed.

Lemma plan_additions_count : length (additions plan) <= length resolved.
Proof.
  pose proof (plan_covers current resolved current_ids Hpairs) as Hp%Permutation_length.
  rewrite length_app, !length_fmap in Hp. lia.
Qed.

Lemma plan_additions_profiles : Forall (fun d => des_profiles_id d <> 0%N) resolved ->
  Forall (fun a => (0 < add_profiles_id a)%N) (additions plan).
Proof.
  rewrite !Forall_forall. intros Hz x Hx.
  apply (elem_of_additions current resolved current_ids Hpairs) in Hx as (a & Ha & -> & _).
  specialize (Hz a Ha). simpl. lia.
Qed.

Lemma executed_grants fresh : length fresh = length (additions plan) ->
  row_grant <$> owned (execute u plan fresh σ) u ≡ₚ des_grant <$> resolved.
Proof.
  intros Hlen. rewrite execute_owned, <- (apply_plan_perm _ _ _ _ Hcur).
  apply apply_plan_grants; [apply current_ids|done|done].
Qed.

Lemma plan_needed : removals plan <> [] \/ additions plan <> [] ->
  ~ (row_grant <$> owned σ u) ≡ₚ (des_grant <$> resolved).
Proof.
  intros Hne Hp. rewrite <- Hcur in Hp. apply (canonical_iff current resolved current_ids Hpairs) in Hp.
  unfold is_canonical, plan_is_empty in Hp. apply andb_true_iff in Hp as [H1 H2].
  apply bool_decide_eq_true in H1, H2. tauto.
Qed.
End Plan.

Section Converge.
Context `{Deps : GlpiDeps} {W : Type} `{!GlpiWorld W} (config : ValidatedConfig).
Context `{Server : !CompliantGlpi config W} (context : SynchronizationContext).
Abbreviation runs := (runs config context).
Context (t : string) (Htoken : header_text_valid t = true).
Abbreviation session := (mkSession t).

Lemma owner_is_user σ username u : owner_known σ username (Some u) -> u ∈ user_key <$> users σ.
Proof. intros [_ H]. destruct (H u eq_refl) as (x & Hin & <- & _). by apply list_elem_of_fmap_2. Qed.

Lemma granted_profiles σ desired resolved : Forall2 (granted σ) desired resolved ->
  Forall (fun d => des_profiles_id d <> 0%N) resolved.
Proof. induction 1 as [|a d ds rs (_ & _ & Hz & _) _ IH]; by constructor. Qed.

Lemma fits_le n m σ : n <= m -> fits m σ -> fits n σ.
Proof. unfold fits. lia. Qed.

Lemma delete_rows_size ids σ : size (delete_rows ids σ) <= size σ.
Proof.
  unfold size, delete_rows. simpl.
  pose proof (length_filter (fun a => assigned_id a ∉ ids) (assignments σ)). lia.
Qed.

Lemma delete_rows_fits ids n m σ : n <= m -> fits m σ -> fits n (delete_rows ids σ).
Proof. pose proof (delete_rows_size ids σ). unfold fits. lia. Qed.

Lemma execute_size u p fresh σ : size (execute u p fresh σ) <= size σ + length (additions p).
Proof.
  pose proof (delete_rows_size (removals p) σ). unfold execute, size in *. simpl in *.
  rewrite length_app, length_zip_with. lia.
Qed.

Lemma executed_fits σ σ' n : size σ' <= size σ + n -> forall m, fits (n + m) σ -> fits m σ'.
Proof. unfold fits. lia. Qed.

(** The tables after a settled owner and an executed plan. *)
Lemma settled_converges g g2 username o u n current resolved fresh outcome :
  owner_settled config t g username o u n g2 -> current ≡ₚ owned (database g2) u ->
  NoDup (des_pair <$> resolved) ->
  length fresh = length (additions (compute current resolved)) ->
  wf (execute u (compute current resolved) fresh (database g2)) ->
  outcome = (if (0 <? n + N.of_nat (length (removals (compute current resolved))) +
    N.of_nat (length (additions (compute current resolved))))%N then Changed else Unchanged) ->
  converged (database g) (execute u (compute current resolved) fresh (database g2)) username o
    resolved outcome.
Proof.
  intros (Hready & Hs & Hown & Hcase) Hcur Hpairs Hlen Hwf Hout. pose proof Hready as [_ Hwf2].
  exists u. pose proof (executed_grants _ _ _ _ Hwf2 Hcur Hpairs fresh Hlen) as Hgr.
  assert (forall v, v <> u -> owned (execute u (compute current resolved) fresh (database g2)) v =
    owned (database g2) v) as Hoth.
  { intros v Hv. apply execute_others; [done|done|]. by apply plan_removals. }
  split; [exact Hown|].
  destruct o as [v|].
  - destruct Hcase as (-> & -> & ->). split_and!; try done. subst outcome.
    destruct (N.ltb_spec 0 (0 + N.of_nat (length (removals (compute current resolved))) +
      N.of_nat (length (additions (compute current resolved))))) as [Hpos|Hnone].
    + right. apply (plan_needed _ _ _ _ Hwf2 Hcur Hpairs). destruct (removals _); [|by left].
      destruct (additions _); [simpl in Hpos; lia|by right].
    + split; [done|]. apply execute_nothing; apply nil_length_inv; lia.
  - destruct Hcase as (rows & -> & Hfresh & Hdb & Hrows & _).
    split_and!; try done; try by rewrite Hdb.
    + intros v Hv. rewrite Hoth, Hdb, (owned_add_other _ _ u) by done. done.
    + subst outcome. rewrite (proj2 (N.ltb_lt 0 _)) by lia. by left.
Qed.

Lemma runs_reconcile_with_session g username desired resolved o :
  is_Some (sessions g !! t) -> wf (database g) ->
  fits (S default_rows + length desired) (database g) ->
  NoDup (ca_pair <$> desired) -> Forall2 (granted (database g)) desired resolved ->
  owner_known (database g) username o ->
  runs g (reconcile_with_session config session username desired context) (fun outcome g' =>
    is_Some (sessions g' !! t) /\ converged (database g) (database g') username o resolved outcome).
Proof.
  intros Ht Hwf Hfits Hnd Hgr Hown. unfold reconcile_with_session.
  eapply runs_try; [eapply runs_prepare; [done..|unfold fits in *; lia|done]|].
  intros p g1 (Hready1 & Hdb1 & Hres & Huo & Hpuo). rewrite <- Hdb1 in Hfits, Hgr, Hown |- *.
  eapply runs_try; [eapply runs_owner; [done..|unfold fits in *; lia|done|done]|].
  intros [u n] g2 Hset. simpl in Hset. pose proof Hset as (Hready2 & Hs2 & Hown2 & Hcase).
  pose proof Hready2 as [Ht2 Hwf2].
  assert (NoDup (des_pair <$> resolved)) as Hpairs.
  { eapply granted_nodup; [|done|exact Hgr]. by rewrite Hdb1. }
  assert (fits (length desired) (database g2)) as Hfits2.
  { eapply executed_fits; [|exact Hfits]. destruct o; [by destruct Hcase as (_ & _ & ->); lia|].
    destruct Hcase as (rows & _ & _ & -> & _ & Hlen). unfold size. simpl. rewrite !length_app. simpl. lia. }
  eapply runs_try; [eapply runs_current; [done..|unfold fits in *; lia|done|done]|].
  intros current g' [-> Hcur]. eapply runs_lift; [exact Hres|].
  set (plan := compute current resolved).
  eapply runs_try; [apply runs_removals; [done|done|..]|].
  { apply removals_nodup; [by eapply current_ids|done]. }
  { by eapply plan_removals_rows. }
  intros m g3 [-> ->]. eapply runs_try; [apply runs_additions; simpl; [done|..]|].
  { split; [done|]. by apply delete_rows_wf. }
  { by apply owner_is_user with username. }
  { eapply plan_additions_profiles; [done|done|done|]. by eapply granted_profiles. }
  { eapply delete_rows_fits; [|exact Hfits2]. apply Forall2_length in Hgr. rewrite Hgr.
    by eapply plan_additions_count. }
  intros m g4 (fresh & Hlen & Hready4 & -> & ->). simpl in *.
  fold (execute u plan fresh (database g2)) in *. set (σ4 := execute u plan fresh (database g2)) in *.
  eapply runs_try; [by apply runs_check|]. intros _ g5 ->.
  eapply runs_try; [eapply (runs_current _ _ _ Htoken _ _ username u); [done..| |done|done]|]; simpl.
  { eapply executed_fits with (n := length (additions plan)); [|].
    2:{ rewrite Nat.add_0_r. eapply fits_le; [|exact Hfits2]. apply Forall2_length in Hgr. rewrite Hgr.
        by eapply plan_additions_count. }
    by apply execute_size. }
  intros verified g5 [-> Hver].
  assert (is_canonical verified resolved = true) as ->.
  { apply canonical_iff; [rewrite Hver; by apply owned_ids_nodup, Hready4|done|].
    rewrite Hver. by eapply executed_grants. }
  simpl. set (mutations := (n + _ + _)%N).
  assert (converged (database g1) σ4 username o resolved
    (if (0 <? mutations)%N then Changed else Unchanged)) as Hconv.
  { by eapply settled_converges; [..|apply Hready4|]. }
  destruct (0 <? mutations)%N; by apply runs_ret.
Qed.

Lemma window_glpi timeout s :
  glpi (world (effective_deadline (W := W) context timeout s).2) = glpi (world s).
Proof.
  unfold effective_deadline, ebind, read_cancelled, read_now.
  pose proof (glpi_cancelled (world s)) as Hc. destruct (is_cancelled _) as [[] w1]; simpl in *; [done|].
  pose proof (glpi_now w1) as Hn. destruct (now w1) as [x w2]; simpl in *.
  destruct (_ <=? _)%Z; simpl; congruence.
Qed.

Lemma runs_cleanup g outcome : is_Some (sessions g !! t) -> wf (database g) ->
  runs g (cleanup config session context (Ok outcome))
    (fun o g' => o = outcome /\ database g' = database g).
Proof.
  intros Ht Hwf s Hs. unfold cleanup, ebind, read_cancelled, read_now.
  pose proof (glpi_cancelled (world s)) as Hc. destruct (is_cancelled _) as [[] w1]; simpl in *.
  { split; [done|congruence]. }
  pose proof (glpi_now w1) as Hn. destruct (now w1) as [x w2]; simpl in *.
  destruct (Z.ltb_spec x (deadline context)); simpl; [|split; [done|congruence]].
  set (s2 := mkTr _ _). pose proof (window_glpi (operation_timeout config) s2) as Hwin.
  destruct (effective_deadline context (operation_timeout config) s2) as [[d|e] s3]; simpl in *.
  2:{ split; [done|congruence]. }
  pose proof (runs_kill config context t Htoken g d Ht Hwf s3) as Hkill.
  destruct (kill_session config session d s3) as [[[]|e] s4]; simpl in *.
  - split; [done|]. apply Hkill. congruence.
  - apply Hkill. congruence.
Qed.


End Converge.

(** ** Properties *)

Section Properties.
Context `{Deps : GlpiDeps} {W : Type} `{!GlpiWorld W} (config : ValidatedConfig).
Context `{Server : !CompliantGlpi config W}.

(** The cleanup after a run keeps its result. *)
Lemma runs_finish request t g (m : Eff (Tr W GlpiCall) (result ReconciliationOutcome GlpiFailure)) R :
  header_text_valid t = true ->
  runs config (ar_context request) g m R -> (forall o g', R o g' -> is_Some (sessions g' !! t) /\ wf (database g')) ->
  runs config (ar_context request) g
    (let* outcome := m in cleanup config (mkSession t) (ar_context request) outcome)
    (fun o g' => exists g1, R o g1 /\ database g' = database g1).
Proof.
  intros Htoken Hm HR s Hs. specialize (Hm s Hs). unfold ebind. destruct (m s) as [[o|e] s1].
  - destruct (HR o _ Hm) as [Ht Hwf].
    pose proof (runs_cleanup config (ar_context request) t Htoken (glpi (world s1)) o Ht Hwf s1 eq_refl) as Hc.
    destruct (cleanup _ _ _ _ s1) as [[o'|e] s2]; [|done]. destruct Hc as [-> Hdb]. eauto.
  - destruct (cleanup_emits (W := W) config request (mkSession t) (Err e) s1) as (l & Htr & _ & _ & Hr).
    destruct (cleanup _ _ _ _ s1) as [r s2]. simpl in *.
    destruct Hr as [->|[? _]]; [|done]. rewrite Htr. by apply interrupted_app.
Qed.
(** What a reconciliation request asks of the tables: version 1, a payload that
    normalizes to [desired], names that denote one id each, an owner who is one
    user or nobody, and room for the new rows. *)
Definition solvable (request : TargetAdapterRequest) (desired : list CanonicalAssignment)
    (resolved : list DesiredAssignment) (o : option N) (σ : Database) : Prop :=
  version_get (envelope_version (ar_desired_state request)) = 1%N /\
  parse_and_normalize (as_json (envelope_payload (ar_desired_state request))) = Ok desired /\
  wf σ /\ Forall2 (granted σ) desired resolved /\
  owner_known σ (username (ar_identity request)) o /\
  fits (S default_rows + length desired) σ.

Lemma runs_reconcile request desired resolved o g :
  solvable request desired resolved o (database g) ->
  runs config (ar_context request) g (reconcile config request) (fun outcome g' =>
    converged (database g) (database g') (username (ar_identity request)) o resolved outcome).
Proof.
  intros (Hv & Hparse & Hwf & Hgr & Hown & Hfits). unfold reconcile.
  eapply runs_try; [by apply runs_check|]. intros _ g0 ->. rewrite Hv. simpl.
  eapply runs_lift; [exact Hparse|]. eapply runs_try; [apply runs_window|]. intros d g0 ->.
  eapply runs_try; [by apply runs_init|]. intros [t] g1 (Htoken & Ht & Hdb). simpl in *.
  eapply runs_conseq.
  - eapply runs_finish; [done| |].
    + apply (runs_reconcile_with_session _ _ t Htoken g1 _ desired resolved o);
        rewrite ?Hdb; try done. by eapply parsed_pairs_nodup.
    + intros outcome g' [Ht' (u & Hc)]. split; [done|apply Hc].
  - intros outcome g' (g2 & [_ Hc] & ->). by rewrite <- Hdb.
Qed.

(** C1: take a GLPI that keeps its REST contract and a request that is solvable on its
    tables: envelope version 1, a payload that normalizes, desired names that each denote
    exactly one entity and one profile, a login that names one user, who is not deleted,
    or nobody, well-formed tables, and row ids and counts that stay below 2^64.  Then a
    successful reconciliation took the owner's rows, of the existing or a newly created
    user, to exactly the desired grants and left all other rows, users, entities and
    profiles as they were; it reports [Unchanged] exactly when the grants were already in
    place, and then nothing was changed.  It fails only with [Cancelled] or
    [DeadlineExceeded], and then this very run was told of the cancellation, read a time
    past its deadline, or had a request cut off by its deadline. *)
Theorem reconcile_converges (request : TargetAdapterRequest) (desired : list CanonicalAssignment)
    (resolved : list DesiredAssignment) (o : option N) (w : W) :
  solvable request desired resolved o (database (glpi w)) ->
  let '(r, s) := reconcile config request (mkTr w []) in
  match r with
  | Ok outcome => converged (database (glpi w)) (database (glpi (world s)))
      (username (ar_identity request)) o resolved outcome
  | Err e => interrupted W (deadline (ar_context request)) e (trace s)
  end.
Proof.
  intros Hs. pose proof (runs_reconcile request desired resolved o _ Hs (mkTr w []) eq_refl) as H.
  by destruct (reconcile config request _) as [[outcome|e] s].
Qed.

(** A converged state asks for nothing more. *)
Lemma converged_solvable request request' desired resolved o outcome σ σ' :
  solvable request desired resolved o σ ->
  converged σ σ' (username (ar_identity request)) o resolved outcome ->
  ar_identity request' = ar_identity request ->
  ar_desired_state request' = ar_desired_state request ->
  fits (S default_rows + length desired) σ' ->
  exists u, solvable request' desired resolved (Some u) σ' /\
    (row_grant <$> owned σ' u) ≡ₚ (des_grant <$> resolved).
Proof.
  intros (Hv & Hp & _ & Hgr & _ & _) (u & Hown & _ & He & Hpr & Hgrants & _ & _ & Hwf) Hid Hst Hfits.
  exists u. split; [|done]. unfold solvable. rewrite Hid, Hst. split_and!; try done.
  eapply Forall2_impl; [exact Hgr|]. unfold granted, denotes. simpl. by rewrite He, Hpr.
Qed.

(** C9: against a GLPI that keeps its REST contract, repeating a reconciliation that
    succeeded finds nothing to do.  The first request was solvable on the tables it
    met: envelope version 1, a payload that normalizes, names that each denote exactly one
    entity and one profile, a login that names one user, who is not deleted, or nobody.
    The second has the same identity and desired state, and a deadline and a session of
    its own; it meets the tables the first one left, and ids and counts still stay below
    2^64.  Then the second one reports [Unchanged] and leaves the tables
    as they are, or fails with [Cancelled] or [DeadlineExceeded] because this very run was
    told of the cancellation, read a time past its deadline, or had a request cut off by
    its deadline. *)
Theorem reconcile_idempotent (request request' : TargetAdapterRequest)
    (desired : list CanonicalAssignment) (resolved : list DesiredAssignment) (o : option N)
    (outcome : ReconciliationOutcome) (w w' : W) (s : Tr W GlpiCall) :
  solvable request desired resolved o (database (glpi w)) ->
  reconcile config request (mkTr w []) = (Ok outcome, s) ->
  ar_identity request' = ar_identity request ->
  ar_desired_state request' = ar_desired_state request ->
  database (glpi w') = database (glpi (world s)) ->
  fits (S default_rows + length desired) (database (glpi w')) ->
  let '(r, s') := reconcile config request' (mkTr w' []) in
  match r with
  | Ok outcome' => outcome' = Unchanged /\ database (glpi (world s')) = database (glpi w')
  | Err e => interrupted W (deadline (ar_context request')) e (trace s')
  end.
Proof.
  intros Hsolv Hrun Hid Hst Hdb Hfits.
  pose proof (runs_reconcile request desired resolved o _ Hsolv (mkTr w []) eq_refl) as Hconv.
  rewrite Hrun in Hconv. rewrite <- Hdb in Hconv.
  destruct (converged_solvable _ request' _ _ _ _ _ _ Hsolv Hconv Hid Hst Hfits) as (u & Hsolv' & Hgr).
  pose proof (runs_reconcile request' desired resolved (Some u) _ Hsolv' (mkTr w' []) eq_refl) as H2.
  destruct (reconcile config request' _) as [[outcome'|e] s']; [|done].
  destruct H2 as (v & _ & [-> _] & _ & _ & _ & _ & Hout & _).
  destruct outcome'; [by destruct Hout|]. split; [done|apply Hout].
Qed.
End Properties.
