(* ===== verification/GlpiReference.v ===== *)
(** * A reference GLPI

    An executable GLPI with the documented behaviour, as an instance of
    [CompliantGlpi]: the assumptions of [GlpiConverge] can hold, and its theorems
    are applied to concrete runs.  Requests are recognised from their method,
    path, query and headers, and answers travel as bytes.  A search returns all
    entries of its item type, which the documented [contains] never exceeds. *)
From S2P Require Import Prelude BTree Core Json Net GlpiBase.
From S2P Require Import GlpiSession GlpiPlan GlpiPayload GlpiSearch GlpiMutation GlpiAdapter.
From S2P Require Import GlpiServer GlpiConverge.

(** ** Bytes *)

Fixpoint bits (p : positive) : bytes :=
  match p with xH => [] | xO q => "0"%char :: bits q | xI q => "1"%char :: bits q end.
Fixpoint unbits (b : bytes) : positive :=
  match b with
  | [] => xH
  | c :: b' => if bool_decide (c = "0"%char) then xO (unbits b') else xI (unbits b')
  end.

Lemma unbits_bits p : unbits (bits p) = p.
Proof. induction p; simpl; congruence. Qed.

Definition put {A} `{Countable A} (a : A) : bytes := bits (encode a).
Definition get {A} `{Countable A} (b : bytes) : option A := decode (unbits b).

#[global] Arguments put : simpl never.
#[global] Arguments get : simpl never.

Lemma get_put {A} `{Countable A} (a : A) : get (put a) = Some a.
Proof. unfold get, put. by rewrite unbits_bits, decode_encode. Qed.

(** ** Documents *)

Definition field_of (uid : string) : N :=
  if bool_decide (uid ∈ (id_uid <$> [TEntity; TProfile; TUser; TProfileUser])) then 2 else 1.

Definition number (n : N) : Value := VNumber (PosInt n).
Definition show_entry (e : N * string) : Value :=
  VObject [("2", number e.1); ("1", VString e.2)].
Definition options_document (id_uid name_uid : string) : Value :=
  VObject [("common", VString "Characteristics"); ("1", VObject [("uid", VString name_uid)]);
           ("2", VObject [("uid", VString id_uid)])].
Definition item_document (a : N * N * (N * N * bool)) : Value :=
  let '(id, u, (p, e, recursive)) := a in
  VObject [("id", number id); ("users_id", number u); ("profiles_id", number p);
           ("entities_id", number e); ("is_recursive", number (if recursive then 1 else 0))].
Definition page_document (page : list (N * string) * (N * N * N)) : WireSearchPage :=
  let '(rows, (start, stop, total)) := page in
  if (total =? 0)%N then mkWireSearchPage 0 0 "0--1/0" Missing
  else mkWireSearchPage total (stop - start + 1) (content_range start stop total)
    (Present (show_entry <$> rows)).
Definition deleted_document (id : N) : Value :=
  VArray [VObject [(u64_to_string id, VBool true); ("message", VString "")]].

(** The content of a creation request. *)
Definition compact (v : Value) : string + (N * N * (N * bool)) :=
  match v with
  | VObject [(_, VObject ((_, VString name) :: _))] => inl name
  | VObject [(_, VObject [(_, VNumber (PosInt u)); (_, VNumber (PosInt p)); (_, VNumber (PosInt e));
      (_, VBool recursive)])] => inr (u, p, (e, recursive))
  | _ => inl ""
  end.

Abbreviation Item := (string * string + (N * N * (N * N * bool)))%type.

Definition sample_payload : RawPayload :=
  mkRawPayload [mkRawPermission "Root" "Admin" false; mkRawPermission "Root > Ops" "Reader" true;
                mkRawPermission "Root" "Admin" false].

#[local] Instance reference_deps : GlpiDeps := {|
  Url := string * list (string * string);
  url_join := fun _ path => Some (path, []);
  url_append_pair := fun u key value => (u.1, u.2 ++ [(key, value)]);
  header_text_valid := fun _ => true;
  from_slice_value := fun b =>
    match (get b : option Item) with
    | Some (inl (id_uid, name_uid)) => Some (options_document id_uid name_uid)
    | Some (inr a) => Some (item_document a)
    | None => None
    end;
  from_slice_tokens := fun b => deleted_document <$> get b;
  from_str_payload := fun s => if bool_decide (s = "payload") then Some sample_payload else None;
  from_slice_created := fun b => (fun id => mkCreatedResponse id "" None) <$> get b;
  from_slice_init_session := get;
  from_slice_full_session := fun _ => Some (VObject [("glpishowallentities", number 1)]);
  from_slice_search_page := fun b => page_document <$> get b;
  to_vec := fun v => Some (put (compact v));
|}.

(** ** Requests *)

Definition parse_type (name : string) : option ItemType :=
  List.find (fun ty => bool_decide (type_name ty = name)) [TEntity; TProfile; TUser; TProfileUser].

Definition parse_range (url : Url) : option (N * N) :=
  match table_get url.2 "range" ≫= split_once "-" with
  | Some (start, last) =>
      match parse_u64 start, parse_u64 last with
      | Some start, Some last => Some (start, last)
      | _, _ => None
      end
  | None => None
  end.

Definition parse_deleted (url : Url) : option bool :=
  match table_get url.2 "is_deleted" with
  | Some text => Some (bool_decide (text = "1"))
  | None => None
  end.

Definition parse_token (r : HttpRequest) : string :=
  default "" (header_text <$> (snd <$> head (req_headers r))).

Definition parse_creation (t : string) (b : option bytes) : option Ask :=
  match b ≫= get with
  | Some (inl name) => Some (AskCreateUser t name)
  | Some (inr (u, p, (e, recursive))) => Some (AskCreateAssignment t u p e recursive)
  | None => None
  end.

(** The request a message stands for; the text searched for does not matter. *)
Definition parse_request (r : HttpRequest) : option Ask :=
  let t := parse_token r in
  match split_once "/" (req_url r).1 with
  | None =>
      let path := (req_url r).1 in
      if bool_decide (path = "initSession") then Some AskInit else
      if bool_decide (path = "changeActiveEntities") then Some (AskActivate t) else
      if bool_decide (path = "getFullSession") then Some (AskFullSession t) else
      if bool_decide (path = "killSession") then Some (AskKill t)
      else parse_creation t (req_body r)
  | Some (collection, rest) =>
      if bool_decide (collection = "listSearchOptions") then AskOptions t <$> parse_type rest else
      if bool_decide (collection = "search") then
        match parse_type rest, parse_range (req_url r) with
        | Some ty, Some (start, last) =>
            Some (AskSearch t ty "" (parse_deleted (req_url r)) start last)
        | _, _ => None
        end
      else (match req_method r with DELETE => AskDelete t | _ => AskItem t end) <$> parse_u64 rest
  end.

(** ** The server *)

(** The least positive id not in use. *)
Definition fresh_id (used : list N) : N :=
  default 0%N (head (filter (fun i => i ∉ used) (N.of_nat <$> seq 1 (S (length used))))).

Definition respond (code : N) (b : bytes) : RawResponse := mkResponse code b.

Definition shown (σ : Database) (ty : ItemType) (selector : string) (deleted : option bool) : list Value :=
  show_entry <$> entries σ ty deleted.

(** The row GLPI gives to a new user by default. *)
Definition default_row (u i : N) : Assigned := mkAssigned u (mkRow i 0 1 false).

Definition find_row (σ : Database) (id : N) : option Assigned :=
  List.find (fun a => bool_decide (assigned_id a = id)) (assignments σ).

Definition page_of (rows : list (N * string)) (start last : N) : RawResponse :=
  let total := N.of_nat (length rows) in
  let stop := N.min last (total - 1) in
  let count := (stop - start + 1)%N in
  respond (if (total =? 0)%N || (count =? total)%N then STATUS_OK else STATUS_PARTIAL_CONTENT)
    (put (take (N.to_nat count) (drop (N.to_nat start) rows), (start, stop, total))).

Definition serve (ask : Ask) (g : Glpi) : RawResponse * Glpi :=
  let σ := database g in
  match ask with
  | AskInit => (respond 200 (put "token"), mkGlpi σ (<["token" := false]> (sessions g)))
  | AskActivate t => (respond 200 (as_bytes "true"), mkGlpi σ (<[t := true]> (sessions g)))
  | AskFullSession t => (respond 200 [], g)
  | AskKill t => (respond 200 (as_bytes "true"), mkGlpi σ (delete t (sessions g)))
  | AskOptions t ty => (respond 200 (put (inl (id_uid ty, name_uid ty) : Item)), g)
  | AskSearch t ty _ deleted start last => (page_of (entries σ ty deleted) start last, g)
  | AskItem t id =>
      match find_row σ id with
      | Some a =>
          let r := assigned a in
          (respond 200 (put (inr (id, assigned_to a,
             (row_profiles_id r, row_entities_id r, row_is_recursive r)) : Item)), g)
      | None => (respond 404 [], g)
      end
  | AskCreateUser t name =>
      let u := fresh_id (user_key <$> users σ) in
      let i := fresh_id (assigned_id <$> assignments σ) in
      (respond 201 (put u),
       mkGlpi (add_rows [default_row u i] (add_user (mkUser u name false) σ)) (sessions g))
  | AskCreateAssignment t u p e recursive =>
      let i := fresh_id (assigned_id <$> assignments σ) in
      (respond 201 (put i), mkGlpi (add_rows [mkAssigned u (mkRow i e p recursive)] σ) (sessions g))
  | AskDelete t id => (respond 200 (put id), mkGlpi (delete_rows [id] σ) (sessions g))
  end.

(** The world is this server; time stands still and nothing is cancelled. *)
#[local] Instance reference_clock : Clock Glpi :=
  {| now := fun w => (0%Z, w); is_cancelled := fun w => (false, w) |}.
#[local] Instance reference_world : GlpiWorld Glpi := {|
  glpi_clock := reference_clock;
  transport_request := fun r _ g =>
    match parse_request r with
    | Some ask => let '(resp, g') := serve ask g in (Ok resp, g')
    | None => (Err Transport, g)
    end;
|}.

Definition reference_config : ValidatedConfig :=
  mkValidatedConfig ("https://glpi/", []) "app" "user" 5 DefaultSource.

(** ** Compliance *)

Lemma fresh_id_spec used :
  (0 < fresh_id used <= N.of_nat (S (length used)))%N /\ fresh_id used ∉ used.
Proof.
  unfold fresh_id. set (candidates := N.of_nat <$> seq 1 (S (length used))).
  destruct (filter (fun i => i ∉ used) candidates) as [|i l] eqn:Hf; simpl.
  - assert (candidates ⊆ used) as Hsub.
    { intros i Hi. destruct (decide (i ∈ used)) as [|Hn]; [done|].
      assert (i ∈ filter (fun i => i ∉ used) candidates) as Hin by (by apply list_elem_of_filter).
      rewrite Hf in Hin. set_solver. }
    assert (NoDup candidates) as Hnd by (apply NoDup_fmap_2; [exact Nat2N.inj|apply NoDup_seq]).
    pose proof (submseteq_length _ _ (NoDup_submseteq _ _ Hnd Hsub)) as Hl.
    unfold candidates in Hl. rewrite length_fmap, length_seq in Hl. lia.
  - assert (i ∈ filter (fun i => i ∉ used) candidates) as Hin by (rewrite Hf; set_solver).
    apply list_elem_of_filter in Hin as [Hn Hi]. split; [|done].
    apply list_elem_of_fmap in Hi as (k & -> & Hk%elem_of_seq). lia.
Qed.

Lemma shown_found σ ty sel deleted :
  Forall2 (shows (field_of (id_uid ty)) (field_of (name_uid ty))) (shown σ ty sel deleted)
    (entries σ ty deleted).
Proof.
  unfold shown. induction (entries σ ty deleted) as [|[id name] l IH]; simpl; constructor; [|done].
  exists (<[1%N := VString name]> (<[2%N := number id]> ∅)).
  destruct ty; (split; [done|]); (split; [reflexivity|left; reflexivity]).
Qed.

Lemma parse_type_name ty : parse_type (type_name ty) = Some ty.
Proof. by destruct ty. Qed.

Lemma page_of_reply σ ty sel deleted start last :
  page_reply (shown σ ty sel deleted) start last (page_of (entries σ ty deleted) start last).
Proof.
  unfold page_reply, page_of, shown. rewrite length_fmap. simpl. rewrite get_put. simpl.
  set (total := N.of_nat (length (entries σ ty deleted))).
  destruct (total =? 0)%N; simpl; [done|]. split; [done|]. by rewrite fmap_take, fmap_drop.
Qed.

Lemma find_row_unique σ a : wf σ -> a ∈ assignments σ -> find_row σ (assigned_id a) = Some a.
Proof.
  intros Hwf Hin. unfold find_row. destruct (List.find _ _) as [b|] eqn:Hf.
  - apply List.find_some in Hf as [Hb Heq]. apply bool_decide_eq_true in Heq. f_equal.
    eapply (NoDup_fmap_inj_elem assigned_id); [apply Hwf|by apply list_elem_of_In|done|done].
  - apply list_elem_of_In in Hin. eapply List.find_none in Hf; [|exact Hin].
    by rewrite bool_decide_true in Hf.
Qed.

Lemma new_user_wf σ name : wf σ -> fits 2 σ ->
  let u := fresh_id (user_key <$> users σ) in
  let i := fresh_id (assigned_id <$> assignments σ) in
  wf (add_rows [default_row u i] (add_user (mkUser u name false) σ)).
Proof.
  intros [He Hp Hu Hi Hk Hr] Hfits u i.
  destruct (fresh_id_spec (user_key <$> users σ)) as [Hu1 Hu2].
  destruct (fresh_id_spec (assigned_id <$> assignments σ)) as [Hi1 Hi2].
  fold u in Hu1, Hu2. fold i in Hi1, Hi2. rewrite length_fmap in *.
  constructor; simpl; try done.
  - rewrite fmap_app. apply NoDup_app. split_and!; [done| |apply NoDup_singleton].
    intros j Hj ->%list_elem_of_singleton. done.
  - rewrite fmap_app. apply NoDup_app. split_and!; [done| |apply NoDup_singleton].
    intros j Hj ->%list_elem_of_singleton. done.
  - apply Forall_app. split; [done|]. constructor; [|done]. simpl. lia.
  - rewrite fmap_app. apply Forall_app. split.
    + eapply Forall_impl; [exact Hr|]. intros a (? & ? & ?). split_and!; [lia..|done|]. set_solver.
    + constructor; [|done]. unfold assigned_id. simpl.
      unfold fits, size, PAGE_SIZE in Hfits. split_and!; [lia..|]. set_solver.
Qed.

(** Every request of the adapter is recognised, up to the text searched for. *)
Definition forget (ask : Ask) : Ask :=
  match ask with AskSearch t ty _ deleted start last => AskSearch t ty "" deleted start last | _ => ask end.

Lemma parse_creation_put t c : parse_creation t (Some (put c)) =
  Some (match c with inl name => AskCreateUser t name
        | inr (u, p, (e, recursive)) => AskCreateAssignment t u p e recursive end).
Proof. unfold parse_creation, mbind, option_bind. rewrite get_put. by destruct c as [|[[? ?] [? ?]]]. Qed.

Section SearchUrl.
Context (ty : ItemType) (sel : string) (deleted : option bool) (start last : N).
Abbreviation url :=
  (page_url (search_for field_of ty sel deleted) start last ("search/" +:+ type_name ty, [])).

Lemma search_range : (start <= last <= U64_MAX)%N -> parse_range url = Some (start, last).
Proof.
  intros Hrange. unfold parse_range.
  assert (table_get url.2 "range" = Some (u64_to_string start +:+ String "-" (u64_to_string last))) as ->
    by (by destruct deleted).
  cbn [mbind option_bind]. rewrite split_once_app by (apply digits_no_sep; [lia|done]).
  by rewrite !parse_u64_to_string by lia.
Qed.

Lemma search_deleted : parse_deleted url = deleted.
Proof. by destruct deleted as [[]|]. Qed.
End SearchUrl.

Lemma parse_request_for ask req : request_for reference_config field_of ask = Ok req ->
  in_range ask -> parse_request req = Some (forget ask).
Proof.
  destruct ask as [|t|t|t|t ty|t ty sel deleted start last|t id|t name|t u p e rec|t id];
    intros [= <-] Hrange.
  1-4: reflexivity.
  - by destruct ty.
  - unfold parse_request. cbn [req_url req_method].
    rewrite (search_range ty sel deleted start last Hrange), (search_deleted ty sel deleted start last).
    by destruct ty, deleted.
  - unfold parse_request. simpl. rewrite of_as_bytes. change ("" +:+ ?x) with x.
    by rewrite parse_u64_to_string.
  - exact (parse_creation_put t (inl name)).
  - exact (parse_creation_put t (inr (u, p, (e, rec)))).
  - unfold parse_request. simpl. rewrite of_as_bytes. change ("" +:+ ?x) with x.
    by rewrite parse_u64_to_string.
Qed.

Lemma serve_answers ask g : wf (database g) ->
  let '(resp, g') := serve (forget ask) g in answered field_of shown 1 ask g resp g'.
Proof.
  intros Hwf. destruct ask as [|t|t|t|t ty|t ty sel deleted start last|t id|t name|t u p e rec|t id]; simpl.
  - exists "token", false. rewrite get_put. done.
  - done.
  - intros _. split_and!; [done|done|]. by eexists.
  - done.
  - intros _. split_and!; [done|done|]. rewrite get_put. eexists. split; [done|].
    destruct ty; by apply Permutation_swap.
  - intros _ _. split; [done|]. apply page_of_reply.
  - destruct (find_row (database g) id) as [a'|] eqn:Hf; intros _ a Ha <-;
      rewrite find_row_unique in Hf by done; [|done]. injection Hf as <-.
    split; [done|]. split; [done|]. simpl. rewrite get_put. eexists. split; [done|]. done.
  - intros _ _ Hfits. destruct (fresh_id_spec (user_key <$> users (database g))) as [Hu Hn].
    eexists _, _. split; [split; [done|]; simpl; rewrite get_put; by eexists|].
    split; [apply Hu|]. split; [done|]. split; [done|]. split; [by constructor|]. split; [done|].
    by apply new_user_wf.
  - intros _ _ _ Hfits. destruct (fresh_id_spec (assigned_id <$> assignments (database g))) as [Hi Hn].
    eexists. split; [split; [done|]; simpl; rewrite get_put; by eexists|].
    split; [|done]. rewrite length_fmap in Hi. unfold fits, size, PAGE_SIZE in Hfits. simpl. lia.
  - intros _ _. split; [|done]. split; [done|]. simpl. rewrite get_put. by eexists.
Qed.

#[local] Program Instance reference_compliant : CompliantGlpi reference_config Glpi := {|
  glpi := id;
  field := field_of;
  hits := shown;
  default_rows := 1;
|}.
Next Obligation. done. Qed.
Next Obligation. done. Qed.
Next Obligation. by eexists. Qed.
Next Obligation. by eexists. Qed.
Next Obligation. done. Qed.
Next Obligation. done. Qed.
Next Obligation. intros σ ty sel deleted Hwf. exists (entries σ ty deleted). split; [apply shown_found|done]. Qed.
Next Obligation.
  intros ask req d w Hreq Hrange Hwf. unfold transport_request. simpl.
  rewrite (parse_request_for ask req Hreq Hrange).
  pose proof (serve_answers ask w Hwf) as Ha. by destruct (serve (forget ask) w).
Qed.

(** ** Concrete runs

    Two entities, three profiles, and two users with rows; "jane" holds a superfluous
    and a wrong row, "new" does not exist yet. *)
Module Sample.
Definition tables : Database :=
  mkDatabase [(0, "Root"); (3, "Root > Ops")]%N [(1, "Self-Service"); (4, "Admin"); (6, "Reader")]%N
    [mkUser 7 "jane" false; mkUser 9 "john" false; mkUser 10 "gone" true]
    [mkAssigned 7 (mkRow 17 0 4 true); mkAssigned 9 (mkRow 18 0 6 false);
     mkAssigned 7 (mkRow 19 3 6 true); mkAssigned 7 (mkRow 21 3 6 true)].
Definition start : Glpi := mkGlpi tables ∅.

Definition request_of (name : string) : TargetAdapterRequest :=
  mkAdapterRequest (mkIdentityContext name [])
    (mkEnvelope (mkEnvelopeVersion 1) (mkOpaquePayload "payload")) (mkContext 100).

Definition desired : list CanonicalAssignment :=
  [mkCanonical "Root" "Admin" false; mkCanonical "Root > Ops" "Reader" true].
Definition resolved : list DesiredAssignment := [mkDesired 0 4 false; mkDesired 3 6 true].

Definition after (name : string) : Glpi :=
  world (reconcile reference_config (request_of name) (mkTr start [])).2.

Lemma jane_run :
  (reconcile reference_config (request_of "jane") (mkTr start [])).1 = Ok Changed /\
  owned (database (after "jane")) 7 = [mkRow 19 3 6 true; mkRow 1 0 4 false] /\
  owned (database (after "jane")) 9 = [mkRow 18 0 6 false].
Proof. vm_compute. done. Qed.

Lemma new_run :
  (reconcile reference_config (request_of "new") (mkTr start [])).1 = Ok Changed /\
  owned (database (after "new")) 1 = [mkRow 1 0 4 false; mkRow 2 3 6 true].
Proof. vm_compute. done. Qed.

Lemma tables_wf : wf tables.
Proof. constructor; by_decide. Qed.

Lemma denotes_found σ ty name id :
  (id, name) ∈ entries σ ty None /\ Forall (fun e => e.2 = name -> e.1 = id) (entries σ ty None) ->
  denotes σ ty name id.
Proof.
  rewrite Forall_forall. intros [Hin Hall] i. split; [|by intros ->].
  intros Hi. exact (Hall (i, name) Hi eq_refl).
Qed.

Lemma tables_granted : Forall2 (granted tables) desired resolved.
Proof.
  apply Forall2_cons_2; [|apply Forall2_cons_2; [|apply Forall2_nil_2]];
    (split_and!; [| |done|done]); apply denotes_found; by_decide.
Qed.

Lemma jane_solvable : solvable reference_config (request_of "jane") desired resolved (Some 7%N) tables.
Proof.
  split_and!; [done|vm_compute; reflexivity|apply tables_wf|apply tables_granted| |by vm_compute].
  split; simpl.
  - intros x Hx Hn. set_unfold in Hx. by destruct Hx as [->|[->|[->|[]]]].
  - intros u [= <-]. exists (mkUser 7 "jane" false). split; [set_solver|done].
Qed.

Lemma new_solvable : solvable reference_config (request_of "new") desired resolved None tables.
Proof.
  split_and!; [done|vm_compute; reflexivity|apply tables_wf|apply tables_granted| |by vm_compute].
  split; simpl; [|done]. intros x Hx Hn. set_unfold in Hx. by destruct Hx as [->|[->|[->|[]]]].
Qed.

Lemma reconcile_converges_witness :
  converged tables (database (after "new")) "new" None resolved Changed /\
  converged tables (database (after "jane")) "jane" (Some 7%N) resolved Changed.
Proof.
  split.
  - pose proof (reconcile_converges reference_config (request_of "new") desired resolved None start
      new_solvable) as H.
    pose proof (proj1 new_run) as Hr. unfold after.
    destruct (reconcile reference_config (request_of "new") (mkTr start [])) as [r s]. simpl in Hr.
    subst r. exact H.
  - pose proof (reconcile_converges reference_config (request_of "jane") desired resolved (Some 7%N) start
      jane_solvable) as H.
    pose proof (proj1 jane_run) as Hr. unfold after.
    destruct (reconcile reference_config (request_of "jane") (mkTr start [])) as [r s]. simpl in Hr.
    subst r. exact H.
Defined.

Lemma reconcile_idempotent_witness :
  let '(r, s) := reconcile reference_config (request_of "jane") (mkTr (after "jane") []) in
  r = Ok Unchanged /\ database s.(world) = database (after "jane").
Proof.
  destruct (reconcile reference_config (request_of "jane") (mkTr start [])) as [r s] eqn:Erun.
  assert (r = Ok Changed) as -> by (pose proof (proj1 jane_run) as Hr; by rewrite Erun in Hr).
  assert (after "jane" = world s) as Hafter by (unfold after; by rewrite Erun).
  assert (fits (S 1 + length desired) (database (after "jane"))) as Hfits by (by vm_compute).
  pose proof (reconcile_idempotent reference_config (request_of "jane") (request_of "jane") desired
    resolved (Some 7%N) Changed start (after "jane") s jane_solvable Erun eq_refl eq_refl
    ltac:(by rewrite Hafter) Hfits) as H.
  assert ((reconcile reference_config (request_of "jane") (mkTr (after "jane") [])).1 = Ok Unchanged)
    as Hok by (vm_compute; reflexivity).
  destruct (reconcile reference_config (request_of "jane") (mkTr (after "jane") [])) as [r' s'].
  simpl in Hok. subst r'. split; [reflexivity|apply H].
Defined.
End Sample.
