(* ===== verification/AuthBase.v ===== *)
(** * [permissionsync-auth]: shared types

    Models the error categories ([error.rs]), the request and result types
    ([types.rs]), the request-context helpers ([context.rs]) and the static
    configuration data and validation ([config.rs]) of
    [crates/permissionsync-auth/src]. *)
From Stdlib Require Import SpecFloat.
From S2P Require Import Prelude Core Json.

(** [lib.rs]: product limits. *)
Definition MAX_TEXT_BYTES : nat := N.to_nat 4096.
Definition MAX_TOKEN_BYTES : N := 16384.
Definition MAX_DOCUMENT_BYTES : N := 1048576.
Definition MAX_JWKS_KEYS : nat := 32.
Definition MAX_PUBLIC_COMPONENT_BYTES : nat := N.to_nat 1366.
Definition MAX_RSA_EXPONENT_BYTES : nat := 16.

(** ** Outcomes *)

Inductive AuthenticationError : Type := Rejected | Forbidden | VerifierUnavailable | Cancelled.

#[global] Instance AuthenticationError_eq_dec : EqDecision AuthenticationError.
Proof. solve_decision. Defined.

Definition authentication_error_display (e : AuthenticationError) : string :=
  match e with
  | Rejected => "technical caller authentication rejected"
  | Forbidden => "technical caller authorization forbidden"
  | VerifierUnavailable => "technical caller verifier unavailable"
  | Cancelled => "technical caller authentication cancelled"
  end.

Inductive TargetSelection : Type := NoTarget | Selected (target : LogicalTarget).

(** [TargetSelection::selected]. *)
Definition selected (s : TargetSelection) : option LogicalTarget :=
  match s with NoTarget => None | Selected target => Some target end.

Record AuthenticatedTechnicalCaller : Type := mkCaller {
  client_id : string;
  caller_bearer_token : TechnicalCallerBearerToken;
  target_selection : TargetSelection;
}.

Record AuthenticationRequest : Type := mkAuthRequest {
  raw_compact_token : option string;
  auth_context : SynchronizationContext;
}.

(** ** Request context ([context.rs]) *)

Inductive DeadlineCause : Type := OverallRequest | MetadataOperation.

Record EffectiveDeadline : Type := mkEffectiveDeadline {
  instant : Z;
  cause : DeadlineCause;
}.

Section Context.
Context {W C : Type} `{!Clock W}.
Abbreviation M := (Eff (Tr W C)).

(** [check_context]: the disjunction is evaluated left to right. *)
Definition check_context (context : SynchronizationContext) : M (result unit AuthenticationError) :=
  let* cancelled := read_cancelled in
  if cancelled then eret (Err Cancelled) else
  let* t := read_now in
  if (deadline context <=? t)%Z then eret (Err Cancelled) else eret (Ok tt).

(** [effective_deadline]. *)
Definition effective_deadline (context : SynchronizationContext) (operation_timeout : Z)
  : M (result EffectiveDeadline AuthenticationError) :=
  let! _ := check_context context in
  let overall := deadline context in
  let* t := read_now in
  let operation := default overall (instant_checked_add t operation_timeout) in
  if (overall <=? operation)%Z then eret (Ok (mkEffectiveDeadline overall OverallRequest))
  else eret (Ok (mkEffectiveDeadline operation MetadataOperation)).

(** [timeout_error]. *)
Definition timeout_error (c : DeadlineCause) : M AuthenticationError :=
  let* cancelled := read_cancelled in
  if cancelled then eret Cancelled else
  eret (match c with OverallRequest => Cancelled | MetadataOperation => VerifierUnavailable end).

Lemma emits_auth_check_context (context : SynchronizationContext) :
  emits (check_context context)
    (fun l r => calls l = [] /\ forall e, r = Err e -> e = Cancelled).
Proof.
  unfold check_context. eapply emits_bind;
    [by apply (emits_cancelled (fun l b => l = [ECancelled b]))|].
  intros l1 [] ->; [by apply emits_ret; split; [|intros e [= <-]]|].
  eapply emits_bind; [by apply (emits_now (fun l t => l = [ENow t]))|].
  intros l2 t ->. destruct (_ <=? _)%Z; apply emits_ret; (split; [done|]); by intros e [= <-].
Qed.

(** A computation that only checks the context: it either computes [r], or
    observes cancellation or expiry. *)
Definition checks_only {A} (m : M (result A AuthenticationError)) (r : result A AuthenticationError) : Prop :=
  emits m (fun l a => calls l = [] /\ (a = r \/ a = Err Cancelled)).

Lemma checks_ret {A} (r : result A AuthenticationError) : checks_only (eret r) r.
Proof. apply emits_ret. auto. Qed.

Lemma checks_check {A} context (k : unit -> M (result A AuthenticationError)) r :
  checks_only (k tt) r -> checks_only (etry (check_context context) k) r.
Proof.
  intros Hk. eapply emits_try; [apply emits_auth_check_context| |].
  - intros l [] [Hl _]. eapply emits_conseq; [apply Hk|]. intros l2 a [Hl2 Ha].
    by rewrite calls_app, Hl, Hl2.
  - intros l e [Hl He]. rewrite (He e eq_refl). auto.
Qed.

Lemma checks_lift {A B} (r : result A AuthenticationError) (k : A -> M (result B AuthenticationError)) r' :
  (forall a, r = Ok a -> checks_only (k a) (r' a)) ->
  checks_only (etry (elift r) k) (rbind r r').
Proof.
  intros Hk. destruct r as [a|e]; simpl; [|by apply emits_ret; auto].
  intros s. by apply (Hk a eq_refl).
Qed.

Lemma checks_try {A B} (m : M (result A AuthenticationError)) (k : A -> M (result B AuthenticationError))
    r r' :
  checks_only m r -> (forall a, r = Ok a -> checks_only (k a) (r' a)) ->
  checks_only (etry m k) (rbind r r').
Proof.
  intros Hm Hk. eapply emits_try; [exact Hm| |].
  - intros l a [Hl [Ha|Ha]]; [|done]. eapply emits_conseq; [by apply Hk|].
    intros l2 b [Hl2 Hb]. rewrite <- Ha. simpl. by rewrite calls_app, Hl, Hl2.
  - intros l e [Hl [<-|Ha]]; [by auto|]. injection Ha as ->. auto.
Qed.
End Context.

(** ** Configuration ([config.rs]) *)

Inductive JwtAlgorithm : Type :=
| RS256 | RS384 | RS512 | PS256 | PS384 | PS512 | ES256 | ES384 | ES512 | EdDSA.

#[global] Instance JwtAlgorithm_eq_dec : EqDecision JwtAlgorithm.
Proof. solve_decision. Defined.

Definition alg_name (a : JwtAlgorithm) : string :=
  match a with
  | RS256 => "RS256" | RS384 => "RS384" | RS512 => "RS512"
  | PS256 => "PS256" | PS384 => "PS384" | PS512 => "PS512"
  | ES256 => "ES256" | ES384 => "ES384" | ES512 => "ES512" | EdDSA => "EdDSA"
  end.

(** The derived order: declaration order. *)
Definition alg_index (a : JwtAlgorithm) : N :=
  match a with
  | RS256 => 0 | RS384 => 1 | RS512 => 2 | PS256 => 3 | PS384 => 4 | PS512 => 5
  | ES256 => 6 | ES384 => 7 | ES512 => 8 | EdDSA => 9
  end.

#[global] Instance alg_name_inj : Inj (=) (=) alg_name.
Proof. by intros [] []. Qed.

Record VerificationCachePolicy : Type := mkPolicy { freshness : Z; stale_if_error : Z }.

Inductive TrustedVerificationSource : Type :=
| DirectJwks (uri : string)
| OidcDiscovery (uri : string).

Inductive AuthenticatorConfigurationError : Type :=
| InvalidIssuer | InvalidAudience | InvalidSource | InvalidAlgorithms | InvalidMetadataTimeout
| InvalidCachePolicy | InvalidClockSkew | InvalidTrustAnchor | TlsConfiguration.

(** Third-party code the authenticator calls.
    - [hyper::Uri]: parsing and the components it inspects;
    - [native_tls]: the number of certificates of a PEM, and whether the
      connector builds;
    - [serde_json]: parsing to a [Value], the discovery document, printing;
    - [josekit]: a compact token's JWS header (absent when the token has no such
      header), the header's members, a JWK, its verifier for one algorithm, and
      signature verification of a compact token, which yields the payload.
      [deserialize_compact_with_selector] passes the decoded header to the
      selector and verifies with the verifier it returns. *)
Class AuthDeps : Type := {
  Uri : Type;
  uri_parse : string -> option Uri;
  uri_scheme : Uri -> option string;
  uri_host : Uri -> option string;
  uri_authority : Uri -> option string;
  stack_from_pem : bytes -> option nat;
  tls_build : list bytes -> bool;
  json_from_slice : bytes -> option Value;
  json_to_vec : Value -> option bytes;
  discovery_from_slice : bytes -> option (string * string);
  Header : Type;
  decode_jws_header : string -> option Header;
  header_claim : Header -> string -> option Value;
  header_algorithm : Header -> option string;
  header_key_id : Header -> option string;
  Jwk : Type;
  jwk_from_bytes : bytes -> option Jwk;
  Verifier : Type;
  verifier_from_jwk : JwtAlgorithm -> Jwk -> option Verifier;
  compact_header : string -> option Header;
  compact_verify : string -> Verifier -> option bytes;
}.

(** [jwks::Candidate] and [authenticator::Snapshot]. *)
Record Candidate `{AuthDeps} : Type := mkCandidate {
  kid : option string;
  candidate_algorithm : JwtAlgorithm;
  with_kid : Verifier;
  without_kid : Verifier;
}.
Arguments mkCandidate {_} kid candidate_algorithm with_kid without_kid.

Record Snapshot `{AuthDeps} : Type := mkSnapshot {
  candidates : list Candidate;
  acquired : Z;
  generation : N;
}.
Arguments mkSnapshot {_} candidates acquired generation.

Inductive SourceUri `{AuthDeps} : Type := Direct (uri : Uri) | Discovery (uri : Uri).

(** [Config], the validated configuration without its TLS connector. *)
Record Config `{AuthDeps} : Type := mkConfig {
  issuer : string;
  audience : string;
  source : SourceUri;
  algorithms : list JwtAlgorithm;
  metadata_timeout : Z;
  cache_policy : VerificationCachePolicy;
  clock_skew : Z;
}.

Arguments mkConfig {_} issuer audience source algorithms metadata_timeout cache_policy clock_skew.

Definition MAX_CLOCK_SKEW : Z := 300 * NANOS_PER_SEC.

Definition valid_text (value : string) : bool :=
  negb (bool_decide (value = "")) && (byte_len value <=? MAX_TEXT_BYTES).

(** [BTreeSet] of the configured algorithms: ascending, without repetition. *)
Fixpoint insert_alg (a : JwtAlgorithm) (l : list JwtAlgorithm) : list JwtAlgorithm :=
  match l with
  | [] => [a]
  | b :: l' =>
      match N.compare (alg_index a) (alg_index b) with
      | Lt => a :: l
      | Eq => l
      | Gt => b :: insert_alg a l'
      end
  end.
Definition alg_set (l : list JwtAlgorithm) : list JwtAlgorithm := foldl (fun s a => insert_alg a s) [] l.

(** ** The environment *)

Abbreviation f64 := spec_float (only parsing).

(** A metadata response: status, the [Content-Length] value and the body's exact
    size hint when there are ones, and the frames of the body in order.  A
    frame that does not arrive before the deadline is [FrameTimeout]; the end of
    the list is the end of the body. *)
Inductive Frame : Type := FrameData (b : bytes) | FrameOther | FrameError | FrameTimeout.
Record MetadataResponse : Type := mkMetadataResponse {
  response_status : N;
  content_length : option string;
  size_hint : option N;
  frames : list Frame;
}.
Inductive MetadataAnswer : Type :=
| AnswerTimeout | AnswerError | AnswerResponse (r : MetadataResponse).

(** The process environment of the authenticator, shared with every concurrent
    request: the clocks, the trusted cache behind its read-write lock, the
    refresh mutex and the metadata client.  A lock wait that reaches the
    deadline answers nothing. *)
Class AuthWorld (W : Type) `{AuthDeps} : Type := {
  auth_clock :: Clock W;
  tick : W -> Z * W;
  unix_seconds : W -> option f64 * W;
  cache_read : Z -> W -> option (option Snapshot) * W;
  cache_write : Z -> W -> option (option Snapshot) * W;
  cache_store : Snapshot -> W -> W;
  refresh_lock : Z -> W -> bool * W;
  refresh_unlock : W -> W;
  metadata_get : Uri -> Z -> W -> MetadataAnswer * W;
}.

(** What the trace of an authentication records. *)
Inductive AuthCall `{AuthDeps} : Type :=
| Tick (t : Z)
| WallClock (t : option f64)
| CacheRead (content : option (option Snapshot))
| CacheWrite (content : option (option Snapshot))
| CacheStore (s : Snapshot)
| RefreshLock (acquired : bool)
| RefreshUnlock
| MetadataGet (uri : Uri) (until : Z) (answer : MetadataAnswer).

Section Configuration.
Context `{Deps : AuthDeps}.

(** [parse_https_authority], [parse_issuer_uri], [parse_metadata_uri]. *)
Definition parse_https_authority (value : string) : option Uri :=
  if (MAX_TEXT_BYTES <? byte_len value) || contains_char ["{"%char; "}"%char] value then None else
  match uri_parse value with
  | None => None
  | Some uri =>
      if negb (bool_decide (uri_scheme uri = Some "https"))
         || match uri_host uri with None => true | Some host => bool_decide (host = "") end
         || bool_decide (uri_authority uri = None)
         || match uri_authority uri with Some a => contains_char ["@"%char] a | None => false end
      then None else Some uri
  end.
Definition parse_issuer_uri (value : string) : option Uri :=
  if contains_char ["?"%char; "#"%char] value then None else parse_https_authority value.
Definition parse_metadata_uri (value : string) : option Uri :=
  if contains_char ["#"%char] value then None else parse_https_authority value.

(** [SourceUri::from_public]. *)
Definition source_from_public (s : TrustedVerificationSource)
  : result SourceUri AuthenticatorConfigurationError :=
  match s with
  | DirectJwks uri => let? u := ok_or (parse_metadata_uri uri) InvalidSource in Ok (Direct u)
  | OidcDiscovery uri => let? u := ok_or (parse_metadata_uri uri) InvalidSource in Ok (Discovery u)
  end.

(** The trust-anchor loop: every PEM holds at least one certificate. *)
Definition trust_anchor_ok (pem : bytes) : bool :=
  match stack_from_pem pem with None => false | Some n => negb (n =? 0) end.

(** [TechnicalCallerAuthenticatorConfig::new]. *)
Definition config_new (iss expected_audience : string) (src : TrustedVerificationSource)
    (algs : list JwtAlgorithm) (timeout : Z) (policy : VerificationCachePolicy) (skew : Z)
    (additional_trust_anchors_pem : list bytes) : result Config AuthenticatorConfigurationError :=
  if negb (valid_text iss) || bool_decide (parse_issuer_uri iss = None) then Err InvalidIssuer else
  if negb (valid_text expected_audience) then Err InvalidAudience else
  let? s := source_from_public src in
  if bool_decide (algs = []) || negb (length (alg_set algs) =? length algs)
  then Err InvalidAlgorithms else
  if (timeout =? 0)%Z then Err InvalidMetadataTimeout else
  if (freshness policy =? 0)%Z ||
     bool_decide (duration_checked_add (freshness policy) (stale_if_error policy) = None)
  then Err InvalidCachePolicy else
  if (MAX_CLOCK_SKEW <? skew)%Z then Err InvalidClockSkew else
  if negb (forallb trust_anchor_ok additional_trust_anchors_pem) then Err InvalidTrustAnchor else
  if negb (tls_build additional_trust_anchors_pem) then Err TlsConfiguration else
  Ok (mkConfig iss expected_audience s (alg_set algs) timeout policy skew).
End Configuration.
