(* ===== verification/AuthJwks.v ===== *)
(** * [permissionsync-auth]: trusted JWKS documents

    Models [crates/permissionsync-auth/src/jwks.rs]: the preflight of a token's
    header and the conversion of a trusted key set into verification
    candidates. *)
From S2P Require Import Prelude Core Json AuthBase.

Section Preflight.
Context `{Deps : AuthDeps}.

(** [preflight_header]. *)
Definition preflight_header (token : string) (allowed : list JwtAlgorithm)
  : result JwtAlgorithm AuthenticationError :=
  let? header := ok_or (decode_jws_header token) Rejected in
  if bool_decide (is_Some (header_claim header "crit")) || bool_decide (is_Some (header_claim header "b64"))
  then Err Rejected else
  let? _ :=
    match header_claim header "kid" with
    | None => Ok tt
    | Some k =>
        let? text := ok_or (as_str k) Rejected in
        if MAX_TEXT_BYTES <? byte_len text then Err Rejected else Ok tt
    end in
  let? algorithm := ok_or (header_algorithm header) Rejected in
  ok_or (List.find (fun configured => bool_decide (alg_name configured = algorithm)) allowed) Rejected.
End Preflight.

(** ** Key classification *)

Inductive KeyApplicability : Type := Applicable | Inapplicable.

(** [bounded_component]. *)
Definition component_byte (c : ascii) : bool :=
  is_ascii_alphanumeric c || bool_decide (c = "-"%char) || bool_decide (c = "_"%char).
Definition bounded_component (object : Object) (field : string) (maximum : nat) : bool :=
  match get_str object field with
  | None => false
  | Some text =>
      negb (bool_decide (text = "") || (maximum <? byte_len text) ||
            negb (forallb component_byte (as_bytes text)))
  end.

Definition SECRET_MEMBERS : list string := ["d"; "k"; "p"; "q"; "dp"; "dq"; "qi"; "oth"; "priv"].

Definition bad_text_field (object : Object) (field : string) : bool :=
  match object_get object field with
  | None => false
  | Some v =>
      negb (is_string v) ||
      match as_str v with Some text => MAX_TEXT_BYTES <? byte_len text | None => false end
  end.

(** The [use] and [key_ops] restrictions: [true] means the key is not for
    signature verification. *)
Definition bad_use (object : Object) : bool :=
  match object_get object "use" with
  | None => false
  | Some v => negb (bool_decide (as_str v = Some "sig"))
  end.
Definition bad_key_ops (object : Object) : bool :=
  match object_get object "key_ops" with
  | None => false
  | Some operations =>
      match as_array operations with
      | None => true
      | Some l =>
          bool_decide (length l = 0) || negb (forallb is_string l) ||
          negb (existsb (fun v => bool_decide (as_str v = Some "verify")) l)
      end
  end.

(** The public components each key type requires. *)
Definition good_components (kty : string) (object : Object) : bool :=
  if bool_decide (kty = "RSA") then
    bounded_component object "n" MAX_PUBLIC_COMPONENT_BYTES &&
    bounded_component object "e" MAX_RSA_EXPONENT_BYTES
  else if bool_decide (kty = "EC") then
    bounded_component object "x" MAX_PUBLIC_COMPONENT_BYTES &&
    bounded_component object "y" MAX_PUBLIC_COMPONENT_BYTES &&
    bool_decide (is_Some (get_str object "crv"))
  else
    bounded_component object "x" MAX_PUBLIC_COMPONENT_BYTES &&
    bool_decide (is_Some (get_str object "crv")).

(** [classify_jwk]: [Err] is secret-bearing material. *)
Definition classify_jwk (object : Object) : result KeyApplicability unit :=
  if existsb (object_contains_key object) SECRET_MEMBERS then Err tt else
  match get_str object "kty" with
  | None => Ok Inapplicable
  | Some kty =>
      if bool_decide (kty = "oct") then Err tt else
      if negb (bool_decide (kty ∈ ["RSA"; "EC"; "OKP"])) then Ok Inapplicable else
      if existsb (bad_text_field object) ["kid"; "alg"; "use"; "kty"; "crv"] then Ok Inapplicable else
      if bad_use object then Ok Inapplicable else
      if bad_key_ops object then Ok Inapplicable else
      if good_components kty object then Ok Applicable else Ok Inapplicable
  end.

(** [compatible]. *)
Definition compatible (object : Object) (algorithm : JwtAlgorithm) : bool :=
  let kty := get_str object "kty" in
  let crv := get_str object "crv" in
  match algorithm with
  | RS256 | RS384 | RS512 | PS256 | PS384 | PS512 => bool_decide (kty = Some "RSA")
  | ES256 => bool_decide (kty = Some "EC") && bool_decide (crv = Some "P-256")
  | ES384 => bool_decide (kty = Some "EC") && bool_decide (crv = Some "P-384")
  | ES512 => bool_decide (kty = Some "EC") && bool_decide (crv = Some "P-521")
  | EdDSA =>
      bool_decide (kty = Some "OKP") &&
      (bool_decide (crv = Some "Ed25519") || bool_decide (crv = Some "Ed448"))
  end.

(** The key's declared algorithm, if any, is this one, and its type fits. *)
Definition usable_for (object : Object) (algorithm : JwtAlgorithm) : bool :=
  match get_str object "alg" with
  | None => true
  | Some declared => bool_decide (declared = alg_name algorithm)
  end && compatible object algorithm.

(** ** Key sets *)

Section Jwks.
Context `{Deps : AuthDeps} {W : Type} `{!AuthWorld W}.
Abbreviation M := (Eff (Tr W AuthCall)).

(** [without_kid_object.remove("kid")]. *)
Definition remove_kid (object : Object) : Object :=
  List.filter (fun p => negb (bool_decide (p.1 = "kid"))) object.

(** The inner loop over the allowed algorithms for one converted key. *)
Fixpoint key_candidates (context : SynchronizationContext) (object : Object) (jwk : Jwk)
    (allowed : list JwtAlgorithm) (acc : list Candidate)
  : M (result (list Candidate) AuthenticationError) :=
  match allowed with
  | [] => eret (Ok acc)
  | algorithm :: rest =>
      let! _ := check_context context in
      if negb (usable_for object algorithm) then
        let! _ := check_context context in
        key_candidates context object jwk rest acc
      else
      match verifier_from_jwk algorithm jwk with
      | None => key_candidates context object jwk rest acc
      | Some with_kid =>
          let! _ := check_context context in
          let! _ := check_context context in
          match json_to_vec (VObject (remove_kid object)) with
          | None => key_candidates context object jwk rest acc
          | Some without_kid_bytes =>
              match jwk_from_bytes without_kid_bytes with
              | None => key_candidates context object jwk rest acc
              | Some without_kid_jwk =>
                  let! _ := check_context context in
                  match verifier_from_jwk algorithm without_kid_jwk with
                  | None => key_candidates context object jwk rest acc
                  | Some without_kid =>
                      let! _ := check_context context in
                      key_candidates context object jwk rest
                        (acc ++ [mkCandidate (get_str object "kid") algorithm with_kid without_kid])
                  end
              end
          end
      end
  end.

(** The body of the loop over the keys. *)
Definition one_key (context : SynchronizationContext) (allowed : list JwtAlgorithm) (v : Value)
    (acc : list Candidate) : M (result (list Candidate) AuthenticationError) :=
  let! _ := check_context context in
  match as_object v with
  | None => eret (Ok acc)
  | Some object =>
      match classify_jwk object with
      | Err _ => eret (Err VerifierUnavailable)
      | Ok Inapplicable => eret (Ok acc)
      | Ok Applicable =>
          let! _ := check_context context in
          if negb (existsb (usable_for object) allowed) then eret (Ok acc) else
          match json_to_vec v with
          | None => eret (Ok acc)
          | Some jwk_bytes =>
              match jwk_from_bytes jwk_bytes with
              | None => eret (Ok acc)
              | Some jwk =>
                  let! _ := check_context context in
                  let! acc := key_candidates context object jwk allowed acc in
                  let! _ := check_context context in
                  eret (Ok acc)
              end
          end
      end
  end.

Fixpoint all_keys (context : SynchronizationContext) (allowed : list JwtAlgorithm) (keys : list Value)
    (acc : list Candidate) : M (result (list Candidate) AuthenticationError) :=
  match keys with
  | [] => eret (Ok acc)
  | v :: rest =>
      let! acc := one_key context allowed v acc in
      all_keys context allowed rest acc
  end.

(** [parse_jwks]. *)
Definition parse_jwks (document : bytes) (allowed : list JwtAlgorithm) (context : SynchronizationContext)
  : M (result (list Candidate) AuthenticationError) :=
  let! _ := check_context context in
  let! v := elift (ok_or (json_from_slice document) VerifierUnavailable) in
  let! _ := check_context context in
  let! keys := elift (ok_or (value_get v "keys" ≫= as_array) VerifierUnavailable) in
  if MAX_JWKS_KEYS <? length keys then eret (Err VerifierUnavailable) else
  all_keys context allowed keys [].
End Jwks.

(** ** Specification *)

Section Specification.
Context `{Deps : AuthDeps}.

(** Material a public source must never return. *)
Definition secret_bearing (object : Object) : Prop :=
  (exists member, member ∈ SECRET_MEMBERS /\ is_Some (object_get object member)) \/
  get_str object "kty" = Some "oct".

(** The candidate key [object] gives for one algorithm, if it gives one. *)
Definition candidate_for (object : Object) (jwk : Jwk) (algorithm : JwtAlgorithm) : option Candidate :=
  if usable_for object algorithm then
    match verifier_from_jwk algorithm jwk with
    | None => None
    | Some with_kid =>
        match json_to_vec (VObject (remove_kid object)) ≫= (fun b =>
                jwk_from_bytes b ≫= verifier_from_jwk algorithm) with
        | None => None
        | Some without_kid => Some (mkCandidate (get_str object "kid") algorithm with_kid without_kid)
        end
    end
  else None.

(** The candidates of one entry of the set: none unless the entry is an
    applicable public key that converts. *)
Definition entry_candidates (allowed : list JwtAlgorithm) (v : Value) : list Candidate :=
  match as_object v with
  | Some object =>
      match classify_jwk object with
      | Ok Applicable =>
          match json_to_vec v ≫= jwk_from_bytes with
          | Some jwk => omap (candidate_for object jwk) allowed
          | None => []
          end
      | _ => []
      end
  | None => []
  end.

Definition entry_secret (v : Value) : Prop :=
  exists object, as_object v = Some object /\ secret_bearing object.
End Specification.

Lemma classify_secret object :
  (exists u, classify_jwk object = Err u) <-> secret_bearing object.
Proof.
  unfold classify_jwk, secret_bearing.
  assert (existsb (object_contains_key object) SECRET_MEMBERS = true <->
    exists member, member ∈ SECRET_MEMBERS /\ is_Some (object_get object member)) as Hex.
  { rewrite existsb_exists. setoid_rewrite <- list_elem_of_In.
    unfold object_contains_key. by setoid_rewrite bool_decide_eq_true. }
  destruct (existsb _ SECRET_MEMBERS); [naive_solver|].
  assert (~ exists member, member ∈ SECRET_MEMBERS /\ is_Some (object_get object member)) as Hno
    by (rewrite <- Hex; done).
  destruct (get_str object "kty") as [kty|]; [|naive_solver].
  case_bool_decide as Hoct; [naive_solver|].
  split; [|naive_solver].
  intros [u Hu]. by repeat case_match.
Qed.

(** ** Facts *)

Section JwksFacts.
Context `{Deps : AuthDeps} {W : Type} `{!AuthWorld W}.
Abbreviation M := (Eff (Tr W AuthCall)).

Lemma key_candidates_checks context object jwk allowed acc :
  checks_only (key_candidates (W := W) context object jwk allowed acc)
    (Ok (acc ++ omap (candidate_for object jwk) allowed)).
Proof.
  revert acc. induction allowed as [|alg rest IH]; intros acc; csimpl.
  { rewrite app_nil_r. apply checks_ret. }
  apply checks_check. unfold candidate_for at 1.
  destruct (usable_for object alg); simpl; [|by apply checks_check].
  destruct (verifier_from_jwk alg jwk) as [wk|]; [|done].
  do 2 apply checks_check. destruct (json_to_vec _) as [b|]; simpl; [|done].
  destruct (jwk_from_bytes b) as [wj|]; simpl; [|done]. apply checks_check.
  destruct (verifier_from_jwk alg wj) as [wo|]; [|done]. apply checks_check.
  specialize (IH (acc ++ [mkCandidate (get_str object "kid") alg wk wo])).
  by rewrite <- app_assoc in IH.
Qed.

(** One entry: refused when secret-bearing, otherwise its candidates. *)
Definition entry_result (allowed : list JwtAlgorithm) (v : Value) : result (list Candidate) AuthenticationError :=
  match as_object v with
  | Some object => match classify_jwk object with Err _ => Err VerifierUnavailable | _ => Ok (entry_candidates allowed v) end
  | None => Ok []
  end.

Lemma unusable_entry object jwk allowed :
  existsb (usable_for object) allowed = false -> omap (candidate_for object jwk) allowed = [].
Proof.
  intros H. apply omap_nil_Forall, Forall_forall. intros alg Halg. unfold candidate_for.
  destruct (usable_for object alg) eqn:E; [|done]. apply not_true_iff_false in H. destruct H.
  apply existsb_exists. exists alg. split; [by apply list_elem_of_In|done].
Qed.

Lemma one_key_checks context allowed v acc :
  checks_only (one_key (W := W) context allowed v acc)
    (rbind (entry_result allowed v) (fun cs => Ok (acc ++ cs))).
Proof.
  unfold one_key, entry_result, entry_candidates. apply checks_check.
  destruct (as_object v) as [object|] eqn:Ev; simpl; [|rewrite app_nil_r; apply checks_ret].
  destruct (classify_jwk object) as [[]|[]]; simpl; [|rewrite app_nil_r; apply checks_ret|apply checks_ret].
  apply checks_check. destruct (existsb (usable_for object) allowed) eqn:E; simpl.
  - destruct (json_to_vec v) as [b|]; simpl; [|rewrite app_nil_r; apply checks_ret].
    destruct (jwk_from_bytes b) as [jwk|]; simpl; [|rewrite app_nil_r; apply checks_ret].
    apply checks_check.
    apply (checks_try _ _ (Ok (acc ++ omap (candidate_for object jwk) allowed)) (fun a => Ok a)).
    + apply key_candidates_checks.
    + intros a _. apply checks_check, checks_ret.
  - assert (match json_to_vec v ≫= jwk_from_bytes with
            | Some jwk => omap (candidate_for object jwk) allowed | None => [] end = []) as ->
      by (destruct (json_to_vec v ≫= jwk_from_bytes); [by apply unusable_entry|done]).
    rewrite app_nil_r. apply checks_ret.
Qed.

Fixpoint entries_result (allowed : list JwtAlgorithm) (keys : list Value) (acc : list Candidate)
  : result (list Candidate) AuthenticationError :=
  match keys with
  | [] => Ok acc
  | v :: rest => let? cs := entry_result allowed v in entries_result allowed rest (acc ++ cs)
  end.

Lemma all_keys_checks context allowed keys acc :
  checks_only (all_keys (W := W) context allowed keys acc) (entries_result allowed keys acc).
Proof.
  revert acc. induction keys as [|v rest IH]; intros acc; simpl; [apply checks_ret|].
  pose proof (checks_try _ (all_keys (W := W) context allowed rest) _ (entries_result allowed rest)
    (one_key_checks context allowed v acc) (fun a _ => IH a)) as H.
  by destruct (entry_result allowed v).
Qed.

Lemma entry_result_ok allowed v cs :
  entry_result allowed v = Ok cs <-> ~ entry_secret v /\ cs = entry_candidates allowed v.
Proof.
  unfold entry_result, entry_secret, entry_candidates. destruct (as_object v) as [object|].
  2:{ split; [intros [= <-]; naive_solver|naive_solver]. }
  pose proof (classify_secret object) as Hs. destruct (classify_jwk object) as [a|u].
  - assert (~ secret_bearing object) by (rewrite <- Hs; naive_solver).
    split; [intros [= <-]; naive_solver|naive_solver].
  - assert (secret_bearing object) by (rewrite <- Hs; eauto). split; [done|]. intros [Hn _].
    destruct Hn. eauto.
Qed.

Lemma entries_result_ok allowed keys acc cs :
  entries_result allowed keys acc = Ok cs <->
  Forall (fun v => ~ entry_secret v) keys /\ cs = acc ++ mjoin (entry_candidates allowed <$> keys).
Proof.
  revert acc. induction keys as [|v rest IH]; intros acc; csimpl.
  { rewrite app_nil_r. split; [intros [= <-]; split; [constructor|done]|naive_solver]. }
  rewrite Forall_cons. destruct (entry_result allowed v) as [c|e] eqn:E; simpl.
  - apply entry_result_ok in E as [Hns ->]. rewrite IH, app_assoc. naive_solver.
  - split; [done|]. intros [[Hns _] _].
    assert (entry_result allowed v = Ok (entry_candidates allowed v)) by (by apply entry_result_ok).
    congruence.
Qed.

Lemma entries_result_err allowed keys acc e :
  entries_result allowed keys acc = Err e -> e = VerifierUnavailable /\ Exists entry_secret keys.
Proof.
  revert acc. induction keys as [|v rest IH]; intros acc; simpl; [done|].
  destruct (entry_result allowed v) as [c|e'] eqn:E; simpl.
  - intros H%IH. naive_solver.
  - intros [= ->]. unfold entry_result in E. destruct (as_object v) as [object|] eqn:Ev; [|done].
    destruct (classify_jwk object) as [|u] eqn:Ec; [done|]. injection E as <-. split; [done|].
    constructor. exists object. split; [done|]. apply classify_secret. eauto.
Qed.

(** The result of a parse that is not cancelled. *)
Definition jwks_result (document : bytes) (allowed : list JwtAlgorithm)
  : result (list Candidate) AuthenticationError :=
  let? v := ok_or (json_from_slice document) VerifierUnavailable in
  let? keys := ok_or (value_get v "keys" ≫= as_array) VerifierUnavailable in
  if MAX_JWKS_KEYS <? length keys then Err VerifierUnavailable else entries_result allowed keys [].

Lemma parse_jwks_checks document allowed context :
  checks_only (parse_jwks (W := W) document allowed context) (jwks_result document allowed).
Proof.
  unfold parse_jwks. apply checks_check, checks_lift. intros v _.
  apply checks_check, checks_lift. intros keys _.
  destruct (MAX_JWKS_KEYS <? length keys); [apply checks_ret|apply all_keys_checks].
Qed.

Lemma jwks_result_err document allowed e :
  jwks_result document allowed = Err e -> e = VerifierUnavailable.
Proof.
  unfold jwks_result. destruct (json_from_slice document) as [v|]; simpl; [|by intros [= <-]].
  destruct (value_get v "keys" ≫= as_array) as [keys|]; simpl; [|by intros [= <-]].
  case_match; [by intros [= <-]|]. by intros [-> _]%entries_result_err.
Qed.

(** ** Properties *)

End JwksFacts.
