(* ===== verification/AuthClaims.v ===== *)
(** * [permissionsync-auth]: claims and scope

    Models [crates/permissionsync-auth/src/claims.rs] on IEEE binary64 dates,
    and the wall-clock source of [clock.rs]. *)
From Stdlib Require Import SpecFloat.
From S2P Require Import Prelude Core Json AuthBase.

(** ** Binary64 *)

Definition f64_of_Z (z : Z) : f64 := binary_normalize 53 1024 z 0 false.
Definition f64_add : f64 -> f64 -> f64 := SFadd 53 1024.
Definition f64_div : f64 -> f64 -> f64 := SFdiv 53 1024.

Definition is_finite (f : f64) : bool :=
  match f with S754_zero _ | S754_finite _ _ _ => true | _ => false end.

(** [Duration::as_secs_f64]. *)
Definition as_secs_f64 (d : Z) : f64 :=
  f64_add (f64_of_Z (d / NANOS_PER_SEC))
    (f64_div (f64_of_Z (d mod NANOS_PER_SEC)) (f64_of_Z NANOS_PER_SEC)).

(** [Value::as_f64]. *)
Definition as_f64 (v : Value) : option f64 :=
  match v with
  | VNumber (PosInt n) => Some (f64_of_Z (Z.of_N n))
  | VNumber (NegInt z) => Some (f64_of_Z z)
  | VNumber (Float f) => Some f
  | _ => None
  end.

(** [numeric_date]. *)
Definition MAX_SAFE : f64 := f64_of_Z 9007199254740991.
Definition numeric_date (v : option Value) : option f64 :=
  match v with
  | None => None
  | Some v =>
      match as_f64 v with
      | Some f => if is_finite f && SFleb (SFabs f) MAX_SAFE then Some f else None
      | None => None
      end
  end.

(** ** Claim shapes *)

Definition audience_matches (v : option Value) (expected : string) : bool :=
  match v with
  | Some (VString text) => bool_decide (text = expected)
  | Some (VArray values) =>
      negb (length values =? 0) && forallb is_string values &&
      existsb (fun v => bool_decide (as_str v = Some expected)) values
  | _ => false
  end.

Record ParsedAuthenticationClaims : Type := mkParsed {
  parsed_client_id : string;
  exp : f64;
  iat : f64;
  nbf : option f64;
}.

(** [parse_authentication_claim_shapes]. *)
Definition parse_authentication_claim_shapes `{Deps : AuthDeps} (claims : Object) (config : Config)
  : result ParsedAuthenticationClaims AuthenticationError :=
  if negb (bool_decide (get_str claims "iss" = Some (issuer config))) ||
     negb (audience_matches (object_get claims "aud") (audience config))
  then Err Rejected else
  let? exp := ok_or (numeric_date (object_get claims "exp")) Rejected in
  let? iat := ok_or (numeric_date (object_get claims "iat")) Rejected in
  let? client_id := ok_or (get_str claims "client_id") Rejected in
  let? nbf :=
    match object_get claims "nbf" with
    | None => Ok None
    | Some v => let? d := ok_or (numeric_date (Some v)) Rejected in Ok (Some d)
    end in
  Ok (mkParsed client_id exp iat nbf).

(** ** Scope *)

(** [str::split(' ')]. *)
Definition split_space (s : string) : list string := of_bytes <$> split_on " " (as_bytes s).

(** [valid_scope_token]. *)
Definition scope_byte (c : ascii) : bool :=
  byte_between 33 33 c || byte_between 35 91 c || byte_between 93 126 c.
Definition valid_scope_token (token : string) : bool :=
  negb (bool_decide (token = "")) && forallb scope_byte (as_bytes token).

(** [parse_scope_shape]. *)
Definition parse_scope_shape (v : option Value) : result (option (list string)) AuthenticationError :=
  match v with
  | None => Ok None
  | Some v =>
      let? scope := ok_or (as_str v) Rejected in
      if bool_decide (scope = "") then Ok None else
      if negb (forallb valid_scope_token (split_space scope)) then Err Rejected
      else Ok (Some (split_space scope))
  end.

Definition SCOPE_PREFIX : string := "permissionsync:".

(** [str::starts_with], and the text after the prefix. *)
Definition starts_with (prefix s : string) : bool :=
  bool_decide (take (byte_len prefix) (as_bytes s) = as_bytes prefix).
Definition after_prefix (prefix s : string) : string := of_bytes (drop (byte_len prefix) (as_bytes s)).

(** [select_target]. *)
Definition select_target (scope_tokens : option (list string)) : result TargetSelection AuthenticationError :=
  match scope_tokens with
  | None => Ok NoTarget
  | Some tokens =>
      match List.filter (starts_with SCOPE_PREFIX) tokens with
      | [] => Ok NoTarget
      | [scope] =>
          match logical_target_try_from (after_prefix SCOPE_PREFIX scope) with
          | Ok target => Ok (Selected target)
          | Err _ => Err Forbidden
          end
      | _ => Err Forbidden
      end
  end.

(** ** Validation *)

Section Validate.
Context `{Deps : AuthDeps} {W : Type} `{!AuthWorld W}.
Abbreviation M := (Eff (Tr W AuthCall)).

Definition read_wall_clock : M (option f64) := perform unix_seconds WallClock.

(** The temporal test: [true] rejects. *)
Definition temporally_invalid (parsed : ParsedAuthenticationClaims) (t allowed : f64) : bool :=
  SFleb (exp parsed) t || SFltb allowed (iat parsed) ||
  match nbf parsed with Some n => SFltb allowed n | None => false end.

(** [validate_claims]. *)
Definition validate_claims (payload : bytes) (config : Config) (context : SynchronizationContext)
  : M (result (string * TargetSelection) AuthenticationError) :=
  let! _ := check_context context in
  let! v := elift (ok_or (json_from_slice payload) Rejected) in
  let! claims := elift (ok_or (as_object v) Rejected) in
  let! parsed := elift (parse_authentication_claim_shapes claims config) in
  let! _ := check_context context in
  let* wall := read_wall_clock in
  let! t := elift (ok_or wall VerifierUnavailable) in
  let allowed := f64_add t (as_secs_f64 (clock_skew config)) in
  if temporally_invalid parsed t allowed then eret (Err Rejected) else
  let! _ := check_context context in
  let! tokens := elift (parse_scope_shape (object_get claims "scope")) in
  let! selection := elift (select_target tokens) in
  let! _ := check_context context in
  eret (Ok (parsed_client_id parsed, selection)).
End Validate.

(** ** Facts: scope tokens *)

(** The composed scope decision of [validate_claims]. *)
Definition scope_selection (v : option Value) : result TargetSelection AuthenticationError :=
  let? tokens := parse_scope_shape v in select_target tokens.

Lemma starts_with_split prefix s :
  starts_with prefix s = true <-> exists suffix, as_bytes s = as_bytes prefix ++ as_bytes suffix.
Proof.
  unfold starts_with. rewrite bool_decide_eq_true. split.
  - intros H. exists (after_prefix prefix s). unfold after_prefix. rewrite as_of_bytes, <- H at 1.
    by rewrite take_drop.
  - intros (suffix & ->). by apply take_app_length'.
Qed.

Lemma after_prefix_app prefix s suffix :
  as_bytes s = as_bytes prefix ++ as_bytes suffix -> after_prefix prefix s = suffix.
Proof.
  intros H. unfold after_prefix. rewrite H, drop_app_length' by done. apply of_as_bytes.
Qed.

Lemma valid_token_no_space token : valid_scope_token token = true -> " "%char ∉ as_bytes token.
Proof.
  unfold valid_scope_token. rewrite andb_true_iff. intros [_ H] Hin.
  apply forallb_Forall in H. rewrite Forall_forall in H. by specialize (H _ Hin).
Qed.

(** The tokens of a well-formed scope text. *)
Definition scope_tokens (s : string) (tokens : list string) : Prop :=
  tokens <> [] /\ Forall (fun t => valid_scope_token t = true) tokens /\
  as_bytes s = join_with " " (as_bytes <$> tokens).

Lemma scope_tokens_split s tokens :
  scope_tokens s tokens <->
  s <> "" /\ tokens = split_space s /\ forallb valid_scope_token (split_space s) = true.
Proof.
  unfold scope_tokens, split_space. split.
  - intros (Hne & Hall & Hs).
    assert (split_on " " (as_bytes s) = as_bytes <$> tokens) as Hsplit.
    { rewrite Hs. apply split_join; [by destruct tokens|]. rewrite Forall_fmap.
      eapply Forall_impl; [exact Hall|]. intros t. apply valid_token_no_space. }
    assert (of_bytes <$> (as_bytes <$> tokens) = tokens) as Hid.
    { rewrite <- list_fmap_compose. rewrite <- (list_fmap_id tokens) at 2.
      apply list_fmap_ext. intros ? t _. apply of_as_bytes. }
    rewrite Hsplit, Hid. split_and!; [|done|by apply forallb_Forall].
    intros ->. destruct tokens as [|t rest]; [done|]. simpl in Hs. symmetry in Hs.
    apply app_eq_nil in Hs as [Ht _]. inversion Hall as [|? ? Hv]; subst.
    unfold valid_scope_token in Hv. destruct t; [done|by simpl in Ht].
  - intros (Hne & -> & Hall). split_and!.
    + intros H%fmap_nil_inv. by apply split_on_nonempty in H.
    + by apply forallb_Forall.
    + rewrite <- list_fmap_compose.
      rewrite (list_fmap_ext _ id); [by rewrite list_fmap_id, join_split|].
      intros ? t _. apply as_of_bytes.
Qed.

(** ** Properties *)

(** C30: scope selects target [t] exactly when the claim is a non-empty
    sequence of RFC 6749 scope tokens separated by single spaces in which
    exactly one token starts with [permissionsync:] and the rest of that token
    is the text of [t], in the logical-target grammar. *)
Theorem scope_selects_exactly (v : option Value) (t : LogicalTarget) :
  scope_selection v = Ok (Selected t) <->
  exists s tokens l1 token l2,
    v = Some (VString s) /\ scope_tokens s tokens /\ tokens = l1 ++ token :: l2 /\
    Forall (fun u => starts_with SCOPE_PREFIX u = false) (l1 ++ l2) /\
    as_bytes token = as_bytes SCOPE_PREFIX ++ as_bytes (target_as_str t) /\
    target_grammar (as_bytes (target_as_str t)).
Proof.
  unfold scope_selection, parse_scope_shape. setoid_rewrite scope_tokens_split.
  setoid_rewrite Forall_app. split.
  - destruct v as [v|]; [|done]. destruct (as_str v) as [s|] eqn:Ev; [|done]. simpl.
    case_bool_decide as Hne; [done|].
    destruct (forallb valid_scope_token (split_space s)) eqn:Hall; [|done]. simpl.
    destruct (List.filter _ _) as [|token [|]] eqn:Hf; [done| |done].
    apply filter_single in Hf as (l1 & l2 & Htok & Hp & H1 & H2).
    apply starts_with_split in Hp as (suffix & Hsuf). rewrite (after_prefix_app _ _ _ Hsuf).
    destruct (logical_target_try_from suffix) as [t'|] eqn:Ht; [|done]. intros [= ->].
    apply target_accepted_grammar in Ht as [-> Hg].
    exists s, (split_space s), l1, token, l2. destruct v; simplify_eq/=. done.
  - intros (s & tokens & l1 & token & l2 & -> & (Hne & -> & Hall) & Htok & [H1 H2] & Hsuf & Hg). simpl.
    rewrite bool_decide_false by done. rewrite Hall. simpl.
    assert (List.filter (starts_with SCOPE_PREFIX) (split_space s) = [token]) as ->.
    { apply filter_single. exists l1, l2. split_and!; [done| |done|done].
      apply starts_with_split. eauto. }
    rewrite (after_prefix_app _ _ _ Hsuf), (target_grammar_accepted _ Hg). by destruct t.
Qed.

(** ** The required claims *)

(** A date: a finite binary64 number of magnitude at most 2^53 - 1. *)
Definition is_date (v : Value) (d : f64) : Prop :=
  match v with
  | VNumber (PosInt n) => d = f64_of_Z (Z.of_N n)
  | VNumber (NegInt z) => d = f64_of_Z z
  | VNumber (Float f) => d = f
  | _ => False
  end /\
  ((exists sign, d = S754_zero sign) \/ exists sign m e, d = S754_finite sign m e) /\
  SFleb (SFabs d) (f64_of_Z (2 ^ 53 - 1)) = true.

(** The claims name the configured issuer, address the configured audience, alone or
    in a list of texts, carry an expiry and an issue date and a client id, and a
    not-before date or none. *)
Record well_shaped `{Deps : AuthDeps} (config : Config) (claims : Object) (parsed : ParsedAuthenticationClaims)
  : Prop := mkWellShaped {
  claim_iss : object_get claims "iss" = Some (VString (issuer config));
  claim_aud : object_get claims "aud" = Some (VString (audience config)) \/
    exists names, object_get claims "aud" = Some (VArray (VString <$> names)) /\ audience config ∈ names;
  claim_exp : exists v, object_get claims "exp" = Some v /\ is_date v (exp parsed);
  claim_iat : exists v, object_get claims "iat" = Some v /\ is_date v (iat parsed);
  claim_client : object_get claims "client_id" = Some (VString (parsed_client_id parsed));
  claim_nbf : match nbf parsed with
    | None => object_get claims "nbf" = None
    | Some d => exists v, object_get claims "nbf" = Some v /\ is_date v d
    end;
}.

(** At wall time [t] the token has not expired, and it was neither issued nor becomes
    valid after [allowed], which is [t] and the tolerated skew. *)
Definition in_force (parsed : ParsedAuthenticationClaims) (t allowed : f64) : Prop :=
  SFleb (exp parsed) t = false /\ SFltb allowed (iat parsed) = false /\
  forall d, nbf parsed = Some d -> SFltb allowed d = false.

Lemma numeric_date_exact v d : numeric_date (Some v) = Some d <-> is_date v d.
Proof.
  unfold numeric_date, is_date.
  assert (forall f : f64, (if is_finite f && SFleb (SFabs f) MAX_SAFE then Some f else None) = Some d <->
    d = f /\ ((exists sign, d = S754_zero sign) \/ exists sign m e, d = S754_finite sign m e) /\
    SFleb (SFabs d) (f64_of_Z (2 ^ 53 - 1)) = true) as Hf.
  { intros f. change (f64_of_Z (2 ^ 53 - 1)) with MAX_SAFE. split.
    - destruct (is_finite f && _) eqn:E; [|done]. intros [= <-]. apply andb_true_iff in E as [Hfin Hle].
      split; [done|]. split; [|done]. destruct f; eauto; done.
    - intros (-> & Hfin & ->). by destruct Hfin as [(? & ->)|(? & ? & ? & ->)]. }
  destruct v as [| |[]| | |]; simpl; [naive_solver|naive_solver|apply Hf..|naive_solver|naive_solver|naive_solver].
Qed.

Lemma date_claim_exact (o : option Value) d :
  numeric_date o = Some d <-> exists v, o = Some v /\ is_date v d.
Proof.
  destruct o as [v|]; [|naive_solver]. rewrite numeric_date_exact. naive_solver.
Qed.

Lemma text_claim_exact (claims : Object) name text :
  get_str claims name = Some text <-> object_get claims name = Some (VString text).
Proof. unfold get_str. destruct (object_get claims name) as [[]|]; simpl; naive_solver. Qed.

Lemma strings_exact values : forallb is_string values = true <-> exists names, values = VString <$> names.
Proof.
  split.
  - induction values as [|v values IH]; simpl; [by exists []|]. intros [Hv Hvs]%andb_true_iff.
    destruct (IH Hvs) as (names & ->). destruct v as [| | |text| |]; try done. by exists (text :: names).
  - intros (names & ->). by induction names.
Qed.

Lemma audience_exact (o : option Value) expected : audience_matches o expected = true <->
  o = Some (VString expected) \/ exists names, o = Some (VArray (VString <$> names)) /\ expected ∈ names.
Proof.
  destruct o as [[| | |text|values|]|]; simpl; try naive_solver.
  - rewrite bool_decide_eq_true. naive_solver.
  - rewrite !andb_true_iff, strings_exact, existsb_exists. split.
    + intros [[_ (names & ->)] (v & Hv & He)]. right. exists names. split; [done|].
      apply list_elem_of_In, list_elem_of_fmap in Hv as (name & -> & Hin). apply bool_decide_eq_true in He.
      by injection He as ->.
    + intros [?|(names & [= ->] & Hin)]; [done|]. split.
      * split; [by destruct names; [apply not_elem_of_nil in Hin|]|eauto].
      * exists (VString expected). rewrite bool_decide_eq_true. split; [|done].
        by apply list_elem_of_In, list_elem_of_fmap_2.
Qed.

#[local] Arguments numeric_date : simpl never.

Lemma shapes_exact `{Deps : AuthDeps} config claims parsed :
  parse_authentication_claim_shapes claims config = Ok parsed <-> well_shaped config claims parsed.
Proof.
  unfold parse_authentication_claim_shapes. split.
  - case_bool_decide as Hi; simpl; [|done]. destruct (audience_matches _ _) eqn:Ha; simpl; [|done].
    destruct (numeric_date (object_get claims "exp")) as [e|] eqn:He; [|done].
    destruct (numeric_date (object_get claims "iat")) as [i|] eqn:Hii; [|done].
    destruct (get_str claims "client_id") as [c|] eqn:Hc; [|done]. cbn [ok_or rbind]. intros Hn.
    apply text_claim_exact in Hi, Hc. apply audience_exact in Ha. apply date_claim_exact in He, Hii.
    destruct (object_get claims "nbf") as [v|] eqn:Hv; [|by injection Hn as <-].
    destruct (numeric_date (Some v)) as [d|] eqn:Hd; [|done]. injection Hn as <-.
    constructor; try done. simpl. rewrite Hv. by apply date_claim_exact.
  - intros [Hi%text_claim_exact Ha%audience_exact He%date_claim_exact Hii%date_claim_exact Hc%text_claim_exact Hn].
    rewrite Hi, Ha, He, Hii, Hc, bool_decide_true by done. simpl. destruct parsed as [c e i [d|]]; simpl in *.
    + destruct Hn as (v & -> & Hv%numeric_date_exact). by rewrite Hv.
    + by rewrite Hn.
Qed.

Lemma in_force_exact parsed t allowed : temporally_invalid parsed t allowed = false <-> in_force parsed t allowed.
Proof.
  unfold temporally_invalid, in_force. rewrite !orb_false_iff. destruct (nbf parsed); naive_solver.
Qed.

(** ** Facts: validation *)

Section ValidateFacts.
Context `{Deps : AuthDeps} {W : Type} `{!AuthWorld W}.

(** The payload is an object whose authentication claims have the required shape. *)
Definition authentication_claims (payload : bytes) (config : Config) (claims : Object)
    (parsed : ParsedAuthenticationClaims) : Prop :=
  json_from_slice payload = Some (VObject claims) /\ well_shaped config claims parsed.

(** They are also valid at wall time [t]. *)
Definition authenticated_at (payload : bytes) (config : Config) (claims : Object)
    (parsed : ParsedAuthenticationClaims) (t : f64) : Prop :=
  authentication_claims payload config claims parsed /\
  in_force parsed t (f64_add t (as_secs_f64 (clock_skew config))).

(** What each result of a validation means, and the wall-clock reads made. *)
Definition validated (payload : bytes) (config : Config) (cs : list AuthCall)
    (r : result (string * TargetSelection) AuthenticationError) : Prop :=
  match r with
  | Ok (client, selection) => exists claims parsed t,
      cs = [WallClock (Some t)] /\ authenticated_at payload config claims parsed t /\
      client = parsed_client_id parsed /\
      scope_selection (object_get claims "scope") = Ok selection
  | Err Forbidden => exists claims parsed t,
      cs = [WallClock (Some t)] /\ authenticated_at payload config claims parsed t /\
      scope_selection (object_get claims "scope") = Err Forbidden
  | Err VerifierUnavailable => exists claims parsed,
      cs = [WallClock None] /\ authentication_claims payload config claims parsed
  | Err Rejected =>
      (cs = [] /\ ~ exists claims parsed, authentication_claims payload config claims parsed) \/
      (exists claims parsed t, cs = [WallClock (Some t)] /\
         authentication_claims payload config claims parsed /\
         (~ authenticated_at payload config claims parsed t \/
          scope_selection (object_get claims "scope") = Err Rejected))
  | Err Cancelled => cs = [] \/ exists wall, cs = [WallClock wall]
  end.

(** A context check that may cancel, inside a validation. *)
Lemma validated_check {C} context (k : unit -> Eff (Tr W C) (result (string * TargetSelection) AuthenticationError))
    (Q : list C -> result (string * TargetSelection) AuthenticationError -> Prop) pre :
  Q pre (Err Cancelled) ->
  emits (k tt) (fun l r => Q (pre ++ calls l) r) ->
  emits (etry (check_context context) k) (fun l r => Q (pre ++ calls l) r).
Proof.
  intros Hc Hk. eapply emits_try; [apply emits_auth_check_context| |].
  - intros l [] [Hl _]. eapply emits_conseq; [exact Hk|]. intros l2 r. by rewrite calls_app, Hl.
  - intros l e [Hl He]. by rewrite (He e eq_refl), Hl, app_nil_r.
Qed.

Lemma scope_selection_err e v : scope_selection v = Err e -> e = Rejected \/ e = Forbidden.
Proof. unfold scope_selection, parse_scope_shape, select_target, rbind, ok_or. repeat case_match; naive_solver. Qed.

(** After the wall clock was read. *)
Lemma validate_scope_emits payload config context claims parsed t :
  authentication_claims payload config claims parsed ->
  emits (W := W) (C := AuthCall)
    (if temporally_invalid parsed t (f64_add t (as_secs_f64 (clock_skew config)))
     then eret (Err Rejected) else
     let! _ := check_context context in
     let! tokens := elift (parse_scope_shape (object_get claims "scope")) in
     let! selection := elift (select_target tokens) in
     let! _ := check_context context in
     eret (Ok (parsed_client_id parsed, selection)))
    (fun l r => validated payload config ([WallClock (Some t)] ++ calls l) r).
Proof.
  intros Hc. destruct (temporally_invalid _ _ _) eqn:Htime.
  { apply emits_ret. right. exists claims, parsed, t. split_and!; [done|done|]. left.
    intros [_ H%in_force_exact]. congruence. }
  pose proof (proj1 (in_force_exact _ _ _) Htime) as Hforce.
  apply (validated_check _ _ (validated payload config) [WallClock (Some t)]); [right; eauto|].
  assert (forall e, scope_selection (object_get claims "scope") = Err e ->
    validated payload config [WallClock (Some t)] (Err e)) as Herr.
  { intros e He. destruct (scope_selection_err _ _ He) as [->| ->]; simpl.
    - right. exists claims, parsed, t. auto.
    - by exists claims, parsed, t. }
  unfold scope_selection in Herr. apply emits_lift.
  2:{ intros e He. apply Herr. by rewrite He. }
  intros tokens Htok. rewrite Htok in Herr. apply emits_lift; [|done].
  intros selection Hsel.
  apply (validated_check _ _ (validated payload config) [WallClock (Some t)]); [right; eauto|].
  apply emits_ret. exists claims, parsed, t. split_and!; [done..|].
  unfold scope_selection. by rewrite Htok.
Qed.

Lemma validate_claims_emits payload config context :
  emits (W := W) (validate_claims payload config context) (fun l r => validated payload config (calls l) r).
Proof.
  unfold validate_claims. apply (validated_check _ _ (validated payload config) []); [by left|].
  assert ((~ exists claims parsed, authentication_claims payload config claims parsed) ->
    validated payload config [] (Err Rejected)) as Hrej by (intros Hno; by left).
  unfold authentication_claims in Hrej.
  apply emits_lift; [|intros e He; destruct (json_from_slice payload); [done|];
    injection He as <-; apply Hrej; by intros (? & ? & ? & _)].
  intros v Hv%ok_or_ok_inv. rewrite Hv in Hrej.
  apply emits_lift; [|intros e He; destruct v; try done; injection He as <-; apply Hrej;
    by intros (? & ? & ? & _)].
  intros claims Hc%ok_or_ok_inv. destruct v as [| | | | |claims']; try done. injection Hc as ->. apply emits_lift.
  2:{ intros e He. assert (e = Rejected) as ->.
      { revert He. unfold parse_authentication_claim_shapes, rbind, ok_or. repeat case_match; naive_solver. }
      apply Hrej. intros (claims' & parsed & [= <-] & Hp%shapes_exact). congruence. }
  intros parsed Hp%shapes_exact.
  assert (authentication_claims payload config claims parsed) as Hcl by done.
  apply (validated_check _ _ (validated payload config) []); [by left|].
  eapply emits_bind; [apply emits_performed|]. intros l wall ->.
  apply emits_lift.
  - intros t Ht%ok_or_ok_inv. subst wall.
    eapply emits_conseq; [by apply (validate_scope_emits payload config context claims parsed t)|done].
  - intros e He. destruct wall; [done|]. injection He as <-. by exists claims, parsed.
Qed.

(** C29: a payload is accepted only when it is an object that names the configured
    issuer, addresses the configured audience, alone or in a list of texts, carries a
    client id, which is the one returned, and dates that are finite numbers of magnitude
    at most 2^53 - 1, when at the wall time read it has not expired and was not issued
    and does not begin later than the tolerated skew, and when its scope selects what is
    returned.  [Forbidden] is returned only for such a payload, whose scope selects
    nothing permitted; [VerifierUnavailable] only for claims of that shape when the wall
    clock gave no time; [Rejected] only when the shape, the dates or the scope's shape is
    not as required.  The wall clock is read at most once, and never for a payload whose
    claim shapes are invalid. *)
Theorem validate_claims_meaning (payload : bytes) (config : Config) (context : SynchronizationContext)
    (w : W) :
  let '(r, s) := validate_claims payload config context (mkTr w []) in
  validated payload config (calls (trace s)) r.
Proof.
  pose proof (emits_run _ _ w (validate_claims_emits payload config context)) as H.
  by destruct (validate_claims _ _ _ _).
Qed.
End ValidateFacts.
