(* ===== verification/AuthCache.v ===== *)
(** * [permissionsync-auth]: the authenticator

    Models [crates/permissionsync-auth/src/authenticator.rs]: the bounded trusted
    cache, its single refresh per attempt, and the verification decision made
    against one observed snapshot.  The cache and the refresh mutex live in the
    world: between two observations of one request, other requests may replace
    the cache in any way. *)
From Stdlib Require Import SpecFloat.
From S2P Require Import Prelude Core Json AuthBase AuthJwks AuthClaims.

(** ** Cache age *)

Inductive CacheClassification : Type := Fresh | Stale | ColdOrExpired.
Inductive TrustedVerifierState : Type := Usable | Unusable.

#[global] Instance CacheClassification_eq_dec : EqDecision CacheClassification.
Proof. solve_decision. Defined.

Definition trusted_state_of (c : CacheClassification) : TrustedVerifierState :=
  match c with Fresh | Stale => Usable | ColdOrExpired => Unusable end.

(** [within_stale]. *)
Definition within_stale (age : Z) (policy : VerificationCachePolicy) : bool :=
  match duration_checked_add (freshness policy) (stale_if_error policy) with
  | Some limit => (freshness policy <? age)%Z && (age <=? limit)%Z
  | None => false
  end.

Section Age.
Context `{Deps : AuthDeps}.

(** [Snapshot::age]. *)
Definition snapshot_age (s : Snapshot) (t : Z) : option Z := checked_duration_since t (acquired s).

(** The classification both [classify_cache] and [verify_current] make. *)
Definition classify_age (policy : VerificationCachePolicy) (s : Snapshot) (t : Z) : CacheClassification :=
  match snapshot_age s t with
  | Some age =>
      if (age <=? freshness policy)%Z then Fresh
      else if within_stale age policy then Stale else ColdOrExpired
  | None => ColdOrExpired
  end.
End Age.

(** ** Verification results *)

Inductive Verification : Type :=
| Valid (caller : AuthenticatedTechnicalCaller)
| VRejected | VForbidden | VUnavailable | NoCandidate | SignatureInvalid.

Inductive CacheVerification : Type :=
| CFresh (v : Verification) | CStale (v : Verification) | CColdOrExpired | CCancelled.

Abbreviation AuthResult := (result AuthenticatedTechnicalCaller AuthenticationError).

Definition verification_result (v : Verification) : AuthResult :=
  match v with
  | Valid caller => Ok caller
  | VForbidden => Err Forbidden
  | VUnavailable => Err VerifierUnavailable
  | VRejected | NoCandidate | SignatureInvalid => Err Rejected
  end.

Definition refreshed_verification_result (c : CacheVerification) : AuthResult :=
  match c with
  | CFresh v => verification_result v
  | CStale (Valid _ | VForbidden) => Err VerifierUnavailable
  | CStale v => verification_result v
  | CColdOrExpired => Err VerifierUnavailable
  | CCancelled => Err Cancelled
  end.

Definition stale_fallback_result (v : Verification) : AuthResult :=
  match v with NoCandidate => Err VerifierUnavailable | v => verification_result v end.

Definition stale_cache_fallback_result (c : CacheVerification) : AuthResult :=
  match c with
  | CFresh v => verification_result v
  | CStale v => stale_fallback_result v
  | CColdOrExpired => Err VerifierUnavailable
  | CCancelled => Err Cancelled
  end.

(** ** The authenticator *)

Section Authenticator.
Context `{Deps : AuthDeps} {W : Type} `{!AuthWorld W}.
Abbreviation M := (Eff (Tr W AuthCall)).

Definition read_tick : M Z := perform tick Tick.

(** [timeout_at(deadline, lock)] on the cache and on the refresh mutex. *)
Definition lock_read (context : SynchronizationContext) : M (option (option Snapshot)) :=
  perform (cache_read (deadline context)) CacheRead.
Definition lock_write (context : SynchronizationContext) : M (option (option Snapshot)) :=
  perform (cache_write (deadline context)) CacheWrite.
Definition store (s : Snapshot) : M unit :=
  perform (fun w => (tt, cache_store s w)) (fun _ => CacheStore s).
Definition lock_refresh (context : SynchronizationContext) : M bool :=
  perform (refresh_lock (deadline context)) RefreshLock.
(** [drop(guard)], explicit or at an early return. *)
Definition drop_guard : M unit := perform (fun w => (tt, refresh_unlock w)) (fun _ => RefreshUnlock).
Definition get (uri : Uri) (until : Z) : M MetadataAnswer :=
  perform (metadata_get uri until) (MetadataGet uri until).

(** A bounded acquisition: no answer is [Cancelled]. *)
Definition acquired_or_cancelled {A} (o : option A) : result A AuthenticationError := ok_or o Cancelled.

(** [classify_cache]. *)
Definition classify_cache (config : Config) (context : SynchronizationContext)
  : M (result (N * CacheClassification) AuthenticationError) :=
  let! _ := check_context context in
  let* guard := lock_read context in
  let! cache := elift (acquired_or_cancelled guard) in
  let! _ := check_context context in
  match cache with
  | None => eret (Ok (0%N, ColdOrExpired))
  | Some snapshot =>
      let* t := read_tick in
      eret (Ok (generation snapshot, classify_age (cache_policy config) snapshot t))
  end.

(** The selector of one candidate. *)
Inductive Selection : Type := Prohibited | NotSelected | UseVerifier (v : Verifier).

Definition select_verifier (header : Header) (preflight_algorithm : JwtAlgorithm) (c : Candidate)
  : Selection :=
  if bool_decide (is_Some (header_claim header "crit")) || bool_decide (is_Some (header_claim header "b64"))
  then Prohibited else
  if negb (bool_decide (candidate_algorithm c = preflight_algorithm)) ||
     negb (bool_decide (header_algorithm header = Some (alg_name preflight_algorithm)))
  then NotSelected else
  match header_key_id header with
  | Some k => if bool_decide (kid c = Some k) then UseVerifier (with_kid c) else NotSelected
  | None => UseVerifier (without_kid c)
  end.

(** [jws.deserialize_compact_with_selector]: the selection made and the verified
    payload, if any. *)
Definition deserialize_compact (token : string) (preflight_algorithm : JwtAlgorithm) (c : Candidate)
  : Selection * option bytes :=
  match compact_header token with
  | None => (NotSelected, None)
  | Some header =>
      match select_verifier header preflight_algorithm c with
      | UseVerifier v => (UseVerifier v, compact_verify token v)
      | s => (s, None)
      end
  end.

Definition is_selected (s : Selection) : bool := match s with UseVerifier _ => true | _ => false end.
Definition is_prohibited (s : Selection) : bool := match s with Prohibited => true | _ => false end.

(** The candidate loop of [verify_current]; [None] is cancellation. *)
Fixpoint verify_candidates (config : Config) (token : string) (preflight_algorithm : JwtAlgorithm)
    (context : SynchronizationContext) (cs : list Candidate) (selected_any prohibited_header : bool)
  : M (option Verification) :=
  match cs with
  | [] =>
      eret (Some (if prohibited_header then VRejected
                  else if selected_any then SignatureInvalid else NoCandidate))
  | candidate :: rest =>
      let* c1 := check_context context in
      if negb (is_ok c1) then eret None else
      let '(selection, output) := deserialize_compact token preflight_algorithm candidate in
      let* c2 := check_context context in
      if negb (is_ok c2) then eret None else
      match output with
      | Some payload =>
          let* claims := validate_claims payload config context in
          eret (match claims with
            | Ok (client, selection) => Some (Valid (mkCaller client (mkBearerToken token) selection))
            | Err Cancelled => None
            | Err VerifierUnavailable => Some VUnavailable
            | Err Forbidden => Some VForbidden
            | Err Rejected => Some VRejected
            end)
      | None =>
          verify_candidates config token preflight_algorithm context rest
            (selected_any || is_selected selection) (prohibited_header || is_prohibited selection)
      end
  end.

(** [verify_current]. *)
Definition verify_current (config : Config) (token : string) (preflight_algorithm : JwtAlgorithm)
    (context : SynchronizationContext) : M CacheVerification :=
  let* c1 := check_context context in
  if negb (is_ok c1) then eret CCancelled else
  let* guard := lock_read context in
  match guard with
  | None => eret CCancelled
  | Some cache =>
      let* c2 := check_context context in
      if negb (is_ok c2) then eret CCancelled else
      match cache with
      | None => eret CColdOrExpired
      | Some snapshot =>
          let* t := read_tick in
          match classify_age (cache_policy config) snapshot t with
          | ColdOrExpired => eret CColdOrExpired
          | classification =>
              let* v := verify_candidates config token preflight_algorithm context
                (candidates snapshot) false false in
              eret (match v with
                | None => CCancelled
                | Some v => match classification with Fresh => CFresh v | _ => CStale v end
                end)
          end
      end
  end.

(** ** Refresh *)

(** The frame loop of [read_document]. *)
Fixpoint read_frames (context : SynchronizationContext) (c : DeadlineCause) (l : list Frame)
    (document : bytes) : M (result bytes AuthenticationError) :=
  match l with
  | [] => eret (Ok document)
  | FrameTimeout :: _ => let* e := timeout_error c in eret (Err e)
  | FrameError :: _ => let! _ := check_context context in eret (Err VerifierUnavailable)
  | FrameOther :: rest => let! _ := check_context context in read_frames context c rest document
  | FrameData data :: rest =>
      let! _ := check_context context in
      let! new_len := elift (ok_or (checked_add (N.of_nat (length document)) (N.of_nat (length data)))
        VerifierUnavailable) in
      if (MAX_DOCUMENT_BYTES <? new_len)%N then eret (Err VerifierUnavailable) else
      read_frames context c rest (document ++ data)
  end.

(** [read_document]. *)
Definition read_document (response : MetadataResponse) (declared : option N)
    (context : SynchronizationContext) (d : EffectiveDeadline) : M (result bytes AuthenticationError) :=
  let declared := match declared with Some n => Some n | None => size_hint response end in
  if match declared with Some n => (MAX_DOCUMENT_BYTES <? n)%N | None => false end
  then eret (Err VerifierUnavailable) else
  let! document := read_frames context (cause d) (frames response) [] in
  let! _ := check_context context in
  eret (Ok document).

(** [get_document]. *)
Definition get_document (config : Config) (uri : Uri) (context : SynchronizationContext)
  : M (result bytes AuthenticationError) :=
  let! _ := check_context context in
  let! d := effective_deadline context (metadata_timeout config) in
  let* answer := get uri (instant d) in
  match answer with
  | AnswerTimeout => let* e := timeout_error (cause d) in eret (Err e)
  | AnswerError => let! _ := check_context context in eret (Err VerifierUnavailable)
  | AnswerResponse response =>
      let! _ := check_context context in
      if negb (response_status response =? 200)%N then eret (Err VerifierUnavailable) else
      let declared := content_length response ≫= parse_u64 in
      if match declared with Some n => (MAX_DOCUMENT_BYTES <? n)%N | None => false end
      then eret (Err VerifierUnavailable) else
      read_document response declared context d
  end.

(** [fetch_snapshot]: the key-set document of the configured source. *)
Definition fetch_jwks (config : Config) (context : SynchronizationContext)
  : M (result bytes AuthenticationError) :=
  match source config with
  | Direct uri => get_document config uri context
  | Discovery uri =>
      let! b := get_document config uri context in
      let! _ := check_context context in
      let! (document_issuer, jwks_uri) := elift (ok_or (discovery_from_slice b) VerifierUnavailable) in
      if negb (bool_decide (document_issuer = issuer config)) then eret (Err VerifierUnavailable) else
      let! uri := elift (ok_or (parse_metadata_uri jwks_uri) VerifierUnavailable) in
      get_document config uri context
  end.

Definition fetch_snapshot (config : Config) (context : SynchronizationContext)
  : M (result Snapshot AuthenticationError) :=
  let! jwks := fetch_jwks config context in
  let! _ := check_context context in
  let! cs := parse_jwks jwks (algorithms config) context in
  let! _ := check_context context in
  let* t := read_tick in
  eret (Ok (mkSnapshot cs t 0)).

(** [install_snapshot]: the snapshot it stores over [cache]. *)
Definition current_generation (cache : option Snapshot) : N :=
  match cache with Some current => generation current | None => 0%N end.
Definition next_snapshot (cache : option Snapshot) (snapshot : Snapshot) : Snapshot :=
  mkSnapshot (candidates snapshot) (acquired snapshot) (saturating_add (current_generation cache) 1).

Definition install_snapshot (context : SynchronizationContext) (snapshot : Snapshot)
  : M (result unit AuthenticationError) :=
  let! _ := check_context context in
  let* guard := lock_write context in
  let! cache := elift (acquired_or_cancelled guard) in
  let! _ := check_context context in
  let* _ := store (next_snapshot cache snapshot) in
  eret (Ok tt).

(** [newer_generation_is_currently_fresh]: its verdict on the content read at time [t]. *)
Definition newer_and_fresh (policy : VerificationCachePolicy) (cache : option Snapshot)
    (observed_generation : N) (t : Z) : bool :=
  match cache with
  | Some snapshot =>
      negb (generation snapshot =? observed_generation)%N &&
      match snapshot_age snapshot t with
      | Some age => (age <=? freshness policy)%Z
      | None => false
      end
  | None => false
  end.

Definition newer_generation_is_currently_fresh (config : Config) (context : SynchronizationContext)
    (observed_generation : N) : M (result bool AuthenticationError) :=
  let! _ := check_context context in
  let* guard := lock_read context in
  let! cache := elift (acquired_or_cancelled guard) in
  let! _ := check_context context in
  let* t := read_tick in
  eret (Ok (newer_and_fresh (cache_policy config) cache observed_generation t)).

(** [refresh]: what it does while it holds the refresh guard. *)
Definition refresh_guarded (config : Config) (context : SynchronizationContext) (observed_generation : N)
  : M (result unit AuthenticationError) :=
  let! _ := check_context context in
  let! fresh := newer_generation_is_currently_fresh config context observed_generation in
  if (fresh : bool) then eret (Ok tt) else
  let* fetched := fetch_snapshot config context in
  match fetched with
  | Ok snapshot => install_snapshot context snapshot
  | Err Cancelled => eret (Err Cancelled)
  | Err _ => eret (Err VerifierUnavailable)
  end.

Definition refresh (config : Config) (context : SynchronizationContext) (observed_generation : N)
  : M (result unit AuthenticationError) :=
  let! _ := check_context context in
  let* guard := lock_refresh context in
  let! _ := elift (if guard then Ok tt else Err Cancelled) in
  let* outcome := refresh_guarded config context observed_generation in
  let* _ := drop_guard in
  eret outcome.

(** [refresh_then_verify_fresh], [refresh_or_stale_fallback] and
    [refresh_after_proven_signature_invalid]. *)
Definition refresh_then_verify_fresh (config : Config) (token : string) (algorithm : JwtAlgorithm)
    (context : SynchronizationContext) (observed_generation : N) : M AuthResult :=
  let! _ := refresh config context observed_generation in
  let* v := verify_current config token algorithm context in
  eret (refreshed_verification_result v).

Definition refresh_or_stale_fallback (config : Config) (token : string) (algorithm : JwtAlgorithm)
    (context : SynchronizationContext) (observed_generation : N) : M AuthResult :=
  let* refreshed := refresh config context observed_generation in
  match refreshed with
  | Ok _ =>
      let* v := verify_current config token algorithm context in
      eret (refreshed_verification_result v)
  | Err Cancelled => eret (Err Cancelled)
  | Err _ =>
      let* v := verify_current config token algorithm context in
      eret (stale_cache_fallback_result v)
  end.

Definition refresh_after_proven_signature_invalid (config : Config) (token : string)
    (algorithm : JwtAlgorithm) (context : SynchronizationContext) (observed_generation : N)
  : M AuthResult :=
  let* refreshed := refresh config context observed_generation in
  match refreshed with
  | Ok _ =>
      let* v := verify_current config token algorithm context in
      eret (refreshed_verification_result v)
  | Err Cancelled => eret (Err Cancelled)
  | Err _ => eret (Err Rejected)
  end.

(** [authenticate]. *)
Definition authenticate (config : Config) (request : AuthenticationRequest) : M AuthResult :=
  let context := auth_context request in
  let! _ := check_context context in
  let! token := elift (ok_or (raw_compact_token request) Rejected) in
  if (MAX_TOKEN_BYTES <? N.of_nat (byte_len token))%N then eret (Err Rejected) else
  let! _ := check_context context in
  let! algorithm := elift (preflight_header token (algorithms config)) in
  let! _ := check_context context in
  let! (observed_generation, classification) := classify_cache config context in
  match classification with
  | Fresh =>
      let* v := verify_current config token algorithm context in
      match v with
      | CCancelled => eret (Err Cancelled)
      | CStale VRejected => eret (Err Rejected)
      | CStale VUnavailable => eret (Err VerifierUnavailable)
      | CStale SignatureInvalid =>
          refresh_after_proven_signature_invalid config token algorithm context observed_generation
      | CStale _ => refresh_or_stale_fallback config token algorithm context observed_generation
      | CColdOrExpired => refresh_then_verify_fresh config token algorithm context observed_generation
      | CFresh (Valid caller) => eret (Ok caller)
      | CFresh VRejected => eret (Err Rejected)
      | CFresh VForbidden => eret (Err Forbidden)
      | CFresh VUnavailable => eret (Err VerifierUnavailable)
      | CFresh NoCandidate =>
          refresh_then_verify_fresh config token algorithm context observed_generation
      | CFresh SignatureInvalid =>
          refresh_after_proven_signature_invalid config token algorithm context observed_generation
      end
  | Stale => refresh_or_stale_fallback config token algorithm context observed_generation
  | ColdOrExpired => refresh_then_verify_fresh config token algorithm context observed_generation
  end.

(** [trusted_verifier_state] and [ensure_trusted_verifier_state]. *)
Definition trusted_verifier_state (config : Config) (context : SynchronizationContext)
  : M TrustedVerifierState :=
  let* r := classify_cache config context in
  eret (match r with Ok (_, c) => trusted_state_of c | Err _ => Unusable end).

Definition ensure_trusted_verifier_state (config : Config) (context : SynchronizationContext)
  : M TrustedVerifierState :=
  let* r := classify_cache config context in
  match r with
  | Err _ => eret Unusable
  | Ok (observed_generation, c) =>
      match trusted_state_of c with
      | Usable => eret Usable
      | Unusable =>
          let* refreshed := refresh config context observed_generation in
          if negb (is_ok refreshed) then eret Unusable else trusted_verifier_state config context
      end
  end.
End Authenticator.

(** ** Specification *)

Section Specification.
Context `{Deps : AuthDeps}.

Definition count (p : AuthCall -> bool) (cs : list AuthCall) : nat := length (List.filter p cs).
Definition is_lock (c : AuthCall) : bool := match c with RefreshLock _ => true | _ => false end.
Definition is_get (c : AuthCall) : bool := match c with MetadataGet _ _ _ => true | _ => false end.
Definition is_store (c : AuthCall) : bool := match c with CacheStore _ => true | _ => false end.

(** At most so many refresh consultations, metadata requests and installations. *)
Definition spends (locks gets stores : nat) (cs : list AuthCall) : Prop :=
  count is_lock cs <= locks /\ count is_get cs <= gets /\ count is_store cs <= stores.

(** The token's signature verifies under the verifier candidate [c] offers for it. *)
Definition verified_by (token : string) (algorithm : JwtAlgorithm) (c : Candidate) (payload : bytes) : Prop :=
  exists header v, compact_header token = Some header /\
    select_verifier header algorithm c = UseVerifier v /\ compact_verify token v = Some payload.

(** One linearized decision that accepts: one read of the cache, one reading of
    its age, a candidate of that very snapshot verifies the token, and the claims
    are valid at the wall time read. *)
Definition accepted (config : Config) (token : string) (algorithm : JwtAlgorithm)
    (classification : CacheClassification) (caller : AuthenticatedTechnicalCaller)
    (cs : list AuthCall) : Prop :=
  exists snapshot t u candidate payload claims parsed,
    cs = [CacheRead (Some (Some snapshot)); Tick t; WallClock (Some u)] /\
    classify_age (cache_policy config) snapshot t = classification /\
    candidate ∈ candidates snapshot /\ verified_by token algorithm candidate payload /\
    authenticated_at payload config claims parsed u /\
    scope_selection (object_get claims "scope") = Ok (target_selection caller) /\
    client_id caller = parsed_client_id parsed /\
    caller_bearer_token caller = mkBearerToken token.
End Specification.

(** ** Facts *)

Section CacheFacts.
Context `{Deps : AuthDeps} {W : Type} `{!AuthWorld W}.
Abbreviation M := (Eff (Tr W AuthCall)).

Lemma count_app p (cs1 cs2 : list AuthCall) : count p (cs1 ++ cs2) = count p cs1 + count p cs2.
Proof. unfold count. by rewrite List.filter_app, length_app. Qed.

Lemma spends_app a b c a' b' c' (cs1 cs2 : list AuthCall) :
  spends a b c cs1 -> spends a' b' c' cs2 -> spends (a + a') (b + b') (c + c') (cs1 ++ cs2).
Proof. unfold spends. rewrite !count_app. lia. Qed.

Lemma spends_weaken a b c a' b' c' (cs : list AuthCall) :
  spends a b c cs -> a <= a' -> b <= b' -> c <= c' -> spends a' b' c' cs.
Proof. unfold spends. lia. Qed.

Lemma spends_nil a b c : spends a b c [].
Proof. unfold spends, count. simpl. lia. Qed.

(** A context check in front of anything. *)
Lemma emits_check {A} context (k : result unit AuthenticationError -> M A) Q :
  (forall r, (r = Ok tt \/ r = Err Cancelled) -> emits (k r) (fun l a => Q (calls l) a)) ->
  emits (ebind (check_context context) k) (fun l a => Q (calls l) a).
Proof.
  intros Hk. eapply emits_bind; [apply emits_auth_check_context|]. intros l r [Hl He].
  eapply emits_conseq.
  - apply Hk. destruct r as [[]|e]; [by left|right]. by rewrite (He e eq_refl).
  - intros l2 a. by rewrite calls_app, Hl.
Qed.

Lemma emits_check_try {A} context (k : unit -> M (result A AuthenticationError)) Q :
  Q [] (Err Cancelled) -> emits (k tt) (fun l a => Q (calls l) a) ->
  emits (etry (check_context context) k) (fun l a => Q (calls l) a).
Proof.
  intros HQ Hk. apply emits_check. intros r [->| ->]; [done|]. by apply emits_ret.
Qed.

(** One recorded observation in front of anything. *)
Lemma emits_call {A B} (f : W -> A * W) (record : A -> AuthCall) (k : A -> M B) Q :
  (forall a, emits (k a) (fun l b => Q (record a :: calls l) b)) ->
  emits (ebind (perform f record) k) (fun l b => Q (calls l) b).
Proof.
  intros Hk. eapply emits_bind; [apply emits_performed|]. intros l a ->. apply Hk.
Qed.

Lemma emits_lift_try {A B} (r : result A AuthenticationError) (k : A -> M (result B AuthenticationError)) Q :
  (forall a, r = Ok a -> emits (k a) (fun l b => Q (calls l) b)) ->
  (forall e, r = Err e -> Q [] (Err e)) ->
  emits (etry (elift r) k) (fun l b => Q (calls l) b).
Proof. intros Hok Herr. apply emits_lift; [done|]. intros e He. by apply Herr. Qed.

Lemma validate_spends payload config cs r : validated payload config cs r -> spends 0 0 0 cs.
Proof.
  assert (cs = [] \/ (exists o, cs = [WallClock o]) -> spends 0 0 0 cs) as Hs.
  { intros [->|(o & ->)]; by unfold spends, count. }
  destruct r as [[client sel]|[]]; simpl; intros H; apply Hs; naive_solver.
Qed.

Lemma deserialize_verified token alg c payload selection :
  deserialize_compact token alg c = (selection, Some payload) -> verified_by token alg c payload.
Proof.
  unfold deserialize_compact. destruct (compact_header token) as [header|] eqn:Hh; [|done].
  destruct (select_verifier header alg c) as [| |v] eqn:Hs; [done..|]. intros [= <- Hv].
  by exists header, v.
Qed.

(** What the candidate loop establishes. *)
Definition loop_decision (config : Config) (token : string) (alg : JwtAlgorithm)
    (cs0 : list Candidate) (cs : list AuthCall) (o : option Verification) : Prop :=
  spends 0 0 0 cs /\ forall caller, o = Some (Valid caller) ->
    exists u candidate payload claims parsed,
      cs = [WallClock (Some u)] /\ candidate ∈ cs0 /\ verified_by token alg candidate payload /\
      authenticated_at payload config claims parsed u /\
      scope_selection (object_get claims "scope") = Ok (target_selection caller) /\
      client_id caller = parsed_client_id parsed /\
      caller_bearer_token caller = mkBearerToken token.

Lemma verify_candidates_emits config token alg context cs0 selected prohibited :
  emits (verify_candidates (W := W) config token alg context cs0 selected prohibited)
    (fun l o => loop_decision config token alg cs0 (calls l) o).
Proof.
  revert selected prohibited. induction cs0 as [|c cs0 IH]; intros selected prohibited; simpl.
  { apply emits_ret. split; [apply spends_nil|]. intros caller Hc. by destruct prohibited, selected. }
  apply emits_check. intros r [->| ->]; simpl; [|by apply emits_ret; split; [apply spends_nil|]].
  destruct (deserialize_compact token alg c) as [selection output] eqn:Hd.
  apply emits_check. intros r [->| ->]; simpl; [|by apply emits_ret; split; [apply spends_nil|]].
  destruct output as [payload|].
  - eapply emits_bind; [apply validate_claims_emits|]. intros l r Hr. apply emits_ret.
    rewrite app_nil_r. split; [exact (validate_spends _ _ _ _ Hr)|].
    intros caller Hc. destruct r as [[client sel]|[]]; try done. injection Hc as <-.
    destruct Hr as (claims & parsed & u & -> & Hat & -> & Hsel).
    apply deserialize_verified in Hd. exists u, c, payload, claims, parsed.
    split_and!; try done. set_solver.
  - eapply emits_conseq; [apply IH|]. intros l o [Hs Ho]. split; [done|].
    intros caller Hc. destruct (Ho caller Hc) as (u & cand & p & cl & pa & ? & ? & ?).
    exists u, cand, p, cl, pa. split_and!; [done|set_solver|naive_solver..].
Qed.

(** What one decision of [verify_current] establishes. *)
Definition decision (config : Config) (token : string) (alg : JwtAlgorithm) (cs : list AuthCall)
    (c : CacheVerification) : Prop :=
  spends 0 0 0 cs /\
  (forall caller, c = CFresh (Valid caller) -> accepted config token alg Fresh caller cs) /\
  (forall caller, c = CStale (Valid caller) -> accepted config token alg Stale caller cs).

Lemma verify_current_emits config token alg context :
  emits (verify_current (W := W) config token alg context) (fun l c => decision config token alg (calls l) c).
Proof.
  assert (forall cs c, spends 0 0 0 cs -> c = CCancelled \/ c = CColdOrExpired ->
    decision config token alg cs c) as Hstop by (intros cs c ? [->| ->]; by split_and!).
  unfold verify_current. apply emits_check. intros r [->| ->]; simpl;
    [|apply emits_ret; apply Hstop; [apply spends_nil|auto]].
  apply (emits_call _ _ _ (decision config token alg)). intros [cache|];
    [|apply emits_ret; apply Hstop; [by unfold spends, count|auto]].
  apply (emits_check _ _ (fun cs c => decision config token alg (CacheRead (Some cache) :: cs) c)).
  intros r [->| ->]; simpl; [|apply emits_ret; apply Hstop; [by unfold spends, count|auto]].
  destruct cache as [snapshot|]; [|apply emits_ret; apply Hstop; [by unfold spends, count|auto]].
  apply (emits_call _ _ _ (fun cs c => decision config token alg (CacheRead (Some (Some snapshot)) :: cs) c)).
  intros t. destruct (classify_age (cache_policy config) snapshot t) eqn:Hage;
    [| |apply emits_ret; apply Hstop; [by unfold spends, count|auto]].
  all: eapply emits_bind; [apply verify_candidates_emits|]; intros l o [Hs Ho]; apply emits_ret;
    rewrite app_nil_r; split; [exact Hs|];
    split; intros caller Hc; destruct o as [v|]; simplify_eq;
    destruct (Ho caller eq_refl) as (u & cand & p & cl & pa & Hl & ?);
    exists snapshot, t, u, cand, p, cl, pa; rewrite Hl; naive_solver.
Qed.

(** *** Metadata *)

Lemma effective_deadline_emits context timeout :
  emits (W := W) (C := AuthCall) (effective_deadline context timeout)
    (fun l r => calls l = [] /\ forall e, r = Err e -> e = Cancelled).
Proof.
  unfold effective_deadline.
  apply (emits_check_try _ _ (fun cs r => cs = [] /\ forall e, r = Err e -> e = Cancelled)).
  { split; [done|]. by intros e [= <-]. }
  eapply emits_bind; [by apply (emits_now (fun l t => l = [ENow t]))|]. intros l t ->.
  destruct (_ <=? _)%Z; by apply emits_ret.
Qed.

Definition infrastructure (e : AuthenticationError) : Prop := e = Cancelled \/ e = VerifierUnavailable.

Lemma timeout_error_emits c :
  emits (W := W) (C := AuthCall) (timeout_error c) (fun l e => calls l = [] /\ infrastructure e).
Proof.
  unfold timeout_error. eapply emits_bind;
    [by apply (emits_cancelled (fun l b => l = [ECancelled b]))|].
  intros l [] ->; apply emits_ret; (split; [done|]); unfold infrastructure; destruct c; auto.
Qed.

Definition frame_data (f : Frame) : bytes := match f with FrameData b => b | _ => [] end.

(** Every collected document is bounded and is the data of the frames, in order. *)
Definition collected (l : list Frame) (document : bytes) (r : result bytes AuthenticationError) : Prop :=
  match r with
  | Ok d => d = document ++ mjoin (frame_data <$> l) /\ (N.of_nat (length d) <= MAX_DOCUMENT_BYTES)%N
  | Err e => infrastructure e
  end.

Definition frames_read (l : list Frame) (document : bytes) (cs : list AuthCall)
    (r : result bytes AuthenticationError) : Prop := cs = [] /\ collected l document r.

Lemma read_frames_emits context c l document :
  (N.of_nat (length document) <= MAX_DOCUMENT_BYTES)%N ->
  emits (read_frames (W := W) context c l document)
    (fun tr r => frames_read l document (calls tr) r).
Proof.
  revert document. induction l as [|f l IH]; intros document Hd.
  { apply emits_ret. split; [done|]. simpl. by rewrite app_nil_r. }
  assert (infrastructure Cancelled /\ infrastructure VerifierUnavailable) as [HC HV]
    by (unfold infrastructure; auto).
  assert (forall e, infrastructure e -> frames_read (f :: l) document [] (Err e)) as Herr by done.
  destruct f as [data| | |]; simpl.
  - apply (emits_check_try _ _ (frames_read _ document)); [by apply Herr|].
    apply (emits_lift_try _ _ (frames_read _ document)).
    2:{ intros e He. destruct (checked_add _ _); [done|]. injection He as <-. by apply Herr. }
    intros n Hn%ok_or_ok_inv. unfold checked_add in Hn. case_match; [|done]. injection Hn as <-.
    destruct (N.ltb_spec MAX_DOCUMENT_BYTES (N.of_nat (length document) + N.of_nat (length data))) as [Hlt|Hle];
      [apply emits_ret; by apply Herr|].
    eapply emits_conseq; [apply IH; rewrite length_app; lia|]. intros tr r [Hc Hr]. split; [done|].
    destruct r; [|done]. simpl in Hr |- *. by rewrite <- app_assoc in Hr.
  - apply (emits_check_try _ _ (frames_read _ document)); [by apply Herr|].
    eapply emits_conseq; [by apply IH|]. done.
  - apply (emits_check_try _ _ (frames_read _ document)); [by apply Herr|].
    apply emits_ret. by apply Herr.
  - eapply emits_bind; [apply timeout_error_emits|]. intros tr e [Hc He]. apply emits_ret.
    rewrite app_nil_r, Hc. by apply Herr.
Qed.

(** One bounded retrieval. *)
Definition retrieved (uri : Uri) (cs : list AuthCall) (r : result bytes AuthenticationError) : Prop :=
  spends 0 1 0 cs /\
  match r with
  | Ok d => (N.of_nat (length d) <= MAX_DOCUMENT_BYTES)%N /\ exists until response,
      cs = [MetadataGet uri until (AnswerResponse response)] /\
      response_status response = 200%N /\ d = mjoin (frame_data <$> frames response)
  | Err e => e = Cancelled \/ (e = VerifierUnavailable /\ count is_get cs = 1)
  end.

Lemma get_document_emits config uri context :
  emits (get_document (W := W) config uri context) (fun l r => retrieved uri (calls l) r).
Proof.
  assert (forall cs, spends 0 1 0 cs -> retrieved uri cs (Err Cancelled)) as HC by (by split; [|left]).
  unfold get_document. apply emits_check_try; [apply HC, spends_nil|].
  eapply emits_try; [apply effective_deadline_emits| |].
  2:{ intros l e [Hl He]. rewrite (He e eq_refl), Hl. apply HC, spends_nil. }
  intros l d [Hl _]. eapply emits_conseq with (Q := fun l2 r => retrieved uri (calls l2) r);
    [|intros l2 r; by rewrite calls_app, Hl].
  apply emits_call. intros answer. set (c := MetadataGet uri (instant d) answer).
  assert (spends 0 1 0 [c] /\ count is_get [c] = 1) as [Hsp Hg] by (by unfold spends, count).
  assert (forall e, infrastructure e -> retrieved uri [c] (Err e)) as Hinf.
  { intros e [->| ->]; [by apply HC|]. split; [done|]. by right. }
  assert (infrastructure VerifierUnavailable) as HV by (by right).
  destruct answer as [| |response].
  - eapply emits_bind; [apply timeout_error_emits|]. intros tr e [Hc He]. apply emits_ret.
    rewrite app_nil_r, Hc. by apply Hinf.
  - apply (emits_check_try _ _ (fun cs r => retrieved uri (c :: cs) r)); [by apply HC|].
    apply emits_ret. by apply Hinf.
  - apply (emits_check_try _ _ (fun cs r => retrieved uri (c :: cs) r)); [by apply HC|].
    destruct (N.eqb_spec (response_status response) 200) as [Hst|Hst]; simpl;
      [|apply emits_ret; by apply Hinf].
    destruct (match content_length response ≫= parse_u64 with Some n => _ | None => _ end);
      [apply emits_ret; by apply Hinf|].
    unfold read_document.
    destruct (match (match content_length response ≫= parse_u64 with Some n => Some n | None => size_hint response end)
      with Some n => _ | None => _ end); [apply emits_ret; by apply Hinf|].
    eapply emits_try; [apply read_frames_emits; simpl; lia| |].
    + intros tr doc [Hc [Hd Hlen]]. simpl in Hd.
      eapply emits_conseq with (Q := fun l2 r => retrieved uri (c :: calls l2) r);
        [|intros l2 r; by rewrite calls_app, Hc].
      apply (emits_check_try _ _ (fun cs r => retrieved uri (c :: cs) r)); [by apply HC|].
      apply emits_ret. split; [done|]. split; [done|]. by exists (instant d), response.
    + intros tr e [Hc He]. rewrite Hc. by apply Hinf.
Qed.

(** At most two retrievals. *)
Definition fetched {A} (cs : list AuthCall) (r : result A AuthenticationError) : Prop :=
  spends 0 2 0 cs /\
  forall e, r = Err e -> e = Cancelled \/ (e = VerifierUnavailable /\ 1 <= count is_get cs).

Lemma retrieved_fetched uri cs r : retrieved uri cs r -> fetched cs r.
Proof.
  intros [Hs Hr]. split; [by eapply spends_weaken; [exact Hs|lia..]|]. intros e ->.
  destruct Hr as [?|[? Hg]]; [by left|right]. split; [done|lia].
Qed.

Lemma retrieved_get uri cs d : retrieved uri cs (Ok d) -> spends 0 1 0 cs /\ count is_get cs = 1.
Proof. intros (Hs & _ & until & response & -> & _). by unfold count. Qed.

(** The key-set document was retrieved, or the retrieval failed. *)
Definition jwks_fetched (cs : list AuthCall) (r : result bytes AuthenticationError) : Prop :=
  fetched cs r /\ (is_ok r = true -> 1 <= count is_get cs).

Lemma retrieved_then pre cs r :
  spends 0 1 0 pre -> count is_get pre = 1 -> spends 0 1 0 cs ->
  (forall e, r = Err e -> infrastructure e) -> jwks_fetched (pre ++ cs) r.
Proof.
  intros Hs1 Hg1 Hs Hr. split; [split|].
  - eapply spends_weaken; [exact (spends_app _ _ _ _ _ _ _ _ Hs1 Hs)|lia..].
  - intros e He. rewrite count_app. destruct (Hr e He) as [->| ->]; [by left|right]. split; [done|lia].
  - rewrite count_app. lia.
Qed.

Lemma fetch_jwks_emits config context :
  emits (fetch_jwks (W := W) config context) (fun l r => jwks_fetched (calls l) r).
Proof.
  unfold fetch_jwks. destruct (source config) as [uri|uri].
  { eapply emits_conseq; [apply get_document_emits|]. intros l r Hr.
    split; [by apply (retrieved_fetched uri)|]. destruct r; [|done]. intros _.
    apply retrieved_get in Hr as [_ ->]. done. }
  eapply emits_try; [apply get_document_emits| |].
  2:{ intros l e Hr. split; [by apply (retrieved_fetched uri)|done]. }
  intros l b Hb. apply retrieved_get in Hb as [Hs1 Hg1].
  set (Q := fun cs r => jwks_fetched (calls l ++ cs) r).
  assert (forall e, infrastructure e -> Q [] (Err e)) as Herr.
  { intros e He. apply retrieved_then; [done..|apply spends_nil|]. by intros e' [= <-]. }
  eapply emits_conseq with (Q := fun l2 r => Q (calls l2) r);
    [|intros l2 r; unfold Q; by rewrite calls_app].
  apply (emits_check_try _ _ Q); [apply Herr; by left|]. apply (emits_lift_try _ _ Q).
  2:{ intros e He. destruct (discovery_from_slice b); [done|]. injection He as <-.
      apply Herr. by right. }
  intros [iss uri'] _. case_bool_decide; simpl; [|apply emits_ret, Herr; by right].
  apply (emits_lift_try _ _ Q).
  2:{ intros e He. destruct (parse_metadata_uri uri'); [done|]. injection He as <-.
      apply Herr. by right. }
  intros uri'' _. eapply emits_conseq; [apply get_document_emits|]. intros l2 r [Hs Hr].
  apply retrieved_then; [done..|]. intros e ->. destruct Hr as [?|[? _]]; [by left|by right].
Qed.

Lemma parse_jwks_emits document allowed context :
  emits (parse_jwks (W := W) document allowed context)
    (fun l r => calls l = [] /\ forall e, r = Err e -> infrastructure e).
Proof.
  eapply emits_conseq; [apply parse_jwks_checks|]. intros l r [Hl [->| ->]]; (split; [done|]).
  - intros e ->%jwks_result_err. by right.
  - intros e [= <-]. by left.
Qed.

Lemma fetch_snapshot_emits config context :
  emits (fetch_snapshot (W := W) config context) (fun l r => fetched (calls l) r).
Proof.
  unfold fetch_snapshot. eapply emits_try; [apply fetch_jwks_emits| |].
  2:{ intros l e [[Hs He] _]. split; [done|]. intros e' [= <-]. by apply He. }
  intros l jwks [[Hs _] Hg]. specialize (Hg eq_refl).
  set (Q := fun cs (r : result Snapshot AuthenticationError) => fetched (calls l ++ cs) r).
  assert (forall cs (r : result Snapshot AuthenticationError), spends 0 0 0 cs ->
    (forall e, r = Err e -> infrastructure e) -> Q cs r) as HQ.
  { intros cs r Hcs Hr. split.
    - eapply spends_weaken; [exact (spends_app _ _ _ _ _ _ _ _ Hs Hcs)|lia..].
    - intros e He. rewrite count_app. destruct (Hr e He) as [->| ->]; [by left|right]. split; [done|lia]. }
  eapply emits_conseq with (Q := fun l2 r => Q (calls l2) r);
    [|intros l2 r; unfold Q; by rewrite calls_app].
  assert (Q [] (Err Cancelled)) as HC by (apply HQ; [apply spends_nil|]; by intros e [= <-]; left).
  apply (emits_check_try _ _ Q); [done|].
  eapply emits_try; [apply parse_jwks_emits| |].
  2:{ intros l2 e [Hl2 He]. rewrite Hl2. apply HQ; [apply spends_nil|].
      intros e' [= <-]. by apply He. }
  intros l2 cs [Hl2 _].
  eapply emits_conseq with (Q := fun l3 r => Q (calls l3) r);
    [|intros l3 r; by rewrite calls_app, Hl2].
  apply (emits_check_try _ _ Q); [done|]. apply (emits_call _ _ _ Q). intros t.
  apply emits_ret. by apply HQ.
Qed.

(** An installation replaces exactly the content observed under the write guard
    and takes the next generation. *)
Definition installed (s : Snapshot) (cs : list AuthCall) (r : result unit AuthenticationError) : Prop :=
  match r with
  | Ok _ => exists cache, cs = [CacheWrite (Some cache); CacheStore (mkSnapshot (candidates s) (acquired s)
      (saturating_add (match cache with Some current => generation current | None => 0%N end) 1))]
  | Err e => e = Cancelled /\ spends 0 0 0 cs
  end.

Lemma install_snapshot_emits context s :
  emits (install_snapshot (W := W) context s) (fun l r => installed s (calls l) r).
Proof.
  unfold install_snapshot. apply (emits_check_try _ _ (installed s)); [split; [done|apply spends_nil]|].
  apply (emits_call _ _ _ (installed s)). intros guard.
  set (Q := fun cs r => installed s (CacheWrite guard :: cs) r).
  apply (emits_lift_try _ _ Q).
  2:{ intros e He. destruct guard; [done|]. injection He as <-. split; [done|]. by unfold spends, count. }
  intros cache Hcache%ok_or_ok_inv. subst guard.
  apply (emits_check_try _ _ Q); [split; [done|by unfold spends, count]|].
  apply (emits_call _ _ _ Q). intros []. apply emits_ret. by exists cache.
Qed.

Lemma newer_generation_emits config context observed :
  emits (newer_generation_is_currently_fresh (W := W) config context observed)
    (fun l r => spends 0 0 0 (calls l) /\ forall e, r = Err e -> e = Cancelled).
Proof.
  set (Q := fun cs (r : result bool AuthenticationError) => spends 0 0 0 cs /\ forall e, r = Err e -> e = Cancelled).
  assert (Q [] (Err Cancelled)) as HC by (split; [apply spends_nil|by intros e [= <-]]).
  unfold newer_generation_is_currently_fresh. apply (emits_check_try _ _ Q); [done|].
  apply (emits_call _ _ _ Q). intros guard. apply (emits_lift_try _ _ Q).
  2:{ intros e He. destruct guard; [done|]. by injection He as <-. }
  intros cache _. apply (emits_check_try _ _ Q); [done|]. apply (emits_call _ _ _ Q). intros t.
  apply emits_ret. split; [by unfold spends, count|done].
Qed.

(** One refresh consultation, inside the refresh guard ([locks = 0]) or with it. *)
Definition refreshed (locks : nat) (cs : list AuthCall) (r : result unit AuthenticationError) : Prop :=
  spends locks 2 1 cs /\
  forall e, r = Err e -> count is_store cs = 0 /\
    (e = Cancelled \/ (e = VerifierUnavailable /\ 1 <= count is_get cs)).

Lemma refreshed_cancelled n cs : spends n 2 0 cs -> refreshed n cs (Err Cancelled).
Proof.
  intros Hs. split; [by eapply spends_weaken; [exact Hs|lia..]|]. intros e [= <-].
  split; [|by left]. destruct Hs as (_ & _ & ?). lia.
Qed.

Lemma refreshed_guard b cs r : refreshed 0 cs r -> refreshed 1 (RefreshLock b :: cs ++ [RefreshUnlock]) r.
Proof.
  intros [(H1 & H2 & H3) He].
  assert (forall p, count p (RefreshLock b :: cs ++ [RefreshUnlock]) =
    (if p (RefreshLock b) then 1 else 0) + count p cs + (if p RefreshUnlock then 1 else 0)) as Hc.
  { intros p. unfold count. simpl. rewrite List.filter_app. simpl.
    destruct (p (RefreshLock b)), (p RefreshUnlock); simpl; rewrite length_app; simpl; lia. }
  unfold refreshed, spends. rewrite !Hc. simpl. split; [lia|]. intros e ->.
  destruct (He e eq_refl) as [? [->|[-> ?]]]; (split; [lia|]); [by left|right]. split; [done|lia].
Qed.

Lemma refresh_guarded_emits config context observed :
  emits (refresh_guarded (W := W) config context observed) (fun l r => refreshed 0 (calls l) r).
Proof.
  unfold refresh_guarded. apply (emits_check_try _ _ (refreshed 0)); [apply refreshed_cancelled, spends_nil|].
  eapply emits_try; [apply newer_generation_emits| |].
  2:{ intros l e [Hl He]. rewrite (He e eq_refl). apply refreshed_cancelled.
      by eapply spends_weaken; [exact Hl|lia..]. }
  intros l fresh [Hl _]. destruct fresh.
  { apply emits_ret. rewrite app_nil_r. split; [|done]. by eapply spends_weaken; [exact Hl|lia..]. }
  eapply emits_bind; [apply fetch_snapshot_emits|]. intros l2 r [Hs2 He2].
  assert (spends 0 2 0 (calls (l ++ l2))) as Hspent.
  { rewrite calls_app. by apply (spends_app 0 0 0 0 2 0). }
  destruct r as [snapshot|e].
  - eapply emits_conseq; [apply install_snapshot_emits|]. intros l3 r Hr.
    rewrite app_assoc, calls_app. destruct r as [[]|e].
    + destruct Hr as (cache & ->). split; [|done].
      exact (spends_app 0 2 0 0 0 1 _ [CacheWrite _; CacheStore _] Hspent ltac:(by unfold spends, count)).
    + destruct Hr as [-> Hs3]. apply refreshed_cancelled. exact (spends_app 0 2 0 0 0 0 _ _ Hspent Hs3).
  - assert (refreshed 0 (calls (l ++ l2)) (Err (match e with Cancelled => Cancelled | _ => VerifierUnavailable end))) as Hr.
    { destruct (He2 e eq_refl) as [->|[-> Hg]]; [by apply refreshed_cancelled|].
      split; [by eapply spends_weaken; [exact Hspent|lia..]|]. intros e' [= <-].
      split; [destruct Hspent as (_ & _ & ?); lia|]. right. split; [done|].
      rewrite calls_app. unfold count in *. rewrite List.filter_app, length_app. lia. }
    destruct e; apply emits_ret; by rewrite app_nil_r.
Qed.

Lemma refresh_emits config context observed :
  emits (refresh (W := W) config context observed) (fun l r => refreshed 1 (calls l) r).
Proof.
  unfold refresh. apply (emits_check_try _ _ (refreshed 1)); [apply refreshed_cancelled, spends_nil|].
  apply (emits_call _ _ _ (refreshed 1)). intros guard.
  set (Q := fun cs r => refreshed 1 (RefreshLock guard :: cs) r). apply (emits_lift_try _ _ Q).
  2:{ intros e He. destruct guard; [done|]. injection He as <-.
      apply refreshed_cancelled. unfold spends, count. simpl. lia. }
  intros _ _. eapply emits_bind; [apply refresh_guarded_emits|]. intros l r Hr.
  eapply emits_conseq; [apply (emits_call _ _ _ (fun cs r => Q (calls l ++ cs) r))|].
  { intros _. apply emits_ret. by apply refreshed_guard. }
  intros l2 r' H. by rewrite calls_app.
Qed.

(** *** Authentication attempts *)

(** A run whose acceptance, if any, is its last decision: against a fresh
    snapshot, or against one within the stale grace after a metadata retrieval
    of this very attempt failed. *)
Definition attempt (config : Config) (token : string) (alg : JwtAlgorithm) (cs : list AuthCall)
    (r : AuthResult) : Prop :=
  spends 1 2 1 cs /\
  forall caller, r = Ok caller -> exists pre dec classification,
    cs = pre ++ dec /\ accepted config token alg classification caller dec /\
    (classification = Fresh \/
     classification = Stale /\ 1 <= count is_get pre /\ count is_store pre = 0).

Lemma attempt_err config token alg cs e : spends 1 2 1 cs -> attempt config token alg cs (Err e).
Proof. by split. Qed.

Lemma attempt_prepend config token alg pre cs r :
  spends 0 0 0 pre -> attempt config token alg cs r -> attempt config token alg (pre ++ cs) r.
Proof.
  intros Hp [Hs Hr]. split; [exact (spends_app 0 0 0 1 2 1 _ _ Hp Hs)|].
  intros caller Hc. destruct (Hr caller Hc) as (p & dec & cl & -> & Ha & Hcl).
  exists (pre ++ p), dec, cl. rewrite app_assoc. split_and!; [done|done|].
  destruct Hcl as [?|(? & ? & ?)]; [by left|right]. rewrite !count_app.
  destruct Hp as (_ & _ & ?). split_and!; [done|lia|lia].
Qed.

Lemma verification_result_ok v caller : verification_result v = Ok caller -> v = Valid caller.
Proof. destruct v; simpl; naive_solver. Qed.

Lemma refreshed_result_ok c caller :
  refreshed_verification_result c = Ok caller -> c = CFresh (Valid caller).
Proof. destruct c as [[]|[]| |]; simpl; naive_solver. Qed.

Lemma fallback_result_ok c caller :
  stale_cache_fallback_result c = Ok caller -> c = CFresh (Valid caller) \/ c = CStale (Valid caller).
Proof. destruct c as [[]|[]| |]; simpl; naive_solver. Qed.

(** A refresh that did not fail, then a fresh decision. *)
Lemma verify_after_refresh_emits config token alg context pre :
  spends 1 2 1 pre ->
  emits (W := W) (let* v := verify_current config token alg context in
         eret (refreshed_verification_result v))
    (fun l r => attempt config token alg (pre ++ calls l) r).
Proof.
  intros Hp. eapply emits_bind; [apply verify_current_emits|]. intros l c (Hs & Hf & _).
  apply emits_ret. rewrite app_nil_r.
  split; [exact (spends_app 1 2 1 0 0 0 _ _ Hp Hs)|].
  intros caller Hc%refreshed_result_ok. exists pre, (calls l), Fresh. split_and!; auto.
Qed.

Lemma refresh_then_verify_emits config token alg context g :
  emits (refresh_then_verify_fresh (W := W) config token alg context g)
    (fun l r => attempt config token alg (calls l) r).
Proof.
  unfold refresh_then_verify_fresh. eapply emits_try; [apply refresh_emits| |].
  - intros l [] [Hs _]. eapply emits_conseq; [by apply verify_after_refresh_emits|].
    intros l2 r. by rewrite calls_app.
  - intros l e [Hs _]. by apply attempt_err.
Qed.

Lemma refresh_or_stale_emits config token alg context g :
  emits (refresh_or_stale_fallback (W := W) config token alg context g)
    (fun l r => attempt config token alg (calls l) r).
Proof.
  unfold refresh_or_stale_fallback. eapply emits_bind; [apply refresh_emits|].
  intros l r [Hs He]. destruct r as [[]|e].
  { eapply emits_conseq; [by apply verify_after_refresh_emits|]. intros l2 r. by rewrite calls_app. }
  destruct (He e eq_refl) as [Hst [->|[-> Hg]]].
  { apply emits_ret. rewrite app_nil_r. by apply attempt_err. }
  eapply emits_bind; [apply verify_current_emits|]. intros l2 c (Hs2 & Hf & Hstale).
  apply emits_ret. rewrite app_nil_r, calls_app.
  split; [exact (spends_app 1 2 1 0 0 0 _ _ Hs Hs2)|].
  intros caller Hc. apply fallback_result_ok in Hc as [Hc|Hc].
  - exists (calls l), (calls l2), Fresh. split_and!; auto.
  - exists (calls l), (calls l2), Stale. split_and!; auto.
Qed.

Lemma refresh_after_invalid_emits config token alg context g :
  emits (refresh_after_proven_signature_invalid (W := W) config token alg context g)
    (fun l r => attempt config token alg (calls l) r).
Proof.
  unfold refresh_after_proven_signature_invalid. eapply emits_bind; [apply refresh_emits|].
  intros l r [Hs He]. destruct r as [[]|e].
  { eapply emits_conseq; [by apply verify_after_refresh_emits|]. intros l2 r. by rewrite calls_app. }
  destruct e; apply emits_ret; rewrite app_nil_r; by apply attempt_err.
Qed.

Lemma classify_cache_emits config context :
  emits (classify_cache (W := W) config context) (fun l _ => spends 0 0 0 (calls l)).
Proof.
  set (Q := fun cs (_ : result (N * CacheClassification) AuthenticationError) => spends 0 0 0 cs).
  unfold classify_cache. apply (emits_check_try _ _ Q); [apply spends_nil|].
  apply (emits_call _ _ _ Q). intros guard. apply (emits_lift_try _ _ Q).
  2:{ intros. by unfold Q, spends, count. }
  intros cache _. apply (emits_check_try _ _ Q); [by unfold Q, spends, count|].
  destruct cache as [s|]; [|apply emits_ret; by unfold Q, spends, count].
  apply (emits_call _ _ _ Q). intros t. apply emits_ret. by unfold Q, spends, count.
Qed.

(** A fresh classification: decide, and refresh at most once if undecided. *)
Lemma fresh_branch_emits config token alg context g :
  emits (W := W) (let* v := verify_current config token alg context in
    match v with
    | CCancelled => eret (Err Cancelled)
    | CStale VRejected => eret (Err Rejected)
    | CStale VUnavailable => eret (Err VerifierUnavailable)
    | CStale SignatureInvalid => refresh_after_proven_signature_invalid config token alg context g
    | CStale _ => refresh_or_stale_fallback config token alg context g
    | CColdOrExpired => refresh_then_verify_fresh config token alg context g
    | CFresh (Valid caller) => eret (Ok caller)
    | CFresh VRejected => eret (Err Rejected)
    | CFresh VForbidden => eret (Err Forbidden)
    | CFresh VUnavailable => eret (Err VerifierUnavailable)
    | CFresh NoCandidate => refresh_then_verify_fresh config token alg context g
    | CFresh SignatureInvalid => refresh_after_proven_signature_invalid config token alg context g
    end) (fun l r => attempt config token alg (calls l) r).
Proof.
  eapply emits_bind; [apply verify_current_emits|]. intros l c (Hs & Hf & _).
  assert (spends 1 2 1 (calls l)) as Hs' by (eapply spends_weaken; [exact Hs|lia..]).
  assert (forall m : M AuthResult, emits m (fun l r => attempt config token alg (calls l) r) ->
    emits m (fun l2 r => attempt config token alg (calls (l ++ l2)) r)) as Hmore.
  { intros m Hm. eapply emits_conseq; [exact Hm|]. intros l2 r Hr. rewrite calls_app.
    by apply attempt_prepend. }
  assert (forall e, emits (W := W) (eret (Err e)) (fun l2 r => attempt config token alg (calls (l ++ l2)) r)) as Herr.
  { intros e. apply emits_ret. rewrite app_nil_r. by apply attempt_err. }
  destruct c as [[]|[]| |]; try apply Herr;
    try (apply Hmore; first [apply refresh_after_invalid_emits|apply refresh_or_stale_emits
      |apply refresh_then_verify_emits]).
  apply emits_ret. rewrite app_nil_r. split; [done|]. intros caller' [= <-].
  exists [], (calls l), Fresh. split_and!; auto.
Qed.

(** What a whole authentication establishes. *)
Definition authentication_run (config : Config) (request : AuthenticationRequest) (cs : list AuthCall)
    (r : AuthResult) : Prop :=
  spends 1 2 1 cs /\
  forall caller, r = Ok caller -> exists token alg,
    raw_compact_token request = Some token /\ (N.of_nat (byte_len token) <= MAX_TOKEN_BYTES)%N /\
    preflight_header token (algorithms config) = Ok alg /\ attempt config token alg cs (Ok caller).

Lemma authenticate_emits config request :
  emits (authenticate (W := W) config request) (fun l r => authentication_run config request (calls l) r).
Proof.
  set (Q := authentication_run config request).
  assert (forall cs e, spends 0 0 0 cs -> Q cs (Err e)) as Herr.
  { intros cs e Hs. split; [by eapply spends_weaken; [exact Hs|lia..]|done]. }
  unfold authenticate. apply (emits_check_try _ _ Q); [apply Herr, spends_nil|].
  apply (emits_lift_try _ _ Q); [|intros e _; apply Herr, spends_nil]. intros token Htok%ok_or_ok_inv.
  destruct (N.ltb_spec MAX_TOKEN_BYTES (N.of_nat (byte_len token))) as [Hlt|Hle];
    [apply emits_ret; apply Herr, spends_nil|].
  apply (emits_check_try _ _ Q); [apply Herr, spends_nil|].
  apply (emits_lift_try _ _ Q); [|intros e _; apply Herr, spends_nil]. intros alg Halg.
  apply (emits_check_try _ _ Q); [apply Herr, spends_nil|].
  assert (forall cs r, attempt config token alg cs r -> Q cs r) as HQ.
  { intros cs r [Hs Hr]. split; [done|]. intros caller ->. by exists token, alg. }
  eapply emits_try; [apply classify_cache_emits| |by intros; apply Herr].
  intros l [g classification] Hl.
  assert (forall m : M AuthResult, emits m (fun l r => attempt config token alg (calls l) r) ->
    emits m (fun l2 r => Q (calls (l ++ l2)) r)) as Hmore.
  { intros m Hm. eapply emits_conseq; [exact Hm|]. intros l2 r Hr. rewrite calls_app.
    by apply HQ, attempt_prepend. }
  destruct classification; apply Hmore;
    [apply fresh_branch_emits|apply refresh_or_stale_emits|apply refresh_then_verify_emits].
Qed.

(** ** Properties *)

(** C4: a caller is authenticated only by a token within the size
    limit with an allowed algorithm, and the last three observations of the
    attempt are one read of the trusted cache, one reading of its age and one of
    the wall clock, such that a candidate of that very snapshot verifies the
    token's signature, the claims are valid at that wall time, and the caller's
    client, bearer and target are the token's.  The snapshot is fresh, or it is
    within the stale grace and this attempt's own metadata retrieval failed and
    installed nothing. *)
Theorem authenticate_sound (config : Config) (request : AuthenticationRequest) (w : W) :
  let '(r, s) := authenticate config request (mkTr w []) in
  forall caller, r = Ok caller -> exists token alg,
    raw_compact_token request = Some token /\ (N.of_nat (byte_len token) <= MAX_TOKEN_BYTES)%N /\
    preflight_header token (algorithms config) = Ok alg /\
    exists pre dec classification, calls (trace s) = pre ++ dec /\
      accepted config token alg classification caller dec /\
      (classification = Fresh \/
       classification = Stale /\ 1 <= count is_get pre /\ count is_store pre = 0).
Proof.
  pose proof (emits_run _ _ w (authenticate_emits config request)) as [_ H].
  destruct (authenticate config request _) as [r s]. intros caller ->.
  destruct (H caller eq_refl) as (token & alg & ? & ? & ? & _ & Ha). exists token, alg. auto.
Qed.

(** C27: one authentication attempt consults the trusted source at
    most once: at most one refresh lock, two metadata requests (discovery and
    key set) and one cache replacement. *)
Theorem authenticate_refreshes_once (config : Config) (request : AuthenticationRequest) (w : W) :
  spends 1 2 1 (calls (trace (authenticate config request (mkTr w [])).2)).
Proof. apply (emits_run _ _ w (authenticate_emits config request)). Qed.

(** A failed refresh leaves the cache alone and is a cancellation, or
    an unavailable verifier after at least one metadata request. *)
Lemma refresh_failure_keeps_cache (config : Config) (context : SynchronizationContext)
    (observed_generation : N) (w : W) :
  let '(r, s) := refresh config context observed_generation (mkTr w []) in
  is_ok r = true \/
  (count is_store (calls (trace s)) = 0 /\
   (r = Err Cancelled \/ (r = Err VerifierUnavailable /\ 1 <= count is_get (calls (trace s))))).
Proof.
  pose proof (emits_run _ _ w (refresh_emits config context observed_generation)) as [_ H].
  destruct (refresh config context observed_generation _) as [[|e] s]; [by left|right].
  destruct (H e eq_refl) as [? [->|[-> ?]]]; auto.
Qed.

(** A retrieved metadata document came from one request of
    that URI answered 200, is the data of the response's frames in order, and holds at
    most 1 MiB; every failure is a cancellation or an unavailable verifier. *)
Lemma metadata_document_bounded (config : Config) (uri : Uri) (context : SynchronizationContext) (w : W) :
  let '(r, s) := get_document config uri context (mkTr w []) in
  match r with
  | Ok d => (N.of_nat (length d) <= 1048576)%N /\ exists until response,
      calls (trace s) = [MetadataGet uri until (AnswerResponse response)] /\
      response_status response = 200%N /\ d = mjoin (frame_data <$> frames response)
  | Err e => e = Cancelled \/ e = VerifierUnavailable
  end.
Proof.
  pose proof (emits_run _ _ w (get_document_emits config uri context)) as [_ H].
  destruct (get_document config uri context _) as [[d|e] s]; [done|]. naive_solver.
Qed.
End CacheFacts.

(** ** A concrete attempt *)
Module Sample.
Definition claims : Value := VObject
  [("iss", VString "https://idp"); ("aud", VString "permissionsync"); ("exp", VNumber (PosInt 2000));
   ("iat", VNumber (PosInt 900)); ("client_id", VString "keycloak");
   ("scope", VString "openid permissionsync:glpi")].

#[local] Instance deps : AuthDeps := {|
  Uri := string; uri_parse := Some; uri_scheme := fun _ => Some "https";
  uri_host := fun _ => Some "idp"; uri_authority := fun _ => Some "idp";
  stack_from_pem := fun _ => Some 1; tls_build := fun _ => true;
  json_from_slice := fun _ => Some claims; json_to_vec := fun _ => Some [];
  discovery_from_slice := fun _ => None;
  Header := unit; decode_jws_header := fun _ => Some tt; header_claim := fun _ _ => None;
  header_algorithm := fun _ => Some "RS256"; header_key_id := fun _ => None;
  Jwk := unit; jwk_from_bytes := fun _ => Some tt;
  Verifier := unit; verifier_from_jwk := fun _ _ => Some tt;
  compact_header := fun _ => Some tt; compact_verify := fun _ _ => Some [];
|}.

Definition snapshot : Snapshot := mkSnapshot (H := deps) [mkCandidate (H := deps) None RS256 tt tt] 0 1.

#[local] Instance clock : Clock unit :=
  {| now := fun w => (0%Z, w); is_cancelled := fun w => (false, w) |}.
#[local] Instance environment : AuthWorld unit := {|
  tick := fun w => (5%Z, w);
  unix_seconds := fun w => (Some (f64_of_Z 1000), w);
  cache_read := fun _ w => (Some (Some snapshot), w);
  cache_write := fun _ w => (Some (Some snapshot), w);
  cache_store := fun _ w => w;
  refresh_lock := fun _ w => (true, w); refresh_unlock := fun w => w;
  metadata_get := fun _ _ w => (AnswerError, w);
|}.

Definition config : Config :=
  mkConfig (H := deps) "https://idp" "permissionsync" (Direct (H := deps) "https://idp/jwks") [RS256] 10
    (mkPolicy 60 60) 0.
Definition request : AuthenticationRequest := mkAuthRequest (Some "token") (mkContext 100).
Definition caller : AuthenticatedTechnicalCaller :=
  mkCaller "keycloak" (mkBearerToken "token") (Selected (mkLogicalTarget "glpi")).

Lemma authenticate_sound_witness :
  exists token alg pre dec classification,
    calls (trace (authenticate config request (mkTr tt [])).2) = pre ++ dec /\
    accepted config token alg classification caller dec.
Proof.
  pose proof (authenticate_sound config request tt) as H.
  assert ((authenticate config request (mkTr tt [])).1 = Ok caller) as Hr by (vm_compute; reflexivity).
  destruct (authenticate config request (mkTr tt [])) as [r s]. simpl in Hr |- *.
  destruct (H caller Hr) as (token & alg & _ & _ & _ & pre & dec & cl & Hc & Ha & _).
  exists token, alg, pre, dec, cl. split; [exact Hc|exact Ha].
Defined.
End Sample.
