(* ===== verification/AuthWalk.v ===== *)
(** * [permissionsync-auth]: what an attempt leaves alone

    A predicate of the world that every operation of [AuthWorld] keeps is kept by the
    whole attempt.  Reading operations suffice for everything but a refresh. *)
From S2P Require Import Prelude Core Json AuthBase AuthJwks AuthClaims AuthCache.

(** The operations that only look. *)
Record keeps_reading `{Deps : AuthDeps} {W : Type} `{!AuthWorld W} (P : W -> Prop) : Prop := mkKeepsReading {
  keeps_now : forall w, P w -> P (now w).2;
  keeps_cancelled : forall w, P w -> P (is_cancelled w).2;
  keeps_wall : forall w, P w -> P (unix_seconds w).2;
  keeps_tick : forall w, P w -> P (tick w).2;
  keeps_read : forall d w, P w -> P (cache_read d w).2;
  keeps_get : forall uri d w, P w -> P (metadata_get uri d w).2;
}.

(** All of them. *)
Record keeps_all `{Deps : AuthDeps} {W : Type} `{!AuthWorld W} (P : W -> Prop) : Prop := mkKeepsAll {
  keeps_reads : keeps_reading P;
  keeps_write : forall d w, P w -> P (cache_write d w).2;
  keeps_store : forall snapshot w, P w -> P (cache_store snapshot w);
  keeps_lock : forall d w, P w -> P (refresh_lock d w).2;
  keeps_unlock : forall w, P w -> P (refresh_unlock w);
}.

Section Reading.
Context `{Deps : AuthDeps} {W : Type} `{!AuthWorld W} (config : Config).
Context (P : W -> Prop) (Hk : keeps_reading P).
Abbreviation kept := (preserves (C := AuthCall) P).

Lemma kept_check context : kept (check_context context).
Proof.
  pose proof (preserves_now (C := AuthCall) P (keeps_now P Hk)).
  pose proof (preserves_cancelled (C := AuthCall) P (keeps_cancelled P Hk)).
  unfold check_context. preserve.
Qed.

Lemma kept_now : kept read_now.
Proof. apply preserves_now, Hk. Qed.
Lemma kept_cancelled : kept read_cancelled.
Proof. apply preserves_cancelled, Hk. Qed.
Lemma kept_tick : kept read_tick.
Proof. apply preserves_perform, Hk. Qed.
Lemma kept_read context : kept (lock_read context).
Proof. apply preserves_perform, Hk. Qed.
Lemma kept_wall : kept read_wall_clock.
Proof. apply preserves_perform, Hk. Qed.
Lemma kept_get uri d : kept (get uri d).
Proof. apply preserves_perform, Hk. Qed.
#[local] Hint Resolve kept_check kept_now kept_cancelled kept_tick kept_read kept_wall kept_get : preserves.

Lemma kept_deadline context d : kept (effective_deadline context d).
Proof. unfold effective_deadline. preserve. Qed.

Lemma kept_timeout cause : kept (timeout_error cause).
Proof. unfold timeout_error. preserve. Qed.

Lemma kept_candidates context object jwk algs acc : kept (key_candidates context object jwk algs acc).
Proof. revert acc. induction algs as [|a algs IH]; intros acc; simpl; preserve. Qed.
#[local] Hint Resolve kept_deadline kept_timeout kept_candidates : preserves.

Lemma kept_keys context algs keys acc : kept (all_keys context algs keys acc).
Proof. revert acc. induction keys as [|v keys IH]; intros acc; simpl; [preserve|]. unfold one_key. preserve. Qed.

Lemma kept_frames context cause l d : kept (read_frames context cause l d).
Proof. revert d. induction l as [|f l IH]; intros d; simpl; preserve. Qed.
#[local] Hint Resolve kept_keys kept_frames : preserves.

Lemma kept_jwks d algs context : kept (parse_jwks d algs context).
Proof. unfold parse_jwks. preserve. Qed.

Lemma kept_document uri context : kept (get_document config uri context).
Proof. unfold get_document, read_document. preserve. Qed.
#[local] Hint Resolve kept_jwks kept_document : preserves.

Lemma kept_fetch_jwks context : kept (fetch_jwks config context).
Proof. unfold fetch_jwks. preserve. Qed.

Lemma kept_claims payload context : kept (validate_claims payload config context).
Proof. unfold validate_claims. preserve. Qed.
#[local] Hint Resolve kept_fetch_jwks kept_claims : preserves.

Lemma kept_fetch context : kept (fetch_snapshot config context).
Proof. unfold fetch_snapshot. preserve. Qed.

Lemma kept_verify token alg context : kept (verify_current config token alg context).
Proof.
  assert (forall cs b1 b2, kept (verify_candidates config token alg context cs b1 b2)) as Hcs.
  { induction cs as [|c cs IH]; intros b1 b2; simpl; preserve. }
  unfold verify_current. preserve.
Qed.

Lemma kept_classify context : kept (classify_cache config context).
Proof. unfold classify_cache. preserve. Qed.

Lemma kept_newer context seen : kept (newer_generation_is_currently_fresh config context seen).
Proof. unfold newer_generation_is_currently_fresh. preserve. Qed.
End Reading.

Section Attempt.
Context `{Deps : AuthDeps} {W : Type} `{!AuthWorld W} (config : Config).
Context (P : W -> Prop) (Hk : keeps_all P).
Abbreviation kept := (preserves (C := AuthCall) P).

#[local] Hint Resolve kept_check kept_fetch kept_verify kept_classify kept_newer keeps_reads : preserves.

Lemma kept_refresh context seen : kept (refresh config context seen).
Proof.
  assert (kept (lock_refresh context)) by apply preserves_perform, Hk.
  assert (kept drop_guard) by apply preserves_perform, Hk.
  assert (kept (lock_write context)) by apply preserves_perform, Hk.
  assert (forall snapshot, kept (store snapshot)) by (intros; apply preserves_perform; intros; by apply Hk).
  unfold refresh, refresh_guarded, install_snapshot. preserve.
Qed.
#[local] Hint Resolve kept_refresh : preserves.

Lemma kept_authenticate request : kept (authenticate config request).
Proof.
  unfold authenticate, refresh_then_verify_fresh, refresh_or_stale_fallback,
    refresh_after_proven_signature_invalid. preserve.
Qed.

Lemma kept_ensure context : kept (ensure_trusted_verifier_state config context).
Proof. unfold ensure_trusted_verifier_state, trusted_verifier_state. preserve. Qed.
End Attempt.
