(* ===== verification/AuthTrust.v ===== *)
(** * [permissionsync-auth]: availability of a trusted source

    [AuthCache] shows what every accepted token satisfies.  Here is the converse:
    when the identity provider publishes its key set and the cache is a shared
    register that other requests may replace by that key set at any time
    ([TrustedSource]), every genuine token is accepted, whatever the cache held
    before (nothing, an expired or stale set, or a fresh one without the new key),
    unless the request is cancelled; and a cache that holds the published keys
    needs no retrieval. *)
From S2P Require Import Prelude Core Json AuthBase AuthJwks AuthClaims AuthCache.

(** ** The environment *)

(** What is known of a world: the content of the cache, the monotonic time, the
    time the attempt began, the published documents and the keys among them. *)
Class SourceView (W : Type) `{Deps : AuthDeps} : Type := {
  cached : W -> option Snapshot;
  time : W -> Z;
  began : Z;
  document : Uri -> bytes;
  published : list Candidate;
}.

Section View.
Context `{Deps : AuthDeps} {W : Type} `{!SourceView W}.

(** The cache holds the published keys, acquired since the attempt began. *)
Definition published_at (w : W) : Prop :=
  exists s, cached w = Some s /\ candidates s = published /\ (began <= acquired s <= time w)%Z.

(** Time passes, and another request may have refreshed the cache. *)
Definition later (w w' : W) : Prop :=
  (time w <= time w')%Z /\ (cached w' = cached w \/ published_at w').

(** A response that carries document [d]. *)
Definition carries (d : bytes) (r : MetadataResponse) : Prop :=
  response_status r = 200%N /\
  (forall n, content_length r ≫= parse_u64 = Some n -> (n <= MAX_DOCUMENT_BYTES)%N) /\
  (forall n, size_hint r = Some n -> (n <= MAX_DOCUMENT_BYTES)%N) /\
  Forall (fun f => f = FrameOther \/ exists b, f = FrameData b) (frames r) /\
  mjoin (frame_data <$> frames r) = d /\ (N.of_nat (length d) <= MAX_DOCUMENT_BYTES)%N.

(** The key-set document of the configured source. *)
Definition key_set (config : Config) (d : bytes) : Prop :=
  match source config with
  | Direct uri => document uri = d
  | Discovery uri => exists jwks_uri u,
      discovery_from_slice (document uri) = Some (issuer config, jwks_uri) /\
      parse_metadata_uri jwks_uri = Some u /\ document u = d
  end.
End View.

(** The clocks move forward and the attempt takes at most one freshness period;
    locks give access to the cache or nothing; the source serves its documents,
    whose keys are the published ones. *)
Class TrustedSource `{Deps : AuthDeps} (config : Config) (W : Type) `{!AuthWorld W, !SourceView W} : Prop := {
  later_now : forall w : W, later w (now w).2;
  later_cancelled : forall w : W, later w (is_cancelled w).2;
  later_wall : forall w : W, later w (unix_seconds w).2;
  later_tick : forall w : W, later w (tick w).2 /\ (time w <= (tick w).1 <= time (tick w).2)%Z;
  later_read : forall d (w : W), later w (cache_read d w).2 /\
    forall c, (cache_read d w).1 = Some c -> c = cached (cache_read d w).2;
  later_write : forall d (w : W), later w (cache_write d w).2;
  later_lock : forall d (w : W), later w (refresh_lock d w).2;
  later_unlock : forall w : W, later w (refresh_unlock w);
  later_get : forall uri d (w : W), later w (metadata_get uri d w).2 /\
    exists r, (metadata_get uri d w).1 = AnswerResponse r /\ carries (document uri) r;
  store_keeps : forall s (w : W), (time w <= time (cache_store s w))%Z /\
    (cached (cache_store s w) = Some s \/ published_at (cache_store s w));
  within_freshness : forall w : W, (began <= time w <= began + freshness (cache_policy config))%Z;
  source_published : exists d, key_set config d /\ jwks_result d (algorithms config) = Ok published;
}.

(** A token the provider issued: one published key verifies it, its payload is the
    one its claims are read from, and they are valid whenever the wall clock is
    read. *)
Record genuine `{Deps : AuthDeps} {W : Type} `{!AuthWorld W, !SourceView W} (config : Config)
    (token : string) (alg : JwtAlgorithm) (caller : AuthenticatedTechnicalCaller) : Prop := mkGenuine {
  token_size : (N.of_nat (byte_len token) <= MAX_TOKEN_BYTES)%N;
  token_preflight : preflight_header token (algorithms config) = Ok alg;
  token_header : exists header, compact_header token = Some header /\
    header_claim header "crit" = None /\ header_claim header "b64" = None;
  token_claims : exists payload claims parsed,
    (exists c, c ∈ published /\ verified_by token alg c payload) /\
    (forall v p, compact_verify token v = Some p -> p = payload) /\
    authentication_claims payload config claims parsed /\
    (forall w : W, exists u, (unix_seconds w).1 = Some u /\ authenticated_at payload config claims parsed u) /\
    scope_selection (object_get claims "scope") = Ok (target_selection caller) /\
    client_id caller = parsed_client_id parsed /\ caller_bearer_token caller = mkBearerToken token;
}.
Arguments genuine {Deps} W {_ _} config token alg caller.

(** ** Assertions that other requests cannot invalidate *)

Section Trust.
Context `{Deps : AuthDeps} {W : Type} `{!AuthWorld W, !SourceView W} (config : Config).
Context `{Source : !TrustedSource config W}.
Abbreviation M := (Eff (Tr W AuthCall)).
Abbreviation Assertion := (Tr W AuthCall -> Prop).

(** [allowed] says which calls an assertion survives. *)
Context (allowed : AuthCall -> Prop) (context : SynchronizationContext).

Definition harmless (e : event AuthCall) : Prop :=
  match e with ECall c => allowed c | _ => True end.

Definition steady (P : Assertion) : Prop :=
  forall s w l, P s -> later (world s) w -> Forall harmless l -> P (mkTr w (trace s ++ l)).

(** Why an attempt may be cancelled: it saw that the caller gave up, read a time past
    its deadline, or was not granted a lock in time; and the world is one that answers
    so. *)
Definition hurry (e : event AuthCall) : Prop :=
  match e with
  | ECancelled b => b = true /\ exists w : W, (is_cancelled w).1 = true
  | ENow t => (deadline context <= t)%Z /\ exists w : W, (now w).1 = t
  | ECall (CacheRead c) => c = None /\ exists w : W, (cache_read (deadline context) w).1 = None
  | ECall (CacheWrite c) => c = None /\ exists w : W, (cache_write (deadline context) w).1 = None
  | ECall (RefreshLock b) => b = false /\ exists w : W, (refresh_lock (deadline context) w).1 = false
  | ECall _ => False
  end.
Definition hurried (l : list (event AuthCall)) : Prop := Exists hurry l.

Lemma hurried_last l e : hurry e -> hurried (l ++ [e]).
Proof. intros He. apply Exists_app. right. by constructor. Qed.

Lemma hurried_app l l' : hurried l -> hurried (l ++ l').
Proof. intros Hl. apply Exists_app. by left. Qed.

(** [Q] on success; the only failure is a cancellation. *)
Definition unless_cancelled {A} (Q : A -> Assertion) (r : result A AuthenticationError) : Assertion :=
  fun s => match r with Ok a => Q a s | Err e => e = Cancelled /\ hurried (trace s) end.

Lemma sure_try {A B} (m : M (result A AuthenticationError)) (k : A -> M (result B AuthenticationError)) P R Q :
  sure P m (unless_cancelled R) -> (forall a, sure (R a) (k a) (unless_cancelled Q)) ->
  sure P (etry m k) (unless_cancelled Q).
Proof.
  intros Hm Hk. eapply sure_bind; [exact Hm|]. intros [a|e]; [apply Hk|].
  by apply sure_ret.
Qed.

Lemma harmless_one e : harmless e -> Forall harmless [e].
Proof. intros He. by constructor. Qed.

Lemma sure_perform {A} (f : W -> A * W) (record : A -> AuthCall) P (φ : A -> W -> Prop) : steady P ->
  (forall w, later w (f w).2 /\ φ (f w).1 (f w).2) -> (forall a, allowed (record a)) ->
  sure P (perform f record) (fun a s => P s /\ φ a (world s)).
Proof.
  intros HP Hf Hr s Hs. unfold perform. destruct (Hf (world s)) as [Hl Hφ].
  destruct (f (world s)) as [a w]. simpl in *. split; [|done].
  apply (HP _ _ [ECall (record a)] Hs Hl). apply harmless_one, Hr.
Qed.

(** An answer that cancels the attempt is in its trace. *)
Lemma sure_call {A} (f : W -> A * W) (record : A -> AuthCall) P (φ : A -> W -> Prop) : steady P ->
  (forall w, later w (f w).2 /\ φ (f w).1 (f w).2) -> (forall a, allowed (record a)) ->
  sure P (perform f record) (fun a s => (P s /\ φ a (world s)) /\ (hurry (ECall (record a)) -> hurried (trace s))).
Proof.
  intros HP Hf Hr s Hs. pose proof (sure_perform f record P φ HP Hf Hr s Hs) as H. revert H.
  unfold perform. destruct (f (world s)) as [a w]. intros H. split; [exact H|]. apply hurried_last.
Qed.

Lemma sure_check P : steady P ->
  sure P (check_context context) (unless_cancelled (fun _ => P)).
Proof.
  intros HP s Hs. unfold check_context, ebind, read_cancelled, read_now.
  pose proof (later_cancelled (world s)) as H1. destruct (is_cancelled (world s)) as [[] w1] eqn:E1.
  { split; [done|]. apply hurried_last. split; [done|]. exists (world s). by rewrite E1. }
  simpl in *. pose proof (HP _ _ [ECancelled false] Hs H1 (harmless_one (ECancelled false) I)) as Hs1.
  pose proof (later_now w1) as H2. destruct (now w1) as [t w2] eqn:E2. simpl in *.
  pose proof (HP _ _ [ENow t] Hs1 H2 (harmless_one (ENow t) I)) as Hs2.
  destruct (Z.leb_spec (deadline context) t); [|done]. split; [done|]. apply hurried_last.
  split; [done|]. exists w1. by rewrite E2.
Qed.

Lemma sure_check_then {A} (k : unit -> M (result A AuthenticationError)) P Q : steady P ->
  sure P (k tt) (unless_cancelled Q) -> sure P (etry (check_context context) k) (unless_cancelled Q).
Proof. intros HP Hk. eapply sure_try; [by apply sure_check|]. by intros []. Qed.

Lemma published_later w w' : later w w' -> published_at w -> published_at w'.
Proof.
  intros [Ht [Hc|Hp]] (s & Hs & Hcs & Ha); [|done]. exists s. rewrite Hc. split_and!; [done|done|lia|lia].
Qed.

(** The cache as it was observed, or refreshed since. *)
Definition observed (c : option Snapshot) : Assertion :=
  fun s => cached (world s) = c \/ published_at (world s).
Definition refreshed_cache : Assertion := fun s => published_at (world s).

Lemma steady_observed c : steady (observed c).
Proof.
  intros s w l Hs Hl _. unfold observed in *. simpl. destruct Hs as [Hs|Hs].
  - destruct Hl as [_ [Hc|Hc]]; [left; congruence|by right].
  - right. by eapply published_later.
Qed.

Lemma steady_refreshed : steady refreshed_cache.
Proof. intros s w l Hs Hl _. by eapply published_later. Qed.

(** ** Verification of a genuine token *)

Section Genuine.
Context (token : string) (alg : JwtAlgorithm) (caller : AuthenticatedTechnicalCaller).
Context (Htoken : genuine W config token alg caller).
Context (Hread : forall c, allowed (CacheRead c)) (Htick : forall t, allowed (Tick t)).
Context (Hwall : forall t, allowed (WallClock t)).

Lemma sure_validate payload c P : steady P -> verified_by token alg c payload ->
  sure P (validate_claims payload config context)
    (unless_cancelled (fun r s => P s /\ r = (client_id caller, target_selection caller))).
Proof.
  intros HP (h & v & _ & _ & Hv).
  destruct (token_claims _ _ _ _ Htoken) as
    (payload' & claims & parsed & _ & Huniq & [Hclaims Hparsed] & Hwalls & Hscope & Hid & _).
  apply Huniq in Hv as ->. apply shapes_exact in Hparsed.
  unfold validate_claims. apply sure_check_then; [done|].
  eapply sure_lift; [by rewrite Hclaims|]. eapply sure_lift; [done|].
  eapply sure_lift; [exact Hparsed|]. apply sure_check_then; [done|].
  eapply sure_bind.
  { apply (sure_perform _ _ _ (fun o _ => exists u, o = Some u /\ authenticated_at payload' config claims parsed u));
      [done| |done]. intros w. split; [apply later_wall|]. destruct (Hwalls w) as (u & -> & ?). eauto. }
  intros wall s [Hs (u & -> & [_ Hvalid%in_force_exact])]. revert s Hs. apply sure_lift with (a := u); [done|].
  rewrite Hvalid. apply sure_check_then; [done|]. unfold scope_selection in Hscope.
  apply rbind_ok_inv in Hscope as (tokens & Htok & Hsel).
  eapply sure_lift; [exact Htok|]. eapply sure_lift; [exact Hsel|]. apply sure_check_then; [done|].
  apply sure_ret. intros s Hs. simpl. by rewrite Hid.
Qed.

(** What trying the candidates of a set can give. *)
Definition tried (cs : list Candidate) (v : Verification) : Prop :=
  v = Valid caller \/
  ((v = SignatureInvalid \/ v = NoCandidate) /\ forall c payload, c ∈ cs -> ~ verified_by token alg c payload).

Lemma deserialize_unverified c selection : deserialize_compact token alg c = (selection, None) ->
  is_prohibited selection = false /\ forall payload, ~ verified_by token alg c payload.
Proof.
  destruct (token_header _ _ _ _ Htoken) as (header & Hh & Hcrit & Hb64).
  unfold deserialize_compact. rewrite Hh. intros Hd. split.
  - destruct (select_verifier header alg c) as [| |v] eqn:Hs; [|by injection Hd as <-|by injection Hd as <-].
    unfold select_verifier in Hs. rewrite Hcrit, Hb64, !bool_decide_false in Hs by (by intros [? ?]).
    simpl in Hs. repeat case_match; done.
  - intros payload (h & v & Hh' & Hs & Hv). rewrite Hh in Hh'. injection Hh' as <-.
    rewrite Hs in Hd. injection Hd as _ Hd. congruence.
Qed.

Lemma sure_candidates cs P selected : steady P ->
  sure P (verify_candidates config token alg context cs selected false)
    (fun o s => match o with Some v => P s /\ tried cs v | None => hurried (trace s) end).
Proof.
  intros HP. revert selected. induction cs as [|c cs IH]; intros selected; simpl.
  { apply sure_ret. intros s Hs. split; [done|]. right.
    split; [destruct selected; auto|set_solver]. }
  eapply sure_bind; [by apply sure_check|]. intros [[]|e]; simpl; [|by apply sure_ret; intros s []].
  destruct (deserialize_compact token alg c) as [selection [payload|]] eqn:Hd.
  - eapply sure_bind; [by apply sure_check|]. intros [[]|e]; simpl; [|by apply sure_ret; intros s []].
    apply deserialize_verified in Hd. eapply sure_bind; [by eapply sure_validate|].
    intros [[client sel]|e]; apply sure_ret; simpl.
    + intros s [Hs [= -> ->]]. split; [done|]. left.
      destruct (token_claims _ _ _ _ Htoken) as (? & ? & ? & _ & _ & _ & _ & _ & _ & <-). by destruct caller.
    + by intros s [-> ?].
  - apply deserialize_unverified in Hd as [Hp Hno].
    eapply sure_bind; [by apply sure_check|]. intros [[]|e]; simpl; [|by apply sure_ret; intros s []].
    rewrite Hp. eapply sure_conseq; [apply IH|done|]. intros [v|] s; [|done].
    intros [Hs Ht]. split; [done|]. destruct Ht as [->|[Hv Hnone]]; [by left|right]. split; [done|].
    intros c' payload [->|Hin]%elem_of_cons; [apply Hno|by apply Hnone].
Qed.

(** What [verify_current] decides about a cache content read at age [t]. *)
Definition decided (c : option Snapshot) (t : Z) (v : CacheVerification) : Prop :=
  match c with
  | None => v = CColdOrExpired
  | Some snapshot =>
      match classify_age (cache_policy config) snapshot t with
      | ColdOrExpired => v = CColdOrExpired
      | Fresh => exists o, v = CFresh o /\ tried (candidates snapshot) o
      | Stale => exists o, v = CStale o /\ tried (candidates snapshot) o
      end
  end.

(** The content [c] was in the cache at some time [T] with [φ c T]. *)
Definition seen (φ : option Snapshot -> Z -> Prop) (c : option Snapshot) (t : Z) : Prop :=
  exists T, φ c T /\ (T <= t)%Z.

Lemma steady_seen P φ c : steady P -> steady (fun s => P s /\ seen φ c (time (world s))).
Proof.
  intros HP s w l [Hs (T & HT & Hle)] Hl Hq. split; [by apply HP|]. exists T. split; [done|].
  destruct Hl as [Ht _]. simpl. lia.
Qed.

Lemma read_answers (w : W) : later w (cache_read (deadline context) w).2 /\
  (forall c, (cache_read (deadline context) w).1 = Some c -> c = cached (cache_read (deadline context) w).2) /\
  ((cache_read (deadline context) w).1 = None -> hurry (ECall (CacheRead None))).
Proof. split_and!; [apply later_read..|]. intros Hn. split; [done|]. by exists w. Qed.

Lemma sure_read P φ : steady P -> (forall s, P s -> φ (cached (world s)) (time (world s))) ->
  sure P (lock_read context) (fun o s => match o with
    | Some c => P s /\ seen φ c (time (world s)) | None => hurried (trace s) end).
Proof.
  intros HP Hφ. eapply sure_conseq; [apply (sure_call _ _ P (fun o w =>
    (forall c, o = Some c -> c = cached w) /\ (o = None -> hurry (ECall (CacheRead None)))));
    [done|apply read_answers|done]|done|].
  intros [c|] s; [|intros [[_ [_ H]] Hh]; by apply Hh, H]. intros [[Hs [Hc _]] _]. rewrite (Hc c eq_refl). split; [done|].
  exists (time (world s)). split; [by apply Hφ|lia].
Qed.

Lemma sure_tick P φ c : steady P ->
  sure (fun s => P s /\ seen φ c (time (world s))) read_tick (fun t s =>
    (seen φ c t /\ (t <= began + freshness (cache_policy config))%Z) /\ P s).
Proof.
  intros HP s [Hs (T & HT & Hle)]. unfold read_tick, perform.
  destruct (later_tick (world s)) as [Hl Ht]. destruct (tick (world s)) as [t w]. simpl in *.
  pose proof (within_freshness w). split; [split; [exists T; split; [done|lia]|lia]|].
  apply (HP _ _ [ECall (Tick t)] Hs Hl). apply harmless_one, Htick.
Qed.

Lemma sure_verify P φ : steady P -> (forall s, P s -> φ (cached (world s)) (time (world s))) ->
  sure P (verify_current config token alg context) (fun v s =>
    (v = CCancelled /\ hurried (trace s)) \/ (P s /\ exists c t, seen φ c t /\ (t <= began + freshness (cache_policy config))%Z /\
      decided c t v)).
Proof.
  intros HP Hφ. unfold verify_current.
  eapply sure_bind; [by apply sure_check|]. intros [[]|e]; simpl; [|apply sure_ret; intros s []; by left].
  eapply sure_bind; [by apply (sure_read P φ)|]. intros [c|]; [|apply sure_ret; intros s ?; by left].
  pose proof (steady_seen P φ c HP) as HPc.
  eapply sure_bind; [by apply sure_check|]. intros [[]|e]; simpl; [|apply sure_ret; intros s []; by left].
  destruct c as [snapshot|].
  2:{ apply sure_ret. intros s [Hs Hc]. right. split; [done|]. exists None, (time (world s)).
      split_and!; [done|apply within_freshness|done]. }
  eapply sure_bind; [by apply sure_tick|]. intros t. apply sure_pre. intros [Hseen Hlim].
  assert (forall v s, P s -> decided (Some snapshot) t v -> (v = CCancelled /\ hurried (trace s)) \/ (P s /\ exists c t,
    seen φ c t /\ (t <= began + freshness (cache_policy config))%Z /\ decided c t v)) as Hdone by eauto 10.
  unfold decided in Hdone at 1. destruct (classify_age (cache_policy config) snapshot t).
  - eapply sure_bind; [by apply sure_candidates|]. intros [v|]; apply sure_ret; [|intros s ?; by left].
    intros s [Hs Hv]. apply Hdone; eauto.
  - eapply sure_bind; [by apply sure_candidates|]. intros [v|]; apply sure_ret; [|intros s ?; by left].
    intros s [Hs Hv]. apply Hdone; eauto.
  - apply sure_ret. intros s Hs. by apply Hdone.
Qed.

(** A cache that holds the published keys decides for the token. *)
Lemma sure_verify_published P : steady P -> (forall s, P s -> published_at (world s)) ->
  sure P (verify_current config token alg context) (fun v s =>
    (v = CCancelled /\ hurried (trace s)) \/ (P s /\ v = CFresh (Valid caller))).
Proof.
  intros HP Hpub. eapply sure_conseq; [apply (sure_verify P (fun c T => exists s, c = Some s /\
    candidates s = published /\ (began <= acquired s <= T)%Z)); [done|]|done|].
  { intros s Hs. destruct (Hpub s Hs) as (snap & ? & ? & ?). eauto. }
  intros v s [Hv|(Hs & c & t & (T & (snap & -> & Hcs & Ha) & HT) & Hlim & Hd)]; [by left|].
  right. split; [done|]. unfold decided, classify_age, snapshot_age, checked_duration_since in Hd.
  rewrite (proj2 (Z.leb_le (acquired snap) t)) in Hd by lia.
  rewrite (proj2 (Z.leb_le (t - acquired snap) (freshness (cache_policy config)))) in Hd by lia.
  destruct Hd as (o & -> & [->|[_ Hno]]); [done|]. exfalso. rewrite Hcs in Hno.
  destruct (token_claims _ _ _ _ Htoken) as (payload & _ & _ & (c & Hin & Hv) & _). by apply (Hno c payload).
Qed.

(** The first classification observes some content of the cache. *)
Lemma sure_classify P φ : steady P -> (forall s, P s -> φ (cached (world s)) (time (world s))) ->
  sure P (classify_cache config context) (unless_cancelled (fun gc s => exists c, P s /\ observed c s /\
    gc.1 = current_generation c /\
    exists t, seen φ c t /\ (t <= began + freshness (cache_policy config))%Z /\
      gc.2 = (match c with Some snapshot => classify_age (cache_policy config) snapshot t
              | None => ColdOrExpired end))).
Proof.
  intros HP Hφ. unfold classify_cache. apply sure_check_then; [done|]. eapply sure_bind.
  { apply (sure_call _ _ P (fun o w => (forall c, o = Some c -> c = cached w) /\
      (o = None -> hurry (ECall (CacheRead None))))); [done|apply read_answers|done]. }
  intros [c|]; [|intros s [[_ [_ Hn]] Hh]; split; [done|by apply Hh, Hn]].
  set (R := fun s => (P s /\ observed c s) /\ seen φ c (time (world s))).
  assert (steady (fun s => P s /\ observed c s)) as HPo.
  { intros s w l [H1 H2] Hl Hq. split; [by apply HP|by apply steady_observed]. }
  assert (steady R) as HR by (by apply steady_seen).
  eapply sure_conseq with (P := R); [|intros s [[Hs [Hc _]] _]|intros a s H; exact H].
  2:{ specialize (Hc c eq_refl). split; [split; [done|by left]|].
      exists (time (world s)). split; [rewrite Hc; by apply Hφ|lia]. }
  eapply sure_lift; [done|]. apply sure_check_then; [done|]. destruct c as [snapshot|].
  - eapply sure_bind; [apply (sure_tick (fun s => P s /\ observed (Some snapshot) s) φ (Some snapshot) HPo)|].
    intros t. apply sure_ret. intros s [[Hseen Hlim] [Hs Ho]]. simpl. exists (Some snapshot). eauto 10.
  - apply sure_ret. intros s [[Hs Ho] Hseen]. simpl. exists None. split_and!; [done..|].
    exists (time (world s)). split_and!; [done|apply within_freshness|done].
Qed.
End Genuine.

(** ** Retrieval and refresh *)

Section Refresh.
Context (Hall : forall c, allowed c).

Lemma sure_now P : steady P -> sure P read_now (fun _ => P).
Proof.
  intros HP s Hs. unfold read_now. pose proof (later_now (world s)) as Hl.
  destruct (now (world s)) as [t w]. apply (HP _ _ [ENow t] Hs Hl), (harmless_one (ENow t) I).
Qed.

Lemma sure_deadline P timeout : steady P ->
  sure P (effective_deadline context timeout) (unless_cancelled (fun _ => P)).
Proof.
  intros HP. unfold effective_deadline. apply sure_check_then; [done|].
  eapply sure_bind; [by apply sure_now|]. intros t. destruct (_ <=? _)%Z; by apply sure_ret.
Qed.

Lemma sure_frames P c l document : steady P ->
  Forall (fun f => f = FrameOther \/ exists b, f = FrameData b) l ->
  (N.of_nat (length (document ++ mjoin (frame_data <$> l))) <= MAX_DOCUMENT_BYTES)%N ->
  sure P (read_frames context c l document)
    (unless_cancelled (fun d s => d = document ++ mjoin (frame_data <$> l) /\ P s)).
Proof.
  intros HP Hl. revert document. induction Hl as [|f l Hf Hl IH]; intros document Hsize; simpl.
  { apply sure_ret. simpl. by rewrite app_nil_r. }
  destruct Hf as [->|(b & ->)]; (apply sure_check_then; [done|]); csimpl in *; [by apply IH|].
  rewrite app_assoc in Hsize. assert (N.of_nat (length document) + N.of_nat (length b) <= MAX_DOCUMENT_BYTES)%N.
  { rewrite !length_app in Hsize. lia. }
  eapply sure_lift; [unfold checked_add; rewrite (proj2 (N.leb_le _ _)); [done|] |].
  { unfold MAX_DOCUMENT_BYTES, U64_MAX in *. lia. }
  rewrite (proj2 (N.ltb_ge MAX_DOCUMENT_BYTES _)) by done.
  eapply sure_conseq; [by apply IH|done|]. intros [d|e] s; simpl; [|done]. by rewrite app_assoc.
Qed.

Lemma sure_document P uri : steady P ->
  sure P (get_document config uri context) (unless_cancelled (fun d s => d = document uri /\ P s)).
Proof.
  intros HP. unfold get_document. apply sure_check_then; [done|].
  eapply sure_try; [by apply sure_deadline|]. intros d. eapply sure_bind.
  { apply (sure_perform _ _ P (fun a _ => exists r, a = AnswerResponse r /\ carries (document uri) r));
      [done| |done]. intros w. apply later_get. }
  intros answer s [Hs (r & -> & Hst & Hlen & Hhint & Hfr & Hdoc & Hmax)]. revert s Hs.
  apply sure_check_then; [done|]. rewrite Hst. simpl.
  assert (forall o, (forall n, o = Some n -> (n <= MAX_DOCUMENT_BYTES)%N) ->
    match o with Some n => (MAX_DOCUMENT_BYTES <? n)%N | None => false end = false) as Hok.
  { intros [n|] Hn; [|done]. apply N.ltb_ge. by apply Hn. }
  rewrite Hok by done. unfold read_document. rewrite Hok.
  2:{ revert Hlen. destruct (content_length r ≫= parse_u64); auto. }
  eapply sure_try; [apply sure_frames; [done|done|simpl; by rewrite Hdoc]|].
  intros d'. simpl. rewrite Hdoc. apply sure_pre. intros ->. apply sure_check_then; [done|].
  by apply sure_ret.
Qed.

(** Parsing a key set only checks the context. *)
Definition keeps {A} (P : Assertion) (m : M (result A AuthenticationError)) : Prop :=
  sure P m (fun r s => (r = Err Cancelled /\ hurried (trace s)) \/ (r <> Err Cancelled /\ P s)).

Lemma keeps_ret {A} P (r : result A AuthenticationError) : r <> Err Cancelled -> keeps P (eret r).
Proof. intros Hr. apply sure_ret. by right. Qed.

Lemma keeps_try {A B} P (m : M (result A AuthenticationError)) (k : A -> M (result B AuthenticationError)) :
  keeps P m -> (forall a, keeps P (k a)) -> keeps P (etry m k).
Proof.
  intros Hm Hk s Hs. unfold etry, ebind. destruct (Hm s Hs) as [He|Hs'].
  - destruct (m s) as [r s']. simpl in He. destruct He as [-> ?]. by left.
  - destruct (m s) as [[a|e] s']; destruct Hs' as [Hne Hs']; [by apply Hk|]. right. split; [|done].
    simpl in *. congruence.
Qed.

Lemma keeps_check P : steady P -> keeps P (check_context context).
Proof.
  intros HP. eapply sure_conseq; [by apply sure_check|done|].
  intros [[]|e] s; simpl; [by right|]. intros [-> ?]. by left.
Qed.

Lemma keeps_candidates P object jwk algs acc : steady P ->
  keeps P (key_candidates context object jwk algs acc).
Proof.
  intros HP. revert acc. induction algs as [|a algs IH]; intros acc; simpl; [by apply keeps_ret|].
  repeat first [by apply keeps_ret | apply IH | apply keeps_try; [by apply keeps_check|intros _] | case_match].
Qed.

Lemma keeps_keys P algs keys acc : steady P -> keeps P (all_keys context algs keys acc).
Proof.
  intros HP. revert acc. induction keys as [|v keys IH]; intros acc; simpl; [by apply keeps_ret|].
  apply keeps_try; [|intros; apply IH]. unfold one_key.
  repeat first [by apply keeps_ret | apply keeps_try; [by apply keeps_check|intros _]
    | apply keeps_try; [by apply keeps_candidates|intros ?] | case_match].
Qed.

Lemma sure_jwks P d : steady P -> jwks_result d (algorithms config) = Ok published ->
  sure P (parse_jwks d (algorithms config) context) (unless_cancelled (fun cs s => cs = published /\ P s)).
Proof.
  intros HP Hd s Hs. assert (keeps P (parse_jwks d (algorithms config) context)) as Hk.
  { unfold parse_jwks. apply keeps_try; [by apply keeps_check|intros _].
    apply keeps_try; [apply keeps_ret; by destruct (json_from_slice d)|intros v].
    apply keeps_try; [by apply keeps_check|intros _].
    apply keeps_try; [apply keeps_ret; by destruct (_ ≫= _)|intros keys].
    case_match; [by apply keeps_ret|by apply keeps_keys]. }
  destruct (parse_jwks_checks d (algorithms config) context s) as (l & _ & _ & Hr).
  specialize (Hk s Hs). rewrite Hd in Hr. destruct (parse_jwks _ _ _ s) as [r s']. simpl in *.
  destruct Hr as [->| ->]; destruct Hk as [[? ?]|[? ?]]; done.
Qed.

Lemma sure_fetch P : steady P ->
  sure P (fetch_snapshot config context) (unless_cancelled (fun snap s =>
    P s /\ candidates snap = published /\ (began <= acquired snap <= time (world s))%Z)).
Proof.
  intros HP. destruct source_published as (d & Hset & Hparse). unfold fetch_snapshot.
  eapply (sure_try _ _ _ (fun d' s => d' = d /\ P s)).
  - unfold fetch_jwks, key_set in *. destruct (source config) as [uri|uri].
    { rewrite <- Hset. by apply sure_document. }
    destruct Hset as (jwks_uri & u & Hdisc & Huri & <-).
    eapply sure_try; [by apply sure_document|]. intros b. apply sure_pre. intros ->.
    apply sure_check_then; [done|]. eapply sure_lift; [by rewrite Hdisc|]. cbn beta iota.
    rewrite bool_decide_true by done. simpl. eapply sure_lift; [by rewrite Huri|]. by apply sure_document.
  - intros d'. apply sure_pre. intros ->. apply sure_check_then; [done|].
    eapply sure_try; [by apply sure_jwks|]. intros cs. apply sure_pre. intros ->.
    apply sure_check_then; [done|]. intros s Hs. unfold ebind, read_tick, perform.
    destruct (later_tick (world s)) as [Hl Ht]. pose proof (within_freshness (world s)) as Hb.
    destruct (tick (world s)) as [t w]. simpl in *. split_and!; [|done|lia|lia].
    apply (HP _ _ [ECall (Tick t)] Hs Hl), harmless_one, Hall.
Qed.

Lemma steady_time P T : steady P -> steady (fun s => P s /\ (T <= time (world s))%Z).
Proof.
  intros HP s w l [Hs HT] Hl Hq. split; [by apply HP|]. destruct Hl as [Ht _]. simpl. lia.
Qed.

Lemma sure_install P snap : steady P -> candidates snap = published -> (began <= acquired snap)%Z ->
  sure (fun s => P s /\ (acquired snap <= time (world s))%Z) (install_snapshot context snap)
    (unless_cancelled (fun _ => refreshed_cache)).
Proof.
  intros HP%(steady_time _ (acquired snap)) Hcs Hb. unfold install_snapshot. apply sure_check_then; [done|].
  eapply sure_bind.
  { apply (sure_call _ _ _ (fun o _ => o = None -> hurry (ECall (CacheWrite None)))); [exact HP| |done].
    intros w. split; [apply later_write|]. intros Hn. split; [done|]. by exists w. }
  intros [c|]; [|intros s [[_ Hn] Hh]; split; [done|by apply Hh, Hn]].
  eapply sure_conseq with (P := fun s => P s /\ (acquired snap <= time (world s))%Z);
    [|tauto|intros a s H; exact H].
  eapply sure_lift; [done|]. apply sure_check_then; [done|].
  intros s [_ Hs]. unfold ebind, store, perform. simpl. unfold refreshed_cache. simpl.
  set (new := next_snapshot c snap). destruct (store_keeps new (world s)) as [Ht [Hc|Hc]]; [|done].
  exists new. split_and!; [done|done|done|]. simpl. lia.
Qed.

Lemma steady_either (φ : Prop) c : steady (fun s => observed c s /\ (φ \/ refreshed_cache s)).
Proof.
  intros s w l [Hs Hor] Hl Hq. split; [by apply steady_observed|].
  destruct Hor as [?|Hr]; [by left|right]. by apply steady_refreshed.
Qed.

(** A newer generation in the cache was installed by another request. *)
Lemma sure_newer c :
  sure (observed c) (newer_generation_is_currently_fresh config context (current_generation c))
    (unless_cancelled (fun (b : bool) s => if b then refreshed_cache s else observed c s)).
Proof.
  pose proof (steady_observed c) as Hobs. unfold newer_generation_is_currently_fresh.
  apply sure_check_then; [done|]. eapply sure_bind.
  { apply (sure_call _ _ _ (fun o w => (forall c', o = Some c' -> c' = cached w) /\
      (o = None -> hurry (ECall (CacheRead None))))); [exact Hobs|apply read_answers|done]. }
  intros [c'|]; [|intros s [[_ [_ Hn]] Hh]; split; [done|by apply Hh, Hn]]. pose proof (steady_either (c' = c) c) as Hor.
  eapply sure_conseq with (P := fun s => observed c s /\ (c' = c \/ refreshed_cache s));
    [|intros s [[Hs [Hc _]] _]|intros a s H; exact H].
  2:{ split; [done|]. rewrite (Hc c' eq_refl). exact Hs. }
  eapply sure_lift; [done|]. apply sure_check_then; [done|].
  eapply sure_bind; [apply (sure_perform _ _ _ (fun _ _ => True)); [exact Hor| |done]|].
  { intros w. split; [apply later_tick|done]. }
  intros t. apply sure_ret. intros s [[Hs Hc'] _]. unfold newer_and_fresh. simpl.
  destruct c' as [snap|]; [|done]. destruct (N.eqb_spec (generation snap) (current_generation c)); [done|].
  simpl. destruct Hc' as [<-|Hr]; [done|]. destruct (snapshot_age snap t); [|done]. by case_match.
Qed.

(** A refresh of an observed cache leaves the published keys in it: its own, or
    those another request installed meanwhile. *)
Lemma sure_refresh_guarded c :
  sure (observed c) (refresh_guarded config context (current_generation c))
    (unless_cancelled (fun _ => refreshed_cache)).
Proof.
  pose proof (steady_observed c) as Hobs. unfold refresh_guarded. apply sure_check_then; [done|].
  eapply sure_try; [apply sure_newer|]. intros [|]; [by apply sure_ret|].
  eapply sure_bind; [by apply sure_fetch|]. intros [snap|e].
  - intros s (Hs & Hcs & Hb & Ht). by apply (sure_install (observed c)).
  - intros s [-> ?]. done.
Qed.

Lemma sure_refresh c :
  sure (observed c) (refresh config context (current_generation c)) (unless_cancelled (fun _ => refreshed_cache)).
Proof.
  pose proof (steady_observed c) as Hobs. unfold refresh. apply sure_check_then; [done|].
  eapply sure_bind.
  { apply (sure_call _ _ _ (fun b _ => b = false -> hurry (ECall (RefreshLock false)))); [exact Hobs| |done].
    intros w. split; [apply later_lock|]. intros Hb. split; [done|]. by exists w. }
  intros [] s [[Hs Hb] Hh]; [|split; [done|by apply Hh, Hb]]. clear Hb Hh. revert s Hs. eapply sure_lift; [done|].
  eapply sure_bind; [apply sure_refresh_guarded|]. intros [[]|e].
  - apply (sure_bind _ _ _ (fun _ => refreshed_cache)); [|intros []; by apply sure_ret].
    eapply sure_conseq; [apply (sure_perform _ _ _ (fun _ _ => True)); [apply steady_refreshed| |done]|done|
      by intros [] s [Hs _]].
    intros w. split; [apply later_unlock|done].
  - intros s [-> Hh]. split; [done|]. unfold ebind, drop_guard, perform. simpl. by apply hurried_app.
Qed.
End Refresh.
End Trust.

(** ** Properties *)

Section Properties.
Context `{Deps : AuthDeps} {W : Type} `{!AuthWorld W, !SourceView W} (config : Config).
Context `{Source : !TrustedSource config W}.
Context (token : string) (alg : JwtAlgorithm) (caller : AuthenticatedTechnicalCaller).
Context (Htoken : genuine W config token alg caller).
Abbreviation any := (fun _ : AuthCall => True).

(** Accepted, unless cancelled. *)
Definition accepted_or_cancelled (context : SynchronizationContext) (r : AuthResult) (s : Tr W AuthCall)
  : Prop :=
  r = Ok caller \/ (r = Err Cancelled /\ hurried (W := W) context (trace s)).

Section Attempt.
Context (context : SynchronizationContext) (c : option Snapshot).

Lemma sure_verify_refreshed :
  sure refreshed_cache (let* v := verify_current config token alg context in
    eret (refreshed_verification_result v)) (accepted_or_cancelled context).
Proof.
  eapply sure_bind; [apply (sure_verify_published config any context token alg caller Htoken);
    [done|done|done|apply steady_refreshed|by intros s]|].
  intros v s [[-> ?]|[_ ->]]; [by right|by left].
Qed.

Lemma sure_refresh_then_verify :
  sure (observed c) (refresh_then_verify_fresh config token alg context (current_generation c))
    (accepted_or_cancelled context).
Proof.
  unfold refresh_then_verify_fresh. eapply sure_bind; [by apply (sure_refresh config any context)|].
  intros [[]|e]; [apply sure_verify_refreshed|]. intros s [-> ?]. by right.
Qed.

Lemma sure_refresh_or_stale :
  sure (observed c) (refresh_or_stale_fallback config token alg context (current_generation c))
    (accepted_or_cancelled context).
Proof.
  unfold refresh_or_stale_fallback. eapply sure_bind; [by apply (sure_refresh config any context)|].
  intros [[]|e]; [apply sure_verify_refreshed|]. intros s [-> ?]. by right.
Qed.

Lemma sure_refresh_after_invalid :
  sure (observed c) (refresh_after_proven_signature_invalid config token alg context (current_generation c))
    (accepted_or_cancelled context).
Proof.
  unfold refresh_after_proven_signature_invalid. eapply sure_bind; [by apply (sure_refresh config any context)|].
  intros [[]|e]; [apply sure_verify_refreshed|]. intros s [-> ?]. by right.
Qed.
End Attempt.

(** The parts of an attempt before the cache is consulted. *)
Lemma sure_preflight request P (k : string -> JwtAlgorithm -> Eff (Tr W AuthCall) AuthResult) Q ok :
  raw_compact_token request = Some token -> steady ok P ->
  sure P (k token alg) (unless_cancelled (auth_context request) Q) ->
  sure P (let! _ := check_context (auth_context request) in
    let! token := elift (ok_or (raw_compact_token request) Rejected) in
    if (MAX_TOKEN_BYTES <? N.of_nat (byte_len token))%N then eret (Err Rejected) else
    let! _ := check_context (auth_context request) in
    let! algorithm := elift (preflight_header token (algorithms config)) in
    let! _ := check_context (auth_context request) in
    k token algorithm) (unless_cancelled (auth_context request) Q).
Proof.
  intros Hraw HP Hk. destruct Htoken as [Hsize Hpre _ _].
  apply (sure_check_then config ok (auth_context request)); [exact HP|]. eapply sure_lift; [by rewrite Hraw|].
  rewrite (proj2 (N.ltb_ge _ _)) by done. apply (sure_check_then config ok (auth_context request)); [exact HP|].
  eapply sure_lift; [exact Hpre|]. by apply (sure_check_then config ok (auth_context request)).
Qed.

(** The decision on an observed, seemingly fresh cache. *)
Lemma sure_fresh_branch context c :
  sure (observed c) (let* v := verify_current config token alg context in
    match v with
    | CCancelled => eret (Err Cancelled)
    | CStale VRejected => eret (Err Rejected)
    | CStale VUnavailable => eret (Err VerifierUnavailable)
    | CStale SignatureInvalid =>
        refresh_after_proven_signature_invalid config token alg context (current_generation c)
    | CStale _ => refresh_or_stale_fallback config token alg context (current_generation c)
    | CColdOrExpired => refresh_then_verify_fresh config token alg context (current_generation c)
    | CFresh (Valid caller) => eret (Ok caller)
    | CFresh VRejected => eret (Err Rejected)
    | CFresh VForbidden => eret (Err Forbidden)
    | CFresh VUnavailable => eret (Err VerifierUnavailable)
    | CFresh NoCandidate => refresh_then_verify_fresh config token alg context (current_generation c)
    | CFresh SignatureInvalid =>
        refresh_after_proven_signature_invalid config token alg context (current_generation c)
    end) (accepted_or_cancelled context).
Proof.
  eapply sure_bind; [apply (sure_verify config any context token alg caller Htoken)
    with (P := observed c) (φ := fun _ _ => True); [done|done|done|apply steady_observed|done]|].
  intros v s [[-> ?]|(Hs & c' & t & _ & _ & Hd)]; [by right|]. unfold decided in Hd.
  assert (v = CColdOrExpired \/ exists o cs, (v = CFresh o \/ v = CStale o) /\
    tried token alg caller cs o) as [->|(o & cs & Hv & Ht)].
  { destruct c' as [snap|]; [|by left]. destruct (classify_age _ _ _); [right|right|by left];
      destruct Hd as (o & -> & Ht); eauto 10. }
  { by apply sure_refresh_then_verify. }
  destruct Ht as [->|[[->| ->] _]]; destruct Hv as [->| ->]; first
    [ by left | by apply sure_refresh_or_stale | by apply sure_refresh_after_invalid
    | by apply sure_refresh_then_verify ].
Qed.

Lemma sure_authenticate request : raw_compact_token request = Some token ->
  sure (St := Tr W AuthCall) (fun _ => True) (authenticate config request)
    (accepted_or_cancelled (auth_context request)).
Proof.
  intros Hraw. assert (steady (W := W) any (fun _ => True)) as HT by done.
  eapply sure_conseq with (P := fun _ => True) 
    (Q := unless_cancelled (auth_context request) (fun a _ => a = caller)); [|done|].
  2:{ intros [a|e] s; simpl; [intros ->; by left|intros [-> ?]; by right]. }
  unfold authenticate. cbv zeta. eapply sure_preflight; [done|exact HT|].
  eapply sure_try.
  { by apply (sure_classify config any (auth_context request)) with (φ := fun _ _ => True). }
  intros [g cl] s (c & _ & Hobs & Hg & _). simpl in Hg. subst g.
  assert (forall r s', accepted_or_cancelled (auth_context request) r s' ->
    unless_cancelled (auth_context request) (fun a _ => a = caller) r s') as Hr.
  { intros r s' [->|[-> ?]]; done. }
  destruct cl; apply Hr.
  - by apply sure_fresh_branch.
  - by apply sure_refresh_or_stale.
  - by apply sure_refresh_then_verify.
Qed.

(** Calls that neither refresh nor retrieve. *)
Definition quiet_call (c : AuthCall) : Prop := spends 0 0 0 [c].

Definition published_quietly (s : Tr W AuthCall) : Prop :=
  published_at (world s) /\ spends 0 0 0 (calls (trace s)).

Lemma steady_quietly : steady quiet_call published_quietly.
Proof.
  intros s w l [Hp Hs] Hl Hq. split; [by eapply published_later|]. simpl. rewrite calls_app.
  apply (spends_app 0 0 0 0 0 0); [done|]. clear Hs. induction Hq as [|e l He _ IH]; [apply spends_nil|].
  destruct e as [t|b|c]; [exact IH|exact IH|]. exact (spends_app 0 0 0 0 0 0 [c] _ He IH).
Qed.

Lemma sure_cached request : raw_compact_token request = Some token ->
  sure published_quietly (authenticate config request)
    (unless_cancelled (auth_context request) (fun a s => a = caller /\ spends 0 0 0 (calls (trace s)))).
Proof.
  intros Hraw. pose proof steady_quietly as HP.
  assert (forall c, is_lock c = false -> is_get c = false -> is_store c = false -> quiet_call c) as Hq.
  { intros c H1 H2 H3. unfold quiet_call, spends, count. simpl. by rewrite H1, H2, H3. }
  unfold authenticate. cbv zeta. eapply sure_preflight; [done|exact HP|].
  eapply sure_try.
  { apply (sure_classify config quiet_call (auth_context request)) with (φ := fun c T => exists s,
      c = Some s /\ (began <= acquired s <= T)%Z); [intros; by apply Hq..|exact HP|].
    intros s [(snap & Hc & _ & Ha) _]. eauto. }
  intros [g cl] s (c & Hs & _ & _ & t & (T & (snap & -> & Ha) & HT) & Hlim & Hcl). simpl in Hcl.
  assert (cl = Fresh) as ->.
  { subst cl. unfold classify_age, snapshot_age, checked_duration_since.
    rewrite (proj2 (Z.leb_le (acquired snap) t)) by lia.
    by rewrite (proj2 (Z.leb_le (t - acquired snap) (freshness (cache_policy config)))) by lia. }
  clear Hcl. revert s Hs. eapply sure_bind.
  { apply (sure_verify_published config quiet_call (auth_context request) token alg caller Htoken);
      [intros; by apply Hq..|exact HP|by intros s [? _]]. }
  intros v s [[-> ?]|[[_ Hs] ->]]; done.
Qed.

(** C5: take an identity provider that serves its documents and an attempt that takes
    at most one freshness period, during which other requests replace the cache, if at
    all, by the published keys, acquired since the attempt began.  A genuine token is one
    within the size limit, whose header names a configured algorithm and neither [crit]
    nor [b64], which a published key verifies, with one payload for all keys, and whose
    claims are valid whenever the wall clock is read.  It is accepted for exactly its
    caller, whatever the cache held before: nothing, an expired or stale set, or a fresh
    one without the key.  Otherwise the request is cancelled, and then this very attempt
    saw that its caller gave up, read a time past its deadline, or was refused a lock in
    time. *)
Theorem genuine_token_accepted (request : AuthenticationRequest) (w : W) :
  raw_compact_token request = Some token ->
  let '(r, s) := authenticate config request (mkTr w []) in
  r = Ok caller \/ (r = Err Cancelled /\ hurried (W := W) (auth_context request) (trace s)).
Proof.
  intros Hraw. pose proof (sure_authenticate request Hraw (mkTr w []) I) as H.
  by destruct (authenticate config request _).
Qed.

(** C13: take an identity provider that serves its documents and an attempt that takes
    at most one freshness period, during which other requests replace the cache, if at
    all, by the published keys, acquired since the attempt began.  When the cache holds
    the published keys, acquired since the attempt began as well, so that they stay fresh
    for as long as it takes, a genuine token (within the size limit, with an acceptable
    header, verified by a published key, with valid claims) is accepted without a
    refresh, a retrieval or a cache replacement.  Otherwise the request is cancelled, and
    then this very attempt saw that its caller gave up, read a time past its deadline, or
    was refused a lock in time. *)
Theorem cached_keys_suffice (request : AuthenticationRequest) (w : W) :
  raw_compact_token request = Some token -> published_at w ->
  let '(r, s) := authenticate config request (mkTr w []) in
  (r = Ok caller /\ spends 0 0 0 (calls (trace s))) \/
  (r = Err Cancelled /\ hurried (W := W) (auth_context request) (trace s)).
Proof.
  intros Hraw Hp. pose proof (sure_cached request Hraw (mkTr w []) (conj Hp (spends_nil 0 0 0))) as H.
  destruct (authenticate config request _) as [[a|e] s]; [left|right].
  - by destruct H as [-> ?].
  - by destruct H as [-> ?].
Qed.
End Properties.

(** ** A rotated key

    The cache is fresh but holds only the provider's previous key, with which the
    token does not verify; the provider now publishes another one. *)
Module Sample.
Definition key_set_document : Value := VObject [("keys", VArray [VObject
  [("kty", VString "RSA"); ("alg", VString "RS256"); ("n", VString "AQAB"); ("e", VString "AQAB")]])].
Definition claims : Object :=
  [("iss", VString "https://idp"); ("aud", VString "permissionsync"); ("exp", VNumber (PosInt 2000));
   ("iat", VNumber (PosInt 900)); ("client_id", VString "keycloak");
   ("scope", VString "openid permissionsync:glpi")].

(** A verifier is the key's name. *)
#[local] Instance deps : AuthDeps := {|
  Uri := string; uri_parse := Some; uri_scheme := fun _ => Some "https";
  uri_host := fun _ => Some "idp"; uri_authority := fun _ => Some "idp";
  stack_from_pem := fun _ => Some 1; tls_build := fun _ => true;
  json_from_slice := fun b =>
    Some (if bool_decide (b = as_bytes "keys") then key_set_document else VObject claims);
  json_to_vec := fun _ => Some []; discovery_from_slice := fun _ => None;
  Header := unit; decode_jws_header := fun _ => Some tt; header_claim := fun _ _ => None;
  header_algorithm := fun _ => Some "RS256"; header_key_id := fun _ => None;
  Jwk := unit; jwk_from_bytes := fun _ => Some tt;
  Verifier := string; verifier_from_jwk := fun _ _ => Some "new";
  compact_header := fun _ => Some tt;
  compact_verify := fun _ v => if bool_decide (v = "new") then Some [] else None;
|}.

Definition key (name : string) : Candidate := mkCandidate (H := deps) None RS256 name name.
Definition rotated : option Snapshot := Some (mkSnapshot (H := deps) [key "old"] 0 7).

#[local] Instance clock : Clock (option Snapshot) :=
  {| now := fun w => (0%Z, w); is_cancelled := fun w => (false, w) |}.
#[local] Instance environment : AuthWorld (option Snapshot) := {|
  tick := fun w => (5%Z, w);
  unix_seconds := fun w => (Some (f64_of_Z 1000), w);
  cache_read := fun _ w => (Some w, w);
  cache_write := fun _ w => (Some w, w);
  cache_store := fun s _ => Some s;
  refresh_lock := fun _ w => (true, w); refresh_unlock := fun w => w;
  metadata_get := fun _ _ w =>
    (AnswerResponse (mkMetadataResponse 200 None None [FrameData (as_bytes "keys")]), w);
|}.
#[local] Instance view : SourceView (option Snapshot) :=
  {| cached := id; time := fun _ => 5%Z; began := 0%Z; document := fun _ => as_bytes "keys";
     published := [key "new"] |}.

Definition config : Config :=
  mkConfig (H := deps) "https://idp" "permissionsync" (Direct (H := deps) "https://idp/jwks") [RS256] 10
    (mkPolicy 60 60) 0.
Definition request : AuthenticationRequest := mkAuthRequest (Some "token") (mkContext 100).
Definition caller : AuthenticatedTechnicalCaller :=
  mkCaller "keycloak" (mkBearerToken "token") (Selected (mkLogicalTarget "glpi")).

#[local] Instance trusted : TrustedSource config (option Snapshot).
Proof.
  constructor; try (intros; split; [done|by left]).
  - intros w. split; [split; [done|by left]|done].
  - intros d w. split; [split; [done|by left]|]. by intros c [= <-].
  - intros uri d w. split; [split; [done|by left]|]. eexists. split; [reflexivity|].
    split_and!; [done|done|done|constructor; [right; by eexists|done]|done|done].
  - done.
  - exists (as_bytes "keys"). split; [done|]. vm_compute. reflexivity.
Qed.

Lemma token_genuine : genuine (option Snapshot) config "token" RS256 caller.
Proof.
  constructor; [done|done|by exists tt|].
  eexists [], claims, _. split_and!.
  - exists (key "new"). split; [set_solver|]. exists tt, "new". done.
  - intros v p. simpl. case_bool_decide; [by intros [= <-]|done].
  - split; [done|]. apply shapes_exact. vm_compute. reflexivity.
  - intros w. eexists. split; [reflexivity|]. split; [split; [done|apply shapes_exact; vm_compute; reflexivity]|].
    apply in_force_exact. vm_compute. reflexivity.
  - vm_compute. reflexivity.
  - reflexivity.
  - reflexivity.
Qed.

Lemma genuine_token_accepted_witness :
  (authenticate config request (mkTr rotated [])).1 = Ok caller.
Proof.
  pose proof (genuine_token_accepted config "token" RS256 caller token_genuine request rotated eq_refl) as H.
  assert (is_ok (authenticate config request (mkTr rotated [])).1 = true) as Hok by (vm_compute; reflexivity).
  destruct (authenticate config request (mkTr rotated [])) as [r s]. simpl in *.
  destruct H as [Hr|[Hr _]]; [exact Hr|]. rewrite Hr in Hok. discriminate Hok.
Defined.

Lemma cached_keys_suffice_witness :
  let w := Some (mkSnapshot (H := deps) [key "new"] 3 8) in
  let '(r, s) := authenticate config request (mkTr w []) in
  r = Ok caller /\ spends 0 0 0 (calls (trace s)).
Proof.
  set (w := Some (mkSnapshot (H := deps) [key "new"] 3 8)). cbv zeta.
  assert (published_at w) as Hp by (eexists; split; [reflexivity|]; split; [reflexivity|done]).
  pose proof (cached_keys_suffice config "token" RS256 caller token_genuine request w eq_refl Hp) as H.
  assert ((authenticate config request (mkTr w [])).1 = Ok caller) as Hr by (vm_compute; reflexivity).
  destruct (authenticate config request (mkTr w [])) as [r s]. simpl in Hr. subst r.
  destruct H as [H|[H _]]; [exact H|discriminate H].
Defined.
End Sample.
