(* ===== verification/AuthRefresh.v ===== *)
(** * [permissionsync-auth]: concurrent refreshes

    [AuthCache] follows one request through a world that may change between its
    steps.  Here many requests refresh the one cache of [authenticator.rs] at the
    same time: every request observes a generation ([classify_cache]), waits for
    the refresh mutex, consults the cache, retrieves and installs, one shared
    operation per step, interleaved with the others, with cancellations and with
    the clock. *)
From S2P Require Import Prelude Core AuthBase AuthCache.

Section System.
Context `{Deps : AuthDeps} (policy : VerificationCachePolicy).

(** Where one request is, named by the operation it does next. *)
Inductive RefreshPhase : Type :=
| Observing                     (** reads the generation it will act on *)
| AwaitingLock (seen : N)       (** [self.inner.refresh.lock()] *)
| Consulting (seen : N)         (** holds the guard; [newer_generation_is_currently_fresh] *)
| Fetching (seen : N)           (** holds the guard; [fetch_snapshot] *)
| Installing (seen : N) (s : Snapshot)  (** holds the guard; [install_snapshot] *)
| Releasing (seen : N) (r : result unit AuthenticationError)  (** holds the guard; [drop(guard)] *)
| Returned (seen : N) (r : result unit AuthenticationError).

(** [Inner]: the cache, the mutex's holder and the clock, with the requests and,
    for the statements below, the generations whose observers installed. *)
Record Shared : Type := mkShared {
  cache : option Snapshot;
  guard : option N;
  moment : Z;
  requests : gmap N RefreshPhase;
  installers : list N;
}.

(** No request yet over cache content [c]; the authenticator starts as
    [quiescent None]. *)
Definition quiescent (c : option Snapshot) (t : Z) : Shared := mkShared c None t ∅ [].

Definition holding (p : RefreshPhase) : bool :=
  match p with Consulting _ | Fetching _ | Installing _ _ | Releasing _ _ => true | _ => false end.
Definition seen_of (p : RefreshPhase) : option N :=
  match p with
  | Observing => None
  | AwaitingLock g | Consulting g | Fetching g | Installing g _ | Releasing g _ | Returned g _ => Some g
  end.

Definition move (i : N) (p : RefreshPhase) (s : Shared) : Shared :=
  mkShared (cache s) (guard s) (moment s) (<[i := p]> (requests s)) (installers s).
Definition set_guard (g : option N) (s : Shared) : Shared :=
  mkShared (cache s) g (moment s) (requests s) (installers s).

(** The guard is dropped when its holder returns. *)
Definition return_from (i : N) (p : RefreshPhase) (seen : N) (r : result unit AuthenticationError) (s : Shared)
  : Shared :=
  let s := move i (Returned seen r) s in if holding p then set_guard None s else s.

(** [install_snapshot] under the write guard. *)
Definition install (seen : N) (snapshot : Snapshot) (s : Shared) : Shared :=
  mkShared (Some (next_snapshot (cache s) snapshot)) (guard s) (moment s) (requests s) (seen :: installers s).

(** The next operation of request [i]; [fetched] is what its retrieval gives. *)
Definition advance (i : N) (p : RefreshPhase) (fetched : result (list Candidate) AuthenticationError) (s : Shared)
  : option Shared :=
  match p with
  | Observing => Some (move i (AwaitingLock (current_generation (cache s))) s)
  | AwaitingLock seen =>
      match guard s with
      | Some _ => None
      | None => Some (set_guard (Some i) (move i (Consulting seen) s))
      end
  | Consulting seen =>
      if newer_and_fresh policy (cache s) seen (moment s)
      then Some (move i (Releasing seen (Ok tt)) s)
      else Some (move i (Fetching seen) s)
  | Fetching seen =>
      match fetched with
      | Ok cs => Some (move i (Installing seen (mkSnapshot cs (moment s) 0)) s)
      | Err Cancelled => Some (move i (Releasing seen (Err Cancelled)) s)
      | Err _ => Some (move i (Releasing seen (Err VerifierUnavailable)) s)
      end
  | Installing seen snapshot => Some (move i (Releasing seen (Ok tt)) (install seen snapshot s))
  | Releasing seen r => Some (return_from i p seen r s)
  | Returned _ _ => None
  end.

(** A request arrives; a request advances; a request is cancelled, waiting or
    holding the guard; time passes. *)
Inductive step (s : Shared) : Shared -> Prop :=
| step_arrive i : requests s !! i = None -> step s (move i Observing s)
| step_advance i p fetched s' : requests s !! i = Some p -> advance i p fetched s = Some s' -> step s s'
| step_cancel i p seen : requests s !! i = Some p -> seen_of p = Some seen ->
    (forall r, p <> Returned seen r) -> step s (return_from i p seen (Err Cancelled) s)
| step_time t : (moment s <= t)%Z ->
    step s (mkShared (cache s) (guard s) t (requests s) (installers s)).

Inductive reachable (start : Shared) : Shared -> Prop :=
| reachable_start : reachable start start
| reachable_step s s' : reachable start s -> step s s' -> reachable start s'.
End System.

(** ** Invariant *)

Section Invariant.
Context `{Deps : AuthDeps} (policy : VerificationCachePolicy) (start : Z).
Abbreviation generation_now s := (current_generation (cache s)).

(** The run stays within one freshness period and below the last generation. *)
Definition brief (s : Shared) : Prop :=
  (moment s <= start + freshness policy)%Z /\ (generation_now s < U64_MAX)%N.

(** [seen] is no longer the current generation. *)
Definition superseded (seen : N) (s : Shared) : Prop :=
  (seen < generation_now s)%N \/ generation_now s = U64_MAX.

Definition phase_ok (s : Shared) (i : N) (p : RefreshPhase) : Prop :=
  (holding p = true -> guard s = Some i) /\
  (forall seen, seen_of p = Some seen -> (seen <= generation_now s)%N) /\
  match p with
  | Fetching seen => brief s -> seen ∉ installers s
  | Installing seen snapshot =>
      (brief s -> seen ∉ installers s) /\ (start <= acquired snapshot <= moment s)%Z
  | Releasing seen (Ok _) | Returned seen (Ok _) => superseded seen s
  | _ => True
  end.

Record invariant (s : Shared) : Prop := mkInvariant {
  inv_phases : forall i p, requests s !! i = Some p -> phase_ok s i p;
  inv_guard : forall i, guard s = Some i -> exists p, requests s !! i = Some p /\ holding p = true;
  inv_generation : (generation_now s <= U64_MAX)%N;
  inv_time : (start <= moment s)%Z;
  inv_installers : forall seen, seen ∈ installers s -> exists snapshot, cache s = Some snapshot /\
    superseded seen s /\ (start <= acquired snapshot <= moment s)%Z;
  inv_single : brief s -> NoDup (installers s);
}.

Lemma superseded_install seen seen' snapshot s : (generation_now s <= U64_MAX)%N ->
  superseded seen s -> superseded seen (install seen' snapshot s).
Proof. unfold superseded, install, next_snapshot, saturating_add. simpl. lia. Qed.

(** A request moves while cache, clock and installers stay as they are. *)
Lemma invariant_move s i p g : invariant s ->
  phase_ok (set_guard g (move i p s)) i p ->
  (forall j q, j <> i -> requests s !! j = Some q -> holding q = true -> g = Some j) ->
  (forall j, g = Some j -> exists q, <[i := p]> (requests s) !! j = Some q /\ holding q = true) ->
  invariant (set_guard g (move i p s)).
Proof.
  intros [Hp Hg Hgen Ht Hi Hs] Hok Hothers Hguard. constructor; simpl; try done.
  intros j q Hq. destruct (decide (j = i)) as [->|Hne].
  - rewrite lookup_insert_eq in Hq. by injection Hq as <-.
  - rewrite lookup_insert_ne in Hq by done. destruct (Hp j q Hq) as (_ & H2 & H3).
    split; [|split; [exact H2|exact H3]]. simpl. intros Hh. by apply (Hothers j q).
Qed.

(** The holder of the guard is the only one in the critical section. *)
Lemma only_holder s i j p q : invariant s -> requests s !! i = Some p -> requests s !! j = Some q ->
  holding p = true -> holding q = true -> i = j.
Proof.
  intros Hinv Hi Hj Hp Hq. apply (inv_phases s Hinv) in Hi as [Hi _], Hj as [Hj _].
  rewrite Hi in Hj by done. specialize (Hj Hq). congruence.
Qed.

Lemma set_guard_same s : set_guard (guard s) s = s.
Proof. by destruct s. Qed.

(** A request that returns drops the guard if it held it. *)
Lemma invariant_return s i p seen r : invariant s -> requests s !! i = Some p ->
  seen_of p = Some seen -> (is_ok r = true -> superseded seen s) ->
  invariant (return_from i p seen r s).
Proof.
  intros Hinv Hi Hseen Hr. pose proof (inv_phases s Hinv i p Hi) as (Hhold & Hle & _).
  assert (forall g, phase_ok (set_guard g (move i (Returned seen r) s)) i (Returned seen r)) as Hok.
  { intros g. split; [done|]. split; [intros g' [= <-]; by apply Hle|]. destruct r; [by apply Hr|done]. }
  unfold return_from. destruct (holding p) eqn:Hp.
  - apply invariant_move; [done|apply Hok| |done]. intros j q Hne Hj Hq. destruct Hne.
    symmetry. by eapply only_holder.
  - rewrite <- (set_guard_same (move i _ s)). apply invariant_move; [done|apply Hok| |]; simpl.
    + intros j q _ Hj Hq. by apply (inv_phases s Hinv j q Hj).
    + intros j Hj. destruct (inv_guard s Hinv j Hj) as (q & Hq & Hh). exists q. split; [|done].
      rewrite lookup_insert_ne; [done|]. intros ->. congruence.
Qed.

(** A step that keeps its place: neither takes nor gives the guard. *)
Lemma invariant_stay s i p p' : invariant s -> requests s !! i = p ->
  holding p' = match p with Some q => holding q | None => false end ->
  phase_ok (move i p' s) i p' -> invariant (move i p' s).
Proof.
  intros Hinv Hi Hh Hok. rewrite <- (set_guard_same (move i p' s)).
  apply invariant_move; [done|by rewrite set_guard_same|..]; simpl.
  - intros j q _ Hj Hq. by apply (inv_phases s Hinv j q Hj).
  - intros j Hj. destruct (inv_guard s Hinv j Hj) as (q & Hq & Hhq).
    destruct (decide (j = i)) as [->|Hne].
    + exists p'. rewrite lookup_insert_eq. split; [done|]. rewrite Hh, <- Hi, Hq. done.
    + exists q. by rewrite lookup_insert_ne.
Qed.

Lemma brief_install seen snapshot s : (generation_now s <= U64_MAX)%N ->
  brief (install seen snapshot s) -> brief s.
Proof. unfold brief, install, next_snapshot, saturating_add. simpl. lia. Qed.

(** The holder installs what it retrieved. *)
Lemma invariant_install s i seen snapshot : invariant s ->
  requests s !! i = Some (Installing seen snapshot) ->
  invariant (move i (Releasing seen (Ok tt)) (install seen snapshot s)).
Proof.
  intros Hinv Hi. pose proof Hinv as [Hp Hg Hgen Ht Hin Hs].
  destruct (Hp i _ Hi) as (_ & Hle & Hnew & Hacq). specialize (Hle seen eq_refl).
  assert (superseded seen (install seen snapshot s)) as Hsup.
  { unfold superseded, install, next_snapshot, saturating_add. simpl. lia. }
  destruct (Hp i _ Hi) as (Hguard & _). specialize (Hguard eq_refl). constructor; simpl.
  - intros j q Hq. destruct (decide (j = i)) as [->|Hne].
    { rewrite lookup_insert_eq in Hq. injection Hq as <-. split; [done|].
      split; [|exact Hsup]. intros g [= <-]. simpl. unfold saturating_add. lia. }
    rewrite lookup_insert_ne in Hq by done.
    assert (holding q = false) as Hq'.
    { destruct (holding q) eqn:E; [|done]. destruct Hne. symmetry. by eapply only_holder. }
    destruct (Hp j q Hq) as (_ & H2 & H3). split; [by rewrite Hq'|]. split.
    + intros g Hg'. specialize (H2 g Hg'). simpl. unfold saturating_add. lia.
    + destruct q as [| | | | |g []|g []]; try done; by apply superseded_install.
  - intros j Hj. exists (Releasing seen (Ok tt)). rewrite Hguard in Hj. injection Hj as <-.
    by rewrite lookup_insert_eq.
  - unfold saturating_add. lia.
  - done.
  - intros g [->|Hg']%elem_of_cons; eexists; (split; [done|]); simpl; (split; [|done]); [done|].
    destruct (Hin g Hg') as (snap & _ & Hg2 & _). by apply superseded_install.
  - intros Hb. change (brief (install seen snapshot s)) in Hb. apply brief_install in Hb; [|done].
    apply NoDup_cons. split; [by apply Hnew|by apply Hs].
Qed.

(** A consultation that finds nothing newer and fresh finds no installer either. *)
Lemma consult_not_installed s seen : invariant s ->
  newer_and_fresh policy (cache s) seen (moment s) = false -> brief s -> seen ∉ installers s.
Proof.
  intros Hinv Hfresh [Hb1 Hb2] Hin.
  destruct (inv_installers s Hinv seen Hin) as (snap & Hc & Hsup & Ha).
  unfold superseded in Hsup. rewrite Hc in *. simpl in *.
  destruct (N.eqb_spec (generation snap) seen) as [|Hne]; [lia|]. simpl in Hfresh.
  unfold snapshot_age, checked_duration_since in Hfresh.
  rewrite (proj2 (Z.leb_le (acquired snap) (moment s))) in Hfresh by lia.
  apply Z.leb_gt in Hfresh. lia.
Qed.

Lemma fresh_superseded s seen : invariant s -> (seen <= generation_now s)%N ->
  newer_and_fresh policy (cache s) seen (moment s) = true -> superseded seen s.
Proof.
  intros Hinv Hle Hf. unfold superseded. destruct (cache s) as [snap|]; [|done]. simpl in *.
  apply andb_true_iff in Hf as [Hne _]. apply negb_true_iff, N.eqb_neq in Hne. lia.
Qed.

Lemma invariant_advance s s' i p fetched : invariant s -> requests s !! i = Some p ->
  advance policy i p fetched s = Some s' -> invariant s'.
Proof.
  intros Hinv Hi Hadv. pose proof (inv_phases s Hinv i p Hi) as (Hhold & Hle & Hph).
  destruct p as [|seen|seen|seen|seen snap|seen r|seen r]; simpl in Hadv; [| | | | | |done].
  - injection Hadv as <-. apply (invariant_stay _ _ _ _ Hinv Hi); [done|].
    split; [done|]. split; [|done]. by intros g [= <-].
  - destruct (guard s) eqn:Hg; [done|]. injection Hadv as <-. apply invariant_move; [done|..].
    + split; [done|]. split; [|done]. intros g [= <-]. by apply Hle.
    + intros j q _ Hj Hq. apply (inv_phases s Hinv) in Hj as [Hj _]. specialize (Hj Hq). congruence.
    + intros j [= <-]. exists (Consulting seen). by rewrite lookup_insert_eq.
  - destruct (newer_and_fresh policy (cache s) seen (moment s)) eqn:Hf; injection Hadv as <-.
    + apply (invariant_stay _ _ _ _ Hinv Hi); [done|]. split; [done|]. split; [done|].
      exact (fresh_superseded s seen Hinv (Hle seen eq_refl) Hf).
    + apply (invariant_stay _ _ _ _ Hinv Hi); [done|]. split; [done|]. split; [done|].
      exact (consult_not_installed s seen Hinv Hf).
  - destruct fetched as [cs|[]]; injection Hadv as <-; (apply (invariant_stay _ _ _ _ Hinv Hi); [done|]; split; [done|]; split; [done|]);
      [|done..].
    split; [done|]. simpl. pose proof (inv_time s Hinv). lia.
  - injection Hadv as <-. by apply invariant_install.
  - injection Hadv as <-. apply invariant_return; [done|done|done|]. by destruct r.
Qed.

Lemma invariant_time s t : invariant s -> (moment s <= t)%Z ->
  invariant (mkShared (cache s) (guard s) t (requests s) (installers s)).
Proof.
  intros [Hp Hg Hgen Ht Hi Hs] Hle.
  assert (brief (mkShared (cache s) (guard s) t (requests s) (installers s)) -> brief s) as Hb.
  { intros [H1 H2]. split; simpl in *; [lia|done]. }
  constructor; simpl; try done; [|lia| |auto].
  - intros i p Hq. destruct (Hp i p Hq) as (H1 & H2 & H3). split; [done|]. split; [done|].
    destruct p as [| | | |g snap|g []|g []]; try done; [auto|]. destruct H3 as [H3 ?]. simpl. split; [auto|lia].
  - intros g Hg'. destruct (Hi g Hg') as (snap & ? & ? & ?). exists snap. split_and!; [done..|lia|lia].
Qed.

Lemma invariant_step s s' : invariant s -> step policy s s' -> invariant s'.
Proof.
  intros Hinv [i Hi|i p fetched s1 Hi Hadv|i p seen Hi Hseen _|t Ht].
  - apply (invariant_stay _ _ _ _ Hinv Hi); [done|]. split; [done|]. by split.
  - by eapply invariant_advance.
  - by eapply invariant_return.
  - by apply invariant_time.
Qed.
End Invariant.

(** ** Properties *)

Section Properties.
Context `{Deps : AuthDeps} (policy : VerificationCachePolicy).

Lemma quiescent_invariant c t : (current_generation c <= U64_MAX)%N -> invariant policy t (quiescent c t).
Proof. intros Hc. constructor; simpl; try done; [set_solver|by intros _; constructor]. Qed.

Lemma reachable_invariant c t s : (current_generation c <= U64_MAX)%N ->
  reachable policy (quiescent c t) s -> invariant policy t s.
Proof.
  intros Hc. induction 1 as [|s s' _ IH Hstep]; [by apply quiescent_invariant|]. by eapply invariant_step.
Qed.

(** Requests that can do their next operation now. *)
Definition enabled (s : Shared) (i : N) : Prop :=
  exists p, requests s !! i = Some p /\ forall fetched, is_Some (advance policy i p fetched s).

Definition unfinished (p : RefreshPhase) : bool := match p with Returned _ _ => false | _ => true end.

Lemma holding_enabled s i p : requests s !! i = Some p -> holding p = true -> enabled s i.
Proof.
  intros Hi Hp. exists p. split; [done|]. intros fetched.
  destruct p; simplify_eq/=; [by case_match|by destruct fetched as [|[]]|done|done].
Qed.


(** C11: at most one request is between taking and dropping the refresh guard; a
    request whose refresh succeeded has a newer generation behind it than the one it
    observed; and the guard is never lost: while a request is unfinished, some request
    can go on. *)
Theorem refresh_protocol (c : option Snapshot) (t : Z) (s : Shared) :
  (current_generation c <= U64_MAX)%N -> reachable policy (quiescent c t) s ->
  (forall i j p q, requests s !! i = Some p -> requests s !! j = Some q ->
     holding p = true -> holding q = true -> i = j) /\
  (forall i seen, requests s !! i = Some (Returned seen (Ok tt)) -> superseded seen s) /\
  (forall i p, requests s !! i = Some p -> unfinished p = true -> exists j, enabled s j).
Proof.
  intros Hc Hr. pose proof (reachable_invariant c t s Hc Hr) as Hinv. split_and!.
  - intros i j p q. by apply (only_holder policy t).
  - intros i seen Hi. apply (inv_phases _ _ _ Hinv i _ Hi).
  - intros i p Hi Hu. destruct (guard s) as [j|] eqn:Hg.
    { destruct (inv_guard _ _ _ Hinv j Hg) as (q & Hq & Hh). exists j. by eapply holding_enabled. }
    exists i. destruct (holding p) eqn:Hp; [by eapply holding_enabled|]. exists p. split; [done|].
    intros fetched. destruct p; simplify_eq/=; [done|]. by rewrite Hg.
Qed.
End Properties.

(** ** Two requests, one retrieval *)
Module Sample.
#[local] Instance deps : AuthDeps := AuthCache.Sample.deps.
Definition policy : VerificationCachePolicy := mkPolicy 60 60.

(** Both observe generation 0; the first retrieves and installs, the second finds
    its work done. *)
Definition script : list (N * result (list Candidate) AuthenticationError) :=
  [(1, Ok []); (2, Ok []); (1, Ok []); (1, Ok []); (1, Ok []); (1, Ok []); (1, Ok []);
   (2, Ok []); (2, Ok []); (2, Ok [])]%N.

Definition play (s : Shared) (a : N * result (list Candidate) AuthenticationError) : Shared :=
  match requests s !! a.1 with
  | Some p => default s (advance (Deps := deps) policy a.1 p a.2 s)
  | None => s
  end.

Definition arrived : Shared (Deps := deps) := move 2 Observing (move 1 Observing (quiescent None 0)).

Lemma play_reachable start s a : reachable (Deps := deps) policy start s ->
  reachable (Deps := deps) policy start (play s a).
Proof.
  intros Hr. unfold play. destruct (requests s !! a.1) as [p|] eqn:Hp; [|done].
  destruct (advance policy a.1 p a.2 s) as [s'|] eqn:Ha; simpl; [|done].
  eapply reachable_step; [exact Hr|]. by eapply step_advance.
Qed.

Lemma script_reachable l : reachable (Deps := deps) policy (quiescent None 0) (foldl play arrived l).
Proof.
  induction l as [|a l IH] using rev_ind; [|rewrite foldl_app; by apply play_reachable].
  eapply reachable_step; [eapply reachable_step; [apply reachable_start|]|].
  - by apply (step_arrive policy _ 1%N).
  - by apply (step_arrive policy _ 2%N).
Qed.


Lemma refresh_protocol_witness : superseded 0 (foldl play arrived script).
Proof.
  apply (refresh_protocol (Deps := deps) policy None 0 (foldl play arrived script)) with (i := 2%N);
    [done|apply script_reachable|vm_compute; reflexivity].
Defined.
End Sample.
