(* ===== verification/AuthConcurrent.v ===== *)
(** * [permissionsync-auth]: the authenticator among concurrent requests

    [AuthRefresh] is a transition system; [AuthCache] is the code of one request.
    Here the code runs in a world whose cache, refresh mutex and clock are those of
    the transition system, while other requests take any of their steps between two
    operations ([SharedWorld]).  Every such run is a run of the transition system, so
    what is proved of its reachable states holds of the code. *)
From S2P Require Import Prelude Core Json AuthBase AuthJwks AuthClaims AuthCache AuthWalk AuthTrust AuthRefresh.

(** ** The shared world *)

Section View.
Context `{Deps : AuthDeps} (policy : VerificationCachePolicy) (i : N).

(** A step of the rest of the system, as request [i] sees it. *)
Definition other (σ σ' : Shared) : Prop := step policy σ σ' /\ requests σ' !! i = requests σ !! i.

(** All but what only describes request [i]: its phase, and who installed. *)
Definition visible (σ : Shared) : option Snapshot * option N * Z * gmap N RefreshPhase :=
  (cache σ, guard σ, moment σ, delete i (requests σ)).

Definition set_cache (c : option Snapshot) (σ : Shared) : Shared :=
  mkShared c (guard σ) (moment σ) (requests σ) (installers σ).
End View.

(** The operations of request [i]: the others step, and then the operation happens. *)
Class SharedWorld `{Deps : AuthDeps} (policy : VerificationCachePolicy) (i : N) (W : Type) `{!AuthWorld W}
  : Type := {
  related : W -> Shared -> Prop;
  related_visible : forall w σ σ', related w σ -> visible i σ' = visible i σ -> related w σ';
  shared_now : forall w σ, related w σ ->
    exists σ', rtc (other policy i) σ σ' /\ related (now w).2 σ';
  shared_cancelled : forall w σ, related w σ ->
    exists σ', rtc (other policy i) σ σ' /\ related (is_cancelled w).2 σ';
  shared_wall : forall w σ, related w σ ->
    exists σ', rtc (other policy i) σ σ' /\ related (unix_seconds w).2 σ';
  shared_get : forall uri d w σ, related w σ ->
    exists σ', rtc (other policy i) σ σ' /\ related (metadata_get uri d w).2 σ';
  shared_tick : forall w σ, related w σ ->
    exists σ', rtc (other policy i) σ σ' /\ related (tick w).2 σ' /\ (tick w).1 = moment σ';
  shared_read : forall d w σ, related w σ ->
    exists σ', rtc (other policy i) σ σ' /\ related (cache_read d w).2 σ' /\
      forall c, (cache_read d w).1 = Some c -> c = cache σ';
  shared_write : forall d w σ, related w σ ->
    exists σ', rtc (other policy i) σ σ' /\ related (cache_write d w).2 σ' /\
      forall c, (cache_write d w).1 = Some c -> c = cache σ';
  shared_store : forall snapshot w σ, related w σ ->
    exists σ', rtc (other policy i) σ σ' /\ related (cache_store snapshot w) (set_cache (Some snapshot) σ');
  shared_lock : forall d w σ, related w σ ->
    exists σ', rtc (other policy i) σ σ' /\
      if (refresh_lock d w).1 then guard σ' = None /\ related (refresh_lock d w).2 (set_guard (Some i) σ')
      else related (refresh_lock d w).2 σ';
  shared_unlock : forall w σ, related w σ ->
    exists σ', rtc (other policy i) σ σ' /\ related (refresh_unlock w) (set_guard None σ');
}.

(** ** Following the code through the transition system *)

Section Simulation.
Context `{Deps : AuthDeps} (config : Config) (i : N) {W : Type} `{!AuthWorld W}.
Context `{Shares : !SharedWorld (cache_policy config) i W}.
Context (origin : Shared) (c0 : option Snapshot) (t0 : Z) (Hc0 : (current_generation c0 <= U64_MAX)%N).
Abbreviation M := (Eff (Tr W AuthCall)).
Abbreviation policy := (cache_policy config).
Abbreviation others := (rtc (other policy i)).

(** A state of the protocol, on a run from [origin]. *)
Definition reached (σ : Shared) : Prop := reachable policy (quiescent c0 t0) σ /\ reachable policy origin σ.

Lemma reached_step σ σ' : reached σ -> step policy σ σ' -> reached σ'.
Proof. intros [H0 H1] Hs. split; by eapply reachable_step. Qed.

(** The world is in a reached state with [φ]. *)
Definition at_world (φ : Shared -> Prop) (w : W) : Prop := exists σ, reached σ /\ related w σ /\ φ σ.
Definition at_state (φ : Shared -> Prop) (s : Tr W AuthCall) : Prop := at_world φ (world s).

Definition stable (φ : Shared -> Prop) : Prop :=
  forall σ σ', reached σ -> other policy i σ σ' -> φ σ -> φ σ'.

Definition in_phase (p : RefreshPhase) (σ : Shared) : Prop := requests σ !! i = Some p.
Definition holds (p : RefreshPhase) (c : option Snapshot) (σ : Shared) : Prop :=
  in_phase p σ /\ cache σ = c.
(** Request [i] is done and does not hold the guard. *)
Definition settled (σ : Shared) : Prop := exists p, in_phase p σ /\ holding p = false.

Lemma others_keep φ σ σ' : stable φ -> others σ σ' -> reached σ -> φ σ -> reached σ' /\ φ σ'.
Proof.
  intros Hφ. induction 1 as [|σ σ1 σ2 Ho _ IH]; intros Hr Hs; [done|]. apply IH.
  - eapply reached_step; [exact Hr|apply Ho].
  - by eapply Hφ.
Qed.

Lemma stable_phase p : stable (in_phase p).
Proof. intros σ σ' _ [_ He] Hp. unfold in_phase. by rewrite He. Qed.

Lemma stable_settled : stable settled.
Proof. intros σ σ' Hr Ho (p & Hp & Hh). exists p. split; [by eapply stable_phase|done]. Qed.

(** Nobody else replaces the cache while request [i] holds the guard. *)
Lemma stable_holds p c : holding p = true -> stable (holds p c).
Proof.
  intros Hp σ σ' Hr [Hstep He] [Hi Hc]. split; [by eapply stable_phase|]. rewrite <- Hc.
  pose proof (reachable_invariant policy c0 t0 σ Hc0 (proj1 Hr)) as Hinv.
  destruct Hstep as [j Hj|j q fetched σ' Hj Hadv|j q seen Hj Hseen _|t Ht];
    [done| |unfold return_from; by destruct (holding q)|done].
  destruct q as [|seen|seen|seen|seen snap|seen r|seen r]; simpl in Hadv.
  - by injection Hadv as <-.
  - destruct (guard σ); [done|]. by injection Hadv as <-.
  - destruct (newer_and_fresh _ _ _ _); by injection Hadv as <-.
  - destruct fetched as [|[]]; by injection Hadv as <-.
  - pose proof (only_holder policy t0 σ i j p _ Hinv Hi Hj Hp eq_refl) as <-. injection Hadv as <-.
    simpl in He. rewrite lookup_insert_eq in He. congruence.
  - by injection Hadv as <-.
  - done.
Qed.

(** A step of request [i] that the world does not see. *)
Lemma own_step (φ φ' : Shared -> Prop) s : at_state φ s ->
  (forall σ, φ σ -> exists σ', step policy σ σ' /\ visible i σ' = visible i σ /\ φ' σ') -> at_state φ' s.
Proof.
  intros (σ & Hr & Hw & Hσ) Hstep. destruct (Hstep σ Hσ) as (σ' & Hs & Hv & Hφ').
  exists σ'. split_and!; [by eapply reached_step|by eapply related_visible|done].
Qed.

Lemma at_weaken (φ φ' : Shared -> Prop) s : at_state φ s -> (forall σ, φ σ -> φ' σ) -> at_state φ' s.
Proof. intros (σ & Hr & Hw & Hσ) Himp. exists σ. auto. Qed.

(** ** Operations that leave request [i] where it is *)

Lemma others_at φ σ w : stable φ -> reached σ -> φ σ ->
  (exists σ', others σ σ' /\ related w σ') -> at_world φ w.
Proof.
  intros Hφ Hr Hσ (σ' & Ho & Hw). exists σ'. destruct (others_keep φ σ σ' Hφ Ho Hr Hσ). done.
Qed.

Lemma at_reading φ : stable φ -> keeps_reading (at_world φ).
Proof.
  intros Hφ. constructor; [..|intros d|intros uri d]; intros w (σ & Hr & Hw & Hσ);
    apply (others_at φ σ _ Hφ Hr Hσ).
  - by apply shared_now.
  - by apply shared_cancelled.
  - by apply shared_wall.
  - destruct (shared_tick w σ Hw) as (σ' & ? & ? & _). eauto.
  - destruct (shared_read d w σ Hw) as (σ' & ? & ? & _). eauto.
  - by apply shared_get.
Qed.

(** ** The refresh protocol *)

Lemma check_result context (s : Tr W AuthCall) :
  (check_context context s).1 = Ok tt \/ (check_context context s).1 = Err Cancelled.
Proof.
  destruct (emits_auth_check_context context s) as (l & _ & _ & He).
  destruct (check_context context s) as [[[]|e] s']; simpl in *; [by left|right]. by rewrite (He e eq_refl).
Qed.

Lemma sure_check_first {A} context (k : unit -> M (result A AuthenticationError)) φ Q : stable φ ->
  sure (at_state φ) (k tt) Q -> (forall s, at_state φ s -> Q (Err Cancelled) s) ->
  sure (at_state φ) (etry (check_context context) k) Q.
Proof.
  intros Hφ Hk Hc s Hs. pose proof (kept_check _ (at_reading φ Hφ) context s Hs) as H.
  unfold etry, ebind. destruct (check_result context s) as [Hr|Hr];
    destruct (check_context context s) as [r s']; simpl in Hr; subst r; [by apply Hk|by apply Hc].
Qed.

(** An operation that answers what the shared state holds when it happens. *)
Lemma sure_answer {A} (f : W -> A * W) (record : A -> AuthCall) φ (ψ : A -> Shared -> Prop) : stable φ ->
  (forall w σ, related w σ -> exists σ', others σ σ' /\ related (f w).2 σ' /\ ψ (f w).1 σ') ->
  sure (at_state φ) (perform f record) (fun a => at_state (fun σ => φ σ /\ ψ a σ)).
Proof.
  intros Hφ Hf s (σ & Hr & Hw & Hσ). destruct (Hf _ _ Hw) as (σ' & Ho & Hw' & Hψ).
  destruct (others_keep φ σ σ' Hφ Ho Hr Hσ) as [Hr' Hσ']. unfold perform.
  destruct (f (world s)) as [a w]. by exists σ'.
Qed.

(** An operation with an effect on the shared state, which is request [i]'s next step. *)
Lemma sure_effect {A} (f : W -> A * W) (record : A -> AuthCall) φ (φ' : A -> Shared -> Prop) : stable φ ->
  (forall w σ, related w σ -> exists σ' σ'', others σ σ' /\ related (f w).2 σ'' /\
     (φ σ' -> exists σ1, step policy σ' σ1 /\ visible i σ1 = visible i σ'' /\ φ' (f w).1 σ1)) ->
  sure (at_state φ) (perform f record) (fun a => at_state (φ' a)).
Proof.
  intros Hφ Hf s (σ & Hr & Hw & Hσ). destruct (Hf _ _ Hw) as (σ' & σ'' & Ho & Hw' & Hstep).
  destruct (others_keep φ σ σ' Hφ Ho Hr Hσ) as [Hr' Hσ']. destruct (Hstep Hσ') as (σ1 & Hs1 & Hv & Hφ').
  unfold perform. destruct (f (world s)) as [a w]. exists σ1.
  split_and!; [by eapply reached_step|by eapply related_visible|done].
Qed.

Lemma in_phase_move p σ : in_phase p (move i p σ).
Proof. unfold in_phase. simpl. apply lookup_insert_eq. Qed.

Lemma visible_move p σ : visible i (move i p σ) = visible i σ.
Proof. unfold visible. simpl. by rewrite delete_insert_eq. Qed.

(** Request [i] takes its next step where the world sees nothing of it. *)
Lemma own_advance p p' φ fetched s : at_state (fun σ => in_phase p σ /\ φ σ) s ->
  (forall σ, φ σ -> advance policy i p fetched σ = Some (move i p' σ)) -> at_state (in_phase p') s.
Proof.
  intros Hs Hadv. eapply own_step; [exact Hs|]. intros σ [Hp Hφ]. exists (move i p' σ).
  split_and!; [by eapply step_advance; [|apply Hadv]|apply visible_move|apply in_phase_move].
Qed.

(** Holding the guard with the answer [r], or with a cancellation still to be returned. *)
Definition leaving (seen : N) (r : result unit AuthenticationError) (σ : Shared) : Prop :=
  exists p, in_phase p σ /\ holding p = true /\
    (p = Releasing seen r \/ (r = Err Cancelled /\ seen_of p = Some seen)).

Lemma stable_leaving seen r : stable (leaving seen r).
Proof. intros σ σ' Hr Ho (p & Hp & H). exists p. split; [by eapply stable_phase|done]. Qed.

Lemma leaving_now seen r s : at_state (in_phase (Releasing seen r)) s -> at_state (leaving seen r) s.
Proof. intros Hs. eapply at_weaken; [exact Hs|]. intros σ Hp. exists (Releasing seen r). auto. Qed.

Lemma leaving_cancelled seen p φ s : holding p = true -> seen_of p = Some seen ->
  at_state φ s -> (forall σ, φ σ -> in_phase p σ) -> at_state (leaving seen (Err Cancelled)) s.
Proof. intros Hh Hseen Hs Hp. eapply at_weaken; [exact Hs|]. intros σ Hσ. exists p. auto. Qed.

(** [newer_generation_is_currently_fresh]: the cache cannot change under the guard
    between its reading and the reading of the clock. *)
Lemma walk_consult context seen :
  sure (at_state (in_phase (Consulting seen))) (newer_generation_is_currently_fresh config context seen)
    (fun r s => match r with
     | Ok true => at_state (in_phase (Releasing seen (Ok tt))) s
     | Ok false => at_state (in_phase (Fetching seen)) s
     | Err e => e = Cancelled /\ at_state (leaving seen (Err Cancelled)) s
     end).
Proof.
  assert (forall φ s, at_state φ s -> (forall σ, φ σ -> in_phase (Consulting seen) σ) ->
    Cancelled = Cancelled /\ at_state (leaving seen (Err Cancelled)) s) as HC.
  { intros φ s Hs Hφ. split; [done|]. by eapply (leaving_cancelled seen (Consulting seen) φ). }
  unfold newer_generation_is_currently_fresh.
  apply sure_check_first; [apply stable_phase| |intros s Hs; by eapply HC].
  eapply sure_bind.
  { apply (sure_answer _ _ _ (fun o σ => forall c, o = Some c -> c = cache σ)); [apply stable_phase|].
    intros w σ Hw. by apply shared_read. }
  intros [c|]; [|intros s Hs; eapply HC; [exact Hs|by intros σ []]].
  apply sure_conseq with (P := at_state (holds (Consulting seen) c)) (Q := fun r s => match r with
     | Ok true => at_state (in_phase (Releasing seen (Ok tt))) s
     | Ok false => at_state (in_phase (Fetching seen)) s
     | Err e => e = Cancelled /\ at_state (leaving seen (Err Cancelled)) s
     end); [|intros s Hs; eapply at_weaken; [exact Hs|intros σ [Hp Hc]; split; [done|by rewrite (Hc c)]]|done].
  eapply sure_lift; [done|].
  apply sure_check_first; [by apply stable_holds| |intros s Hs; eapply HC; [exact Hs|by intros σ []]].
  eapply sure_bind.
  { apply (sure_answer _ _ _ (fun t σ => t = moment σ)); [by apply stable_holds|].
    intros w σ Hw. by apply shared_tick. }
  intros t. apply sure_ret. intros s Hs.
  assert (at_state (fun σ => in_phase (Consulting seen) σ /\ (cache σ = c /\ t = moment σ)) s) as Hs'.
  { eapply at_weaken; [exact Hs|]. intros σ [[? ?] ?]. done. }
  destruct (newer_and_fresh policy c seen t) eqn:Hf; (eapply (own_advance _ _ _ (Err Cancelled)); [exact Hs'|]);
    intros σ [Hc Ht]; simpl; by rewrite Hc, <- Ht, Hf.
Qed.

Lemma walk_fetch context seen :
  sure (at_state (in_phase (Fetching seen))) (fetch_snapshot config context) (fun r => match r with
    | Ok snapshot => at_state (in_phase (Installing seen snapshot))
    | Err _ => at_state (in_phase (Fetching seen))
    end).
Proof.
  pose proof (stable_phase (Fetching seen)) as Hst. pose proof (at_reading _ Hst) as Hk. unfold fetch_snapshot.
  eapply sure_bind; [exact (kept_fetch_jwks config _ Hk context)|]. intros [jwks|e]; [|by apply sure_ret].
  eapply sure_bind; [exact (kept_check _ Hk context)|]. intros [_|e]; [|by apply sure_ret].
  eapply sure_bind; [exact (kept_jwks _ Hk jwks _ context)|]. intros [cs|e]; [|by apply sure_ret].
  eapply sure_bind; [exact (kept_check _ Hk context)|]. intros [_|e]; [|by apply sure_ret].
  eapply sure_bind.
  { apply (sure_answer _ _ _ (fun t σ => t = moment σ)); [done|]. intros w σ Hw. by apply shared_tick. }
  intros t. apply sure_ret. intros s Hs. apply (own_advance _ _ _ (Ok cs) s Hs). by intros σ ->.
Qed.

(** [install_snapshot] stores over the very content it read. *)
Lemma walk_install context seen snapshot :
  sure (at_state (in_phase (Installing seen snapshot))) (install_snapshot context snapshot)
    (fun r => at_state (leaving seen r)).
Proof.
  assert (forall φ s, at_state φ s -> (forall σ, φ σ -> in_phase (Installing seen snapshot) σ) ->
    at_state (leaving seen (Err Cancelled)) s) as HC.
  { intros φ s Hs Hφ. by eapply (leaving_cancelled seen (Installing seen snapshot) φ). }
  unfold install_snapshot. apply sure_check_first; [apply stable_phase| |intros s Hs; by eapply HC].
  eapply sure_bind.
  { apply (sure_answer _ _ _ (fun o σ => forall c, o = Some c -> c = cache σ)); [apply stable_phase|].
    intros w σ Hw. by apply shared_write. }
  intros [c|]; [|intros s Hs; eapply HC; [exact Hs|by intros σ []]].
  apply sure_conseq with (P := at_state (holds (Installing seen snapshot) c))
    (Q := fun r => at_state (leaving seen r));
    [|intros s Hs; eapply at_weaken; [exact Hs|intros σ [Hp Hc]; split; [done|by rewrite (Hc c)]]|done].
  eapply sure_lift; [done|].
  apply sure_check_first; [by apply stable_holds| |intros s Hs; eapply HC; [exact Hs|by intros σ []]].
  apply (sure_bind _ _ _ (fun _ => at_state (in_phase (Releasing seen (Ok tt)))));
    [|intros []; apply sure_ret; apply leaving_now].
  apply (sure_effect _ _ _ (fun _ => in_phase (Releasing seen (Ok tt)))); [by apply stable_holds|].
  intros w σ Hw. destruct (shared_store (next_snapshot c snapshot) w σ Hw) as (σ' & Ho & Hw').
  exists σ', (set_cache (Some (next_snapshot c snapshot)) σ'). split_and!; [done|done|]. intros [Hp <-].
  exists (move i (Releasing seen (Ok tt)) (install seen snapshot σ')).
  split_and!; [by apply (step_advance policy _ i _ (Ok []) _ Hp)|by rewrite visible_move|apply in_phase_move].
Qed.

Lemma walk_guarded context seen :
  sure (at_state (in_phase (Consulting seen))) (refresh_guarded config context seen)
    (fun r => at_state (leaving seen r)).
Proof.
  unfold refresh_guarded. apply sure_check_first; [apply stable_phase| |].
  2:{ intros s Hs. by eapply (leaving_cancelled seen (Consulting seen)). }
  eapply sure_bind; [apply walk_consult|]. intros [[|]|e].
  - apply sure_ret. apply leaving_now.
  - eapply sure_bind; [apply walk_fetch|]. intros [snapshot|e]; [apply walk_install|].
    assert (forall s, at_state (in_phase (Fetching seen)) s -> at_state (leaving seen
      (Err (match e with Cancelled => Cancelled | _ => VerifierUnavailable end))) s) as Hfail.
    { intros s Hs. apply leaving_now. eapply (own_advance _ _ (fun _ => True) (Err e));
        [by eapply at_weaken|]. intros σ _. by destruct e. }
    destruct e; by apply sure_ret.
  - by apply sure_ret; intros s [-> Hs].
Qed.

(** [refresh] takes request [i] from the wait for the guard to its return, with the
    same answer. *)
Lemma walk_refresh context seen :
  sure (at_state (in_phase (AwaitingLock seen))) (refresh config context seen)
    (fun r => at_state (in_phase (Returned seen r))).
Proof.
  assert (forall s, at_state (in_phase (AwaitingLock seen)) s ->
    at_state (in_phase (Returned seen (Err Cancelled))) s) as HC.
  { intros s Hs. eapply own_step; [exact Hs|]. intros σ Hp.
    exists (move i (Returned seen (Err Cancelled)) σ).
    split_and!; [by apply (step_cancel policy σ i _ seen Hp)|apply visible_move|apply in_phase_move]. }
  unfold refresh. apply sure_check_first; [apply stable_phase| |done].
  apply (sure_bind _ _ _ (fun b : bool => at_state (in_phase
    (if b then Consulting seen else AwaitingLock seen)))).
  { intros s (σ & Hr & Hw & Hp). unfold lock_refresh, perform.
    destruct (shared_lock (deadline context) _ _ Hw) as (σ' & Ho & Hl).
    destruct (others_keep _ σ σ' (stable_phase _) Ho Hr Hp) as [Hr' Hp'].
    destruct (refresh_lock (deadline context) (world s)) as [[] w]; simpl in *; [|by exists σ'].
    destruct Hl as [Hg Hw']. exists (set_guard (Some i) (move i (Consulting seen) σ')).
    split_and!; [| |apply in_phase_move].
    - eapply reached_step; [exact Hr'|]. apply (step_advance policy _ i _ (Ok []) _ Hp'). simpl. by rewrite Hg.
    - eapply related_visible; [exact Hw'|]. unfold visible. simpl. by rewrite delete_insert_eq. }
  intros []; [|by apply sure_ret]. eapply sure_lift; [done|].
  eapply sure_bind; [apply walk_guarded|]. intros r.
  apply (sure_bind _ _ _ (fun _ => at_state (in_phase (Returned seen r)))); [|intros []; by apply sure_ret].
  apply (sure_effect _ _ _ (fun _ => in_phase (Returned seen r))); [apply stable_leaving|].
  intros w σ Hw. destruct (shared_unlock w σ Hw) as (σ' & Ho & Hw').
  exists σ', (set_guard None σ'). split_and!; [done|done|]. intros (p & Hp & Hh & Hleave).
  exists (set_guard None (move i (Returned seen r) σ')). split_and!; [| |apply in_phase_move].
  - assert (return_from i p seen r σ' = set_guard None (move i (Returned seen r) σ')) as Hret.
    { unfold return_from. by rewrite Hh. }
    rewrite <- Hret. destruct Hleave as [->|[-> Hseen]].
    + by apply (step_advance policy _ i _ (Ok []) _ Hp).
    + apply (step_cancel policy _ i _ _ Hp Hseen). by intros r' ->.
  - unfold visible. simpl. by rewrite delete_insert_eq.
Qed.

(** ** Whole attempts *)

(** [classify_cache] observes the generation request [i] acts on. *)
Lemma walk_classify context :
  sure (at_state (in_phase Observing)) (classify_cache config context) (fun r => match r with
    | Ok (seen, _) => at_state (in_phase (AwaitingLock seen))
    | Err _ => at_state settled
    end).
Proof.
  assert (forall p s, holding p = false -> at_state (in_phase p) s -> at_state settled s) as Hset.
  { intros p s Hp Hs. eapply at_weaken; [exact Hs|]. intros σ Hσ. by exists p. }
  unfold classify_cache.
  apply sure_check_first; [apply stable_phase| |intros s Hs; by eapply (Hset Observing)].
  apply (sure_bind _ _ _ (fun o => at_state (fun σ =>
    in_phase Observing σ /\ forall c, o = Some c -> c = cache σ))).
  { apply (sure_answer _ _ _ (fun o σ => forall c, o = Some c -> c = cache σ)); [apply stable_phase|].
    intros w σ Hw. by apply shared_read. }
  intros [c|]; [|intros s Hs; eapply at_weaken; [exact Hs|intros σ [Hp _]; by exists Observing]].
  eapply sure_conseq with (P := at_state (in_phase (AwaitingLock (current_generation c))));
    [| |intros r s H; exact H].
  2:{ intros s Hs. eapply (own_advance Observing _ _ (Ok [])); [exact Hs|].
      intros σ Hc. simpl. by rewrite (Hc c eq_refl). }
  eapply sure_lift; [done|]. apply sure_check_first; [apply stable_phase| |].
  2:{ intros s Hs. by apply (Hset (AwaitingLock (current_generation c))). }
  destruct c as [snapshot|]; [|by apply sure_ret].
  eapply sure_bind; [exact (kept_tick _ (at_reading _ (stable_phase _)))|]. intros t. by apply sure_ret.
Qed.

Lemma settled_returned seen r s : at_state (in_phase (Returned seen r)) s -> at_state settled s.
Proof. intros Hs. eapply at_weaken; [exact Hs|]. intros σ Hp. by exists (Returned seen r). Qed.

(** After a refresh only reading operations follow. *)
Lemma walk_then {A} context seen (k : result unit AuthenticationError -> M A) :
  (forall r, preserves (at_world settled) (k r)) ->
  sure (at_state (in_phase (AwaitingLock seen))) (ebind (refresh config context seen) k)
    (fun _ => at_state settled).
Proof.
  intros Hk. eapply sure_bind; [apply walk_refresh|]. intros r s Hs. apply (Hk r).
  by eapply settled_returned.
Qed.

Lemma walk_attempt token alg context seen :
  sure (at_state (in_phase (AwaitingLock seen)))
    (refresh_then_verify_fresh config token alg context seen) (fun _ => at_state settled) /\
  sure (at_state (in_phase (AwaitingLock seen)))
    (refresh_or_stale_fallback config token alg context seen) (fun _ => at_state settled) /\
  sure (at_state (in_phase (AwaitingLock seen)))
    (refresh_after_proven_signature_invalid config token alg context seen) (fun _ => at_state settled).
Proof.
  pose proof (kept_verify config _ (at_reading _ stable_settled) token alg context).
  split_and!; apply walk_then; intros r; preserve.
Qed.

Lemma walk_authenticate request :
  sure (at_state (in_phase Observing)) (authenticate config request) (fun _ => at_state settled).
Proof.
  assert (forall s, at_state (in_phase Observing) s -> at_state settled s) as HO.
  { intros s Hs. eapply at_weaken; [exact Hs|]. intros σ Hp. by exists Observing. }
  pose proof (stable_phase Observing) as Hst. unfold authenticate. cbv zeta.
  apply sure_check_first; [done| |done].
  destruct (raw_compact_token request) as [token|]; [|by apply sure_ret]. eapply sure_lift; [done|].
  case_match; [by apply sure_ret|]. apply sure_check_first; [done| |done].
  destruct (preflight_header token (algorithms config)) as [alg|]; [|by apply sure_ret].
  eapply sure_lift; [done|]. apply sure_check_first; [done| |done].
  eapply sure_bind; [apply walk_classify|]. intros [[seen c]|e]; [|by apply sure_ret].
  destruct (walk_attempt token alg (auth_context request) seen) as (H1 & H2 & H3).
  destruct c; [|done|done].
  eapply sure_bind; [exact (kept_verify config _ (at_reading _ (stable_phase _)) token alg _)|]. intros v.
  assert (forall r : AuthResult, sure (at_state (in_phase (AwaitingLock seen))) (eret r)
    (fun _ => at_state settled)) as Hret.
  { intros r. apply sure_ret. intros s Hs. eapply at_weaken; [exact Hs|]. intros σ Hp. by eexists. }
  destruct v as [[]|[]| |]; first [done|apply Hret].
Qed.

(** The warm-up and the readiness probe refresh by the same protocol. *)
Lemma walk_ensure context :
  sure (at_state (in_phase Observing)) (ensure_trusted_verifier_state config context)
    (fun _ => at_state settled).
Proof.
  unfold ensure_trusted_verifier_state. eapply sure_bind; [apply walk_classify|].
  intros [[seen c]|e]; [|by apply sure_ret]. destruct (trusted_state_of c).
  - apply sure_ret. intros s Hs. eapply at_weaken; [exact Hs|]. intros σ Hp. by exists (AwaitingLock seen).
  - apply walk_then. intros r. pose proof (kept_classify config _ (at_reading _ stable_settled) context).
    unfold trusted_verifier_state. preserve.
Qed.

(** What a run that ends settled leaves behind. *)
Lemma settled_meaning σ : reached σ -> settled σ -> guard σ <> Some i /\
  ((moment σ <= t0 + freshness policy)%Z -> (current_generation (cache σ) < U64_MAX)%N -> NoDup (installers σ)).
Proof.
  intros Hr (p & Hp & Hh). pose proof (reachable_invariant policy c0 t0 σ Hc0 (proj1 Hr)) as Hinv. split.
  - intros Hg. destruct (inv_guard _ _ _ Hinv i Hg) as (q & Hq & Hq'). unfold in_phase in Hp. congruence.
  - intros Ht Hg. by apply (inv_single policy t0 σ Hinv).
Qed.
End Simulation.

(** ** Properties *)

Section Properties.
Context `{Deps : AuthDeps} (config : Config) (i : N) {W : Type} `{!AuthWorld W}.
Context `{Shares : !SharedWorld (cache_policy config) i W}.
Abbreviation policy := (cache_policy config).

(** C12: an authentication among concurrent requests is a run of the refresh
    protocol.  Started as a request that observes, with the cache, the mutex and the
    clock in a state the protocol reaches, it takes the protocol from there to another
    state, whatever the others do between two of its operations and whatever it answers.
    There it has returned or did not refresh: it does not keep the refresh guard, and
    within one freshness period no two requests that observed the same generation have
    replaced it. *)
Theorem authenticate_simulated (c0 : option Snapshot) (t0 : Z) (request : AuthenticationRequest)
    (w : W) (σ : Shared) :
  (current_generation c0 <= U64_MAX)%N -> reachable policy (quiescent c0 t0) σ ->
  related w σ -> requests σ !! i = Some Observing ->
  exists σ', reachable policy σ σ' /\
    related (world (authenticate config request (mkTr w [])).2) σ' /\ settled i σ' /\ guard σ' <> Some i /\
    ((moment σ' <= t0 + freshness policy)%Z -> (current_generation (cache σ') < U64_MAX)%N ->
     NoDup (installers σ')).
Proof.
  intros Hc0 Hr Hw Hp.
  destruct (walk_authenticate config i σ c0 t0 Hc0 request (mkTr w [])) as (σ' & Hr' & Hw' & Hs).
  { exists σ. split; [split; [done|apply reachable_start]|done]. }
  destruct (settled_meaning config i σ c0 t0 Hc0 σ' Hr' Hs) as [Hg Hn]. destruct Hr' as [_ Hr']. by exists σ'.
Qed.
End Properties.

(** ** A concrete interleaving

    The world is the shared state itself; at every operation of request 1 request 2
    takes its next step. *)
Module Sample.
#[local] Existing Instance AuthTrust.Sample.deps.
Abbreviation config := AuthTrust.Sample.config.
Abbreviation policy := (cache_policy config).

Definition meddle (w : Shared) : Shared :=
  match requests w !! 2%N with
  | Some p => default w (advance policy 2 p (Ok [AuthTrust.Sample.key "new"]) w)
  | None => w
  end.
Definition await (w : Shared) : Shared := Nat.iter 8 meddle w.

#[local] Instance clock : Clock Shared :=
  {| now := fun w => (0%Z, meddle w); is_cancelled := fun w => (false, meddle w) |}.
#[local] Instance environment : AuthWorld Shared := {|
  tick := fun w => (moment (meddle w), meddle w);
  unix_seconds := fun w => (Some (f64_of_Z 1000), meddle w);
  cache_read := fun _ w => (Some (cache (meddle w)), meddle w);
  cache_write := fun _ w => (Some (cache (meddle w)), meddle w);
  cache_store := fun s w => set_cache (Some s) (meddle w);
  refresh_lock := fun _ w => match guard (await w) with
    | None => (true, set_guard (Some 1%N) (await w))
    | Some _ => (false, await w)
    end;
  refresh_unlock := fun w => set_guard None (meddle w);
  metadata_get := fun _ _ w =>
    (AnswerResponse (mkMetadataResponse 200 None None [FrameData (as_bytes "keys")]), meddle w);
|}.

(** A step depends only on what is visible, and on the phase of the one who takes it. *)
Lemma advance_visible i j p fetched σ w w' : j <> i -> visible i σ = visible i w ->
  advance policy j p fetched w = Some w' ->
  exists σ', advance policy j p fetched σ = Some σ' /\ visible i σ' = visible i w'.
Proof.
  intros Hj Hv Ha. destruct σ as [c g m r l], w as [c' g' m' r' l']. injection Hv as -> -> -> Hr. simpl in Hr.
  assert (forall q, delete i (<[j := q]> r) = delete i (<[j := q]> r')) as Hd.
  { intros q. by rewrite !delete_insert_ne, Hr by done. }
  destruct p as [|s|s|s|s snap|s x|s x]; simpl in *; repeat case_match; simplify_eq/=;
    (eexists; split; [done|]); unfold visible; simpl; by rewrite Hd.
Qed.

Lemma advance_other i j p fetched σ σ' : j <> i -> requests σ !! j = Some p ->
  advance policy j p fetched σ = Some σ' -> other policy i σ σ'.
Proof.
  intros Hj Hp Ha. split; [by eapply step_advance|].
  assert (forall q, <[j := q]> (requests σ) !! i = requests σ !! i) as Hl.
  { intros q. by apply lookup_insert_ne. }
  destruct p; simpl in *; repeat case_match; simplify_eq/=; apply Hl.
Qed.

Lemma meddle_others σ w : visible 1 σ = visible 1 w ->
  exists σ', rtc (other policy 1) σ σ' /\ visible 1 σ' = visible 1 (meddle w).
Proof.
  intros Hv. unfold meddle. destruct (requests w !! 2%N) as [p|] eqn:Hp; [|by exists σ].
  destruct (advance policy 2 p _ w) as [w'|] eqn:Ha; simpl; [|by exists σ].
  destruct (advance_visible 1 2 p _ σ w w' ltac:(done) Hv Ha) as (σ' & Ha' & Hv').
  exists σ'. split; [|done]. apply rtc_once. eapply (advance_other 1 2 p); [done| |exact Ha'].
  injection Hv as _ _ _ Hr. rewrite <- (lookup_delete_ne (requests w) 1%N 2%N) in Hp by done.
  rewrite <- Hr, lookup_delete_ne in Hp by done. exact Hp.
Qed.

Lemma await_others σ w : visible 1 σ = visible 1 w ->
  exists σ', rtc (other policy 1) σ σ' /\ visible 1 σ' = visible 1 (await w).
Proof.
  intros Hv. unfold await. generalize 8. induction n as [|n IH]; [by exists σ|]. destruct IH as (σ1 & H1 & Hv1).
  destruct (meddle_others σ1 _ Hv1) as (σ2 & H2 & Hv2). exists σ2. split; [by etrans|done].
Qed.

#[local] Program Instance shares : SharedWorld policy 1 Shared :=
  {| related := fun w σ => visible 1 σ = visible 1 w |}.
Next Obligation. intros w σ σ' H1 H2. congruence. Qed.
Next Obligation. intros w σ. apply meddle_others. Qed.
Next Obligation. intros w σ. apply meddle_others. Qed.
Next Obligation. intros w σ. apply meddle_others. Qed.
Next Obligation. intros uri d w σ. apply meddle_others. Qed.
Next Obligation.
  intros w σ Hv. destruct (meddle_others σ w Hv) as (σ' & Ho & Hv'). exists σ'. split_and!; [done|done|].
  by injection Hv' as _ _ -> _.
Qed.
Next Obligation.
  intros d w σ Hv. destruct (meddle_others σ w Hv) as (σ' & Ho & Hv'). exists σ'. split_and!; [done|done|].
  injection Hv' as -> _ _ _. by intros c [= <-].
Qed.
Next Obligation.
  intros d w σ Hv. destruct (meddle_others σ w Hv) as (σ' & Ho & Hv'). exists σ'. split_and!; [done|done|].
  injection Hv' as -> _ _ _. by intros c [= <-].
Qed.
Next Obligation.
  intros snap w σ Hv. destruct (meddle_others σ w Hv) as (σ' & Ho & Hv'). exists σ'. split; [done|].
  injection Hv' as _ Hg Hm Hr. unfold visible. simpl. by rewrite Hg, Hm, Hr.
Qed.
Next Obligation.
  intros d w σ Hv. destruct (await_others σ w Hv) as (σ' & Ho & Hv'). exists σ'. split; [done|].
  cbn [refresh_lock environment]. generalize dependent (await w). clear. intros w Hv'.
  destruct (guard w) eqn:Hg; simpl; [done|]. injection Hv' as Hc Hg' Hm Hr. unfold visible. simpl.
  by rewrite Hg', Hc, Hm, Hr.
Qed.
Next Obligation.
  intros w σ Hv. destruct (meddle_others σ w Hv) as (σ' & Ho & Hv'). exists σ'. split; [done|].
  injection Hv' as Hc _ Hm Hr. unfold visible. simpl. by rewrite Hc, Hm, Hr.
Qed.

(** Two requests have arrived; the cache is cold.  Request 2 installs the keys while
    request 1 waits for the guard, and request 1 is accepted by them. *)
Definition arrived : Shared := move 2 Observing (move 1 Observing (quiescent None 0)).

Lemma arrived_reachable : reachable policy (quiescent None 0) arrived.
Proof.
  eapply reachable_step; [eapply reachable_step; [apply reachable_start|]|].
  - by apply (step_arrive policy _ 1%N).
  - by apply (step_arrive policy _ 2%N).
Qed.

Definition run := authenticate config AuthTrust.Sample.request (mkTr arrived []).

Lemma run_accepted : run.1 = Ok AuthTrust.Sample.caller /\ installers (world run.2) = [0%N] /\
  spends 1 0 0 (calls (trace run.2)).
Proof. vm_compute. split_and!; [done..|lia|lia|lia]. Qed.

Lemma authenticate_simulated_witness :
  exists σ', reachable policy arrived σ' /\ related (world run.2) σ' /\ settled 1 σ' /\ guard σ' <> Some 1%N.
Proof.
  destruct (authenticate_simulated config 1 None 0 AuthTrust.Sample.request arrived arrived)
    as (σ' & Hr & Hw & Hs & Hg & _); [done|apply arrived_reachable|reflexivity|reflexivity|].
  exists σ'. split_and!; [exact Hr|exact Hw|exact Hs|exact Hg].
Defined.
End Sample.
