(* ===== verification/Http.v ===== *)
(** * [permissionsync-inbound-http]: the inbound handler

    Models [crates/permissionsync-inbound-http/src/lib.rs]: bearer extraction,
    the fixed processing order of one request, and the outcome mapping.  The
    authenticator and the selected-target synchronizer are ports; their
    implementations are [AuthCache] and [Orchestration]. *)
From S2P Require Import Prelude Core AuthBase Orchestration.

(** ** Headers *)

Record HeaderField : Type := mkField { name : bytes; value : bytes }.
Abbreviation HeaderList := (list HeaderField).

Definition is_b64token_non_padding_character (b : ascii) : bool :=
  is_ascii_alphanumeric b ||
  bool_decide (b ∈ ["-"%char; "."%char; "_"%char; "~"%char; "+"%char; "/"%char]).

(** The length of the prefix before the first byte satisfying [p]:
    [position(p).unwrap_or(len)]. *)
Fixpoint prefix_len (p : ascii -> bool) (l : bytes) : nat :=
  match l with
  | [] => 0
  | c :: l' => if p c then 0 else S (prefix_len p l')
  end.

Definition is_padding (b : ascii) : bool := bool_decide (b = "="%char).

(** [is_b64token]. *)
Definition is_b64token (credential : bytes) : bool :=
  let padding_start := prefix_len is_padding credential in
  negb (bool_decide (take padding_start credential = [])) &&
  forallb is_b64token_non_padding_character (take padding_start credential) &&
  forallb is_padding (drop padding_start credential).

(** [field.name.eq_ignore_ascii_case(bauthorization)]. *)
Definition is_authorization (field : HeaderField) : bool :=
  eq_ignore_ascii_case (name field) (as_bytes "authorization").
#[global] Arguments is_authorization : simpl never.

(** The header loop of [extract_bearer]: a second [Authorization] field is
    ambiguous. *)
Fixpoint sole_authorization (fields : HeaderList) (authorization : option bytes) : option (option bytes) :=
  match fields with
  | [] => Some authorization
  | field :: rest =>
      if is_authorization field then
        match authorization with
        | Some _ => None
        | None => sole_authorization rest (Some (value field))
        end
      else sole_authorization rest authorization
  end.

(** The byte length of the leading run of spaces (the [while] loop). *)
Fixpoint count_spaces (l : bytes) : nat :=
  match l with
  | c :: l' => if bool_decide (c = " "%char) then S (count_spaces l') else 0
  | [] => 0
  end.

(** [extract_bearer]. *)
Definition extract_bearer (headers : HeaderList) : option string :=
  match sole_authorization headers None with
  | None => None
  | Some None => None
  | Some (Some v) =>
      let scheme := as_bytes "bearer" in
      if (length v <=? length scheme) ||
         negb (eq_ignore_ascii_case (take (length scheme) v) scheme) then None else
      let credential_start := length scheme + count_spaces (drop (length scheme) v) in
      if (credential_start =? length scheme) || (credential_start =? length v) then None else
      let credential := drop credential_start v in
      if negb (is_b64token credential) then None else Some (of_bytes credential)
  end.

(** ** Body and outcomes *)

Inductive InboundBody : Type := Collected (b : bytes) | BoundExceeded.

Record LoginBody : Type := mkLogin {
  event_type : string;
  login_username : string;
  login_groups : list string;
}.

Inductive HttpOutcome : Type :=
| OutChanged | TargetlessNoop | OutUnchanged | InvalidRequest | OutUnknownTarget
| AuthenticationRejected | AuthorizationForbidden | OutVerifierUnavailable | CancelledOrExpired
| OutTargetUnavailable | OutCapacityUnavailable | OutProviderFailed | OutAdapterFailed.

(** [HttpOutcome::status_code]. *)
Definition status_code (o : HttpOutcome) : N :=
  match o with
  | OutChanged => 200
  | TargetlessNoop | OutUnchanged => 204
  | InvalidRequest | OutUnknownTarget => 400
  | AuthenticationRejected => 401
  | AuthorizationForbidden => 403
  | OutVerifierUnavailable | CancelledOrExpired | OutTargetUnavailable | OutCapacityUnavailable
  | OutProviderFailed | OutAdapterFailed => 500
  end.

Definition authentication_failure_outcome (e : AuthenticationError) : HttpOutcome :=
  match e with
  | Rejected => AuthenticationRejected
  | Forbidden => AuthorizationForbidden
  | VerifierUnavailable => OutVerifierUnavailable
  | Cancelled => CancelledOrExpired
  end.

(** The [match] on the synchronization result at the end of
    [handle_authenticated]. *)
Definition synchronization_outcome
    (r : result ReconciliationOutcome SelectedTargetSynchronizationError) : HttpOutcome :=
  match r with
  | Ok Changed => OutChanged
  | Ok Unchanged => OutUnchanged
  | Err UnknownTarget => OutUnknownTarget
  | Err SyncCancelled => CancelledOrExpired
  | Err TargetUnavailable => OutTargetUnavailable
  | Err CapacityUnavailable => OutCapacityUnavailable
  | Err ProviderFailed => OutProviderFailed
  | Err AdapterFailed => OutAdapterFailed
  end.

(** ** Ports *)

Class Authenticator (W Au : Type) : Type :=
  authenticator_authenticate : Au -> AuthenticationRequest -> W ->
    result AuthenticatedTechnicalCaller AuthenticationError * W.

Class TargetSynchronizer (W S : Type) : Type :=
  synchronizer_synchronize : S -> SelectedTargetSynchronizationRequest -> W ->
    result ReconciliationOutcome SelectedTargetSynchronizationError * W.

Inductive HttpCall : Type :=
| Authenticate (request : AuthenticationRequest)
    (answer : result AuthenticatedTechnicalCaller AuthenticationError)
| Synchronize (request : SelectedTargetSynchronizationRequest)
    (answer : result ReconciliationOutcome SelectedTargetSynchronizationError).

Section Handler.
Context {W Au S : Type} `{!Clock W, !Authenticator W Au, !TargetSynchronizer W S}.
(** [serde_json::from_slice::<LoginBody>] is [serde_json]'s derived decoder. *)
Context (from_slice_login : bytes -> option LoginBody).
Abbreviation M := (Eff (Tr W HttpCall)).

Record InboundHttpHandler : Type := mkHandler {
  authenticator : Au;
  selected_synchronizer : S;
}.

(** [context_unavailable]. *)
Definition context_unavailable (context : SynchronizationContext) : M bool :=
  let* cancelled := read_cancelled in
  if cancelled then eret true else
  let* t := read_now in eret (deadline context <=? t)%Z.

(** [handle_authenticated]. *)
Definition handle_authenticated (h : InboundHttpHandler) (bearer : TechnicalCallerBearerToken)
    (selected_target : option LogicalTarget) (body : InboundBody) (context : SynchronizationContext)
  : M HttpOutcome :=
  let parsed := match body with Collected b => from_slice_login b | BoundExceeded => None end in
  let* unavailable := context_unavailable context in
  if (unavailable : bool) then eret CancelledOrExpired else
  match parsed with
  | None => eret InvalidRequest
  | Some login =>
      if negb (bool_decide (event_type login = "LOGIN")) then eret InvalidRequest else
      let identity := mkIdentityContext (login_username login) (login_groups login) in
      match selected_target with
      | None =>
          let* unavailable := context_unavailable context in
          if (unavailable : bool) then eret CancelledOrExpired else eret TargetlessNoop
      | Some target =>
          let request := mkSyncRequest identity target bearer context in
          let* r := perform (synchronizer_synchronize (selected_synchronizer h) request)
            (Synchronize request) in
          eret (synchronization_outcome r)
      end
  end.

(** [continue_after_authentication]. *)
Definition continue_after_authentication (h : InboundHttpHandler)
    (authentication : result AuthenticatedTechnicalCaller AuthenticationError)
    (body : InboundBody) (context : SynchronizationContext) : M HttpOutcome :=
  match authentication with
  | Err error =>
      let* unavailable := context_unavailable context in
      if (unavailable : bool) then eret CancelledOrExpired
      else eret (authentication_failure_outcome error)
  | Ok authenticated =>
      let* unavailable := context_unavailable context in
      if (unavailable : bool) then eret CancelledOrExpired else
      handle_authenticated h (caller_bearer_token authenticated)
        (selected (target_selection authenticated)) body context
  end.

(** [InboundHttpHandler::handle]. *)
Definition handle (h : InboundHttpHandler) (headers : HeaderList) (body : InboundBody)
    (context : SynchronizationContext) : M HttpOutcome :=
  let* unavailable := context_unavailable context in
  if (unavailable : bool) then eret CancelledOrExpired else
  let credential := extract_bearer headers in
  let* unavailable := context_unavailable context in
  if (unavailable : bool) then eret CancelledOrExpired else
  let request := mkAuthRequest credential (mkContext (deadline context)) in
  let* authentication := perform (authenticator_authenticate (authenticator h) request)
    (Authenticate request) in
  continue_after_authentication h authentication body context.
End Handler.

(** ** Facts: bearer grammar *)

(** RFC 6750 [b64token]: token characters, then padding. *)
Definition b64token (t : bytes) : Prop :=
  exists main pad, t = main ++ pad /\ main <> [] /\
    Forall (fun c => is_b64token_non_padding_character c = true) main /\
    Forall (fun c => c = "="%char) pad.

Lemma prefix_len_app p l1 l2 :
  Forall (fun c => p c = false) l1 ->
  match l2 with [] => True | c :: _ => p c = true end ->
  prefix_len p (l1 ++ l2) = length l1.
Proof.
  induction 1 as [|c l1 Hc _ IH]; simpl; intros H2.
  - destruct l2 as [|c l2]; simpl; [done|]. by rewrite H2.
  - rewrite Hc. by rewrite IH.
Qed.

Lemma token_char_not_padding c : is_b64token_non_padding_character c = true -> is_padding c = false.
Proof. unfold is_padding. case_bool_decide as E; [subst; by vm_compute|done]. Qed.

Lemma is_b64token_spec t : is_b64token t = true <-> b64token t.
Proof.
  unfold is_b64token. cbv zeta. rewrite !andb_true_iff, negb_true_iff, bool_decide_eq_false. split.
  - intros [[Hne Hmain] Hpad]. exists (take (prefix_len is_padding t) t), (drop (prefix_len is_padding t) t).
    split; [by rewrite take_drop|]. split; [done|]. apply forallb_Forall in Hmain, Hpad.
    split; [done|]. eapply Forall_impl; [exact Hpad|]. intros c Hc. by apply bool_decide_eq_true in Hc.
  - intros (main & pad & -> & Hne & Hmain & Hpad).
    rewrite prefix_len_app.
    + rewrite take_app_length, drop_app_length. split; [split; [done|by apply forallb_Forall]|].
      apply forallb_Forall. eapply Forall_impl; [exact Hpad|]. intros c ->. by apply bool_decide_eq_true.
    + eapply Forall_impl; [exact Hmain|]. apply token_char_not_padding.
    + destruct Hpad as [|c pad -> _]; [done|]. by apply bool_decide_eq_true.
Qed.

Lemma sole_authorization_some fields v :
  sole_authorization fields (Some v) = Some (Some v) /\ Forall (fun f => is_authorization f = false) fields \/
  sole_authorization fields (Some v) = None /\ Exists (fun f => is_authorization f = true) fields.
Proof.
  induction fields as [|f fields IH]; simpl; [by left|].
  destruct (is_authorization f) eqn:E; [right; split; [done|by constructor]|].
  destruct IH as [[-> H]|[-> H]]; [left|right]; (split; [done|]);
    [by constructor|by apply Exists_cons_tl].
Qed.

Lemma sole_authorization_exact fields v :
  sole_authorization fields None = Some (Some v) <->
  exists l1 f l2, fields = l1 ++ f :: l2 /\ is_authorization f = true /\ value f = v /\
    Forall (fun f => is_authorization f = false) l1 /\ Forall (fun f => is_authorization f = false) l2.
Proof.
  split.
  - induction fields as [|f fields IH]; simpl; [done|].
    destruct (is_authorization f) eqn:E.
    + destruct (sole_authorization_some fields (value f)) as [[-> H]|[-> _]]; [|done].
      intros [= <-]. by exists [], f, fields.
    + intros (l1 & f' & l2 & -> & ?)%IH. exists (f :: l1), f', l2. naive_solver.
  - intros (l1 & f & l2 & -> & Hf & <- & H1 & H2). induction H1 as [|f' l1 Hf' _ IH]; simpl.
    + rewrite Hf.
      destruct (sole_authorization_some l2 (value f)) as [[-> _]|[_ Hex]]; [done|].
      apply Exists_exists in Hex as (x & Hx & Ht). rewrite Forall_forall in H2.
      by rewrite (H2 _ Hx) in Ht.
    + by rewrite Hf'.
Qed.

Lemma count_spaces_split l :
  exists spaces rest, l = spaces ++ rest /\ length spaces = count_spaces l /\
    Forall (fun c => c = " "%char) spaces /\ head rest <> Some " "%char.
Proof.
  induction l as [|c l (spaces & rest & -> & Hlen & Hall & Hh)]; simpl; [by exists [], []|].
  case_bool_decide as E.
  - exists (c :: spaces), rest. simpl. split_and!; [done|by rewrite Hlen|by constructor|done].
  - exists [], (c :: spaces ++ rest). simpl. split_and!; [done|done|done|congruence].
Qed.

Lemma count_spaces_app spaces rest :
  Forall (fun c => c = " "%char) spaces -> head rest <> Some " "%char ->
  count_spaces (spaces ++ rest) = length spaces.
Proof.
  induction 1 as [|c spaces -> _ IH]; simpl; intros Hh; [|by rewrite IH].
  destruct rest as [|c rest]; simpl; [done|]. rewrite bool_decide_false; [done|]. simpl in Hh. congruence.
Qed.

Lemma b64token_head t : b64token t -> t <> [] /\ head t <> Some " "%char.
Proof.
  intros (main & pad & -> & Hne & Hmain & _). destruct Hmain as [|c main Hc _]; [done|].
  split; [done|]. simpl. intros [= ->]. by vm_compute in Hc.
Qed.

(** A value of the form scheme, one or more spaces, token. *)
Definition bearer_value (v token : bytes) : Prop :=
  exists scheme spaces, v = scheme ++ spaces ++ token /\
    eq_ignore_ascii_case scheme (as_bytes "bearer") = true /\
    spaces <> [] /\ Forall (fun c => c = " "%char) spaces /\ b64token token.

Lemma eq_ignore_case_length a b : eq_ignore_ascii_case a b = true -> length a = length b.
Proof.
  intros H%bool_decide_eq_true. apply (f_equal length) in H. by rewrite !length_fmap in H.
Qed.

(** C32: a credential is extracted exactly when there is exactly one
    [Authorization] field (name compared without case) and its value is the
    scheme [bearer] in any case, one or more spaces, and an RFC 6750 b64token;
    the extracted credential is that token, byte for byte. *)
Theorem extract_bearer_exact (headers : HeaderList) (token : string) :
  extract_bearer headers = Some token <->
  exists l1 f l2, headers = l1 ++ f :: l2 /\ is_authorization f = true /\
    Forall (fun f => is_authorization f = false) l1 /\
    Forall (fun f => is_authorization f = false) l2 /\
    bearer_value (value f) (as_bytes token).
Proof.
  transitivity (exists v, sole_authorization headers None = Some (Some v) /\
    bearer_value v (as_bytes token)).
  2:{ setoid_rewrite sole_authorization_exact. split.
      - intros (v & (l1 & f & l2 & H1 & H2 & <- & H3 & H4) & H5). by exists l1, f, l2.
      - intros (l1 & f & l2 & H1 & H2 & H3 & H4 & H5). exists (value f). split; [|done].
        by exists l1, f, l2. }
  unfold extract_bearer. destruct (sole_authorization headers None) as [[v|]|]; [|naive_solver..].
  transitivity (bearer_value v (as_bytes token)); [|naive_solver].
  change (length (as_bytes "bearer")) with 6. cbv zeta. split.
  - destruct (_ || _) eqn:E1; [done|]. apply orb_false_iff in E1 as [E1 E2].
    apply Nat.leb_gt in E1. apply negb_false_iff in E2.
    destruct (count_spaces_split (drop 6 v)) as (spaces & rest & Hd & Hlen & Hall & Hh).
    rewrite <- Hlen. destruct (_ || _) eqn:E3; [done|]. apply orb_false_iff in E3 as [E3 E4].
    apply Nat.eqb_neq in E3, E4. rewrite <- drop_drop, Hd, drop_app_length.
    destruct (is_b64token rest) eqn:E5; [|done]. intros [= <-]. rewrite as_of_bytes.
    exists (take 6 v), spaces. split; [by rewrite <- Hd, take_drop|]. split; [done|].
    split; [destruct spaces; [simpl in E3; lia|done]|]. split; [done|by apply is_b64token_spec].
  - intros (scheme & spaces & -> & Hs & Hne & Hall & Ht).
    pose proof (eq_ignore_case_length _ _ Hs) as Hl. change (length (as_bytes "bearer")) with 6 in Hl.
    destruct (b64token_head _ Ht) as [Htne Hth].
    rewrite !length_app, take_app_length', drop_app_length' by done.
    rewrite count_spaces_app by done. rewrite Hs.
    assert (length spaces <> 0) by (by destruct spaces).
    assert (length (as_bytes token) <> 0) by (by destruct (as_bytes token)).
    rewrite (proj2 (Nat.leb_gt _ _)) by lia. cbn [negb orb].
    rewrite !(proj2 (Nat.eqb_neq _ _)) by lia. cbn [orb].
    rewrite app_assoc, drop_app_length' by (rewrite length_app; lia).
    rewrite (proj2 (is_b64token_spec _) Ht). simpl. by rewrite of_as_bytes.
Qed.

(** ** Facts: the handler *)

Section HandlerFacts.
Context {W Au S : Type} `{!Clock W, !Authenticator W Au, !TargetSynchronizer W S}.
Context (from_slice_login : bytes -> option LoginBody).
Abbreviation M := (Eff (Tr W HttpCall)).

(** The strictly valid body, if there is one. *)
Definition valid_login (body : InboundBody) : option LoginBody :=
  match body with
  | Collected b =>
      match from_slice_login b with
      | Some login => if bool_decide (event_type login = "LOGIN") then Some login else None
      | None => None
      end
  | BoundExceeded => None
  end.

Definition in_time (context : SynchronizationContext) (t : Z) (c : HttpCall) : Prop :=
  (t < deadline context)%Z.

Abbreviation timely := (fun context => guarded (fun _ => False) (in_time context)).

Lemma emits_context_unavailable context :
  emits (W := W) (context_unavailable context)
    (fun l b => calls l = [] /\
       (b = false -> exists t, l = [ECancelled false; ENow t] /\ (t < deadline context)%Z)).
Proof.
  unfold context_unavailable. eapply emits_bind;
    [by apply (emits_cancelled (fun l b => l = [ECancelled b]))|].
  intros l1 [] ->; [by apply emits_ret|].
  eapply emits_bind; [by apply (emits_now (fun l t => l = [ENow t]))|]. intros l2 t ->.
  apply emits_ret. split; [done|]. intros Ht%Z.leb_gt. by exists t.
Qed.

(** A context check in front of a continuation. *)
Lemma emits_checked context (k : M HttpOutcome) Q :
  (forall l, calls l = [] -> Q l CancelledOrExpired) ->
  (forall t, (t < deadline context)%Z ->
     emits k (fun l o => Q ([ECancelled false; ENow t] ++ l) o)) ->
  emits (let* unavailable := context_unavailable context in
         if (unavailable : bool) then eret CancelledOrExpired else k) Q.
Proof.
  intros Hstop Hk. eapply emits_bind; [apply emits_context_unavailable|].
  intros l [] [Hl H]; [by apply emits_ret, Hstop; rewrite app_nil_r|].
  destruct (H eq_refl) as (t & -> & Ht). by apply Hk.
Qed.

(** What an authenticated request may still do. *)
Definition authenticated_run (caller : AuthenticatedTechnicalCaller) (body : InboundBody)
    (context : SynchronizationContext) (cs : list HttpCall) (o : HttpOutcome) : Prop :=
  match cs with
  | [] =>
      o = CancelledOrExpired \/
      (o = InvalidRequest /\ valid_login body = None) \/
      (o = TargetlessNoop /\ is_Some (valid_login body) /\ selected (target_selection caller) = None)
  | [Synchronize request answer] =>
      exists login target, valid_login body = Some login /\
        selected (target_selection caller) = Some target /\
        request = mkSyncRequest (mkIdentityContext (login_username login) (login_groups login))
          target (caller_bearer_token caller) context /\
        o = synchronization_outcome answer
  | _ => False
  end.

Lemma handle_authenticated_emits (h : InboundHttpHandler (Au := Au) (S := S)) caller body context :
  emits (W := W) (handle_authenticated from_slice_login h (caller_bearer_token caller)
      (selected (target_selection caller)) body context)
    (fun l o => timely context l /\ authenticated_run caller body context (calls l) o).
Proof.
  unfold handle_authenticated. apply emits_checked.
  { intros l Hl. split; [by apply guarded_no_calls|]. rewrite Hl. by left. }
  intros t Ht.
  assert (valid_login body =
    match (match body with Collected b => from_slice_login b | BoundExceeded => None end) with
    | Some login => if bool_decide (event_type login = "LOGIN") then Some login else None
    | None => None end) as Hv by (by destruct body).
  destruct (match body with Collected b => from_slice_login b | BoundExceeded => None end) as [login|];
    [|apply emits_ret; split; [by apply guarded_no_calls|]; simpl; auto].
  destruct (bool_decide (event_type login = "LOGIN")); simpl;
    [|apply emits_ret; split; [by apply guarded_no_calls|]; simpl; auto].
  destruct (selected (target_selection caller)) as [target|] eqn:Hsel.
  - eapply emits_bind; [apply emits_performed|].
    intros l a ->. apply emits_ret. split; [by apply (guarded_block _ _ t)|].
    simpl. exists login, target. by rewrite Hv.
  - apply emits_checked.
    + intros l Hl. split; [by apply guarded_no_calls|]. simpl. rewrite Hl. by left.
    + intros t' _. apply emits_ret. split; [by apply guarded_no_calls|]. simpl. rewrite Hv. eauto.
Qed.

(** The whole run of one request. *)
Definition handled (headers : HeaderList) (body : InboundBody) (context : SynchronizationContext)
    (cs : list HttpCall) (o : HttpOutcome) : Prop :=
  match cs with
  | [] => o = CancelledOrExpired
  | Authenticate request answer :: rest =>
      request = mkAuthRequest (extract_bearer headers) (mkContext (deadline context)) /\
      match answer with
      | Err e => rest = [] /\ (o = CancelledOrExpired \/ o = authentication_failure_outcome e)
      | Ok caller => authenticated_run caller body context rest o
      end
  | _ => False
  end.

Lemma handle_emits (h : InboundHttpHandler (Au := Au) (S := S)) headers body context :
  emits (W := W) (handle from_slice_login h headers body context)
    (fun l o => timely context l /\ handled headers body context (calls l) o).
Proof.
  assert (forall l, calls l = [] ->
    timely context l /\ handled headers body context (calls l) CancelledOrExpired) as Hstop.
  { intros l Hl. split; [by apply guarded_no_calls|]. by rewrite Hl. }
  unfold handle. apply emits_checked; [done|]. intros t0 _.
  apply emits_checked; [intros l Hl; by apply Hstop|]. intros t Ht.
  eapply emits_bind; [apply emits_performed|].
  intros l1 answer ->.
  assert (forall l, timely context l -> timely context ([ECancelled false; ENow t0] ++
    [ECancelled false; ENow t] ++ [ECall (Authenticate
      (mkAuthRequest (extract_bearer headers) (mkContext (deadline context))) answer)] ++ l)) as Htime.
  { intros l Hl. apply guarded_app; [by apply guarded_no_calls|].
    by apply (guarded_app _ _ [ECancelled false; ENow t; ECall _]); [apply guarded_block|]. }
  unfold continue_after_authentication. destruct answer as [caller|e].
  - apply emits_checked.
    + intros l Hl. split; [apply Htime; by apply guarded_no_calls|]. simpl. rewrite Hl. simpl. auto.
    + intros t' _. eapply (emits_conseq _ _ _ (handle_authenticated_emits h caller body context)).
      intros l o [Hl Ho]. split; [|done]. apply Htime.
      by apply (guarded_app _ _ [_; _]); [apply guarded_no_calls|].
  - apply emits_checked.
    + intros l Hl. split; [apply Htime; by apply guarded_no_calls|]. simpl. rewrite Hl. simpl. auto.
    + intros t' _. apply emits_ret. split; [apply Htime; by apply guarded_no_calls|]. simpl. auto.
Qed.

Lemma handle_unfold (h : InboundHttpHandler (Au := Au) (S := S)) headers body context (s : Tr W HttpCall) :
  handle from_slice_login h headers body context s =
  let '(u1, s1) := context_unavailable context s in
  if (u1 : bool) then (CancelledOrExpired, s1) else
  let '(u2, s2) := context_unavailable context s1 in
  if (u2 : bool) then (CancelledOrExpired, s2) else
  let request := mkAuthRequest (extract_bearer headers) (mkContext (deadline context)) in
  let '(a, s3) := perform (authenticator_authenticate (authenticator h) request)
    (Authenticate request) s2 in
  continue_after_authentication from_slice_login h a body context s3.
Proof.
  unfold handle, ebind. destruct (context_unavailable context s) as [[] s1]; [done|].
  by destruct (context_unavailable context s1) as [[] s2].
Qed.

Lemma continue_appends (h : InboundHttpHandler (Au := Au) (S := S)) a body context :
  emits (W := W) (continue_after_authentication from_slice_login h a body context) (fun _ _ => True).
Proof.
  unfold continue_after_authentication. destruct a as [caller|e]; apply emits_checked; try done.
  - intros t _. eapply emits_conseq; [apply handle_authenticated_emits|done].
  - intros t _. by apply emits_ret.
Qed.

(** ** Properties *)

(** C16: one request authenticates at most once, with exactly the
    extracted credential and the request's deadline, and synchronizes at most
    once, afterwards, only for an authenticated caller with a selected target
    and a strictly valid body, passing the body's identity, the selected target,
    the caller's exact bearer and the request's deadline.  The outcome is the
    one the last stage reached determines.  Both calls are immediately preceded
    by a poll that found the request neither cancelled nor expired. *)
Theorem handle_order (h : InboundHttpHandler (Au := Au) (S := S)) (headers : HeaderList) (body : InboundBody)
    (context : SynchronizationContext) (w : W) :
  let '(o, s) := handle from_slice_login h headers body context (mkTr w []) in
  guarded (fun _ => False) (in_time context) (trace s) /\
  handled headers body context (calls (trace s)) o.
Proof.
  pose proof (emits_run _ _ w (handle_emits h headers body context)) as H.
  by destruct (handle _ _ _ _ _ _).
Qed.

(** When authentication does not succeed, the body is
    irrelevant: every body, valid, malformed or over the bound, gives the same
    outcome and the same observable run. *)
Lemma unauthenticated_body_irrelevant (h : InboundHttpHandler (Au := Au) (S := S))
    (headers : HeaderList) (body body' : InboundBody) (context : SynchronizationContext) (w : W) :
  (forall request caller, Authenticate request (Ok caller) ∉
     calls (trace (handle from_slice_login h headers body context (mkTr w [])).2)) ->
  handle from_slice_login h headers body' context (mkTr w []) =
  handle from_slice_login h headers body context (mkTr w []).
Proof.
  rewrite !handle_unfold. destruct (context_unavailable context _) as [[] s1]; [done|].
  destruct (context_unavailable context _) as [[] s2]; [done|].
  unfold perform. destruct (authenticator_authenticate _ _ _) as [[caller|e] w']; [|done].
  intros Hno. exfalso.
  set (s3 := mkTr w' (trace s2 ++ [ECall (Authenticate
    (mkAuthRequest (extract_bearer headers) (mkContext (deadline context))) (Ok caller))])) in *.
  destruct (continue_appends h (Ok caller) body context s3) as (l & Hl & _).
  apply (Hno (mkAuthRequest (extract_bearer headers) (mkContext (deadline context))) caller).
  rewrite Hl. apply elem_of_calls. unfold s3. simpl. set_solver.
Qed.
End HandlerFacts.

Module Sample.
#[local] Instance idle_clock : Clock unit :=
  {| now := fun w => (0%Z, w); is_cancelled := fun w => (false, w) |}.
#[local] Instance rejecting : Authenticator unit unit := fun _ _ w => (Err Rejected, w).
#[local] Instance unreachable_sync : TargetSynchronizer unit unit :=
  fun _ _ w => (Err UnknownTarget, w).

Lemma unauthenticated_body_irrelevant_witness :
  handle (fun _ => None) (mkHandler tt tt) [] BoundExceeded (mkContext 9) (mkTr tt []) =
  handle (fun _ => None) (mkHandler tt tt) [] (Collected []) (mkContext 9) (mkTr tt []).
Proof.
  apply (unauthenticated_body_irrelevant (fun _ => None) (mkHandler tt tt) [] (Collected [])
    BoundExceeded (mkContext 9) tt).
  intros request caller.
  change (Authenticate request (Ok caller) ∉
    [Authenticate (mkAuthRequest None (mkContext 9)) (Err Rejected)]).
  rewrite list_elem_of_singleton. discriminate.
Defined.
End Sample.

(** The selected-target synchronizer behind the handler's port. *)
#[global] Instance synchronizer_port {W A P Cap Permit EP EA : Type}
    `{!Clock W, !PermissionProvider W P EP, !TargetAdapter W A EA,
      !SynchronizationCapacity W Cap Permit}
  : TargetSynchronizer W (SelectedTargetSynchronizer (A := A) (P := P) (Cap := Cap)) :=
  fun s request w =>
    let '(r, t) := synchronize (EP := EP) (EA := EA) (Permit := Permit) s request (mkTr w []) in
    (r, world t).
