(* ===== verification/Admission.v ===== *)
(** * Runtime: lifecycle and inbound admission

    Models [src/runtime/lifecycle.rs] and [src/runtime/admission.rs] as a
    transition system: every request runs [admit] as its own task, one shared
    memory operation per step, interleaved with every other task, the clock and
    shutdown.  Tokio's semaphore is a parameter with its documented laws. *)
From S2P Require Import Prelude.

(** ** The semaphore interface *)

(** [tokio::sync::Semaphore]: [try_acquire] and a completed [acquire] both take
    one available permit; dropping a permit returns it. *)
Class Semaphore (Sem : Type) : Type := {
  MAX_PERMITS : N;
  sem_new : nat -> Sem;
  sem_try_acquire : Sem -> option Sem;
  sem_release : Sem -> Sem;
  sem_available : Sem -> nat;
  sem_available_new : forall n, sem_available (sem_new n) = n;
  sem_try_acquire_none : forall s, sem_try_acquire s = None <-> sem_available s = 0;
  sem_try_acquire_some : forall s s', sem_try_acquire s = Some s' -> sem_available s = S (sem_available s');
  sem_available_release : forall s, sem_available (sem_release s) = S (sem_available s);
}.

(** ** Lifecycle *)

(** [shutdown] is the generation of the [Notify]: how often [notify_waiters] ran.
    [unsent] counts the calls of [begin_shutdown] and [cancel_requests] that have
    stored their flag and not yet notified. *)
Record Lifecycle : Type := mkLifecycle {
  shutting_down : bool;
  requests_cancelled : bool;
  shutdown : N;
  unsent : N;
}.

Definition lifecycle_new : Lifecycle := mkLifecycle false false 0 0.

(** The flag store of [begin_shutdown] and of [cancel_requests]; the
    [notify_waiters] that ends both is a step of its own. *)
Definition begin_shutdown (l : Lifecycle) : Lifecycle :=
  mkLifecycle true (requests_cancelled l) (shutdown l) (unsent l + 1).
Definition cancel_requests (l : Lifecycle) : Lifecycle :=
  mkLifecycle (shutting_down l) true (shutdown l) (unsent l + 1).
Definition notify_waiters (l : Lifecycle) : option Lifecycle :=
  if (unsent l =? 0)%N then None
  else Some (mkLifecycle (shutting_down l) (requests_cancelled l) (shutdown l + 1) (unsent l - 1)).

(** ** Admission *)

(** [waiter_slots] and [derived_semaphore_sizes]. *)
Definition waiter_slots (inbound_admission_limit : nat) : nat := inbound_admission_limit.
Definition derived_semaphore_sizes {Sem} `{Semaphore Sem} (inbound_admission_limit : nat) : option (nat * nat) :=
  let admitted := inbound_admission_limit in
  let waiting := waiter_slots inbound_admission_limit in
  if forallb (fun size => (N.of_nat size <=? MAX_PERMITS)%N) [admitted; waiting]
  then Some (admitted, waiting) else None.

Inductive Outcome : Type :=
| NotAdmitted
| RefusedWithoutWaiting
| Completed.

(** Where one request's [admit] is, named by the operation it does next. *)
Inductive Phase : Type :=
| EntryFlag        (** reads the lifecycle *)
| EntryTime        (** reads the clock *)
| TryPermit        (** [permits.try_acquire_owned] *)
| TryWaiter        (** [waiters.try_acquire_owned] *)
| Enabling         (** holds a waiter slot; [shutdown_started] registers with the [Notify] *)
| Registered (seen : N)  (** registered at generation [seen]; re-reads the lifecycle *)
| Parked (seen : N)      (** waits in [select!] *)
| Woken (permit : bool)  (** [select!] resolved; drops the guard and the slot *)
| FinalFlag        (** holds a permit; [finalize] reads the lifecycle *)
| FinalTime        (** holds a permit; [finalize] reads the clock *)
| Releasing        (** holds a permit that [finalize] drops *)
| AdmittedRequest         (** holds a permit for its complete handling *)
| Finished (o : Outcome).

Record Task : Type := mkTask { task_deadline : Z; task_phase : Phase }.

Section Admission.
Context {Sem : Type} `{!Semaphore Sem}.

Record AdmissionState : Type := mkState {
  permits : Sem;
  waiters : Sem;
  lifecycle : Lifecycle;
  clock : Z;
  tasks : gmap N Task;
  requests_in_flight : Z;
  admission_waiters : Z;
  admission_abandoned_total : N;
  admission_saturated_total : N;
  admission_refused_total : N;
}.

(** [InboundAdmission::new], at process start. *)
Definition admission_new (limit : nat) : option AdmissionState :=
  match derived_semaphore_sizes (Sem := Sem) limit with
  | None => None
  | Some (admitted, waiting) =>
      Some (mkState (sem_new admitted) (sem_new waiting) lifecycle_new 0 ∅ 0 0 0 0 0)
  end.

Definition set_phase (i : N) (t : Task) (p : Phase) (s : AdmissionState) : AdmissionState :=
  mkState (permits s) (waiters s) (lifecycle s) (clock s)
    (<[i := mkTask (task_deadline t) p]> (tasks s)) (requests_in_flight s) (admission_waiters s)
    (admission_abandoned_total s) (admission_saturated_total s) (admission_refused_total s).
Definition set_permits (x : Sem) (s : AdmissionState) : AdmissionState :=
  mkState x (waiters s) (lifecycle s) (clock s) (tasks s) (requests_in_flight s) (admission_waiters s)
    (admission_abandoned_total s) (admission_saturated_total s) (admission_refused_total s).
Definition set_waiters (x : Sem) (s : AdmissionState) : AdmissionState :=
  mkState (permits s) x (lifecycle s) (clock s) (tasks s) (requests_in_flight s) (admission_waiters s)
    (admission_abandoned_total s) (admission_saturated_total s) (admission_refused_total s).
Definition add_gauges (in_flight waiting : Z) (s : AdmissionState) : AdmissionState :=
  mkState (permits s) (waiters s) (lifecycle s) (clock s) (tasks s)
    (requests_in_flight s + in_flight) (admission_waiters s + waiting)
    (admission_abandoned_total s) (admission_saturated_total s) (admission_refused_total s).
Definition add_counters (abandoned saturated refused : N) (s : AdmissionState) : AdmissionState :=
  mkState (permits s) (waiters s) (lifecycle s) (clock s) (tasks s)
    (requests_in_flight s) (admission_waiters s)
    (admission_abandoned_total s + abandoned) (admission_saturated_total s + saturated)
    (admission_refused_total s + refused).
Definition set_lifecycle (l : Lifecycle) (s : AdmissionState) : AdmissionState :=
  mkState (permits s) (waiters s) l (clock s) (tasks s) (requests_in_flight s) (admission_waiters s)
    (admission_abandoned_total s) (admission_saturated_total s) (admission_refused_total s).
Definition set_clock (t : Z) (s : AdmissionState) : AdmissionState :=
  mkState (permits s) (waiters s) (lifecycle s) t (tasks s) (requests_in_flight s) (admission_waiters s)
    (admission_abandoned_total s) (admission_saturated_total s) (admission_refused_total s).

(** The next operation of one task outside [select!]. *)
Definition run_task (i : N) (t : Task) (s : AdmissionState) : option AdmissionState :=
  match task_phase t with
  | EntryFlag =>
      if shutting_down (lifecycle s)
      then Some (add_counters 1 0 0 (set_phase i t (Finished NotAdmitted) s))
      else Some (set_phase i t EntryTime s)
  | EntryTime =>
      if (task_deadline t <=? clock s)%Z
      then Some (add_counters 1 0 0 (set_phase i t (Finished NotAdmitted) s))
      else Some (set_phase i t TryPermit s)
  | TryPermit =>
      match sem_try_acquire (permits s) with
      | Some p => Some (set_permits p (set_phase i t FinalFlag s))
      | None => Some (add_counters 0 1 0 (set_phase i t TryWaiter s))
      end
  | TryWaiter =>
      match sem_try_acquire (waiters s) with
      | Some q => Some (add_gauges 0 1 (set_waiters q (set_phase i t Enabling s)))
      | None => Some (add_counters 0 0 1 (set_phase i t (Finished RefusedWithoutWaiting) s))
      end
  | Enabling => Some (set_phase i t (Registered (shutdown (lifecycle s))) s)
  | Registered seen =>
      if shutting_down (lifecycle s) then Some (set_phase i t (Woken false) s)
      else Some (set_phase i t (Parked seen) s)
  | Parked _ => None
  | Woken true =>
      Some (add_gauges 0 (-1) (set_waiters (sem_release (waiters s)) (set_phase i t FinalFlag s)))
  | Woken false =>
      Some (add_counters 1 0 0 (add_gauges 0 (-1)
        (set_waiters (sem_release (waiters s)) (set_phase i t (Finished NotAdmitted) s))))
  | FinalFlag =>
      if shutting_down (lifecycle s) then Some (set_phase i t Releasing s)
      else Some (set_phase i t FinalTime s)
  | FinalTime =>
      if (task_deadline t <=? clock s)%Z then Some (set_phase i t Releasing s)
      else Some (add_gauges 1 0 (set_phase i t AdmittedRequest s))
  | Releasing =>
      Some (add_counters 1 0 0 (set_permits (sem_release (permits s))
        (set_phase i t (Finished NotAdmitted) s)))
  | AdmittedRequest =>
      Some (add_gauges (-1) 0 (set_permits (sem_release (permits s))
        (set_phase i t (Finished Completed) s)))
  | Finished _ => None
  end.

(** How [select!] resolves for a parked task: a notification later than its
    registration, a permit, its deadline; [Dropped] abandons the future.  The
    branches are polled in that order, and the flag may be set between two polls,
    so every resolution that is ready may be the one that happens. *)
Inductive Wake : Type := ByShutdown | ByPermit | ByDeadline | Dropped.

Definition wake_task (i : N) (t : Task) (w : Wake) (s : AdmissionState) : option AdmissionState :=
  match task_phase t with
  | Parked seen =>
      match w with
      | ByShutdown => if (seen <? shutdown (lifecycle s))%N then Some (set_phase i t (Woken false) s) else None
      | ByPermit =>
          match sem_try_acquire (permits s) with
          | Some p => Some (set_permits p (set_phase i t (Woken true) s))
          | None => None
          end
      | ByDeadline => if (task_deadline t <=? clock s)%Z then Some (set_phase i t (Woken false) s) else None
      | Dropped =>
          Some (add_gauges 0 (-1) (set_waiters (sem_release (waiters s))
            (set_phase i t (Finished NotAdmitted) s)))
      end
  | _ => None
  end.

Inductive Action : Type :=
| Arrive (i : N) (deadline : Z)
| Run (i : N)
| WakeBy (i : N) (w : Wake)
| Elapse (d : N)
| BeginShutdown
| CancelRequests
| NotifyWaiters.

Definition step (a : Action) (s : AdmissionState) : option AdmissionState :=
  match a with
  | Arrive i d =>
      match tasks s !! i with
      | Some _ => None
      | None => Some (set_phase i (mkTask d EntryFlag) EntryFlag s)
      end
  | Run i => tasks s !! i ≫= (fun t => run_task i t s)
  | WakeBy i w => tasks s !! i ≫= (fun t => wake_task i t w s)
  | Elapse d => Some (set_clock (clock s + Z.of_N d) s)
  | BeginShutdown => Some (set_lifecycle (begin_shutdown (lifecycle s)) s)
  | CancelRequests => Some (set_lifecycle (cancel_requests (lifecycle s)) s)
  | NotifyWaiters => (fun l => set_lifecycle l s) <$> notify_waiters (lifecycle s)
  end.

Inductive reachable (s : AdmissionState) : AdmissionState -> Prop :=
| reachable_refl : reachable s s
| reachable_step s' a s'' : reachable s s' -> step a s' = Some s'' -> reachable s s''.

(** Runs a schedule. *)
Fixpoint run (l : list Action) (s : AdmissionState) : option AdmissionState :=
  match l with [] => Some s | a :: rest => step a s ≫= run rest end.
End Admission.

(** ** Accounting *)

Definition holds_permit (p : Phase) : nat :=
  match p with Woken true | FinalFlag | FinalTime | Releasing | AdmittedRequest => 1 | _ => 0 end.
Definition holds_slot (p : Phase) : nat :=
  match p with Enabling | Registered _ | Parked _ | Woken _ => 1 | _ => 0 end.
Definition is_admitted (p : Phase) : nat := match p with AdmittedRequest => 1 | _ => 0 end.

(** The number of tasks whose phase weighs 1. *)
Definition total (w : Phase -> nat) (m : gmap N Task) : nat :=
  map_fold (fun _ t acc => w (task_phase t) + acc) 0 m.

Lemma total_insert_new w m i t : m !! i = None -> total w (<[i := t]> m) = w (task_phase t) + total w m.
Proof. intros Hi. unfold total. rewrite map_fold_insert_L; [done|intros; lia|done]. Qed.

Lemma total_insert w m i t t' :
  m !! i = Some t -> total w (<[i := t']> m) + w (task_phase t) = w (task_phase t') + total w m.
Proof.
  intros Hi. rewrite <- (insert_delete_id m i t Hi) at 2. rewrite <- insert_delete_eq.
  rewrite !total_insert_new by apply lookup_delete_eq. lia.
Qed.

Section AdmissionFacts.
Context {Sem : Type} `{!Semaphore Sem}.

(** Every permit and slot is available or held by exactly one task; the gauges
    count the admitted and the waiting tasks. *)
Definition accounted (limit : nat) (s : AdmissionState (Sem := Sem)) : Prop :=
  sem_available (permits s) + total holds_permit (tasks s) = limit /\
  sem_available (waiters s) + total holds_slot (tasks s) = waiter_slots limit /\
  requests_in_flight s = Z.of_nat (total is_admitted (tasks s)) /\
  admission_waiters s = Z.of_nat (total holds_slot (tasks s)).

Lemma accounted_new limit s : admission_new limit = Some s -> accounted limit s.
Proof.
  unfold admission_new, derived_semaphore_sizes, accounted. destruct (forallb _ _); [|done].
  intros [= <-]. simpl. rewrite !sem_available_new. done.
Qed.

(** Moving one task to a new phase changes each total by that task's weight. *)
Lemma accounted_move limit s i t p (x y : Sem) (l : Lifecycle) (c : Z) (f g : Z) (a b d : N) :
  accounted limit s -> tasks s !! i = Some t ->
  sem_available x + holds_permit p = sem_available (permits s) + holds_permit (task_phase t) ->
  sem_available y + holds_slot p = sem_available (waiters s) + holds_slot (task_phase t) ->
  (f + Z.of_nat (is_admitted (task_phase t)) = requests_in_flight s + Z.of_nat (is_admitted p))%Z ->
  (g + Z.of_nat (holds_slot (task_phase t)) = admission_waiters s + Z.of_nat (holds_slot p))%Z ->
  accounted limit (mkState x y l c (<[i := mkTask (task_deadline t) p]> (tasks s)) f g a b d).
Proof.
  intros (H1 & H2 & H3 & H4) Hi Hx Hy Hf Hg. unfold accounted. simpl.
  pose proof (total_insert holds_permit _ _ _ (mkTask (task_deadline t) p) Hi) as T1.
  pose proof (total_insert holds_slot _ _ _ (mkTask (task_deadline t) p) Hi) as T2.
  pose proof (total_insert is_admitted _ _ _ (mkTask (task_deadline t) p) Hi) as T3.
  simpl in T1, T2, T3. lia.
Qed.

Lemma run_task_accounted limit i t s s' :
  accounted limit s -> tasks s !! i = Some t -> run_task i t s = Some s' -> accounted limit s'.
Proof.
  intros HA Hi. unfold run_task.
  destruct (task_phase t) as [| | | | | | |[]| | | | |] eqn:Hp; intros Hs; repeat case_match; simplify_eq;
    apply (accounted_move limit s i t); try done; rewrite Hp; simpl;
    repeat match goal with
    | H : sem_try_acquire _ = Some _ |- _ => apply sem_try_acquire_some in H
    end; rewrite ?sem_available_release; lia.
Qed.

Lemma wake_task_accounted limit i t w s s' :
  accounted limit s -> tasks s !! i = Some t -> wake_task i t w s = Some s' -> accounted limit s'.
Proof.
  intros HA Hi. unfold wake_task.
  destruct (task_phase t) eqn:Hp; try done; destruct w; intros Hs; repeat case_match; simplify_eq;
    apply (accounted_move limit s i t); try done; rewrite Hp; simpl;
    repeat match goal with
    | H : sem_try_acquire _ = Some _ |- _ => apply sem_try_acquire_some in H
    end; rewrite ?sem_available_release; lia.
Qed.

Lemma step_accounted limit a s s' : accounted limit s -> step a s = Some s' -> accounted limit s'.
Proof.
  intros HA. destruct a as [i d|i|i w|d| | |]; simpl.
  - destruct (tasks s !! i) eqn:Hi; [done|]. intros [= <-]. unfold accounted in *. simpl.
    rewrite !total_insert_new by done. simpl. lia.
  - destruct (tasks s !! i) as [t|] eqn:Hi; [|done]. simpl. by apply run_task_accounted.
  - destruct (tasks s !! i) as [t|] eqn:Hi; [|done]. simpl. by apply wake_task_accounted.
  - by intros [= <-].
  - by intros [= <-].
  - by intros [= <-].
  - unfold notify_waiters. case_match; [done|]. intros [= <-]. done.
Qed.

Lemma reachable_accounted limit s s' : accounted limit s -> reachable s s' -> accounted limit s'.
Proof. intros HA. induction 1 as [|s' a s'' _ IH Hs]; [done|]. by eapply step_accounted. Qed.

Lemma total_le w w' m : (forall p, w p <= w' p) -> total w m <= total w' m.
Proof.
  intros Hw. unfold total. apply (map_fold_weak_ind (fun r m => r <= map_fold (fun _ t acc => w' (task_phase t) + acc) 0 m)); [done|].
  intros i t m' r Hi Hr. rewrite map_fold_insert_L; [|intros; lia|done]. specialize (Hw (task_phase t)). lia.
Qed.

(** ** Shutdown *)

(** The task may still be admitted once shutdown has begun: it already passed
    the lifecycle read of [finalize], or holds its permit. *)
Definition past_decision (p : Phase) : bool := match p with FinalTime | AdmittedRequest => true | _ => false end.

Definition barred (i : N) (s : AdmissionState (Sem := Sem)) : Prop :=
  shutting_down (lifecycle s) = true /\
  match tasks s !! i with Some t => past_decision (task_phase t) = false | None => True end.

Lemma lookup_moved (m : gmap N Task) i j t p :
  match (<[j := mkTask (task_deadline t) p]> m) !! i with
  | Some t' => past_decision (task_phase t') = false | None => True end <->
  (if bool_decide (j = i) then past_decision p = false
   else match m !! i with Some t' => past_decision (task_phase t') = false | None => True end).
Proof.
  case_bool_decide as E; [subst; by rewrite lookup_insert_eq|by rewrite lookup_insert_ne].
Qed.

Lemma step_barred i a s s' : barred i s -> step a s = Some s' -> barred i s'.
Proof.
  intros [Hd Hi]. destruct a as [j d|j|j w|d| | |]; simpl.
  - destruct (tasks s !! j) eqn:Hj; [done|]. intros [= <-]. split; [done|]. simpl.
    apply (lookup_moved _ i j (mkTask d EntryFlag)). by case_bool_decide.
  - destruct (tasks s !! j) as [t|] eqn:Hj; [|done]. simpl. unfold run_task. rewrite Hd.
    intros Hs. split; [repeat case_match; simplify_eq; done|].
    destruct (decide (j = i)) as [->|Hne].
    + rewrite Hj in Hi. repeat case_match; simplify_eq/=; rewrite ?lookup_insert_eq in *; by simplify_eq.
    + repeat case_match; simplify_eq/=; rewrite ?lookup_insert_ne in * by done; by simplify_eq.
  - destruct (tasks s !! j) as [t|] eqn:Hj; [|done]. simpl. unfold wake_task.
    intros Hs. split; [repeat case_match; simplify_eq; done|].
    destruct (decide (j = i)) as [->|Hne].
    + rewrite Hj in Hi. repeat case_match; simplify_eq/=; rewrite ?lookup_insert_eq in *; by simplify_eq.
    + repeat case_match; simplify_eq/=; rewrite ?lookup_insert_ne in * by done; by simplify_eq.
  - by intros [= <-].
  - by intros [= <-].
  - by intros [= <-].
  - unfold notify_waiters. destruct (unsent (lifecycle s) =? 0)%N; [done|]. intros [= <-]. by split.
Qed.

Lemma reachable_barred i s s' : barred i s -> reachable s s' -> barred i s'.
Proof. intros HB. induction 1 as [|s' a s'' _ IH Hs]; [done|]. by eapply step_barred. Qed.

(** ** Notification *)

(** A registration never lies ahead of the [Notify]; once shutdown has begun, a
    waiter that went to sleep has a notification sent, or still to be sent, after
    its registration. *)
Definition registered_ok (l : Lifecycle) (p : Phase) : Prop :=
  match p with
  | Registered seen => (seen <= shutdown l)%N
  | Parked seen => (seen <= shutdown l)%N /\ (shutting_down l = true -> seen < shutdown l + unsent l)%N
  | _ => True
  end.

Definition heard (s : AdmissionState (Sem := Sem)) : Prop :=
  map_Forall (fun _ t => registered_ok (lifecycle s) (task_phase t)) (tasks s).

Lemma heard_move s i t p :
  heard s -> registered_ok (lifecycle s) p ->
  map_Forall (fun _ t => registered_ok (lifecycle s) (task_phase t))
    (<[i := mkTask (task_deadline t) p]> (tasks s)).
Proof. intros HS Hp. by apply map_Forall_insert_2. Qed.

Lemma heard_lifecycle s l :
  heard s -> (forall p, registered_ok (lifecycle s) p -> registered_ok l p) ->
  map_Forall (fun _ t => registered_ok l (task_phase t)) (tasks s).
Proof. intros HS Hl. eapply map_Forall_impl; [exact HS|]. simpl. eauto. Qed.

Lemma step_heard a s s' : heard s -> step a s = Some s' -> heard s'.
Proof.
  intros HS. destruct a as [j d|j|j w|d| | |]; simpl.
  - destruct (tasks s !! j) eqn:Hj; [done|]. intros [= <-]. by apply (heard_move s j (mkTask d EntryFlag)).
  - destruct (tasks s !! j) as [t|] eqn:Hj; [|done]. simpl. pose proof (HS _ _ Hj) as Ht. simpl in Ht.
    unfold run_task. intros Hs. repeat case_match; simplify_eq; apply (heard_move s); simpl in *;
      try done; try lia. split; [done|congruence].
  - destruct (tasks s !! j) as [t|] eqn:Hj; [|done]. simpl. unfold wake_task.
    intros Hs. repeat case_match; simplify_eq; by apply (heard_move s).
  - by intros [= <-].
  - intros [= <-]. apply (heard_lifecycle s); [done|]. intros []; simpl; try done; try lia.
  - intros [= <-]. apply (heard_lifecycle s); [done|]. intros []; simpl; try done.
    intros [? H]; split; [done|]. intros Hd. specialize (H Hd). lia.
  - unfold notify_waiters. case_match eqn:E; [done|]. apply N.eqb_neq in E. intros [= <-].
    apply (heard_lifecycle s); [done|]. intros []; simpl; try done; lia.
Qed.

Lemma reachable_heard limit s0 s : admission_new limit = Some s0 -> reachable s0 s -> heard s.
Proof.
  intros H0. induction 1 as [|s' a s'' _ IH Hs]; [|by eapply step_heard].
  unfold admission_new in H0. case_match; [|done]. case_match. simplify_eq. apply map_Forall_empty.
Qed.

(** ** Progress *)

(** Operations left before [admit] and the request are over, at most. *)
Definition rank (p : Phase) : nat :=
  match p with
  | EntryFlag => 11 | EntryTime => 10 | TryPermit => 9 | TryWaiter => 8
  | Enabling => 7 | Registered _ => 6 | Parked _ => 5 | Woken _ => 4
  | FinalFlag => 3 | FinalTime => 2 | Releasing | AdmittedRequest => 1 | Finished _ => 0
  end.

Definition moved (t t' : Task) : Prop :=
  task_deadline t' = task_deadline t /\ rank (task_phase t') < rank (task_phase t).

Lemma run_task_moves i t s s' :
  run_task i t s = Some s' -> exists t', tasks s' = <[i := t']> (tasks s) /\ moved t t'.
Proof.
  unfold run_task, moved. destruct (task_phase t) as [| | | | | | |[]| | | | |] eqn:Hp; intros Hs;
    repeat case_match; simplify_eq; (eexists; split; [reflexivity|]); simpl; lia.
Qed.

Lemma wake_task_moves i t w s s' :
  wake_task i t w s = Some s' -> exists t', tasks s' = <[i := t']> (tasks s) /\ moved t t'.
Proof.
  unfold wake_task, moved. destruct (task_phase t) eqn:Hp; try done. destruct w; intros Hs;
    repeat case_match; simplify_eq; (eexists; split; [reflexivity|]); simpl; lia.
Qed.

Lemma moved_lookup (m : gmap N Task) i j t tj t' :
  m !! i = Some t -> m !! j = Some tj -> moved tj t' ->
  exists t'', (<[j := t']> m) !! i = Some t'' /\ (t'' = t \/ moved t t'').
Proof.
  intros Hi Hj Hm. destruct (decide (j = i)) as [->|Hne].
  - rewrite lookup_insert_eq. rewrite Hi in Hj. injection Hj as ->. eauto.
  - rewrite lookup_insert_ne by done. eauto.
Qed.

(** ** Properties *)

(** C17: in every reachable state, whatever the interleaving, at
    most [limit] requests are admitted, at most as many more are waiting, the
    admitted and waiting population is at most twice the limit, every permit and
    slot is available or held by exactly one request (none leaks, on any path,
    dropped waits included), and both gauges are exact. *)
Theorem admission_bounded (limit : nat) (s0 s : AdmissionState (Sem := Sem)) :
  admission_new limit = Some s0 -> reachable s0 s ->
  total is_admitted (tasks s) <= limit /\
  total holds_slot (tasks s) <= waiter_slots limit /\
  total holds_permit (tasks s) + total holds_slot (tasks s) <= limit + limit /\
  sem_available (permits s) = limit - total holds_permit (tasks s) /\
  sem_available (waiters s) = limit - total holds_slot (tasks s) /\
  requests_in_flight s = Z.of_nat (total is_admitted (tasks s)) /\
  admission_waiters s = Z.of_nat (total holds_slot (tasks s)).
Proof.
  intros H0 Hr. apply accounted_new in H0.
  destruct (reachable_accounted _ _ _ H0 Hr) as (H1 & H2 & H3 & H4).
  assert (total is_admitted (tasks s) <= total holds_permit (tasks s)) as Hle.
  { apply total_le. by intros [| | | | | | |[]| | | | |]; simpl; lia. }
  unfold waiter_slots in *. split_and!; try done; lia.
Qed.

(** C33: once shutdown has begun, a request that has not yet
    passed the lifecycle read of [finalize], or that arrives later, is never
    admitted, whatever happens afterwards. *)
Theorem no_admission_after_shutdown (i : N) (s s' : AdmissionState (Sem := Sem)) :
  shutting_down (lifecycle s) = true ->
  match tasks s !! i with Some t => past_decision (task_phase t) = false | None => True end ->
  reachable s s' ->
  forall t, tasks s' !! i = Some t -> task_phase t <> AdmittedRequest.
Proof.
  intros Hd Hi Hr t Ht Ha. destruct (reachable_barred i s s' (conj Hd Hi) Hr) as [_ H].
  rewrite Ht, Ha in H. done.
Qed.

(** C34: no step of the system moves a request backwards: it
    stays where it is or gets strictly closer to its end, so a request takes at
    most eleven steps of its own.  A request that is neither finished nor parked
    always has its next step.  A parked one has one as soon as shutdown has begun
    and its notification is sent, its deadline passes or a permit is available:
    a shutdown that starts between the registration of the waiter and its flag
    read is never missed. *)
Theorem admission_progress (limit : nat) (i : N) (t : Task) (s0 s : AdmissionState (Sem := Sem)) :
  admission_new limit = Some s0 -> reachable s0 s -> tasks s !! i = Some t ->
  (forall a s', step a s = Some s' ->
     exists t', tasks s' !! i = Some t' /\ (t' = t \/ moved t t')) /\
  match task_phase t with
  | Finished _ => True
  | Parked _ =>
      (shutting_down (lifecycle s) = true /\ unsent (lifecycle s) = 0%N) \/
        (task_deadline t <= clock s)%Z \/ sem_available (permits s) <> 0 ->
      exists w s', w <> Dropped /\ step (WakeBy i w) s = Some s'
  | _ => exists s', step (Run i) s = Some s'
  end.
Proof.
  intros H0 Hr Hi. split.
  - intros a s'. destruct a as [j d|j|j w|d| | |]; simpl.
    + destruct (tasks s !! j) eqn:Hj; [done|]. intros [= <-]. simpl.
      rewrite lookup_insert_ne by congruence. eauto.
    + destruct (tasks s !! j) as [tj|] eqn:Hj; [|done]. simpl.
      intros (t' & -> & Hm)%run_task_moves. by eapply moved_lookup.
    + destruct (tasks s !! j) as [tj|] eqn:Hj; [|done]. simpl.
      intros (t' & -> & Hm)%wake_task_moves. by eapply moved_lookup.
    + intros [= <-]. eauto.
    + intros [= <-]. eauto.
    + intros [= <-]. eauto.
    + unfold notify_waiters. case_match; [done|]. intros [= <-]. eauto.
  - simpl. rewrite Hi. simpl. unfold run_task, wake_task.
    destruct (task_phase t) as [| | | | | | |[]| | | | |] eqn:Hp; try done;
      try (repeat case_match; eauto; fail).
    pose proof (reachable_heard _ _ _ H0 Hr _ _ Hi) as Hh. simpl in Hh. rewrite Hp in Hh.
    intros [[Hd Hu]|[H|H]].
    + exists ByShutdown. destruct Hh as [_ Hh]. specialize (Hh Hd). rewrite Hu, N.add_0_r in Hh.
      apply N.ltb_lt in Hh. rewrite Hh. eauto.
    + exists ByDeadline. apply Z.leb_le in H. rewrite H. eauto.
    + exists ByPermit. destruct (sem_try_acquire (permits s)) eqn:E; [eauto|].
      by apply sem_try_acquire_none in E.
Qed.
End AdmissionFacts.

(** ** A concrete semaphore *)
Module Sample.
#[local] Program Instance counter : Semaphore nat := {|
  MAX_PERMITS := 2305843009213693951;
  sem_new := fun n => n;
  sem_try_acquire := fun s => match s with 0 => None | S s' => Some s' end;
  sem_release := S;
  sem_available := fun s => s;
|}.
Next Obligation. done. Qed.
Next Obligation. by intros []. Qed.
Next Obligation. intros [|s] s'; simpl; congruence. Qed.
Next Obligation. done. Qed.

(** Three requests on a limit of one: one is admitted, one waits, one is refused. *)
Definition schedule : list Action :=
  [Arrive 1 50; Arrive 2 50; Arrive 3 50; Run 1; Run 1; Run 1; Run 1; Run 1;
   Run 2; Run 2; Run 2; Run 2; Run 2; Run 2; Run 3; Run 3; Run 3; Run 3].

Definition start : AdmissionState (Sem := nat) :=
  mkState 1 1 lifecycle_new 0 ∅ 0 0 0 0 0.
Definition after (l : list Action) : AdmissionState (Sem := nat) := default start (run l start).
Definition saturated : AdmissionState (Sem := nat) := after schedule.

(** The same, and then shutdown. *)
Definition shut : AdmissionState (Sem := nat) := after (schedule ++ [BeginShutdown; NotifyWaiters]).

Lemma reachable_run (l : list Action) (s0 s s' : AdmissionState (Sem := nat)) :
  reachable s0 s -> run l s = Some s' -> reachable s0 s'.
Proof.
  revert s. induction l as [|a l IH]; intros s Hr; simpl; [by intros [= <-]|].
  destruct (step a s) as [s1|] eqn:E; [|done]. simpl. apply IH. by eapply reachable_step.
Qed.

Lemma after_reachable l : is_Some (run l start) -> reachable start (after l).
Proof.
  intros [s' Hs]. unfold after. rewrite Hs. apply (reachable_run l start start); [apply reachable_refl|done].
Qed.

Example saturated_phases :
  task_phase <$> (tasks saturated !! 1%N) = Some AdmittedRequest /\
  task_phase <$> (tasks saturated !! 2%N) = Some (Parked 0) /\
  task_phase <$> (tasks saturated !! 3%N) = Some (Finished RefusedWithoutWaiting).
Proof. vm_compute. done. Qed.

Lemma admission_bounded_witness :
  total is_admitted (tasks saturated) <= 1 /\ total holds_slot (tasks saturated) <= 1.
Proof.
  destruct (admission_bounded 1 start saturated) as (H1 & H2 & _).
  - reflexivity.
  - apply after_reachable. vm_compute. by eexists.
  - split; [exact H1|exact H2].
Defined.

(** After shutdown the admitted request ends and the waiting one gets its permit. *)
Definition late_permit : list Action := [Run 1; WakeBy 2 ByPermit; Run 2; Run 2; Run 2].
Definition rejected : AdmissionState (Sem := nat) := default start (run late_permit shut).

Lemma no_admission_after_shutdown_witness :
  tasks rejected !! 2%N = Some (mkTask 50 (Finished NotAdmitted)) /\
  task_phase (mkTask 50 (Finished NotAdmitted)) <> AdmittedRequest.
Proof.
  assert (tasks rejected !! 2%N = Some (mkTask 50 (Finished NotAdmitted))) as Ht
    by (vm_compute; reflexivity).
  split; [exact Ht|]. apply (no_admission_after_shutdown 2 shut rejected).
  - reflexivity.
  - vm_compute. reflexivity.
  - apply (reachable_run late_permit shut shut); [apply reachable_refl|vm_compute; reflexivity].
  - exact Ht.
Defined.

Lemma admission_progress_witness :
  exists w s', w <> Dropped /\ step (WakeBy 2 w) shut = Some s'.
Proof.
  refine (proj2 (admission_progress 1 2 (mkTask 50 (Parked 0)) start shut _ _ _) _).
  - reflexivity.
  - apply after_reachable. vm_compute. by eexists.
  - vm_compute. reflexivity.
  - left. split; vm_compute; reflexivity.
Defined.
End Sample.
