(* ===== verification/Capacity.v ===== *)
(** * Runtime: synchronization capacity

    Models [src/runtime/capacity.rs]: the semaphore behind the orchestration's
    capacity port.  Tokio's semaphore answers through [CapacityWorld]; the trace
    records what is taken, given back and counted. *)
From S2P Require Import Prelude Core Routing Orchestration.

(** [MAX_SYNCHRONIZATION_CAPACITY] of [src/runtime/configuration.rs]. *)
Definition MAX_SYNCHRONIZATION_CAPACITY : N := 1024.

(** The semaphore shared by all requests: an immediate attempt, a wait that ends
    with a permit or at the deadline, and the return of a permit. *)
Class CapacityWorld (W : Type) : Type := {
  capacity_clock :: Clock W;
  try_take : W -> bool * W;
  take_until : Z -> W -> bool * W;
  give_back : W -> W;
}.

Inductive CapacityCall : Type :=
| TryTake (taken : bool)
| TakeUntil (until : Z) (taken : bool)
| GiveBack
| CountSaturated
| CountUnavailable
| InUse (change : Z).

(** [SemaphoreCapacity]: the number of permits it was created with. *)
Record SemaphoreCapacity : Type := mkSemaphoreCapacity { capacity_permits : N }.

(** [SemaphoreCapacity::new], of a positive count. *)
Definition semaphore_capacity_new (n : N) : option SemaphoreCapacity :=
  if (n <=? MAX_SYNCHRONIZATION_CAPACITY)%N then Some (mkSemaphoreCapacity n) else None.

Section Acquire.
Context {W : Type} `{!CapacityWorld W}.
Abbreviation M := (Eff (Tr W CapacityCall)).

Definition note (c : CapacityCall) : M unit := perform (fun w => (tt, w)) (fun _ => c).

(** [unavailable]. *)
Definition unavailable (context : SynchronizationContext) : M bool :=
  let* cancelled := read_cancelled in
  if cancelled then eret true else
  let* t := read_now in eret (deadline context <=? t)%Z.

Definition refuse : M (result unit SynchronizationCapacityError) :=
  let* _ := note CountUnavailable in eret (Err capacity_error).

(** The immediate attempt, then the wait up to the request's deadline. *)
Definition take (context : SynchronizationContext) : M bool :=
  let* taken := perform try_take TryTake in
  if (taken : bool) then eret true else
  let* _ := note CountSaturated in
  perform (take_until (deadline context)) (TakeUntil (deadline context)).

(** [SemaphoreCapacity::acquire]. *)
Definition acquire (context : SynchronizationContext) : M (result unit SynchronizationCapacityError) :=
  let* stop := unavailable context in
  if (stop : bool) then refuse else
  let* taken := take context in
  if negb taken then refuse else
  let* stop := unavailable context in
  if (stop : bool) then
    let* _ := perform (fun w => (tt, give_back w)) (fun _ => GiveBack) in refuse
  else
  let* _ := note (InUse 1) in eret (Ok tt).

(** The drop of a [HeldPermit]. *)
Definition release : M unit :=
  let* _ := note (InUse (-1)) in
  perform (fun w => (tt, give_back w)) (fun _ => GiveBack).

(** The capacity behind the orchestration's port. *)
#[global] Instance semaphore_capacity : SynchronizationCapacity W SemaphoreCapacity unit := {|
  capacity_acquire := fun _ context w => let '(r, s) := acquire context (mkTr w []) in (r, world s);
  capacity_release := fun _ _ w => world (release (mkTr w [])).2;
|}.

(** ** Facts *)

Definition taken_by (c : CapacityCall) : Z :=
  match c with TryTake true | TakeUntil _ true => 1 | GiveBack => -1 | _ => 0 end.
Definition gauge_by (c : CapacityCall) : Z := match c with InUse n => n | _ => 0 end.
Definition refused_by (c : CapacityCall) : Z := match c with CountUnavailable => 1 | _ => 0 end.

(** The sum of a weight over the calls. *)
Definition sum (f : CapacityCall -> Z) (cs : list CapacityCall) : Z := foldr (fun c n => (f c + n)%Z) 0%Z cs.

Lemma unavailable_emits context :
  emits (unavailable context) (fun l b => calls l = [] /\
    (b = false -> exists t, l = [ECancelled false; ENow t] /\ (t < deadline context)%Z)).
Proof.
  unfold unavailable. eapply emits_bind; [by apply (emits_cancelled (fun l b => l = [ECancelled b]))|].
  intros l1 [] ->; [by apply emits_ret|].
  eapply emits_bind; [by apply (emits_now (fun l t => l = [ENow t]))|]. intros l2 t ->.
  apply emits_ret. split; [done|]. intros Ht%Z.leb_gt. by exists t.
Qed.

Lemma refuse_emits : emits refuse (fun l r => l = [ECall CountUnavailable] /\ r = Err capacity_error).
Proof. eapply emits_bind; [apply emits_performed|]. intros l _ ->. by apply emits_ret. Qed.

(** A take: with a permit, or without one after a wait up to the deadline. *)
Definition take_calls (context : SynchronizationContext) (taken : bool) (cs : list CapacityCall) : Prop :=
  (taken = true /\ cs = [TryTake true]) \/
  cs = [TryTake false; CountSaturated; TakeUntil (deadline context) taken].

Lemma take_emits context : emits (take context) (fun l taken => take_calls context taken (calls l)).
Proof.
  unfold take. eapply emits_bind; [apply emits_performed|]. intros l1 [] ->; [apply emits_ret; by left|].
  eapply emits_bind; [apply emits_performed|]. intros l2 _ ->.
  eapply emits_conseq; [apply emits_performed|]. intros l3 taken ->. by right.
Qed.

(** An acquisition that succeeds took exactly one permit, kept it,
    raised the in-use gauge by one, and observed the request neither cancelled
    nor expired after taking it; one that fails kept nothing, left the gauge and
    is counted once, whether it was refused at once, waited to the deadline or
    had to give its permit back.  It waits at most once, until exactly the
    request's deadline. *)
Lemma acquire_balanced (context : SynchronizationContext) (w : W) :
  let '(r, s) := acquire context (mkTr w []) in
  let cs := calls (trace s) in
  match r with
  | Ok _ => sum taken_by cs = 1%Z /\ sum gauge_by cs = 1%Z /\ sum refused_by cs = 0%Z /\
      exists pre t, trace s = pre ++ [ECancelled false; ENow t; ECall (InUse 1)] /\
        (t < deadline context)%Z
  | Err _ => sum taken_by cs = 0%Z /\ sum gauge_by cs = 0%Z /\ sum refused_by cs = 1%Z
  end /\
  forall d taken, TakeUntil d taken ∈ cs -> d = deadline context.
Proof.
  assert (emits (acquire context) (fun l r => match r with
    | Ok _ => exists pre k t, take_calls context true (calls pre) /\ calls k = [] /\
        l = k ++ pre ++ [ECancelled false; ENow t; ECall (InUse 1)] /\ (t < deadline context)%Z
    | Err _ => calls l = [CountUnavailable] \/
        exists cs tail taken, take_calls context taken cs /\ calls l = cs ++ tail /\
          tail = (if taken then [GiveBack; CountUnavailable] else [CountUnavailable])
    end)) as H.
  { unfold acquire. eapply emits_bind; [apply unavailable_emits|]. intros l1 [] [Hl1 _].
    { eapply emits_conseq; [apply refuse_emits|]. intros l2 r [-> ->]. left. by rewrite calls_app, Hl1. }
    eapply emits_bind; [apply take_emits|]. intros l2 taken Ht. destruct taken; simpl.
    2:{ eapply emits_conseq; [apply refuse_emits|]. intros l3 r [-> ->]. right.
        exists (calls l2), [CountUnavailable], false. by rewrite !calls_app, Hl1. }
    eapply emits_bind; [apply unavailable_emits|]. intros l3 [] [Hl3 Hb].
    - eapply emits_bind; [apply emits_performed|]. intros l4 _ ->.
      eapply emits_conseq; [apply refuse_emits|]. intros l5 r [-> ->]. right.
      exists (calls l2), [GiveBack; CountUnavailable], true. by rewrite !calls_app, Hl1, Hl3.
    - destruct (Hb eq_refl) as (t & -> & Hlt). eapply emits_bind; [apply emits_performed|].
      intros l4 _ ->. apply emits_ret. rewrite app_nil_r. exists l2, l1, t. auto. }
  pose proof (emits_run _ _ w H) as Hrun. clear H. destruct (acquire context _) as [[[]|e] s]; simpl in Hrun.
  - destruct Hrun as (pre & k & t & Ht & Hk & -> & Hlt). rewrite !calls_app, Hk. simpl.
    destruct Ht as [[_ ->]| ->]; simpl; (split; [split_and!; [done..|]|set_solver]);
      exists (k ++ pre), t; by rewrite <- app_assoc.
  - destruct Hrun as [->|(cs & tail & taken & Ht & -> & ->)]; [split; [done|set_solver]|].
    destruct Ht as [[-> ->]| ->]; [|destruct taken]; (split; [done|set_solver]).
Qed.
End Acquire.
