(* ===== verification/System.v ===== *)
(** * Composition of the application

    Models [src/configuration.rs] and [src/composition.rs]: the semantic
    configuration, the construction of the Provider, the adapter and the router,
    the instrumented wrappers, and the wiring of the selected-target
    synchronizer; then the composed system behind the inbound handler, with the
    authenticator, the semaphore capacity, the generic REST Provider and the GLPI
    adapter in place of the ports.  The adapter's GLPI environment stays abstract:
    [GlpiTransport.transport_world] is one instance of it.  Tracing spans are not
    modelled. *)
From S2P Require Import Prelude Core Dns Net Provider GlpiBase GlpiConfig GlpiAdapter.
From S2P Require Import AuthBase AuthClaims AuthCache Routing Orchestration Capacity Http.

(** ** Configuration ([configuration.rs]) *)

Inductive ProviderConfiguration : Type :=
| GenericRest (config : GenericRestPermissionProviderConfig).

Record ConfiguredTarget : Type := mkConfiguredTarget {
  logical_target : string;
  adapter_identifier : string;
}.

Record RuntimeConfiguration : Type := mkRuntimeConfiguration {
  configured_provider : option ProviderConfiguration;
  configured_glpi : option GlpiAdapterConfig;
  targets : list ConfiguredTarget;
}.

(** ** Instrumented ports *)

(** The metrics recorder and the monotonic clock. *)
Class MetricsWorld (W : Type) : Type := {
  increment_counter : string -> string -> W -> W;
  record_histogram : string -> Z -> W -> W;
}.

Definition PROVIDER_OPERATIONS_TOTAL : string := "permissionsync_provider_operations_total".
Definition PROVIDER_DURATION_SECONDS : string := "permissionsync_provider_duration_seconds".
Definition ADAPTER_RECONCILIATIONS_TOTAL : string := "permissionsync_adapter_reconciliations_total".
Definition ADAPTER_DURATION_SECONDS : string := "permissionsync_adapter_duration_seconds".

Definition provider_outcome_label {A E} (r : result A E) : string :=
  match r with Ok _ => "success" | Err _ => "failure" end.
Definition adapter_outcome_label {E} (r : result ReconciliationOutcome E) : string :=
  match r with Ok Changed => "changed" | Ok Unchanged => "unchanged" | Err _ => "failure" end.

Record InstrumentedProvider (P : Type) : Type := mkInstrumentedProvider { provider_inner : P }.
Record InstrumentedAdapter (A : Type) : Type := mkInstrumentedAdapter { adapter_inner : A }.
Arguments mkInstrumentedProvider {P} provider_inner.
Arguments provider_inner {P} i.
Arguments mkInstrumentedAdapter {A} adapter_inner.
Arguments adapter_inner {A} i.

Section Instrumented.
Context {W : Type} `{!Clock W, !MetricsWorld W}.

(** One call between two clock reads, then its outcome and duration
    ([Instant::elapsed] saturates at zero). *)
Definition instrumented {A} (call : W -> A * W) (total duration : string) (label : A -> string)
    (w : W) : A * W :=
  let '(started, w1) := now w in
  let '(r, w2) := call w1 in
  let w3 := increment_counter total (label r) w2 in
  let '(t, w4) := now w3 in
  (r, record_histogram duration (Z.max 0 (t - started)) w4).

(** [<InstrumentedProvider as PermissionProvider>::resolve]. *)
#[global] Instance instrumented_provider {P E} `{!PermissionProvider W P E}
  : PermissionProvider W (InstrumentedProvider P) E :=
  fun self request =>
    instrumented (provider_resolve (provider_inner self) request)
      PROVIDER_OPERATIONS_TOTAL PROVIDER_DURATION_SECONDS provider_outcome_label.

(** [<InstrumentedAdapter as TargetAdapter>::reconcile]. *)
#[global] Instance instrumented_adapter {A E} `{!TargetAdapter W A E}
  : TargetAdapter W (InstrumentedAdapter A) E :=
  fun self request =>
    instrumented (adapter_reconcile (adapter_inner self) request)
      ADAPTER_RECONCILIATIONS_TOTAL ADAPTER_DURATION_SECONDS adapter_outcome_label.
End Instrumented.

(** ** Composition ([composition.rs]) *)

Definition GLPI_ADAPTER_IDENTIFIER : string := "glpi".

Inductive CompositionError : Type := composition_error.

Definition composition_error_debug (e : CompositionError) : string := "CompositionError".
Definition composition_error_display (e : CompositionError) : string :=
  "invalid application composition configuration".

Section Compose.
Context `{ProviderD : ProviderDeps, GlpiD : GlpiConfigDeps}.

Abbreviation Provider := (InstrumentedProvider GenericRestPermissionProvider).
Abbreviation Adapter := (InstrumentedAdapter ValidatedConfig).

Inductive ProviderState : Type := ProviderUsable (p : Provider) | ProviderUnavailable.

Record ComposedApplication : Type := mkComposedApplication {
  app_provider : ProviderState;
  app_router : TargetRouter Adapter;
}.

Inductive TargetAvailability : Type :=
| TargetIsUsable (adapter : Adapter)
| TargetIsUnavailable
| TargetIsUnknown.

(** The [map] and [collect] over the configured targets. *)
Fixpoint target_routes (l : list ConfiguredTarget) : result (list TargetRoute) CompositionError :=
  match l with
  | [] => Ok []
  | target :: rest =>
      let? t := map_err (fun _ => composition_error) (logical_target_try_from (logical_target target)) in
      let? routes := target_routes rest in
      Ok (mkTargetRoute t (mkAdapterIdentifier (adapter_identifier target)) :: routes)
  end.

(** The registrations of the configured adapter. *)
Definition adapter_registrations (glpi : option GlpiAdapterConfig) : list (AdapterRegistration Adapter) :=
  match glpi with
  | Some configuration =>
      match glpi_adapter_new configuration with
      | Ok adapter =>
          [mkAdapterRegistration (mkAdapterIdentifier GLPI_ADAPTER_IDENTIFIER) (mkInstrumentedAdapter adapter)]
      | Err _ => []
      end
  | None => []
  end.

(** The state of the configured Provider. *)
Definition provider_state (system_conf : option (list NameServer)) (p : option ProviderConfiguration)
  : ProviderState :=
  match p with
  | Some (GenericRest configuration) =>
      match provider_new system_conf configuration with
      | Ok p => ProviderUsable (mkInstrumentedProvider p)
      | Err _ => ProviderUnavailable
      end
  | None => ProviderUnavailable
  end.

(** [ComposedApplication::compose]; [system_conf] is the platform's resolver
    configuration, when it can be read. *)
Definition compose (system_conf : option (list NameServer)) (configuration : RuntimeConfiguration)
  : result ComposedApplication CompositionError :=
  let? routes := target_routes (targets configuration) in
  let registrations := adapter_registrations (configured_glpi configuration) in
  let? router := map_err (fun _ => composition_error) (router_new routes registrations) in
  Ok (mkComposedApplication (provider_state system_conf (configured_provider configuration)) router).

(** [ComposedApplication::provider]. *)
Definition composed_provider (app : ComposedApplication) : option Provider :=
  match app_provider app with ProviderUsable p => Some p | ProviderUnavailable => None end.

(** [ComposedApplication::resolve_target]. *)
Definition resolve_target (app : ComposedApplication) (target : LogicalTarget) : TargetAvailability :=
  match router_resolve (app_router app) target with
  | Ok adapter => TargetIsUsable adapter
  | Err UnknownLogicalTarget => TargetIsUnknown
  | Err (UnavailableAdapter _) => TargetIsUnavailable
  end.

(** [ComposedApplication::selected_target_synchronizer]. *)
Definition selected_target_synchronizer {Cap} (app : ComposedApplication) (capacity : Cap)
  : SelectedTargetSynchronizer (A := Adapter) (P := Provider) (Cap := Cap) :=
  mkSynchronizer (app_router app) (composed_provider app) capacity.

(** ** Facts: composition *)

(** The configured target a logical target selects. *)
Definition configured (conf : RuntimeConfiguration) (target : LogicalTarget) : option ConfiguredTarget :=
  snd <$> list_find (fun c => logical_target c = target_as_str target) (targets conf).

(** What the configuration alone says about a target. *)
Definition availability (conf : RuntimeConfiguration) (target : LogicalTarget) : TargetAvailability :=
  match configured conf target with
  | None => TargetIsUnknown
  | Some c =>
      if bool_decide (adapter_identifier c = GLPI_ADAPTER_IDENTIFIER) then
        match glpi_adapter_new <$> configured_glpi conf with
        | Some (Ok adapter) => TargetIsUsable (mkInstrumentedAdapter adapter)
        | _ => TargetIsUnavailable
        end
      else TargetIsUnavailable
  end.

(** The route of one configured target. *)
Definition route_of (c : ConfiguredTarget) : TargetRoute :=
  mkTargetRoute (mkLogicalTarget (logical_target c)) (mkAdapterIdentifier (adapter_identifier c)).

Definition valid_target (c : ConfiguredTarget) : Prop :=
  logical_target_try_from (logical_target c) = Ok (mkLogicalTarget (logical_target c)).

Lemma try_from_ok s t : logical_target_try_from s = Ok t -> t = mkLogicalTarget s.
Proof. unfold logical_target_try_from. cbv zeta. repeat (case_match; try done). by intros [= <-]. Qed.

Lemma target_routes_exact l :
  match target_routes l with
  | Ok rs => Forall valid_target l /\ rs = route_of <$> l
  | Err _ => exists c, c ∈ l /\ ~ valid_target c
  end.
Proof.
  induction l as [|c l IH]; simpl; [done|].
  destruct (logical_target_try_from (logical_target c)) as [t|e] eqn:E; simpl.
  - apply try_from_ok in E as Ht. subst t. destruct (target_routes l) as [rs|]; simpl.
    + destruct IH as [Hall ->]. split; [by constructor|done].
    + destruct IH as (c' & Hin & Hc'). exists c'. split; [set_solver|done].
  - exists c. split; [set_solver|]. unfold valid_target. by rewrite E.
Qed.

Lemma registrations_distinct glpi : NoDup (registration_identifiers (adapter_registrations glpi)).
Proof.
  unfold adapter_registrations. destruct glpi as [g|]; [|constructor].
  destruct (glpi_adapter_new g); [apply NoDup_singleton|constructor].
Qed.

Lemma route_targets_of l : route_targets (route_of <$> l) = mkLogicalTarget <$> (logical_target <$> l).
Proof. unfold route_targets. by rewrite <- !list_fmap_compose. Qed.

Lemma find_route target l :
  list_find (fun r => route_logical_target r = target) (route_of <$> l) =
  prod_map id route_of <$> list_find (fun c => logical_target c = target_as_str target) l.
Proof.
  rewrite list_find_fmap. f_equal. apply list_find_ext. intros c. unfold Basics.compose. simpl.
  destruct target as [t]. simpl. split; congruence.
Qed.

(** A target resolves as the configuration says. *)
Lemma composed_resolve conf target :
  (match resolve_spec (route_of <$> targets conf) (adapter_registrations (configured_glpi conf)) target with
  | Ok adapter => TargetIsUsable adapter
  | Err UnknownLogicalTarget => TargetIsUnknown
  | Err (UnavailableAdapter _) => TargetIsUnavailable
  end) = availability conf target.
Proof.
  unfold resolve_spec, availability, configured. rewrite find_route.
  destruct (list_find _ (targets conf)) as [[i c]|]; simpl; [|done].
  unfold adapter_registrations. destruct (configured_glpi conf) as [g|]; simpl;
    [destruct (glpi_adapter_new g) as [a|]; simpl|].
  - case_decide as Hd; case_bool_decide as Hb; try done; [|]; simplify_eq/=; congruence.
  - by case_bool_decide.
  - by case_bool_decide.
Qed.

(** A composed application resolves targets as the configuration says. *)
Lemma compose_resolves system_conf conf app :
  compose system_conf conf = Ok app ->
  Forall valid_target (targets conf) /\ NoDup (logical_target <$> targets conf) /\
  forall target, resolve_target app target = availability conf target.
Proof.
  unfold compose. pose proof (target_routes_exact (targets conf)) as Hr.
  destruct (target_routes (targets conf)) as [rs|e]; [|done]. simpl. destruct Hr as [Hall ->].
  pose proof (router_new_exact (route_of <$> targets conf) (adapter_registrations (configured_glpi conf))) as Hn.
  destruct (router_new _ _) as [router|e] eqn:Er; [|done]. simpl. intros [= <-]. destruct Hn as [Hn _].
  rewrite route_targets_of in Hn. split; [done|]. split; [by apply NoDup_fmap_1 in Hn|].
  intros target. unfold resolve_target. simpl. rewrite (router_new_resolves _ _ _ target Er). apply composed_resolve.
Qed.

(** A composed application has the Provider the configuration builds. *)
Lemma composed_usable system_conf conf app c p :
  compose system_conf conf = Ok app -> configured_provider conf = Some (GenericRest c) ->
  provider_new system_conf c = Ok p -> composed_provider app = Some (mkInstrumentedProvider p).
Proof.
  unfold compose. destruct (target_routes _); [|done]. simpl. destruct (router_new _ _); [|done]. simpl.
  intros [= <-] Hc Hp. unfold composed_provider, provider_state. simpl. by rewrite Hc, Hp.
Qed.

(** C35: composition fails exactly when a configured target is outside the
    grammar or repeated; an absent, invalid or unknown Provider or adapter
    configuration never fails it.  A composed application resolves every target
    as the configuration alone determines: unknown when it is not configured,
    usable with the validated GLPI adapter when it names the identifier [glpi]
    and the GLPI configuration is valid, unavailable otherwise; and its Provider
    is usable exactly when a valid one is configured. *)
Theorem compose_exact (system_conf : option (list NameServer)) (conf : RuntimeConfiguration) :
  match compose system_conf conf with
  | Err _ => ~ (Forall valid_target (targets conf) /\ NoDup (logical_target <$> targets conf))
  | Ok app =>
      Forall valid_target (targets conf) /\ NoDup (logical_target <$> targets conf) /\
      (forall target, resolve_target app target = availability conf target) /\
      (forall p, composed_provider app = Some p <->
         exists c, configured_provider conf = Some (GenericRest c) /\
           provider_new system_conf c = Ok (provider_inner p))
  end.
Proof.
  pose proof (compose_resolves system_conf conf) as Hc. revert Hc. unfold compose.
  pose proof (target_routes_exact (targets conf)) as Hr.
  destruct (target_routes (targets conf)) as [rs|e]; simpl.
  2:{ intros _ [Hall _]. destruct Hr as (c & Hin & Hc). rewrite Forall_forall in Hall. by apply Hc, Hall. }
  destruct Hr as [Hall ->].
  pose proof (router_new_exact (route_of <$> targets conf) (adapter_registrations (configured_glpi conf))) as Hn.
  destruct (router_new _ _) as [router|e] eqn:Er; simpl; intros Hc.
  - destruct (Hc _ eq_refl) as (? & ? & ?). split_and!; try done.
    intros p. unfold composed_provider, provider_state. simpl.
    destruct (configured_provider conf) as [[c]|]; [|split; [done|by intros (? & ? & _)]].
    destruct (provider_new system_conf c) as [p'|] eqn:Ep; simpl.
    + split; [intros [= <-]; eauto|]. intros (c' & [= <-] & E). rewrite Ep in E. injection E as ->. by destruct p.
    + split; [done|]. intros (c' & [= <-] & E). congruence.
  - intros [_ Hnd]. destruct e as [t|i].
    + apply first_repeat_not_nodup in Hn. apply Hn. rewrite route_targets_of.
      apply NoDup_fmap_2; [|done]. by intros ?? [= ?].
    + apply (first_repeat_not_nodup _ _ (proj2 Hn)), registrations_distinct.
Qed.
End Compose.

(** ** The composed system *)

(** The authenticator behind the handler's port. *)
#[global] Instance authenticator_port `{AuthD : AuthDeps} {W : Type} `{!AuthWorld W}
  : Authenticator W Config :=
  fun config request w => let '(r, s) := authenticate config request (mkTr w []) in (r, world s).

(** Steps between the calls of a run: clock reads, cancellation polls and
    metrics.  They change nothing else. *)
Inductive drifts {W : Type} `{!Clock W, !MetricsWorld W} : W -> W -> Prop :=
| drift_refl w : drifts w w
| drift_now w w' : drifts w w' -> drifts w (now w').2
| drift_cancelled w w' : drifts w w' -> drifts w (is_cancelled w').2
| drift_count w w' name label : drifts w w' -> drifts w (increment_counter name label w')
| drift_record w w' name d : drifts w w' -> drifts w (record_histogram name d w').

Section Drift.
Context {W : Type} `{!Clock W, !MetricsWorld W}.

Lemma drifts_trans (a b c : W) : drifts a b -> drifts b c -> drifts a c.
Proof. intros Hab. induction 1; auto using drifts. Qed.

(** The context check of the handler and of the orchestration. *)
Lemma check_drifts {C} (d : Z) (s s' : Tr W C) b :
  (let* c := read_cancelled in
   if c then eret true else let* t := read_now in eret (d <=? t)%Z) s = (b, s') ->
  drifts (world s) (world s').
Proof.
  unfold ebind, read_cancelled, read_now.
  pose proof (drift_cancelled _ _ (drift_refl (world s))) as Hc.
  destruct (is_cancelled (world s)) as [[] w1]; simpl in *; [by intros [= _ <-]|].
  pose proof (drift_now _ _ Hc) as Hn. destruct (now w1) as [t w2]. by intros [= _ <-].
Qed.

Lemma instrumented_ok {A} (call : W -> A * W) total duration label (w w' : W) r :
  instrumented call total duration label w = (r, w') ->
  exists w1 w2, drifts w w1 /\ call w1 = (r, w2) /\ drifts w2 w'.
Proof.
  unfold instrumented. pose proof (drift_now _ _ (drift_refl w)) as H1.
  destruct (now w) as [t1 w1]. simpl in H1. destruct (call w1) as [r' w2] eqn:E.
  pose proof (drift_now _ _ (drift_count _ _ total (label r') (drift_refl w2))) as H2.
  destruct (now _) as [t2 w4]. intros [= <- <-]. exists w1, w2. split; [done|]. split; [done|].
  by constructor.
Qed.
End Drift.

Section Chain.
Context {W A P Cap Permit EP EA : Type}.
Context `{!Clock W, !MetricsWorld W, !PermissionProvider W P EP, !TargetAdapter W A EA,
          !SynchronizationCapacity W Cap Permit}.
Abbreviation M := (Eff (Tr W (SyncCall (A := A) (Permit := Permit) (EP := EP) (EA := EA)))).

(** A context check that let a successful run pass. *)
Lemma passed {R E} context (m : M (result R E)) e o s s' :
  (let* expired := is_cancelled_or_expired context in
   if expired then eret (Err e) else m) s = (Ok o, s') ->
  exists s1, drifts (world s) (world s1) /\ m s1 = (Ok o, s').
Proof.
  unfold ebind at 1. destruct (is_cancelled_or_expired context s) as [[] s1] eqn:E1; [done|].
  intros H. exists s1. split; [by eapply check_drifts|done].
Qed.

(** The run of a successful synchronization, call by call. *)
Lemma with_permit_ok (adapter : A) (prov : P) request (s s' : Tr W SyncCall) o :
  synchronize_with_permit (EP := EP) (EA := EA) (Permit := Permit) adapter prov request s = (Ok o, s') ->
  exists env w1 w1' w2 w2',
    drifts (world s) w1 /\
    provider_resolve prov (provider_request_for request) w1 = (Ok env, w1') /\
    drifts w1' w2 /\
    adapter_reconcile adapter (adapter_request_for request env) w2 = (Ok o, w2') /\
    drifts w2' (world s').
Proof.
  unfold synchronize_with_permit. rewrite !copy_context_id. intros (s1 & H1 & H)%passed. revert H.
  unfold ebind at 1, call_provider, perform at 1.
  destruct (provider_resolve prov _ (world s1)) as [[env|e] w1'] eqn:Ep; [|done].
  intros (s2 & H2 & H)%passed. revert H. unfold ebind at 1, call_adapter, perform.
  destruct (adapter_reconcile adapter _ (world s2)) as [[o'|e] w2'] eqn:Ea; [|done].
  intros (s3 & H3 & [= <- <-])%passed. exists env, (world s1), w1', (world s2), w2'. auto.
Qed.

Lemma synchronize_ok (self : SelectedTargetSynchronizer (A := A) (P := P) (Cap := Cap)) request s s' o :
  synchronize (EP := EP) (EA := EA) (Permit := Permit) self request s = (Ok o, s') ->
  exists adapter prov permit w1 w2 (s2 s3 : Tr W (SyncCall (A := A) (Permit := Permit) (EP := EP) (EA := EA))),
    router_resolve (router self) (sr_target request) = Ok adapter /\ provider self = Some prov /\
    drifts (world s) w1 /\
    capacity_acquire (capacity self) (sr_context request) w1 = (Ok permit, w2) /\ world s2 = w2 /\
    synchronize_with_permit adapter prov request s2 = (Ok o, s3) /\
    world s' = capacity_release (capacity self) permit (world s3).
Proof.
  unfold synchronize. intros (s1 & H1 & H)%passed. revert H.
  destruct (router_resolve _ _) as [adapter|[|i]]; [|done..].
  intros (s1' & H1' & H)%passed. revert H. destruct (provider self) as [prov|]; [|done].
  unfold ebind at 1, acquire_permit, perform at 1.
  destruct (capacity_acquire _ _ (world s1')) as [[permit|e] w2] eqn:Ec; [|done].
  unfold ebind at 1. destruct (synchronize_with_permit adapter prov request _) as [r s3] eqn:Es.
  intros [= -> <-]. exists adapter, prov, permit, (world s1'), w2,
    (mkTr w2 (trace s1' ++ [ECall (Acquire (Ok permit))])), s3.
  split_and!; [done|done|by eapply drifts_trans|done|reflexivity|exact Es|done].
Qed.
End Chain.

Section Handled.
Context {W Au S : Type} `{!Clock W, !MetricsWorld W, !Authenticator W Au, !TargetSynchronizer W S}.
Context (from_slice_login : bytes -> option LoginBody).
Abbreviation M := (Eff (Tr W HttpCall)).

Lemma handler_passed context (m : M HttpOutcome) o s s' :
  o <> CancelledOrExpired ->
  (let* unavailable := context_unavailable context in
   if (unavailable : bool) then eret CancelledOrExpired else m) s = (o, s') ->
  exists s1, drifts (world s) (world s1) /\ m s1 = (o, s').
Proof.
  intros Ho. unfold ebind at 1. destruct (context_unavailable context s) as [[] s1] eqn:E1.
  - by intros [= <- _].
  - intros H. exists s1. split; [by eapply check_drifts|done].
Qed.

(** The run of a request that ends with a reconciliation outcome. *)
Lemma handle_ok (h : InboundHttpHandler (Au := Au) (S := S)) headers body context s s' outcome :
  handle from_slice_login h headers body context s = (synchronization_outcome (Ok outcome), s') ->
  exists caller target login w1 w1' w2,
    drifts (world s) w1 /\
    authenticator_authenticate (authenticator h)
      (mkAuthRequest (extract_bearer headers) (mkContext (deadline context))) w1 = (Ok caller, w1') /\
    valid_login from_slice_login body = Some login /\
    selected (target_selection caller) = Some target /\
    drifts w1' w2 /\
    synchronizer_synchronize (selected_synchronizer h)
      (mkSyncRequest (mkIdentityContext (login_username login) (login_groups login)) target
        (caller_bearer_token caller) context) w2 = (Ok outcome, world s').
Proof.
  set (o := synchronization_outcome (Ok outcome)).
  assert (o <> CancelledOrExpired /\ o <> InvalidRequest /\ o <> TargetlessNoop) as (Ho & Hi & Hn)
    by (unfold o; by destruct outcome).
  unfold handle. intros (s1 & H1 & H)%handler_passed; [|done]. cbv zeta in H.
  apply handler_passed in H as (s2 & H2 & H); [|done]. revert H. unfold ebind at 1, perform.
  destruct (authenticator_authenticate _ _ (world s2)) as [[caller|e] w1'] eqn:Ea.
  2:{ intros (s3 & _ & [= E _])%handler_passed; [|done]. exfalso. unfold o in E. by destruct e, outcome. }
  intros (s3 & H3 & H)%handler_passed; [|done]. unfold handle_authenticated in H.
  apply handler_passed in H as (s4 & H4 & H); [|done].
  assert (exists login, valid_login from_slice_login body = Some login /\
    (match body with Collected b => from_slice_login b | BoundExceeded => None end) = Some login /\
    bool_decide (event_type login = "LOGIN") = true) as (login & Hv & Hl & Hb).
  { unfold valid_login. destruct body as [b|]; [destruct (from_slice_login b) as [login|]|];
      [|by injection H as ? _..].
    destruct (bool_decide _) eqn:Hb; [by exists login|]. by injection H as ? _. }
  rewrite Hl, Hb in H. simpl in H. destruct (selected (target_selection caller)) as [target|] eqn:Hsel.
  2:{ apply handler_passed in H as (s5 & _ & [= ? _]); done. }
  revert H. unfold ebind, perform. destruct (synchronizer_synchronize _ _ (world s4)) as [r w2'] eqn:Es.
  intros [= E <-]. assert (r = Ok outcome) as -> by (subst o; destruct r as [[]|[]], outcome; simpl in E; congruence).
  exists caller, target, login, (world s2), w1', (world s4).
  split_and!; [by eapply drifts_trans|done|done|done|by eapply drifts_trans|done].
Qed.
End Handled.

Section EndToEnd.
Context {W : Type} `{ProviderD : ProviderDeps, GlpiD : GlpiConfigDeps, AuthD : AuthDeps}.
Context `{!NetWorld W, !GlpiWorld W, !AuthWorld W, !CapacityWorld W, !Clock W, !MetricsWorld W}.
Context (from_slice_login : bytes -> option LoginBody).

(** The handler over the composed application. *)
Definition composed_handler (config : Config) (app : ComposedApplication) (cap : SemaphoreCapacity) :=
  mkHandler config (selected_target_synchronizer app cap).

(** A complete synchronization of one request: every stage starts in the world
    the one before left, up to clock reads, polls and metrics.  [login] is the body's,
    [env] the Provider's answer, and the adapter started in [w4]. *)
Inductive synchronized_by (config : Config) (app : ComposedApplication) (headers : HeaderList)
    (body : InboundBody) (context : SynchronizationContext) (outcome : ReconciliationOutcome)
    (w w' : W) (login : LoginBody) (env : DesiredStateEnvelope) (w4 : W) : Prop :=
| synchronized_intro token caller target prov adapter w1 s1 w2 s2 w3 s3 s4 w5 :
    extract_bearer headers = Some token ->
    drifts w w1 ->
    authenticate config (mkAuthRequest (Some token) context) (mkTr w1 []) = (Ok caller, s1) ->
    caller_bearer_token caller = mkBearerToken token ->
    selected (target_selection caller) = Some target ->
    valid_login from_slice_login body = Some login ->
    resolve_target app target = TargetIsUsable adapter ->
    composed_provider app = Some prov ->
    drifts (world s1) w2 ->
    Capacity.acquire context (mkTr w2 []) = (Ok tt, s2) ->
    drifts (world s2) w3 ->
    Provider.resolve (provider_inner prov)
      (mkProviderRequest (mkIdentityContext (login_username login) (login_groups login)) target
        (mkBearerToken token) context) (mkTr w3 []) = (Ok env, s3) ->
    drifts (world s3) w4 ->
    GlpiAdapter.reconcile (adapter_inner adapter)
      (mkAdapterRequest (mkIdentityContext (login_username login) (login_groups login)) env context)
      (mkTr w4 []) = (Ok outcome, s4) ->
    drifts (world s4) w5 ->
    w' = world (Capacity.release (mkTr w5 [])).2 ->
    synchronized_by config app headers body context outcome w w' login env w4.

Definition synchronized (config : Config) (app : ComposedApplication) (headers : HeaderList)
    (body : InboundBody) (context : SynchronizationContext) (outcome : ReconciliationOutcome) (w w' : W) : Prop :=
  exists login env before, synchronized_by config app headers body context outcome w w' login env before.

(** An authenticated caller carries the presented token. *)
Lemma authenticated_bearer (config : Config) request (w : W) caller s :
  authenticate config request (mkTr w []) = (Ok caller, s) ->
  exists token, raw_compact_token request = Some token /\ caller_bearer_token caller = mkBearerToken token.
Proof.
  intros E. pose proof (emits_run _ _ w (authenticate_emits config request)) as [_ H]. rewrite E in H.
  destruct (H caller eq_refl) as (token & alg & Ht & _ & _ & _ & Ha). exists token. split; [done|].
  destruct (Ha caller eq_refl) as (pre & dec & cl & _ & (? & ? & ? & ? & ? & ? & ? & Hc) & _). apply Hc.
Qed.

Lemma handled_synchronized config app cap headers body context w s outcome :
  handle from_slice_login (composed_handler config app cap) headers body context (mkTr w []) =
    (synchronization_outcome (Ok outcome), s) ->
  synchronized config app headers body context outcome w (world s).
Proof.
  intros (caller & target & login & w1 & w1' & w2 & Hd1 & Ha & Hv & Hsel & Hd2 & Hs)%handle_ok.
  unfold authenticator_authenticate, authenticator_port in Ha. simpl in Ha.
  destruct (authenticate config _ _) as [r s1] eqn:Hauth. injection Ha as -> <-.
  unfold synchronizer_synchronize, synchronizer_port in Hs.
  destruct (synchronize _ _ _) as [r s'] eqn:Hsync. injection Hs as -> Hw.
  apply synchronize_ok in Hsync as (adapter & prov & [] & w3 & w4 & s4 & s5 & Hres & Hprov & Hd3 & Hcap & Hw4 & Hp & Hend).
  apply with_permit_ok in Hp as (env & w5 & w5' & w6 & w6' & Hd4 & Hr & Hd5 & Hrec & Hd6).
  apply instrumented_ok in Hr as (w7 & w8 & Hd7 & Hr & Hd8).
  apply instrumented_ok in Hrec as (w9 & w10 & Hd9 & Hrec & Hd10).
  unfold provider_resolve, generic_rest_provider in Hr.
  destruct (Provider.resolve _ _ _) as [[env'|] s8] eqn:Hr'; [|done]. injection Hr as -> <-.
  unfold adapter_reconcile, GlpiAdapter in Hrec.
  destruct (GlpiAdapter.reconcile _ _ _) as [[o|] s10] eqn:Hrec'; [|done]. injection Hrec as -> <-.
  simpl in Hcap. destruct (Capacity.acquire _ _) as [r s3] eqn:Hacq. injection Hcap as -> <-.
  destruct (authenticated_bearer _ _ _ _ _ Hauth) as (token & Htok & Hbear). simpl in Htok.
  destruct context as [d]. simpl in *. rewrite Htok in Hauth. rewrite Hbear in Hr'.
  exists login, env, w9.
  eapply (synchronized_intro _ _ _ _ _ _ _ _ _ _ _ token caller target prov adapter
    w1 s1 w3 s3 w7 s8 s10 (world s5)); try done.
  - unfold resolve_target. by rewrite Hres.
  - by eapply drifts_trans.
  - rewrite <- Hw4. by eapply drifts_trans.
  - eapply drifts_trans; [exact Hd8|]. by eapply drifts_trans.
  - by eapply drifts_trans.
  - by rewrite <- Hw.
Qed.

(** C8: a request answered with [Changed] or [Unchanged] is one complete
    chain of the composed components, each starting in the world the one before
    left: the sole bearer token of the headers authenticated its caller and
    selected a target the configured router serves; a capacity permit was taken;
    the Provider resolved the body's identity for that target with that very
    token; the GLPI adapter reconciled the same identity to the envelope the
    Provider returned and reported the outcome answered; and the permit was given
    back, last.  Between the stages only clocks, cancellation and metrics are
    touched. *)
Theorem answered_synchronized (config : Config) (app : ComposedApplication) (cap : SemaphoreCapacity)
    (headers : HeaderList) (body : InboundBody) (context : SynchronizationContext) (w : W) :
  let '(o, s) := handle from_slice_login (composed_handler config app cap) headers body context (mkTr w []) in
  match o with
  | OutChanged => synchronized config app headers body context Changed w (world s)
  | OutUnchanged => synchronized config app headers body context Unchanged w (world s)
  | _ => True
  end.
Proof.
  destruct (handle _ _ _ _ _ _) as [o s] eqn:E. destruct o; try done;
    by apply (handled_synchronized config app cap).
Qed.
End EndToEnd.

(** ** A concrete request

    The scripted GLPI of [GlpiAdapter.Sample] and the trusted cache of
    [AuthCache.Sample], a Provider at a literal address that answers a valid
    envelope, a free permit, a clock that stands still. *)
Module Sample.
Abbreviation Script := GlpiAdapter.Sample.Script.

#[local] Instance clock : Clock Script := GlpiAdapter.Sample.script_clock.
#[local] Instance names : DnsNames.
Proof. by refine {| Name := unit; name_eqb := fun _ _ => true; name_of_str := fun _ => None; name_set_fqdn := id |}. Defined.
#[local] Instance provider_deps : ProviderDeps.
Proof.
  refine {| Provider.Uri := string; Provider.uri_parse := Some; Provider.uri_scheme := fun _ => Some "https";
    Provider.uri_host := fun _ => Some "127.0.0.1"; Provider.uri_authority := fun _ => Some "127.0.0.1";
    Provider.uri_query := fun _ => None; Provider.uri_path := fun _ => "/"; Provider.uri_port := fun _ => None;
    Provider.uri_with_root_path := Some; Provider.ip_parse := fun _ => Some (V4 1);
    Provider.stack_from_pem := fun _ => Some 1; Provider.tls_build := fun _ => true;
    Provider.header_text_valid := fun _ => true; Provider.header_to_str := fun b => Some (of_bytes b);
    Provider.request_target_valid := fun _ => true;
    Provider.parse_mime := fun _ => Some (mkMime "application" "json" []);
    Provider.to_vec_request := fun _ _ => Some []; Provider.envelope_from_slice := fun _ => Some (1%N, "payload");
    Provider.raw_value_from_string := Some |}.
  by intros u u' [= <-].
Defined.
#[local] Instance glpi_deps : GlpiConfigDeps := {|
  config_glpi := GlpiAdapter.Sample.deps;
  url_parse := Some; url_scheme := fun _ => "https"; url_host_str := fun _ => Some "glpi";
  url_username := fun _ => ""; url_password := fun _ => None; url_fragment := fun _ => None;
  url_query := fun _ => None; url_path := fun _ => "/apirest.php"; url_set_path := fun u _ => u;
  glpi_stack_from_pem := fun _ => Some 1; glpi_tls_build := fun _ => true;
|}.
#[local] Instance network : NetWorld Script := {|
  net_clock := clock; runtime_available := fun _ => true;
  read_system_conf := fun w => (None, w); dns_exchange := fun _ _ _ w => ([], w);
  tcp_connect := fun _ w => (StageDone, w); tls_connect := fun _ w => (StageDone, w);
  http_handshake := fun w => (StageDone, w);
  send_request := fun _ w => (SendResponse (mkHttpResponse 200
    [("content-type", as_bytes "application/json")] [BodyData []]), w);
|}.
#[local] Instance glpi_server : GlpiWorld Script := GlpiAdapter.Sample.script_world.
#[local] Instance auth_deps : AuthDeps := AuthCache.Sample.deps.
#[local] Instance trusted : AuthWorld Script := {|
  auth_clock := clock; tick := fun w => (5%Z, w); unix_seconds := fun w => (Some (f64_of_Z 1000), w);
  cache_read := fun _ w => (Some (Some AuthCache.Sample.snapshot), w);
  cache_write := fun _ w => (Some (Some AuthCache.Sample.snapshot), w);
  cache_store := fun _ w => w; refresh_lock := fun _ w => (true, w); refresh_unlock := fun w => w;
  metadata_get := fun _ _ w => (AnswerError, w);
|}.
#[local] Instance permits : CapacityWorld Script := {|
  capacity_clock := clock; try_take := fun w => (true, w); take_until := fun _ w => (false, w);
  give_back := fun w => w;
|}.
#[local] Instance metrics : MetricsWorld Script :=
  {| increment_counter := fun _ _ w => w; record_histogram := fun _ _ w => w |}.

Definition conf : RuntimeConfiguration :=
  mkRuntimeConfiguration
    (Some (GenericRest (mkProviderConfig "https://127.0.0.1/" 5 [])))
    (Some (mkGlpiAdapterConfig "https://glpi/apirest.php" "app" "user" 5 [] DefaultSource))
    [mkConfiguredTarget "glpi" "glpi"; mkConfiguredTarget "other" "missing"].
Definition headers : HeaderList := [mkField (as_bytes "Authorization") (as_bytes "Bearer token")].
Definition login_of (_ : bytes) : option LoginBody := Some (mkLogin "LOGIN" "jane" []).
Definition application : ComposedApplication :=
  match compose None conf with
  | Ok app => app
  | Err _ => mkComposedApplication ProviderUnavailable (mkTargetRouter ∅ ∅)
  end.
Definition the_handler := composed_handler AuthCache.Sample.config application (mkSemaphoreCapacity 1).

Example sample_composes : is_ok (compose None conf) = true.
Proof. vm_compute. reflexivity. Qed.

(** The whole request: GLPI is changed, and the answer says so. *)
Lemma answered_synchronized_witness :
  synchronized login_of AuthCache.Sample.config application headers (Collected []) (mkContext 100)
    Changed GlpiAdapter.Sample.script [].
Proof.
  pose proof (answered_synchronized login_of AuthCache.Sample.config application (mkSemaphoreCapacity 1)
    headers (Collected []) (mkContext 100) GlpiAdapter.Sample.script) as H.
  assert ((handle login_of the_handler headers (Collected []) (mkContext 100)
    (mkTr GlpiAdapter.Sample.script [])).1 = OutChanged) as Ho by (vm_compute; reflexivity).
  assert (world (handle login_of the_handler headers (Collected []) (mkContext 100)
    (mkTr GlpiAdapter.Sample.script [])).2 = []) as Hw by (vm_compute; reflexivity).
  unfold the_handler in *. destruct (handle _ _ _ _ _ _) as [o s]. simpl in Ho, Hw. subst o.
  rewrite Hw in H. exact H.
Defined.
End Sample.
