(* ===== verification/EndToEnd.v ===== *)
(** * The whole system against a compliant GLPI

    Joins [System] and [GlpiConverge]: what an answer of the HTTP endpoint says
    about the target system's tables. *)
From S2P Require Import Prelude Core Dns Json Net Provider GlpiBase GlpiConfig GlpiPlan GlpiPayload GlpiAdapter.
From S2P Require Import AuthBase AuthClaims AuthCache Routing Orchestration Capacity Http System.
From S2P Require Import GlpiServer GlpiConverge GlpiReference.

(** What the rest of the process does leaves GLPI alone: reading the clock, polling
    cancellation, counting, and giving the permit back. *)
Class Undisturbed `{Deps : GlpiDeps} (config : ValidatedConfig) (W : Type)
    `{!GlpiWorld W, !CapacityWorld W, !Clock W, !MetricsWorld W} `{!CompliantGlpi config W} : Prop := {
  undisturbed_now : forall w : W, glpi (now w).2 = glpi w;
  undisturbed_cancelled : forall w : W, glpi (is_cancelled w).2 = glpi w;
  undisturbed_count : forall name label (w : W), glpi (increment_counter name label w) = glpi w;
  undisturbed_record : forall name d (w : W), glpi (record_histogram name d w) = glpi w;
  undisturbed_permit : forall w : W, glpi (give_back w) = glpi w;
}.

Section EndToEnd.
Context {W : Type} `{ProviderD : ProviderDeps, GlpiD : GlpiConfigDeps, AuthD : AuthDeps}.
Context `{!NetWorld W, !GlpiWorld W, !AuthWorld W, !CapacityWorld W, !Clock W, !MetricsWorld W}.
Context (glpi_config : ValidatedConfig) `{Server : !CompliantGlpi glpi_config W, Rest : !Undisturbed glpi_config W}.
Context (from_slice_login : bytes -> option LoginBody).

Lemma drifts_glpi (w w' : W) : drifts w w' -> glpi w' = glpi w.
Proof.
  induction 1 as [| |? ? ? <-|? ? ? ? ? <-|? ? ? ? ? <-]; [done|..].
  - by rewrite undisturbed_now.
  - apply undisturbed_cancelled.
  - apply undisturbed_count.
  - apply undisturbed_record.
Qed.

Lemma release_glpi (w : W) : glpi (world (Capacity.release (mkTr w [])).2) = glpi w.
Proof. unfold Capacity.release, note, ebind, perform. simpl. apply undisturbed_permit. Qed.

(** Only the validated GLPI adapter is ever resolved. *)
Lemma usable_adapter system_conf conf app raw target adapter :
  compose system_conf conf = Ok app -> configured_glpi conf = Some raw ->
  glpi_adapter_new raw = Ok glpi_config ->
  resolve_target app target = TargetIsUsable adapter -> adapter_inner adapter = glpi_config.
Proof.
  intros Hc Hraw Hnew. destruct (compose_resolves _ _ _ Hc) as (_ & _ & Hres). rewrite Hres.
  unfold availability. destruct (configured conf target); [|done]. rewrite Hraw. simpl. rewrite Hnew.
  case_bool_decide; [|done]. by intros [= <-].
Qed.

(** What the answer [outcome] of a request that went from [w] to [w'] means for GLPI: the
    request was one complete chain of the composed components, in which the Provider
    answered [env] for the identity of [login] and the adapter then started in [before];
    and from there the tables converged to that desired state. *)
Definition enforced (config : Config) (app : ComposedApplication) (headers : HeaderList) (body : InboundBody)
    (context : SynchronizationContext) (outcome : ReconciliationOutcome) (w w' : W) : Prop :=
  exists login env before,
    synchronized_by from_slice_login config app headers body context outcome w w' login env before /\
    forall desired resolved o,
      solvable glpi_config
        (mkAdapterRequest (mkIdentityContext (login_username login) (login_groups login)) env context)
        desired resolved o (database (glpi before)) ->
      converged (database (glpi before)) (database (glpi w')) (login_username login) o resolved outcome.

(** The same of a whole answer: only [Changed] and [Unchanged] claim anything. *)
Definition answer_enforced (config : Config) (app : ComposedApplication) (headers : HeaderList) (body : InboundBody)
    (context : SynchronizationContext) (w : W) (answer : HttpOutcome * Tr W HttpCall) : Prop :=
  forall outcome, answer.1 = synchronization_outcome (Ok outcome) ->
  enforced config app headers body context outcome w (world answer.2).

Lemma synchronized_enforced config app system_conf conf raw headers body context outcome w w' :
  compose system_conf conf = Ok app -> configured_glpi conf = Some raw ->
  glpi_adapter_new raw = Ok glpi_config ->
  synchronized from_slice_login config app headers body context outcome w w' ->
  enforced config app headers body context outcome w w'.
Proof.
  intros Hc Hraw Hnew (login & env & before & Hsync). exists login, env, before. split; [done|].
  destruct Hsync as [token caller target prov adapter w1 s1 w2 s2 w3 s3 s4 w5
    _ _ _ _ _ _ Hres _ _ _ _ _ _ Hrec Hd5 ->].
  pose proof (usable_adapter _ _ _ _ _ _ Hc Hraw Hnew Hres) as Had. rewrite Had in Hrec.
  intros desired resolved o Hsolv.
  pose proof (runs_reconcile glpi_config _ desired resolved o _ Hsolv (mkTr before []) eq_refl) as Hrun.
  rewrite Hrec in Hrun. rewrite release_glpi, (drifts_glpi _ _ Hd5). exact Hrun.
Qed.

(** C2: take the application composed from a configuration whose GLPI settings are valid.
    When its endpoint answers [Changed] or [Unchanged], the request was one complete
    chain of authentication, permit, Provider, adapter and release ([synchronized_by]),
    and GLPI holds what the Provider answered in it.  With the envelope that resolution
    returned for the body's identity and the tables as they were when the adapter of this
    very request started: if that desired state was one GLPI can express there (version 1,
    a payload that normalizes, names that each denote one entity or profile, a login that
    names at most one user, ids left below 2^64), then the tables at the answer are those
    tables with the user's rows carrying exactly the desired grants, nobody else's rows
    touched, and [Unchanged] answered exactly when nothing had to be done.  GLPI keeps its
    REST contract, and clock, counters and permits leave it alone. *)
Theorem answered_enforced (config : Config) (app : ComposedApplication) (cap : SemaphoreCapacity)
    (system_conf : option (list NameServer)) (conf : RuntimeConfiguration) (raw : GlpiAdapterConfig)
    (headers : HeaderList) (body : InboundBody) (context : SynchronizationContext) (w : W) :
  compose system_conf conf = Ok app -> configured_glpi conf = Some raw ->
  glpi_adapter_new raw = Ok glpi_config ->
  answer_enforced config app headers body context w
    (handle from_slice_login (composed_handler config app cap) headers body context (mkTr w [])).
Proof.
  intros Hc Hraw Hnew. destruct (handle _ _ _ _ _ _) as [answer s] eqn:E. intros outcome Ho. simpl in *. subst answer.
  eapply synchronized_enforced; try done. by eapply handled_synchronized.
Qed.
End EndToEnd.

(** ** A concrete request against the reference GLPI *)
Module Sample.
#[local] Existing Instance reference_deps.
#[local] Existing Instance reference_clock.
#[local] Existing Instance reference_world.
#[local] Existing Instance reference_compliant.
#[local] Existing Instance System.Sample.names.
#[local] Existing Instance System.Sample.provider_deps.
#[local] Existing Instance AuthCache.Sample.deps.

#[local] Instance glpi_deps : GlpiConfigDeps := {|
  config_glpi := reference_deps;
  url_parse := fun text => Some (text, []); url_scheme := fun _ => "https"; url_host_str := fun _ => Some "glpi";
  url_username := fun _ => ""; url_password := fun _ => None; url_fragment := fun _ => None;
  url_query := fun _ => None; url_path := fun _ => "/apirest.php"; url_set_path := fun u _ => u;
  glpi_stack_from_pem := fun _ => Some 1; glpi_tls_build := fun _ => true;
|}.
#[local] Instance network : NetWorld Glpi := {|
  net_clock := reference_clock; runtime_available := fun _ => true;
  read_system_conf := fun w => (None, w); dns_exchange := fun _ _ _ w => ([], w);
  tcp_connect := fun _ w => (StageDone, w); tls_connect := fun _ w => (StageDone, w);
  http_handshake := fun w => (StageDone, w);
  send_request := fun _ w => (SendResponse (mkHttpResponse 200
    [("content-type", as_bytes "application/json")] [BodyData []]), w);
|}.
#[local] Instance trusted : AuthWorld Glpi := {|
  auth_clock := reference_clock; tick := fun w => (5%Z, w);
  unix_seconds := fun w => (Some (f64_of_Z 1000), w);
  cache_read := fun _ w => (Some (Some AuthCache.Sample.snapshot), w);
  cache_write := fun _ w => (Some (Some AuthCache.Sample.snapshot), w);
  cache_store := fun _ w => w; refresh_lock := fun _ w => (true, w); refresh_unlock := fun w => w;
  metadata_get := fun _ _ w => (AnswerError, w);
|}.
#[local] Instance permits : CapacityWorld Glpi := {|
  capacity_clock := reference_clock; try_take := fun w => (true, w); take_until := fun _ w => (false, w);
  give_back := fun w => w;
|}.
#[local] Instance metrics : MetricsWorld Glpi :=
  {| increment_counter := fun _ _ w => w; record_histogram := fun _ _ w => w |}.
#[local] Instance undisturbed : Undisturbed reference_config Glpi.
Proof. by constructor. Qed.

Definition raw : GlpiAdapterConfig := mkGlpiAdapterConfig "https://glpi/" "app" "user" 5 [] DefaultSource.
Definition conf : RuntimeConfiguration :=
  mkRuntimeConfiguration (Some (GenericRest (mkProviderConfig "https://127.0.0.1/" 5 []))) (Some raw)
    [mkConfiguredTarget "glpi" "glpi"].
Definition application : ComposedApplication :=
  match compose None conf with
  | Ok app => app
  | Err _ => mkComposedApplication ProviderUnavailable (mkTargetRouter ∅ ∅)
  end.

Definition run : HttpOutcome * Tr Glpi HttpCall :=
  handle System.Sample.login_of
    (composed_handler AuthCache.Sample.config application (mkSemaphoreCapacity 1))
    System.Sample.headers (Collected []) (mkContext 100) (mkTr GlpiReference.Sample.start []).

Lemma application_composes : compose None conf = Ok application.
Proof.
  assert (is_ok (compose None conf) = true) as H by (vm_compute; reflexivity).
  unfold application. by destruct (compose None conf).
Qed.
Lemma raw_validates : glpi_adapter_new raw = Ok reference_config.
Proof. vm_compute. reflexivity. Qed.

Lemma run_changed : run.1 = OutChanged.
Proof. vm_compute. reflexivity. Qed.

Lemma run_rows : owned (database (world run.2)) 7 = [mkRow 19 3 6 true; mkRow 1 0 4 false].
Proof. vm_compute. reflexivity. Qed.

Lemma answered_enforced_witness :
  enforced reference_config System.Sample.login_of AuthCache.Sample.config application System.Sample.headers
    (Collected []) (mkContext 100) Changed GlpiReference.Sample.start (world run.2) /\
  owned (database (world run.2)) 7 = [mkRow 19 3 6 true; mkRow 1 0 4 false].
Proof.
  split; [|exact run_rows].
  assert (answer_enforced reference_config System.Sample.login_of AuthCache.Sample.config application
    System.Sample.headers (Collected []) (mkContext 100) GlpiReference.Sample.start run) as H.
  { apply (answered_enforced (GlpiD := glpi_deps) reference_config System.Sample.login_of AuthCache.Sample.config
      application (mkSemaphoreCapacity 1) None conf raw); [exact application_composes|reflexivity|exact raw_validates]. }
  exact (H Changed run_changed).
Defined.
End Sample.
