(* ===== verification/Served.v ===== *)
(** * A genuine login is served

    [EndToEnd] shows what an answer means.  Here is the converse, for the whole process:
    in front of a trusted source, a Permission Provider service and a GLPI that keep their
    contracts, a login with a genuine token for a configured target is answered [Changed]
    or [Unchanged] and enforced, if nobody gives up and time does not run out. *)
From S2P Require Import Prelude Core Dns Json Net Provider ProviderService.
From S2P Require Import GlpiBase GlpiConfig GlpiPlan GlpiPayload GlpiAdapter GlpiServer GlpiConverge GlpiReference.
From S2P Require Import AuthBase AuthClaims AuthCache AuthWalk AuthTrust.
From S2P Require Import Routing Orchestration Capacity Http System EndToEnd.

(** ** The environment *)

(** A clock that stays in a span of time, and nobody cancels. *)
Definition calm {W : Type} (clock : Clock W) (began ends : Z) : Prop :=
  (forall w : W, (is_cancelled w).1 = false) /\ forall w : W, (began <= (now w).1 < ends)%Z.

(** The components share no state with GLPI but the adapter's requests. *)
Class Separate `{Deps : GlpiDeps, ProviderD : ProviderDeps, AuthD : AuthDeps} (config : ValidatedConfig) (W : Type)
    `{!NetWorld W, !GlpiWorld W, !AuthWorld W, !CapacityWorld W, !Clock W, !MetricsWorld W}
    `{!CompliantGlpi config W} : Prop := {
  separate_rest :: Undisturbed config W;
  separate_auth : forall g, keeps_all (fun w : W => glpi w = g);
  separate_net : forall g, net_keeps (fun w : W => glpi w = g);
  separate_poll : forall w : W, glpi (is_cancelled (Clock := capacity_clock) w).2 = glpi w;
  separate_time : forall w : W, glpi (now (Clock := capacity_clock) w).2 = glpi w;
  separate_take : forall w : W, glpi (try_take w).2 = glpi w;
}.

Section Served.
Context {W : Type} `{ProviderD : ProviderDeps, GlpiD : GlpiConfigDeps, AuthD : AuthDeps}.
Context `{!NetWorld W, !GlpiWorld W, !AuthWorld W, !CapacityWorld W, Process : !Clock W, !MetricsWorld W}.

(** Nothing keeps the request waiting: no cancellation, clock readings within a span
    that ends before the deadline and is shorter than a Provider operation, locks and a
    permit granted, GLPI's answers in time. *)
Record unhurried (context : SynchronizationContext) (provider : GenericRestPermissionProvider)
    (span_began span_ends : Z) : Prop := mkUnhurried {
  span_before_deadline : (span_ends <= deadline context)%Z;
  span_short : (span_ends <= span_began + Provider.operation_timeout provider)%Z;
  calm_process : calm Process span_began span_ends;
  calm_net : calm net_clock span_began span_ends;
  calm_glpi : calm glpi_clock span_began span_ends;
  calm_auth : calm auth_clock span_began span_ends;
  calm_capacity : calm capacity_clock span_began span_ends;
  read_granted : forall w : W, (cache_read (deadline context) w).1 <> None;
  write_granted : forall w : W, (cache_write (deadline context) w).1 <> None;
  lock_granted : forall w : W, (refresh_lock (deadline context) w).1 = true;
  permit_granted : forall w : W, (try_take w).1 = true;
  glpi_in_time : forall req d (w : W), (transport_request req d w).1 <> Err DeadlineExceeded;
}.

Section Request.
Context (glpi_config : ValidatedConfig) `{Server : !CompliantGlpi glpi_config W}.
Context `{Apart : !Separate glpi_config W}.
Context (context : SynchronizationContext) (provider : GenericRestPermissionProvider) (began ends : Z).
Context (Hcalm : unhurried context provider began ends).
Implicit Types g : Glpi.

Definition holds_glpi {C} g (s : Tr W C) : Prop := glpi (world s) = g.

(** ** Nothing stops the request *)

Lemma never_hurried l : ~ hurried (W := W) context l.
Proof.
  destruct Hcalm as [Hd _ _ _ _ [Hc Ht] _ Hr Hw Hl _ _].
  intros (e & _ & He)%Exists_exists. destruct e as [t|b|[]]; simpl in He; try done.
  - destruct He as [Hle (w & <-)]. specialize (Ht w). lia.
  - destruct He as [_ (w & H)]. by rewrite Hc in H.
  - destruct He as [_ (w & H)]. by apply (Hr w).
  - destruct He as [_ (w & H)]. by apply (Hw w).
  - destruct He as [_ (w & H)]. by rewrite Hl in H.
Qed.

Lemma never_late e l : ~ @late _ W net_clock (deadline context) (Provider.operation_timeout provider) e l.
Proof.
  destruct Hcalm as [Hd Hs _ [Hc Ht] _ _ _ _ _ _ _ _]. destruct e; simpl; try tauto.
  - intros [_ (w & H)]. by rewrite Hc in H.
  - intros (t & rest & t' & _ & _ & H & w & w' & <- & <-).
    pose proof (Ht w). pose proof (Ht w'). unfold window_end, instant_checked_add in H.
    destruct (_ <=? _)%Z; simpl in H; lia.
Qed.

Lemma never_interrupted e l : ~ interrupted W (deadline context) e l.
Proof.
  destruct Hcalm as [Hd _ _ _ [Hc Ht] _ _ _ _ _ _ Hg]. destruct e; simpl; try tauto.
  - intros [_ (w & H)]. by rewrite Hc in H.
  - intros [(t & _ & Hle & w & <-)|(c & _ & _ & w & H)]; [specialize (Ht w); lia|by apply Hg in H].
Qed.

(** The context check of the handler, the orchestration and the capacity. *)
Lemma passes_check {C} (clock : Clock W) g : calm clock began ends ->
  (forall w : W, glpi (is_cancelled w).2 = glpi w) -> (forall w : W, glpi (now w).2 = glpi w) ->
  sure (holds_glpi (C := C) g)
    (let* c := read_cancelled in if c then eret true else let* t := read_now in eret (deadline context <=? t)%Z)
    (fun b s => b = false /\ holds_glpi g s).
Proof.
  intros [Hc Ht] Hgc Hgt s Hs. pose proof (span_before_deadline _ _ _ _ Hcalm) as Hd.
  unfold ebind, read_cancelled, read_now. specialize (Hgc (world s)). pose proof (Hc (world s)) as Hc'.
  destruct (is_cancelled (world s)) as [b w1]. simpl in *. subst b. simpl.
  specialize (Hgt w1). specialize (Ht w1). destruct (now w1) as [t w2]. simpl in *.
  split; [apply Z.leb_gt; lia|]. unfold holds_glpi in *. simpl. congruence.
Qed.

(** ** The components *)

Lemma serves_authentication config `{!SourceView W} `{Source : !TrustedSource config W} token alg caller (w : W) :
  genuine W config token alg caller ->
  let '(r, w') := authenticator_authenticate config (mkAuthRequest (Some token) context) w in
  r = Ok caller /\ glpi w' = glpi w.
Proof.
  intros Htoken. unfold authenticator_authenticate, authenticator_port.
  set (request := mkAuthRequest (Some token) context).
  pose proof (sure_authenticate config token alg caller Htoken request eq_refl (mkTr w []) I) as Hr.
  pose proof (kept_authenticate config _ (separate_auth (glpi w)) request (mkTr w []) eq_refl) as Hg.
  destruct (authenticate config request (mkTr w [])) as [r s]. split; [|exact Hg].
  destruct Hr as [Hr|[_ Hr]]; [done|]. by apply never_hurried in Hr.
Qed.

Lemma serves_permit cap (w : W) :
  let '(r, w') := capacity_acquire cap context w in r = Ok tt /\ glpi w' = glpi w.
Proof.
  assert (sure (holds_glpi (glpi w)) (Capacity.acquire context) (fun r s => r = Ok tt /\ holds_glpi (glpi w) s)) as H.
  { pose proof (passes_check (C := CapacityCall) capacity_clock (glpi w) (calm_capacity _ _ _ _ Hcalm)
      separate_poll separate_time) as Hcheck.
    assert (sure (holds_glpi (glpi w)) (take context) (fun b s => b = true /\ holds_glpi (glpi w) s)) as Htake.
    { intros s Hs. unfold take, ebind, perform. pose proof (permit_granted _ _ _ _ Hcalm (world s)) as Ht.
      pose proof (separate_take (world s)) as Hg. destruct (try_take (world s)) as [b w']. simpl in *. subst b.
      split; [done|]. unfold holds_glpi in *. simpl. congruence. }
    unfold Capacity.acquire. eapply sure_bind; [exact Hcheck|]. intros b. apply sure_pre. intros ->.
    eapply sure_bind; [exact Htake|]. intros b. apply sure_pre. intros ->. simpl.
    eapply sure_bind; [exact Hcheck|]. intros b. apply sure_pre. intros ->. by intros s Hs. }
  simpl. specialize (H (mkTr w []) eq_refl). by destruct (Capacity.acquire context (mkTr w [])).
Qed.

(** An instrumented call happens in a world that shows the same GLPI. *)
Lemma instrumented_glpi {A} (call : W -> A * W) total duration label w (Q : A -> Glpi -> Prop) :
  (forall w1, glpi w1 = glpi w -> Q (call w1).1 (glpi (call w1).2)) ->
  let '(r, w') := instrumented call total duration label w in Q r (glpi w').
Proof.
  intros Hcall. destruct (instrumented call total duration label w) as [r w'] eqn:E.
  apply instrumented_ok in E as (w1 & w2 & H1 & Hc & H2). specialize (Hcall w1 (drifts_glpi glpi_config _ _ H1)).
  rewrite Hc in Hcall. by rewrite (drifts_glpi glpi_config _ _ H2).
Qed.

Lemma serves_provider `{Service : !ServingProvider provider W} identity target token (w : W) :
  Provider.header_text_valid ("Bearer " ++ token)%string = true ->
  let '(r, w') := provider_resolve (mkInstrumentedProvider provider)
    (mkProviderRequest identity target (mkBearerToken token) context) w in
  r = Ok (desired_of identity) /\ glpi w' = glpi w.
Proof.
  intros Hb. apply (instrumented_glpi _ _ _ _ w (fun r g => r = Ok (desired_of identity) /\ g = glpi w)).
  intros w1 Hw1. unfold provider_resolve, generic_rest_provider. cbn [provider_inner].
  set (request := mkProviderRequest identity target (mkBearerToken token) context).
  pose proof (delivers_resolve provider request w1 Hb) as Hr.
  pose proof (net_kept_resolve provider _ (separate_net (glpi w)) request (mkTr w1 []) Hw1) as Hg.
  destruct (Provider.resolve provider request (mkTr w1 [])) as [[env|e] s]; simpl in *.
  - split; [by rewrite Hr|exact Hg].
  - by apply never_late in Hr.
Qed.

Lemma serves_adapter identity env desired resolved o (w : W) :
  solvable glpi_config (mkAdapterRequest identity env context) desired resolved o (database (glpi w)) ->
  let '(r, w') := adapter_reconcile (mkInstrumentedAdapter glpi_config) (mkAdapterRequest identity env context) w in
  exists outcome, r = Ok outcome /\
    converged (database (glpi w)) (database (glpi w')) (username identity) o resolved outcome.
Proof.
  intros Hs. apply (instrumented_glpi _ _ _ _ w (fun r g => exists outcome, r = Ok outcome /\
    converged (database (glpi w)) (database g) (username identity) o resolved outcome)).
  intros w1 Hw1. unfold adapter_reconcile, GlpiAdapter. cbn [adapter_inner].
  pose proof (runs_reconcile glpi_config _ desired resolved o _ Hs (mkTr w1 []) Hw1) as Hr.
  destruct (reconcile glpi_config _ (mkTr w1 [])) as [[outcome|e] s]; simpl in *; [by exists outcome|].
  by apply never_interrupted in Hr.
Qed.

(** ** The request *)

Section Login.
Context `{Service : !ServingProvider provider W} (identity : IdentityContext) (target : LogicalTarget) (token : string).
Context (Hbearer : Provider.header_text_valid ("Bearer " ++ token)%string = true).
Context (desired : list CanonicalAssignment) (resolved : list DesiredAssignment) (o : option N) (w : W).
Context (Hsolv : solvable glpi_config (mkAdapterRequest identity (desired_of identity) context)
  desired resolved o (database (glpi w))).
Abbreviation request := (mkSyncRequest identity target (mkBearerToken token) context).

(** The tables are those of [w], or they have converged from them. *)
Definition served {A} (outcome_of : ReconciliationOutcome -> A) (r : A) (w' : W) : Prop :=
  exists outcome, r = outcome_of outcome /\
    converged (database (glpi w)) (database (glpi w')) (username identity) o resolved outcome.

Lemma passes_process {C} g :
  sure (holds_glpi (C := C) g)
    (let* c := read_cancelled in if c then eret true else let* t := read_now in eret (deadline context <=? t)%Z)
    (fun b s => b = false /\ holds_glpi g s).
Proof.
  apply passes_check; [apply (calm_process _ _ _ _ Hcalm)|apply undisturbed_cancelled|apply undisturbed_now].
Qed.

Abbreviation SCall := (SyncCall (A := InstrumentedAdapter ValidatedConfig) (Permit := unit)
  (EP := ProviderFailure) (EA := GlpiFailure)).

Lemma serves_with_permit :
  sure (holds_glpi (C := SCall) (glpi w))
    (synchronize_with_permit (mkInstrumentedAdapter glpi_config) (mkInstrumentedProvider provider) request)
    (fun r s => served Ok r (world s)).
Proof.
  unfold synchronize_with_permit, is_cancelled_or_expired. rewrite !copy_context_id.
  eapply sure_bind; [apply passes_process|]. intros b. apply sure_pre. intros ->.
  eapply (sure_bind _ _ _ (fun r s => r = Ok (desired_of identity) /\ holds_glpi (glpi w) s)).
  { intros s Hs. pose proof (serves_provider identity target token (world s) Hbearer) as H.
    unfold call_provider, perform. cbn [pr_identity sr_identity sr_target sr_technical_caller_bearer_token sr_context].
    destruct (provider_resolve _ _ (world s)) as [r w']. destruct H as [-> Hg]. split; [done|].
    unfold holds_glpi in *. simpl. congruence. }
  intros r. apply sure_pre. intros ->.
  eapply sure_bind; [apply passes_process|]. intros b. apply sure_pre. intros ->.
  eapply (sure_bind _ _ _ (fun r s => served Ok r (world s))).
  { intros s Hs. unfold holds_glpi in Hs.
    pose proof (serves_adapter identity (desired_of identity) desired resolved o (world s)) as H.
    rewrite Hs in H. specialize (H Hsolv). unfold call_adapter, perform.
    destruct (adapter_reconcile _ _ (world s)) as [r w']. exact H. }
  intros r s (outcome & -> & Hc).
  pose proof (sure_bind _ (fun b : bool => if b then eret (Err SyncCancelled) else eret (Ok outcome)) _ _
    (fun r s' => r = Ok outcome /\ glpi (world s') = glpi (world s)) (passes_process (C := SCall) (glpi (world s)))) as H.
  destruct (H ltac:(intros b s' [-> Hs']; done) s eq_refl) as [Hr Hg].
  exists outcome. split; [exact Hr|].
  exact (eq_ind_r (fun g => converged (database (glpi w)) (database g) (username identity) o resolved outcome) Hc Hg).
Qed.

Lemma serves_synchronization app cap :
  resolve_target app target = TargetIsUsable (mkInstrumentedAdapter glpi_config) ->
  composed_provider app = Some (mkInstrumentedProvider provider) ->
  sure (holds_glpi (C := SCall) (glpi w)) (synchronize (selected_target_synchronizer app cap) request)
    (fun r s => served Ok r (world s)).
Proof.
  intros Htarget Hprov. unfold synchronize, is_cancelled_or_expired.
  eapply sure_bind; [apply passes_process|]. intros b. apply sure_pre. intros ->. simpl.
  unfold resolve_target in Htarget. destruct (router_resolve (app_router app) target) as [a|[]];
    [injection Htarget as ->|done..].
  eapply sure_bind; [apply passes_process|]. intros b. apply sure_pre. intros ->. rewrite Hprov.
  eapply (sure_bind _ _ _ (fun r s => r = Ok tt /\ holds_glpi (glpi w) s)).
  { intros s Hs. pose proof (serves_permit cap (world s)) as H. unfold acquire_permit, perform.
    destruct (capacity_acquire _ _ (world s)) as [r w']. destruct H as [-> Hg]. split; [done|].
    unfold holds_glpi in *. simpl. congruence. }
  intros r. apply sure_pre. intros ->. eapply sure_bind; [apply serves_with_permit|].
  intros r s (outcome & -> & Hc). exists outcome. split; [done|].
  unfold ebind, drop_permit, perform. simpl. by rewrite undisturbed_permit.
Qed.

(** The handler's context check before the rest of a request. *)
Lemma passes_handler g (m : Eff (Tr W HttpCall) HttpOutcome) (Q : HttpOutcome -> Tr W HttpCall -> Prop) :
  sure (holds_glpi g) m Q ->
  sure (holds_glpi g) (let* unavailable := context_unavailable context in
    if (unavailable : bool) then eret CancelledOrExpired else m) Q.
Proof. intros Hm. eapply sure_bind; [apply passes_process|]. intros b. apply sure_pre. by intros ->. Qed.

Section Handling.
Context (from_slice_login : bytes -> option LoginBody) (config : Config) (app : ComposedApplication).
Context (cap : SemaphoreCapacity) (body : InboundBody) (login : LoginBody).
Context (Htarget : resolve_target app target = TargetIsUsable (mkInstrumentedAdapter glpi_config)).
Context (Hprov : composed_provider app = Some (mkInstrumentedProvider provider)).
Context (Hlogin : valid_login from_slice_login body = Some login).
Context (Hidentity : identity = mkIdentityContext (login_username login) (login_groups login)).
Abbreviation handler := (composed_handler config app cap).
Abbreviation answered := (fun o (s : Tr W HttpCall) => served (fun x => synchronization_outcome (Ok x)) o (world s)).

Lemma serves_authenticated :
  sure (holds_glpi (glpi w))
    (handle_authenticated from_slice_login handler (mkBearerToken token) (Some target) body context) answered.
Proof.
  unfold handle_authenticated. apply passes_handler. revert Hlogin. unfold valid_login.
  destruct body as [b|]; [|done]. destruct (from_slice_login b) as [login'|]; [|done].
  destruct (bool_decide (event_type login' = "LOGIN")); [|done]. intros [= ->]. simpl. rewrite <- Hidentity.
  intros s Hs. unfold ebind, perform, synchronizer_synchronize, synchronizer_port.
  pose proof (serves_synchronization app cap Htarget Hprov (mkTr (world s) []) Hs) as (outcome & Hr & Hc).
  cbn [selected_synchronizer composed_handler].
  destruct (synchronize _ _ (mkTr (world s) [])) as [r t]. simpl in *. subst r. by exists outcome.
Qed.

Lemma serves_request headers alg caller `{!SourceView W} `{Source : !TrustedSource config W} :
  extract_bearer headers = Some token -> genuine W config token alg caller ->
  target_selection caller = Selected target ->
  sure (holds_glpi (glpi w)) (handle from_slice_login handler headers body context) answered.
Proof.
  intros Hext Hgenuine Hsel. unfold handle. apply passes_handler. cbv zeta. apply passes_handler. rewrite Hext.
  replace (mkContext (deadline context)) with context by (by destruct context).
  eapply (sure_bind _ _ _ (fun r s => r = Ok caller /\ holds_glpi (glpi w) s)).
  { intros s Hs. unfold perform. cbn [authenticator composed_handler].
    pose proof (serves_authentication config token alg caller (world s) Hgenuine) as H.
    destruct (authenticator_authenticate _ _ (world s)) as [r w']. destruct H as [-> Hg]. split; [done|].
    unfold holds_glpi in *. simpl. congruence. }
  intros r. apply sure_pre. intros ->. apply passes_handler. rewrite Hsel.
  destruct (token_claims _ _ _ _ Hgenuine) as (? & ? & ? & _ & _ & _ & _ & _ & _ & ->).
  apply serves_authenticated.
Qed.
End Handling.
End Login.

(** C3: a login whose sole bearer token is genuine and selects a target configured
    for GLPI is answered [Changed] or [Unchanged], and GLPI's tables go from what they were
    to exactly the state the Provider service wants for the body's identity, provided the
    trusted source, the Provider service and GLPI keep their contracts, that state is one
    GLPI can express, and nothing keeps the request waiting past its deadline. *)
Theorem genuine_login_enforced (from_slice_login : bytes -> option LoginBody) (config : Config)
    `{!SourceView W} `{Source : !TrustedSource config W} `{Service : !ServingProvider provider W}
    (app : ComposedApplication) (cap : SemaphoreCapacity) (system_conf : option (list NameServer))
    (conf : RuntimeConfiguration) (raw : GlpiAdapterConfig) (provider_conf : GenericRestPermissionProviderConfig)
    (headers : HeaderList) (body : InboundBody) (token : string) (alg : JwtAlgorithm)
    (caller : AuthenticatedTechnicalCaller) (login : LoginBody) (target : LogicalTarget) (route : ConfiguredTarget)
    (desired : list CanonicalAssignment) (resolved : list DesiredAssignment) (o : option N) (w : W) :
  let identity := mkIdentityContext (login_username login) (login_groups login) in
  compose system_conf conf = Ok app ->
  configured_glpi conf = Some raw -> glpi_adapter_new raw = Ok glpi_config ->
  configured_provider conf = Some (GenericRest provider_conf) ->
  provider_new system_conf provider_conf = Ok provider ->
  configured conf target = Some route -> adapter_identifier route = GLPI_ADAPTER_IDENTIFIER ->
  extract_bearer headers = Some token -> Provider.header_text_valid ("Bearer " ++ token)%string = true ->
  genuine W config token alg caller -> target_selection caller = Selected target ->
  valid_login from_slice_login body = Some login ->
  solvable glpi_config (mkAdapterRequest identity (desired_of identity) context) desired resolved o
    (database (glpi w)) ->
  let '(answer, s) := handle from_slice_login (composed_handler config app cap) headers body context (mkTr w []) in
  exists outcome, answer = synchronization_outcome (Ok outcome) /\
    converged (database (glpi w)) (database (glpi (world s))) (login_username login) o resolved outcome.
Proof.
  intros identity Hcompose Hraw Hnew Hpconf Hpnew Hroute Hid Htoken Hbearer Hgenuine Hsel Hlogin Hsolv.
  assert (resolve_target app target = TargetIsUsable (mkInstrumentedAdapter glpi_config)) as Htarget.
  { destruct (compose_resolves _ _ _ Hcompose) as (_ & _ & ->). unfold availability. rewrite Hroute, Hraw. simpl.
    rewrite Hnew. by rewrite bool_decide_true. }
  pose proof (composed_usable _ _ _ _ _ Hcompose Hpconf Hpnew) as Hprov.
  pose proof (serves_request identity target token Hbearer desired resolved o w Hsolv from_slice_login config app cap
    body login Htarget Hprov Hlogin eq_refl headers alg caller Htoken Hgenuine Hsel (mkTr w []) eq_refl) as H.
  by destruct (handle _ _ _ _ _ _) as [answer s].
Qed.
End Request.
End Served.

(** ** A concrete login

    The trusted source of [AuthTrust.Sample], a Provider service at a literal address and
    the reference GLPI: Jane's rows become what the service wants for her. *)
Module Sample.
#[local] Existing Instance reference_deps.
#[local] Existing Instance reference_clock.
#[local] Existing Instance reference_world.
#[local] Existing Instance reference_compliant.
#[local] Existing Instance System.Sample.names.
#[local] Existing Instance System.Sample.provider_deps.
#[local] Existing Instance AuthTrust.Sample.deps.
#[local] Existing Instance EndToEnd.Sample.glpi_deps.
#[local] Existing Instance EndToEnd.Sample.network.
#[local] Existing Instance EndToEnd.Sample.permits.
#[local] Existing Instance EndToEnd.Sample.metrics.

(** The cache holds the published keys. *)
Definition snapshot : Snapshot := mkSnapshot (H := AuthTrust.Sample.deps) [AuthTrust.Sample.key "new"] 3 8.
#[local] Instance trusted : AuthWorld Glpi := {|
  auth_clock := reference_clock; tick := fun w => (5%Z, w);
  unix_seconds := fun w => (Some (f64_of_Z 1000), w);
  cache_read := fun _ w => (Some (Some snapshot), w);
  cache_write := fun _ w => (Some (Some snapshot), w);
  cache_store := fun _ w => w; refresh_lock := fun _ w => (true, w); refresh_unlock := fun w => w;
  metadata_get := fun _ _ w =>
    (AnswerResponse (mkMetadataResponse 200 None None [FrameData (as_bytes "keys")]), w);
|}.
#[local] Instance view : SourceView Glpi :=
  {| cached := fun _ => Some snapshot; time := fun _ => 5%Z; began := 0%Z; document := fun _ => as_bytes "keys";
     published := [AuthTrust.Sample.key "new"] |}.
Abbreviation config := AuthTrust.Sample.config.
Abbreviation caller := AuthTrust.Sample.caller.

#[local] Instance source : TrustedSource config Glpi.
Proof.
  constructor; try (intros; split; [done|by left]).
  - intros w. split; [split; [done|by left]|done].
  - intros d w. split; [split; [done|by left]|]. by intros c [= <-].
  - intros uri d w. split; [split; [done|by left]|]. eexists. split; [reflexivity|].
    split_and!; [done|done|done|constructor; [right; by eexists|done]|done|done].
  - intros s w. split; [done|]. right. by exists snapshot.
  - done.
  - exists (as_bytes "keys"). split; [done|]. vm_compute. reflexivity.
Qed.

Lemma token_genuine_here : genuine Glpi config "token" RS256 caller.
Proof.
  destruct AuthTrust.Sample.token_genuine as [Hs Hp Hh (payload & claims & parsed & Hv & Hu & Ha & Hw & Hrest)].
  constructor; [done|done|done|]. exists payload, claims, parsed. split; [done|]. split; [done|]. split; [done|].
  split; [intros w; exact (Hw None)|exact Hrest].
Qed.

Definition provider : GenericRestPermissionProvider :=
  mkProvider "https://127.0.0.1/" (mkEndpointHost 443 (Literal (V4 1))) 5.
Definition envelope : DesiredStateEnvelope := mkEnvelope (mkEnvelopeVersion 1) (mkOpaquePayload "payload").

Lemma provider_validates : provider_new None (mkProviderConfig "https://127.0.0.1/" 5 []) = Ok provider.
Proof. vm_compute. reflexivity. Qed.

#[local] Program Instance service : ServingProvider provider Glpi := {| desired_of := fun _ => envelope |}.
Next Obligation. done. Qed.
Next Obligation. by eexists. Qed.
Next Obligation. done. Qed.
Next Obligation. done. Qed.
Next Obligation. done. Qed.
Next Obligation. done. Qed.
Next Obligation. done. Qed.
Next Obligation. done. Qed.
Next Obligation.
  intros identity body authorization out w _ _. eexists. split; [reflexivity|]. split; [done|]. split.
  { exists None. split; [|done].
    pose proof (success_headers_exact [("content-type", as_bytes "application/json")] RESPONSE_BODY_LIMIT_BYTES) as H.
    assert (validate_success_headers [("content-type", as_bytes "application/json")] RESPONSE_BODY_LIMIT_BYTES
      = Ok None) as E by (vm_compute; reflexivity).
    rewrite E in H. apply H. }
  split; [simpl; rewrite !Forall_cons; eauto 10|]. split; [by vm_compute|]. exists "payload". done.
Qed.

#[local] Instance separate : Separate reference_config Glpi.
Proof. constructor; [by constructor|by constructor|by constructor|done|done|done]. Qed.

Lemma calm_clock : calm reference_clock 0 1.
Proof. by split. Qed.

Lemma login_unhurried : unhurried (mkContext 100) provider 0 1.
Proof.
  constructor; try exact calm_clock; try done.
  intros req d w. simpl. destruct (parse_request req) as [ask|]; [|done]. by destruct (serve ask w).
Qed.

Definition conf : RuntimeConfiguration := EndToEnd.Sample.conf.
Definition application : ComposedApplication :=
  match compose None conf with
  | Ok app => app
  | Err _ => mkComposedApplication ProviderUnavailable (mkTargetRouter ∅ ∅)
  end.

Lemma login_composes : compose None conf = Ok application.
Proof.
  assert (is_ok (compose None conf) = true) as H by (vm_compute; reflexivity).
  unfold application. by destruct (compose None conf).
Qed.

Lemma genuine_login_enforced_witness :
  let '(answer, s) := handle System.Sample.login_of (composed_handler config application (mkSemaphoreCapacity 1))
    System.Sample.headers (Collected []) (mkContext 100) (mkTr GlpiReference.Sample.start []) in
  exists outcome, answer = synchronization_outcome (Ok outcome) /\
    converged GlpiReference.Sample.tables (database (glpi (world s))) "jane" (Some 7%N)
      GlpiReference.Sample.resolved outcome.
Proof.
  pose proof (genuine_login_enforced (GlpiD := EndToEnd.Sample.glpi_deps) reference_config (mkContext 100) provider 0 1
    login_unhurried System.Sample.login_of config application (mkSemaphoreCapacity 1) None conf EndToEnd.Sample.raw
    (mkProviderConfig "https://127.0.0.1/" 5 []) System.Sample.headers (Collected []) "token" RS256 caller
    (mkLogin "LOGIN" "jane" []) (mkLogicalTarget "glpi") (mkConfiguredTarget "glpi" "glpi")
    GlpiReference.Sample.desired GlpiReference.Sample.resolved (Some 7%N) GlpiReference.Sample.start
    login_composes eq_refl EndToEnd.Sample.raw_validates eq_refl provider_validates ltac:(vm_compute; reflexivity)
    eq_refl ltac:(vm_compute; reflexivity) eq_refl token_genuine_here eq_refl ltac:(vm_compute; reflexivity)
    GlpiReference.Sample.jane_solvable) as H.
  exact H.
Defined.
End Sample.
