(* ===== verification/Failure.v ===== *)
(** * Runtime: fatal categories

    Models [src/runtime/failure.rs]: the closed set of fatal startup and serving
    failures and the fixed text of each. *)
From S2P Require Import Prelude.

Inductive RuntimeFailure : Type :=
| ConfigurationPathMissing
| ConfigurationUnreadable
| ConfigurationNotUtf8
| ConfigurationEmpty
| ConfigurationMultipleDocuments
| InvalidDocumentStructure
| InvalidListener
| InvalidRequestSection
| InvalidShutdown
| InvalidAuthentication
| InvalidObservability
| InvalidTargets
| InvalidComposition
| ObservabilityUnavailable
| ListenerUnavailable
| SignalRegistrationFailed
| ListenerAcceptFailed
| AsyncRuntimeUnavailable.

#[global] Instance RuntimeFailure_eq_dec : EqDecision RuntimeFailure.
Proof. solve_decision. Defined.

(** [<RuntimeFailure as Display>::fmt]. *)
Definition runtime_failure_display (e : RuntimeFailure) : string :=
  match e with
  | ConfigurationPathMissing => "the PERMISSIONSYNC_CONFIG_FILE environment variable is required"
  | ConfigurationUnreadable => "the configuration file could not be read"
  | ConfigurationNotUtf8 => "the configuration file is not valid UTF-8"
  | ConfigurationEmpty => "the configuration file contains no YAML document"
  | ConfigurationMultipleDocuments => "the configuration file contains more than one YAML document"
  | InvalidDocumentStructure =>
      "the configuration document is not one mapping with exactly the required sections"
  | InvalidListener => "the listener configuration is invalid"
  | InvalidRequestSection => "the request configuration is invalid"
  | InvalidShutdown => "the shutdown configuration is invalid"
  | InvalidAuthentication => "the authentication configuration is invalid"
  | InvalidObservability => "the observability configuration is invalid"
  | InvalidTargets => "the target routing configuration is invalid"
  | InvalidComposition => "the configured application composition is unusable"
  | ObservabilityUnavailable => "required observability could not be initialized"
  | ListenerUnavailable => "the configured listener could not be bound"
  | SignalRegistrationFailed => "the required termination-signal handlers could not be installed"
  | ListenerAcceptFailed => "the listener repeatedly failed to accept connections and serving stopped"
  | AsyncRuntimeUnavailable => "the asynchronous runtime could not be created"
  end.

(** Each text names one category. *)
#[global] Instance runtime_failure_display_inj : Inj (=) (=) runtime_failure_display.
Proof. intros [] [] E; try done; vm_compute in E; discriminate. Qed.
