(* ===== verification/Observability.v ===== *)
(** * Runtime: observability and trace export

    Models [src/runtime/observability.rs] (validation of the tracing
    configuration, initialization, the bounded shutdown of the trace provider)
    and [src/runtime/otlp.rs] (the exporter client pinned to one origin).
    Prometheus, [tracing-subscriber] and the OpenTelemetry SDK answer through
    [ExportWorld] and [TracingWorld]. *)
From S2P Require Import Prelude Failure.

(** ** Names ([observability.rs]) *)

Definition REQUESTS_TOTAL : string := "permissionsync_requests_total".
Definition REQUEST_DURATION_SECONDS : string := "permissionsync_request_duration_seconds".
Definition REQUEST_STAGE_TOTAL : string := "permissionsync_request_stage_total".
Definition COMPONENT_AVAILABLE : string := "permissionsync_component_available".
Definition READY : string := "permissionsync_ready".

Definition BOUNDED_SPAN_QUEUE : N := 2048.
Definition BOUNDED_EXPORT_BATCH : N := 512.
Definition SPAN_EXPORT_INTERVAL : Z := 5 * NANOS_PER_SEC.
Definition BOUNDED_CONCURRENT_EXPORTS : N := 1.
Definition MAX_SPAN_ATTRIBUTES : N := 32.
Definition MAX_SPAN_EVENTS : N := 64.
Definition MAX_SPAN_LINKS : N := 8.
Definition MAX_ATTRIBUTES_PER_SPAN_EVENT : N := 32.
Definition MAX_ATTRIBUTES_PER_SPAN_LINK : N := 8.

Inductive LogLevel : Type := LogError | LogWarn | LogInfo | LogDebug | LogTrace.

Inductive InvalidTracingConfiguration : Type := invalid_tracing.

(** Third-party code: [http::Uri] and its components, [http]'s header names (in
    lower case) and values, and [native_tls]. *)
Class ExportDeps : Type := {
  Uri : Type;
  uri_parse : string -> option Uri;
  uri_to_string : Uri -> string;
  uri_scheme : Uri -> option string;
  uri_host : Uri -> option string;
  uri_authority : Uri -> option string;
  uri_query : Uri -> option string;
  uri_port : Uri -> option N;
  header_name_parse : string -> option string;
  header_value_parse : string -> option string;
  stack_from_pem : bytes -> option nat;
  tls_build : list bytes -> bool;
  exporter_builds : Uri -> bool;
}.

(** ** The pinned client ([otlp.rs]) *)

Definition HTTPS_PORT : N := 443.

Record ExporterOrigin : Type := mkOrigin { origin_host : string; origin_port : N }.

Inductive ExportTransportFailure : Type := ForeignOrigin | RedirectRefused.

Definition export_failure_display (e : ExportTransportFailure) : string :=
  match e with
  | ForeignOrigin => "trace export to a non-configured origin was refused"
  | RedirectRefused => "trace export redirect was refused"
  end.

Definition CONTENT_TYPE : string := "content-type".
Definition CONTENT_LENGTH : string := "content-length".
Definition HOST : string := "host".

(** A [HeaderMap] that was only filled with [insert] holds one value per name. *)
Abbreviation HeaderMap := (gmap string string).

(** [HeaderMap::get] of a received map: the first value of that name. *)
Fixpoint header_get (name : string) (produced : list (string * string)) : option string :=
  match produced with
  | [] => None
  | (n, v) :: rest => if bool_decide (n = name) then Some v else header_get name rest
  end.

Section Exporter.
Context `{Deps : ExportDeps}.

(** [ExporterOrigin::of]. *)
Definition origin_of (endpoint : Uri) : option ExporterOrigin :=
  match uri_host endpoint with
  | Some host => Some (mkOrigin host (default HTTPS_PORT (uri_port endpoint)))
  | None => None
  end.

(** [ExporterOrigin::matches]. *)
Definition origin_matches (self : ExporterOrigin) (uri : Uri) : bool :=
  bool_decide (uri_scheme uri = Some "https")
  && bool_decide (uri_host uri = Some (origin_host self))
  && (default HTTPS_PORT (uri_port uri) =? origin_port self)%N.

(** [PinnedExporterClient], without its connector. *)
Record PinnedExporterClient : Type := mkClient {
  client_origin : ExporterOrigin;
  client_headers : list (string * string);
}.

Definition client_debug (c : PinnedExporterClient) : string := "PinnedExporterClient".

(** The two loops of [outgoing_headers]. *)
Definition protocol_headers (produced : list (string * string)) : HeaderMap :=
  foldl (fun m name => match header_get name produced with
    | Some value => <[name := value]> m
    | None => m
    end) ∅ [CONTENT_TYPE; CONTENT_LENGTH].
Definition outgoing_headers (self : PinnedExporterClient) (produced : list (string * string)) : HeaderMap :=
  foldl (fun m h => <[h.1 := h.2]> m) (protocol_headers produced) (client_headers self).

Record ExportRequest (H : Type) : Type := mkExport { export_uri : Uri; export_headers : H; export_body : bytes }.
Arguments mkExport {H} export_uri export_headers export_body.
Arguments export_uri {H} e.
Arguments export_headers {H} e.
Arguments export_body {H} e.

Record ExportResponse : Type := mkExportResponse { export_status : N; export_answer : bytes }.

(** [HttpError]: the client's own failure, or the inner client's. *)
Inductive HttpError : Type := Refused (e : ExportTransportFailure) | InnerError.

(** The inner Hyper client. *)
Class ExportWorld (W : Type) : Type :=
  inner_send_bytes : ExportRequest HeaderMap -> W -> result ExportResponse HttpError * W.

Inductive ExportCall : Type :=
| SendBytes (r : ExportRequest HeaderMap) (answer : result ExportResponse HttpError).

(** [StatusCode::is_redirection]. *)
Definition is_redirection (status : N) : bool := (300 <=? status)%N && (status <? 400)%N.

Context {W : Type} `{!ExportWorld W}.

(** [<PinnedExporterClient as HttpClient>::send_bytes]. *)
Definition send_bytes (self : PinnedExporterClient) (request : ExportRequest (list (string * string)))
  : Eff (Tr W ExportCall) (result ExportResponse HttpError) :=
  if negb (origin_matches (client_origin self) (export_uri request))
  then eret (Err (Refused ForeignOrigin)) else
  let parts := mkExport (export_uri request) (outgoing_headers self (export_headers request))
    (export_body request) in
  let! response := perform (inner_send_bytes parts) (SendBytes parts) in
  if is_redirection (export_status response) then eret (Err (Refused RedirectRefused))
  else eret (Ok response).
End Exporter.
Arguments mkExport {_ H} export_uri export_headers export_body.
Arguments export_uri {_ H} e.
Arguments export_headers {_ H} e.
Arguments export_body {_ H} e.

(** ** Tracing configuration ([observability.rs]) *)

Section Tracing.
Context `{Deps : ExportDeps}.

(** [TracingConfiguration], without its TLS connector. *)
Record TracingConfiguration : Type := mkTracing {
  tracing_endpoint : Uri;
  tracing_origin : ExporterOrigin;
  export_timeout : Z;
  tracing_headers : list (string * string);
}.

(** [parse_endpoint]. *)
Definition parse_endpoint (endpoint : string) : result Uri InvalidTracingConfiguration :=
  if contains_char ["{"; "}"; "#"]%char endpoint then Err invalid_tracing else
  let? uri := ok_or (uri_parse endpoint) invalid_tracing in
  if negb (bool_decide (uri_scheme uri = Some "https"))
     || match uri_host uri with None => true | Some host => bool_decide (host = "") end
     || bool_decide (is_Some (uri_query uri))
     || match uri_authority uri with None => true | Some a => contains_char ["@"%char] a end
  then Err invalid_tracing else Ok uri.

(** The header loop of [TracingConfiguration::new], over the [BTreeMap] in
    ascending key order. *)
Fixpoint exporter_headers (headers : list (string * string))
  : result (list (string * string)) InvalidTracingConfiguration :=
  match headers with
  | [] => Ok []
  | (n, v) :: rest =>
      let? name := ok_or (header_name_parse n) invalid_tracing in
      if bool_decide (name = CONTENT_TYPE) || bool_decide (name = CONTENT_LENGTH) || bool_decide (name = HOST)
      then Err invalid_tracing else
      let? value := ok_or (header_value_parse v) invalid_tracing in
      let? others := exporter_headers rest in
      Ok ((name, value) :: others)
  end.

Definition trust_anchor_ok (pem : bytes) : bool :=
  match stack_from_pem pem with Some (S _) => true | _ => false end.

(** [TracingConfiguration::new]. *)
Definition tracing_configuration_new (endpoint : string) (timeout : Z) (headers : list (string * string))
    (additional_trust_anchors_pem : list bytes) : result TracingConfiguration InvalidTracingConfiguration :=
  let? uri := parse_endpoint endpoint in
  let? origin := ok_or (origin_of uri) invalid_tracing in
  let? hs := exporter_headers headers in
  if negb (forallb trust_anchor_ok additional_trust_anchors_pem) then Err invalid_tracing else
  if negb (tls_build additional_trust_anchors_pem) then Err invalid_tracing else
  Ok (mkTracing uri origin timeout hs).

(** [TracingConfiguration::client]. *)
Definition tracing_client (c : TracingConfiguration) : PinnedExporterClient :=
  mkClient (tracing_origin c) (tracing_headers c).

Record ObservabilityConfiguration : Type := mkObservability {
  log_level : LogLevel;
  tracing : option TracingConfiguration;
}.

Inductive Sampler : Type := ParentBasedAlwaysOn.
(** The resource: the telemetry SDK's own attributes and the service name. *)
Record Resource : Type := mkResource { telemetry_sdk_attributes : bool; service_name : string }.
Definition permissionsync_resource : Resource := mkResource true "permissionsync".

(** What [build_tracer_provider] sets on the exporter, the batch processor and
    the provider; nothing is left to the environment. *)
Record TracerProvider : Type := mkTracerProvider {
  exporter_client : PinnedExporterClient;
  exporter_endpoint : string;
  exporter_timeout : Z;
  retry_enabled : bool;
  max_queue_size : N;
  max_export_batch_size : N;
  scheduled_delay : Z;
  max_concurrent_exports : N;
  max_export_timeout : Z;
  provider_resource : Resource;
  provider_sampler : Sampler;
  span_limits : list N;
}.

(** [build_tracer_provider]. *)
Definition build_tracer_provider (c : TracingConfiguration) : result TracerProvider RuntimeFailure :=
  if negb (exporter_builds (tracing_endpoint c)) then Err InvalidObservability else
  Ok (mkTracerProvider (tracing_client c) (uri_to_string (tracing_endpoint c)) (export_timeout c) false
        BOUNDED_SPAN_QUEUE BOUNDED_EXPORT_BATCH SPAN_EXPORT_INTERVAL BOUNDED_CONCURRENT_EXPORTS
        (export_timeout c) permissionsync_resource ParentBasedAlwaysOn
        [MAX_SPAN_ATTRIBUTES; MAX_SPAN_EVENTS; MAX_SPAN_LINKS; MAX_ATTRIBUTES_PER_SPAN_EVENT;
         MAX_ATTRIBUTES_PER_SPAN_LINK]).

(** The process-wide registries: whether the buckets are accepted, the subscriber
    (with its threshold and whether it exports spans) and the metrics recorder
    install; the flush thread; and the wait for it. *)
Class TracingWorld (W : Type) : Type := {
  set_buckets : W -> bool * W;
  try_init : LogLevel -> bool -> W -> bool * W;
  set_global_recorder : W -> bool * W;
  spawn_flush_thread : Z -> W -> bool * W;
  flush_thread_ended : W -> bool * W;
  await_flushed : Z -> W -> W;
}.

Inductive TracingCall : Type :=
| SetBuckets (ok : bool)
| TryInit (level : LogLevel) (exports : bool) (ok : bool)
| SetGlobalRecorder (ok : bool)
| SpawnFlushThread (budget : Z) (ok : bool)
| FlushThreadEnded (ended : bool)
| ForgetProvider
| DropHandle
| BlockingDrop
| AwaitFlushed (budget : Z).

(** [Observability], without the Prometheus handle. *)
Record Observability : Type := mkObs { tracer_provider : option TracerProvider }.

Definition tracing_enabled (o : Observability) : bool := bool_decide (is_Some (tracer_provider o)).

Context {W : Type} `{!TracingWorld W}.
Abbreviation M := (Eff (Tr W TracingCall)).

(** A step that must succeed. *)
Definition required (m : M bool) (e : RuntimeFailure) : M (result unit RuntimeFailure) :=
  let* ok := m in eret (if (ok : bool) then Ok tt else Err e).

(** [initialize]. *)
Definition initialize (c : ObservabilityConfiguration) : M (result Observability RuntimeFailure) :=
  let! _ := required (perform set_buckets SetBuckets) ObservabilityUnavailable in
  let! provider := elift (match tracing c with
    | None => Ok None
    | Some t => let? p := build_tracer_provider t in Ok (Some p)
    end) in
  let exports := bool_decide (is_Some provider) in
  let! _ := required (perform (try_init (log_level c) exports) (TryInit (log_level c) exports))
    ObservabilityUnavailable in
  let! _ := required (perform set_global_recorder SetGlobalRecorder) ObservabilityUnavailable in
  eret (Ok (mkObs provider)).

(** Dropping a handle on this thread: the last one of a provider that was not
    shut down runs its blocking [Drop]. *)
Definition drop_handle (last shut_down : bool) : M unit :=
  perform (fun w => (tt, w)) (fun _ => if last && negb shut_down then BlockingDrop else DropHandle).

(** [shutdown_tracer_provider].  Two handles exist: the argument, which moves into
    the closure of the flush thread, and [retained].  A rejected closure is
    dropped by [spawn] on this thread; a thread that ended has shut the provider
    down and dropped its handle. *)
Definition shutdown_tracer_provider (flush_budget : Z) : M unit :=
  let* spawned := perform (spawn_flush_thread flush_budget) (SpawnFlushThread flush_budget) in
  if negb spawned then
    let* _ := drop_handle false false in
    perform (fun w => (tt, w)) (fun _ => ForgetProvider)
  else
    let* ended := perform flush_thread_ended FlushThreadEnded in
    let* _ := drop_handle ended ended in
    perform (fun w => (tt, await_flushed flush_budget w)) (fun _ => AwaitFlushed flush_budget).

(** [Observability::shutdown_tracing]. *)
Definition shutdown_tracing (o : Observability) (flush_budget : Z) : M unit :=
  match tracer_provider o with
  | Some _ => shutdown_tracer_provider flush_budget
  | None => eret tt
  end.
End Tracing.

(** ** Facts: the exporter *)

Section ExportFacts.
Context `{Deps : ExportDeps} {W : Type} `{!ExportWorld W}.

(** The value inserted last for a name. *)
Definition last_value (name : string) (l : list (string * string)) : option string := header_get name (rev l).

Lemma header_get_app name l1 l2 :
  header_get name (l1 ++ l2) = match header_get name l1 with Some v => Some v | None => header_get name l2 end.
Proof. induction l1 as [|[n v] l1 IH]; simpl; [done|]. by case_bool_decide. Qed.

Lemma foldl_insert_lookup (l : list (string * string)) (m : HeaderMap) name :
  foldl (fun m h => <[h.1 := h.2]> m) m l !! name =
  match last_value name l with Some v => Some v | None => m !! name end.
Proof.
  revert m. induction l as [|[n v] l IH]; intros m; simpl; [done|]. rewrite IH. unfold last_value. simpl.
  rewrite header_get_app. destruct (header_get name (rev l)); [done|]. simpl.
  case_bool_decide as E; [subst; by rewrite lookup_insert_eq|by rewrite lookup_insert_ne].
Qed.

Lemma protocol_headers_lookup produced name :
  protocol_headers produced !! name =
  if bool_decide (name ∈ [CONTENT_TYPE; CONTENT_LENGTH]) then header_get name produced else None.
Proof.
  unfold protocol_headers. simpl. case_bool_decide as E.
  - apply elem_of_cons in E as [->|E%list_elem_of_singleton]; [|subst].
    + destruct (header_get CONTENT_LENGTH produced), (header_get CONTENT_TYPE produced);
        rewrite ?lookup_insert_ne by done; by rewrite ?lookup_insert_eq.
    + destruct (header_get CONTENT_LENGTH produced), (header_get CONTENT_TYPE produced);
        rewrite ?lookup_insert_eq; rewrite ?lookup_insert_ne by done; done.
  - apply not_elem_of_cons in E as [H1 H2]. rewrite list_elem_of_singleton in H2.
    destruct (header_get CONTENT_LENGTH produced), (header_get CONTENT_TYPE produced);
      rewrite ?lookup_insert_ne by congruence; done.
Qed.

Lemma outgoing_headers_lookup client produced name :
  outgoing_headers client produced !! name =
  match last_value name (client_headers client) with
  | Some v => Some v
  | None => if bool_decide (name ∈ [CONTENT_TYPE; CONTENT_LENGTH]) then header_get name produced else None
  end.
Proof. unfold outgoing_headers. by rewrite foldl_insert_lookup, protocol_headers_lookup. Qed.

(** Scheme, host and effective port. *)
Definition same_origin (a b : Uri) : Prop :=
  uri_scheme a = Some "https" /\ uri_scheme b = Some "https" /\
  is_Some (uri_host a) /\ uri_host b = uri_host a /\
  default HTTPS_PORT (uri_port b) = default HTTPS_PORT (uri_port a).

Lemma exporter_headers_reserved headers hs :
  exporter_headers headers = Ok hs -> Forall (fun h => h.1 ∉ [CONTENT_TYPE; CONTENT_LENGTH; HOST]) hs.
Proof.
  revert hs. induction headers as [|[n v] headers IH]; intros hs; simpl; [intros [= <-]; constructor|].
  destruct (header_name_parse n) as [name|]; [|done]. simpl.
  destruct (bool_decide _ || _ || _) eqn:E; [done|].
  destruct (header_value_parse v) as [value|]; [|done]. simpl.
  destruct (exporter_headers headers) as [others|]; [|done]. intros [= <-]. constructor; [|by apply IH].
  apply orb_false_iff in E as [E E3]. apply orb_false_iff in E as [E1 E2]. simpl.
  apply bool_decide_eq_false in E1, E2, E3. set_solver.
Qed.

Lemma tracing_configuration_ok endpoint timeout headers pems c :
  tracing_configuration_new endpoint timeout headers pems = Ok c ->
  uri_parse endpoint = Some (tracing_endpoint c) /\
  uri_scheme (tracing_endpoint c) = Some "https" /\
  uri_host (tracing_endpoint c) = Some (origin_host (tracing_origin c)) /\
  origin_port (tracing_origin c) = default HTTPS_PORT (uri_port (tracing_endpoint c)) /\
  Forall (fun h => h.1 ∉ [CONTENT_TYPE; CONTENT_LENGTH; HOST]) (tracing_headers c).
Proof.
  unfold tracing_configuration_new, parse_endpoint. destruct (contains_char _ endpoint); [done|].
  destruct (uri_parse endpoint) as [u|]; [|done]. simpl. destruct (_ || _) eqn:E; [done|]. simpl.
  unfold origin_of. destruct (uri_host u) as [h|] eqn:Hh; [|done]. simpl.
  destruct (exporter_headers headers) as [hs|] eqn:Eh; [|done]. simpl.
  destruct (forallb _ _); [|done]. destruct (tls_build pems); [|done]. intros [= <-]. simpl.
  split_and!; [done| |done|done|by eapply exporter_headers_reserved].
  rewrite !orb_false_iff, negb_false_iff, bool_decide_eq_true in E. apply E.
Qed.

Lemma origin_matches_same c u :
  uri_scheme (tracing_endpoint c) = Some "https" ->
  uri_host (tracing_endpoint c) = Some (origin_host (tracing_origin c)) ->
  origin_port (tracing_origin c) = default HTTPS_PORT (uri_port (tracing_endpoint c)) ->
  origin_matches (tracing_origin c) u = true <-> same_origin (tracing_endpoint c) u.
Proof.
  intros Hs Hh Hp. unfold origin_matches, same_origin. rewrite Hh, <- Hp, Hs.
  rewrite !andb_true_iff, !bool_decide_eq_true, N.eqb_eq. naive_solver.
Qed.

(** C40: whatever URI and headers a batch is handed to the exporter with, a
    client built from a valid tracing configuration makes at most one request, and
    only to the configured endpoint's HTTPS origin; every other batch is refused
    before anything is sent.  The headers that leave are exactly the configured
    ones (which can never name the content type, content length or host) and the
    first content type and content length the exporter produced; a redirect is an
    error, and every other answer is returned as it came. *)
Theorem exporter_confined (endpoint : string) (timeout : Z) (headers : list (string * string))
    (pems : list bytes) :
  match tracing_configuration_new endpoint timeout headers pems with
  | Err _ => True
  | Ok c =>
      uri_parse endpoint = Some (tracing_endpoint c) /\
      Forall (fun h => h.1 ∉ [CONTENT_TYPE; CONTENT_LENGTH; HOST]) (tracing_headers c) /\
      forall request (w : W),
      let '(r, s) := send_bytes (tracing_client c) request (mkTr w []) in
      match calls (trace s) with
      | [] => r = Err (Refused ForeignOrigin) /\ ~ same_origin (tracing_endpoint c) (export_uri request)
      | [SendBytes out answer] =>
          same_origin (tracing_endpoint c) (export_uri request) /\
          export_uri out = export_uri request /\ export_body out = export_body request /\
          (forall name, export_headers out !! name =
             match last_value name (tracing_headers c) with
             | Some v => Some v
             | None => if bool_decide (name ∈ [CONTENT_TYPE; CONTENT_LENGTH])
                       then header_get name (export_headers request) else None
             end) /\
          r = (match answer with
               | Ok response =>
                   if is_redirection (export_status response) then Err (Refused RedirectRefused) else Ok response
               | Err e => Err e
               end)
      | _ => False
      end
  end.
Proof.
  destruct (tracing_configuration_new _ _ _ _) as [c|e] eqn:E; [|done].
  apply tracing_configuration_ok in E as (Hu & Hs & Hh & Hp & Hr).
  split; [done|]. split; [done|]. intros request w. unfold send_bytes, tracing_client. simpl.
  pose proof (origin_matches_same c (export_uri request) Hs Hh Hp) as Ho.
  destruct (origin_matches _ _); simpl.
  - unfold etry, ebind, perform. destruct (inner_send_bytes _ _) as [[resp|err] w'];
      [destruct (is_redirection (export_status resp)) eqn:Er|]; cbn -[is_redirection outgoing_headers]; rewrite ?Er;
      (split; [by apply Ho|]; split; [done|]; split; [done|]; split; [intros name|done]);
      apply (outgoing_headers_lookup (mkClient (tracing_origin c) (tracing_headers c))).
  - split; [done|]. intros H. apply Ho in H. done.
Qed.
End ExportFacts.

(** ** Facts: shutdown of tracing *)

Section TracingFacts.
Context `{Deps : ExportDeps} {W : Type} `{!TracingWorld W}.

(** The shutdowns of tracing there are: none without an exporter; with one, a flush
    thread is asked for once and awaited at most once, for at most the budget.  No
    [BlockingDrop] is among them. *)
Inductive flushed (flush_budget : Z) : bool -> list TracingCall -> Prop :=
| flush_disabled : flushed flush_budget false []
| flush_without_thread :
    flushed flush_budget true [SpawnFlushThread flush_budget false; DropHandle; ForgetProvider]
| flush_awaited ended : flushed flush_budget true
    [SpawnFlushThread flush_budget true; FlushThreadEnded ended; DropHandle; AwaitFlushed flush_budget].

Lemma shutdown_tracing_emits (o : Observability) (flush_budget : Z) :
  emits (W := W) (shutdown_tracing o flush_budget) (fun l _ => flushed flush_budget (tracing_enabled o) (calls l)).
Proof.
  unfold shutdown_tracing, tracing_enabled. destruct (tracer_provider o); [|apply emits_ret; constructor].
  unfold shutdown_tracer_provider. eapply emits_bind; [apply emits_performed|]. intros l1 [] ->; simpl.
  - eapply emits_bind; [apply emits_performed|]. intros l2 ended ->.
    eapply emits_bind; [apply emits_performed|]. intros l3 _ ->.
    eapply emits_conseq; [apply emits_performed|]. intros l4 [] ->. destruct ended; constructor.
  - eapply emits_bind; [apply emits_performed|]. intros l3 _ ->.
    eapply emits_conseq; [apply emits_performed|]. intros l4 [] ->. constructor.
Qed.
End TracingFacts.
