(* ===== verification/Configuration.v ===== *)
(** * Runtime: configuration delivery

    Models [src/runtime/configuration.rs]: the one YAML document, its global
    sections, whose defects are fatal, and its Provider and GLPI sections, whose
    defects leave only that component unavailable.  The YAML parser and the
    derived decoders are parameters. *)
From S2P Require Import Prelude Core Dns Provider GlpiBase GlpiConfig AuthBase Admission Capacity System.
From S2P Require Import Failure Observability.

(** ** UTF-8

    [String::from_utf8]: the well-formed byte sequences. *)
Definition is_continuation : ascii -> bool := byte_between 128 191.

(** The second byte of a sequence of three and of four. *)
Definition second_of_three (a b : ascii) : bool :=
  match N_of_ascii a with
  | 224%N => byte_between 160 191 b
  | 237%N => byte_between 128 159 b
  | _ => is_continuation b
  end.
Definition second_of_four (a b : ascii) : bool :=
  match N_of_ascii a with
  | 240%N => byte_between 144 191 b
  | 244%N => byte_between 128 143 b
  | _ => is_continuation b
  end.

Fixpoint utf8 (l : bytes) : bool :=
  match l with
  | [] => true
  | a :: l1 =>
      if byte_between 0 127 a then utf8 l1 else
      match l1 with
      | [] => false
      | b :: l2 =>
          if byte_between 194 223 a then is_continuation b && utf8 l2 else
          match l2 with
          | [] => false
          | c :: l3 =>
              if byte_between 224 239 a then second_of_three a b && is_continuation c && utf8 l3 else
              match l3 with
              | [] => false
              | d :: l4 =>
                  byte_between 240 244 a && second_of_four a b && is_continuation c && is_continuation d
                  && utf8 l4
              end
          end
      end
  end.

Definition from_utf8 (b : bytes) : option string := if utf8 b then Some (of_bytes b) else None.

(** ** Delivery types: the decoded sections *)

Record ListenerDelivery : Type := mkListenerDelivery { listener_address : string; listener_port : N }.
Record RequestDelivery : Type := mkRequestDelivery {
  overall_deadline_milliseconds : N;
  delivered_admission_limit : N;
  delivered_capacity : N;
}.
Record ShutdownDelivery : Type := mkShutdownDelivery { grace_milliseconds : N }.

Inductive AlgorithmDelivery : Type :=
| Rs256 | Rs384 | Rs512 | Ps256 | Ps384 | Ps512 | Es256 | Es384 | Es512 | EdDsa.

(** [AlgorithmDelivery::project]. *)
Definition algorithm_project (a : AlgorithmDelivery) : JwtAlgorithm :=
  match a with
  | Rs256 => RS256 | Rs384 => RS384 | Rs512 => RS512
  | Ps256 => PS256 | Ps384 => PS384 | Ps512 => PS512
  | Es256 => ES256 | Es384 => ES384 | Es512 => ES512
  | EdDsa => EdDSA
  end.

Record SourceDelivery : Type := mkSourceDelivery {
  jwks_uri : option string;
  oidc_discovery_uri : option string;
}.

(** [SourceDelivery::project]. *)
Definition source_project (s : SourceDelivery) : option TrustedVerificationSource :=
  match jwks_uri s, oidc_discovery_uri s with
  | Some uri, None => Some (DirectJwks uri)
  | None, Some uri => Some (OidcDiscovery uri)
  | Some _, Some _ | None, None => None
  end.

Record CacheDelivery : Type := mkCacheDelivery {
  freshness_milliseconds : N;
  stale_if_error_milliseconds : N;
}.
Record AuthenticationDelivery : Type := mkAuthenticationDelivery {
  delivered_issuer : string;
  delivered_audience : string;
  delivered_algorithms : list AlgorithmDelivery;
  delivered_source : SourceDelivery;
  delivered_cache : CacheDelivery;
  metadata_operation_timeout_milliseconds : N;
  clock_skew_milliseconds : N;
  authentication_anchors_pem : list string;
}.

Inductive LogLevelDelivery : Type := DError | DWarn | DInfo | DDebug | DTrace.

(** [LogLevelDelivery::project]. *)
Definition log_level_project (l : LogLevelDelivery) : LogLevel :=
  match l with
  | DError => LogError | DWarn => LogWarn | DInfo => LogInfo | DDebug => LogDebug | DTrace => LogTrace
  end.

(** The header map in ascending key order. *)
Record TracingDelivery : Type := mkTracingDelivery {
  tracing_is_enabled : bool;
  delivered_endpoint : option string;
  export_timeout_milliseconds : option N;
  delivered_headers : list (string * string);
  tracing_anchors_pem : list string;
}.
Record ObservabilityDelivery : Type := mkObservabilityDelivery {
  delivered_log_level : LogLevelDelivery;
  delivered_tracing : option TracingDelivery;
}.
Record TargetDelivery : Type := mkTargetDelivery { delivered_logical_target : string; delivered_adapter : string }.

Record GenericRestDelivery : Type := mkGenericRestDelivery {
  rest_endpoint : string;
  rest_operation_timeout_milliseconds : N;
  rest_anchors_pem : list string;
}.
Record ProviderDelivery : Type := mkProviderDelivery { generic_rest : option GenericRestDelivery }.

Record GlpiAuthenticationSourceDelivery : Type := mkGlpiSourceDelivery {
  delivered_authtype : Z;
  delivered_auths_id : Z;
}.
Record GlpiDelivery : Type := mkGlpiDelivery {
  delivered_glpi_endpoint : string;
  delivered_app_token : string;
  delivered_user_token : string;
  glpi_operation_timeout_milliseconds : N;
  glpi_anchors_pem : list string;
  delivered_authentication_source : option GlpiAuthenticationSourceDelivery;
}.

(** [DocumentDelivery]: the sections, still undecoded. *)
Record DocumentDelivery (V : Type) : Type := mkDocument {
  doc_listener : V;
  doc_request : V;
  doc_shutdown : V;
  doc_authentication : V;
  doc_observability : V;
  doc_targets : V;
  doc_provider : option V;
  doc_glpi : option V;
}.
Arguments mkDocument {V}.
Arguments doc_listener {V} d.
Arguments doc_request {V} d.
Arguments doc_shutdown {V} d.
Arguments doc_authentication {V} d.
Arguments doc_observability {V} d.
Arguments doc_targets {V} d.
Arguments doc_provider {V} d.
Arguments doc_glpi {V} d.

(** ** Parameters

    [yaml_serde]: the documents of a stream, each parsed to a value or
    malformed, and the decoder of the document and of every section; a decoded
    [u64] is in range.  The text format of IP addresses is the standard
    library's, and no statement uses it. *)
Class YamlDeps : Type := {
  Value : Type;
  yaml_documents : string -> list (option Value);
  is_null : Value -> bool;
  decode_document : Value -> option (DocumentDelivery Value);
  decode_listener : Value -> option ListenerDelivery;
  decode_request : Value -> option RequestDelivery;
  decode_shutdown : Value -> option ShutdownDelivery;
  decode_authentication : Value -> option AuthenticationDelivery;
  decode_observability : Value -> option ObservabilityDelivery;
  decode_targets : Value -> option (list TargetDelivery);
  decode_provider : Value -> option ProviderDelivery;
  decode_glpi : Value -> option GlpiDelivery;
  parse_ip : string -> option IpAddr;
  decode_request_range : forall v d, decode_request v = Some d -> (overall_deadline_milliseconds d <= U64_MAX)%N;
  decode_shutdown_range : forall v d, decode_shutdown v = Some d -> (grace_milliseconds d <= U64_MAX)%N;
}.

Definition CONFIGURATION_PATH_VARIABLE : string := "PERMISSIONSYNC_CONFIG_FILE".

Inductive ComponentOutcome : Type := Configured | Absent | Invalid.

Definition NANOS_PER_MILLI : Z := 1000000.

(** [Duration::from_millis] and [positive_duration]. *)
Definition from_millis (milliseconds : N) : Z := (Z.of_N milliseconds * NANOS_PER_MILLI)%Z.
Definition positive_duration (milliseconds : N) : option Z :=
  if (0 <? milliseconds)%N then Some (from_millis milliseconds) else None.

(** [trust_anchors]. *)
Definition trust_anchors (pem : list string) : list bytes := as_bytes <$> pem.

Section Decode.
Context {Sem : Type} `{!Semaphore Sem}.
Context `{Yaml : YamlDeps, AuthD : AuthDeps, ExportD : ExportDeps}.

Record RequestConfiguration : Type := mkRequestConfiguration {
  request_deadline : Z;
  request_admission_limit : N;
  request_capacity : N;
}.
Record AuthenticationConfiguration : Type := mkAuthenticationConfiguration {
  authentication_config : Config;
  authentication_timeout : Z;
}.

(** [ExecutableConfiguration]. *)
Record ExecutableConfiguration : Type := mkExecutable {
  listener_socket : SocketAddr;
  overall_request_deadline : Z;
  inbound_admission_limit : N;
  synchronization_capacity : N;
  shutdown_grace : Z;
  authentication : Config;
  metadata_operation_timeout : Z;
  observability : ObservabilityConfiguration;
  runtime : RuntimeConfiguration;
  provider_outcome : ComponentOutcome;
  glpi_outcome : ComponentOutcome;
}.

(** [single_document]. *)
Definition single_document (text : string) : result (DocumentDelivery Value) RuntimeFailure :=
  match yaml_documents text with
  | [] => Err ConfigurationEmpty
  | first :: rest =>
      let? value := ok_or first InvalidDocumentStructure in
      if is_null value then Err ConfigurationEmpty else
      if negb (bool_decide (rest = [])) then Err ConfigurationMultipleDocuments else
      ok_or (decode_document value) InvalidDocumentStructure
  end.

(** [listener]. *)
Definition listener_section (value : Value) : result SocketAddr RuntimeFailure :=
  let? delivery := ok_or (decode_listener value) InvalidListener in
  let? address := ok_or (parse_ip (listener_address delivery)) InvalidListener in
  if (listener_port delivery =? 0)%N then Err InvalidListener else
  Ok (mkSocketAddr address (listener_port delivery)).

(** [NonZeroUsize::new]. *)
Definition non_zero (n : N) : option N := if (n =? 0)%N then None else Some n.

(** [request]. *)
Definition request_section (value : Value) : result RequestConfiguration RuntimeFailure :=
  let? delivery := ok_or (decode_request value) InvalidRequestSection in
  let? overall := ok_or (positive_duration (overall_deadline_milliseconds delivery)) InvalidRequestSection in
  let? limit := ok_or (non_zero (delivered_admission_limit delivery)) InvalidRequestSection in
  let? _ := ok_or (derived_semaphore_sizes (Sem := Sem) (N.to_nat limit)) InvalidRequestSection in
  let? cap := ok_or (non_zero (delivered_capacity delivery)) InvalidRequestSection in
  if (MAX_SYNCHRONIZATION_CAPACITY <? cap)%N then Err InvalidRequestSection else
  Ok (mkRequestConfiguration overall limit cap).

(** [shutdown]. *)
Definition shutdown_section (value : Value) (overall : Z) : result Z RuntimeFailure :=
  let? delivery := ok_or (decode_shutdown value) InvalidShutdown in
  let? grace := ok_or (positive_duration (grace_milliseconds delivery)) InvalidShutdown in
  if (grace <? overall)%Z then Err InvalidShutdown else Ok grace.

(** [authentication]. *)
Definition authentication_section (value : Value) (overall : Z)
  : result AuthenticationConfiguration RuntimeFailure :=
  let? delivery := ok_or (decode_authentication value) InvalidAuthentication in
  let? timeout := ok_or (positive_duration (metadata_operation_timeout_milliseconds delivery))
    InvalidAuthentication in
  if (overall <? timeout)%Z then Err InvalidAuthentication else
  let? fresh := ok_or (positive_duration (freshness_milliseconds (delivered_cache delivery)))
    InvalidAuthentication in
  let policy := mkPolicy fresh (from_millis (stale_if_error_milliseconds (delivered_cache delivery))) in
  let? src := ok_or (source_project (delivered_source delivery)) InvalidAuthentication in
  let? config := map_err (fun _ => InvalidAuthentication)
    (config_new (delivered_issuer delivery) (delivered_audience delivery) src
      (algorithm_project <$> delivered_algorithms delivery) timeout policy
      (from_millis (clock_skew_milliseconds delivery))
      (trust_anchors (authentication_anchors_pem delivery))) in
  Ok (mkAuthenticationConfiguration config timeout).

(** [observability]. *)
Definition observability_section (value : Value) : result ObservabilityConfiguration RuntimeFailure :=
  let? delivery := ok_or (decode_observability value) InvalidObservability in
  let? tracing := match delivered_tracing delivery with
    | None => Ok None
    | Some t =>
        if negb (tracing_is_enabled t) then Ok None else
        let? endpoint := ok_or (delivered_endpoint t) InvalidObservability in
        let? ms := ok_or (export_timeout_milliseconds t) InvalidObservability in
        let? timeout := ok_or (positive_duration ms) InvalidObservability in
        let? c := map_err (fun _ => InvalidObservability)
          (tracing_configuration_new endpoint timeout (delivered_headers t)
            (trust_anchors (tracing_anchors_pem t))) in
        Ok (Some c)
    end in
  Ok (mkObservability (log_level_project (delivered_log_level delivery)) tracing).

(** [targets]. *)
Definition targets_section (value : Value) : result (list ConfiguredTarget) RuntimeFailure :=
  let? delivery := ok_or (decode_targets value) InvalidTargets in
  Ok ((fun t => mkConfiguredTarget (delivered_logical_target t) (delivered_adapter t)) <$> delivery).

(** [ProviderDelivery::project]. *)
Definition provider_project (self : ProviderDelivery) (overall : Z) : option ProviderConfiguration :=
  match generic_rest self with
  | None => None
  | Some delivery =>
      match positive_duration (rest_operation_timeout_milliseconds delivery) with
      | None => None
      | Some timeout =>
          if (overall <? timeout)%Z then None else
          Some (GenericRest (mkProviderConfig (rest_endpoint delivery) timeout
            (trust_anchors (rest_anchors_pem delivery))))
      end
  end.

(** [GlpiDelivery::project]. *)
Definition glpi_project (self : GlpiDelivery) (overall : Z) : option GlpiAdapterConfig :=
  match positive_duration (glpi_operation_timeout_milliseconds self) with
  | None => None
  | Some timeout =>
      if (overall <? timeout)%Z then None else
      Some (mkGlpiAdapterConfig (delivered_glpi_endpoint self) (delivered_app_token self)
        (delivered_user_token self) timeout (trust_anchors (glpi_anchors_pem self))
        (match delivered_authentication_source self with
         | None => DefaultSource
         | Some source => Explicit (delivered_authtype source) (delivered_auths_id source)
         end))
  end.

(** [component]. *)
Definition component {D T} (from_value : Value -> option D) (value : option Value) (project : D -> option T)
  : option T * ComponentOutcome :=
  match value with
  | None => (None, Absent)
  | Some value =>
      match from_value value with
      | None => (None, Invalid)
      | Some delivery =>
          match project delivery with
          | Some configuration => (Some configuration, Configured)
          | None => (None, Invalid)
          end
      end
  end.

(** [decode], after the document was read. *)
Definition decode_sections (document : DocumentDelivery Value) : result ExecutableConfiguration RuntimeFailure :=
  let? listener := listener_section (doc_listener document) in
  let? request := request_section (doc_request document) in
  let? grace := shutdown_section (doc_shutdown document) (request_deadline request) in
  let? auth := authentication_section (doc_authentication document) (request_deadline request) in
  let? obs := observability_section (doc_observability document) in
  let? targets := targets_section (doc_targets document) in
  let '(provider, provider_outcome) := component decode_provider (doc_provider document)
    (fun delivery => provider_project delivery (request_deadline request)) in
  let '(glpi, glpi_outcome) := component decode_glpi (doc_glpi document)
    (fun delivery => glpi_project delivery (request_deadline request)) in
  Ok (mkExecutable listener (request_deadline request) (request_admission_limit request)
        (request_capacity request) grace (authentication_config auth) (authentication_timeout auth) obs
        (mkRuntimeConfiguration provider glpi targets) provider_outcome glpi_outcome).

(** [decode]. *)
Definition decode (text : string) : result ExecutableConfiguration RuntimeFailure :=
  let? document := single_document text in decode_sections document.

(** [configuration_path], of the value of the environment variable. *)
Definition configuration_path (var : option string) : result string RuntimeFailure :=
  match var with
  | Some path => if bool_decide (path = "") then Err ConfigurationPathMissing else Ok path
  | None => Err ConfigurationPathMissing
  end.

(** [load], of what [std::fs::read] answers for the path. *)
Definition load (read : option bytes) : result ExecutableConfiguration RuntimeFailure :=
  let? b := ok_or read ConfigurationUnreadable in
  let? text := ok_or (from_utf8 b) ConfigurationNotUtf8 in
  decode text.
End Decode.

(** ** Facts *)

Lemma positive_duration_pos ms d : positive_duration ms = Some d -> (0 < d)%Z /\ d = from_millis ms.
Proof.
  unfold positive_duration. destruct (N.ltb_spec 0 ms); [|done]. intros [= <-].
  split; [unfold from_millis, NANOS_PER_MILLI; lia|done].
Qed.

Lemma from_millis_mono a b : (a <= b)%N -> (from_millis a <= from_millis b)%Z.
Proof. unfold from_millis, NANOS_PER_MILLI. lia. Qed.

Lemma non_zero_some n m : non_zero n = Some m -> m = n /\ (0 < n)%N.
Proof. unfold non_zero. destruct (N.eqb_spec n 0); [done|]. intros [= <-]. split; [done|lia]. Qed.

Section DecodeFacts.
Context {Sem : Type} `{!Semaphore Sem}.
Context `{Yaml : YamlDeps, AuthD : AuthDeps, ExportD : ExportDeps}.

(** What the authenticator's constructor guarantees. *)
Lemma config_new_ok iss aud src algs timeout policy skew pems config :
  config_new iss aud src algs timeout policy skew pems = Ok config ->
  metadata_timeout config = timeout /\ cache_policy config = policy /\ algs <> [] /\
  (clock_skew config <= MAX_CLOCK_SKEW)%Z /\
  is_Some (duration_checked_add (freshness policy) (stale_if_error policy)).
Proof.
  unfold config_new. destruct (_ || _); [done|]. destruct (valid_text aud); [|done]. simpl.
  destruct (source_from_public src) as [s|]; [|done]. simpl.
  destruct (bool_decide (algs = [])) eqn:Ea; [done|]. simpl. destruct (length _ =? length _); [|done]. simpl.
  destruct (timeout =? 0)%Z; [done|].
  destruct (freshness policy =? 0)%Z; [done|]. simpl.
  destruct (bool_decide (duration_checked_add _ _ = None)) eqn:Ec; [done|].
  destruct (Z.ltb_spec MAX_CLOCK_SKEW skew); [done|].
  destruct (forallb _ _); [|done]. destruct (AuthBase.tls_build pems); [|done]. intros [= <-]. simpl.
  apply bool_decide_eq_false in Ea, Ec. split_and!; try done. by apply not_eq_None_Some.
Qed.

(** The bounds every part of the process relies on. *)
Record wellformed (c : ExecutableConfiguration) : Prop := {
  wf_listener : socket_port (listener_socket c) <> 0%N;
  wf_deadline : (0 < overall_request_deadline c <= from_millis U64_MAX)%Z;
  wf_admission : (0 < inbound_admission_limit c)%N /\
    is_Some (admission_new (Sem := Sem) (N.to_nat (inbound_admission_limit c)));
  wf_capacity : (0 < synchronization_capacity c)%N /\
    is_Some (semaphore_capacity_new (synchronization_capacity c));
  wf_grace : (overall_request_deadline c <= shutdown_grace c <= from_millis U64_MAX)%Z;
  wf_metadata : (0 < metadata_operation_timeout c <= overall_request_deadline c)%Z /\
    metadata_timeout (authentication c) = metadata_operation_timeout c;
  wf_cache : (0 < freshness (cache_policy (authentication c)))%Z /\
    is_Some (duration_checked_add (freshness (cache_policy (authentication c)))
      (stale_if_error (cache_policy (authentication c))));
  wf_skew : (clock_skew (authentication c) <= MAX_CLOCK_SKEW)%Z;
  wf_tracing : forall t, tracing (observability c) = Some t -> (0 < export_timeout t)%Z;
  wf_provider : match configured_provider (runtime c) with
    | Some (GenericRest p) => provider_outcome c = Configured /\
        (0 < config_operation_timeout p <= overall_request_deadline c)%Z
    | None => provider_outcome c <> Configured
    end;
  wf_glpi : match configured_glpi (runtime c) with
    | Some g => glpi_outcome c = Configured /\ (0 < glpi_operation_timeout g <= overall_request_deadline c)%Z
    | None => glpi_outcome c <> Configured
    end;
}.

Lemma request_section_ok v r :
  request_section (Sem := Sem) v = Ok r ->
  (0 < request_deadline r <= from_millis U64_MAX)%Z /\
  (0 < request_admission_limit r)%N /\
  is_Some (admission_new (Sem := Sem) (N.to_nat (request_admission_limit r))) /\
  (0 < request_capacity r)%N /\ is_Some (semaphore_capacity_new (request_capacity r)).
Proof.
  unfold request_section. destruct (decode_request v) as [d|] eqn:Ed; [|done]. simpl.
  destruct (positive_duration _) as [ms|] eqn:Ems; [|done]. simpl.
  destruct (non_zero (delivered_admission_limit d)) as [limit|] eqn:El; [|done]. simpl.
  destruct (derived_semaphore_sizes (N.to_nat limit)) as [sizes|] eqn:Es; [|done]. simpl.
  destruct (non_zero (delivered_capacity d)) as [cap|] eqn:Ec; [|done]. simpl.
  destruct (N.ltb_spec MAX_SYNCHRONIZATION_CAPACITY cap); [done|]. intros [= <-]. simpl.
  apply positive_duration_pos in Ems as [Hpos ->]. apply non_zero_some in El as [-> ?], Ec as [-> ?].
  apply decode_request_range in Ed. split_and!; try done; [by apply from_millis_mono| |].
  - unfold admission_new. rewrite Es. destruct sizes. eauto.
  - unfold semaphore_capacity_new. rewrite (proj2 (N.leb_le _ _)) by done. eauto.
Qed.

Lemma shutdown_section_ok v overall grace :
  shutdown_section v overall = Ok grace -> (overall <= grace <= from_millis U64_MAX)%Z.
Proof.
  unfold shutdown_section. destruct (decode_shutdown v) as [d|] eqn:Ed; [|done]. simpl.
  destruct (positive_duration _) as [z|] eqn:Ez; [|done]. simpl. destruct (Z.ltb_spec z overall); [done|].
  intros [= <-]. apply positive_duration_pos in Ez as [_ ->]. split; [done|].
  by eapply from_millis_mono, decode_shutdown_range.
Qed.

Lemma authentication_section_ok v overall a :
  authentication_section v overall = Ok a ->
  (0 < authentication_timeout a <= overall)%Z /\
  metadata_timeout (authentication_config a) = authentication_timeout a /\
  (0 < freshness (cache_policy (authentication_config a)))%Z /\
  is_Some (duration_checked_add (freshness (cache_policy (authentication_config a)))
    (stale_if_error (cache_policy (authentication_config a)))) /\
  (clock_skew (authentication_config a) <= MAX_CLOCK_SKEW)%Z.
Proof.
  unfold authentication_section. destruct (decode_authentication v) as [d|]; [|done]. simpl.
  destruct (positive_duration (metadata_operation_timeout_milliseconds d)) as [t|] eqn:Et; [|done]. simpl.
  destruct (Z.ltb_spec overall t); [done|].
  destruct (positive_duration (freshness_milliseconds _)) as [f|] eqn:Ef; [|done]. simpl.
  destruct (source_project _) as [src|]; [|done]. simpl.
  destruct (config_new _ _ _ _ _ _ _ _) as [config|] eqn:Ec; [|done]. intros [= <-]. simpl.
  apply config_new_ok in Ec as (-> & -> & _ & Hskew & Hadd).
  apply positive_duration_pos in Et as [? _], Ef as [? _]. simpl in *. done.
Qed.

Lemma observability_section_ok v o t :
  observability_section v = Ok o -> tracing o = Some t -> (0 < export_timeout t)%Z.
Proof.
  unfold observability_section. destruct (decode_observability v) as [d|]; [|done]. simpl.
  destruct (delivered_tracing d) as [td|]; simpl; [|by intros [= <-]].
  destruct (tracing_is_enabled td); simpl; [|by intros [= <-]].
  destruct (delivered_endpoint td); [|done]. simpl.
  destruct (export_timeout_milliseconds td) as [ms|]; [|done]. simpl.
  destruct (positive_duration ms) as [d0|] eqn:Ed; [|done]. simpl.
  apply positive_duration_pos in Ed as [Hpos _].
  unfold tracing_configuration_new. destruct (parse_endpoint _) as [u|]; [|done]. simpl.
  destruct (origin_of u); [|done]. simpl. destruct (exporter_headers _); [|done]. simpl.
  destruct (forallb _ _); [|done]. destruct (Observability.tls_build _); [|done]. simpl.
  by intros [= <-] [= <-].
Qed.

Lemma provider_project_ok d overall p :
  provider_project d overall = Some (GenericRest p) -> (0 < config_operation_timeout p <= overall)%Z.
Proof.
  unfold provider_project. destruct (generic_rest d) as [r|]; [|done].
  destruct (positive_duration _) as [t|] eqn:Et; [|done]. destruct (Z.ltb_spec overall t); [done|].
  intros [= <-]. by apply positive_duration_pos in Et as [? _].
Qed.

Lemma glpi_project_ok d overall g :
  glpi_project d overall = Some g -> (0 < glpi_operation_timeout g <= overall)%Z.
Proof.
  unfold glpi_project. destruct (positive_duration _) as [t|] eqn:Et; [|done].
  destruct (Z.ltb_spec overall t); [done|]. intros [= <-]. by apply positive_duration_pos in Et as [? _].
Qed.

Lemma component_ok {D T} (from_value : Value -> option D) v (project : D -> option T) :
  match component from_value v project with
  | (Some t, o) => o = Configured /\ exists d, project d = Some t
  | (None, o) => o <> Configured
  end.
Proof.
  unfold component. destruct v as [v|]; [|done]. destruct (from_value v) as [d|]; [|done].
  destruct (project d) eqn:E; [|done]. eauto.
Qed.

Lemma decode_sections_wellformed d c : decode_sections (Sem := Sem) d = Ok c -> wellformed c.
Proof.
  unfold decode_sections. destruct (listener_section _) as [l|] eqn:El; [|done]. simpl.
  destruct (request_section _) as [r|] eqn:Er; [|done]. simpl.
  destruct (shutdown_section _ _) as [g|] eqn:Eg; [|done]. simpl.
  destruct (authentication_section _ _) as [a|] eqn:Ea; [|done]. simpl.
  destruct (observability_section _) as [o|] eqn:Eo; [|done]. simpl.
  destruct (targets_section _) as [ts|]; [|done]. simpl.
  pose proof (component_ok decode_provider (doc_provider d)
    (fun x => provider_project x (request_deadline r))) as Hp.
  pose proof (component_ok decode_glpi (doc_glpi d) (fun x => glpi_project x (request_deadline r))) as Hg.
  destruct (component decode_provider _ _) as [p po], (component decode_glpi _ _) as [gl go].
  intros [= <-]. apply request_section_ok in Er as (? & ? & ? & ? & ?).
  apply shutdown_section_ok in Eg. apply authentication_section_ok in Ea as (? & ? & ? & ? & ?).
  split; simpl; try done.
  - unfold listener_section in El. destruct (decode_listener _) as [dl|]; [|done]. simpl in El.
    destruct (parse_ip _); [|done]. simpl in El. destruct (N.eqb_spec (listener_port dl) 0); [done|].
    by injection El as <-.
  - intros t. by eapply observability_section_ok.
  - destruct p as [[p]|]; [|done]. destruct Hp as [-> [x Hx]]. split; [done|]. by eapply provider_project_ok.
  - destruct gl as [gl|]; [|done]. destruct Hg as [-> [x Hx]]. split; [done|]. by eapply glpi_project_ok.
Qed.

Lemma load_ok read c : load (Sem := Sem) read = Ok c -> wellformed c.
Proof.
  unfold load, decode. destruct read as [b|]; [|done]. simpl. destruct (from_utf8 b) as [text|]; [|done]. simpl.
  destruct (single_document text) as [d|]; [|done]. apply decode_sections_wellformed.
Qed.

(** C22: every configuration that loads is well formed: a usable port; a
    positive request deadline whose nanoseconds fit; admission and capacity sizes
    for which both semaphores are constructible; a shutdown grace that covers one
    whole request; metadata, Provider and GLPI timeouts that are positive and
    never exceed the request deadline; a cache policy whose lifetimes add up
    without overflow; a bounded clock skew; and a component is recorded as
    configured exactly when there is a configuration for it. *)
Theorem load_wellformed (read : option bytes) :
  match load (Sem := Sem) read with Ok c => wellformed c | Err _ => True end.
Proof.
  destruct (load read) as [c|] eqn:E; [|done]. by eapply load_ok.
Qed.

(** Everything of a configuration but the two components. *)
Definition globals (c : ExecutableConfiguration) :=
  (listener_socket c, overall_request_deadline c, inbound_admission_limit c, synchronization_capacity c,
   shutdown_grace c, authentication c, metadata_operation_timeout c, observability c, targets (runtime c)).
Definition provider_part (c : ExecutableConfiguration) := (configured_provider (runtime c), provider_outcome c).
Definition glpi_part (c : ExecutableConfiguration) := (configured_glpi (runtime c), glpi_outcome c).

Definition with_components (d : DocumentDelivery Value) (p g : option Value) : DocumentDelivery Value :=
  mkDocument (doc_listener d) (doc_request d) (doc_shutdown d) (doc_authentication d)
    (doc_observability d) (doc_targets d) p g.

(** The Provider and GLPI sections are component-local.  Whatever
    they are replaced by, absent, malformed or valid, decoding fails with the same
    category or succeeds with the same global configuration, and each section
    determines only its own component. *)
Lemma components_are_local (d : DocumentDelivery Value) (p g p' g' : option Value) :
  match decode_sections (Sem := Sem) (with_components d p g),
        decode_sections (Sem := Sem) (with_components d p' g') with
  | Ok c, Ok c' => globals c = globals c' /\
      (p = p' -> provider_part c = provider_part c') /\ (g = g' -> glpi_part c = glpi_part c')
  | Err e, Err e' => e = e'
  | _, _ => False
  end.
Proof.
  unfold decode_sections. simpl. destruct (listener_section _) as [l|]; [|done]. simpl.
  destruct (request_section _) as [r|]; [|done]. simpl.
  destruct (shutdown_section _ _) as [gr|]; [|done]. simpl.
  destruct (authentication_section _ _) as [a|]; [|done]. simpl.
  destruct (observability_section _) as [o|]; [|done]. simpl.
  destruct (targets_section _) as [ts|]; [|done]. simpl.
  destruct (component decode_provider p _) as [x1 o1] eqn:E1, (component decode_glpi g _) as [x2 o2] eqn:E2.
  destruct (component decode_provider p' _) as [x3 o3] eqn:E3, (component decode_glpi g' _) as [x4 o4] eqn:E4.
  split; [done|]. unfold provider_part, glpi_part. simpl. split; intros ->; congruence.
Qed.
End DecodeFacts.

(** ** A concrete document *)
Module Sample.
#[export] Instance semaphore : Semaphore nat := Admission.Sample.counter.
#[export] Instance auth_deps : AuthDeps := AuthCache.Sample.deps.
#[export] Instance export_deps : ExportDeps := {|
  Observability.Uri := string; Observability.uri_parse := Some; uri_to_string := fun u => u;
  Observability.uri_scheme := fun _ => Some "https"; Observability.uri_host := fun _ => Some "collector";
  Observability.uri_authority := fun _ => Some "collector:4318"; Observability.uri_query := fun _ => None;
  Observability.uri_port := fun _ => Some 4318%N;
  header_name_parse := Some; header_value_parse := Some;
  Observability.stack_from_pem := fun _ => Some 1; Observability.tls_build := fun _ => true;
  exporter_builds := fun _ => true |}.

(** A document whose sections are numbered; the Provider section is malformed. *)
#[export, refine] Instance yaml : YamlDeps := {|
  Value := nat;
  yaml_documents := fun text => if bool_decide (text = "") then [] else [Some 0];
  is_null := fun _ => false;
  decode_document := fun _ => Some (mkDocument 1 2 3 4 5 6 (Some 7) (Some 8));
  decode_listener := fun _ => Some (mkListenerDelivery "0.0.0.0" 8080);
  decode_request := fun _ => Some (mkRequestDelivery 30000 64 16);
  decode_shutdown := fun _ => Some (mkShutdownDelivery 35000);
  decode_authentication := fun _ => Some (mkAuthenticationDelivery "https://idp" "permissionsync" [Rs256]
    (mkSourceDelivery (Some "https://idp/jwks") None) (mkCacheDelivery 60000 60000) 5000 30000 []);
  decode_observability := fun _ => Some (mkObservabilityDelivery DInfo
    (Some (mkTracingDelivery true (Some "https://collector:4318/v1/traces") (Some 1000%N) [] [])));
  decode_targets := fun _ => Some [mkTargetDelivery "glpi" "glpi"];
  decode_provider := fun _ => None;
  decode_glpi := fun _ => Some (mkGlpiDelivery "https://glpi" "app" "user" 10000 [] None);
  parse_ip := fun _ => Some (V4 0) |}.
Proof. all: by intros ? ? [= <-]. Defined.

Definition file : option bytes := Some (as_bytes "listener: {}").

(** It loads, and the malformed component is invalid while everything else stands. *)
Example loads :
  match load file with
  | Ok c => (overall_request_deadline c, shutdown_grace c, provider_outcome c, glpi_outcome c) =
      (30000000000, 35000000000, Invalid, Configured)%Z
  | Err _ => False
  end.
Proof. vm_compute. reflexivity. Qed.

Example empty_file : load (Some []) = Err ConfigurationEmpty.
Proof. vm_compute. reflexivity. Qed.
Example not_text : load (Some [ascii_of_N 255]) = Err ConfigurationNotUtf8.
Proof. vm_compute. reflexivity. Qed.
End Sample.
