(* ===== verification/Transport.v ===== *)
(** * Runtime: the HTTP transport adapter

    Models [src/runtime/transport.rs]: the routes, the stages of
    [POST /api/sync-user] (deadline, admission, bounded body collection, inbound
    handler, outcome evidence), the refusal of a request that cannot enter the
    admission population, and readiness.  Axum and Hyper deliver the head, the
    headers and the body frames; admission, metrics and the lifecycle answer
    through [TransportWorld]. *)
From S2P Require Import Prelude Core Dns Net Provider GlpiBase GlpiConfig GlpiAdapter.
From S2P Require Import AuthBase AuthCache Routing Orchestration Capacity Http System Observability.

Definition INBOUND_BODY_LIMIT_BYTES : N := 1048576.

(** ** Routes *)

Definition SYNCHRONIZATION_ROUTE : string := "/api/sync-user".
Definition HEALTH_ROUTE : string := "/healthz".
Definition READINESS_ROUTE : string := "/readyz".
Definition METRICS_ROUTE : string := "/metrics".
Definition PROMETHEUS_MEDIA_TYPE : string := "text/plain; version=0.0.4; charset=utf-8".

Inductive Route : Type := SynchronizeRoute | HealthRoute | ReadinessRoute | MetricsRoute.

(** [router]: the routes in order, each with its method. *)
Definition routes : list (string * string * Route) :=
  [(SYNCHRONIZATION_ROUTE, "POST", SynchronizeRoute); (HEALTH_ROUTE, "GET", HealthRoute);
   (READINESS_ROUTE, "GET", ReadinessRoute); (METRICS_ROUTE, "GET", MetricsRoute)].

(** ** Stages and labels *)

Inductive RequestStage : Type :=
| AdmissionStage | AuthenticationStage | AuthorizationStage | ValidationStage | RoutingStage
| CapacityStage | ProviderStage | AdapterStage | DeadlineStage | CompletedStage.

#[global] Instance RequestStage_eq_dec : EqDecision RequestStage.
Proof. solve_decision. Defined.

(** [Stage::label]. *)
Definition stage_label (s : RequestStage) : string :=
  match s with
  | AdmissionStage => "admission"
  | AuthenticationStage => "authentication"
  | AuthorizationStage => "authorization"
  | ValidationStage => "validation"
  | RoutingStage => "routing"
  | CapacityStage => "capacity"
  | ProviderStage => "provider"
  | AdapterStage => "adapter"
  | DeadlineStage => "deadline"
  | CompletedStage => "completed"
  end.

(** [Stage::of]. *)
Definition stage_of (o : HttpOutcome) : RequestStage :=
  match o with
  | OutChanged | TargetlessNoop | OutUnchanged => CompletedStage
  | InvalidRequest => ValidationStage
  | OutUnknownTarget | OutTargetUnavailable => RoutingStage
  | AuthenticationRejected | OutVerifierUnavailable => AuthenticationStage
  | AuthorizationForbidden => AuthorizationStage
  | OutCapacityUnavailable => CapacityStage
  | OutProviderFailed => ProviderStage
  | OutAdapterFailed => AdapterStage
  | CancelledOrExpired => DeadlineStage
  end.

(** [outcome_label]. *)
Definition outcome_label (o : HttpOutcome) : string :=
  match o with
  | OutChanged => "changed"
  | TargetlessNoop => "targetless_noop"
  | OutUnchanged => "unchanged"
  | InvalidRequest => "invalid_request"
  | OutUnknownTarget => "unknown_target"
  | AuthenticationRejected => "authentication_rejected"
  | AuthorizationForbidden => "authorization_forbidden"
  | OutVerifierUnavailable => "verifier_unavailable"
  | CancelledOrExpired => "cancelled_or_expired"
  | OutTargetUnavailable => "target_unavailable"
  | OutCapacityUnavailable => "capacity_unavailable"
  | OutProviderFailed => "provider_failed"
  | OutAdapterFailed => "adapter_failed"
  end.

(** ** Data *)

(** One frame of the request body as [timeout_at(deadline, body.frame())] answers
    it; the end of the list is the end of the body. *)
Inductive InboundFrame : Type :=
| InData (b : bytes)
| InOther
| InError
| InElapsed.

Inductive CollectedBody : Type :=
| BodyCollected (b : bytes)
| BodyBoundExceeded
| BodyTransportFailure
| BodyUnavailable.

Inductive Admission : Type := WasAdmitted | NotAdmittedInTime | RefusedAtOnce.

(** What the route produces: a response with an empty body, the placeholder
    marked [ConnectionRefusal], or a panic ([Instant + Duration] overflowed). *)
Inductive RouteResponse : Type := Respond (status : N) | Placeholder | Panicked.

(** [RefusedConnection]. *)
Inductive RefusedConnection : Type := refused_connection.
Definition refused_connection_display (e : RefusedConnection) : string :=
  "the request was refused at the inbound admission boundary".

(** The environment of one request. *)
Class TransportWorld (W : Type) : Type := {
  admit_until : Z -> W -> Admission * W;
  drop_admitted : W -> W;
  record_labelled : string -> string -> Z -> W -> W;
  set_gauge : string -> string -> Z -> W -> W;
  shutdown_poll : W -> bool * W;
  evaluate_poll : SynchronizationContext -> W -> option TrustedVerifierState * W;
  render_metrics : W -> string;
}.

Inductive TransportCall : Type :=
| Admit (until : Z) (answer : Admission)
| ReadFrame (frame : option InboundFrame)
| Reserve (capacity : N)
| Handle (headers : HeaderList) (body : InboundBody) (context : SynchronizationContext) (outcome : HttpOutcome)
| Count (name label : string)
| Measure (name label : string) (elapsed : Z)
| DropAdmitted
| ShutdownPoll (begun : bool)
| EvaluatePoll (context : SynchronizationContext) (answer : option TrustedVerifierState)
| SetGauge (name label : string) (value : Z).

(** [owned_header_fields]: one field per received value, bytes unchanged. *)
Definition owned_header_fields (headers : list (bytes * bytes)) : HeaderList :=
  (fun h => mkField h.1 h.2) <$> headers.

Section Body.
Context {W : Type} `{!Clock W}.
Abbreviation M := (Eff (Tr W TransportCall)).

Definition note (c : TransportCall) : M unit := perform (fun w => (tt, w)) (fun _ => c).

(** [usize::saturating_mul]. *)
Definition saturating_mul (a b : N) : N := N.min (a * b) U64_MAX.

(** The capacity requested for [received] bytes: twice the present one, at least
    what is needed, at most the limit. *)
Definition grown (capacity received : N) : N :=
  N.min (N.max (saturating_mul capacity 2) received) INBOUND_BODY_LIMIT_BYTES.

(** [collect_body]; [capacity] is the last one reserved. *)
Fixpoint collect_body (deadline : Z) (body : list InboundFrame) (collected : bytes) (capacity : N)
  : M CollectedBody :=
  let* cancelled := read_cancelled in
  if cancelled then eret BodyUnavailable else
  let* t := read_now in
  if (deadline <=? t)%Z then eret BodyUnavailable else
  let* _ := note (ReadFrame (head body)) in
  match body with
  | [] => eret (BodyCollected collected)
  | InElapsed :: _ => eret BodyUnavailable
  | InError :: _ => eret BodyTransportFailure
  | InOther :: rest => collect_body deadline rest collected capacity
  | InData data :: rest =>
      let received := saturating_add (N.of_nat (length collected)) (N.of_nat (length data)) in
      if (INBOUND_BODY_LIMIT_BYTES <? received)%N then eret BodyBoundExceeded else
      if (capacity <? received)%N then
        let* _ := note (Reserve (grown capacity received)) in
        collect_body deadline rest (collected ++ data) (grown capacity received)
      else collect_body deadline rest (collected ++ data) capacity
  end.
End Body.

Section Serve.
Context {W : Type} `{ProviderD : ProviderDeps, GlpiD : GlpiConfigDeps, AuthD : AuthDeps}.
Context `{!NetWorld W, !GlpiWorld W, !AuthWorld W, !CapacityWorld W, !Clock W, !MetricsWorld W,
          !TransportWorld W}.
Context (from_slice_login : bytes -> option LoginBody).
Abbreviation M := (Eff (Tr W TransportCall)).

(** [RuntimeState], without the metrics handle and the trace propagator. *)
Record RuntimeState : Type := mkRuntimeState {
  state_application : ComposedApplication;
  state_capacity : SemaphoreCapacity;
  state_authenticator : Config;
  state_overall_request_deadline : Z;
  state_readiness_budget : Z;
}.

Definition counted (name label : string) : M unit :=
  perform (fun w => (tt, increment_counter name label w)) (fun _ => Count name label).

(** [finish]. *)
Definition finish (accepted_at : Z) (outcome : HttpOutcome) (stage : RequestStage) : M RouteResponse :=
  let* _ := counted REQUESTS_TOTAL (outcome_label outcome) in
  let* _ := counted REQUEST_STAGE_TOTAL (stage_label stage) in
  let* t := read_now in
  let elapsed := Z.max 0 (t - accepted_at) in
  let* _ := perform (fun w => (tt, record_labelled REQUEST_DURATION_SECONDS (outcome_label outcome) elapsed w))
    (fun _ => Measure REQUEST_DURATION_SECONDS (outcome_label outcome) elapsed) in
  eret (Respond (status_code outcome)).

(** One call of the inbound handler over the composed application. *)
Definition run_handler (state : RuntimeState) (headers : HeaderList) (body : InboundBody)
    (context : SynchronizationContext) (w : W) : HttpOutcome * W :=
  let '(o, s) := handle from_slice_login
    (composed_handler (state_authenticator state) (state_application state) (state_capacity state))
    headers body context (mkTr w []) in (o, world s).

(** The body of [handle_synchronization] while the request is admitted. *)
Definition admitted_request (state : RuntimeState) (headers : list (bytes * bytes)) (body : list InboundFrame)
    (accepted_at deadline : Z) : M RouteResponse :=
  let* collected := collect_body deadline body [] 0 in
  let fields := owned_header_fields headers in
  let handler (inbound_body : InboundBody) :=
    let context := mkContext deadline in
    let* outcome := perform (run_handler state fields inbound_body context)
      (Handle fields inbound_body context) in
    finish accepted_at outcome (stage_of outcome) in
  match collected with
  | BodyCollected b => handler (Collected b)
  | BodyBoundExceeded => handler BoundExceeded
  | BodyTransportFailure => finish accepted_at InvalidRequest ValidationStage
  | BodyUnavailable => finish accepted_at CancelledOrExpired DeadlineStage
  end.

(** [handle_synchronization]; the admission is dropped when it returns. *)
Definition handle_synchronization (state : RuntimeState) (headers : list (bytes * bytes))
    (body : list InboundFrame) (accepted_at deadline : Z) : M RouteResponse :=
  let* admission := perform (admit_until deadline) (Admit deadline) in
  match admission with
  | NotAdmittedInTime => finish accepted_at CancelledOrExpired AdmissionStage
  | RefusedAtOnce => eret Placeholder
  | WasAdmitted =>
      let* response := admitted_request state headers body accepted_at deadline in
      let* _ := perform (fun w => (tt, drop_admitted w)) (fun _ => DropAdmitted) in
      eret response
  end.

(** [synchronize]. *)
Definition synchronize_route (state : RuntimeState) (headers : list (bytes * bytes)) (body : list InboundFrame)
  : M RouteResponse :=
  let* accepted_at := read_now in
  match instant_checked_add accepted_at (state_overall_request_deadline state) with
  | None => eret Panicked
  | Some deadline => handle_synchronization state headers body accepted_at deadline
  end.

(** [<RefusingService as Service>::call], on the router's answer. *)
Definition refusing_call (response : RouteResponse) : result RouteResponse RefusedConnection :=
  match response with Placeholder => Err refused_connection | r => Ok r end.

(** The race of [readiness]: every wake-up polls [shutdown_started], then the
    evaluation of the verifier state; [wakes] bounds how many happened so far. *)
Fixpoint readiness_race (context : SynchronizationContext) (wakes : nat) : M (option TrustedVerifierState) :=
  match wakes with
  | 0 => eret None
  | S wakes =>
      let* begun := perform shutdown_poll ShutdownPoll in
      if (begun : bool) then eret (Some Unusable) else
      let* answer := perform (evaluate_poll context) (EvaluatePoll context) in
      match answer with
      | Some state => eret (Some state)
      | None => readiness_race context wakes
      end
  end.

(** What a probe has come to. *)
Inductive Probe : Type := ProbeAnswered (status : N) | ProbePending | ProbePanicked.

(** [readiness], after [wakes] wake-ups. *)
Definition readiness (state : RuntimeState) (wakes : nat) : M Probe :=
  let* t := read_now in
  match instant_checked_add t (state_readiness_budget state) with
  | None => eret ProbePanicked
  | Some deadline =>
      let* ready := readiness_race (mkContext deadline) wakes in
      let answer (value : Z) (status : N) :=
        let* _ := perform (fun w => (tt, set_gauge READY "" value w)) (fun _ => SetGauge READY "" value) in
        eret (ProbeAnswered status) in
      match ready with
      | None => eret ProbePending
      | Some Usable => answer 1%Z 200%N
      | Some Unusable => answer 0%Z 503%N
      end
  end.

(** [metrics]: the status, the content type and the exposition. *)
Definition metrics (w : W) : N * string * string := (200%N, PROMETHEUS_MEDIA_TYPE, render_metrics w).

(** [health]. *)
Definition health : N := 200.

(** [record_component_availability]. *)
Definition record_component_availability (component : string) (available : bool) : M unit :=
  let value := if available then 1%Z else 0%Z in
  perform (fun w => (tt, set_gauge COMPONENT_AVAILABLE component value w))
    (fun _ => SetGauge COMPONENT_AVAILABLE component value).
End Serve.

(** ** Facts: body collection *)

Definition frame_data (f : InboundFrame) : bytes := match f with InData b => b | _ => [] end.
Definition body_data (frames : list InboundFrame) : bytes := mjoin (frame_data <$> frames).
Definition readable (f : InboundFrame) : Prop := match f with InData _ | InOther => True | _ => False end.
Definition size (b : bytes) : N := N.of_nat (length b).
Definition is_reserve (c : TransportCall) : bool := match c with Reserve _ => true | _ => false end.
Definition reserves (cs : list TransportCall) : N := N.of_nat (length (List.filter is_reserve cs)).

(** How often a buffer of this capacity can still grow. *)
Definition growths (capacity : N) : N := if (capacity =? 0)%N then 21 else 20 - N.log2 capacity.

Lemma received_over a b :
  (INBOUND_BODY_LIMIT_BYTES <? saturating_add (N.of_nat (length a)) (N.of_nat (length b)))%N =
  (INBOUND_BODY_LIMIT_BYTES <? size (a ++ b))%N.
Proof.
  unfold saturating_add, size, INBOUND_BODY_LIMIT_BYTES, U64_MAX. rewrite length_app.
  destruct (N.ltb_spec 1048576 (N.min (N.of_nat (length a) + N.of_nat (length b)) 18446744073709551615)),
    (N.ltb_spec 1048576 (N.of_nat (length a + length b))); lia.
Qed.

Lemma grown_bounds capacity received :
  (capacity < received)%N -> (received <= INBOUND_BODY_LIMIT_BYTES)%N ->
  (grown capacity received <= INBOUND_BODY_LIMIT_BYTES)%N /\
  (growths (grown capacity received) + 1 <= growths capacity)%N.
Proof.
  intros Hlt Hle. unfold grown, saturating_mul, growths, U64_MAX, INBOUND_BODY_LIMIT_BYTES in *.
  set (g := N.min _ 1048576). assert (1 <= g)%N as Hg by (subst g; lia). split; [subst g; lia|].
  rewrite (proj2 (N.eqb_neq g 0)) by lia. destruct (N.eqb_spec capacity 0) as [->|Hc]; [lia|].
  assert (N.log2 capacity <= 19)%N as Hl.
  { replace 19%N with (N.log2 1048575) by reflexivity. apply N.log2_le_mono. lia. }
  destruct (N.le_gt_cases (2 * capacity) 1048576) as [H2|H2].
  - assert (N.log2 (2 * capacity) <= N.log2 g)%N as Hm by (apply N.log2_le_mono; subst g; lia).
    rewrite N.log2_double in Hm by lia. lia.
  - replace g with 1048576%N by (subst g; lia). change (N.log2 1048576) with 20%N. lia.
Qed.

(** What [collect_body] answers, given what was collected before. *)
Definition collected_as (deadline : Z) (before : bytes) (frames : list InboundFrame)
    (l : list (event TransportCall)) (r : CollectedBody) : Prop :=
  match r with
  | BodyCollected b =>
      Forall readable frames /\ b = before ++ body_data frames /\ (size b <= INBOUND_BODY_LIMIT_BYTES)%N
  | BodyBoundExceeded => exists pre data post, frames = pre ++ InData data :: post /\ Forall readable pre /\
      (size (before ++ body_data pre) <= INBOUND_BODY_LIMIT_BYTES)%N /\
      (INBOUND_BODY_LIMIT_BYTES < size ((before ++ body_data pre) ++ data))%N
  | BodyTransportFailure => exists pre post, frames = pre ++ InError :: post /\ Forall readable pre /\
      (size (before ++ body_data pre) <= INBOUND_BODY_LIMIT_BYTES)%N
  | BodyUnavailable =>
      ECancelled true ∈ l \/ (exists t, ENow t ∈ l /\ (deadline <= t)%Z) \/
      (exists pre post, frames = pre ++ InElapsed :: post /\ Forall readable pre)
  end.

Lemma collected_as_cons d before f frames l0 l r :
  readable f -> collected_as d (before ++ frame_data f) frames l r ->
  collected_as d before (f :: frames) (l0 ++ l) r.
Proof.
  intros Hf. assert (forall pre, before ++ body_data (f :: pre) = (before ++ frame_data f) ++ body_data pre) as E.
  { intros pre. unfold body_data. simpl. by rewrite app_assoc. }
  destruct r; simpl.
  - intros (Hall & -> & Hs). rewrite E. auto.
  - intros (pre & data & post & -> & Hpre & H1 & H2). exists (f :: pre), data, post. rewrite E. auto.
  - intros (pre & post & -> & Hpre & H1). exists (f :: pre), post. rewrite E. auto.
  - intros [H|[(t & Ht & Hd)|(pre & post & -> & Hpre)]];
      [left; set_solver|right; left; exists t; set_solver|].
    right; right. exists (f :: pre), post. auto.
Qed.

Section BodyFacts.
Context {W : Type} `{!Clock W}.
Abbreviation M := (Eff (Tr W TransportCall)).

(** Frames are read only in time. *)
Definition frame_in_time (d t : Z) (_ : TransportCall) : Prop := (t < d)%Z.
Definition reads (c : TransportCall) : Prop := match c with ReadFrame _ | Reserve _ => True | _ => False end.

(** What one loop leaves in the trace. *)
Definition loop_trace (d : Z) (capacity : N) (l : list (event TransportCall)) : Prop :=
  guarded (fun c => is_reserve c = true) (frame_in_time d) l /\
  Forall reads (calls l) /\
  Forall (fun c => match c with Reserve n => (n <= INBOUND_BODY_LIMIT_BYTES)%N | _ => True end) (calls l) /\
  (reserves (calls l) <= growths capacity)%N.

Lemma reserves_app cs1 cs2 : reserves (cs1 ++ cs2) = (reserves cs1 + reserves cs2)%N.
Proof. unfold reserves. rewrite List.filter_app, length_app. lia. Qed.

Lemma loop_trace_nil d capacity l : calls l = [] -> loop_trace d capacity l.
Proof. intros Hl. unfold loop_trace. rewrite Hl. split_and!; [by apply guarded_no_calls|done..|apply N.le_0_l]. Qed.

Lemma loop_trace_read d capacity t f l :
  (t < d)%Z -> loop_trace d capacity l ->
  loop_trace d capacity ([ECancelled false; ENow t; ECall (ReadFrame f)] ++ l).
Proof.
  intros Ht (H1 & H2 & H3 & H4). unfold loop_trace. rewrite calls_app. split_and!.
  - apply guarded_app; [by apply guarded_block|done].
  - simpl. by constructor.
  - simpl. by constructor.
  - done.
Qed.

Lemma loop_trace_grow d capacity n l :
  (n <= INBOUND_BODY_LIMIT_BYTES)%N -> (growths n + 1 <= growths capacity)%N ->
  loop_trace d n l -> loop_trace d capacity ([ECall (Reserve n)] ++ l).
Proof.
  intros Hn Hg (H1 & H2 & H3 & H4). unfold loop_trace. rewrite calls_app, reserves_app. split_and!.
  - apply guarded_app; [by apply guarded_exempt|done].
  - simpl. by constructor.
  - simpl. by constructor.
  - simpl. change (reserves [Reserve n]) with 1%N. lia.
Qed.

Definition body_post (d : Z) (capacity : N) (before : bytes) (frames : list InboundFrame)
    (l : list (event TransportCall)) (r : CollectedBody) : Prop :=
  loop_trace d capacity l /\ collected_as d before frames l r.

(** The trace of one frame that was waited for. *)
Definition waited (t : Z) (f : option InboundFrame) : list (event TransportCall) :=
  [ECancelled false; ENow t; ECall (ReadFrame f)].

Lemma emits_frame d capacity before frames f (k : M CollectedBody) :
  (forall t, (t < d)%Z -> emits k (fun l r => body_post d capacity before frames (waited t f ++ l) r)) ->
  emits (let* cancelled := read_cancelled in
         if cancelled then eret BodyUnavailable else
         let* t := read_now in
         if (d <=? t)%Z then eret BodyUnavailable else
         let* _ := note (ReadFrame f) in k) (body_post d capacity before frames).
Proof.
  intros Hk. eapply emits_bind; [by apply (emits_cancelled (fun l b => l = [ECancelled b]))|].
  intros l1 [] ->; [apply emits_ret; split; [by apply loop_trace_nil|left; set_solver]|].
  eapply emits_bind; [by apply (emits_now (fun l t => l = [ENow t]))|]. intros l2 t ->.
  destruct (Z.leb_spec d t) as [Hd|Hd].
  - apply emits_ret. split; [by apply loop_trace_nil|]. right; left; exists t. set_solver.
  - eapply emits_bind; [apply emits_performed|]. intros l3 _ ->. by apply Hk.
Qed.

Lemma post_stop d capacity before frames f t r :
  (t < d)%Z -> collected_as d before frames (waited t f) r ->
  emits (W := W) (eret r) (fun l r => body_post d capacity before frames (waited t f ++ l) r).
Proof.
  intros Ht Hr. apply emits_ret. split; [by apply loop_trace_read, loop_trace_nil|done].
Qed.

Lemma post_go d capacity capacity' before f frames t l0 (m : M CollectedBody) :
  (t < d)%Z -> readable f ->
  (forall l, loop_trace d capacity' l -> loop_trace d capacity (l0 ++ l)) ->
  emits m (body_post d capacity' (before ++ frame_data f) frames) ->
  emits m (fun l r => body_post d capacity before (f :: frames) (waited t (Some f) ++ l0 ++ l) r).
Proof.
  intros Ht Hf Hl0 Hm. eapply emits_conseq; [exact Hm|]. intros l r [Hl Hr]. split.
  - apply loop_trace_read; auto.
  - rewrite app_assoc. by apply collected_as_cons.
Qed.

Lemma collect_body_emits d frames before capacity :
  (size before <= INBOUND_BODY_LIMIT_BYTES)%N ->
  emits (W := W) (collect_body d frames before capacity) (body_post d capacity before frames).
Proof.
  revert before capacity. induction frames as [|f frames IH]; intros before capacity Hs;
    apply emits_frame; intros t Ht.
  { apply post_stop; [done|]. unfold collected_as, body_data. simpl. by rewrite app_nil_r. }
  destruct f as [data| | |].
  - cbv zeta. rewrite received_over. destruct (N.ltb_spec INBOUND_BODY_LIMIT_BYTES (size (before ++ data))) as [Ho|Ho].
    { apply post_stop; [done|]. exists [], data, frames. unfold body_data. simpl. rewrite app_nil_r. auto. }
    destruct (N.ltb_spec capacity (saturating_add (N.of_nat (length before)) (N.of_nat (length data))))
      as [Hc|Hc].
    + pose proof (received_over before data) as Hro.
      rewrite (proj2 (N.ltb_ge _ (size (before ++ data))) Ho) in Hro. apply N.ltb_ge in Hro.
      destruct (grown_bounds _ _ Hc Hro) as [Hg1 Hg2].
      eapply emits_bind; [apply emits_performed|]. intros l4 _ ->.
      eapply (post_go d capacity _ before (InData data)); [done|done| |by apply IH].
      intros l. by apply loop_trace_grow.
    + by eapply (post_go d capacity _ before (InData data) frames t []); [done|done| |apply IH].
  - by eapply (post_go d capacity capacity before InOther frames t []);
      [done|done| |simpl; rewrite app_nil_r; apply IH].
  - apply post_stop; [done|]. exists [], frames. unfold body_data. simpl. rewrite app_nil_r. auto.
  - apply post_stop; [done|]. right; right. by exists [], frames.
Qed.

(** C39: a body is collected exactly: the bytes of all data frames in order,
    when every frame was readable and they fit one mebibyte; it is reported as
    exceeding the bound at the first frame that would pass it, as a transport
    failure at the first broken frame, and as unavailable only on an observed
    cancellation, deadline or timeout.  Every frame is waited for immediately
    after the request was seen neither cancelled nor expired.  The buffer never
    asks for more than the limit and grows at most 21 times, however many frames
    the body is split into. *)
Theorem collect_body_exact (d : Z) (frames : list InboundFrame) (w : W) :
  let '(r, s) := collect_body d frames [] 0 (mkTr w []) in
  collected_as d [] frames (trace s) r /\
  guarded (fun c => is_reserve c = true) (frame_in_time d) (trace s) /\
  Forall (fun c => match c with Reserve n => (n <= INBOUND_BODY_LIMIT_BYTES)%N | _ => True end)
    (calls (trace s)) /\
  (reserves (calls (trace s)) <= 21)%N.
Proof.
  pose proof (emits_run _ _ w (collect_body_emits d frames [] 0 ltac:(vm_compute; done)))
    as [(H1 & _ & H3 & H4) H5].
  destruct (collect_body d frames [] 0 (mkTr w [])) as [r s]. auto.
Qed.
End BodyFacts.

(** ** Facts: one request *)

(** A recorded call was answered by the world it was made in. *)
Lemma emits_performed_from {W C A} (f : W -> A * W) (record : A -> C) :
  emits (perform f record) (fun l a => l = [ECall (record a)] /\ exists w w', f w = (a, w')).
Proof.
  intros s. unfold perform. destruct (f (world s)) as [a w'] eqn:E. exists [ECall (record a)]. simpl. eauto.
Qed.

Section RequestFacts.
Context {W : Type} `{ProviderD : ProviderDeps, GlpiD : GlpiConfigDeps, AuthD : AuthDeps}.
Context `{!NetWorld W, !GlpiWorld W, !AuthWorld W, !CapacityWorld W, !Clock W, !MetricsWorld W,
          !TransportWorld W}.
Context (from_slice_login : bytes -> option LoginBody).
Abbreviation M := (Eff (Tr W TransportCall)).

(** The evidence of one response: one outcome, one stage and one duration. *)
Definition evidence (outcome : HttpOutcome) (stage : RequestStage) (cs : list TransportCall) : Prop :=
  exists elapsed, (0 <= elapsed)%Z /\
    cs = [Count REQUESTS_TOTAL (outcome_label outcome); Count REQUEST_STAGE_TOTAL (stage_label stage);
          Measure REQUEST_DURATION_SECONDS (outcome_label outcome) elapsed].

(** A success stands for a complete run of the composed components. *)
Definition genuine (state : RuntimeState) (headers : HeaderList) (body : InboundBody)
    (context : SynchronizationContext) (outcome : HttpOutcome) : Prop :=
  let complete r := exists w1 w2 : W, synchronized from_slice_login (state_authenticator state)
    (state_application state) headers body context r w1 w2 in
  match outcome with OutChanged => complete Changed | OutUnchanged => complete Unchanged | _ => True end.

(** The body handed to the handler is the one that was sent. *)
Definition body_of (frames : list InboundFrame) (body : InboundBody) : Prop :=
  match body with
  | Collected b => Forall readable frames /\ b = body_data frames /\ (size b <= INBOUND_BODY_LIMIT_BYTES)%N
  | BoundExceeded => exists pre data post, frames = pre ++ InData data :: post /\
      (INBOUND_BODY_LIMIT_BYTES < size (body_data pre ++ data))%N
  end.

(** The run of an admitted request: the reads of its body, then either one call of
    the handler and its evidence, or the evidence of the reason there was none. *)
Inductive admitted_run (state : RuntimeState) (headers : list (bytes * bytes)) (frames : list InboundFrame)
    (d : Z) : list (event TransportCall) -> RouteResponse -> Prop :=
| run_handled rs body outcome ev :
    Forall reads (calls rs) -> body_of frames body ->
    genuine state (owned_header_fields headers) body (mkContext d) outcome ->
    evidence outcome (stage_of outcome) (calls ev) ->
    admitted_run state headers frames d
      (rs ++ ECall (Handle (owned_header_fields headers) body (mkContext d) outcome) :: ev)
      (Respond (status_code outcome))
| run_broken_body rs ev :
    Forall reads (calls rs) -> collected_as d [] frames rs BodyTransportFailure ->
    evidence InvalidRequest ValidationStage (calls ev) ->
    admitted_run state headers frames d (rs ++ ev) (Respond 400)
| run_expired rs ev :
    Forall reads (calls rs) -> collected_as d [] frames rs BodyUnavailable ->
    evidence CancelledOrExpired DeadlineStage (calls ev) ->
    admitted_run state headers frames d (rs ++ ev) (Respond 500).

Definition transported (state : RuntimeState) (headers : list (bytes * bytes)) (frames : list InboundFrame)
    (d : Z) (l : list (event TransportCall)) (r : RouteResponse) : Prop :=
  match l with
  | ECall (Admit d' RefusedAtOnce) :: rest => d' = d /\ rest = [] /\ r = Placeholder
  | ECall (Admit d' NotAdmittedInTime) :: rest =>
      d' = d /\ evidence CancelledOrExpired AdmissionStage (calls rest) /\ r = Respond 500
  | ECall (Admit d' WasAdmitted) :: rest =>
      d' = d /\ exists run, rest = run ++ [ECall DropAdmitted] /\ admitted_run state headers frames d run r
  | _ => False
  end.

Lemma finish_emits accepted_at outcome stage :
  emits (W := W) (finish accepted_at outcome stage) (fun l r =>
    evidence outcome stage (calls l) /\ r = Respond (status_code outcome)).
Proof.
  unfold finish. eapply emits_bind; [apply emits_performed|]. intros l1 _ ->.
  eapply emits_bind; [apply emits_performed|]. intros l2 _ ->.
  eapply emits_bind; [by apply (emits_now (fun l t => l = [ENow t]))|]. intros l3 t ->.
  eapply emits_bind; [apply emits_performed|]. intros l4 _ ->. apply emits_ret. split; [|done].
  eexists. split; [|reflexivity]. lia.
Qed.

Lemma run_handler_genuine state headers body context o (w w' : W) :
  run_handler from_slice_login state headers body context w = (o, w') ->
  genuine state headers body context o.
Proof.
  unfold run_handler. destruct (handle _ _ _ _ _ _) as [o' s] eqn:E. intros [= <- _].
  destruct o'; simpl; try done; exists w, (world s); by apply (handled_synchronized _ _ _ (state_capacity state)).
Qed.

Lemma collected_body_of d frames l b :
  collected_as d [] frames l (BodyCollected b) -> body_of frames (Collected b).
Proof. done. Qed.

Lemma exceeded_body_of d frames l :
  collected_as d [] frames l BodyBoundExceeded -> body_of frames BoundExceeded.
Proof. intros (pre & data & post & -> & _ & _ & H). by exists pre, data, post. Qed.

Lemma admitted_request_emits state headers frames accepted_at d :
  emits (W := W) (admitted_request from_slice_login state headers frames accepted_at d)
    (admitted_run state headers frames d).
Proof.
  assert (forall rs body, Forall reads (calls rs) -> body_of frames body ->
    emits (W := W) (let* outcome := perform (run_handler from_slice_login state (owned_header_fields headers)
        body (mkContext d)) (Handle (owned_header_fields headers) body (mkContext d)) in
      finish accepted_at outcome (stage_of outcome))
      (fun l r => admitted_run state headers frames d (rs ++ l) r)) as Hhandler.
  { intros rs body Hrs Hb. eapply emits_bind; [apply emits_performed_from|].
    intros l1 outcome [-> (w1 & w2 & Hrun)]. eapply emits_conseq; [apply finish_emits|].
    intros l2 r [He ->]. constructor; auto. by eapply run_handler_genuine. }
  unfold admitted_request. eapply emits_bind; [apply collect_body_emits; by vm_compute|].
  intros l1 collected [(_ & Hrs & _) Hc]. destruct collected as [b| | |].
  - by apply Hhandler.
  - apply Hhandler; [done|by eapply exceeded_body_of].
  - eapply emits_conseq; [apply finish_emits|]. intros l r [He ->]. by apply run_broken_body.
  - eapply emits_conseq; [apply finish_emits|]. intros l r [He ->]. by apply run_expired.
Qed.

Lemma handle_synchronization_emits state headers frames accepted_at d :
  emits (W := W) (handle_synchronization from_slice_login state headers frames accepted_at d)
    (transported state headers frames d).
Proof.
  unfold handle_synchronization. eapply emits_bind; [apply emits_performed|]. intros l1 [] ->.
  - eapply emits_bind; [apply admitted_request_emits|]. intros l2 r Hr.
    eapply emits_bind; [apply emits_performed|]. intros l3 _ ->. apply emits_ret.
    simpl. split; [done|]. eauto.
  - eapply emits_conseq; [apply finish_emits|]. intros l r [He ->]. done.
  - by apply emits_ret.
Qed.

(** C18: one [POST /api/sync-user].  Its deadline is its acceptance time plus
    the configured one.  It asks for admission first; a request that finds both
    populations full gets no response and no outcome, and its connection ends; one
    that is not admitted in time is answered 500 without a byte of its body read.
    An admitted request reads its body, is handed at most once to the handler,
    with the headers as received and exactly the body that was sent (or the
    knowledge that it exceeds the limit), is answered with the outcome's status,
    leaves exactly one outcome, one stage and one duration, and gives its admission
    back last.  A success is a complete run of the composed components. *)
Theorem synchronize_contract (state : RuntimeState) (headers : list (bytes * bytes))
    (frames : list InboundFrame) (w : W) :
  let '(r, s) := synchronize_route from_slice_login state headers frames (mkTr w []) in
  exists accepted_at l, trace s = ENow accepted_at :: l /\
    match instant_checked_add accepted_at (state_overall_request_deadline state) with
    | None => l = [] /\ r = Panicked
    | Some d => transported state headers frames d l r /\
        (refusing_call r = Err refused_connection <-> l = [ECall (Admit d RefusedAtOnce)])
    end.
Proof.
  unfold synchronize_route, ebind, read_now. simpl. destruct (now w) as [t w1].
  destruct (instant_checked_add t _) as [d|] eqn:Ed; [|exists t, []; by rewrite Ed].
  destruct (handle_synchronization_emits state headers frames t d (mkTr w1 [ENow t])) as (l & Hl & Ht).
  destruct (handle_synchronization _ _ _ _ _ _ _) as [r s]. simpl in Hl, Ht |- *.
  exists t, l. rewrite Hl. split; [done|]. rewrite Ed. split; [done|].
  unfold transported in Ht. destruct l as [|[t'|c'|[d' []| | | | | | | | |]] l']; try done.
  - destruct Ht as (-> & cs' & -> & Hrun). split; [destruct Hrun; discriminate|discriminate].
  - destruct Ht as (-> & _ & ->). done.
  - by destruct Ht as (-> & -> & ->).
Qed.

(** The deadline of a well-formed configuration never overflows within the first
    250 years of the monotonic clock. *)
Lemma deadline_never_overflows (state : RuntimeState) (t : Z) :
  (state_overall_request_deadline state <= Z.of_N U64_MAX * 1000000)%Z ->
  (t <= 250 * 366 * 86400 * NANOS_PER_SEC)%Z ->
  is_Some (instant_checked_add t (state_overall_request_deadline state)).
Proof.
  intros Hd Ht. unfold instant_checked_add. rewrite (proj2 (Z.leb_le _ _)); [eauto|].
  unfold INSTANT_MAX, NANOS_PER_SEC, U64_MAX in *. lia.
Qed.

(** *** Readiness *)

(** The polls of a probe that is still undecided. *)
Definition pending_polls (context : SynchronizationContext) (n : nat) : list (event TransportCall) :=
  mjoin (replicate n [ECall (ShutdownPoll false); ECall (EvaluatePoll context None)]).

(** Why a probe was decided. *)
Definition decided_by (context : SynchronizationContext) (state : TrustedVerifierState)
    (last : list (event TransportCall)) : Prop :=
  last = [ECall (ShutdownPoll false); ECall (EvaluatePoll context (Some state))] \/
  state = Unusable /\ last = [ECall (ShutdownPoll true)].

Lemma readiness_race_emits context wakes :
  emits (W := W) (readiness_race context wakes) (fun l r =>
    match r with
    | None => l = pending_polls context wakes
    | Some state => exists n last, n < wakes /\ decided_by context state last /\
        l = pending_polls context n ++ last
    end).
Proof.
  induction wakes as [|wakes IH]; simpl; [by apply emits_ret|].
  eapply emits_bind; [apply emits_performed|]. intros l1 [] ->.
  { apply emits_ret. exists 0, [ECall (ShutdownPoll true)]. split; [lia|]. split; [by right|done]. }
  eapply emits_bind; [apply emits_performed|]. intros l2 [answer|] ->.
  - apply emits_ret. exists 0, [ECall (ShutdownPoll false); ECall (EvaluatePoll context (Some answer))].
    split; [lia|]. split; [by left|done].
  - eapply emits_conseq; [exact IH|]. intros l [state|].
    + intros (n & last & Hn & Hd & ->). exists (S n), last. split; [lia|]. done.
    + by intros ->.
Qed.

(** [GET /readyz].  Every wake-up asks first whether shutdown has begun and
    only then for the verifier state, evaluated under the one deadline "now plus the
    readiness budget".  The probe answers 200 only when, at the last wake-up,
    shutdown had not begun and the state was usable; from the first wake-up that
    sees shutdown it answers 503 without asking for the state again; and the gauge
    agrees with the answer. *)
Lemma readiness_contract (state : RuntimeState) (wakes : nat) (w : W) :
  let '(r, s) := readiness state wakes (mkTr w []) in
  exists t l, trace s = ENow t :: l /\
    match instant_checked_add t (state_readiness_budget state) with
    | None => r = ProbePanicked /\ l = []
    | Some deadline =>
        (r = ProbePending /\ l = pending_polls (mkContext deadline) wakes) \/
        (exists n last verdict, n < wakes /\ decided_by (mkContext deadline) verdict last /\
          l = pending_polls (mkContext deadline) n ++ last ++
            [ECall (SetGauge READY "" (match verdict with Usable => 1 | Unusable => 0 end)%Z)] /\
          r = ProbeAnswered (match verdict with Usable => 200 | Unusable => 503 end)%N)
    end.
Proof.
  unfold readiness, ebind, read_now. simpl. destruct (now w) as [t w1].
  destruct (instant_checked_add t _) as [deadline|] eqn:Ed; [|exists t, []; by rewrite Ed].
  destruct (readiness_race_emits (mkContext deadline) wakes (mkTr w1 [ENow t])) as (l & Hl & Hr).
  destruct (readiness_race _ _ _) as [ready s]. simpl in Hl, Hr.
  destruct ready as [verdict|].
  - destruct Hr as (n & last & Hn & Hd & ->).
    destruct verdict; simpl; rewrite Hl; eexists t, _; simpl; rewrite Ed, <- app_assoc; (split; [done|]);
      right; eexists n, last, _; eauto.
  - exists t, l. rewrite Ed. simpl. rewrite Hl. auto.
Qed.
End RequestFacts.
