(* ===== verification/Serve.v ===== *)
(** * Runtime: the accept loop and the bounded shutdown

    Models [serve] and what it calls in [src/runtime/mod.rs]: the classification of
    accept failures, the resource-pressure backoff, the consecutive-failure count,
    the connection tasks and the phases in which shutdown ends them.

    The loop only waits and reacts, so it is a function of what happens when: the
    time shutdown is requested, the answers of the listener with the time each
    becomes available, and the time at which Hyper's future for a connection
    resolves.  Reactions take no time of their own, as under Tokio's virtual
    clock; waits take what the source says. *)
From S2P Require Import Prelude Failure Admission.

(** ** Constants *)

Definition CANCELLED_REQUEST_WINDOW : Z := NANOS_PER_SEC.
Definition MAX_CONSECUTIVE_ACCEPT_FAILURES : N := 16.
Definition ACCEPT_RESOURCE_PRESSURE_BACKOFF : Z := 100000000.
Definition HEADER_READ_TIMEOUT : Z := 30 * NANOS_PER_SEC.
Definition U32_MAX : N := 4294967295.

(** ** Accept failures *)

(** The [libc] constants of the target architecture. *)
Class AcceptErrno : Type := {
  EMFILE : Z; ENFILE : Z; ENOBUFS : Z;
  ENONET : Z; EPROTO : Z; ENOPROTOOPT : Z; EHOSTDOWN : Z;
}.

(** The [std::io::ErrorKind]s the code names; the others by their own name. *)
Inductive ErrorKind : Type :=
| OutOfMemory
| ConnectionAborted | ConnectionReset | Interrupted | WouldBlock | TimedOut
| PermissionDenied | NetworkDown | NetworkUnreachable | HostUnreachable | Unsupported
| OtherKind (name : string).

Record IoError : Type := mkIoError { raw_os_error : option Z; error_kind : ErrorKind }.

Inductive AcceptFailure : Type := Transient | ResourcePressure | ListenerUnusable.
Inductive AcceptBackoff : Type := Continue | Stop.

#[global] Instance AcceptFailure_eq_dec : EqDecision AcceptFailure.
Proof. solve_decision. Defined.

Section Classify.
Context {Errno : AcceptErrno}.

(** [accept_errno]. *)
Definition RESOURCE_PRESSURE : list Z := [EMFILE; ENFILE; ENOBUFS].
Definition PENDING_NETWORK : list Z := [ENONET; EPROTO; ENOPROTOOPT; EHOSTDOWN].

(** [classify_accept_failure]. *)
Definition classify_accept_failure (error : IoError) : AcceptFailure :=
  let by_kind :=
    match error_kind error with
    | OutOfMemory => ResourcePressure
    | ConnectionAborted | ConnectionReset | Interrupted | WouldBlock | TimedOut | PermissionDenied
    | NetworkDown | NetworkUnreachable | HostUnreachable | Unsupported => Transient
    | _ => ListenerUnusable
    end in
  match raw_os_error error with
  | Some errno =>
      if bool_decide (errno ∈ RESOURCE_PRESSURE) then ResourcePressure
      else if bool_decide (errno ∈ PENDING_NETWORK) then Transient
      else by_kind
  | None => by_kind
  end.
End Classify.

(** [accept_backoff] entered at [now]: its answer and when it returns.  Shutdown
    is polled before the timer. *)
Definition accept_backoff (shutdown_at : option Z) (now backoff : Z) : AcceptBackoff * Z :=
  match shutdown_at with
  | Some s => if (s <=? now + backoff)%Z then (Stop, Z.max now s) else (Continue, now + backoff)%Z
  | None => (Continue, now + backoff)%Z
  end.

(** [accept_failure_is_fatal]: the count after the failure and the decision. *)
Definition accept_failure_is_fatal (consecutive_failures : N) : N * bool :=
  let consecutive_failures := N.min (consecutive_failures + 1) U32_MAX in
  (consecutive_failures, (MAX_CONSECUTIVE_ACCEPT_FAILURES <=? consecutive_failures)%N).

(** ** Connections *)

(** When Hyper's connection future over a stream resolves, for a header-read
    timeout, given when it was asked for a graceful shutdown and when the requests
    were cancelled, if they were. *)
Class HyperServer (Stream : Type) : Type := {
  connection_ends : Stream -> Z -> option Z -> option Z -> Z;
}.

Section Connections.
Context {Stream : Type} `{!HyperServer Stream}.

(** [serve_connection]: when its task ends. *)
Definition serve_connection (stream : Stream) (header_read_timeout : Z) (shutdown_started cancelled : option Z)
  : Z :=
  let undisturbed := connection_ends stream header_read_timeout None cancelled in
  match shutdown_started with
  | None => undisturbed
  | Some begun =>
      if (undisturbed <=? begun)%Z then undisturbed
      else connection_ends stream header_read_timeout (Some begun) cancelled
  end.

(** The tasks of a [JoinSet] that have ended at a time, and the others. *)
Definition ended_by (ends : Stream -> Z) (t : Z) (connections : list Stream) : list Stream :=
  filter (fun s => ends s <= t)%Z connections.
Definition alive_after (ends : Stream -> Z) (t : Z) (connections : list Stream) : list Stream :=
  filter (fun s => t < ends s)%Z connections.

(** [drain] entered at [now], when every task ends by itself: when it returns. *)
Definition drain (ends : Stream -> Z) (now : Z) (connections : list Stream) : Z :=
  foldr (fun s t => Z.max (ends s) t) now connections.

(** What the phases of a shutdown did with the connections they found. *)
Record Phases : Type := mkPhases {
  drained : list Stream;
  returned : list Stream;
  aborted : list Stream;
  cancelled_at : option Z;
  phases_end : Z;
  phases_lifecycle : Lifecycle;
}.

(** [shut_down_connections] entered at [now], shutdown having begun at [begun]. *)
Definition shut_down_connections (connections : list Stream) (lifecycle : Lifecycle)
    (begun now shutdown_grace : Z) : Phases :=
  let ends := fun s => serve_connection s HEADER_READ_TIMEOUT (Some begun) None in
  let grace_end := (now + shutdown_grace)%Z in
  if (drain ends now connections <=? grace_end)%Z
  then mkPhases connections [] [] None (drain ends now connections) lifecycle
  else
    let lifecycle := cancel_requests lifecycle in
    let ends' := fun s => serve_connection s HEADER_READ_TIMEOUT (Some begun) (Some grace_end) in
    let left := alive_after ends grace_end connections in
    let window_end := (grace_end + CANCELLED_REQUEST_WINDOW)%Z in
    mkPhases (ended_by ends grace_end connections) (ended_by ends' window_end left)
      (alive_after ends' window_end left) (Some grace_end)
      (Z.min (drain ends' grace_end left) window_end) lifecycle.

(** ** The loop *)

(** When shutdown is requested, and the listener's answers with the time each is
    available from. *)
Record Traffic : Type := mkTraffic {
  shutdown_at : option Z;
  answers : list (Z * result Stream IoError);
}.

Inductive ServeCall : Type :=
| AcceptCall (at_time : Z) (answer : result Stream IoError)
| WarnCall (reason : string)
| BackoffCall (from until : Z)
| JoinCall (at_time : Z).

Record LoopState : Type := mkLoop {
  loop_now : Z;
  connections : list Stream;
  reaped : list Stream;
  consecutive_failures : N;
  reported_resource_pressure : bool;
  log : list ServeCall;
}.

Inductive Branch : Type := ShutdownBranch | AcceptBranch | JoinBranch.

(** The earlier of two branches; the first one when both are ready at once. *)
Definition earlier (a b : option (Branch * Z)) : option (Branch * Z) :=
  match a, b with
  | Some (_, t), Some (_, u) => if (t <=? u)%Z then a else b
  | None, _ => b
  | _, None => a
  end.

(** The biased [select!]: shutdown, then the listener, then the connections. *)
Definition select (now : Z) (shutdown_at accept_at join_at : option Z) : option (Branch * Z) :=
  let ready (b : Branch) (t : option Z) := (fun t => (b, Z.max now t)) <$> t in
  earlier (ready ShutdownBranch shutdown_at)
    (earlier (ready AcceptBranch accept_at) (ready JoinBranch join_at)).

(** When [join_next] resolves; never for an empty set. *)
Fixpoint join_at (ends : Stream -> Z) (connections : list Stream) : option Z :=
  match connections with
  | [] => None
  | s :: rest => Some (match join_at ends rest with Some t => Z.min (ends s) t | None => ends s end)
  end.

(** How a task ends while shutdown has not begun. *)
Definition undisturbed_end (s : Stream) : Z := serve_connection s HEADER_READ_TIMEOUT None None.

(** Removing the tasks that have ended from the owned set. *)
Definition reap (st : LoopState) : LoopState :=
  mkLoop (loop_now st) (alive_after undisturbed_end (loop_now st) (connections st))
    (reaped st ++ ended_by undisturbed_end (loop_now st) (connections st))
    (consecutive_failures st) (reported_resource_pressure st) (log st).

Definition advance (t : Z) (calls : list ServeCall) (st : LoopState) : LoopState :=
  mkLoop t (connections st) (reaped st) (consecutive_failures st) (reported_resource_pressure st)
    (log st ++ calls).

Inductive Pass : Type :=
| Again (st : LoopState)
| Break (st : LoopState)
| Fatal (st : LoopState)
| Waiting (st : LoopState).

Context {Errno : AcceptErrno}.

(** The arm of an answer of the listener. *)
Definition accepted_arm (shutdown_at : option Z) (answer : result Stream IoError) (st : LoopState) : Pass :=
  match answer with
  | Ok stream => Again (mkLoop (loop_now st) (connections st ++ [stream]) (reaped st) 0 false (log st))
  | Err error =>
      match classify_accept_failure error with
      | Transient => Again st
      | ResourcePressure =>
          let warning := if reported_resource_pressure st then [] else [WarnCall "resource_pressure"] in
          let '(decision, t) := accept_backoff shutdown_at (loop_now st) ACCEPT_RESOURCE_PRESSURE_BACKOFF in
          let st := mkLoop t (connections st) (reaped st) (consecutive_failures st) true
            (log st ++ warning ++ [BackoffCall (loop_now st) t]) in
          match decision with Stop => Break st | Continue => Again st end
      | ListenerUnusable =>
          let '(count, fatal) := accept_failure_is_fatal (consecutive_failures st) in
          let st := mkLoop (loop_now st) (connections st) (reaped st) count (reported_resource_pressure st)
            (log st ++ [WarnCall "listener_unusable"]) in
          if fatal then Fatal st else Again st
      end
  end.

(** One pass of the loop.  The task [join_next] returns is removed with the others
    that have ended by then. *)
Definition pass (shutdown_at : option Z) (pending : list (Z * result Stream IoError)) (st : LoopState)
  : Pass * list (Z * result Stream IoError) :=
  let st := reap st in
  match select (loop_now st) shutdown_at (fst <$> head pending) (join_at undisturbed_end (connections st)) with
  | None => (Waiting st, pending)
  | Some (ShutdownBranch, t) => (Break (advance t [] st), pending)
  | Some (JoinBranch, t) => (Again (reap (advance t [JoinCall t] st)), pending)
  | Some (AcceptBranch, t) =>
      match pending with
      | [] => (Waiting st, pending)
      | (_, answer) :: pending =>
          (accepted_arm shutdown_at answer (advance t [AcceptCall t answer] st), pending)
      end
  end.

(** The loop; [None] when the passes allowed did not decide it. *)
Fixpoint accept_loop (passes : nat) (shutdown_at : option Z) (pending : list (Z * result Stream IoError))
    (st : LoopState) : option Pass :=
  match passes with
  | 0 => None
  | S passes =>
      match pass shutdown_at pending st with
      | (Again st, pending) => accept_loop passes shutdown_at pending st
      | (p, _) => Some p
      end
  end.

(** [serve]: what it did, and its result. *)
Record Served : Type := mkServed {
  served_loop : LoopState;
  served_phases : Phases;
  served_result : result unit RuntimeFailure;
}.

(** [terminate_after_fatal_accept_failure]. *)
Definition terminate_after_fatal_accept_failure (st : LoopState) (lifecycle : Lifecycle) (shutdown_grace : Z)
  : Phases * RuntimeFailure :=
  let lifecycle := begin_shutdown lifecycle in
  (shut_down_connections (connections st) lifecycle (loop_now st) (loop_now st) shutdown_grace,
   ListenerAcceptFailed).

(** Enough passes for a traffic: each one uses an answer or removes a connection. *)
Definition enough_passes (traffic : Traffic) : nat := S (2 * length (answers traffic)).

(** [serve], entered at [start]; [None] while it is still serving.  Shutdown is
    begun by the signal task, or by the loop when the listener is unusable. *)
Definition serve (start : Z) (traffic : Traffic) (shutdown_grace : Z) : option Served :=
  match accept_loop (enough_passes traffic) (shutdown_at traffic) (answers traffic)
          (mkLoop start [] [] 0 false []) with
  | Some (Break st) =>
      let begun := default (loop_now st) (shutdown_at traffic) in
      Some (mkServed st (shut_down_connections (connections st) (begin_shutdown lifecycle_new) begun
        (loop_now st) shutdown_grace) (Ok tt))
  | Some (Fatal st) =>
      let '(phases, failure) := terminate_after_fatal_accept_failure st lifecycle_new shutdown_grace in
      Some (mkServed st phases (Err failure))
  | Some (Waiting _) | Some (Again _) | None => None
  end.
End Connections.
Arguments Traffic : clear implicits.
Arguments Served : clear implicits.
Arguments Phases : clear implicits.
Arguments LoopState : clear implicits.
Arguments ServeCall : clear implicits.

(** ** Facts: the phases of a shutdown *)

Section PhaseFacts.
Context {Stream : Type} `{!HyperServer Stream}.
Implicit Types (ends : Stream -> Z) (l : list Stream).

Lemma ended_or_alive ends t l : ended_by ends t l ++ alive_after ends t l ≡ₚ l.
Proof.
  unfold ended_by, alive_after. induction l as [|s l IH]; [done|]. rewrite !filter_cons.
  destruct (decide (ends s <= t)%Z), (decide (t < ends s)%Z); try lia; simpl; [by rewrite IH|].
  by rewrite <- Permutation_middle, IH.
Qed.

Lemma drain_le ends now l t : (drain ends now l <= t)%Z <-> (now <= t)%Z /\ forall s, s ∈ l -> (ends s <= t)%Z.
Proof.
  unfold drain. induction l as [|s l IH]; simpl; [set_solver|]. rewrite Z.max_lub_iff, IH.
  split; [intros (? & ? & ?); split; [done|]; intros x [->|?]%elem_of_cons; auto|].
  intros [? H]. split_and!; [apply H; left|done|]. intros x Hx. apply H. by right.
Qed.

Lemma elem_of_ended_by ends t l s : s ∈ ended_by ends t l <-> s ∈ l /\ (ends s <= t)%Z.
Proof. unfold ended_by. rewrite list_elem_of_filter. tauto. Qed.
Lemma elem_of_alive_after ends t l s : s ∈ alive_after ends t l <-> s ∈ l /\ (t < ends s)%Z.
Proof. unfold alive_after. rewrite list_elem_of_filter. tauto. Qed.

Lemma drain_late ends now l t :
  (now <= t)%Z -> ~ (drain ends now l <= t)%Z -> exists s, s ∈ l /\ (t < ends s)%Z.
Proof.
  intros Hn Hd. rewrite drain_le in Hd. destruct (alive_after ends t l) as [|s rest] eqn:E.
  - destruct Hd. split; [done|]. intros s Hs. destruct (decide (ends s <= t)%Z); [done|].
    assert (s ∈ alive_after ends t l) as H by (apply elem_of_alive_after; split; [done|lia]).
    rewrite E in H. by apply not_elem_of_nil in H.
  - exists s. apply elem_of_alive_after. rewrite E. left.
Qed.

Lemma phases_partition l lifecycle begun now grace :
  let p := shut_down_connections l lifecycle begun now grace in drained p ++ returned p ++ aborted p ≡ₚ l.
Proof.
  unfold shut_down_connections. cbv zeta. destruct (_ <=? _)%Z; simpl; [by rewrite app_nil_r|].
  rewrite ended_or_alive. apply ended_or_alive.
Qed.

Lemma phases_time l lifecycle begun now grace : (0 <= grace)%Z ->
  (now <= phases_end (shut_down_connections l lifecycle begun now grace) <= now + grace + CANCELLED_REQUEST_WINDOW)%Z.
Proof.
  intros Hg. unfold shut_down_connections. cbv zeta. set (e := fun s => serve_connection s _ _ None).
  set (e' := fun s => serve_connection s _ _ (Some _)). unfold CANCELLED_REQUEST_WINDOW, NANOS_PER_SEC.
  pose proof (proj1 (drain_le e now l _) (Z.le_refl _)) as [? _].
  pose proof (proj1 (drain_le e' (now + grace) (alive_after e (now + grace) l) _) (Z.le_refl _)) as [? _].
  destruct (Z.leb_spec (drain e now l) (now + grace)); simpl; lia.
Qed.

(** Connections that end in time are neither cancelled nor terminated. *)
Lemma phases_in_time l lifecycle begun now grace d :
  (begun <= now)%Z -> (0 <= d <= grace)%Z ->
  (forall s, s ∈ l -> begun < connection_ends s HEADER_READ_TIMEOUT None None ->
    connection_ends s HEADER_READ_TIMEOUT (Some begun) None <= begun + d)%Z ->
  let p := shut_down_connections l lifecycle begun now grace in
  drained p = l /\ returned p = [] /\ aborted p = [] /\ cancelled_at p = None /\ phases_lifecycle p = lifecycle /\
  (phases_end p <= now + d)%Z.
Proof.
  intros Hb Hd Hl. unfold shut_down_connections. cbv zeta. set (e := fun s => serve_connection s _ _ None).
  assert (drain e now l <= now + d)%Z as Hdrain.
  { apply drain_le. split; [lia|]. intros s Hs. specialize (Hl s Hs). unfold e, serve_connection.
    destruct (Z.leb_spec (connection_ends s HEADER_READ_TIMEOUT None None) begun) as [?|Ho]; [lia|].
    specialize (Hl Ho). lia. }
  rewrite (proj2 (Z.leb_le _ _)) by lia. done.
Qed.

(** Shutdown in bounded phases.  Every connection it finds ends in
    exactly one of three ways: within the grace period, within the window after
    the requests were cancelled, or terminated at the end of the window; it takes
    at most the grace period and the window.  The requests are cancelled when the
    grace period ends, and exactly when some connection outlives it; a connection
    is terminated exactly when it outlives the window as well. *)
Lemma shutdown_phases (l : list Stream) (lifecycle : Lifecycle) (begun now grace : Z) :
  (0 <= grace)%Z ->
  let p := shut_down_connections l lifecycle begun now grace in
  let ends := fun cancelled s => serve_connection s HEADER_READ_TIMEOUT (Some begun) cancelled in
  drained p ++ returned p ++ aborted p ≡ₚ l /\
  (now <= phases_end p <= now + grace + CANCELLED_REQUEST_WINDOW)%Z /\
  (cancelled_at p = None \/ cancelled_at p = Some (now + grace)%Z) /\
  (is_Some (cancelled_at p) <-> exists s, s ∈ l /\ (now + grace < ends None s)%Z) /\
  (forall s, s ∈ drained p <-> s ∈ l /\ (ends None s <= now + grace)%Z) /\
  (forall s, s ∈ aborted p <-> s ∈ l /\ (now + grace < ends None s)%Z /\
    (now + grace + CANCELLED_REQUEST_WINDOW < ends (Some (now + grace)%Z) s)%Z) /\
  shutting_down (phases_lifecycle p) = shutting_down lifecycle /\
  requests_cancelled (phases_lifecycle p) =
    (requests_cancelled lifecycle || bool_decide (is_Some (cancelled_at p))).
Proof.
  intros Hg. cbv zeta. split; [apply phases_partition|]. split; [by apply phases_time|].
  unfold shut_down_connections. cbv zeta.
  set (e := fun s => serve_connection s HEADER_READ_TIMEOUT (Some begun) None).
  set (e' := fun s => serve_connection s HEADER_READ_TIMEOUT (Some begun) (Some (now + grace)%Z)).
  destruct (Z.leb_spec (drain e now l) (now + grace)) as [Hd|Hd]; simpl.
  - apply drain_le in Hd as Hd'. destruct Hd' as [_ Hall]. rewrite orb_false_r.
    split_and!; try done; [by left| | |].
    + split; [by intros []|]. intros (s & Hs & H). destruct (Zlt_not_le _ _ H). exact (Hall s Hs).
    + intros s. split; [intros Hs; split; [done|exact (Hall s Hs)]|by intros []].
    + intros s. split; [by intros ?%not_elem_of_nil|]. intros (Hs & H & _).
      destruct (Zlt_not_le _ _ H). exact (Hall s Hs).
  - destruct (drain_late e now l (now + grace) ltac:(lia) ltac:(lia)) as (s0 & Hs0 & Hlate).
    rewrite orb_true_r. split_and!; try done; [by right| | |].
    + split; [|eauto]. intros _. by exists s0.
    + intros s. apply elem_of_ended_by.
    + intros s. rewrite !elem_of_alive_after. unfold e, e'. tauto.
Qed.
End PhaseFacts.

(** ** Facts: the loop *)

Section LoopFacts.
Context {Stream : Type} `{!HyperServer Stream} {Errno : AcceptErrno}.
Implicit Types (st : LoopState Stream) (pending : list (Z * result Stream IoError)).

(** The answers of the listener a log records, and the streams among them. *)
Definition seen (l : list (ServeCall Stream)) : list (result Stream IoError) :=
  omap (fun c => match c with AcceptCall _ a => Some a | _ => None end) l.
Definition streams (l : list (result Stream IoError)) : list Stream :=
  omap (fun a => match a with Ok s => Some s | Err _ => None end) l.

Definition is_class (f : AcceptFailure) (a : result Stream IoError) : Prop :=
  match a with Ok _ => False | Err e => classify_accept_failure e = f end.
#[local] Instance is_class_dec f a : Decision (is_class f a).
Proof. destruct a; simpl; apply _. Defined.

(** [n] answers since the last accepted connection show an unusable listener. *)
Definition unusable_in_a_row (n : N) (l : list (result Stream IoError)) : Prop :=
  exists before since, l = before ++ since /\ (before = [] \/ exists b s, before = b ++ [Ok s]) /\
    streams since = [] /\ n = N.of_nat (length (filter (is_class ListenerUnusable) since)).

Definition pressure_warnings (l : list (ServeCall Stream)) : nat :=
  length (List.filter (fun c => match c with WarnCall r => bool_decide (r = "resource_pressure") | _ => false end) l).

(** A failure under resource pressure before [now] is at least one backoff old. *)
Definition cooled (l : list (ServeCall Stream)) (now : Z) : Prop :=
  forall t e, AcceptCall t (Err e) ∈ l -> classify_accept_failure e = ResourcePressure ->
    (t + ACCEPT_RESOURCE_PRESSURE_BACKOFF <= now)%Z.

(** No accept follows such a failure sooner than one backoff. *)
Definition paced (l : list (ServeCall Stream)) : Prop :=
  forall l1 t a l2, l = l1 ++ AcceptCall t a :: l2 -> cooled l1 t.

(** What holds at every pass, [start] being the time the loop was entered. *)
Record loop_inv (start : Z) st : Prop := {
  inv_time : (start <= loop_now st)%Z;
  inv_owned : reaped st ++ connections st ≡ₚ streams (seen (log st));
  inv_count : unusable_in_a_row (consecutive_failures st) (seen (log st));
  inv_before : forall l1 a l2 n, seen (log st) = l1 ++ a :: l2 -> unusable_in_a_row n l1 ->
    (n < MAX_CONSECUTIVE_ACCEPT_FAILURES)%N;
  inv_warned : pressure_warnings (log st) <=
    length (streams (seen (log st))) + (if reported_resource_pressure st then 1 else 0);
  inv_paced : paced (log st);
}.

Lemma seen_app l1 l2 : seen (l1 ++ l2) = seen l1 ++ seen l2.
Proof. apply omap_app. Qed.
Lemma streams_app l1 l2 : streams (l1 ++ l2) = streams l1 ++ streams l2.
Proof. apply omap_app. Qed.
Lemma pressure_warnings_app l1 l2 :
  pressure_warnings (l1 ++ l2) = pressure_warnings l1 + pressure_warnings l2.
Proof. unfold pressure_warnings. by rewrite List.filter_app, length_app. Qed.

Lemma paced_app_quiet l1 l2 : seen l2 = [] -> paced l1 -> paced (l1 ++ l2).
Proof.
  intros H2 H1 p t a q E. assert (AcceptCall t a ∉ l2) as Hn.
  { intros Hin. assert (a ∈ seen l2) as Ha; [|rewrite H2 in Ha; by apply not_elem_of_nil in Ha].
    unfold seen. apply list_elem_of_omap. eauto. }
  apply app_eq_app in E as (k & [[-> Ek]|[-> ->]]).
  - destruct k as [|c k]; simplify_eq/=. by eapply H1.
  - set_solver.
Qed.

Lemma paced_snoc l t a : paced l -> cooled l t -> paced (l ++ [AcceptCall t a]).
Proof.
  intros Hl Hc p t' a' q E. apply app_eq_app in E as (k & [[-> Ek]|[-> Ek]]).
  - destruct k as [|c k]; simplify_eq/=; [by rewrite app_nil_r in Hc|]. by eapply Hl.
  - destruct k as [|c k]; simplify_eq/=; [by rewrite app_nil_r|]. by destruct k.
Qed.

(** The count of the code is the reference count, one answer at a time. *)
Lemma unusable_ok n l s : unusable_in_a_row n l -> unusable_in_a_row 0 (l ++ [Ok s]).
Proof. intros _. exists (l ++ [Ok s]), []. rewrite app_nil_r. split_and!; eauto. Qed.

Lemma unusable_err n l e :
  unusable_in_a_row n l ->
  unusable_in_a_row (if decide (classify_accept_failure e = ListenerUnusable) then n + 1 else n) (l ++ [Err e]).
Proof.
  intros (before & since & -> & Hb & Hs & ->). exists before, (since ++ [Err e]).
  rewrite app_assoc, streams_app, Hs, filter_app, length_app. split_and!; try done.
  rewrite filter_cons. case_decide as H1; case_decide as H2; simpl in *; first [done | rewrite ?filter_nil; simpl; lia].
Qed.

Lemma unusable_unique n m l : unusable_in_a_row n l -> unusable_in_a_row m l -> n = m.
Proof.
  intros (b1 & s1 & -> & H1 & N1 & ->) (b2 & s2 & E & H2 & N2 & ->).
  apply app_eq_app in E as (k & [[-> ->]|[-> ->]]).
  - destruct (decide (k = [])) as [->|Hk]; [done|]. destruct H1 as [?|(b & s & H1)]; [by destruct b2, k|].
    destruct (exists_last Hk) as (k' & x & ->). rewrite app_assoc in H1. apply app_inj_tail in H1 as [_ ->].
    rewrite !streams_app in N2. by apply app_nil in N2 as [[_ ?]%app_nil _].
  - destruct (decide (k = [])) as [->|Hk]; [done|]. destruct H2 as [?|(b & s & H2)]; [by destruct b1, k|].
    destruct (exists_last Hk) as (k' & x & ->). rewrite app_assoc in H2. apply app_inj_tail in H2 as [_ ->].
    rewrite !streams_app in N1. by apply app_nil in N1 as [[_ ?]%app_nil _].
Qed.

(** The branch a biased [select!] takes is the first that is ready. *)
Lemma select_spec now sh acc jo :
  match select now sh acc jo with
  | None => sh = None /\ acc = None /\ jo = None
  | Some (b, t) => (now <= t)%Z /\ (forall s, sh = Some s -> (t <= Z.max now s)%Z) /\
      match b with
      | ShutdownBranch => exists s, sh = Some s /\ t = Z.max now s
      | AcceptBranch => is_Some acc
      | JoinBranch => exists j, jo = Some j /\ t = Z.max now j
      end
  end.
Proof.
  unfold select. destruct sh as [s|], acc as [a|], jo as [j|]; simpl;
    repeat match goal with |- context [(?x <=? ?y)%Z] => destruct (Z.leb_spec x y) end; simpl;
    repeat split; eauto; try lia; intros ? [= <-]; lia.
Qed.

Lemma reap_inv start st : loop_inv start st -> loop_inv start (reap st).
Proof.
  intros []. split; simpl; try done. by rewrite <- app_assoc, ended_or_alive.
Qed.

(** What the loop knows before a pass. *)
Definition running (start : Z) (shutdown_at : option Z) st : Prop :=
  loop_inv start st /\ cooled (log st) (loop_now st) /\
  (consecutive_failures st < MAX_CONSECUTIVE_ACCEPT_FAILURES)%N /\
  (forall s, shutdown_at = Some s -> (loop_now st <= Z.max start s)%Z).

(** What each result of a pass means. *)
Definition pass_post (start : Z) (shutdown_at : option Z) (p : Pass) : Prop :=
  match p with
  | Again st => running start shutdown_at st
  | Break st => loop_inv start st /\ (consecutive_failures st < MAX_CONSECUTIVE_ACCEPT_FAILURES)%N /\
      exists s, shutdown_at = Some s /\ loop_now st = Z.max start s
  | Fatal st => loop_inv start st /\ consecutive_failures st = MAX_CONSECUTIVE_ACCEPT_FAILURES /\
      forall s, shutdown_at = Some s -> (loop_now st <= Z.max start s)%Z
  | Waiting st => loop_inv start st /\ (consecutive_failures st < MAX_CONSECUTIVE_ACCEPT_FAILURES)%N /\
      shutdown_at = None
  end.

Lemma cooled_app l1 l2 now : cooled (l1 ++ l2) now <-> cooled l1 now /\ cooled l2 now.
Proof.
  unfold cooled. split; [intros H; split; intros; eapply H; eauto; set_solver|].
  intros [H1 H2] t e [?|?]%elem_of_app ?; eauto.
Qed.
Lemma cooled_mono l t t' : cooled l t -> (t <= t')%Z -> cooled l t'.
Proof. intros H Ht t0 e Hin Hc. specialize (H t0 e Hin Hc). lia. Qed.
Lemma cooled_quiet l now : seen l = [] -> cooled l now.
Proof.
  intros Hl t e Hin _. assert (Err e ∈ seen l) as H by (apply list_elem_of_omap; eauto).
  rewrite Hl in H. by apply not_elem_of_nil in H.
Qed.
Lemma cooled_calm t answer now : ~ is_class ResourcePressure answer -> cooled [AcceptCall t answer] now.
Proof. intros Ha t' e He Hc. apply list_elem_of_singleton in He. by simplify_eq. Qed.

(** A state whose log grew by the answer and then by calls that are no accept. *)
Lemma grown_inv start st t answer quiet conns count reported :
  loop_inv start st -> cooled (log st) (loop_now st) ->
  (consecutive_failures st < MAX_CONSECUTIVE_ACCEPT_FAILURES)%N -> (loop_now st <= t)%Z -> seen quiet = [] ->
  let grown := (log st ++ [AcceptCall t answer]) ++ quiet in
  reaped st ++ conns ≡ₚ streams (seen (log st) ++ [answer]) ->
  unusable_in_a_row count (seen (log st) ++ [answer]) ->
  pressure_warnings (log st) + pressure_warnings quiet <=
    length (streams (seen (log st) ++ [answer])) + (if (reported : bool) then 1 else 0) ->
  forall t', (t <= t')%Z -> loop_inv start (mkLoop t' conns (reaped st) count reported grown).
Proof.
  intros [] Hc Hcf Ht Hq grown Ho Hn Hw t' Ht'.
  assert (seen grown = seen (log st) ++ [answer]) as Es.
  { unfold grown. rewrite !seen_app, Hq, app_nil_r. done. }
  split; simpl; rewrite ?Es; try done; [lia| | |].
  - intros l1 a l2 n E Hl1. apply app_eq_app in E as (k & [[Ek Ek']|[-> Ek]]).
    + destruct k as [|x k]; simplify_eq/=; [|by eapply inv_before0].
      rewrite app_nil_r in Ek. subst l1. by rewrite (unusable_unique _ _ _ Hl1 inv_count0).
    + destruct k as [|x k]; simplify_eq/=; [|by destruct k].
      rewrite app_nil_r in Hl1. by rewrite (unusable_unique _ _ _ Hl1 inv_count0).
  - unfold grown. rewrite !pressure_warnings_app. simpl. unfold pressure_warnings at 2. simpl. lia.
  - apply paced_app_quiet; [done|]. apply paced_snoc; [done|]. by eapply cooled_mono.
Qed.

(** The same, when the loop goes on. *)
Lemma grown_running start sh st t answer quiet conns count reported :
  running start sh st -> (loop_now st <= t)%Z -> seen quiet = [] ->
  reaped st ++ conns ≡ₚ streams (seen (log st) ++ [answer]) ->
  unusable_in_a_row count (seen (log st) ++ [answer]) ->
  (count < MAX_CONSECUTIVE_ACCEPT_FAILURES)%N ->
  pressure_warnings (log st) + pressure_warnings quiet <=
    length (streams (seen (log st) ++ [answer])) + (if (reported : bool) then 1 else 0) ->
  forall t', (t <= t')%Z -> cooled [AcceptCall t answer] t' ->
  (forall s, sh = Some s -> (t' <= Z.max start s)%Z) ->
  running start sh (mkLoop t' conns (reaped st) count reported ((log st ++ [AcceptCall t answer]) ++ quiet)).
Proof.
  intros (Hinv & Hc & Hcf & _) Ht Hq Ho Hn Hlt Hw t' Ht' Hca Hs. split_and!; try done; [by apply grown_inv|].
  simpl. rewrite !cooled_app. split_and!; [by eapply cooled_mono; [done|lia]|done|by apply cooled_quiet].
Qed.

(** The backoff never outlasts the start of shutdown. *)
Lemma accept_backoff_spec sh now backoff :
  (0 <= backoff)%Z ->
  match accept_backoff sh now backoff with
  | (Continue, t) => t = (now + backoff)%Z /\ forall s, sh = Some s -> (t < s)%Z
  | (Stop, t) => exists s, sh = Some s /\ t = Z.max now s
  end.
Proof.
  intros Hb. unfold accept_backoff. destruct sh as [s|]; [|done]. destruct (Z.leb_spec s (now + backoff)); [eauto|].
  split; [done|]. by intros ? [= <-].
Qed.

Lemma streams_err l e : streams (l ++ [Err e]) = streams l.
Proof. rewrite streams_app. simpl. by rewrite app_nil_r. Qed.

Section Arm.
Context (start : Z) (sh : option Z) (st : LoopState Stream) (t : Z).
Hypothesis Hrun : running start sh st.
Hypothesis Ht : (loop_now st <= t)%Z.
Hypothesis Hs : forall s, sh = Some s -> (t <= Z.max start s)%Z.

Lemma accepted_stream stream :
  running start sh (mkLoop t (connections st ++ [stream]) (reaped st) 0 false
    ((log st ++ [AcceptCall t (Ok stream)]) ++ [])).
Proof.
  pose proof Hrun as ([] & _). apply grown_running; try done.
  - rewrite streams_app. simpl. by rewrite app_assoc, inv_owned0.
  - by eapply unusable_ok.
  - rewrite streams_app, length_app. simpl. unfold pressure_warnings at 2. simpl.
    destruct (reported_resource_pressure st); lia.
  - apply cooled_calm. auto.
Qed.

Lemma transient_failure e : classify_accept_failure e = Transient ->
  running start sh (mkLoop t (connections st) (reaped st) (consecutive_failures st)
    (reported_resource_pressure st) ((log st ++ [AcceptCall t (Err e)]) ++ [])).
Proof.
  intros Ec. pose proof Hrun as ([] & _ & ? & _). apply grown_running; rewrite ?streams_err; try done.
  - pose proof (unusable_err _ _ e inv_count0) as Hn. by rewrite decide_False in Hn by (by rewrite Ec).
  - unfold pressure_warnings at 2. simpl. lia.
  - apply cooled_calm. simpl. by rewrite Ec.
Qed.

(** What a failure under pressure adds to the log after the answer. *)
Definition pressure_calls (until : Z) : list (ServeCall Stream) :=
  (if reported_resource_pressure st then [] else [WarnCall "resource_pressure"]) ++ [BackoffCall t until].

Lemma pressure_failure e until : classify_accept_failure e = ResourcePressure -> (t <= until)%Z ->
  let st' := mkLoop until (connections st) (reaped st) (consecutive_failures st) true
    ((log st ++ [AcceptCall t (Err e)]) ++ pressure_calls until) in
  loop_inv start st' /\
  ((forall s, sh = Some s -> (until < s)%Z) -> until = (t + ACCEPT_RESOURCE_PRESSURE_BACKOFF)%Z -> running start sh st').
Proof.
  intros Ec Hu. pose proof Hrun as ([] & ? & ? & _). cbv zeta.
  pose proof (unusable_err _ _ e inv_count0) as Hn. rewrite decide_False in Hn by (by rewrite Ec).
  assert (seen (pressure_calls until) = []) as Hq by (unfold pressure_calls; by case_match).
  assert (pressure_warnings (log st) + pressure_warnings (pressure_calls until) <=
    length (streams (seen (log st) ++ [Err e])) + 1) as Hw.
  { rewrite streams_err. unfold pressure_calls. destruct (reported_resource_pressure st); unfold pressure_warnings at 2; simpl; lia. }
  split; [apply grown_inv; rewrite ?streams_err; try done; by rewrite streams_err in Hw|].
  intros Hsh ->. apply grown_running; rewrite ?streams_err; try done; [by rewrite streams_err in Hw| |].
  - intros t' e' Hin _. apply list_elem_of_singleton in Hin. simplify_eq. lia.
  - intros s Hss. specialize (Hsh s Hss). lia.
Qed.

Lemma unusable_failure e : classify_accept_failure e = ListenerUnusable ->
  let st' := mkLoop t (connections st) (reaped st) (consecutive_failures st + 1) (reported_resource_pressure st)
    ((log st ++ [AcceptCall t (Err e)]) ++ [WarnCall "listener_unusable"]) in
  loop_inv start st' /\
  ((consecutive_failures st + 1 < MAX_CONSECUTIVE_ACCEPT_FAILURES)%N -> running start sh st').
Proof.
  intros Ec. pose proof Hrun as ([] & ? & ? & _). cbv zeta.
  pose proof (unusable_err _ _ e inv_count0) as Hn. rewrite decide_True in Hn by done.
  assert (pressure_warnings (log st) + pressure_warnings [WarnCall "listener_unusable"] <=
    length (streams (seen (log st))) + (if reported_resource_pressure st then 1 else 0)) as Hw.
  { unfold pressure_warnings at 2. simpl. lia. }
  split; [by apply grown_inv; rewrite ?streams_err|].
  intros Hlt. apply grown_running; rewrite ?streams_err; try done.
  apply cooled_calm. simpl. by rewrite Ec.
Qed.

Lemma accepted_arm_post answer :
  pass_post start sh (accepted_arm sh answer (advance t [AcceptCall t answer] st)).
Proof.
  assert (forall l : list (ServeCall Stream), l ++ [] = l) as Enil by (intros; by rewrite app_nil_r).
  unfold accepted_arm, advance. destruct answer as [stream|e]; simpl.
  { rewrite <- (Enil (log st ++ _)). apply accepted_stream. }
  destruct (classify_accept_failure e) eqn:Ec.
  - simpl. rewrite <- (Enil (log st ++ _)). by apply transient_failure.
  - pose proof (accept_backoff_spec sh t ACCEPT_RESOURCE_PRESSURE_BACKOFF ltac:(done)) as Hb.
    destruct (accept_backoff _ _ _) as [[] until]; simpl.
    + destruct Hb as [-> Hb]. refine (proj2 (pressure_failure e _ Ec _) Hb eq_refl). unfold ACCEPT_RESOURCE_PRESSURE_BACKOFF. lia.
    + destruct Hb as (s & Hss & ->). specialize (Hs s Hss). pose proof Hrun as ([] & _ & ? & _).
      split; [refine (proj1 (pressure_failure e _ Ec _)); lia|]. split; [done|]. exists s. split; [done|]. simpl. lia.
  - unfold accept_failure_is_fatal. pose proof Hrun as (_ & _ & Hcf & _). simpl.
    unfold MAX_CONSECUTIVE_ACCEPT_FAILURES, U32_MAX in *. rewrite N.min_l by lia.
    destruct (N.leb_spec 16 (consecutive_failures st + 1)); simpl.
    + split; [exact (proj1 (unusable_failure e Ec))|]. split; [simpl; unfold MAX_CONSECUTIVE_ACCEPT_FAILURES; lia|done].
    + by apply (proj2 (unusable_failure e Ec)).
Qed.
End Arm.

Definition pass_state (p : Pass) : LoopState Stream :=
  match p with Again st | Break st | Fatal st | Waiting st => st end.

(** An answer is logged when it is taken from the listener. *)
Lemma accepted_arm_seen sh answer st : seen (log (pass_state (accepted_arm sh answer st))) = seen (log st).
Proof.
  unfold accepted_arm. destruct answer as [stream|e]; [done|]. destruct (classify_accept_failure e); [done| |].
  - destruct (accept_backoff _ _ _) as [[] until]; simpl; rewrite !seen_app;
      destruct (reported_resource_pressure st); simpl; by rewrite app_nil_r.
  - destruct (accept_failure_is_fatal _) as [count []]; simpl; rewrite seen_app; simpl; by rewrite app_nil_r.
Qed.

Lemma pass_seen sh pending st :
  let '(p, pending') := pass sh pending st in
  seen (log (pass_state p)) ++ (snd <$> pending') = seen (log st) ++ (snd <$> pending).
Proof.
  unfold pass. destruct (select _ _ _ _) as [[[] t]|]; simpl; try done.
  - by rewrite app_nil_r.
  - destruct pending as [|[t0 answer] pending]; [done|]. rewrite accepted_arm_seen. simpl.
    by rewrite seen_app, <- app_assoc.
  - by rewrite seen_app, app_nil_r.
Qed.

Lemma advance_inv start st t calls :
  loop_inv start st -> (loop_now st <= t)%Z -> seen calls = [] -> pressure_warnings calls = 0 ->
  loop_inv start (advance t calls st).
Proof.
  intros [] Ht Hq Hw. split; simpl; rewrite ?pressure_warnings_app, ?seen_app, ?Hq, ?app_nil_r; try done; [lia..|].
  by apply paced_app_quiet.
Qed.

Lemma pass_running start sh pending st : running start sh st -> pass_post start sh (pass sh pending st).1.
Proof.
  intros (Hinv & Hc & Hcf & Hs). apply reap_inv in Hinv as Hr. unfold pass.
  pose proof (select_spec (loop_now (reap st)) sh (fst <$> head pending)
    (join_at undisturbed_end (connections (reap st)))) as Hsel.
  assert (running start sh (reap st)) as Hrun by done.
  destruct (select _ _ _ _) as [[b t]|]; [|by destruct Hsel]. destruct Hsel as (Ht & Hmax & Hb). simpl in Ht, Hmax, Hb.
  assert (forall s, sh = Some s -> (t <= Z.max start s)%Z) as Hts.
  { intros s Hss. specialize (Hs s Hss). specialize (Hmax s Hss). lia. }
  destruct b; simpl.
  - destruct Hb as (s & Hss & ->). split; [by apply advance_inv|]. split; [done|]. exists s. split; [done|].
    specialize (Hs s Hss). destruct Hinv. simpl. lia.
  - destruct pending as [|[t0 answer] pending]; [by destruct Hb|]. by apply accepted_arm_post.
  - split; [by apply reap_inv, advance_inv|]. split; [|done]. simpl. apply cooled_app.
    split; [by eapply cooled_mono|by apply cooled_quiet].
Qed.

(** *** The loop ends *)

Lemma join_at_elem ends (l : list Stream) t : join_at ends l = Some t -> exists s, s ∈ l /\ ends s = t.
Proof.
  revert t. induction l as [|s l IH]; intros t; simpl; [done|]. destruct (join_at ends l) as [u|].
  - intros [= <-]. destruct (Z.min_spec (ends s) u) as [[_ ->]|[_ ->]]; [exists s; split; [left|done]|].
    destruct (IH u eq_refl) as (x & Hx & ?). exists x. split; [by right|done].
  - intros [= <-]. exists s. split; [left|done].
Qed.

Lemma alive_shorter ends (l : list Stream) t s : s ∈ l -> (ends s <= t)%Z -> length (alive_after ends t l) < length l.
Proof.
  intros Hs Ht. unfold alive_after. apply length_filter_lt with s; [done|lia].
Qed.

(** What is left to do: every pass that goes on has less. *)
Definition remaining pending st : nat := 2 * length pending + length (connections st).

Lemma pass_progress sh pending st :
  match pass sh pending st with
  | (Again st', pending') => remaining pending' st' < remaining pending st
  | _ => True
  end.
Proof.
  assert (length (connections (reap st)) <= length (connections st)) as Hr by apply length_filter.
  unfold pass. pose proof (select_spec (loop_now (reap st)) sh (fst <$> head pending)
    (join_at undisturbed_end (connections (reap st)))) as Hsel.
  destruct (select _ _ _ _) as [[[] t]|]; simpl; try done.
  - destruct pending as [|[t0 answer] pending]; [done|]. unfold accepted_arm, remaining.
    destruct answer as [stream|e]; simpl; [rewrite length_app; simpl in *; lia|].
    destruct (classify_accept_failure e); [simpl in *; lia| |].
    + destruct (accept_backoff _ _ _) as [[] until]; simpl in *; [lia|done].
    + unfold accept_failure_is_fatal. destruct (_ <=? _)%N; simpl in *; [done|lia].
  - destruct Hsel as (_ & _ & j & (s & Hin & Hj)%join_at_elem & ->). unfold remaining.
    assert (undisturbed_end s <= Z.max (loop_now (reap st)) j)%Z as Hle by (rewrite Hj; lia).
    pose proof (alive_shorter undisturbed_end _ _ s Hin Hle). simpl in *. lia.
Qed.

(** The loop waits for nothing but new connections once it has seen every answer. *)
Lemma pass_waiting sh pending st st' pending' : pass sh pending st = (Waiting st', pending') -> pending' = [].
Proof.
  unfold pass. pose proof (select_spec (loop_now (reap st)) sh (fst <$> head pending)
    (join_at undisturbed_end (connections (reap st)))) as Hsel.
  destruct (select _ _ _ _) as [[[] t]|]; try done.
  - destruct pending as [|[t0 answer] pending]; [by intros [= _ <-]|]. intros [= E _]. exfalso. revert E.
    unfold accepted_arm. destruct answer as [stream|e]; [done|]. destruct (classify_accept_failure e); [done|by repeat case_match..].
  - destruct Hsel as (_ & Hp & _). intros [= _ <-]. by destruct pending.
Qed.

Lemma accept_loop_decided passes start sh pending st :
  remaining pending st < passes -> running start sh st ->
  exists p, accept_loop passes sh pending st = Some p /\ pass_post start sh p /\
    (forall st', p <> Again st') /\ seen (log (pass_state p)) `prefix_of` seen (log st) ++ (snd <$> pending) /\
    (forall st', p = Waiting st' -> seen (log st') = seen (log st) ++ (snd <$> pending)).
Proof.
  revert pending st. induction passes as [|passes IH]; intros pending st Hm Hrun; [lia|]. simpl.
  pose proof (pass_running start sh pending st Hrun) as Hp. pose proof (pass_progress sh pending st) as Hm'.
  pose proof (pass_seen sh pending st) as Hseen. pose proof (pass_waiting sh pending st) as Hwait.
  destruct (pass sh pending st) as [p pending']. simpl in Hp.
  destruct p as [st'|st'|st'|st'];
    [|eexists; (split_and!; [done|done|done| |]); rewrite <- Hseen; [by apply prefix_app_r|]..].
  - cbv beta iota in Hm'. simpl in Hseen, Hp. rewrite <- Hseen. apply IH; [lia|done].
  - done.
  - done.
  - intros x [= <-]. rewrite (Hwait _ _ eq_refl). by rewrite app_nil_r.
Qed.

Lemma running_start start sh : running start sh (mkLoop start [] [] 0 false []).
Proof.
  split_and!; [|by intros ?? ?%not_elem_of_nil|done|simpl; lia]. split; simpl; try done; try lia.
  - exists [], []. auto.
  - intros l1 a l2 n E. by destruct l1.
  - intros l1 t a l2 E. by destruct l1.
Qed.

(** The loop as [serve] runs it. *)
Lemma serve_loop_decided start traffic :
  let l := accept_loop (enough_passes traffic) (shutdown_at traffic) (answers traffic)
    (mkLoop start [] [] 0 false []) in
  exists p, l = Some p /\ pass_post start (shutdown_at traffic) p /\ (forall st', p <> Again st') /\
    seen (log (pass_state p)) `prefix_of` (snd <$> answers traffic) /\
    (forall st', p = Waiting st' -> seen (log st') = snd <$> answers traffic).
Proof.
  apply (accept_loop_decided _ start); [unfold remaining, enough_passes; simpl; lia|apply running_start].
Qed.

(** A prefix of the answers that shows an unusable listener. *)
Definition listener_failed (l : list (result Stream IoError)) : Prop :=
  exists n, unusable_in_a_row n l /\ (MAX_CONSECUTIVE_ACCEPT_FAILURES <= n)%N.


(** C21: shutdown is bounded.  Once shutdown is requested at [s], serving ends:
    the loop stops no later than that (at once when it started later), and every
    connection that was ever accepted has ended, been drained, returned after its
    cancellation, or been terminated, at most one grace period and one window
    later.  The process is then shutting down, and no connection is lost or
    counted twice. *)
Theorem serve_stops (start s : Z) (l : list (Z * result Stream IoError)) (grace : Z) :
  (0 <= grace)%Z ->
  exists served, serve start (mkTraffic (Some s) l) grace = Some served /\
    let st := served_loop served in
    let p := served_phases served in
    (start <= loop_now st <= Z.max start s)%Z /\
    (served_result served = Ok tt -> loop_now st = Z.max start s) /\
    (loop_now st <= phases_end p <= loop_now st + grace + CANCELLED_REQUEST_WINDOW)%Z /\
    reaped st ++ drained p ++ returned p ++ aborted p ≡ₚ streams (seen (log st)) /\
    shutting_down (phases_lifecycle p) = true.
Proof.
  intros Hg. unfold serve. destruct (serve_loop_decided start (mkTraffic (Some s) l)) as (p & Hp & Hpost & Hna & _).
  rewrite Hp. simpl. assert (forall lc begun st, loop_inv start st -> shutting_down lc = true ->
    let ph := shut_down_connections (connections st) lc begun (loop_now st) grace in
    reaped st ++ drained ph ++ returned ph ++ aborted ph ≡ₚ streams (seen (log st)) /\
    shutting_down (phases_lifecycle ph) = true) as Hph.
  { intros lc begun st [] Hlc. cbv zeta. rewrite phases_partition. split; [done|].
    unfold shut_down_connections. cbv zeta. by destruct (_ <=? _)%Z. }
  destruct p as [st|st|st|st]; simpl in *; [by destruct (Hna st)|..|by destruct Hpost as (_ & _ & ?)].
  - destruct Hpost as (Hi & _ & x & [= <-] & Hnow). eexists. split; [reflexivity|]. simpl. pose proof (inv_time _ _ Hi).
    split_and!; [lia|lia|done|by apply phases_time|by apply phases_time|by apply Hph|by apply Hph].
  - destruct Hpost as (Hi & _ & Hle). specialize (Hle s eq_refl). eexists. split; [reflexivity|]. simpl.
    pose proof (inv_time _ _ Hi). split_and!; [done|done|done|by apply phases_time|by apply phases_time|by apply Hph|by apply Hph].
Qed.
End LoopFacts.

(** ** A concrete run *)

Module Sample.
(** The numbers of the [asm-generic] targets. *)
#[export] Instance linux : AcceptErrno :=
  {| EMFILE := 24; ENFILE := 23; ENOBUFS := 105; ENONET := 64; EPROTO := 71; ENOPROTOOPT := 92; EHOSTDOWN := 112 |}.

(** A connection that ends by itself at [own], [calm] after a graceful shutdown
    was asked for, and [quick] after its cancellation. *)
Record Peer : Type := mkPeer { own : Z; calm : Z; quick : Z }.
#[export] Instance peers : HyperServer Peer := {|
  connection_ends p _ graceful cancelled :=
    let at_most d t := match t with Some t => Z.min (t + d)%Z | None => fun x => x end in
    at_most (calm p) graceful (at_most (quick p) cancelled (own p)) |}.

Definition sec (n : Z) : Z := (n * NANOS_PER_SEC)%Z.
Definition short : Peer := mkPeer (sec 2) 0 0.
Definition polite : Peer := mkPeer (sec 500) (sec 3) 0.
Definition slow : Peer := mkPeer (sec 500) (sec 400) 1.
Definition stuck : Peer := mkPeer (sec 500) (sec 400) (sec 300).

(** Four connections and a descriptor shortage, then SIGTERM at 10 s and a grace
    period of 5 s. *)
Definition arrivals : list (Z * result Peer IoError) :=
  [(sec 1, Ok short); (sec 1, Ok polite); (sec 3, Err (mkIoError (Some 24%Z) (OtherKind "Uncategorized")));
   (sec 3, Ok slow); (sec 4, Ok stuck)].

Example all_phases_used :
  (fun served => (reaped (served_loop served), drained (served_phases served), returned (served_phases served),
                  aborted (served_phases served), cancelled_at (served_phases served))) <$>
    serve (sec 0) (mkTraffic (Some (sec 10)) arrivals) (sec 5) =
  Some ([short], [polite], [slow], [stuck], Some (sec 15)).
Proof. vm_compute. reflexivity. Qed.

Lemma serve_stops_witness :
  exists served, serve (sec 0) (mkTraffic (Some (sec 10)) arrivals) (sec 5) = Some served /\
    loop_now (served_loop served) = sec 10.
Proof.
  destruct (serve_stops (sec 0) (sec 10) arrivals (sec 5)) as (served & Hs & _ & Hok & _); [by vm_compute|].
  exists served. split; [exact Hs|]. rewrite Hok; [reflexivity|].
  vm_compute in Hs. injection Hs as <-. reflexivity.
Defined.

Lemma shutdown_phases_witness :
  aborted (shut_down_connections [polite; slow; stuck] (begin_shutdown lifecycle_new) (sec 10) (sec 10) (sec 5)) = [stuck] /\
  stuck ∈ [polite; slow; stuck].
Proof.
  split; [vm_compute; reflexivity|].
  destruct (shutdown_phases [polite; slow; stuck] (begin_shutdown lifecycle_new) (sec 10) (sec 10) (sec 5))
    as (_ & _ & _ & _ & _ & H & _); [by vm_compute|].
  apply (H stuck). vm_compute. left.
Defined.

(** A listener that reports a bad descriptor sixteen times ends serving. *)
Definition broken : list (Z * result Peer IoError) :=
  replicate 16 (sec 1, Err (mkIoError (Some 9%Z) (OtherKind "Uncategorized"))).
Example broken_listener_is_fatal :
  served_result <$> serve (sec 0) (mkTraffic None broken) (sec 5) = Some (Err ListenerAcceptFailed) /\
  serve (sec 0) (mkTraffic None (take 15 broken)) (sec 5) = None.
Proof. split; vm_compute; reflexivity. Qed.
End Sample.
