(* ===== verification/Process.v ===== *)
(** * Runtime: the process

    Models [src/main.rs] and the rest of [src/runtime/mod.rs]: startup in its fixed
    order, the component report, the signal handlers, the warm-up, serving and the
    final trace flush.  [Serve] models the accept loop it runs.  The operating
    system and Tokio answer through [ProcessWorld]. *)
From S2P Require Import Prelude Core Dns Net Provider GlpiBase GlpiConfig GlpiAdapter AuthBase AuthCache.
From S2P Require Import Routing Orchestration Admission Capacity Http System Failure Observability.
From S2P Require Import Configuration Transport Serve.

Definition TRACE_FLUSH_BUDGET : Z := 2 * NANOS_PER_SEC.

(** ** Data *)

Inductive SignalKind : Type := SIGTERM | SIGINT.
Inductive Level : Type := InfoLevel | WarnLevel.
Inductive OwnedTask : Type := SignalTask | WarmUpTask.

(** What the process does, in order. *)
Inductive ProcessCall (Stream : Type) : Type :=
| ReadVariable (name : string) (answer : option string)
| ReadFile (path : string) (answer : option bytes)
| BuildRuntime (ok : bool)
| ReadResolvConf (answer : option (list NameServer))
| TracingStep (c : TracingCall)
| ComponentGauge (component : string) (available : bool)
| ComponentLog (level : Level) (component message : string)
| BindListener (address : SocketAddr) (ok : bool)
| RegisterSignal (kind : SignalKind) (ok : bool)
| LogServing (tracing_export : bool)
| SpawnTask (task : OwnedTask)
| ServingStarted (warm_up : option SynchronizationContext)
| ServeUntil (outcome : option (Served Stream))
| AbortTask (task : OwnedTask)
| PrintError (message : string).
Arguments ReadVariable {Stream} name answer.
Arguments ReadFile {Stream} path answer.
Arguments BuildRuntime {Stream} ok.
Arguments ReadResolvConf {Stream} answer.
Arguments TracingStep {Stream} c.
Arguments ComponentGauge {Stream} component available.
Arguments ComponentLog {Stream} level component message.
Arguments BindListener {Stream} address ok.
Arguments RegisterSignal {Stream} kind ok.
Arguments LogServing {Stream} tracing_export.
Arguments SpawnTask {Stream} task.
Arguments ServingStarted {Stream} warm_up.
Arguments ServeUntil {Stream} outcome.
Arguments AbortTask {Stream} task.
Arguments PrintError {Stream} message.

(** What the host answers.  [traffic] is everything that will happen while the
    process serves: when each signal arrives, and the listener's answers. *)
Class ProcessWorld (Stream W : Type) : Type := {
  read_variable : string -> W -> option string * W;
  read_file : string -> W -> option bytes * W;
  build_runtime : W -> bool * W;
  read_resolv_conf : W -> option (list NameServer) * W;
  bind_listener : SocketAddr -> W -> bool * W;
  register_signal : SignalKind -> W -> bool * W;
  traffic : W -> (option Z * option Z * list (Z * result Stream IoError)) * W;
}.

(** [await_termination_signal]: when the first of the two signals arrives. *)
Definition await_termination_signal (terminate interrupt : option Z) : option Z :=
  match terminate, interrupt with
  | Some t, Some i => Some (Z.min t i)
  | Some t, None => Some t
  | None, i => i
  end.

(** [spawn_verifier_warm_up]: the context under which the task consults the
    authenticator, once serving has started; none when serving never starts, nor
    when the deadline overflows, which ends the task. *)
Definition spawn_verifier_warm_up (budget : Z) (serving_has_started : option Z) : option SynchronizationContext :=
  match serving_has_started with
  | None => None
  | Some t => mkContext <$> instant_checked_add t budget
  end.

Section Process.
Context {Stream : Type} `{!HyperServer Stream} {Errno : AcceptErrno}.
Context {Sem : Type} `{!Semaphore Sem}.
Context `{Yaml : YamlDeps, ProviderD : ProviderDeps, GlpiD : GlpiConfigDeps, AuthD : AuthDeps, ExportD : ExportDeps}.
Context {W : Type} `{!Clock W, !TracingWorld W, !ProcessWorld Stream W}.
Abbreviation M := (Eff (Tr W (ProcessCall Stream))).

Definition act (c : ProcessCall Stream) : M unit := perform (fun w => (tt, w)) (fun _ => c).
Fixpoint acts (cs : list (ProcessCall Stream)) : M unit :=
  match cs with [] => eret tt | c :: cs => let* _ := act c in acts cs end.

(** The observability operations as steps of the process. *)
Definition lift_event (e : event TracingCall) : event (ProcessCall Stream) :=
  match e with ENow t => ENow t | ECancelled b => ECancelled b | ECall c => ECall (TracingStep c) end.
Definition observe {A} (m : Eff (Tr W TracingCall) A) : M A :=
  fun s => let '(a, s') := m (mkTr (world s) []) in (a, mkTr (world s') (trace s ++ (lift_event <$> trace s'))).

(** The routes of [serve_configured] that select the GLPI adapter. *)
Definition glpi_routes (c : RuntimeConfiguration) : list string :=
  logical_target <$> filter (fun t => adapter_identifier t = GLPI_ADAPTER_IDENTIFIER) (targets c).

(** [glpi_usable] of [report_component_availability]. *)
Definition glpi_usable (app : ComposedApplication) (routes : list string) : bool :=
  match routes with
  | [] => false
  | route :: _ =>
      match logical_target_try_from route with
      | Ok target => match resolve_target app target with TargetIsUsable _ => true | _ => false end
      | Err _ => false
      end
  end.

(** One component of [report_component_availability]: its gauge and its log line. *)
Definition report_component (component : string) (usable silent : bool) (outcome : ComponentOutcome)
    (unusable invalid : string) : list (ProcessCall Stream) :=
  ComponentGauge component usable ::
  match outcome with
  | Configured => if silent then [] else [ComponentLog WarnLevel component unusable]
  | Invalid => [ComponentLog WarnLevel component invalid]
  | Absent => [ComponentLog InfoLevel component "component is not configured and is therefore unavailable"]
  end.

(** [report_component_availability]. *)
Definition report_component_availability (app : ComposedApplication) (provider_outcome glpi_outcome : ComponentOutcome)
    (routes : list string) : list (ProcessCall Stream) :=
  let provider_usable := bool_decide (is_Some (composed_provider app)) in
  report_component "provider" provider_usable provider_usable provider_outcome
    "configured component could not produce a usable instance; selected-target synchronization will fail server-side"
    "component configuration was present but unusable; the component is unavailable" ++
  report_component "glpi" (glpi_usable app routes) (glpi_usable app routes || bool_decide (routes = [])) glpi_outcome
    "configured component could not produce a usable instance; configured routes selecting it stay recognized and unavailable"
    "component configuration was present but unusable; configured routes selecting it stay recognized and unavailable".

(** [register_termination_signals_with], through [signal]. *)
Definition register_termination_signals : M (result unit RuntimeFailure) :=
  let* terminate := perform (register_signal SIGTERM) (RegisterSignal SIGTERM) in
  if negb terminate then eret (Err SignalRegistrationFailed) else
  let* interrupt := perform (register_signal SIGINT) (RegisterSignal SIGINT) in
  if negb interrupt then eret (Err SignalRegistrationFailed) else eret (Ok tt).

(** [serve] as the process runs it: it announces that serving has started, which
    is what the warm-up waits for, and then runs its loop. *)
Definition run_serve (metadata_operation_timeout shutdown_grace : Z) : M (option (Served Stream)) :=
  let* start := read_now in
  let* _ := act (ServingStarted (spawn_verifier_warm_up metadata_operation_timeout (Some start))) in
  perform (fun w =>
    let '((terminate, interrupt, answers), w) := traffic w in
    (serve start (mkTraffic (await_termination_signal terminate interrupt) answers) shutdown_grace, w))
    ServeUntil.

(** [bind_and_serve]; [None] while the process is still serving. *)
Definition bind_and_serve (listen_address : SocketAddr) (shutdown_grace metadata_operation_timeout : Z)
    (tracing_enabled : bool) : M (option (result unit RuntimeFailure)) :=
  let* bound := perform (bind_listener listen_address) (BindListener listen_address) in
  if negb bound then eret (Some (Err ListenerUnavailable)) else
  let* signals := register_termination_signals in
  match signals with
  | Err e => eret (Some (Err e))
  | Ok _ =>
      let* _ := acts [LogServing tracing_enabled; SpawnTask WarmUpTask; SpawnTask SignalTask] in
      let* served := run_serve metadata_operation_timeout shutdown_grace in
      match served with
      | None => eret None
      | Some served =>
          let* _ := acts [AbortTask SignalTask; AbortTask WarmUpTask] in
          eret (Some (served_result served))
      end
  end.

(** [serve_configured].  Serving reads the configuration through [RuntimeState],
    which [Transport] models. *)
Definition serve_configured (c : ExecutableConfiguration) : M (option (result unit RuntimeFailure)) :=
  let* conf := perform read_resolv_conf ReadResolvConf in
  match compose conf (runtime c) with
  | Err _ => eret (Some (Err InvalidComposition))
  | Ok app =>
      match admission_new (Sem := Sem) (N.to_nat (inbound_admission_limit c)),
            semaphore_capacity_new (synchronization_capacity c) with
      | Some _, Some _ =>
          let* initialized := observe (initialize (observability c)) in
          match initialized with
          | Err e => eret (Some (Err e))
          | Ok obs =>
              let* _ := acts (report_component_availability app (provider_outcome c) (glpi_outcome c)
                (glpi_routes (runtime c))) in
              let* result := bind_and_serve (listener_socket c) (shutdown_grace c)
                (metadata_operation_timeout c) (tracing_enabled obs) in
              match result with
              | None => eret None
              | Some result =>
                  let* _ := observe (shutdown_tracing obs TRACE_FLUSH_BUDGET) in
                  eret (Some result)
              end
          end
      | _, _ => eret (Some (Err InvalidRequestSection))
      end
  end.

(** [run]. *)
Definition run : M (option (result unit RuntimeFailure)) :=
  let* var := perform (read_variable CONFIGURATION_PATH_VARIABLE) (ReadVariable CONFIGURATION_PATH_VARIABLE) in
  match configuration_path var with
  | Err e => eret (Some (Err e))
  | Ok path =>
      let* read := perform (read_file path) (ReadFile path) in
      match load (Sem := Sem) read with
      | Err e => eret (Some (Err e))
      | Ok c =>
          let* built := perform build_runtime BuildRuntime in
          if negb built then eret (Some (Err AsyncRuntimeUnavailable)) else serve_configured c
      end
  end.

Inductive ExitCode : Type := SUCCESS | FAILURE.

(** [main]. *)
Definition main : M (option ExitCode) :=
  let* r := run in
  match r with
  | None => eret None
  | Some (Ok _) => eret (Some SUCCESS)
  | Some (Err failure) =>
      let* _ := act (PrintError ("permissionsync: " ++ runtime_failure_display failure)) in
      eret (Some FAILURE)
  end.
End Process.

(** ** Facts *)

#[local] Arguments acts : simpl never.

Section ProcessFacts.
Context {Stream : Type} `{!HyperServer Stream} {Errno : AcceptErrno}.
Context {Sem : Type} `{!Semaphore Sem}.
Context `{Yaml : YamlDeps, ProviderD : ProviderDeps, GlpiD : GlpiConfigDeps, AuthD : AuthDeps, ExportD : ExportDeps}.
Context {W : Type} `{!Clock W, !TracingWorld W, !ProcessWorld Stream W}.
Abbreviation M := (Eff (Tr W (ProcessCall Stream))).
Abbreviation Calls := (list (ProcessCall Stream)).

Lemma calls_lift (l : list (event TracingCall)) :
  calls (lift_event (Stream := Stream) <$> l) = TracingStep <$> calls l.
Proof. induction l as [|[t|b|c] l IH]; simpl; [done|exact IH|exact IH|]. unfold calls in *. simpl. by f_equal. Qed.

Lemma observe_emits {A} (m : Eff (Tr W TracingCall) A) Q :
  emits m Q -> emits (observe (Stream := Stream) m) (fun l a => exists l0, calls l = TracingStep <$> calls l0 /\ Q l0 a).
Proof.
  intros Hm s. unfold observe. destruct (Hm (mkTr (world s) [])) as (l & Hl & HQ).
  destruct (m (mkTr (world s) [])) as [a s']. simpl in *. subst l. eexists. split; [done|]. rewrite calls_lift. eauto.
Qed.

Lemma acts_emits (cs : Calls) : emits (W := W) (acts cs) (fun l _ => calls l = cs).
Proof.
  induction cs as [|c cs IH]; [by apply emits_ret|]. change (acts (W := W) (c :: cs)) with (let* _ := act (W := W) c in acts cs).
  eapply emits_bind; [apply emits_performed|].
  intros l1 _ ->. eapply emits_conseq; [exact IH|]. intros l2 [] Hl2. by rewrite calls_app, Hl2.
Qed.

(** *** Observability *)

(** The calls of an initialization that succeeded, and of one that did not. *)
Definition initialized_calls (c : ObservabilityConfiguration) : list TracingCall :=
  [SetBuckets true; TryInit (log_level c) (bool_decide (is_Some (tracing c))) true; SetGlobalRecorder true].
Inductive initialization_failed (c : ObservabilityConfiguration) : list TracingCall -> RuntimeFailure -> Prop :=
| no_buckets : initialization_failed c [SetBuckets false] ObservabilityUnavailable
| no_exporter t : tracing c = Some t -> exporter_builds (tracing_endpoint t) = false ->
    initialization_failed c [SetBuckets true] InvalidObservability
| no_subscriber x : initialization_failed c [SetBuckets true; TryInit (log_level c) x false] ObservabilityUnavailable
| no_recorder x : initialization_failed c [SetBuckets true; TryInit (log_level c) x true; SetGlobalRecorder false]
    ObservabilityUnavailable.

Lemma required_emits (f : W -> bool * W) (record : bool -> TracingCall) e :
  emits (required (perform f record) e) (fun l r => calls l = [record (match r with Ok _ => true | Err _ => false end)] /\
    match r with Ok _ => True | Err e' => e' = e end).
Proof.
  unfold required. eapply emits_bind; [apply emits_performed|]. intros l1 [] ->; by apply emits_ret.
Qed.

Lemma initialize_emits (c : ObservabilityConfiguration) :
  emits (W := W) (initialize c) (fun l r =>
    match r with
    | Ok o => calls l = initialized_calls c /\ tracing_enabled o = bool_decide (is_Some (tracing c))
    | Err e => initialization_failed c (calls l) e
    end).
Proof.
  unfold initialize. eapply emits_try; [apply required_emits| |].
  2:{ intros l e [-> ->]. constructor. }
  intros l1 _ [H1 _]. apply emits_lift.
  2:{ intros e. rewrite app_nil_r, H1. destruct (tracing c) as [t|] eqn:Et; [|done]. unfold build_tracer_provider.
      destruct (exporter_builds _) eqn:Eb; simpl; [done|]. intros [= <-]. by econstructor. }
  intros provider Hp. assert (bool_decide (is_Some provider) = bool_decide (is_Some (tracing c))) as E.
  { destruct (tracing c) as [t|]; simpl in Hp; [|by injection Hp as <-].
    destruct (build_tracer_provider t); simpl in Hp; [by injection Hp as <-|done]. }
  eapply emits_try; [apply required_emits| |].
  2:{ intros l e [H2 ->]. rewrite calls_app, H1, H2. constructor. }
  intros l2 _ [H2 _]. eapply emits_try; [apply required_emits| |].
  2:{ intros l e [H3 ->]. rewrite !calls_app, H1, H2, H3. constructor. }
  intros l3 _ [H3 _]. apply emits_ret. rewrite !calls_app, H1, H2, H3, E. done.
Qed.

(** *** Serving *)

(** The histories of [bind_and_serve]: no listener, no signal handlers, or a
    listener and both handlers, the warm-up only after serving has started, and the
    owned tasks aborted when serving ends. *)
Inductive serving_run (c : ExecutableConfiguration) (export : bool)
    : Calls -> option (result unit RuntimeFailure) -> Prop :=
| listener_refused :
    serving_run c export [BindListener (listener_socket c) false] (Some (Err ListenerUnavailable))
| terminate_refused :
    serving_run c export [BindListener (listener_socket c) true; RegisterSignal SIGTERM false]
      (Some (Err SignalRegistrationFailed))
| interrupt_refused :
    serving_run c export
      [BindListener (listener_socket c) true; RegisterSignal SIGTERM true; RegisterSignal SIGINT false]
      (Some (Err SignalRegistrationFailed))
| serving_reached start traffic :
    let outcome := serve start traffic (shutdown_grace c) in
    serving_run c export
      ([BindListener (listener_socket c) true; RegisterSignal SIGTERM true; RegisterSignal SIGINT true;
        LogServing export; SpawnTask WarmUpTask; SpawnTask SignalTask;
        ServingStarted (spawn_verifier_warm_up (metadata_operation_timeout c) (Some start)); ServeUntil outcome] ++
       (if outcome is Some _ then [AbortTask SignalTask; AbortTask WarmUpTask] else []))
      (served_result <$> outcome).

Lemma register_emits :
  emits (W := W) (register_termination_signals (Stream := Stream)) (fun l r =>
    match r with
    | Ok _ => calls l = [RegisterSignal SIGTERM true; RegisterSignal SIGINT true]
    | Err e => e = SignalRegistrationFailed /\
        (calls l = [RegisterSignal SIGTERM false] \/
         calls l = [RegisterSignal SIGTERM true; RegisterSignal SIGINT false])
    end).
Proof.
  unfold register_termination_signals. eapply emits_bind; [apply emits_performed|]. intros l1 [] ->; simpl.
  - eapply emits_bind; [apply emits_performed|]. intros l2 [] ->; apply emits_ret; auto.
  - apply emits_ret. auto.
Qed.

Lemma run_serve_emits budget grace :
  emits (W := W) (run_serve (Stream := Stream) budget grace) (fun l r => exists start traffic,
    r = serve start traffic grace /\
    calls l = [ServingStarted (spawn_verifier_warm_up budget (Some start)); ServeUntil r]).
Proof.
  unfold run_serve. eapply emits_bind; [by apply (emits_now (fun l t => l = [ENow t]))|]. intros l1 start ->.
  eapply emits_bind; [apply emits_performed|]. intros l2 _ ->.
  eapply emits_conseq; [apply emits_performed_from|]. intros l r [-> (w & w' & E)].
  destruct (traffic w) as [[[terminate interrupt] answers] w1]. injection E as <- _.
  exists start, (mkTraffic (await_termination_signal terminate interrupt) answers). done.
Qed.

Lemma bind_and_serve_emits c export :
  emits (W := W) (bind_and_serve (listener_socket c) (shutdown_grace c) (metadata_operation_timeout c) export)
    (fun l r => serving_run c export (calls l) r).
Proof.
  unfold bind_and_serve. eapply emits_bind; [apply emits_performed|]. intros l1 [] ->; simpl.
  2:{ apply emits_ret. constructor. }
  eapply emits_bind; [apply register_emits|]. intros l2 [u|e] H2.
  2:{ destruct H2 as [-> H2]. apply emits_ret. rewrite app_nil_r. simpl. destruct H2 as [-> | ->]; constructor. }
  eapply emits_bind; [apply acts_emits|]. intros l3 [] H3.
  eapply emits_bind; [apply run_serve_emits|]. intros l4 served (start & tr & -> & H4).
  destruct (serve start tr (shutdown_grace c)) as [served|] eqn:Es.
  - eapply emits_bind; [apply acts_emits|]. intros l5 [] H5. apply emits_ret. rewrite app_nil_r. simpl.
    rewrite !calls_app, H2, H3, H4, H5. pose proof (serving_reached c export start tr) as H. rewrite Es in H. exact H.
  - apply emits_ret. rewrite app_nil_r. simpl.
    rewrite !calls_app, H2, H3, H4. pose proof (serving_reached c export start tr) as H. rewrite Es in H. exact H.
Qed.

(** *** The whole process *)

(** The ways to end before anything is observable, bound or served. *)
Inductive unconfigured : Calls -> RuntimeFailure -> Prop :=
| path_missing var :
    configuration_path var = Err ConfigurationPathMissing ->
    unconfigured [ReadVariable CONFIGURATION_PATH_VARIABLE var] ConfigurationPathMissing
| not_loaded var path read e :
    configuration_path var = Ok path -> load (Sem := Sem) read = Err e ->
    unconfigured [ReadVariable CONFIGURATION_PATH_VARIABLE var; ReadFile path read] e
| no_runtime var path read c :
    configuration_path var = Ok path -> load (Sem := Sem) read = Ok c ->
    unconfigured [ReadVariable CONFIGURATION_PATH_VARIABLE var; ReadFile path read; BuildRuntime false]
      AsyncRuntimeUnavailable
| not_composed var path read c conf e :
    configuration_path var = Ok path -> load (Sem := Sem) read = Ok c -> compose conf (runtime c) = Err e ->
    unconfigured [ReadVariable CONFIGURATION_PATH_VARIABLE var; ReadFile path read; BuildRuntime true;
      ReadResolvConf conf] InvalidComposition.

(** A configuration that was read, validated and composed. *)
Inductive prepared (c : ExecutableConfiguration) (app : ComposedApplication) : Calls -> Prop :=
| prepared_by var path read conf :
    configuration_path var = Ok path -> load (Sem := Sem) read = Ok c -> compose conf (runtime c) = Ok app ->
    prepared c app [ReadVariable CONFIGURATION_PATH_VARIABLE var; ReadFile path read; BuildRuntime true;
      ReadResolvConf conf].

Definition exports (c : ExecutableConfiguration) : bool := bool_decide (is_Some (tracing (observability c))).

(** The steps between composition and the listener. *)
Definition announced (c : ExecutableConfiguration) (app : ComposedApplication) : Calls :=
  (TracingStep <$> initialized_calls (observability c)) ++
  report_component_availability app (provider_outcome c) (glpi_outcome c) (glpi_routes (runtime c)).

Inductive history : Calls -> option (result unit RuntimeFailure) -> Prop :=
| ended_unconfigured cs e : unconfigured cs e -> history cs (Some (Err e))
| ended_unobserved c app cs tracing e :
    prepared c app cs -> initialization_failed (observability c) tracing e ->
    history (cs ++ (TracingStep <$> tracing)) (Some (Err e))
| ended_served c app cs serving flush r :
    prepared c app cs -> serving_run c (exports c) serving (Some r) -> flushed TRACE_FLUSH_BUDGET (exports c) flush ->
    history (cs ++ announced c app ++ serving ++ (TracingStep <$> flush)) (Some r)
| still_serving c app cs serving :
    prepared c app cs -> serving_run c (exports c) serving None ->
    history (cs ++ announced c app ++ serving) None.

Lemma serve_configured_emits c (pre : Calls) :
  (forall conf app, compose conf (runtime c) = Ok app -> prepared c app (pre ++ [ReadResolvConf conf])) ->
  (forall conf e, compose conf (runtime c) = Err e ->
    history (pre ++ [ReadResolvConf conf]) (Some (Err InvalidComposition))) ->
  wellformed (Sem := Sem) c ->
  emits (W := W) (serve_configured (Sem := Sem) c) (fun l r => history (pre ++ calls l) r).
Proof.
  intros Hok Herr Hwf. unfold serve_configured. eapply emits_bind; [apply emits_performed|]. intros l1 conf ->.
  destruct (compose conf (runtime c)) as [app|e] eqn:Ec; [|by eapply emits_ret, Herr]. specialize (Hok conf app Ec).
  destruct (wf_admission _ Hwf) as [_ [a ->]], (wf_capacity _ Hwf) as [_ [k ->]].
  eapply emits_bind; [apply observe_emits, initialize_emits|]. intros l2 [obs|e] (l0 & H2 & Hi).
  2:{ apply emits_ret. rewrite app_nil_r, calls_app, H2, app_assoc. by eapply ended_unobserved. }
  destruct Hi as [Hi Hex]. eapply emits_bind; [apply acts_emits|]. intros l3 [] H3. rewrite Hex.
  eapply emits_bind; [apply bind_and_serve_emits|]. intros l4 [r|] H4.
  - eapply emits_bind; [apply observe_emits, shutdown_tracing_emits|]. intros l5 [] (l6 & H5 & Hf). apply emits_ret.
    rewrite Hex in Hf. rewrite app_nil_r, !calls_app, H2, H3, H5, Hi. simpl calls.
    pose proof (ended_served c app _ _ _ r Hok H4 Hf) as H. unfold announced in H. by rewrite <- !app_assoc in H.
  - apply emits_ret. rewrite app_nil_r, !calls_app, H2, H3, Hi. simpl calls.
    pose proof (still_serving c app _ _ Hok H4) as H. unfold announced in H. by rewrite <- !app_assoc in H.
Qed.

Lemma process_run_emits : emits (W := W) (run (Stream := Stream) (Sem := Sem)) (fun l r => history (calls l) r).
Proof.
  unfold run. eapply emits_bind; [apply emits_performed|]. intros l1 var ->.
  destruct (configuration_path var) as [path|e] eqn:Ep.
  2:{ apply emits_ret. assert (e = ConfigurationPathMissing) as ->.
      { unfold configuration_path in Ep. repeat case_match; congruence. } by apply ended_unconfigured, path_missing. }
  eapply emits_bind; [apply emits_performed|]. intros l2 read ->.
  destruct (load read) as [c|e] eqn:El; [|by apply emits_ret, ended_unconfigured, not_loaded].
  eapply emits_bind; [apply emits_performed|]. intros l3 [] ->; simpl;
    [|by eapply emits_ret, ended_unconfigured, no_runtime].
  eapply emits_conseq; [apply (serve_configured_emits c [ReadVariable CONFIGURATION_PATH_VARIABLE var;
    ReadFile path read; BuildRuntime true])|done].
  - intros conf app Hc. by econstructor.
  - intros conf e Hc. by eapply ended_unconfigured, not_composed.
  - by eapply load_ok.
Qed.

(** C19: the histories of the process.  Nothing is initialized, bound or served
    before one configuration was read, validated and composed; every failure before
    that leaves no trace but the reads, and no constructor after it can fail.  Then
    observability is initialized, the components are reported, the listener is
    bound, both signal handlers are installed, and only then is anything served,
    with the warm-up after the start.  Whenever observability was initialized and
    the process ends, for whatever reason, the exporter is flushed last, bounded by
    its budget, and not at all when there is none.  The exit code is success exactly
    when serving ended by a shutdown; otherwise one line of fixed text naming the
    category is printed. *)
Theorem process_history (w : W) :
  let '(r, s) := main (Stream := Stream) (Sem := Sem) (mkTr w []) in
  exists cs o, history cs o /\
    match o with
    | None => r = None /\ calls (trace s) = cs
    | Some (Ok _) => r = Some SUCCESS /\ calls (trace s) = cs
    | Some (Err e) => r = Some FAILURE /\
        calls (trace s) = cs ++ [PrintError ("permissionsync: " ++ runtime_failure_display e)]
    end.
Proof.
  unfold main, ebind. pose proof (emits_run _ _ w process_run_emits) as H.
  destruct (run (mkTr w [])) as [o s]. simpl in H.
  destruct o as [[]|]; simpl; eexists _, _; (split; [exact H|]); [done| |done]. simpl. by rewrite calls_app.
Qed.

(** When shutdown began: at the signal, or when the listener failed for good. *)
Definition shutdown_begun (signal : option Z) (served : Served Stream) : Z :=
  match served_result served with
  | Ok _ => default (loop_now (served_loop served)) signal
  | Err _ => loop_now (served_loop served)
  end.

(** C38: the configured grace period covers the requests in flight.  Take any
    configuration that loads, any traffic, and the moment shutdown began, by a signal or
    because the listener failed for good.  If every connection of the loop that would
    still be open after that moment, asked at that moment to finish, does so within the
    overall request deadline from it, then no request is cancelled and no connection is
    terminated: all of them drain within that deadline. *)
Theorem grace_covers_requests (read : option bytes) (c : ExecutableConfiguration) (start : Z)
    (terminate interrupt : option Z) (answers : list (Z * result Stream IoError)) (served : Served Stream) :
  let signal := await_termination_signal terminate interrupt in
  let begun := shutdown_begun signal served in
  load (Sem := Sem) read = Ok c ->
  serve start (mkTraffic signal answers) (shutdown_grace c) = Some served ->
  (forall stream, stream ∈ connections (served_loop served) ->
    (begun < connection_ends stream HEADER_READ_TIMEOUT None None)%Z ->
    (connection_ends stream HEADER_READ_TIMEOUT (Some begun) None <= begun + overall_request_deadline c)%Z) ->
  let p := served_phases served in
  drained p = connections (served_loop served) /\ returned p = [] /\ aborted p = [] /\ cancelled_at p = None /\
  requests_cancelled (phases_lifecycle p) = false /\
  (phases_end p <= loop_now (served_loop served) + overall_request_deadline c)%Z.
Proof.
  intros signal begun Hload Hserve Hends. pose proof (load_ok _ _ Hload) as Hwf.
  destruct (wf_grace _ Hwf), (wf_deadline _ Hwf).
  set (tr := mkTraffic signal answers) in Hserve. subst begun. revert Hserve Hends. unfold serve.
  destruct (serve_loop_decided start tr) as (p & -> & Hpost & _).
  destruct p as [st|st|st|st]; simpl in *; try done; intros [= <-] Hends; simpl in *.
  - destruct Hpost as (_ & _ & s & Hs & Hnow). unfold tr in Hs. simpl in Hs. unfold shutdown_begun in Hends.
    rewrite Hs in Hends |- *. simpl in Hends |- *.
    destruct (phases_in_time (connections st) (begin_shutdown lifecycle_new) s (loop_now st) (shutdown_grace c)
      (overall_request_deadline c)) as (-> & -> & -> & -> & -> & ?); [lia|lia|exact Hends|done].
  - destruct (phases_in_time (connections st) (begin_shutdown lifecycle_new) (loop_now st) (loop_now st)
      (shutdown_grace c) (overall_request_deadline c)) as (-> & -> & -> & -> & -> & ?); [lia|lia|exact Hends|done].
Qed.

(** *** The component report *)

Lemma configured_elem (c : RuntimeConfiguration) t :
  NoDup (logical_target <$> targets c) -> t ∈ targets c ->
  configured c (mkLogicalTarget (logical_target t)) = Some t.
Proof.
  intros Hnd Ht. unfold configured.
  destruct (list_find _ (targets c)) as [[i x]|] eqn:E; simpl.
  - apply list_find_Some in E as (Hi & Hx & _). simpl in Hx. apply list_elem_of_lookup in Ht as [j Hj].
    assert (i = j) as ->; [|by simplify_eq].
    apply (NoDup_lookup _ _ _ (logical_target t) Hnd); rewrite list_lookup_fmap; [by rewrite Hi; simpl; f_equal|by rewrite Hj].
  - apply list_find_None in E. rewrite Forall_forall in E. by destruct (E t Ht).
Qed.

(** The GLPI gauge speaks for every route.  It is decided on the first
    configured route that selects GLPI, and it is 1 exactly when that route, and
    then every such route, resolves to a usable adapter; without such a route it
    is 0. *)
Lemma glpi_report_covers_routes (conf : option (list NameServer)) (c : RuntimeConfiguration)
    (app : ComposedApplication) :
  compose conf c = Ok app ->
  (glpi_routes c = [] -> glpi_usable app (glpi_routes c) = false) /\
  (forall t, t ∈ targets c -> adapter_identifier t = GLPI_ADAPTER_IDENTIFIER ->
    (glpi_usable app (glpi_routes c) = true <->
     exists a, resolve_target app (mkLogicalTarget (logical_target t)) = TargetIsUsable a)).
Proof.
  intros Hc. apply compose_resolves in Hc as (Hvalid & Hnd & Hres). split; [by intros ->|].
  assert (forall t, t ∈ targets c -> adapter_identifier t = GLPI_ADAPTER_IDENTIFIER ->
    resolve_target app (mkLogicalTarget (logical_target t)) =
    match glpi_adapter_new <$> configured_glpi c with
    | Some (Ok adapter) => TargetIsUsable (mkInstrumentedAdapter adapter) | _ => TargetIsUnavailable end) as Hall.
  { intros t Ht Hg. rewrite Hres. unfold availability. rewrite configured_elem by done. by rewrite bool_decide_true. }
  intros t Ht Hg. rewrite (Hall t Ht Hg). unfold glpi_usable, glpi_routes.
  destruct (filter _ (targets c)) as [|x rest] eqn:Ef.
  { assert (t ∈ filter (fun t => adapter_identifier t = GLPI_ADAPTER_IDENTIFIER) (targets c)) as H
      by (by apply list_elem_of_filter). rewrite Ef in H. by apply not_elem_of_nil in H. }
  assert (x ∈ filter (fun t => adapter_identifier t = GLPI_ADAPTER_IDENTIFIER) (targets c)) as Hx by (rewrite Ef; left).
  apply list_elem_of_filter in Hx as [Hxg Hx]. simpl. rewrite Forall_forall in Hvalid. rewrite (Hvalid x Hx), (Hall x Hx Hxg).
  destruct (glpi_adapter_new <$> configured_glpi c) as [[a|]|]; (split; [|by intros []]); [eauto|done..].
Qed.
End ProcessFacts.

(** ** A concrete process

    The configuration of [Configuration.Sample] and the connections of
    [Serve.Sample]; SIGTERM arrives after ten seconds. *)
Module Sample.
#[local] Existing Instances Configuration.Sample.semaphore Configuration.Sample.auth_deps
  Configuration.Sample.export_deps Configuration.Sample.yaml Serve.Sample.linux Serve.Sample.peers
  System.Sample.names System.Sample.provider_deps System.Sample.glpi_deps.
Import Serve.Sample.

#[local] Instance clock : Clock bool := {| now := fun w => (0%Z, w); is_cancelled := fun w => (false, w) |}.
#[local] Instance registries : TracingWorld bool := {|
  set_buckets := fun w => (true, w); try_init := fun _ _ w => (true, w); set_global_recorder := fun w => (true, w);
  spawn_flush_thread := fun _ w => (true, w); flush_thread_ended := fun w => (false, w); await_flushed := fun _ w => w |}.

(** The world says whether the listener can be bound. *)
#[local] Instance host : ProcessWorld Peer bool := {|
  read_variable := fun _ w => (Some "permissionsync.yaml", w); read_file := fun _ w => (Configuration.Sample.file, w);
  build_runtime := fun w => (true, w); read_resolv_conf := fun w => (None, w);
  bind_listener := fun _ w => (w, w); register_signal := fun _ w => (true, w);
  traffic := fun w => ((Some (sec 10), None, arrivals), w) |}.

Definition run_main (bound : bool) := main (Stream := Peer) (Sem := nat) (mkTr bound []).

(** It serves, shuts down and succeeds; without a listener it fails, and flushes. *)
Example ends_well : (run_main true).1 = Some SUCCESS.
Proof. vm_compute. reflexivity. Qed.
Example ends_without_listener : (run_main false).1 = Some FAILURE /\
  drop 7 (calls (trace (run_main false).2)) =
    [ComponentGauge "provider" false;
     ComponentLog WarnLevel "provider" "component configuration was present but unusable; the component is unavailable";
     ComponentGauge "glpi" true; BindListener (mkSocketAddr (V4 0) 8080) false;
     TracingStep (SpawnFlushThread TRACE_FLUSH_BUDGET true); TracingStep (FlushThreadEnded false);
     TracingStep DropHandle; TracingStep (AwaitFlushed TRACE_FLUSH_BUDGET);
     PrintError "permissionsync: the configured listener could not be bound"].
Proof. split; vm_compute; reflexivity. Qed.

Definition executable : ExecutableConfiguration :=
  Eval vm_compute in match load (Sem := nat) Configuration.Sample.file with
    | Ok c => c
    | Err _ => mkExecutable (mkSocketAddr (V4 0) 0) 0 0 0 0 AuthCache.Sample.config 0 (mkObservability LogInfo None)
        (mkRuntimeConfiguration None None []) Absent Absent
    end.

(** Two connections that finish within the deadline are drained. *)
Definition calm_arrivals : list (Z * result Peer IoError) := [(sec 1, Ok short); (sec 1, Ok polite)].
Definition calm_traffic : Traffic Peer :=
  mkTraffic (await_termination_signal (Some (sec 10)) (Some (sec 11))) calm_arrivals.
Lemma grace_covers_requests_witness :
  (fun served => drained (served_phases served)) <$> serve (sec 0) calm_traffic (shutdown_grace executable) = Some [polite].
Proof.
  destruct (serve (sec 0) calm_traffic (shutdown_grace executable)) as [served|] eqn:E; [|vm_compute in E; discriminate].
  assert (connections (served_loop served) = [polite]) as Hl by (vm_compute in E; injection E as <-; reflexivity).
  simpl. destruct (grace_covers_requests (Sem := nat) Configuration.Sample.file executable (sec 0)
    (Some (sec 10)) (Some (sec 11)) calm_arrivals served)
    as (Hd & _); [vm_compute; reflexivity|exact E| |].
  - rewrite Hl. intros stream ->%list_elem_of_singleton _. simpl. unfold sec, NANOS_PER_SEC. lia.
  - f_equal. rewrite Hd. exact Hl.
Defined.

Lemma application_composed : compose None System.Sample.conf = Ok System.Sample.application.
Proof.
  assert (is_ok (compose None System.Sample.conf) = true) as H by (vm_compute; reflexivity).
  unfold System.Sample.application. by destruct (compose None System.Sample.conf).
Qed.

Lemma glpi_report_covers_routes_witness :
  exists a, resolve_target System.Sample.application (mkLogicalTarget "glpi") = TargetIsUsable a.
Proof.
  destruct (glpi_report_covers_routes None System.Sample.conf System.Sample.application
    application_composed) as [_ H].
  apply (H (mkConfiguredTarget "glpi" "glpi")); [left|reflexivity|vm_compute; reflexivity].
Defined.
End Sample.
